(* ===== verification/_CoqProject ===== *)
-Q . S2P
Prelude.v
Strs.v
Matcher.v
Json.v
Extern.v
Toy.v
Protocol.v
Policy.v
Enrollment.v
Replay.v
Identity.v
Concurrent.v
AuditChain.v
Transcript.v
Session.v
SessionTasks.v
SshCa.v
Gateway.v
GatewayProps.v
Scenarios.v
SessionSerial.v
Guard.v
Transport.v
Endpoint.v
Events.v
KnownHosts.v
PinTasks.v
Ssh.v
Http.v
Vault.v
Keyring.v
Helper.v
Import.v
Feed.v
Db.v
Console.v
UiWeb.v
UiOps.v
UiPages.v
Cli.v
Serve.v
