(* ===== verification/Prelude.v ===== *)
(** Verification of the Chaperone credential gateway.

    Chaperone brokers credentials for agents.  An agent sends a signed intent
    over a local channel; the gateway verifies who sent it, asks the policy
    whether the action is allowed, asks a human where the policy says so, and
    only then fetches a secret, spends it on the target (an HTTP call, a
    database statement, an SSH or privileged session) and returns the answer.
    Everything that happens is recorded in a signed hash chain.

    This file is the root of the library and its prelude: byte strings and
    their literals, Rust's [Result] as a monad, machine-width arithmetic, list
    lemmas, the hint database [chaperone] and the tactics used throughout.

    ** Parts of the program and where they are modelled

    Source files are under src/crates/.

    - [Strs]: the byte-string functions of the standard library that the code
      uses (search, split, trim with Unicode white space, decimal and
      hexadecimal numerals, UTF-8 validation).  [Json]: [serde_json::Value]
      with its ordered maps and accessors.
    - [Extern]: one class per third-party crate (base64, JSON text and RFC 8785
      canonical form, SHA-256, Ed25519, RFC 3339 time, Debug rendering, serde
      text of a struct, AES-GCM, Argon2id), whose laws are the documented facts the theorems use.
      [Toy]: executable instances of these classes, which show that the laws
      can hold together and let the witnesses evaluate.  [Policy.Toml],
      [SshCa.SshKeys], [Http.HttpClient], [Helper.AllowToml], [Ssh.Russh],
      [Endpoint.LocalSockets] and [Keyring.KeyStore] are the classes of crates
      used by one component only.
    - [Matcher] (policy/src/matcher.rs), [Policy] (policy/src/lib.rs): rules,
      evaluation, limits, loading and writing of the rule file.
    - [Protocol] (protocol/src): error codes, the signed envelope and its
      serialization, canonical form, operation bodies, postgres target URIs.
    - [Enrollment], [Replay], [Identity] (identity/src): the enrolment store and
      the replay journal, each with the content of its file as part of its
      state, and [verify], the front door.  [Concurrent]: the same operations
      cut at the locks they take, and all interleavings of any number of calls.
    - [AuditChain] (audit/src: event.rs, keys.rs, writer.rs, verify.rs): sealing,
      writing, resuming and verifying the chain; [Transcript]
      (audit/src/transcript.rs): the transcript of one run, on the same chain.
    - [Session] (gateway-core/src/session.rs): the session table.
      [SessionTasks] (session.rs and the session frames and liveness scan of
      lib.rs): frames and scans cut at the locks of the table and of the
      channels, and all interleavings of any number of them.  [SessionSerial]:
      a frame that runs alone against the handlers of [Gateway].  [SshCa]
      (gateway-core/src/ssh_ca*.rs): the certificate authority.
    - [Gateway] (gateway-core/src/lib.rs): the record [Gateway] is the struct of
      the same name; handlers are programs of the monad [M], which passes the
      gateway's state, appends every action on the outside world to a trace and
      may panic.  [World] is what one message meets: clocks, entropy, outcomes
      of file operations, the human, the vault, the backends, the channels.
      [GatewayProps] has further theorems on the handlers, [Scenarios] concrete
      runs.
    - [Guard] (gateway-core/src/policy_guard.rs): the drift watch over the
      gateway.  [Events] (gateway-core/src/events.rs): the live feed, as a step
      relation between the broker, the accept loop and the delivery threads.
      [KnownHosts] (gateway-core/src/known_hosts.rs and the host-key check of
      ssh.rs): pinned host keys.  [PinTasks]: the same operations cut where they
      release the mutex of the store, and all interleavings of them.  [Ssh] (gateway-core/src/ssh.rs): connecting,
      and the reads and writes of a session, over an arbitrary SSH client.
    - [Http] (injectors/src): the HTTP injector with an arbitrary target.
    - [Vault] (vault/src): the encrypted local store with its file, the
      passphrase sealer, the provider and router the daemon sets up, and the
      HashiCorp KV-v2 provider.  [router_resolve] of [daemon_router] is what the
      field [resolve] of [World] stands for.  [Keyring]: creating and opening
      in a build with the keyring feature.
    - [Transport] (transport/src: codec.rs, message.rs, server.rs): frames,
      requests and the loop of one connection over an arbitrary handler.
      [Endpoint] (transport/src: server.rs, uds.rs, named_pipe.rs,
      operator_pipe.rs, client.rs): binding an endpoint on a file system, the
      accept loops with many connections as a step relation, the client.
    - [Helper] (privileged-helper/src, gateway-core/src/privilege.rs): the allow-list
      file, the helper's request loop and the backend that talks to it.
    - [Db] (gateway-core/src/db.rs): parsing of the target, the options of the
      connection, reading of cells, and the channel over a server that is a
      parameter.
    - [Import] (cli/src: import_sources.rs, import_core.rs): the readers of CSV
      and ssh_config text, and the import into the vault and the policy.
    - [Feed] (cli/src/toast.rs and [render_event], [cmd_tail] of main.rs): what
      the event feed shows the operator.
    - [Console] (gateway-core/src/console.rs, transport/src/operator_pipe.rs and
      the console client of main.rs): the out-of-band confirmation, a step
      relation between the threads that ask, the worker that owns the channel
      and the operator who types.
    - [UiWeb] (ui/src: render.rs, token.rs, lib.rs): escaping, queries,
      cookies, the token and the gates of a request, the page layout.  [UiOps]
      (ui/src: pages.rs, matrix.rs, preview.rs, state.rs, setup.rs, connect.rs,
      lib.rs): the router and every handler that changes something, over the
      vault, the policy, the enrolment and the file system the UI is given.
      [UiPages] (the same files): every page that shows the state, as the text
      that is sent.
    - [Cli] (cli/src/main.rs, [atomic_write] of import_core.rs): the flags and
      every command, as programs of the monad [Cmd] over a map of files,
      standard input and output.  [Serve] (cli/src/main.rs): the start of the
      daemon, which builds the [Gateway] the other files are about, the frame
      observer, and the dispatch.

    ** What the theorems show

    - Authorization: [Policy.evaluate_first_match] reads a policy as "the first
      covering rule decides, else deny"; [Gateway.credentials_only_after_grant]
      and [Gateway.local_privilege_needs_human] bound what can happen before a
      grant and before a human's approval; [Guard.drift_stops_brokering] ties
      the running gateway to the policy file.
    - Identity and replay: [Identity.verify_accepts_exactly],
      [Identity.accepted_at_most_once], [Replay.nonce_refused_across_restarts];
      the enrolment store refines the maps of its memory and its file, with
      failing writes ([Enrollment.store_refines_spec]).  For overlapping calls:
      [Concurrent.call_alone] (a call that runs alone is the sequential
      definition), [Concurrent.accepted_once_interleaved],
      [Concurrent.revoked_stays_out], [Concurrent.memory_linearizable] and
      [Concurrent.file_is_a_past_map].
    - Evidence: [Gateway.one_terminal_record] says when an intent leaves its
      record; [AuditChain.journal_always_verifies] (every write reaches the
      file, messages leave a level of nesting for the record),
      [AuditChain.head_fixes_journal], [Transcript.transcript_verifies].
    - Secrets: [GatewayProps.secrets_stay_inside] is a noninterference theorem
      for the gateway; [Http.reflected_secret_redacted] for the HTTP injector.
      [Vault.vault_refines_spec] refines the encrypted store to maps and
      [Vault.router_resolves_exactly] says what a reference resolves to;
      [Keyring.keyring_reopens] is the round trip of a keyring vault;
      [UiPages.secrets_not_shown] is noninterference for the pages of the UI.
    - Sessions: [Session.access_iff_owner_and_live],
      [GatewayProps.new_session_provenance],
      [GatewayProps.frames_reach_only_own_channel].  For overlapping frames and
      scans: [SessionSerial.frame_alone] (the cut is faithful),
      [SessionTasks.only_owner_writes], [SessionTasks.output_follows_own_input]
      (the channel's lock does its work), [SessionTasks.output_numbered],
      [SessionTasks.one_teardown] and [SessionTasks.tasks_finish] (no deadlock,
      and a bound on the steps).
    - Channels: [Transport.conversation], [Transport.frames_exact],
      [Events.feed_in_order], [PinTasks.pin_decides], [Db.db_endpoint_pinned],
      [Db.db_channel_in_order], [Feed.tail_shows_feed];
      [Endpoint.bind_owner_only] and [Endpoint.loopback_only] say who can reach
      an endpoint, [Endpoint.connections_isolated] that peers do not disturb
      each other while the handler's calls overlap, [Endpoint.call_and_return] that client and server make a
      procedure call; [Ssh.key_only_to_checked_host] and
      [Ssh.ssh_output_in_order].
    - Privilege: [Helper.helper_executes_only_licensed] bounds what the helper
      runs by the frames of its input, [Helper.privileged_session] composes it
      with the backend, within the size and time limits it lists.
    - The operator: [Console.approval_needs_yes] and [Console.answer_is_heard]
      are the two halves of an out-of-band confirmation (each answer takes its
      own bytes of what the operator typed);
      [UiOps.ui_changes_need_token] says that nothing changes without the
      token, [UiOps.ui_keeps_policy_loadable] that what the UI saves loads again,
      [UiOps.connect_rule_last] that the connect flow writes its rule after
      everything the rule needs is in place, [UiWeb.layout_safe] that no text
      breaks out of the page frame, and [UiPages.pages_have_known_tags] that no
      text of a store, a file or a query becomes markup on any page.
    - The command line: [Serve.broker_starts_checked] lists what has been
      checked when a daemon listens; [Cli.vault_commands_refine] reduces the
      vault commands to a map of secrets, [Cli.ca_key_stays] follows the
      authority's key through any sequence of them; [Cli.doctor_verdict] says
      when the health check passes; [Serve.run_transcript_verifies] and
      [Cli.flags_roundtrip].
    - Import: [Import.csv_roundtrip], [Import.import_extends_vault],
      [Import.import_extends_policy], [Import.import_fails_closed].
    - Where the code does not do what its documentation says, a theorem states
      what it does: [Scenarios.policy_session_ttl_not_enforced],
      [Scenarios.huge_session_ttl_panics_unrecorded],
      [AuditChain.failed_write_breaks_chain],
      [AuditChain.deep_message_breaks_journal],
      [PinTasks.overlapping_first_contacts],
      [Enrollment.failed_write_undone_by_restart],
      [Replay.unwritten_nonce_forgotten], [Http.reflected_basic_token_leaks],
      [KnownHosts.imported_bare_host_not_consulted],
      [Cli.revocation_undone_by_daemon], [Serve.local_privilege_unavailable],
      [Cli.tampered_journal_exits_zero], [Concurrent.revocation_lost_on_disk],
      [Keyring.second_keyring_vault_takes_the_key],
      [Endpoint.bind_deletes_file], [UiPages.test_page_injectable],
      [Ssh.exit_status_after_eof_lost], [SessionTasks.command_after_close],
      [SessionTasks.two_close_records] and others.

    ** Conventions, bounds and fuel

    Strings are lists of bytes; integers are [Z] with the saturation, wrapping
    or overflow of their type written out where it can happen; Rust's [HashMap]
    is [gmap], a JSON object an association list in key order.  Time is given
    to each operation: nanoseconds for clocks, whole seconds where the code
    uses them.  The outcome of each file operation is an argument, so failed and
    short writes are covered; a failed audit append is an action of its own
    ([AAuditFailed]) and leaves no record.  JSON text parses back only to the
    nesting depth [MAX_DEPTH] of the parser.  Recursion that is not structural takes fuel: the
    string functions the length of their input, [drive_connection] one more than
    the number of bytes sent (shown to be enough).  Audit sequence numbers are
    assumed below 2^53, where RFC 8785 numbers are exact.

    ** What is not modelled

    In [Gateway] a message is handled from start to end before the next one.
    Interleavings are modelled where the code shares state under locks of its
    own: the attestor and the enrolment store, the host-key pins, session
    frames and scans, the transcript, the event feed, the console and the
    connections of a server with the calls of its handler; not those of the handlers of two intents between the steps of one broker run.
    The counters of a session are read in one piece for a summary or heartbeat.
    A thread that panics
    while it holds a lock, memory wiping, Windows security descriptors and the
    async runtime are not modelled.  Sockets, pipes, child processes, the
    credential store and the SSH and postgres clients are interfaces or
    arguments.  What is left of the sources are accessors, trait declarations,
    forwarding implementations, the generation of random keys and the reading
    of the clock. *)

From stdpp Require Export base gmap list fin_maps.
From Stdlib Require Export ZArith.
From Stdlib Require Import Strings.Byte.

(** ** Byte strings

    A Rust [&str]/[String] and a [Vec<u8>] are both lists of bytes here; the
    first kind carries the UTF-8 encoding of its text. *)

Abbreviation byte := Byte.byte.
Abbreviation str := (list Byte.byte).

#[global] Instance byte_eq_dec : EqDecision byte := Byte.byte_eq_dec.

#[global] Program Instance byte_countable : Countable byte :=
  inj_countable Byte.to_N Byte.of_N _.
Next Obligation. intros b. apply Byte.of_to_N. Qed.

(** String literals denote byte strings in the scope [rstr_scope]. *)
Inductive byte_seq : Type :=
| BNil
| BCons (b : byte) (r : byte_seq).

Fixpoint byte_seq_of_list (l : list byte) : byte_seq :=
  match l with
  | [] => BNil
  | b :: r => BCons b (byte_seq_of_list r)
  end.

Fixpoint list_of_byte_seq (s : byte_seq) : list byte :=
  match s with
  | BNil => []
  | BCons b r => b :: list_of_byte_seq r
  end.

Declare Scope rstr_scope.
Delimit Scope rstr_scope with rs.
#[warnings="-via-type-mismatch"]
String Notation list byte_seq_of_list list_of_byte_seq
  (via byte_seq mapping [ [nil] => BNil, [cons] => BCons ]) : rstr_scope.
#[global] Open Scope rstr_scope.

(** ** Results

    [result E A] is Rust's [Result<A, E>], with stdpp's monad operations, so
    that [x ← m; k] is the [?] operator. *)

Inductive result (E A : Type) : Type :=
| Ok (a : A)
| Err (e : E).
Arguments Ok {E A} a.
Arguments Err {E A} e.

#[global] Instance result_ret E : MRet (result E) := λ A a, Ok a.
#[global] Instance result_bind E : MBind (result E) := λ A B f m,
  match m with Ok a => f a | Err e => Err e end.
#[global] Instance result_fmap E : FMap (result E) := λ A B f m,
  match m with Ok a => Ok (f a) | Err e => Err e end.

#[global] Instance result_eq_dec {E A} `{EqDecision E, EqDecision A} :
  EqDecision (result E A).
Proof. solve_decision. Defined.

Definition ok_or {E A} (o : option A) (e : E) : result E A :=
  match o with Some a => Ok a | None => Err e end.

Definition map_err {E F A} (f : E → F) (m : result E A) : result F A :=
  match m with Ok a => Ok a | Err e => Err (f e) end.

Definition is_ok {E A} (m : result E A) : bool :=
  match m with Ok _ => true | Err _ => false end.

Definition unwrap_or {A} (o : option A) (d : A) : A :=
  match o with Some a => a | None => d end.

Lemma result_bind_ok {E A B} (m : result E A) (f : A → result E B) b :
  m ≫= f = Ok b ↔ ∃ a, m = Ok a ∧ f a = Ok b.
Proof. destruct m as [a|e]; simpl; [naive_solver|]. split; [done|naive_solver]. Qed.

Lemma ok_or_ok {E A} (o : option A) (e : E) a : ok_or o e = Ok a ↔ o = Some a.
Proof. destruct o; simpl; naive_solver. Qed.

(** ** Machine integers *)

Definition u64_max : Z := 18446744073709551615.
Definition i64_max : Z := 9223372036854775807.
Definition i64_min : Z := -9223372036854775808.
Definition u16_max : Z := 65535.

Definition i64_saturating_add (a b : Z) : Z := Z.max i64_min (Z.min i64_max (a + b)).
Definition i64_saturating_mul (a b : Z) : Z := Z.max i64_min (Z.min i64_max (a * b)).
Definition u64_saturating_add (a b : Z) : Z := Z.min u64_max (a + b).
Definition u64_saturating_sub (a b : Z) : Z := Z.max 0 (a - b).
(** [AtomicU64::fetch_add] wraps around. *)
Definition u64_wrapping_add (a b : Z) : Z := (a + b) mod (u64_max + 1).

Definition zlen {A} (l : list A) : Z := Z.of_nat (length l).

Lemma zlen_nonneg {A} (l : list A) : (0 ≤ zlen l)%Z.
Proof. unfold zlen. lia. Qed.

Lemma zlen_app {A} (l k : list A) : zlen (l ++ k) = (zlen l + zlen k)%Z.
Proof. unfold zlen. rewrite length_app. lia. Qed.

(** ** Lists *)

(** [Iterator::position]. *)
Fixpoint position {A} (f : A → bool) (l : list A) : option nat :=
  match l with
  | [] => None
  | x :: r => if f x then Some 0 else S <$> position f r
  end.

Lemma position_Some {A} (f : A → bool) l i :
  position f l = Some i ↔
  (∃ x, l !! i = Some x ∧ f x = true) ∧ (∀ j x, j < i → l !! j = Some x → f x = false).
Proof.
  revert i. induction l as [|y l IH]; intros i; simpl.
  { split; [done|]. intros [(x&Hx&_) _]. done. }
  destruct (f y) eqn:Hy.
  - split.
    + intros [= <-]. split; [by exists y|lia].
    + intros [(x&Hx&Hfx) Hmin]. destruct i as [|i]; [done|].
      specialize (Hmin 0 y ltac:(lia) eq_refl). congruence.
  - rewrite fmap_Some. split.
    + intros (k & Hk & ->). apply IH in Hk as [Hex Hmin]. split; [done|].
      intros [|j] x Hj Hx; simpl in *; [congruence|]. apply (Hmin j); [lia|done].
    + intros [(x&Hx&Hfx) Hmin]. destruct i as [|i]; simpl in Hx; [congruence|].
      exists i. split; [|done]. apply IH. split; [by exists x|].
      intros j z Hj Hz. apply (Hmin (S j)); [lia|done].
Qed.

Lemma position_None {A} (f : A → bool) l :
  position f l = None ↔ Forall (λ x, f x = false) l.
Proof.
  induction l as [|y l IH]; simpl; [done|].
  rewrite Forall_cons. destruct (f y) eqn:Hy; [naive_solver|].
  rewrite fmap_None, IH. naive_solver.
Qed.

(** [Iterator::find_map]. *)
Fixpoint find_map {A B} (f : A → option B) (l : list A) : option B :=
  match l with
  | [] => None
  | x :: r => match f x with Some b => Some b | None => find_map f r end
  end.

(** ** Tactics and hints *)

Create HintDb chaperone.
Create Rewrite HintDb chaperone.

(** Decides a closed goal by evaluation. *)
Ltac decide_now := apply (bool_decide_unpack _); vm_compute; exact I.

Ltac split_goal := repeat (case_match; simplify_eq/=).

Ltac bool_to_prop :=
  repeat match goal with
  | H : _ && _ = true |- _ => apply andb_true_iff in H as [? ?]
  | H : _ || _ = false |- _ => apply orb_false_iff in H as [? ?]
  | H : negb _ = true |- _ => apply negb_true_iff in H
  | H : negb _ = false |- _ => apply negb_false_iff in H
  | H : bool_decide _ = true |- _ => apply bool_decide_eq_true in H
  | H : bool_decide _ = false |- _ => apply bool_decide_eq_false in H
  | H : (_ <? _)%Z = true |- _ => apply Z.ltb_lt in H
  | H : (_ <? _)%Z = false |- _ => apply Z.ltb_ge in H
  | H : (_ <=? _)%Z = true |- _ => apply Z.leb_le in H
  | H : (_ <=? _)%Z = false |- _ => apply Z.leb_gt in H
  | H : (_ =? _)%Z = true |- _ => apply Z.eqb_eq in H
  | H : (_ =? _)%Z = false |- _ => apply Z.eqb_neq in H
  end.

#[export] Hint Resolve zlen_nonneg : chaperone.
#[export] Hint Rewrite @zlen_app : chaperone.
