(* ===== verification/Strs.v ===== *)
(** Rust string and byte-slice operations.

    The methods of [str], [String] and [[u8]] that the crates call, as
    functions on byte strings: prefixes, searching, splitting, trimming,
    ASCII case, decimal and hexadecimal numerals, and UTF-8 validity. *)

From S2P Require Import Prelude.
From Stdlib Require Import Strings.Byte.
#[local] Open Scope Z_scope.

(** The value of a byte, 0..255. *)
Definition bz (b : byte) : Z := Z.of_N (Byte.to_N b).

(** The byte of a value, reduced modulo 256. *)
Definition zb (z : Z) : byte :=
  match Byte.of_N (Z.to_N (z mod 256)) with Some b => b | None => "000"%byte end.

Lemma bz_range b : 0 ≤ bz b < 256.
Proof. unfold bz. pose proof (Byte.to_N_bounded b). lia. Qed.

Lemma bz_inj b c : bz b = bz c → b = c.
Proof. unfold bz. intros H. apply (inj Z.of_N) in H. by apply Byte.to_of_N_iff in H as Hb; rewrite Byte.of_to_N in Hb; congruence. Qed.

Lemma zb_bz b : zb (bz b) = b.
Proof.
  unfold zb. rewrite Z.mod_small by apply bz_range.
  unfold bz. by rewrite N2Z.id, Byte.of_to_N.
Qed.

Lemma bz_zb z : 0 ≤ z < 256 → bz (zb z) = z.
Proof.
  intros Hz. unfold zb. rewrite Z.mod_small by done.
  destruct (Byte.of_N (Z.to_N z)) as [b|] eqn:Hb.
  - apply Byte.to_of_N_iff in Hb. unfold bz. rewrite Hb. lia.
  - apply Byte.of_N_None_iff in Hb. lia.
Qed.

(** *** Prefixes and suffixes *)

Fixpoint starts_with (p s : str) : bool :=
  match p, s with
  | [], _ => true
  | a :: p', b :: s' => bool_decide (a = b) && starts_with p' s'
  | _ :: _, [] => false
  end.

Definition strip_prefix (p s : str) : option str :=
  if starts_with p s then Some (drop (length p) s) else None.

Definition ends_with (p s : str) : bool := starts_with (reverse p) (reverse s).

Lemma starts_with_spec p s : starts_with p s = true ↔ ∃ r, s = p ++ r.
Proof.
  revert s. induction p as [|a p IH]; intros [|b s]; simpl.
  - split; [by exists []|done].
  - split; [by exists (b :: s)|done].
  - split; [done|by intros [r ?]].
  - rewrite andb_true_iff, bool_decide_eq_true, IH. split.
    + intros [-> [r ->]]. by exists r.
    + intros [r [= -> ->]]. eauto.
Qed.

Lemma starts_with_app p r : starts_with p (p ++ r) = true.
Proof. apply starts_with_spec. eauto. Qed.

Lemma strip_prefix_Some p s r : strip_prefix p s = Some r ↔ s = p ++ r.
Proof.
  unfold strip_prefix. destruct (starts_with p s) eqn:H.
  - apply starts_with_spec in H as [q ->]. rewrite drop_app_length.
    split; [by intros [= ->]|intros ?%app_inv_head; congruence].
  - split; [done|]. intros ->. by rewrite starts_with_app in H.
Qed.

Lemma strip_prefix_None p s : strip_prefix p s = None ↔ starts_with p s = false.
Proof. unfold strip_prefix. by destruct (starts_with p s). Qed.

Lemma ends_with_spec p s : ends_with p s = true ↔ ∃ r, s = r ++ p.
Proof.
  unfold ends_with. rewrite starts_with_spec. split.
  - intros [r Hr]. exists (reverse r).
    rewrite <- (reverse_involutive s), Hr, reverse_app, reverse_involutive. done.
  - intros [r ->]. exists (reverse r). by rewrite reverse_app.
Qed.

(** *** Searching *)

(** [str::find]: the least index at which the pattern occurs. *)
Fixpoint find (pat s : str) : option nat :=
  if starts_with pat s then Some 0%nat
  else match s with
       | [] => None
       | _ :: s' => S <$> find pat s'
       end.

Definition contains (pat s : str) : bool :=
  match find pat s with Some _ => true | None => false end.

Definition contains_byte (c : byte) (s : str) : bool := existsb (λ b, bool_decide (b = c)) s.

Lemma find_Some pat s i :
  find pat s = Some i → ∃ a r, s = a ++ pat ++ r ∧ length a = i.
Proof.
  revert i. induction s as [|b s IH]; intros i; simpl.
  - destruct (starts_with pat []) eqn:H; [|done].
    intros [= <-]. apply starts_with_spec in H as [r Hr]. by exists [], r.
  - destruct (starts_with pat (b :: s)) eqn:H.
    + intros [= <-]. apply starts_with_spec in H as [r Hr]. by exists [], r.
    + intros (k & Hk & ->)%fmap_Some. apply IH in Hk as (a & r & -> & <-).
      by exists (b :: a), r.
Qed.

(** Every other occurrence starts at or after the one found. *)
Lemma find_least pat a r : ∃ i, find pat (a ++ pat ++ r) = Some i ∧ (i ≤ length a)%nat.
Proof.
  induction a as [|b a IH]; simpl.
  - exists 0%nat. split; [|lia]. destruct (pat ++ r) eqn:Hpr; simpl.
    + apply app_eq_nil in Hpr as [-> ->]. done.
    + rewrite <- Hpr, starts_with_app. done.
  - destruct IH as (i & Hi & Hle).
    destruct (starts_with pat (b :: a ++ pat ++ r)); [exists 0%nat; split; [done|lia]|].
    exists (S i). rewrite Hi. split; [done|lia].
Qed.

Lemma contains_spec pat s : contains pat s = true ↔ ∃ a r, s = a ++ pat ++ r.
Proof.
  unfold contains. destruct (find pat s) eqn:H; split; try done.
  - intros _. apply find_Some in H as (a & r & ? & _). eauto.
  - intros (a & r & ->). destruct (find_least pat a r) as (i & Hi & _). congruence.
Qed.

Lemma contains_byte_spec c s : contains_byte c s = true ↔ c ∈ s.
Proof.
  unfold contains_byte. rewrite existsb_exists. split.
  - intros (b & Hb & Hc%bool_decide_eq_true). subst. by apply list_elem_of_In.
  - intros Hc. exists c. split; [by apply list_elem_of_In|by apply bool_decide_eq_true].
Qed.

Lemma contains_byte_false c s : contains_byte c s = false ↔ c ∉ s.
Proof. rewrite <- contains_byte_spec. by destruct (contains_byte c s). Qed.

Lemma contains_byte_app c s t : contains_byte c (s ++ t) = contains_byte c s || contains_byte c t.
Proof. apply existsb_app. Qed.

(** *** Splitting *)

(** [str::split] on one character: pieces between the occurrences, never empty. *)
Fixpoint split (c : byte) (s : str) : list str :=
  match s with
  | [] => [[]]
  | b :: r =>
      if decide (b = c) then [] :: split c r
      else match split c r with
           | p :: ps => (b :: p) :: ps
           | [] => [[b]]
           end
  end.

(** [str::split_once] on one character. *)
Fixpoint split_once (c : byte) (s : str) : option (str * str) :=
  match s with
  | [] => None
  | b :: r =>
      if decide (b = c) then Some ([], r)
      else match split_once c r with
           | Some (x, y) => Some (b :: x, y)
           | None => None
           end
  end.

(** [str::rsplit_once] on one character: at the last occurrence. *)
Definition rsplit_once (c : byte) (s : str) : option (str * str) :=
  match split_once c (reverse s) with
  | Some (x, y) => Some (reverse y, reverse x)
  | None => None
  end.

(** [str::split_once] on a string pattern. *)
Definition split_once_str (pat s : str) : option (str * str) :=
  match find pat s with
  | Some i => Some (take i s, drop (i + length pat) s)
  | None => None
  end.

(** [str::split] on a non-empty string pattern; [fuel] is the input length,
    which bounds the number of pieces. *)
Fixpoint split_str_fuel (fuel : nat) (pat s : str) : list str :=
  match fuel with
  | O => [s]
  | S n =>
      match split_once_str pat s with
      | Some (x, y) => x :: split_str_fuel n pat y
      | None => [s]
      end
  end.
Definition split_str (pat s : str) : list str := split_str_fuel (length s) pat s.

Lemma split_nonempty c s : split c s ≠ [].
Proof. destruct s as [|b s]; simpl; [done|]. destruct (decide (b = c)); [done|]. by destruct (split c s). Qed.

(** Splitting and joining with the separator gives the string back. *)
Fixpoint join (sep : str) (ps : list str) : str :=
  match ps with
  | [] => []
  | [p] => p
  | p :: r => p ++ sep ++ join sep r
  end.

Lemma join_cons sep p ps : ps ≠ [] → join sep (p :: ps) = p ++ sep ++ join sep ps.
Proof. by destruct ps. Qed.

Lemma join_split c s : join [c] (split c s) = s.
Proof.
  induction s as [|b s IH]; simpl; [done|].
  destruct (decide (b = c)) as [->|Hb].
  - rewrite join_cons by apply split_nonempty. simpl. by rewrite IH.
  - destruct (split c s) as [|p ps] eqn:Hs; [by apply split_nonempty in Hs|].
    destruct ps as [|q ps]; simpl in *; by rewrite IH.
Qed.

Lemma split_pieces c s : Forall (λ p, c ∉ p) (split c s).
Proof.
  induction s as [|b s IH]; simpl.
  { repeat constructor. apply not_elem_of_nil. }
  destruct (decide (b = c)) as [->|Hb].
  - constructor; [apply not_elem_of_nil|done].
  - destruct (split c s) as [|p ps] eqn:Hs; [by apply split_nonempty in Hs|].
    inversion_clear IH. constructor; [|done]. rewrite not_elem_of_cons. auto.
Qed.

Lemma split_no_sep c s : c ∉ s → split c s = [s].
Proof.
  induction s as [|b s IH]; simpl; [done|]. intros Hc.
  rewrite not_elem_of_cons in Hc. destruct Hc as [Hbc Hc].
  rewrite decide_False by congruence. by rewrite IH.
Qed.

Lemma split_app_sep c p s : c ∉ p → split c (p ++ c :: s) = p :: split c s.
Proof.
  induction p as [|b p IH]; simpl; intros Hc.
  - by rewrite decide_True.
  - rewrite not_elem_of_cons in Hc. destruct Hc as [Hbc Hc].
    rewrite decide_False by congruence. by rewrite IH.
Qed.

Lemma split_once_Some c s x y : split_once c s = Some (x, y) ↔ s = x ++ c :: y ∧ c ∉ x.
Proof.
  revert x. induction s as [|b s IH]; intros x; simpl.
  { split; [done|]. intros [H _]. by destruct x. }
  destruct (decide (b = c)) as [->|Hb].
  - split.
    + intros [= <- <-]. split; [done|apply not_elem_of_nil].
    + intros [H Hx]. destruct x as [|d x]; simplify_eq/=; [done|].
      rewrite not_elem_of_cons in Hx. naive_solver.
  - split.
    + destruct (split_once c s) as [[x' y']|] eqn:Hs; [|done].
      intros [= <- <-]. destruct (proj1 (IH x') eq_refl) as [-> Hx]. split; [done|].
      rewrite not_elem_of_cons. auto.
    + intros [H Hx]. destruct x as [|d x]; simplify_eq/=.
      rewrite not_elem_of_cons in Hx. destruct Hx as [_ Hx].
      by rewrite (proj2 (IH x) (conj eq_refl Hx)).
Qed.

Lemma split_once_None c s : split_once c s = None ↔ c ∉ s.
Proof.
  induction s as [|b s IH]; simpl.
  { split; [intros _; apply not_elem_of_nil|done]. }
  destruct (decide (b = c)) as [->|Hb]; rewrite not_elem_of_cons; [naive_solver|].
  destruct (split_once c s) as [[x y]|] eqn:Hs; naive_solver.
Qed.

Lemma rsplit_once_Some c s x y : rsplit_once c s = Some (x, y) ↔ s = x ++ c :: y ∧ c ∉ y.
Proof.
  unfold rsplit_once. split.
  - destruct (split_once c (reverse s)) as [[u v]|] eqn:Hs; [|done].
    intros [= <- <-]. apply split_once_Some in Hs as [Hs Hu]. split.
    + rewrite <- (reverse_involutive s), Hs, reverse_app, reverse_cons.
      by rewrite <- app_assoc.
    + by rewrite elem_of_reverse.
  - intros [-> Hy]. rewrite reverse_app, reverse_cons, <- app_assoc. simpl.
    rewrite (proj2 (split_once_Some c _ (reverse y) (reverse x))).
    { by rewrite !reverse_involutive. }
    split; [done|]. by rewrite elem_of_reverse.
Qed.

Lemma rsplit_once_None c s : rsplit_once c s = None ↔ c ∉ s.
Proof.
  transitivity (split_once c (reverse s) = None).
  { unfold rsplit_once. destruct (split_once c (reverse s)) as [[x y]|]; naive_solver. }
  by rewrite split_once_None, elem_of_reverse.
Qed.

Lemma split_once_str_Some pat s x y :
  split_once_str pat s = Some (x, y) → s = x ++ pat ++ y.
Proof.
  unfold split_once_str. destruct (find pat s) as [i|] eqn:Hi; [|done].
  intros [= <- <-]. apply find_Some in Hi as (a & r & -> & <-).
  rewrite take_app_length, <- drop_drop, drop_app_length, drop_app_length. done.
Qed.

(** *** ASCII case *)

Definition to_ascii_lowercase_byte (b : byte) : byte :=
  if (65 <=? bz b) && (bz b <=? 90) then zb (bz b + 32) else b.
Definition to_ascii_lowercase (s : str) : str := to_ascii_lowercase_byte <$> s.
Definition eq_ignore_ascii_case (s t : str) : bool :=
  bool_decide (to_ascii_lowercase s = to_ascii_lowercase t).

Definition is_ascii_digit (b : byte) : bool := (48 <=? bz b) && (bz b <=? 57).

(** *** Trimming

    [str::trim] removes characters with the Unicode [White_Space] property; in
    UTF-8 these are the byte sequences below. *)

Definition whitespace_chars : list str :=
  (λ z, [zb z]) <$> [9; 10; 11; 12; 13; 32].
Definition whitespace_chars2 : list str :=
  [[zb 0xC2; zb 0x85]; [zb 0xC2; zb 0xA0]].
Definition whitespace_chars3 : list str :=
  [zb 0xE1; zb 0x9A; zb 0x80] ::
  ((λ z, [zb 0xE2; zb 0x80; zb z]) <$>
     [0x80; 0x81; 0x82; 0x83; 0x84; 0x85; 0x86; 0x87; 0x88; 0x89; 0x8A; 0xA8; 0xA9; 0xAF]) ++
  [[zb 0xE2; zb 0x81; zb 0x9F]; [zb 0xE3; zb 0x80; zb 0x80]].
Definition all_whitespace : list str :=
  Eval vm_compute in whitespace_chars ++ whitespace_chars2 ++ whitespace_chars3.

Definition strip_one (ws : list str) (s : str) : option str :=
  find_map (λ w, strip_prefix w s) ws.

Fixpoint trim_fuel (fuel : nat) (ws : list str) (s : str) : str :=
  match fuel with
  | O => s
  | S n => match strip_one ws s with Some r => trim_fuel n ws r | None => s end
  end.

Definition trim_start (s : str) : str := trim_fuel (length s) all_whitespace s.
Definition trim_end (s : str) : str :=
  reverse (trim_fuel (length s) (reverse <$> all_whitespace) (reverse s)).
Definition trim (s : str) : str := trim_end (trim_start s).

(** [str::trim_start_matches] with a non-empty string pattern. *)
Definition trim_start_matches (pat s : str) : str := trim_fuel (length s) [pat] s.

(** [str::trim_end_matches] with a non-empty string pattern. *)
Definition trim_end_matches (pat s : str) : str :=
  reverse (trim_fuel (length s) [reverse pat] (reverse s)).

(** [str::is_empty]. *)
Definition is_empty (s : str) : bool := match s with [] => true | _ => false end.

Lemma is_empty_true s : is_empty s = true ↔ s = [].
Proof. by destruct s. Qed.

Lemma strip_one_None_nil ws : [] ∉ ws → strip_one ws [] = None.
Proof.
  unfold strip_one. induction ws as [|w ws IH]; [done|]. intros H.
  rewrite not_elem_of_cons in H. destruct H as [Hw H]. simpl.
  destruct w; [done|]. by apply IH.
Qed.

(** Trimming runs to a fixed point: the fuel is the length, and every strip
    removes at least one byte. *)
Lemma strip_one_shorter ws s r :
  [] ∉ ws → strip_one ws s = Some r → ∃ w, w ∈ ws ∧ s = w ++ r ∧ (length r < length s)%nat.
Proof.
  unfold strip_one. induction ws as [|w ws IH]; [done|]. intros Hn. simpl.
  rewrite not_elem_of_cons in Hn. destruct Hn as [Hw Hn].
  destruct (strip_prefix w s) as [r'|] eqn:Hs.
  - intros [= <-]. apply strip_prefix_Some in Hs. exists w. subst s.
    rewrite length_app. split; [set_solver|split; [done|]].
    destruct w; simpl; [done|lia].
  - intros H. destruct (IH Hn H) as (w' & ? & ? & ?). exists w'. set_solver.
Qed.

Lemma trim_fuel_fixed ws n s :
  [] ∉ ws → (length s ≤ n)%nat → strip_one ws (trim_fuel n ws s) = None.
Proof.
  intros Hn. revert s. induction n as [|n IH]; intros s Hlen; simpl.
  - assert (s = []) as -> by (by destruct s; simpl in Hlen; [|lia]).
    by apply strip_one_None_nil.
  - destruct (strip_one ws s) as [r|] eqn:Hs; [|done].
    apply IH. apply strip_one_shorter in Hs as (_ & _ & _ & ?); [lia|done].
Qed.

Lemma trim_fuel_stable ws n s : strip_one ws s = None → trim_fuel n ws s = s.
Proof. destruct n; simpl; [done|]. by intros ->. Qed.

Lemma trim_fuel_suffix ws n s : ∃ a, s = a ++ trim_fuel n ws s.
Proof.
  revert s. induction n as [|n IH]; intros s; simpl; [by exists []|].
  destruct (strip_one ws s) as [r|] eqn:Hs; [|by exists []].
  assert (∃ w, s = w ++ r) as [w ->].
  { unfold strip_one in Hs. clear IH. induction ws as [|w ws IHw]; [done|].
    simpl in Hs. destruct (strip_prefix w s) as [r'|] eqn:Hw; [|by apply IHw].
    simplify_eq. apply strip_prefix_Some in Hw. eauto. }
  destruct (IH r) as [a Ha]. exists (w ++ a). rewrite <- app_assoc. by f_equal.
Qed.

Lemma strip_one_None_app ws s t : strip_one ws (s ++ t) = None → strip_one ws s = None.
Proof.
  unfold strip_one. induction ws as [|w ws IH]; [done|]. simpl.
  destruct (strip_prefix w (s ++ t)) eqn:H; [done|]. intros Hr.
  destruct (strip_prefix w s) as [r|] eqn:Hs; [|by apply IH].
  apply strip_prefix_Some in Hs as ->. rewrite <- app_assoc in H.
  unfold strip_prefix in H. by rewrite starts_with_app in H.
Qed.

Lemma all_whitespace_nonempty : [] ∉ all_whitespace.
Proof. unfold all_whitespace. set_solver. Qed.

Lemma rev_whitespace_nonempty : [] ∉ (reverse <$> all_whitespace).
Proof.
  rewrite list_elem_of_fmap. intros (w & Hw & Hin).
  assert (w = []) as -> by (by rewrite <- (reverse_involutive w), <- Hw).
  by apply all_whitespace_nonempty in Hin.
Qed.

(** Trimming is idempotent. *)
Lemma trim_trim s : trim (trim s) = trim s.
Proof.
  unfold trim. set (t := trim_start s).
  assert (Ht : strip_one all_whitespace t = None).
  { apply trim_fuel_fixed; [apply all_whitespace_nonempty|done]. }
  assert (He : strip_one (reverse <$> all_whitespace) (reverse (trim_end t)) = None).
  { unfold trim_end. rewrite reverse_involutive.
    apply trim_fuel_fixed; [apply rev_whitespace_nonempty|]. by rewrite length_reverse. }
  assert (Hs : trim_start (trim_end t) = trim_end t).
  { apply trim_fuel_stable. unfold trim_end.
    destruct (trim_fuel_suffix (reverse <$> all_whitespace) (length t) (reverse t)) as [a Ha].
    apply (f_equal reverse) in Ha. rewrite reverse_involutive, reverse_app in Ha.
    eapply strip_one_None_app. by rewrite <- Ha. }
  rewrite Hs. unfold trim_end at 1. rewrite trim_fuel_stable by done.
  by rewrite reverse_involutive.
Qed.

(** *** Lines *)

Definition strip_cr (l : str) : str :=
  match reverse l with
  | b :: r => if decide (bz b = 13) then reverse r else l
  | [] => []
  end.

(** [str::lines]: split at line feeds, a carriage return before one dropped,
    no empty piece after a final line feed. *)
Definition lines (s : str) : list str :=
  let ps := split (zb 10) s in
  let body := removelast ps in
  (strip_cr <$> body) ++ (match last ps with Some [] | None => [] | Some l => [l] end).

(** *** Decimal numerals *)

Fixpoint show_fuel (fuel : nat) (n : Z) : str :=
  match fuel with
  | O => []
  | S k => if n <? 10 then [zb (48 + n)] else show_fuel k (n / 10) ++ [zb (48 + n mod 10)]
  end.

(** [Display] of an unsigned integer; [log2 n + 1] digits are always enough. *)
Definition show (n : Z) : str := show_fuel (S (Z.to_nat (Z.log2 n))) n.

Fixpoint parse_digits (max acc : Z) (s : str) : option Z :=
  match s with
  | [] => Some acc
  | b :: r =>
      if is_ascii_digit b then
        let v := acc * 10 + (bz b - 48) in
        if v <=? max then parse_digits max v r else None
      else None
  end.

(** [str::parse] for an unsigned integer type with the given maximum: an
    optional plus sign, at least one digit, no overflow. *)
Definition parse_uint (max : Z) (s : str) : option Z :=
  match s with
  | [] => None
  | b :: r =>
      if decide (bz b = 43) then
        match r with [] => None | _ => parse_digits max 0 r end
      else parse_digits max 0 s
  end.

Lemma parse_digits_nonneg max acc s v : 0 ≤ acc → parse_digits max acc s = Some v → 0 ≤ v.
Proof.
  revert acc. induction s as [|b s IH]; intros acc Ha; cbn [parse_digits]; [by intros [= <-]|].
  destruct (is_ascii_digit b) eqn:Hd; [|done]. case_match; [|done]. apply IH.
  unfold is_ascii_digit in Hd. apply andb_true_iff in Hd as [Hd _]. apply Z.leb_le in Hd. lia.
Qed.

Lemma parse_uint_nonneg max s v : parse_uint max s = Some v → 0 ≤ v.
Proof.
  unfold parse_uint. destruct s as [|b r]; [done|]. case_decide.
  - destruct r; [done|]. by apply parse_digits_nonneg.
  - by apply parse_digits_nonneg.
Qed.

Lemma parse_digits_max max acc s v : acc ≤ max → parse_digits max acc s = Some v → v ≤ max.
Proof.
  revert acc. induction s as [|b s IH]; intros acc Ha; cbn [parse_digits]; [by intros [= <-]|].
  destruct (is_ascii_digit b); [|done]. destruct (_ <=? max) eqn:Hm; [|done]. apply IH. by apply Z.leb_le.
Qed.

Lemma parse_uint_max max s v : 0 ≤ max → parse_uint max s = Some v → v ≤ max.
Proof.
  intros Hm. unfold parse_uint. destruct s as [|b r]; [done|]. case_decide.
  - destruct r; [done|]. by apply parse_digits_max.
  - by apply parse_digits_max.
Qed.

Lemma digit_byte d : 0 ≤ d < 10 → is_ascii_digit (zb (48 + d)) = true ∧ bz (zb (48 + d)) = 48 + d.
Proof. intros Hd. unfold is_ascii_digit. rewrite !bz_zb by lia. split; [|done]. apply andb_true_iff; lia. Qed.

Lemma parse_digits_app max acc s v t :
  parse_digits max acc s = Some v → parse_digits max acc (s ++ t) = parse_digits max v t.
Proof.
  revert acc. induction s as [|b s IH]; intros acc; simpl; [by intros [= ->]|].
  destruct (is_ascii_digit b); [|done]. destruct (_ <=? max); [|done]. apply IH.
Qed.

Lemma parse_show_fuel max fuel n :
  0 ≤ n ≤ max → n < 10 ^ Z.of_nat fuel → fuel ≠ O → parse_digits max 0 (show_fuel fuel n) = Some n.
Proof.
  revert n. induction fuel as [|k IH]; intros n Hn Hk Hf; [done|]. cbn [show_fuel].
  destruct (n <? 10) eqn:H10; bool_to_prop.
  - destruct (digit_byte n) as [Hd Hz]; [lia|]. cbn [parse_digits]. rewrite Hd, Hz.
    replace (0 * 10 + (48 + n - 48)) with n by lia.
    by rewrite (proj2 (Z.leb_le n max)) by lia.
  - assert (Hdiv : 0 ≤ n / 10 ≤ max) by (split; [apply Z.div_pos; lia|]; apply Z.le_trans with n; [apply Z.div_le_upper_bound|]; lia).
    assert (Hpow : 10 ^ Z.of_nat (S k) = 10 * 10 ^ Z.of_nat k) by (rewrite Nat2Z.inj_succ, Z.pow_succ_r; lia).
    assert (Hk0 : k ≠ O) by (intros ->; simpl in *; lia).
    erewrite parse_digits_app by (apply IH; [done|apply Z.div_lt_upper_bound; lia|done]).
    destruct (digit_byte (n mod 10)) as [Hd Hz]; [apply Z.mod_pos_bound; lia|].
    cbn [parse_digits]. rewrite Hd, Hz.
    replace (n / 10 * 10 + (48 + n mod 10 - 48)) with n by (pose proof (Z.div_mod n 10); lia).
    by rewrite (proj2 (Z.leb_le n max)) by lia.
Qed.

Lemma show_bound n : 0 ≤ n → n < 10 ^ Z.of_nat (S (Z.to_nat (Z.log2 n))).
Proof.
  intros Hn. rewrite Nat2Z.inj_succ, Z2Nat.id by apply Z.log2_nonneg.
  apply Z.lt_le_trans with (2 ^ Z.succ (Z.log2 n)).
  - destruct (decide (n = 0)) as [->|]; [done|]. apply Z.log2_spec. lia.
  - apply Z.pow_le_mono_l. lia.
Qed.

Lemma show_fuel_digits fuel n : 0 ≤ n → Forall (λ b, is_ascii_digit b = true) (show_fuel fuel n).
Proof.
  revert n. induction fuel as [|k IH]; intros n Hn; cbn [show_fuel]; [constructor|].
  destruct (n <? 10) eqn:H; bool_to_prop.
  - constructor; [|constructor]. apply digit_byte. lia.
  - apply Forall_app. split; [apply IH, Z.div_pos; lia|].
    constructor; [|constructor]. apply digit_byte, Z.mod_pos_bound. lia.
Qed.

Lemma show_digits n : 0 ≤ n → Forall (λ b, is_ascii_digit b = true) (show n).
Proof. apply show_fuel_digits. Qed.

Lemma show_nonempty n : show n ≠ [].
Proof. unfold show. cbn [show_fuel]. destruct (n <? 10); [done|]. intros H. by apply app_eq_nil in H as [_ ?]. Qed.

(** Parsing what [Display] printed gives the number back. *)
Lemma parse_uint_show max n : 0 ≤ n ≤ max → parse_uint max (show n) = Some n.
Proof.
  intros Hn. assert (H := parse_show_fuel max _ n Hn (show_bound n (proj1 Hn)) ltac:(done)).
  fold (show n) in H. pose proof (show_digits n (proj1 Hn)) as Hd.
  destruct (show n) as [|b r] eqn:Hs; [by apply show_nonempty in Hs|].
  unfold parse_uint. rewrite decide_False; [done|]. intros Hb.
  inversion_clear Hd as [|? ? Hbd _]. unfold is_ascii_digit in Hbd. bool_to_prop. lia.
Qed.

(** *** UTF-8

    [str::from_utf8]: well-formed byte sequences of the Unicode standard,
    table 3-7 (no overlong forms, no surrogates, at most U+10FFFF). *)

Definition in_range (lo hi : Z) (b : byte) : bool := (lo <=? bz b) && (bz b <=? hi).
Definition cont (b : byte) : bool := in_range 0x80 0xBF b.

Fixpoint utf8_valid (s : str) : bool :=
  match s with
  | [] => true
  | b0 :: r0 =>
      if in_range 0 0x7F b0 then utf8_valid r0
      else match r0 with
      | [] => false
      | b1 :: r1 =>
          if in_range 0xC2 0xDF b0 then cont b1 && utf8_valid r1
          else match r1 with
          | [] => false
          | b2 :: r2 =>
              if in_range 0xE0 0xE0 b0 then in_range 0xA0 0xBF b1 && cont b2 && utf8_valid r2
              else if in_range 0xE1 0xEC b0 || in_range 0xEE 0xEF b0
                   then cont b1 && cont b2 && utf8_valid r2
              else if in_range 0xED 0xED b0 then in_range 0x80 0x9F b1 && cont b2 && utf8_valid r2
              else match r2 with
              | [] => false
              | b3 :: r3 =>
                  if in_range 0xF0 0xF0 b0
                  then in_range 0x90 0xBF b1 && cont b2 && cont b3 && utf8_valid r3
                  else if in_range 0xF1 0xF3 b0
                  then cont b1 && cont b2 && cont b3 && utf8_valid r3
                  else if in_range 0xF4 0xF4 b0
                  then in_range 0x80 0x8F b1 && cont b2 && cont b3 && utf8_valid r3
                  else false
              end
          end
      end
  end.

Lemma utf8_valid_ascii s t :
  Forall (λ b, in_range 0 0x7F b = true) s → utf8_valid (s ++ t) = utf8_valid t.
Proof. induction 1 as [|b s Hb _ IH]; [done|]. cbn [app utf8_valid]. by rewrite Hb. Qed.

Example utf8_euro : utf8_valid "€" = true.
Proof. reflexivity. Qed.
Example utf8_bad : utf8_valid [zb 0xFF; zb 0xFE] = false.
Proof. reflexivity. Qed.
Example trim_nbsp : trim (" " ++ [zb 0xC2; zb 0xA0] ++ "a b" ++ [zb 0xE3; zb 0x80; zb 0x80]) = "a b".
Proof. vm_compute. reflexivity. Qed.
Example show_large : show 8388608 = "8388608".
Proof. vm_compute. reflexivity. Qed.
Example lines_crlf : lines ("a" ++ [zb 13; zb 10] ++ "b" ++ [zb 10]) = ["a"; "b"].
Proof. vm_compute. reflexivity. Qed.

#[export] Hint Resolve starts_with_app show_nonempty all_whitespace_nonempty : chaperone.
#[export] Hint Rewrite trim_trim : chaperone.

(** ** Hexadecimal *)

Definition hex_digit (n : Z) : byte := if n <? 10 then zb (48 + n) else zb (87 + n).

(** Lowercase hexadecimal of a byte string. *)
Fixpoint hex_bytes (b : str) : str :=
  match b with
  | [] => []
  | x :: r => hex_digit (bz x / 16) :: hex_digit (bz x mod 16) :: hex_bytes r
  end.

(** [char::to_digit(16)]: both cases are accepted. *)
Definition hex_value (b : byte) : option Z :=
  if in_range 48 57 b then Some (bz b - 48)
  else if in_range 97 102 b then Some (bz b - 87)
  else if in_range 65 70 b then Some (bz b - 55)
  else None.

Lemma hex_value_digit n : 0 ≤ n < 16 → hex_value (hex_digit n) = Some n.
Proof.
  intros Hn. assert (n ∈ seqZ 0 16) as Hin by (apply elem_of_seqZ; lia).
  clear Hn. revert n Hin. apply Forall_forall. vm_compute. repeat constructor.
Qed.

Lemma length_hex_bytes b : length (hex_bytes b) = (2 * length b)%nat.
Proof. induction b as [|x b IH]; simpl; [done|]. rewrite IH. lia. Qed.

(** *** Text made of terminated lines *)

Lemma strip_cr_id l : zb 13 ∉ l → strip_cr l = l.
Proof.
  unfold strip_cr. intros Hn. destruct (reverse l) as [|b r] eqn:Hr.
  - apply (f_equal reverse) in Hr. by rewrite reverse_involutive in Hr.
  - case_decide as Hb; [|done]. exfalso. apply Hn.
    assert (b = zb 13) as -> by (apply bz_inj; rewrite Hb; reflexivity).
    apply elem_of_reverse. rewrite Hr. by left.
Qed.

Lemma lines_cons x t : zb 10 ∉ x → zb 13 ∉ x → lines (x ++ zb 10 :: t) = x :: lines t.
Proof.
  intros H10 H13. unfold lines. rewrite split_app_sep by done.
  destruct (split (zb 10) t) as [|y ys] eqn:Hs; [by apply split_nonempty in Hs|].
  cbn [removelast]. change (last (x :: y :: ys)) with (last (y :: ys)).
  rewrite fmap_cons, strip_cr_id by done. done.
Qed.

Lemma lines_terminated (ls : list str) :
  Forall (λ l, (zb 10 ∉ l) ∧ (zb 13 ∉ l)) ls → lines (mjoin ((λ l, l ++ [zb 10]) <$> ls)) = ls.
Proof.
  induction 1 as [|l ls [H10 H13] _ IH]; [done|].
  rewrite fmap_cons. cbn [mjoin list_join]. rewrite <- app_assoc.
  etrans; [by apply lines_cons|]. by f_equal.
Qed.

(** *** Blankness and validity of concatenations *)

Lemma strip_one_Some ws s r : strip_one ws s = Some r → ∃ w, w ∈ ws ∧ s = w ++ r.
Proof.
  unfold strip_one. induction ws as [|w ws IH]; [done|]. simpl.
  destruct (strip_prefix w s) as [r'|] eqn:Hw.
  - intros [= ->]. apply strip_prefix_Some in Hw. exists w. set_solver.
  - intros (w' & Hin & Hs)%IH. exists w'. set_solver.
Qed.

Lemma trim_fuel_bytes ws n s b : b ∈ s → Forall (λ w, b ∉ w) ws → b ∈ trim_fuel n ws s.
Proof.
  revert s. induction n as [|n IH]; intros s Hb Hw; simpl; [done|].
  destruct (strip_one ws s) as [r|] eqn:Hs; [|done]. apply strip_one_Some in Hs as (w & Hin & ->).
  apply IH; [|done]. rewrite Forall_forall in Hw. specialize (Hw w Hin). set_solver.
Qed.

Definition blank_byte (b : byte) : bool := existsb (λ w, contains_byte b w) all_whitespace.

Lemma blank_byte_not b : blank_byte b = false → Forall (λ w, b ∉ w) all_whitespace.
Proof.
  intros Hn. apply Forall_forall. intros w Hin. apply contains_byte_false.
  destruct (contains_byte b w) eqn:Hc; [|done]. exfalso.
  assert (blank_byte b = true) by (apply existsb_exists; exists w;
    split; [by apply list_elem_of_In|done]). congruence.
Qed.

Lemma blank_byte_not_rev b : blank_byte b = false → Forall (λ w, b ∉ w) (reverse <$> all_whitespace).
Proof.
  intros Hn. apply Forall_fmap. eapply Forall_impl; [by apply blank_byte_not|].
  intros w. simpl. by rewrite elem_of_reverse.
Qed.

Lemma trim_nonempty b s : b ∈ s → blank_byte b = false → is_empty (trim s) = false.
Proof.
  intros Hb Hn. assert (b ∈ trim s) as Hin.
  { unfold trim, trim_end. apply elem_of_reverse, trim_fuel_bytes; [|by apply blank_byte_not_rev].
    apply elem_of_reverse, trim_fuel_bytes; [done|by apply blank_byte_not]. }
  destruct (trim s); [by apply elem_of_nil in Hin|done].
Qed.

Lemma strip_one_None ws s : strip_one ws s = None ↔ Forall (λ w, starts_with w s = false) ws.
Proof.
  unfold strip_one. induction ws as [|w ws IH]; simpl; [done|]. rewrite Forall_cons, <- IH, <- strip_prefix_None.
  destruct (strip_prefix w s); naive_solver.
Qed.

(** A byte that no white space contains stops the stripping. *)
Lemma strip_one_None_before ws t b r : Forall (λ w, b ∉ w) ws → strip_one ws t = None →
  strip_one ws (t ++ b :: r) = None.
Proof.
  rewrite !strip_one_None, !Forall_forall. intros Hb Ht w Hw.
  destruct (starts_with w (t ++ b :: r)) eqn:Hs; [|done]. apply starts_with_spec in Hs as [q Hq].
  specialize (Hb w Hw). rewrite <- (Ht w Hw). symmetry. apply starts_with_spec.
  clear -Hq Hb. revert w Hq Hb. induction t as [|a t IH]; intros [|c w] Hq Hb; cbn [app] in *.
  - by exists [].
  - injection Hq as -> _. by destruct Hb; left.
  - by exists (a :: t).
  - injection Hq as -> Hq. apply not_elem_of_cons in Hb as [_ Hb]. destruct (IH _ Hq Hb) as [k ->]. by exists k.
Qed.

Lemma trim_end_after x b s : blank_byte b = false → trim s = s → trim_end (x ++ b :: s) = x ++ b :: s.
Proof.
  intros Hb Hs. unfold trim_end at 1. rewrite trim_fuel_stable; [apply reverse_involutive|].
  rewrite reverse_app, reverse_cons, <- app_assoc. cbn [app].
  apply strip_one_None_before; [by apply blank_byte_not_rev|]. rewrite <- Hs. unfold trim, trim_end.
  rewrite reverse_involutive. apply trim_fuel_fixed; [apply rev_whitespace_nonempty|]. by rewrite length_reverse.
Qed.

Lemma utf8_valid_app s t : utf8_valid s = true → utf8_valid (s ++ t) = utf8_valid t.
Proof.
  remember (length s) as n eqn:Hn. revert s Hn.
  induction n as [n IH] using lt_wf_ind. intros [|b0 r0] Hn; [done|]. simpl in Hn.
  cbn [utf8_valid app]. destruct (in_range 0 0x7F b0); [intros Hv; eapply IH; [|done|done]; lia|].
  destruct r0 as [|b1 r1]; [done|]. simpl in Hn. cbn [app]. destruct (in_range 0xC2 0xDF b0).
  { intros [-> Hv]%andb_true_iff. simpl. eapply IH; [|done|done]; lia. }
  destruct r1 as [|b2 r2]; [done|]. simpl in Hn. cbn [app]. destruct (in_range 0xE0 0xE0 b0).
  { intros [[-> ->]%andb_true_iff Hv]%andb_true_iff. simpl. eapply IH; [|done|done]; lia. }
  destruct (in_range 0xE1 0xEC b0 || in_range 0xEE 0xEF b0).
  { intros [[-> ->]%andb_true_iff Hv]%andb_true_iff. simpl. eapply IH; [|done|done]; lia. }
  destruct (in_range 0xED 0xED b0).
  { intros [[-> ->]%andb_true_iff Hv]%andb_true_iff. simpl. eapply IH; [|done|done]; lia. }
  destruct r2 as [|b3 r3]; [done|]. simpl in Hn. cbn [app].
  repeat (case_match; [intros [[[-> ->]%andb_true_iff ->]%andb_true_iff Hv]%andb_true_iff; simpl;
    eapply IH; [|done|done]; lia|]). done.
Qed.

(** ** Printable text is left alone by [trim] *)

Definition graphic (b : byte) : bool := in_range 33 126 b.

Lemma strip_one_graphic b r : graphic b = true →
  strip_one all_whitespace (b :: r) = None ∧ strip_one (reverse <$> all_whitespace) (b :: r) = None.
Proof. destruct b; try (vm_compute; done); intros _; split; vm_compute; done. Qed.

Lemma trim_graphic s : Forall (λ b, graphic b = true) s → trim s = s.
Proof.
  intros Hf. assert (trim_start s = s) as Hs.
  { apply trim_fuel_stable. destruct Hf as [|b r Hb Hr]; [reflexivity|].
    exact (proj1 (strip_one_graphic b r Hb)). }
  unfold trim. rewrite Hs. unfold trim_end. rewrite trim_fuel_stable; [apply reverse_involutive|].
  apply Forall_reverse in Hf. destruct Hf as [|b r Hb Hr]; [reflexivity|].
  exact (proj2 (strip_one_graphic b r Hb)).
Qed.

Lemma digit_graphic b : is_ascii_digit b = true → graphic b = true.
Proof. destruct b; vm_compute; congruence. Qed.

(** One leading space. *)
Lemma trim_space_graphic s : Forall (λ b, graphic b = true) s → trim (Byte.x20 :: s) = s.
Proof.
  intros Hf. rewrite <- (trim_graphic s Hf) at 2. unfold trim. f_equal.
Qed.

(** *** Words *)

(** [str::split_whitespace]: the words of a text. *)
Fixpoint words_fuel (fuel : nat) (word s : str) : list str :=
  let flush := if is_empty word then [] else [reverse word] in
  match fuel with
  | O => flush
  | S k =>
      match s with
      | [] => flush
      | b :: r =>
          match strip_one all_whitespace s with
          | Some rest => flush ++ words_fuel k [] rest
          | None => words_fuel k (b :: word) r
          end
      end
  end.
Definition split_whitespace (s : str) : list str := words_fuel (length s) [] s.

(** [str::splitn(2, char::is_whitespace)]: the text before the first white
    space and the text after it, if there is any. *)
Fixpoint split_at_whitespace (s : str) : str * option str :=
  match s with
  | [] => ([], None)
  | b :: r =>
      match strip_one all_whitespace s with
      | Some rest => ([], Some rest)
      | None => let '(x, y) := split_at_whitespace r in (b :: x, y)
      end
  end.

(** *** Lossy decoding

    [String::from_utf8_lossy]: each maximal ill-formed part becomes U+FFFD. *)

Definition replacement : str := [zb 0xEF; zb 0xBF; zb 0xBD].

(** The bytes that may follow the first of three or four. *)
Definition second3 (b0 b1 : byte) : bool :=
  in_range 0xE0 0xE0 b0 && in_range 0xA0 0xBF b1 ||
  (in_range 0xE1 0xEC b0 || in_range 0xEE 0xEF b0) && cont b1 ||
  in_range 0xED 0xED b0 && in_range 0x80 0x9F b1.
Definition second4 (b0 b1 : byte) : bool :=
  in_range 0xF0 0xF0 b0 && in_range 0x90 0xBF b1 ||
  in_range 0xF1 0xF3 b0 && cont b1 ||
  in_range 0xF4 0xF4 b0 && in_range 0x80 0x8F b1.

Fixpoint from_utf8_lossy (s : str) : str :=
  match s with
  | [] => []
  | b0 :: r0 =>
      if in_range 0 0x7F b0 then b0 :: from_utf8_lossy r0
      else match r0 with
      | [] => replacement
      | b1 :: r1 =>
          if in_range 0xC2 0xDF b0 then
            if cont b1 then b0 :: b1 :: from_utf8_lossy r1 else replacement ++ from_utf8_lossy r0
          else if second3 b0 b1 then
            match r1 with
            | b2 :: r2 => if cont b2 then b0 :: b1 :: b2 :: from_utf8_lossy r2
                          else replacement ++ from_utf8_lossy r1
            | [] => replacement
            end
          else if second4 b0 b1 then
            match r1 with
            | b2 :: r2 =>
                if cont b2 then
                  match r2 with
                  | b3 :: r3 => if cont b3 then b0 :: b1 :: b2 :: b3 :: from_utf8_lossy r3
                                else replacement ++ from_utf8_lossy r2
                  | [] => replacement
                  end
                else replacement ++ from_utf8_lossy r1
            | [] => replacement
            end
          else replacement ++ from_utf8_lossy r0
      end
  end.

(** Well-formed text is left alone. *)
Lemma lossy_valid s : utf8_valid s = true → from_utf8_lossy s = s.
Proof.
  remember (length s) as n eqn:Hn. revert s Hn.
  induction n as [n IH] using lt_wf_ind. intros [|b0 r0] Hn; [done|]. simpl in Hn.
  cbn [utf8_valid from_utf8_lossy].
  destruct (in_range 0 0x7F b0) eqn:H0; [intros Hv; f_equal; eapply IH; [|done|done]; lia|].
  destruct r0 as [|b1 r1]; [done|]. simpl in Hn. destruct (in_range 0xC2 0xDF b0) eqn:H2.
  { intros [-> Hv]%andb_true_iff. do 2 f_equal. eapply IH; [|done|done]; lia. }
  destruct r1 as [|b2 r2]; [done|]. simpl in Hn. unfold second3, second4.
  assert (utf8_valid r2 = true → from_utf8_lossy r2 = r2) as H3 by (intros Hv; eapply IH; [|done|done]; lia).
  destruct (in_range 0xE0 0xE0 b0) eqn:HE0.
  { intros [[-> ->]%andb_true_iff Hv]%andb_true_iff. simpl. by rewrite H3. }
  destruct (in_range 0xE1 0xEC b0 || in_range 0xEE 0xEF b0) eqn:HE1.
  { intros [[-> ->]%andb_true_iff Hv]%andb_true_iff. simpl. by rewrite H3. }
  destruct (in_range 0xED 0xED b0) eqn:HED.
  { intros [[-> ->]%andb_true_iff Hv]%andb_true_iff. simpl. by rewrite H3. }
  cbn [andb orb]. destruct r2 as [|b3 r3]; [done|]. simpl in Hn.
  destruct (in_range 0xF0 0xF0 b0) eqn:HF0.
  { intros [[[-> ->]%andb_true_iff ->]%andb_true_iff Hv]%andb_true_iff. simpl. do 4 f_equal. eapply IH; [|done|done]; lia. }
  destruct (in_range 0xF1 0xF3 b0) eqn:HF1.
  { intros [[[-> ->]%andb_true_iff ->]%andb_true_iff Hv]%andb_true_iff. simpl. do 4 f_equal. eapply IH; [|done|done]; lia. }
  destruct (in_range 0xF4 0xF4 b0) eqn:HF4; [|done].
  intros [[[-> ->]%andb_true_iff ->]%andb_true_iff Hv]%andb_true_iff. simpl. do 4 f_equal. eapply IH; [|done|done]; lia.
Qed.

Example lossy_bad : from_utf8_lossy ("a" ++ [zb 0xE2; zb 0x82] ++ "b" ++ [zb 0xFF]) = "a" ++ replacement ++ "b" ++ replacement.
Proof. vm_compute. reflexivity. Qed.
