(* ===== verification/Matcher.v ===== *)
(** Rule matchers: [crates/policy/src/matcher.rs].

    The four matcher kinds, their rule-file syntax ([parse], [source]), their
    operator-facing rendering ([describe]) and the glob matcher.  The glob
    matcher is proved equivalent to the declarative reading of a pattern, and
    the save/load round trip of [source] is characterised exactly. *)

From S2P Require Import Prelude Strs.

Definition star : byte := Byte.x2a.

(** The matcher enum: one axis predicate of a rule. *)
Inductive Matcher : Type :=
| Any
| Exact (v : str)
| Prefix (p : str)
| Glob (g : str).

#[global] Instance matcher_eq_dec : EqDecision Matcher.
Proof. solve_decision. Defined.

(** [MatcherError]: reserved for future syntax errors. *)
Inductive MatcherError : Type := InvalidMatcher (why : str).

(** [Matcher::parse]. *)
Definition parse (raw : str) : result MatcherError Matcher :=
  match strip_prefix "glob:" raw with
  | Some pat => Ok (Glob pat)
  | None =>
  match strip_prefix "prefix:" raw with
  | Some lit => Ok (Prefix lit)
  | None =>
  match strip_prefix "exact:" raw with
  | Some lit => Ok (Exact lit)
  | None => if contains_byte star raw then Ok (Glob raw) else Ok (Exact raw)
  end end end.

(** The loop of [glob_match] over the middle parts: from byte offset [pos],
    each non-empty part is located at its first occurrence. *)
Fixpoint glob_middles (text : str) (pos : nat) (middles : list str) : option nat :=
  match middles with
  | [] => Some pos
  | m :: ms =>
      if is_empty m then glob_middles text pos ms
      else match find m (drop pos text) with
           | Some found => glob_middles text (pos + (found + length m)) ms
           | None => None
           end
  end.

(** [glob_match]. *)
Definition glob_match (pattern text : str) : bool :=
  match split star pattern with
  | [] => false
  | [_] => bool_decide (pattern = text)
  | head :: rest =>
      if starts_with head text then
        match glob_middles text (length head) (removelast rest) with
        | Some pos =>
            let tail := default [] (last rest) in
            if is_empty tail then true
            else bool_decide (length tail ≤ length text - pos) && ends_with tail text
        | None => false
        end
      else false
  end.

(** [Matcher::matches]. *)
Definition matches (m : Matcher) (candidate : str) : bool :=
  match m with
  | Any => true
  | Exact v => bool_decide (v = candidate)
  | Prefix p => starts_with p candidate
  | Glob g => glob_match g candidate
  end.

(** [Matcher::describe]: display only. *)
Definition describe (m : Matcher) : str :=
  match m with
  | Any => "any value"
  | Exact v => "exactly `" ++ v ++ "`"
  | Prefix p => "starting with `" ++ p ++ "`"
  | Glob g => "matching `" ++ g ++ "`"
  end.

(** [Matcher::source]: the rule-file string of a matcher, [None] for [Any]. *)
Definition source (m : Matcher) : option str :=
  match m with
  | Any => None
  | Exact v => Some (if contains_byte star v then "exact:" ++ v else v)
  | Prefix p => Some ("prefix:" ++ p)
  | Glob g => Some (if contains_byte star g then g else "glob:" ++ g)
  end.

(** ** Declarative glob semantics

    A pattern character other than the star stands for itself, a star for any
    run of characters. *)
Inductive glob_rel : str → str → Prop :=
| glob_nil : glob_rel [] []
| glob_char c p t : c ≠ star → glob_rel p t → glob_rel (c :: p) (c :: t)
| glob_star_stop p t : glob_rel p t → glob_rel (star :: p) t
| glob_star_more p c t : glob_rel (star :: p) t → glob_rel (star :: p) (c :: t).

#[export] Hint Constructors glob_rel : chaperone.

(** The text left for the parts after the first: every part but the last is
    found somewhere, in order, and the last one ends the text. *)
Fixpoint parts_rel (ps : list str) (u : str) : Prop :=
  match ps with
  | [] => False
  | [tail] => ∃ a, u = a ++ tail
  | m :: ms => ∃ a b, u = a ++ m ++ b ∧ parts_rel ms b
  end.

Lemma parts_rel_cons m ms u :
  ms ≠ [] → parts_rel (m :: ms) u ↔ ∃ a b, u = a ++ m ++ b ∧ parts_rel ms b.
Proof. by destruct ms. Qed.

Lemma glob_rel_star p t : glob_rel (star :: p) t ↔ ∃ a b, t = a ++ b ∧ glob_rel p b.
Proof.
  split.
  - remember (star :: p) as q eqn:Hq. induction 1; simplify_eq.
    + by exists [], t.
    + destruct IHglob_rel as (a & b & -> & ?); [done|]. by exists (c :: a), b.
  - intros (a & b & -> & H). induction a; simpl; auto with chaperone.
Qed.

Lemma glob_rel_char c p t : c ≠ star → glob_rel (c :: p) t ↔ ∃ u, t = c :: u ∧ glob_rel p u.
Proof. intros Hc. split; [inversion 1; simplify_eq; eauto|]. intros (u & -> & ?). by constructor. Qed.

(** The relation read off the parts of the pattern. *)
Definition split_rel (ps : list str) (t : str) : Prop :=
  match ps with
  | [] => False
  | [p] => t = p
  | h :: rest => ∃ u, t = h ++ u ∧ parts_rel rest u
  end.

Lemma split_rel_parts ps t :
  ps ≠ [] → (∃ a b, t = a ++ b ∧ split_rel ps b) ↔ parts_rel ps t.
Proof.
  destruct ps as [|q [|q' qs]]; intros Hne; [done| |].
  - simpl. split; [intros (a & b & -> & ->); eauto|intros [a ->]; eauto].
  - rewrite parts_rel_cons by done. simpl. split.
    + intros (a & b & -> & u & -> & Hu). by exists a, u.
    + intros (a & b & -> & Hb). exists a, (q ++ b). eauto.
Qed.

Lemma glob_rel_split p t : glob_rel p t ↔ split_rel (split star p) t.
Proof.
  revert t. induction p as [|c p IH]; intros t.
  { simpl. split; [by inversion 1|]. intros ->. constructor. }
  simpl. destruct (decide (c = star)) as [->|Hc].
  - rewrite glob_rel_star. setoid_rewrite IH.
    rewrite split_rel_parts by apply split_nonempty.
    destruct (split star p) as [|q qs] eqn:Hs; [by apply split_nonempty in Hs|].
    change (parts_rel (q :: qs) t ↔ ∃ u, t = [] ++ u ∧ parts_rel (q :: qs) u).
    naive_solver.
  - rewrite glob_rel_char by done. setoid_rewrite IH.
    destruct (split star p) as [|q [|q' qs]] eqn:Hs; [by apply split_nonempty in Hs| |].
    + simpl. naive_solver.
    + simpl. split.
      * intros (u & -> & v & -> & Hv). by exists v.
      * intros (v & -> & Hv). eauto.
Qed.

(** More text in front never hurts, so the first occurrence is as good as any. *)
Lemma parts_rel_mono ps x u : parts_rel ps u → parts_rel ps (x ++ u).
Proof.
  destruct ps as [|m [|m' ms]]; [done| |].
  - intros [a ->]. exists (x ++ a). by rewrite app_assoc.
  - rewrite !parts_rel_cons by done. intros (a & b & -> & Hb).
    exists (x ++ a), b. by rewrite <- app_assoc.
Qed.

Lemma parts_rel_find m ms u i :
  ms ≠ [] → find m u = Some i →
  parts_rel (m :: ms) u ↔ parts_rel ms (drop (i + length m) u).
Proof.
  intros Hms Hf. rewrite parts_rel_cons by done. split.
  - intros (a & b & -> & Hb). destruct (find_least m a b) as (j & Hj & Hle).
    assert (i = j) as -> by congruence.
    apply find_Some in Hj as (a' & b' & Heq & <-).
    assert (Hb' : b' = drop (length a' + length m) (a ++ m ++ b)).
    { rewrite Heq, <- drop_drop, !drop_app_length. done. }
    rewrite <- Hb'.
    assert (Hsuf : b = drop (length a - length a') b').
    { rewrite Hb', drop_drop.
      replace (length a' + length m + (length a - length a')) with (length a + length m) by lia.
      by rewrite <- drop_drop, !drop_app_length. }
    rewrite <- (take_drop (length a - length a') b'), <- Hsuf. by apply parts_rel_mono.
  - apply find_Some in Hf as (a & r & -> & <-).
    rewrite <- drop_drop, !drop_app_length. eauto.
Qed.

Lemma parts_rel_not_found m ms u : ms ≠ [] → find m u = None → ¬ parts_rel (m :: ms) u.
Proof.
  intros Hms Hf. rewrite parts_rel_cons by done. intros (a & b & -> & _).
  destruct (find_least m a b) as (j & Hj & _). congruence.
Qed.

(** The tail test of [glob_match]. *)
Lemma tail_fits tail text pos :
  pos ≤ length text →
  parts_rel [tail] (drop pos text) ↔ (length tail ≤ length text - pos ∧ ends_with tail text = true).
Proof.
  intros Hpos. rewrite ends_with_spec. simpl. split.
  - intros [a Ha]. split.
    + rewrite <- length_drop, Ha, length_app. lia.
    + exists (take pos text ++ a). rewrite <- app_assoc, <- Ha. by rewrite take_drop.
  - intros [Hlen [r ->]]. rewrite length_app in Hlen, Hpos.
    exists (drop pos r). rewrite drop_app_le by lia. done.
Qed.

Lemma glob_middles_rel text pos ms tail :
  pos ≤ length text →
  parts_rel (ms ++ [tail]) (drop pos text) ↔
  ∃ pos', glob_middles text pos ms = Some pos' ∧ pos' ≤ length text ∧ parts_rel [tail] (drop pos' text).
Proof.
  revert pos. induction ms as [|m ms IH]; intros pos Hpos; [simpl; naive_solver|].
  cbn [app glob_middles].
  assert (Hne : ms ++ [tail] ≠ []) by (by destruct ms).
  destruct (is_empty m) eqn:Hm.
  - apply is_empty_true in Hm as ->. rewrite <- IH by done.
    rewrite parts_rel_cons by done. split.
    + intros (a & b & -> & Hb). by apply parts_rel_mono.
    + intros H. by exists [], (drop pos text).
  - destruct (find m (drop pos text)) as [i|] eqn:Hf.
    + rewrite (parts_rel_find _ _ _ _ Hne Hf), drop_drop.
      apply IH. apply find_Some in Hf as (a & r & Heq & <-).
      apply (f_equal length) in Heq. rewrite length_drop, !length_app in Heq. lia.
    + split; [by intros ?%parts_rel_not_found|naive_solver].
Qed.

Lemma glob_middles_bound text pos ms pos' :
  pos ≤ length text → glob_middles text pos ms = Some pos' → pos' ≤ length text.
Proof.
  revert pos. induction ms as [|m ms IH]; intros pos Hpos; simpl; [by intros [= <-]|].
  destruct (is_empty m); [by apply IH|].
  destruct (find m (drop pos text)) as [i|] eqn:Hf; [|done].
  apply IH. apply find_Some in Hf as (a & r & Heq & <-).
  apply (f_equal length) in Heq. rewrite length_drop, !length_app in Heq. lia.
Qed.

Lemma removelast_last {A} (l : list A) x : last l = Some x → l = removelast l ++ [x].
Proof.
  induction l as [|y [|z l] IH]; simpl; [done|by intros [= ->]|].
  intros H. f_equal. by apply IH.
Qed.

Lemma glob_match_split pattern text :
  glob_match pattern text = true ↔ split_rel (split star pattern) text.
Proof.
  unfold glob_match. pose proof (join_split star pattern) as Hjoin.
  destruct (split star pattern) as [|head [|q qs]] eqn:Hs; [by apply split_nonempty in Hs| |].
  { simpl in *. rewrite bool_decide_eq_true. subst. naive_solver. }
  clear Hs Hjoin. cbn [split_rel]. assert (Hrest : q :: qs ≠ []) by done.
  generalize dependent (q :: qs). clear q qs. intros rest Hrest.
  assert (∃ tail, last rest = Some tail) as [tail Hlast].
  { destruct (last rest) eqn:Hl; [eauto|]. by apply last_None in Hl. }
  rewrite Hlast. cbn [default from_option id].
  destruct (starts_with head text) eqn:Hh.
  2:{ split; [done|]. intros (u & -> & _). by rewrite starts_with_app in Hh. }
  apply starts_with_spec in Hh as [u ->].
  assert (Hu : (∃ v, head ++ u = head ++ v ∧ parts_rel rest v) ↔ parts_rel rest (drop (length head) (head ++ u))).
  { rewrite drop_app_length. split; [intros (v & ->%app_inv_head & Hv); done|eauto]. }
  rewrite Hu. rewrite (removelast_last rest tail) at 2 by done.
  rewrite glob_middles_rel by (rewrite length_app; lia).
  destruct (glob_middles (head ++ u) (length head) (removelast rest)) as [pos|] eqn:Hg; [|naive_solver].
  destruct (is_empty tail) eqn:Ht.
  - apply is_empty_true in Ht as ->. split; [intros _|done].
    exists pos. split; [done|]. split; [|by exists (drop pos (head ++ u)); rewrite app_nil_r].
    eapply glob_middles_bound; [|done]. rewrite length_app. lia.
  - rewrite andb_true_iff, bool_decide_eq_true. split.
    + intros H. assert (pos ≤ length (head ++ u)).
      { eapply glob_middles_bound; [|done]. rewrite length_app. lia. }
      exists pos. split; [done|split; [done|by apply tail_fits]].
    + intros (pos' & [= <-] & Hpos & Hp). by apply tail_fits.
Qed.

(** C34: [glob_match] decides the declarative reading of its pattern: a
    character stands for itself and each star for any run of characters, so
    the greedy left-to-right scan never loses a match and never invents one. *)
Theorem glob_match_correct pattern text :
  glob_match pattern text = true ↔ glob_rel pattern text.
Proof. by rewrite glob_rel_split, glob_match_split. Qed.

(** The matchers as predicates. *)
Definition denotes (m : Matcher) (c : str) : Prop :=
  match m with
  | Any => True
  | Exact v => c = v
  | Prefix p => ∃ r, c = p ++ r
  | Glob g => glob_rel g c
  end.

Lemma matches_denotes m c : matches m c = true ↔ denotes m c.
Proof.
  destruct m; simpl; [done|rewrite bool_decide_eq_true; naive_solver|apply starts_with_spec|].
  by rewrite glob_rel_split, glob_match_split.
Qed.

(** ** Save/load round trip *)

(** A string that starts with no matcher tag. *)
Definition untagged (s : str) : bool :=
  negb (starts_with "glob:" s) && negb (starts_with "prefix:" s) && negb (starts_with "exact:" s).

Lemma parse_untagged s :
  untagged s = true →
  parse s = Ok (if contains_byte star s then Glob s else Exact s).
Proof.
  unfold untagged, parse. intros H. bool_to_prop.
  rewrite !(proj2 (strip_prefix_None _ _)) by done. by destruct (contains_byte star s).
Qed.

Lemma parse_tagged s v :
  (parse ("glob:" ++ v) = Ok (Glob v)) ∧ (parse ("prefix:" ++ v) = Ok (Prefix v)) ∧
  (parse ("exact:" ++ v) = Ok (Exact v)) ∧
  (untagged s = false → ∃ t w, s = t ++ w ∧ t ∈ ["glob:"; "prefix:"; "exact:"]).
Proof.
  repeat split; unfold parse; simpl; [done..|].
  unfold untagged. rewrite !andb_false_iff, !negb_false_iff, !starts_with_spec.
  intros [[[r ->]|[r ->]]|[r ->]]; eexists _, r; (split; [done|]); set_solver.
Qed.

(** A bare string survives [parse] as itself only when no tag prefixes it:
    otherwise the tag is stripped and the payload is shorter. *)
Lemma parse_bare_shorter s m :
  untagged s = false → parse s = Ok m → m ≠ Glob s ∧ m ≠ Exact s.
Proof.
  intros Hs Hp. destruct (parse_tagged s []) as (_ & _ & _ & Ht).
  destruct (Ht Hs) as (t & w & -> & Hin). clear Ht Hs.
  destruct (parse_tagged [] w) as (Hg & Hx & He & _).
  assert (m = Glob w ∨ m = Prefix w ∨ m = Exact w) as Hm.
  { apply list_elem_of_In in Hin. simpl in Hin.
    destruct Hin as [<-|[<-|[<-|[]]]]; [rewrite Hg in Hp|rewrite Hx in Hp|rewrite He in Hp];
      injection Hp as <-; auto. }
  assert (w ≠ t ++ w) as Hw.
  { intros Heq. apply (f_equal length) in Heq. rewrite length_app in Heq.
    assert (0 < length t) by (apply list_elem_of_In in Hin; destruct Hin as [<-|[<-|[<-|[]]]]; simpl; lia). lia. }
  split; intros ->; destruct Hm as [[=]|[[=]|[=]]]; congruence.
Qed.

(** The matchers that [source] writes without a tag. *)
Definition written_bare (m : Matcher) : option str :=
  match m with
  | Exact v => if contains_byte star v then None else Some v
  | Glob g => if contains_byte star g then Some g else None
  | _ => None
  end.

(** The rule-file round trip of [source], exactly: a matcher other than
    [Any] parses back to itself if and only if it is written with its tag or
    its bare text starts with none of the three tags. *)
Theorem source_roundtrip m s :
  source m = Some s →
  parse s = Ok m ↔ (∀ v, written_bare m = Some v → untagged v = true).
Proof.
  destruct (parse_tagged [] (match m with Exact v | Prefix v | Glob v => v | Any => [] end))
    as (Hg & Hp & He & _).
  destruct m as [|v|p|g]; simpl; [done| | |]; intros [= <-].
  - destruct (contains_byte star v) eqn:Hv; [naive_solver|]. split.
    + intros H w [= <-]. destruct (untagged v) eqn:Hu; [done|].
      by destruct (parse_bare_shorter v _ Hu H).
    + intros H. rewrite parse_untagged by auto. by rewrite Hv.
  - naive_solver.
  - destruct (contains_byte star g) eqn:Hv; [|naive_solver]. split.
    + intros H w [= <-]. destruct (untagged g) eqn:Hu; [done|].
      by destruct (parse_bare_shorter g _ Hu H).
    + intros H. rewrite parse_untagged by auto. by rewrite Hv.
Qed.

Lemma source_roundtrip_witness :
  source (Glob "vault://prod/*") = Some "vault://prod/*" ∧ parse "vault://prod/*" = Ok (Glob "vault://prod/*").
Proof.
  split; [reflexivity|].
  apply (source_roundtrip (Glob "vault://prod/*") "vault://prod/*" eq_refl).
  intros v [= <-]. reflexivity.
Defined.

(** The documented round-trip invariant of [source] fails for a loadable
    rule: the rule-file text [glob:prefix:a*] loads as a glob, is saved without
    its tag as [prefix:a*], and reloads as a prefix match that accepts strings
    the loaded rule refused. *)
Theorem source_widens_on_reload :
  ∃ raw m s m',
    parse raw = Ok m ∧ source m = Some s ∧ parse s = Ok m' ∧ m ≠ m' ∧
    ∃ c, matches m c = false ∧ matches m' c = true.
Proof.
  exists "glob:prefix:a*", (Glob "prefix:a*"), "prefix:a*", (Prefix "a*").
  repeat split; [done|]. exists "a*x". by split; vm_compute.
Qed.
