(* ===== verification/Json.v ===== *)
(** JSON values: the part of [serde_json::Value] the crates use.

    [Value] with the constructors of the crate, objects as association lists
    in key order (the crate's default map is a [BTreeMap]), and the accessors
    [get], [as_str], [as_u64], ... and the map operations [insert], [remove]. *)

From S2P Require Import Prelude Strs.
From Stdlib Require Import Sorting.Sorted.
#[local] Open Scope Z_scope.

(** [serde_json::Number]: a u64, a negative i64, or the bits of an f64. *)
Inductive number : Type :=
| PosInt (n : Z)
| NegInt (n : Z)
| Float (bits : Z).

#[global] Instance number_eq_dec : EqDecision number.
Proof. solve_decision. Defined.

#[warnings="-register-all"]
Inductive Value : Type :=
| Null
| Bool (b : bool)
| Number (n : number)
| String (s : str)
| Array (l : list Value)
| Object (m : list (str * Value)).

Abbreviation Map := (list (str * Value)).

(** How deep arrays and objects are nested: 0 for a scalar, 1 for a flat
    object.  The parser of the crate follows at most [MAX_DEPTH] levels (its
    recursion limit of 128, which the 128th level exhausts). *)
Fixpoint depth (v : Value) : nat :=
  match v with
  | Array l => S (foldr (λ x, Nat.max (depth x)) 0%nat l)
  | Object m => S (foldr (λ kv, Nat.max (depth kv.2)) 0%nat m)
  | _ => 0%nat
  end.

Definition MAX_DEPTH : nat := 127.

Lemma depth_object m n : (depth (Object m) ≤ S n)%nat ↔ Forall (λ kv, (depth kv.2 ≤ n)%nat) m.
Proof.
  simpl. rewrite <- Nat.succ_le_mono. induction m as [|kv m IH]; simpl.
  { split; [constructor|lia]. }
  rewrite Forall_cons, <- IH. lia.
Qed.

(** Byte-wise lexicographic order of keys. *)
Fixpoint str_ltb (s t : str) : bool :=
  match s, t with
  | [], [] => false
  | [], _ :: _ => true
  | _ :: _, [] => false
  | a :: s', b :: t' => if decide (a = b) then str_ltb s' t' else bz a <? bz b
  end.

Fixpoint map_get (k : str) (m : Map) : option Value :=
  match m with
  | [] => None
  | (k', v) :: r => if decide (k' = k) then Some v else map_get k r
  end.

(** [Map::insert]: replaces the value of a present key, else inserts in order. *)
Fixpoint map_insert (k : str) (v : Value) (m : Map) : Map :=
  match m with
  | [] => [(k, v)]
  | (k', v') :: r =>
      if decide (k' = k) then (k, v) :: r
      else if str_ltb k k' then (k, v) :: (k', v') :: r
      else (k', v') :: map_insert k v r
  end.

(** [Map::remove]. *)
Definition map_remove (k : str) (m : Map) : Map := filter (λ kv, kv.1 ≠ k) m.

(** [json!({...})]: fields inserted one by one. *)
Definition object (fields : list (str * Value)) : Value :=
  Object (fold_left (λ m kv, map_insert kv.1 kv.2 m) fields []).

Definition get (v : Value) (k : str) : option Value :=
  match v with Object m => map_get k m | _ => None end.
Definition as_object (v : Value) : option Map := match v with Object m => Some m | _ => None end.
Definition is_object (v : Value) : bool := match v with Object _ => true | _ => false end.
Definition as_str (v : Value) : option str := match v with String s => Some s | _ => None end.
Definition as_array (v : Value) : option (list Value) := match v with Array l => Some l | _ => None end.
Definition as_bool (v : Value) : option bool := match v with Bool b => Some b | _ => None end.
Definition as_u64 (v : Value) : option Z :=
  match v with Number (PosInt n) => Some n | _ => None end.
Definition as_i64 (v : Value) : option Z :=
  match v with
  | Number (PosInt n) => if n <=? i64_max then Some n else None
  | Number (NegInt n) => Some n
  | _ => None
  end.

(** [obj.get(k).and_then(Value::as_str)], the usual access path. *)
Definition get_str (v : Value) (k : str) : option str := get v k ≫= as_str.
Definition get_u64 (v : Value) (k : str) : option Z := get v k ≫= as_u64.

(** The array of strings at a key: [as_array] then [filter_map(as_str)]. *)
Definition get_strs (v : Value) (k : str) : list str :=
  match get v k ≫= as_array with
  | Some l => omap as_str l
  | None => []
  end.

Definition jstr (s : str) : Value := String s.
Definition jnum (n : Z) : Value := Number (if n <? 0 then NegInt n else PosInt n).

Lemma map_get_insert k v m : map_get k (map_insert k v m) = Some v.
Proof.
  induction m as [|[k' v'] m IH]; simpl; [by rewrite decide_True|].
  destruct (decide (k' = k)) as [->|Hk]; simpl; [by rewrite decide_True|].
  destruct (str_ltb k k'); simpl; [by rewrite decide_True|]. by rewrite decide_False.
Qed.

Lemma map_get_insert_ne k k' v m : k ≠ k' → map_get k (map_insert k' v m) = map_get k m.
Proof.
  intros Hne. induction m as [|[j w] m IH]; simpl; [by rewrite decide_False|].
  destruct (decide (j = k')) as [->|Hj]; simpl.
  { rewrite !decide_False by congruence. done. }
  destruct (str_ltb k' j); simpl; [by rewrite decide_False|].
  destruct (decide (j = k)); done.
Qed.

Lemma map_get_remove k m : map_get k (map_remove k m) = None.
Proof.
  unfold map_remove. induction m as [|[j w] m IH]; [done|].
  rewrite filter_cons. simpl. destruct (decide (j ≠ k)); [|done].
  simpl. by rewrite decide_False.
Qed.

Lemma map_get_remove_ne k k' m : k ≠ k' → map_get k (map_remove k' m) = map_get k m.
Proof.
  intros Hne. unfold map_remove. induction m as [|[j w] m IH]; [done|].
  rewrite filter_cons. simpl. destruct (decide (j ≠ k')) as [Hj|Hj]; simpl.
  - destruct (decide (j = k)); done.
  - destruct (decide (j = k)) as [->|]; [|done]. destruct Hj; congruence.
Qed.

Lemma map_remove_insert k v m : map_remove k (map_insert k v m) = map_remove k m.
Proof.
  unfold map_remove. induction m as [|[j w] m IH]; simpl.
  { rewrite filter_cons_False; [done|]. simpl. tauto. }
  destruct (decide (j = k)) as [->|Hj].
  { by rewrite !filter_cons_False by (simpl; tauto). }
  destruct (str_ltb k j).
  - rewrite filter_cons_False by (simpl; tauto). done.
  - rewrite !filter_cons_True by done. by f_equal.
Qed.

Lemma map_remove_comm k k' m : map_remove k (map_remove k' m) = map_remove k' (map_remove k m).
Proof. unfold map_remove. rewrite !list_filter_filter. apply list_filter_iff. naive_solver. Qed.

Lemma map_remove_absent k m : map_get k m = None → map_remove k m = m.
Proof.
  unfold map_remove. induction m as [|[j w] m IH]; simpl; [done|].
  destruct (decide (j = k)); [done|]. intros H.
  rewrite filter_cons_True by done. by rewrite IH.
Qed.

#[export] Hint Rewrite map_get_insert map_get_remove : chaperone.

(** Keys in strictly increasing order, as a [BTreeMap] keeps them. *)
Definition keys_sorted (m : Map) : Prop := StronglySorted (λ a b, str_ltb a b = true) m.*1.

Lemma str_ltb_irrefl s : str_ltb s s = false.
Proof. induction s; simpl; [done|]. by rewrite decide_True. Qed.

Lemma str_ltb_trans s t u : str_ltb s t = true → str_ltb t u = true → str_ltb s u = true.
Proof.
  revert t u. induction s as [|a s IH]; intros [|b t] [|c u]; simpl; try done.
  destruct (decide (a = b)) as [->|Hab]; [destruct (decide (b = c)); eauto; done|].
  destruct (decide (b = c)) as [->|Hbc]; [by rewrite decide_False|].
  intros H1%Z.ltb_lt H2%Z.ltb_lt. rewrite decide_False; [apply Z.ltb_lt; lia|intros ->; lia].
Qed.

Lemma str_ltb_total s t : s ≠ t → str_ltb s t = false → str_ltb t s = true.
Proof.
  revert t. induction s as [|a s IH]; intros [|b t]; simpl; try done.
  intros Hne. destruct (decide (a = b)) as [->|Hab].
  - rewrite decide_True by done. apply IH. congruence.
  - rewrite decide_False by done. rewrite Z.ltb_ge, Z.ltb_lt. intros.
    assert (bz a ≠ bz b) by (by intros ?%bz_inj). lia.
Qed.

Lemma keys_sorted_cons k v m :
  keys_sorted ((k, v) :: m) ↔ Forall (λ kv, str_ltb k kv.1 = true) m ∧ keys_sorted m.
Proof.
  unfold keys_sorted. rewrite fmap_cons. split.
  - inversion_clear 1 as [|? ? Hs Hf]. split; [|done].
    apply (Forall_fmap fst (λ a, str_ltb k a = true)). done.
  - intros [H1 H2]. constructor; [done|].
    apply (Forall_fmap fst (λ a, str_ltb k a = true)). done.
Qed.

Lemma keys_sorted_remove k m : keys_sorted m → keys_sorted (map_remove k m).
Proof.
  unfold map_remove. induction m as [|[j w] m IH]; [done|].
  rewrite keys_sorted_cons. intros [H1 H2]. rewrite filter_cons.
  destruct (decide _); [|by apply IH]. apply keys_sorted_cons. split; [|by apply IH].
  apply Forall_forall. intros x [_ Hx]%list_elem_of_filter.
  rewrite Forall_forall in H1. by apply (H1 x).
Qed.

Lemma map_insert_forall (P : str * Value → Prop) k v m :
  P (k, v) → Forall P m → Forall P (map_insert k v m).
Proof.
  intros Hk. induction 1 as [|[j w] m Hj Hm IH]; simpl; [by repeat constructor|].
  destruct (decide (j = k)); [by constructor|].
  destruct (str_ltb k j); by repeat constructor.
Qed.

Lemma keys_sorted_insert k v m : keys_sorted m → keys_sorted (map_insert k v m).
Proof.
  induction m as [|[j w] m IH]; simpl; [by repeat constructor|].
  rewrite keys_sorted_cons. intros [H1 H2].
  destruct (decide (j = k)) as [->|Hne]; [by apply keys_sorted_cons|].
  destruct (str_ltb k j) eqn:Hlt; apply keys_sorted_cons.
  - split; [constructor; [done|]|by apply keys_sorted_cons].
    eapply Forall_impl; [done|]. intros [l x] Hl. by eapply str_ltb_trans.
  - split; [|by apply IH]. apply map_insert_forall; [|done].
    simpl. apply str_ltb_total; done.
Qed.

Lemma object_sorted fields : ∃ m, object fields = Object m ∧ keys_sorted m.
Proof.
  unfold object. eexists. split; [done|].
  assert (Hgen : ∀ m, keys_sorted m →
            keys_sorted (fold_left (λ m kv, map_insert kv.1 kv.2 m) fields m)).
  { induction fields as [|[k v] f IH]; intros m Hm; simpl; [done|].
    by apply IH, keys_sorted_insert. }
  apply Hgen. constructor.
Qed.

Lemma object_forall (P : str * Value → Prop) fields m :
  object fields = Object m → Forall P fields → Forall P m.
Proof.
  unfold object. intros [= <-] Hf.
  assert (Hgen : ∀ m, Forall P m → Forall P (fold_left (λ m kv, map_insert kv.1 kv.2 m) fields m)).
  { induction Hf as [|[k v] f Hk Hf IH]; intros m Hm; simpl; [done|].
    by apply IH, map_insert_forall. }
  apply Hgen. constructor.
Qed.

(** The last binding of a key in the field list wins. *)
Lemma object_get fields k :
  get (object fields) k = snd <$> last (filter (λ kv, kv.1 = k) fields).
Proof.
  unfold object, get.
  assert (Hgen : ∀ m, map_get k (fold_left (λ m kv, map_insert kv.1 kv.2 m) fields m)
     = match last (filter (λ kv, kv.1 = k) fields) with
       | Some kv => Some kv.2 | None => map_get k m end).
  { induction fields as [|[j v] f IH]; intros m; [done|].
    rewrite filter_cons. simpl. rewrite IH.
    destruct (decide (j = k)) as [->|Hj].
    - rewrite last_cons. destruct (last (filter _ f)); simpl; [done|]. by rewrite map_get_insert.
    - destruct (last (filter _ f)); [done|]. by rewrite map_get_insert_ne. }
  rewrite Hgen. by destruct (last (filter _ fields)).
Qed.

#[export] Hint Resolve keys_sorted_insert keys_sorted_remove : chaperone.

(** *** Mapping over the values of an object *)

Definition map_values (f : Value → Value) (m : Map) : Map := (λ kv, (kv.1, f kv.2)) <$> m.

Lemma map_get_values f k m : map_get k (map_values f m) = f <$> map_get k m.
Proof. induction m as [|[k' v] m IH]; simpl; [done|]. by case_decide. Qed.

Lemma map_remove_values f k m : map_remove k (map_values f m) = map_values f (map_remove k m).
Proof.
  unfold map_remove, map_values. induction m as [|[k' v] m IH]; [done|].
  rewrite fmap_cons, !filter_cons. simpl. case_decide; simpl; by rewrite IH.
Qed.

(** ** Objects of scalars and arrays of scalars *)

(** A scalar as the crate can hold it: UTF-8 text, integers in range. *)
Definition scalar (v : Value) : bool :=
  match v with
  | Null | Bool _ => true
  | String s => utf8_valid s
  | Number (PosInt n) => (0 <=? n) && (n <=? u64_max)
  | Number (NegInt n) => (i64_min <=? n) && (n <? 0)
  | _ => false
  end.

Definition flat_field (v : Value) : bool :=
  match v with Array l => forallb scalar l | _ => scalar v end.

Definition flat_entry (kv : str * Value) : Prop := utf8_valid kv.1 = true ∧ flat_field kv.2 = true.

Definition flat_object (m : Map) : Prop := keys_sorted m ∧ Forall flat_entry m.

Lemma flat_insert k v m : flat_entry (k, v) → flat_object m → flat_object (map_insert k v m).
Proof. intros Hkv [Hs Hf]. split; [by apply keys_sorted_insert|by apply map_insert_forall]. Qed.

Lemma object_flat fields : Forall flat_entry fields → ∃ m, object fields = Object m ∧ flat_object m.
Proof.
  intros Hf. destruct (object_sorted fields) as (m & Hm & Hs). exists m.
  split; [done|]. split; [done|]. by eapply object_forall.
Qed.

Lemma flat_depth m : flat_object m → (depth (Object m) ≤ 2)%nat.
Proof.
  intros [_ Hf]. apply depth_object. eapply Forall_impl; [exact Hf|]. intros [k v] [_ Hv].
  simpl in *. destruct v as [| | | |l|]; simpl in *; try done; try lia.
  apply le_n_S. induction l as [|x l IH]; simpl in *; [lia|].
  apply andb_true_iff in Hv as [Hx Hl]. destruct x; simpl in *; try done; by apply IH.
Qed.

Lemma depth_insert k v m n :
  (depth v ≤ n)%nat → (depth (Object m) ≤ S n)%nat → (depth (Object (map_insert k v m)) ≤ S n)%nat.
Proof. intros Hv Hm%depth_object. apply depth_object. by apply map_insert_forall. Qed.

Lemma depth_get k v m : map_get k m = Some v → (depth v < depth (Object m))%nat.
Proof.
  induction m as [|[j x] m IH]; [done|]. simpl in *. destruct (decide (j = k)); [intros [= ->]; lia|].
  intros Hm. specialize (IH Hm). lia.
Qed.
