(* ===== verification/Extern.v ===== *)
(** Interfaces of the crates outside the repository.

    Each class is one third-party crate (or operating-system service) as the
    code calls it: its functions are parameters, its laws are the documented
    facts the theorems rely on.  [Toy] instances show that the laws can hold. *)

From S2P Require Import Prelude Strs Json.
#[local] Open Scope Z_scope.

(** [base64]: the URL-safe alphabet without padding, and the standard one. *)
Class Base64 := {
  b64url_encode : str → str;
  b64url_decode : str → result str str;
  b64std_encode : str → str;
  b64std_decode : str → result str str;
  b64url_decode_encode : ∀ b, b64url_decode (b64url_encode b) = Ok b;
  b64url_trim : ∀ b, trim (b64url_encode b) = b64url_encode b;
  b64url_graphic : ∀ b, Forall (λ c, graphic c = true) (b64url_encode b);
  b64std_decode_encode : ∀ b, b64std_decode (b64std_encode b) = Ok b;
  b64std_no_bracket : ∀ b, (Byte.x5b ∉ b64std_encode b) ∧ (Byte.x5d ∉ b64std_encode b);
}.

(** [serde_json]'s text format and [canon_json]'s RFC 8785 serialization.
    Canonical text is one line; it parses back to [normalize v], which is [v]
    with its numbers in canonical form: strings, small integers and the shape
    of objects are kept, and canonicalization does not see the difference.
    Text nested deeper than [MAX_DEPTH] is refused by the parser.  The compact text of an object of scalars parses back to it. *)
Class JsonText := {
  json_from_str : str → result str Value;
  json_to_string : Value → str;
  canonical : Value → result str str;
  normalize : Value → Value;
  canonical_parses : ∀ v s, canonical v = Ok s → (depth v ≤ MAX_DEPTH)%nat →
    json_from_str s = Ok (normalize v);
  canonical_too_deep : ∀ v s, canonical v = Ok s → (MAX_DEPTH < depth v)%nat →
    is_ok (json_from_str s) = false;
  canonical_normalize : ∀ v, canonical (normalize v) = canonical v;
  normalize_string : ∀ s, normalize (String s) = String s;
  normalize_int : ∀ n, 0 ≤ n < 2 ^ 53 → normalize (Number (PosInt n)) = Number (PosInt n);
  normalize_object : ∀ m, keys_sorted m →
    normalize (Object m) = Object ((λ kv, (kv.1, normalize kv.2)) <$> m);
  canonical_remove : ∀ m k s, keys_sorted m → canonical (Object m) = Ok s →
    ∃ s', canonical (Object (map_remove k m)) = Ok s';
  canonical_one_line : ∀ m s, canonical (Object m) = Ok s →
    (zb 10 ∉ s) ∧ (zb 13 ∉ s) ∧ ∃ r, s = Byte.x7b :: r;
  canonical_utf8 : ∀ v s, canonical v = Ok s → utf8_valid s = true;
  canonical_null_ok : is_ok (canonical Null) = true;
  canonical_string_ok : ∀ s, is_ok (canonical (String s)) = true;
  canonical_int_ok : ∀ n, Z.abs n < 2 ^ 53 → is_ok (canonical (jnum n)) = true;
  canonical_object_ok : ∀ m, Forall (λ kv, is_ok (canonical kv.2) = true) m →
    is_ok (canonical (Object m)) = true;
  to_string_parses : ∀ m, flat_object m → json_from_str (json_to_string (Object m)) = Ok (Object m);
}.

(** [sha2::Sha256]: 32-byte digests. *)
Class Sha256 := {
  sha256 : str → str;
  sha256_len : ∀ b, length (sha256 b) = 32%nat;
}.

(** [ed25519_dalek]: a signing key, the one of a 32-byte seed, its verifying
    key, and signatures. *)
Class Ed25519 := {
  SigningKey : Type;
  VerifyingKey : Type;
  key_from_seed : str → SigningKey;
  verifying_key : SigningKey → VerifyingKey;
  vk_to_bytes : VerifyingKey → str;
  vk_from_bytes : str → result str VerifyingKey;
  sign : SigningKey → str → str;
  sig_verify : VerifyingKey → str → str → bool;
  sig_verify_strict : VerifyingKey → str → str → bool;
  vk_to_bytes_len : ∀ vk, length (vk_to_bytes vk) = 32%nat;
  vk_from_to_bytes : ∀ vk, vk_from_bytes (vk_to_bytes vk) = Ok vk;
  sign_len : ∀ sk m, length (sign sk m) = 64%nat;
  sign_verifies : ∀ sk m, sig_verify (verifying_key sk) m (sign sk m) = true;
}.

(** [time::OffsetDateTime], as nanoseconds since the Unix epoch: its RFC 3339
    parser, whole seconds since the epoch (rounded down) and the whole seconds
    of a difference (truncated towards zero). *)
Class TimeApi := {
  parse_rfc3339 : str → option Z;
  unix_timestamp : Z → Z;
  whole_seconds : Z → Z;
  unix_timestamp_floor : ∀ t, unix_timestamp t = t / 1000000000;
  whole_seconds_trunc : ∀ d, whole_seconds d = Z.quot d 1000000000;
}.

(** [Debug] rendering in messages ([{:?}]); display only. *)
Class DebugFmt := { debug_str : str → str; debug_opt_value : option Value → str }.

(** [serde_json] on one of the repository's own structs: its text and the
    derived parser.  A struct is written as an object. *)
Class SerdeText (A : Type) := {
  to_text : A → str;
  from_text : str → result str A;
  from_to_text : ∀ a, from_text (to_text a) = Ok a;
  to_text_object : ∀ a, ∃ r, to_text a = Byte.x7b :: r;
}.

(** The compact form ([to_string]) is one line of UTF-8: control characters
    are escaped. *)
Class SerdeLine (A : Type) `{SerdeText A} := {
  to_text_one_line : ∀ a, (zb 10 ∉ to_text a) ∧ (zb 13 ∉ to_text a);
  to_text_utf8 : ∀ a, utf8_valid (to_text a) = true;
}.

(** [aes_gcm::Aes256Gcm] with a 32-byte key and a 12-byte nonce: encryption
    fails only above the documented plaintext limit, appends a 16-byte tag, and
    decryption inverts it. *)
Definition AES_GCM_MAX : Z := 2 ^ 36.
Class Aead := {
  aead_encrypt : str → str → str → option str;
  aead_decrypt : str → str → str → option str;
  aead_encrypt_total : ∀ k n p, length k = 32%nat → length n = 12%nat →
    Z.of_nat (length p) ≤ AES_GCM_MAX → ∃ c, aead_encrypt k n p = Some c;
  aead_encrypt_len : ∀ k n p c, aead_encrypt k n p = Some c → length c = (length p + 16)%nat;
  aead_decrypt_encrypt : ∀ k n p c, aead_encrypt k n p = Some c → aead_decrypt k n c = Some p;
}.

(** [argon2]: the check of the cost parameters (memory in KiB, passes, lanes)
    and Argon2id of a passphrase and a salt, a 32-byte key. *)
Class Argon2 := {
  argon2_params : Z → Z → Z → result str unit;
  argon2id : Z → Z → Z → str → str → result str str;
  argon2id_len : ∀ m t p pass salt k, argon2id m t p pass salt = Ok k → length k = 32%nat;
}.
