(* ===== verification/Toy.v ===== *)
(** Concrete instances of the external interfaces.

    Each interface of [Extern] is implemented by small executable functions
    that satisfy its laws (hexadecimal for base64, a bit string for JSON text,
    a checksum for the digest and the signature).  They show that the laws can
    hold together and let the witnesses evaluate; no theorem depends on them. *)

From S2P Require Import Prelude Strs Json Extern.
#[local] Open Scope Z_scope.

(** ** Hexadecimal as base64 *)

Fixpoint unhex_bytes (s : str) : result str str :=
  match s with
  | [] => Ok []
  | a :: b :: r =>
      match hex_value a, hex_value b with
      | Some x, Some y => (λ t, zb (16 * x + y) :: t) <$> unhex_bytes r
      | _, _ => Err "bad digit"
      end
  | _ => Err "odd length"
  end.

Lemma unhex_bytes_hex b : unhex_bytes (hex_bytes b) = Ok b.
Proof.
  induction b as [|x b IH]; [done|]. cbn [hex_bytes unhex_bytes].
  pose proof (bz_range x). rewrite !hex_value_digit, IH by (try apply Z.mod_pos_bound; try split;
    try apply Z.div_pos; try apply Z.div_lt_upper_bound; lia). simpl. do 2 f_equal.
  rewrite <- Z.div_mod by lia. apply zb_bz.
Qed.

Lemma hex_digit_graphic n : 0 ≤ n < 16 → graphic (hex_digit n) = true.
Proof.
  intros Hn. assert (n ∈ seqZ 0 16) as Hin by (apply elem_of_seqZ; lia).
  clear Hn. revert n Hin. apply Forall_forall. vm_compute. repeat constructor.
Qed.

Lemma hex_graphic b : Forall (λ c, graphic c = true) (hex_bytes b).
Proof.
  induction b as [|x b IH]; [constructor|]. pose proof (bz_range x).
  repeat constructor; [..|done]; apply hex_digit_graphic;
    [split; [apply Z.div_pos|apply Z.div_lt_upper_bound]|apply Z.mod_pos_bound]; lia.
Qed.

Lemma hex_no c b : hex_value c = None → c ∉ hex_bytes b.
Proof.
  intros Hc. induction b as [|x b IH]; [apply not_elem_of_nil|]. cbn [hex_bytes].
  pose proof (bz_range x). rewrite !not_elem_of_cons. split_and!; [..|done]; intros ->;
    rewrite hex_value_digit in Hc; try done;
    (first [split; [apply Z.div_pos|apply Z.div_lt_upper_bound] | apply Z.mod_pos_bound]); lia.
Qed.

Definition toy_base64 : Base64.
Proof.
  refine {| b64url_encode := hex_bytes; b64url_decode := unhex_bytes;
            b64std_encode := hex_bytes; b64std_decode := unhex_bytes |}.
  - apply unhex_bytes_hex.
  - intros b. apply trim_graphic, hex_graphic.
  - apply hex_graphic.
  - apply unhex_bytes_hex.
  - intros b. split; by apply hex_no.
Defined.

(** ** Bit strings as text *)

Fixpoint bits_of (p : positive) : str :=
  match p with
  | xH => []
  | xO q => Byte.x30 :: bits_of q
  | xI q => Byte.x31 :: bits_of q
  end.

Fixpoint of_bits (s : str) : positive :=
  match s with
  | [] => xH
  | b :: r => if decide (b = Byte.x30) then xO (of_bits r) else xI (of_bits r)
  end.

Lemma of_bits_of p : of_bits (bits_of p) = p.
Proof. induction p; simpl; congruence. Qed.

Lemma bits_of_chars p : Forall (λ b, b = Byte.x30 ∨ b = Byte.x31) (bits_of p).
Proof. induction p; simpl; constructor; auto. Qed.

Definition bit_text {A} `{Countable A} (a : A) : str := Byte.x7b :: bits_of (encode a).
Definition bit_parse {A} `{Countable A} (s : str) : result str A :=
  match s with
  | [] => Err "EOF"
  | _ :: r => ok_or (decode (of_bits r)) "expected value"
  end.

Lemma bit_parse_text {A} `{Countable A} (a : A) : bit_parse (bit_text a) = Ok a.
Proof. simpl. by rewrite of_bits_of, decode_encode. Qed.

Lemma bit_text_chars {A} `{Countable A} (a : A) :
  Forall (λ b, b = Byte.x7b ∨ b = Byte.x30 ∨ b = Byte.x31) (bit_text a).
Proof. constructor; [by left|]. eapply Forall_impl; [apply bits_of_chars|naive_solver]. Qed.

Lemma bit_text_graphic {A} `{Countable A} (a : A) : Forall (λ b, graphic b = true) (bit_text a).
Proof. eapply Forall_impl; [apply bit_text_chars|]. by intros b [->|[->| ->]]. Qed.

Lemma bit_text_no {A} `{Countable A} (a : A) c : c ∉ [Byte.x7b; Byte.x30; Byte.x31] → c ∉ bit_text a.
Proof.
  intros Hc Hin. pose proof (bit_text_chars a) as Hf. rewrite Forall_forall in Hf.
  apply Hf in Hin. apply Hc. set_solver.
Qed.

Lemma bit_text_utf8 {A} `{Countable A} (a : A) : utf8_valid (bit_text a) = true.
Proof.
  rewrite <- (app_nil_r (bit_text a)), utf8_valid_ascii; [done|].
  eapply Forall_impl; [apply bit_text_chars|]. by intros b [->|[->| ->]].
Qed.

Definition toy_serde {A} `{Countable A} : SerdeText A.
Proof.
  refine {| to_text := bit_text; from_text := bit_parse |}.
  - apply bit_parse_text.
  - intros a. by eexists.
Defined.

Lemma toy_serde_line {A} `{Countable A} : @SerdeLine A toy_serde.
Proof.
  split.
  - intros a. split; apply bit_text_no; vm_compute; set_solver.
  - intros a. apply bit_text_utf8.
Qed.

(** ** JSON *)

Fixpoint value_tree (v : Value) : gen_tree (str + number) :=
  match v with
  | Null => GenNode 0 []
  | Bool b => GenNode (if b then 1 else 2) []
  | Number n => GenLeaf (inr n)
  | String s => GenLeaf (inl s)
  | Array l => GenNode 3 (value_tree <$> l)
  | Object m => GenNode 4 ((λ kv, GenNode 5 [GenLeaf (inl kv.1); value_tree kv.2]) <$> m)
  end.

Fixpoint tree_value (t : gen_tree (str + number)) : Value :=
  match t with
  | GenLeaf (inr n) => Number n
  | GenLeaf (inl s) => String s
  | GenNode 1 _ => Bool true
  | GenNode 2 _ => Bool false
  | GenNode 3 l => Array (tree_value <$> l)
  | GenNode 4 m => Object ((λ e, match e with
      | GenNode 5 [GenLeaf (inl k); x] => (k, tree_value x)
      | _ => ([], Null)
      end) <$> m)
  | GenNode _ _ => Null
  end.

Fixpoint tree_value_tree (v : Value) : tree_value (value_tree v) = v.
Proof.
  destruct v as [|[]| | |l|m]; try reflexivity; simpl; f_equal.
  - induction l as [|x l IH]; [reflexivity|]. simpl. f_equal; [apply tree_value_tree|exact IH].
  - induction m as [|[k x] m IH]; [reflexivity|]. simpl. f_equal; [|exact IH].
    f_equal. apply tree_value_tree.
Qed.

#[global] Program Instance number_countable : Countable number :=
  inj_countable' (λ n, match n with PosInt z => inl z | NegInt z => inr (inl z) | Float z => inr (inr z) end)
    (λ s, match s with inl z => PosInt z | inr (inl z) => NegInt z | inr (inr z) => Float z end) _.
Next Obligation. by intros []. Qed.

#[global] Instance value_eq_dec : EqDecision Value.
Proof.
  intros v w. destruct (decide (value_tree v = value_tree w)) as [He|Hn].
  - left. by rewrite <- (tree_value_tree v), <- (tree_value_tree w), He.
  - right. congruence.
Defined.

#[global] Instance value_countable : Countable Value :=
  inj_countable' value_tree tree_value tree_value_tree.

(** The parser with its recursion limit. *)
Definition value_parse (s : str) : result str Value :=
  v ← bit_parse s; if decide (depth v ≤ MAX_DEPTH)%nat then Ok v else Err "recursion limit exceeded".

Lemma value_parse_text v :
  value_parse (bit_text v) = if decide (depth v ≤ MAX_DEPTH)%nat then Ok v else Err "recursion limit exceeded".
Proof. unfold value_parse. by rewrite bit_parse_text. Qed.

Definition toy_json : JsonText.
Proof.
  refine {| json_from_str := value_parse; json_to_string := bit_text;
            canonical v := Ok (bit_text v); normalize v := v |}; try done.
  - intros v s [= <-] Hd. rewrite value_parse_text. by rewrite decide_True.
  - intros v s [= <-] Hd. rewrite value_parse_text. rewrite decide_False by lia. done.
  - intros m _. f_equal. by induction m as [|[] m IH]; simpl; [|f_equal].
  - intros m k s _ _. by eexists.
  - intros m s [= <-]. split_and!; [apply bit_text_no; vm_compute; set_solver..|]. by eexists.
  - intros v s [= <-]. apply bit_text_utf8.
  - intros m Hf%flat_depth. rewrite value_parse_text, decide_True; [done|].
    unfold MAX_DEPTH. lia.
Defined.

(** ** Digests, signatures, time *)

(** Four rounds of a multiplicative checksum, repeated to 32 bytes. *)
Definition checksum (b : str) : Z := fold_left (λ h x, (h * 31 + bz x + 7) mod 65521) b 1.

Definition toy_sha256 : Sha256.
Proof.
  refine {| sha256 b := let h := checksum b in zb (h / 256) :: zb (h mod 256) :: replicate 30 (zb (zlen b mod 256)) |}.
  done.
Defined.

Definition toy_ed25519 : Ed25519.
Proof.
  refine {| SigningKey := byte; VerifyingKey := byte; key_from_seed s := default Byte.x00 (head s); verifying_key k := k;
            vk_to_bytes k := replicate 32 k;
            vk_from_bytes b := match b with
                               | k :: _ => if decide (b = replicate 32 k) then Ok k else Err "not a point"
                               | [] => Err "short" end;
            sign k m := k :: zb (checksum m mod 256) :: replicate 62 (zb (zlen m mod 256));
            sig_verify k m s := bool_decide (s = k :: zb (checksum m mod 256) :: replicate 62 (zb (zlen m mod 256)));
            sig_verify_strict k m s := bool_decide (s = k :: zb (checksum m mod 256) :: replicate 62 (zb (zlen m mod 256)))
         |}.
  - reflexivity.
  - intros k. cbn [replicate]. by rewrite decide_True.
  - reflexivity.
  - intros k m. by apply bool_decide_eq_true.
Defined.

(** Timestamps written as a number of nanoseconds. *)
Definition toy_time : TimeApi.
Proof.
  refine {| parse_rfc3339 s := parse_uint i64_max s;
            unix_timestamp t := t / 1000000000;
            whole_seconds d := Z.quot d 1000000000 |}; done.
Defined.

Definition toy_debug : DebugFmt :=
  {| debug_str s := [Byte.x22] ++ s ++ [Byte.x22]; debug_opt_value _ := ".." |}.

(** ** A keyed tag as authenticated encryption, padding as key derivation *)

Definition toy_tag (k n : str) : str := take 16 (k ++ n ++ replicate 16 Byte.x00).

Definition toy_kek (pass salt : str) : str := take 32 (pass ++ salt ++ replicate 32 Byte.x00).

Lemma toy_tag_len k n : length (toy_tag k n) = 16%nat.
Proof. unfold toy_tag. rewrite length_take, !length_app, length_replicate. lia. Qed.

Lemma toy_kek_len pass salt : length (toy_kek pass salt) = 32%nat.
Proof. unfold toy_kek. rewrite length_take, !length_app, length_replicate. lia. Qed.

Definition toy_aead : Aead.
Proof.
  refine {| aead_encrypt := λ k n p, Some (toy_tag k n ++ p);
            aead_decrypt := λ k n c, strip_prefix (toy_tag k n) c |}.
  - eauto.
  - intros k n p c [= <-]. rewrite length_app, toy_tag_len. lia.
  - intros k n p c [= <-]. by apply strip_prefix_Some.
Defined.

Definition toy_argon2 : Argon2.
Proof.
  refine {| argon2_params := λ _ _ _, Ok tt; argon2id := λ _ _ _ pass salt, Ok (toy_kek pass salt) |}.
  intros m t p pass salt k [= <-]. apply toy_kek_len.
Defined.
