(* ===== verification/Protocol.v ===== *)
(** Wire-contract types: [crates/protocol/src/].

    [lib.rs]: protocol version, error codes with their wire strings and
    pipeline stages.  [envelope.rs]: the signed envelope, its typed
    deserialization and serialization, and the canonical form a signature
    covers.  [ops.rs]: mechanism operation bodies and the postgres target
    URI. *)

From S2P Require Import Prelude Strs Json Extern.
#[local] Open Scope Z_scope.

(** ** lib.rs *)

Definition PROTOCOL_VERSION : str := "0.1".
Definition PROTOCOL_MAJOR : Z := 0.
Definition PROTOCOL_MINOR : Z := 1.

Inductive ErrorCode : Type :=
| UnknownAgent | BadSignature | Replay | Denied | ConfirmTimeout
| CredUnresolved | Mechanism | SessionOwner | SessionExpired | Version.

#[global] Instance error_code_eq_dec : EqDecision ErrorCode.
Proof. solve_decision. Defined.

Inductive Stage : Type :=
| StIdentity | StPolicy | StConfirmation | StVault | StInjection | StSession | StEnvelope.

#[global] Instance stage_eq_dec : EqDecision Stage.
Proof. solve_decision. Defined.

(** [ErrorCode::as_str]. *)
Definition code_str (c : ErrorCode) : str :=
  match c with
  | UnknownAgent => "E_UNKNOWN_AGENT"
  | BadSignature => "E_BAD_SIGNATURE"
  | Replay => "E_REPLAY"
  | Denied => "E_DENIED"
  | ConfirmTimeout => "E_CONFIRM_TIMEOUT"
  | CredUnresolved => "E_CRED_UNRESOLVED"
  | Mechanism => "E_MECHANISM"
  | SessionOwner => "E_SESSION_OWNER"
  | SessionExpired => "E_SESSION_EXPIRED"
  | Version => "E_VERSION"
  end.

(** [ErrorCode::stage]. *)
Definition stage (c : ErrorCode) : Stage :=
  match c with
  | UnknownAgent | BadSignature | Replay => StIdentity
  | Denied => StPolicy
  | ConfirmTimeout => StConfirmation
  | CredUnresolved => StVault
  | Mechanism => StInjection
  | SessionOwner | SessionExpired => StSession
  | Version => StEnvelope
  end.

(** [Stage::as_str]. *)
Definition stage_str (s : Stage) : str :=
  match s with
  | StIdentity => "Identity"
  | StPolicy => "Policy"
  | StConfirmation => "Confirmation"
  | StVault => "Vault"
  | StInjection => "Injection"
  | StSession => "Session"
  | StEnvelope => "Envelope"
  end.

(** [ErrorCode::from_str]: unknown strings are rejected. *)
Inductive UnknownErrorCode : Type := UnknownCode (s : str).

Definition code_from_str (s : str) : result UnknownErrorCode ErrorCode :=
  if decide (s = "E_UNKNOWN_AGENT") then Ok UnknownAgent
  else if decide (s = "E_BAD_SIGNATURE") then Ok BadSignature
  else if decide (s = "E_REPLAY") then Ok Replay
  else if decide (s = "E_DENIED") then Ok Denied
  else if decide (s = "E_CONFIRM_TIMEOUT") then Ok ConfirmTimeout
  else if decide (s = "E_CRED_UNRESOLVED") then Ok CredUnresolved
  else if decide (s = "E_MECHANISM") then Ok Mechanism
  else if decide (s = "E_SESSION_OWNER") then Ok SessionOwner
  else if decide (s = "E_SESSION_EXPIRED") then Ok SessionExpired
  else if decide (s = "E_VERSION") then Ok Version
  else Err (UnknownCode s).

(** ** envelope.rs *)

Inductive EnvelopeKind : Type := Intent | SessionCommand | SessionClose.

#[global] Instance envelope_kind_eq_dec : EqDecision EnvelopeKind.
Proof. solve_decision. Defined.

(** [EnvelopeKind::as_str], also its serialization. *)
Definition kind_str (k : EnvelopeKind) : str :=
  match k with
  | Intent => "intent"
  | SessionCommand => "session.command"
  | SessionClose => "session.close"
  end.

(** [EnvelopeKind::deserialize]. *)
Definition kind_of_value (v : Value) : option EnvelopeKind :=
  match v with
  | String s =>
      if decide (s = "intent") then Some Intent
      else if decide (s = "session.command") then Some SessionCommand
      else if decide (s = "session.close") then Some SessionClose
      else None
  | _ => None
  end.

Record Target : Type := { uri : str; label : str }.

(** Agent-declared ceilings. *)
Record Constraints : Type := {
  c_max_response_bytes : option Z;
  c_session_ttl_s : option Z;
}.

Record Envelope : Type := {
  e_chaperone : str;
  e_msg_id : str;
  e_kind : EnvelopeKind;
  e_agent_id : str;
  e_issued_at : str;
  e_nonce : str;
  e_target : Target;
  e_mechanism : str;
  e_cred_ref : str;
  e_operation : Value;
  e_constraints : option Constraints;
  e_sig : str;
}.

(** The derived deserializers read a struct from an object by field name, or
    from an array by position; unknown fields are ignored, and an absent or
    null [Option] field is [None]. *)
Definition opt_u64_of_value (o : option Value) : option (option Z) :=
  match o with
  | None | Some Null => Some None
  | Some v => Some <$> as_u64 v
  end.

Definition target_of_value (v : Value) : option Target :=
  match v with
  | Object _ =>
      u ← get_str v "uri"; l ← get_str v "label"; Some {| uri := u; label := l |}
  | Array [String u; String l] => Some {| uri := u; label := l |}
  | _ => None
  end.

Definition constraints_of_value (v : Value) : option Constraints :=
  match v with
  | Object m =>
      a ← opt_u64_of_value (map_get "max_response_bytes" m);
      b ← opt_u64_of_value (map_get "session_ttl_s" m);
      Some {| c_max_response_bytes := a; c_session_ttl_s := b |}
  | Array [x; y] =>
      a ← opt_u64_of_value (Some x); b ← opt_u64_of_value (Some y);
      Some {| c_max_response_bytes := a; c_session_ttl_s := b |}
  | _ => None
  end.

Definition opt_constraints_of_value (o : option Value) : option (option Constraints) :=
  match o with
  | None | Some Null => Some None
  | Some v => Some <$> constraints_of_value v
  end.

(** [serde_json::from_value::<Envelope>] on an object. *)
Definition envelope_of_value (v : Value) : option Envelope :=
  chaperone ← get_str v "chaperone";
  msg_id ← get_str v "msg_id";
  kind ← get v "type" ≫= kind_of_value;
  agent_id ← get_str v "agent_id";
  issued_at ← get_str v "issued_at";
  nonce ← get_str v "nonce";
  target ← get v "target" ≫= target_of_value;
  mechanism ← get_str v "mechanism";
  cred_ref ← get_str v "cred_ref";
  operation ← get v "operation";
  constraints ← opt_constraints_of_value (get v "constraints");
  sig ← get_str v "sig";
  Some {| e_chaperone := chaperone; e_msg_id := msg_id; e_kind := kind;
          e_agent_id := agent_id; e_issued_at := issued_at; e_nonce := nonce;
          e_target := target; e_mechanism := mechanism; e_cred_ref := cred_ref;
          e_operation := operation; e_constraints := constraints; e_sig := sig |}.

Definition opt_field (k : str) (o : option Z) : list (str * Value) :=
  match o with Some n => [(k, jnum n)] | None => [] end.

Definition constraints_to_value (c : Constraints) : Value :=
  object (opt_field "max_response_bytes" (c_max_response_bytes c) ++
          opt_field "session_ttl_s" (c_session_ttl_s c)).

(** [serde_json::to_value] of an envelope: [None] fields are skipped. *)
Definition envelope_to_value (e : Envelope) : Value :=
  object ([("chaperone", String (e_chaperone e)); ("msg_id", String (e_msg_id e));
           ("type", String (kind_str (e_kind e))); ("agent_id", String (e_agent_id e));
           ("issued_at", String (e_issued_at e)); ("nonce", String (e_nonce e));
           ("target", object [("uri", String (uri (e_target e))); ("label", String (label (e_target e)))]);
           ("mechanism", String (e_mechanism e)); ("cred_ref", String (e_cred_ref e));
           ("operation", e_operation e)] ++
          (match e_constraints e with Some c => [("constraints", constraints_to_value c)] | None => [] end) ++
          [("sig", String (e_sig e))]).

(** [CanonicalError]. *)
Inductive CanonicalError : Type :=
| NotAnObject
| Serialize (e : str).

(** [Display for CanonicalError]. *)
Definition canonical_error_str (e : CanonicalError) : str :=
  match e with
  | NotAnObject => "envelope is not a JSON object"
  | Serialize e => "canonical serialization failed: " ++ e
  end.

Section Canonical.
Context `{JsonText}.

(** [canonical_form_excluding]. *)
Definition canonical_form_excluding (obj : Value) (exclude : list str) : result CanonicalError str :=
  match as_object obj with
  | None => Err NotAnObject
  | Some m =>
      let stripped := fold_left (λ m name, map_remove name m) exclude m in
      map_err Serialize (canonical (Object stripped))
  end.

(** [canonical_form]: everything but the signature. *)
Definition canonical_form (envelope : Value) : result CanonicalError str :=
  canonical_form_excluding envelope ["sig"].

(** The signature field never influences what the signature covers: two
    messages that agree outside [sig] have the same canonical form. *)
Lemma canonical_form_ignores_sig m v :
  canonical_form (Object (map_insert "sig" v (map_remove "sig" m))) = canonical_form (Object m).
Proof.
  unfold canonical_form, canonical_form_excluding. simpl.
  rewrite map_remove_insert.
  by rewrite (map_remove_absent _ _ (map_get_remove _ _)).
Qed.
End Canonical.

Section Signatures.
Context `{Base64}.

(** [decode_signature] / [encode_signature]. *)
Definition decode_signature (encoded : str) : result str str := b64url_decode encoded.
Definition encode_signature (raw : str) : str := b64url_encode raw.

Lemma decode_encode_signature raw : decode_signature (encode_signature raw) = Ok raw.
Proof. apply b64url_decode_encode. Qed.
End Signatures.

(** ** ops.rs *)

(** The fields of a derived struct with defaults, in declaration order: by
    name from an object, by position from an array that is not too long. *)
Definition struct_fields (names : list str) (v : Value) : option (list (option Value)) :=
  match v with
  | Object m => Some ((λ k, map_get k m) <$> names)
  | Array l =>
      if bool_decide (length l ≤ length names)%nat
      then Some ((λ i, l !! i) <$> seq 0 (length names)) else None
  | _ => None
  end.

Definition req_str (o : option Value) : option str := o ≫= as_str.
Definition opt_str (o : option Value) : option (option str) :=
  match o with None | Some Null => Some None | Some v => Some <$> as_str v end.
Definition opt_strs (o : option Value) : option (option (list str)) :=
  match o with
  | None | Some Null => Some None
  | Some v => l ← as_array v; Some <$> mapM as_str l
  end.
(** [BTreeMap<String, String>] with a default. *)
Definition str_map (o : option Value) : option (list (str * str)) :=
  match o with
  | None => Some []
  | Some v => m ← as_object v; mapM (λ kv, s ← as_str kv.2; Some (kv.1, s)) m
  end.

Record DbOperation : Type := {
  db_engine : str;
  db_database : option str;
  db_statement : option str;
  db_params : option (list str);
  db_username : option str;
}.

Definition db_operation_of_value (v : Value) : option DbOperation :=
  fs ← struct_fields ["engine"; "database"; "statement"; "params"; "username"] v;
  match fs with
  | [engine; database; statement; params; username] =>
      engine ← req_str engine; database ← opt_str database;
      statement ← opt_str statement; params ← opt_strs params; username ← opt_str username;
      Some {| db_engine := engine; db_database := database; db_statement := statement;
              db_params := params; db_username := username |}
  | _ => None
  end.

(** Characters of a UTF-8 string: a byte that is not a continuation byte
    starts one. *)
Definition char_count (s : str) : nat := length (filter (λ b, cont b = false) s).
Fixpoint take_chars (n : nat) (s : str) : str :=
  match s with
  | [] => []
  | b :: r =>
      if cont b then b :: take_chars n r
      else match n with O => [] | S k => b :: take_chars k r end
  end.

Definition first_line (sql : str) : str :=
  let line := default [] (head (lines sql)) in
  take_chars 60 line ++ (if bool_decide (60 < char_count line)%nat then "…" else []).

(** [DbOperation::summary]. *)
Definition db_summary (op : DbOperation) : str :=
  match db_statement op, db_database op with
  | Some sql, Some db => "query " ++ db ++ ": " ++ first_line sql
  | Some sql, None => "query: " ++ first_line sql
  | None, Some db => "open session on " ++ db
  | None, None => "open database session"
  end.

Record PgEndpoint : Type := {
  pg_user : str;
  pg_host : str;
  pg_port : Z;
  pg_database : str;
}.

Definition at_sign : byte := Byte.x40.
Definition colon : byte := Byte.x3a.
Definition slash : byte := Byte.x2f.

(** The text before the first of two characters ([split(['?', '#']).next()]). *)
Definition before_any (cs : list byte) (s : str) : str :=
  match position (λ b, bool_decide (b ∈ cs)) s with
  | Some i => take i s
  | None => s
  end.

(** [parse_pg_uri]. *)
Definition parse_pg_uri (u : str) : result str PgEndpoint :=
  rest ← ok_or (strip_prefix "postgres://" u) "target.uri must start with postgres://";
  let '(authority, path_db) :=
    match split_once slash rest with Some (a, p) => (a, p) | None => (rest, []) end in
  let '(userinfo, hostport) :=
    match split_once at_sign authority with
    | Some (ui, h) => (Some ui, h)
    | None => (None, authority)
    end in
  let user :=
    match userinfo with
    | Some ui => match split_once colon ui with Some (name, _) => name | None => ui end
    | None => []
    end in
  let '(host, port_str) :=
    match rsplit_once colon hostport with
    | Some (h, p) =>
        if negb (is_empty p) && forallb is_ascii_digit p then (h, Some p) else (hostport, None)
    | None => (hostport, None)
    end in
  if is_empty host then Err "target.uri has empty host"
  else
    port ← (match port_str with
            | Some p => ok_or (parse_uint u16_max p) "port out of range"
            | None => Ok 5432
            end);
    Ok {| pg_user := user; pg_host := host; pg_port := port;
          pg_database := before_any [Byte.x3f; Byte.x23] path_db |}.

Record HttpOperation : Type := {
  http_method : str;
  http_headers : list (str * str);
  http_body_b64 : option str;
  http_username : option str;
}.

Definition http_operation_of_value (v : Value) : option HttpOperation :=
  fs ← struct_fields ["method"; "headers"; "body_b64"; "username"] v;
  match fs with
  | [method; headers; body; username] =>
      method ← req_str method; headers ← str_map headers;
      body ← opt_str body; username ← opt_str username;
      Some {| http_method := method; http_headers := headers;
              http_body_b64 := body; http_username := username |}
  | _ => None
  end.

(** [HttpOperation::has_agent_authorization]. *)
Definition has_agent_authorization (op : HttpOperation) : bool :=
  existsb (λ kv, eq_ignore_ascii_case kv.1 "authorization") (http_headers op).

(** [HttpOperation::summary]. *)
Definition http_summary (op : HttpOperation) : str :=
  match http_body_b64 op with
  | Some _ => http_method op ++ " with body"
  | None => http_method op
  end.

(** ** Properties *)

(** Wire strings and error codes correspond one to one: every code parses
    back from its wire string, and a string that parses is the wire string of
    the code it parses to. *)
Theorem error_code_roundtrip s c : code_from_str s = Ok c ↔ s = code_str c.
Proof.
  split.
  - unfold code_from_str. intros H. repeat case_decide; by simplify_eq.
  - intros ->. by destruct c.
Qed.

(** The URI [postgres://user@host:port/db]. *)
Definition pg_uri (ep : PgEndpoint) : str :=
  "postgres://" ++ pg_user ep ++ "@" ++ pg_host ep ++ ":" ++ show (pg_port ep) ++ "/" ++ pg_database ep.

Lemma forallb_digits s : Forall (λ b, is_ascii_digit b = true) s → forallb is_ascii_digit s = true.
Proof. induction 1; simpl; [done|]. by apply andb_true_iff. Qed.

Lemma digits_no_byte c s : is_ascii_digit c = false → Forall (λ b, is_ascii_digit b = true) s → c ∉ s.
Proof. intros Hc Hs Hin. rewrite Forall_forall in Hs. specialize (Hs c Hin). congruence. Qed.

Lemma before_any_none cs s : Forall (λ c, c ∉ s) cs → before_any cs s = s.
Proof.
  intros H. unfold before_any. rewrite (proj2 (position_None _ s)); [done|].
  apply Forall_forall. intros b Hb. apply bool_decide_eq_false. intros Hin.
  rewrite Forall_forall in H. by apply (H b).
Qed.

(** [parse_pg_uri] inverts the documented form
    [postgres://user@host:port/dbname] for every user, host and database free
    of the delimiters and every port that fits in 16 bits. *)
Theorem parse_pg_uri_roundtrip ep :
  0 ≤ pg_port ep ≤ u16_max →
  pg_host ep ≠ [] →
  (slash ∉ pg_user ep) ∧ (at_sign ∉ pg_user ep) ∧ (colon ∉ pg_user ep) →
  slash ∉ pg_host ep →
  (Byte.x3f ∉ pg_database ep) ∧ (Byte.x23 ∉ pg_database ep) →
  parse_pg_uri (pg_uri ep) = Ok ep.
Proof.
  intros Hport Hhost (Hu1 & Hu2 & Hu3) Hh (Hd1 & Hd2).
  destruct ep as [user host port db]; unfold pg_uri in *; simpl in *.
  pose proof (show_digits port ltac:(lia)) as Hdig.
  assert (Hns : slash ∉ show port) by (by apply digits_no_byte).
  assert (Hnc : colon ∉ show port) by (by apply digits_no_byte).
  unfold parse_pg_uri.
  rewrite (proj2 (strip_prefix_Some "postgres://" _ (user ++ "@" ++ host ++ ":" ++ show port ++ "/" ++ db))) by done.
  simpl. rewrite (proj2 (split_once_Some slash _ (user ++ "@" ++ host ++ ":" ++ show port) db)).
  2:{ split; [by rewrite <- !app_assoc|]. rewrite !not_elem_of_app.
      repeat split; try done; by apply not_elem_of_cons; split; [|apply not_elem_of_nil]. }
  rewrite (proj2 (split_once_Some at_sign _ user (host ++ ":" ++ show port))) by done.
  rewrite (proj2 (split_once_None colon user)) by done.
  rewrite (proj2 (rsplit_once_Some colon _ host (show port))) by done.
  rewrite forallb_digits by done.
  assert (is_empty (show port) = false) as ->.
  { destruct (show port) eqn:E; [by apply show_nonempty in E|done]. }
  simpl. assert (is_empty host = false) as -> by (by destruct host).
  rewrite parse_uint_show by done. simpl. rewrite before_any_none; [done|].
  by repeat constructor.
Qed.

Lemma parse_pg_uri_roundtrip_witness :
  parse_pg_uri "postgres://deploy@db.internal:5433/analytics" =
  Ok {| pg_user := "deploy"; pg_host := "db.internal"; pg_port := 5433; pg_database := "analytics" |}.
Proof.
  apply (parse_pg_uri_roundtrip
    {| pg_user := "deploy"; pg_host := "db.internal"; pg_port := 5433; pg_database := "analytics" |});
    simpl; [done..| | |].
  all: repeat split; decide_now.
Defined.
