(* ===== verification/Policy.v ===== *)
(** The policy engine: [crates/policy/src/lib.rs].

    Effects, limits, rules with their (credential, target) pair rows, the
    default-deny evaluation [evaluate], the schema-checked loader [from_toml]
    and the canonical writer [to_toml].  [evaluate] refines the abstract
    reading "the first rule that covers the request decides, otherwise deny",
    and agent-declared ceilings only narrow what a rule grants. *)

From S2P Require Import Prelude Strs Json Extern Protocol Matcher.
#[local] Open Scope Z_scope.

Inductive Effect : Type := Allow | NeedsConfirmation | Deny.

#[global] Instance effect_eq_dec : EqDecision Effect.
Proof. solve_decision. Defined.

(** [Effect::parse]. *)
Definition effect_parse (raw : str) : option Effect :=
  if decide (raw = "allow") then Some Allow
  else if decide (raw = "deny") then Some Deny
  else if decide (raw = "needs_confirmation") then Some NeedsConfirmation
  else None.

(** [Effect::as_str]. *)
Definition effect_str (e : Effect) : str :=
  match e with
  | Allow => "allow"
  | Deny => "deny"
  | NeedsConfirmation => "needs_confirmation"
  end.

Record Limits : Type := {
  max_response_bytes : option Z;
  session_ttl_s : option Z;
}.

#[global] Instance limits_eq_dec : EqDecision Limits.
Proof. solve_decision. Defined.

Definition no_limits : Limits := {| max_response_bytes := None; session_ttl_s := None |}.

Definition min_opt (a b : option Z) : option Z :=
  match a, b with
  | Some x, Some y => Some (Z.min x y)
  | Some x, None | None, Some x => Some x
  | None, None => None
  end.

(** [Limits::min_with]. *)
Definition min_with (self other : Limits) : Limits :=
  {| max_response_bytes := min_opt (max_response_bytes self) (max_response_bytes other);
     session_ttl_s := min_opt (session_ttl_s self) (session_ttl_s other) |}.

Record Pair : Type := { pair_cred_ref : Matcher; pair_target_uri : Matcher }.

Record Rule : Type := {
  rule_name : option str;
  notify_on_use : bool;
  rule_effect : Effect;
  rule_agent_id : Matcher;
  rule_cred_ref : Matcher;
  rule_target_uri : Matcher;
  rule_mechanism : Matcher;
  pairs : list Pair;
  limits : Limits;
}.

(** [Request]: the four axes and the declared ceilings. *)
Record Request : Type := {
  req_agent_id : str;
  req_cred_ref : str;
  req_target_uri : str;
  req_mechanism : str;
  declared : option Constraints;
}.

Inductive DecisionSource : Type :=
| DefaultDeny
| ByRule (index : nat) (name : option str) (prow : option nat).

#[global] Instance source_eq_dec : EqDecision DecisionSource.
Proof. solve_decision. Defined.

(** [DecisionSource::label]. *)
Definition source_label (s : DecisionSource) : str :=
  match s with
  | DefaultDeny => "default_deny"
  | ByRule index name prow =>
      "rule[" ++ show (Z.of_nat index) ++ "]" ++
      (match name with Some n => " (" ++ n ++ ")" | None => [] end) ++
      (match prow with Some p => " pair[" ++ show (Z.of_nat p) ++ "]" | None => [] end)
  end.

Record Decision : Type := {
  effect : Effect;
  d_notify_on_use : bool;
  d_source : DecisionSource;
  d_limits : Limits;
}.

#[global] Instance decision_eq_dec : EqDecision Decision.
Proof. solve_decision. Defined.

Inductive PolicyError : Type :=
| ParseError (e : str)
| Schema (e : str).

(** [Display for PolicyError]. *)
Definition policy_error_str (e : PolicyError) : str :=
  match e with
  | ParseError e => "policy is not valid TOML: " ++ e
  | Schema e => "policy violates its schema: " ++ e
  end.

Record Policy : Type := {
  rules : list Rule;
  source_hash_hex : str;
}.

(** [Policy::empty], [Policy::from_rules], [Policy::len], [Policy::is_empty]. *)
Definition policy_empty : Policy := {| rules := []; source_hash_hex := [] |}.
Definition from_rules (rs : list Rule) : Policy := {| rules := rs; source_hash_hex := [] |}.
Definition policy_len (p : Policy) : nat := length (rules p).
Definition policy_is_empty (p : Policy) : bool := match rules p with [] => true | _ => false end.

(** ** Evaluation *)

Definition declared_limits (r : Request) : Limits :=
  {| max_response_bytes := declared r ≫= c_max_response_bytes;
     session_ttl_s := declared r ≫= c_session_ttl_s |}.

Definition axes_match (rule : Rule) (r : Request) : bool :=
  matches (rule_agent_id rule) (req_agent_id r) &&
  matches (rule_cred_ref rule) (req_cred_ref r) &&
  matches (rule_target_uri rule) (req_target_uri r) &&
  matches (rule_mechanism rule) (req_mechanism r).

Definition pair_matches (r : Request) (p : Pair) : bool :=
  matches (pair_cred_ref p) (req_cred_ref r) && matches (pair_target_uri p) (req_target_uri r).

(** The body of the evaluation loop for one rule: [Some prow] when the rule
    decides, with the pair row that bound it, [None] to continue. *)
Definition rule_decides (rule : Rule) (r : Request) : option (option nat) :=
  if axes_match rule r then
    match pairs rule with
    | [] => Some None
    | _ => match position (pair_matches r) (pairs rule) with
           | Some pi => Some (Some pi)
           | None => None
           end
    end
  else None.

Fixpoint evaluate_from (index : nat) (rs : list Rule) (r : Request) : Decision :=
  match rs with
  | [] => {| effect := Deny; d_notify_on_use := false; d_source := DefaultDeny;
             d_limits := declared_limits r |}
  | rule :: rest =>
      match rule_decides rule r with
      | Some prow =>
          {| effect := rule_effect rule;
             d_notify_on_use := notify_on_use rule;
             d_source := ByRule index (rule_name rule) prow;
             d_limits := min_with (limits rule) (declared_limits r) |}
      | None => evaluate_from (S index) rest r
      end
  end.

(** [Policy::evaluate]. *)
Definition evaluate (p : Policy) (r : Request) : Decision := evaluate_from 0 (rules p) r.

(** ** Loading and saving *)

(** The serde schema of the policy file ([PolicyFile], [RuleDef], ...). *)
Record PairDef : Type := { pd_cred_ref : str; pd_target_uri : str }.
Record NotifyDef : Type := { on_use : bool }.
Record LimitsDef : Type := { ld_max_response_bytes : option Z; ld_session_ttl_s : option Z }.
Record RuleDef : Type := {
  rd_effect : str;
  rd_name : option str;
  rd_agent_id : option str;
  rd_cred_ref : option str;
  rd_target_uri : option str;
  rd_mechanism : option str;
  rd_pair : list PairDef;
  rd_limits : option LimitsDef;
  rd_notify : option NotifyDef;
}.
Record PolicyFile : Type := { file_rule : list RuleDef }.

(** [toml]: the deserializer into [PolicyFile] and its string quoting. *)
Class Toml := {
  toml_from_str : str → result str PolicyFile;
  toml_quote : str → str;
}.

Definition matcher_error_str (e : MatcherError) : str :=
  match e with InvalidMatcher why => "invalid matcher: " ++ why end.

Section Loader.
Context `{Toml, Sha256, DebugFmt}.

Definition axis (i : nat) (lbl : str) (raw : option str) : result PolicyError Matcher :=
  match raw with
  | None => Ok Any
  | Some s =>
      map_err (λ e, Schema ("rule " ++ show (Z.of_nat i) ++ ": " ++ lbl ++ ": " ++ matcher_error_str e))
        (parse s)
  end.

Fixpoint load_pairs (i pi : nat) (ps : list PairDef) : result PolicyError (list Pair) :=
  match ps with
  | [] => Ok []
  | p :: rest =>
      let ctx lbl e := Schema ("rule " ++ show (Z.of_nat i) ++ " pair " ++ show (Z.of_nat pi) ++
                               ": " ++ lbl ++ ": " ++ matcher_error_str e) in
      cred ← map_err (ctx "cred_ref") (parse (pd_cred_ref p));
      target ← map_err (ctx "target_uri") (parse (pd_target_uri p));
      more ← load_pairs i (S pi) rest;
      Ok ({| pair_cred_ref := cred; pair_target_uri := target |} :: more)
  end.

Definition load_rule (i : nat) (def : RuleDef) : result PolicyError Rule :=
  eff ← ok_or (effect_parse (rd_effect def))
          (Schema ("rule " ++ show (Z.of_nat i) ++ ": unknown effect " ++ debug_str (rd_effect def) ++
                   " (want allow|deny|needs_confirmation)"));
  let notify := match rd_notify def with Some n => on_use n | None => true end in
  let lim := match rd_limits def with
             | Some l => {| max_response_bytes := ld_max_response_bytes l;
                            session_ttl_s := ld_session_ttl_s l |}
             | None => no_limits
             end in
  prs ← load_pairs i 0 (rd_pair def);
  agent ← axis i "agent_id" (rd_agent_id def);
  cred ← axis i "cred_ref" (rd_cred_ref def);
  target ← axis i "target_uri" (rd_target_uri def);
  mech ← axis i "mechanism" (rd_mechanism def);
  Ok {| rule_name := rd_name def; notify_on_use := notify; rule_effect := eff;
        rule_agent_id := agent; rule_cred_ref := cred; rule_target_uri := target;
        rule_mechanism := mech; pairs := prs; limits := lim |}.

Fixpoint load_rules (i : nat) (defs : list RuleDef) : result PolicyError (list Rule) :=
  match defs with
  | [] => Ok []
  | d :: rest => r ← load_rule i d; more ← load_rules (S i) rest; Ok (r :: more)
  end.

(** [Policy::from_toml]. *)
Definition from_toml (doc : str) : result PolicyError Policy :=
  file ← map_err Schema (toml_from_str doc);
  rs ← load_rules 0 (file_rule file);
  Ok {| rules := rs; source_hash_hex := hex_bytes (sha256 doc) |}.

(** [push_kv]. *)
Definition push_kv (key value : str) : str := key ++ " = " ++ toml_quote value ++ [zb 10].

Definition line (s : str) : str := s ++ [zb 10].
Definition bool_str (b : bool) : str := if b then "true" else "false".

Definition rule_to_toml (rule : Rule) : str :=
  line "[[rule]]" ++
  (match rule_name rule with Some n => push_kv "name" n | None => [] end) ++
  line ("effect = " ++ [Byte.x22] ++ effect_str (rule_effect rule) ++ [Byte.x22]) ++
  mjoin ((λ km, match source km.2 with Some s => push_kv km.1 s | None => [] end) <$>
           [("agent_id", rule_agent_id rule); ("cred_ref", rule_cred_ref rule);
            ("target_uri", rule_target_uri rule); ("mechanism", rule_mechanism rule)]) ++
  mjoin ((λ p, line "[[rule.pair]]" ++
               push_kv "cred_ref" (default "*" (source (pair_cred_ref p))) ++
               push_kv "target_uri" (default "*" (source (pair_target_uri p)))) <$> pairs rule) ++
  (match max_response_bytes (limits rule), session_ttl_s (limits rule) with
   | None, None => []
   | a, b =>
       line "[rule.limits]" ++
       (match a with Some v => line ("max_response_bytes = " ++ show v) | None => [] end) ++
       (match b with Some v => line ("session_ttl_s = " ++ show v) | None => [] end)
   end) ++
  line "[rule.notify]" ++ line ("on_use = " ++ bool_str (notify_on_use rule)).

(** [Policy::to_toml]: rules separated by a blank line. *)
Definition to_toml (p : Policy) : str := join [zb 10] (rule_to_toml <$> rules p).
End Loader.

(** ** Abstract specification *)

(** A rule covers a request when its four axes accept it and, if it carries
    pair rows, some row accepts the credential and the target together. *)
Definition covers (rule : Rule) (r : Request) : Prop :=
  denotes (rule_agent_id rule) (req_agent_id r) ∧
  denotes (rule_cred_ref rule) (req_cred_ref r) ∧
  denotes (rule_target_uri rule) (req_target_uri r) ∧
  denotes (rule_mechanism rule) (req_mechanism r) ∧
  (pairs rule = [] ∨
   ∃ p, p ∈ pairs rule ∧ denotes (pair_cred_ref p) (req_cred_ref r) ∧
        denotes (pair_target_uri p) (req_target_uri r)).

(** The rule at index [i] is the first that covers the request. *)
Definition first_covering (rs : list Rule) (r : Request) (i : nat) (rule : Rule) : Prop :=
  rs !! i = Some rule ∧ covers rule r ∧
  (∀ j rule', (j < i)%nat → rs !! j = Some rule' → ¬ covers rule' r).

Lemma axes_match_spec rule r :
  axes_match rule r = true ↔
  denotes (rule_agent_id rule) (req_agent_id r) ∧ denotes (rule_cred_ref rule) (req_cred_ref r) ∧
  denotes (rule_target_uri rule) (req_target_uri r) ∧ denotes (rule_mechanism rule) (req_mechanism r).
Proof. unfold axes_match. rewrite !andb_true_iff, !matches_denotes. tauto. Qed.

Lemma pair_matches_spec r p :
  pair_matches r p = true ↔
  denotes (pair_cred_ref p) (req_cred_ref r) ∧ denotes (pair_target_uri p) (req_target_uri r).
Proof. unfold pair_matches. by rewrite andb_true_iff, !matches_denotes. Qed.

Lemma rule_decides_covers rule r : is_Some (rule_decides rule r) ↔ covers rule r.
Proof.
  unfold rule_decides, covers. destruct (axes_match rule r) eqn:Ha.
  - apply axes_match_spec in Ha. destruct (pairs rule) as [|p0 ps] eqn:Hp.
    { split; [naive_solver|eauto]. }
    rewrite <- Hp. destruct (position (pair_matches r) (pairs rule)) as [k|] eqn:Hk.
    + split; [|eauto]. intros _. apply position_Some in Hk as [(p & Hl & Hm) _].
      apply pair_matches_spec in Hm. apply list_elem_of_lookup_2 in Hl. naive_solver.
    + split; [by intros [? ?]|]. intros (_ & _ & _ & _ & [?|(p & Hin & Hm)]); [congruence|].
      apply position_None in Hk. rewrite Forall_forall in Hk. specialize (Hk p Hin).
      apply pair_matches_spec in Hm. congruence.
  - split; [by intros [? ?]|]. intros (?&?&?&?&_).
    assert (axes_match rule r = true) by (apply axes_match_spec; tauto). congruence.
Qed.

Lemma rule_decides_None rule r : rule_decides rule r = None ↔ ¬ covers rule r.
Proof. rewrite <- rule_decides_covers. destruct (rule_decides rule r); naive_solver. Qed.


(** The pair row that a rule reports: none when the rule has no rows, else the
    first row that accepts the request. *)
Definition bound_row (rule : Rule) (r : Request) (row : option nat) : Prop :=
  match row with
  | None => pairs rule = []
  | Some k =>
      (∃ p, pairs rule !! k = Some p ∧ pair_matches r p = true) ∧
      (∀ j p, (j < k)%nat → pairs rule !! j = Some p → pair_matches r p = false)
  end.

Lemma rule_decides_row rule r row : rule_decides rule r = Some row → bound_row rule r row.
Proof.
  unfold rule_decides. destruct (axes_match rule r); [|done].
  destruct (pairs rule) as [|p ps] eqn:Hp; [by intros [= <-]|].
  rewrite <- Hp. destruct (position _ _) as [k|] eqn:Hk; [|done].
  intros [= <-]. by apply position_Some in Hk.
Qed.

Definition decision_of (i : nat) (rule : Rule) (row : option nat) (r : Request) : Decision :=
  {| effect := rule_effect rule; d_notify_on_use := notify_on_use rule;
     d_source := ByRule i (rule_name rule) row;
     d_limits := min_with (limits rule) (declared_limits r) |}.

Definition default_decision (r : Request) : Decision :=
  {| effect := Deny; d_notify_on_use := false; d_source := DefaultDeny;
     d_limits := declared_limits r |}.

Lemma evaluate_from_spec n rs r :
  (∃ i rule row, first_covering rs r i rule ∧ bound_row rule r row ∧
     evaluate_from n rs r = decision_of (n + i) rule row r) ∨
  ((∀ rule, rule ∈ rs → ¬ covers rule r) ∧ evaluate_from n rs r = default_decision r).
Proof.
  revert n. induction rs as [|rule rs IH]; intros n; simpl.
  { right. split; [set_solver|done]. }
  destruct (rule_decides rule r) as [row|] eqn:Hd.
  - left. exists 0%nat, rule, row. rewrite Nat.add_0_r.
    split; [|split; [by apply rule_decides_row|done]].
    split; [done|]. split; [apply rule_decides_covers; eauto|lia].
  - apply rule_decides_None in Hd. destruct (IH (S n)) as [(i&rule'&row&(Hl&Hc&Hmin)&Hrow&He)|[Hn He]].
    + left. exists (S i), rule', row. split; [|split; [done|]].
      * split; [done|]. split; [done|]. intros [|j] rj Hj Hlj; simpl in *; [congruence|].
        apply (Hmin j); [lia|done].
      * rewrite He. f_equal. lia.
    + right. split; [|done]. intros rr [-> | Hin]%elem_of_cons; auto.
Qed.

Lemma first_covering_unique rs r i j a b :
  first_covering rs r i a → first_covering rs r j b → i = j ∧ a = b.
Proof.
  intros (Ha & Hca & Hma) (Hb & Hcb & Hmb).
  destruct (lt_eq_lt_dec i j) as [[Hlt| ->]|Hgt]; [|naive_solver|]; exfalso.
  - by apply (Hmb i a).
  - by apply (Hma j b).
Qed.

(** C4: [Policy::evaluate] implements first-match with default deny: either
    some rule is the first to cover the request, and the decision carries that
    rule's effect, name, index, notification flag and the first pair row that
    bound it, with the rule's limits narrowed by the declared ones; or no rule
    covers the request and the decision is a default deny. *)
Theorem evaluate_first_match p r :
  (∃ i rule row, first_covering (rules p) r i rule ∧ bound_row rule r row ∧
     evaluate p r = decision_of i rule row r) ∨
  ((∀ rule, rule ∈ rules p → ¬ covers rule r) ∧ evaluate p r = default_decision r).
Proof. apply (evaluate_from_spec 0). Qed.

(** A request is granted (allowed outright or after confirmation) only by
    an explicit rule: the effect is not [Deny] exactly when the first covering
    rule exists and its own effect is not [Deny]. *)
Theorem grant_needs_explicit_rule p r :
  effect (evaluate p r) ≠ Deny ↔
  ∃ i rule, first_covering (rules p) r i rule ∧ rule_effect rule ≠ Deny ∧
            effect (evaluate p r) = rule_effect rule.
Proof.
  destruct (evaluate_from_spec 0 (rules p) r) as [(i&rule&row&Hf&_&He)|[Hn He]];
    fold (evaluate p r) in He; rewrite He; simpl.
  - split; [intros; exists i, rule; auto|]. intros (j&rule'&Hf'&Hne&Heq).
    by destruct (first_covering_unique _ _ _ _ _ _ Hf Hf') as [-> ->].
  - split; [done|]. intros (i&rule&(Hl&Hc&_)&_). exfalso.
    apply (Hn rule); [by apply list_elem_of_lookup_2 in Hl|done].
Qed.

Definition within (x bound : option Z) : Prop :=
  match bound with None => True | Some b => ∃ v, x = Some v ∧ v ≤ b end.

Lemma min_opt_within a b : within (min_opt a b) a ∧ within (min_opt a b) b.
Proof. destruct a, b; simpl; split; eauto with lia; eexists; split; eauto; lia. Qed.

(** The limits of a decision never exceed a ceiling the request declares,
    nor a ceiling of the rule that decided it: declared constraints narrow and
    never widen. *)
Theorem limits_only_narrow p r :
  let d := evaluate p r in
  within (max_response_bytes (d_limits d)) (max_response_bytes (declared_limits r)) ∧
  within (session_ttl_s (d_limits d)) (session_ttl_s (declared_limits r)) ∧
  (∀ i name row rule, d_source d = ByRule i name row → rules p !! i = Some rule →
     within (max_response_bytes (d_limits d)) (max_response_bytes (limits rule)) ∧
     within (session_ttl_s (d_limits d)) (session_ttl_s (limits rule))).
Proof.
  simpl. destruct (evaluate_from_spec 0 (rules p) r) as [(i&rule&row&(Hl&_)&_&He)|[Hn He]];
    fold (evaluate p r) in He; rewrite He; simpl.
  - split; [apply min_opt_within|]. split; [apply min_opt_within|].
    intros ???? [= <- <- <-] Hl'. rewrite Hl in Hl'. injection Hl' as <-.
    split; apply min_opt_within.
  - split; [|split; [|done]].
    + destruct (_ ≫= c_max_response_bytes); simpl; eauto with lia.
    + destruct (_ ≫= c_session_ttl_s); simpl; eauto with lia.
Qed.
