(* ===== verification/Enrollment.v ===== *)
(** The enrollment store: [crates/identity/src/enrollment.rs].

    The operator-controlled binding of agent ids to Ed25519 keys and human
    sponsors.  The store is the in-memory map together with the file it is
    persisted to; every write reports the outcome of the file operation.  The
    theorems: every branch of [enroll], the refinement of any sequence of
    operator actions and restarts, failing writes included, to the bindings in
    memory and in the file, stickiness of revocation, and the load/persist
    round trip. *)

From stdpp Require Import sorting.
From S2P Require Import Prelude Strs Json Extern Toy Protocol.
#[local] Open Scope Z_scope.

Record EnrollmentRecord : Type := {
  agent_id : str;
  public_key : str;
  enrolled_at : str;
  sponsor_id : str;
  sponsor_name : str;
  revoked_at : option str;
}.

Record StoreFile : Type := { version : Z; file_agents : list EnrollmentRecord }.

Inductive EnrollmentError : Type :=
| EIo (e : str)
| ECorrupt (e : str)
| EBadPublicKey (e : str)
| EDuplicate (id : str)
| EMissingSponsor (what : str).

(** [Display for EnrollmentError]. *)
Definition enrollment_error_str (e : EnrollmentError) : str :=
  match e with
  | EIo e => "enrollment store i/o: " ++ e
  | ECorrupt e => "enrollment store corrupt: " ++ e
  | EBadPublicKey e => "public key must be base64url of 32 bytes: " ++ e
  | EDuplicate id => "agent " ++ id ++ " is already enrolled and live; revoke first to rotate"
  | EMissingSponsor what =>
      "enrollment requires a named human sponsor (RAE L0): " ++ what ++ " is empty"
  end.

(** [u8::is_ascii_whitespace]: space, tab, line feed, form feed, return. *)
Definition is_ascii_whitespace (b : byte) : bool :=
  bool_decide (bz b ∈ [32; 9; 10; 12; 13]).

Section Store.
Context `{Base64, Ed25519, SerdeText StoreFile}.

Record StoredAgent : Type := { key : VerifyingKey; record : EnrollmentRecord }.

(** The store, with the content of the file at its path. *)
Record EnrollmentStore : Type := {
  path : bool;
  agents : gmap str StoredAgent;
  disk : option str;
}.

(** What reading a file gives: its bytes, nothing, or another error. *)
Inductive file_read : Type :=
| FileBytes (b : str)
| FileMissing
| FileError (e : str).

(** [decode_public_key]. *)
Definition decode_public_key (encoded : str) : result EnrollmentError VerifyingKey :=
  raw ← map_err EBadPublicKey (b64url_decode (trim encoded));
  if decide (length raw = 32%nat)
  then map_err EBadPublicKey (vk_from_bytes raw)
  else Err (EBadPublicKey ("got " ++ show (zlen raw) ++ " bytes")).

(** [encode_public_key]. *)
Definition encode_public_key (k : VerifyingKey) : str := encode_signature (vk_to_bytes k).

(** [EnrollmentStore::in_memory]. *)
Definition in_memory : EnrollmentStore := {| path := false; agents := ∅; disk := None |}.

(** The loading loop: later records of the same id replace earlier ones. *)
Fixpoint load_agents (recs : list EnrollmentRecord) (m : gmap str StoredAgent)
  : result EnrollmentError (gmap str StoredAgent) :=
  match recs with
  | [] => Ok m
  | rec :: rest =>
      k ← decode_public_key (public_key rec);
      load_agents rest (<[agent_id rec := {| key := k; record := rec |}]> m)
  end.

(** [EnrollmentStore::load]. *)
Definition load (f : file_read) : result EnrollmentError EnrollmentStore :=
  match f with
  | FileBytes b =>
      if forallb is_ascii_whitespace b
      then Ok {| path := true; agents := ∅; disk := Some b |}
      else
        file ← map_err ECorrupt (from_text b);
        if decide (version file = 1)
        then m ← load_agents (file_agents file) ∅;
             Ok {| path := true; agents := m; disk := Some b |}
        else Err (ECorrupt ("unsupported store version " ++ show (version file)))
  | FileMissing => Ok {| path := true; agents := ∅; disk := None |}
  | FileError e => Err (EIo e)
  end.

Definition is_live (a : StoredAgent) : bool := bool_decide (revoked_at (record a) = None).

(** [EnrollmentStore::lookup]. *)
Definition lookup_key (s : EnrollmentStore) (id : str) : option VerifyingKey :=
  a ← agents s !! id; if is_live a then Some (key a) else None.

(** [EnrollmentStore::sponsor_id_of]. *)
Definition sponsor_id_of (s : EnrollmentStore) (id : str) : option str :=
  a ← agents s !! id; if is_live a then Some (sponsor_id (record a)) else None.

(** [a.agent_id.cmp(&b.agent_id)] is not greater. *)
Definition id_le (a b : EnrollmentRecord) : Prop := str_ltb (agent_id b) (agent_id a) = false.
#[global] Instance id_le_dec a b : Decision (id_le a b).
Proof. unfold id_le. apply _. Defined.

(** [EnrollmentStore::list]. *)
Definition list_records (s : EnrollmentStore) : list EnrollmentRecord :=
  merge_sort id_le ((λ kv, record kv.2) <$> map_to_list (agents s)).

(** [EnrollmentStore::persist]: the file is replaced in one rename, or an
    earlier file operation failed ([io]) and it is left as it was. *)
Definition persist (s : EnrollmentStore) (io : option str)
  : result EnrollmentError unit * EnrollmentStore :=
  if path s then
    match io with
    | Some e => (Err (EIo e), s)
    | None =>
        let file := {| version := 1; file_agents := list_records s |} in
        (Ok tt, {| path := path s; agents := agents s; disk := Some (to_text file) |})
    end
  else (Ok tt, s).

Definition set_agents (s : EnrollmentStore) (m : gmap str StoredAgent) : EnrollmentStore :=
  {| path := path s; agents := m; disk := disk s |}.

(** [EnrollmentStore::enroll]. *)
Definition enroll (s : EnrollmentStore) (id pk_b64 sponsor name now : str) (force_rotate : bool)
    (io : option str) : result EnrollmentError unit * EnrollmentStore :=
  if is_empty (trim sponsor) then (Err (EMissingSponsor "sponsor_id"), s)
  else if is_empty (trim name) then (Err (EMissingSponsor "sponsor_name"), s)
  else match decode_public_key pk_b64 with
       | Err e => (Err e, s)
       | Ok k =>
           let rec := {| agent_id := id; public_key := encode_public_key k; enrolled_at := now;
                         sponsor_id := trim sponsor; sponsor_name := trim name;
                         revoked_at := None |} in
           let insert := persist (set_agents s (<[id := {| key := k; record := rec |}]> (agents s))) io in
           match agents s !! id with
           | Some existing =>
               if is_live existing && negb force_rotate
               then (Err (EDuplicate id), s) else insert
           | None => insert
           end
       end.

Definition revoke_record (now : str) (r : EnrollmentRecord) : EnrollmentRecord :=
  {| agent_id := agent_id r; public_key := public_key r; enrolled_at := enrolled_at r;
     sponsor_id := sponsor_id r; sponsor_name := sponsor_name r;
     revoked_at := Some (unwrap_or (revoked_at r) now) |}.

(** [EnrollmentStore::revoke]. *)
Definition revoke (s : EnrollmentStore) (id now : str) (io : option str)
  : result EnrollmentError bool * EnrollmentStore :=
  match agents s !! id with
  | Some a =>
      let a' := {| key := key a; record := revoke_record now (record a) |} in
      match persist (set_agents s (<[id := a']> (agents s))) io with
      | (Ok _, s') => (Ok true, s')
      | (Err e, s') => (Err e, s')
      end
  | None => (Ok false, s)
  end.

(** ** Invariant *)

(** Every entry is filed under its own id, with the key its record encodes. *)
Definition store_inv (s : EnrollmentStore) : Prop :=
  ∀ id a, agents s !! id = Some a →
    agent_id (record a) = id ∧ decode_public_key (public_key (record a)) = Ok (key a).

(** When the store is backed by a file, the file loads to the same map. *)
Definition disk_synced (s : EnrollmentStore) : Prop :=
  path s = true → ∃ f, load f = Ok s ∧
    f = match disk s with Some b => FileBytes b | None => FileMissing end.

Lemma decode_encode_public_key k : decode_public_key (encode_public_key k) = Ok k.
Proof.
  unfold decode_public_key, encode_public_key, encode_signature.
  rewrite b64url_trim, b64url_decode_encode. simpl.
  rewrite decide_True by apply vk_to_bytes_len. by rewrite vk_from_to_bytes.
Qed.

Lemma persist_agents s io : agents (persist s io).2 = agents s.
Proof. unfold persist. by destruct (path s), io. Qed.

Lemma persist_path s io : path (persist s io).2 = path s.
Proof. unfold persist. by destruct (path s) eqn:?, io. Qed.

Lemma store_inv_agents s s' : agents s' = agents s → store_inv s → store_inv s'.
Proof. unfold store_inv. by intros ->. Qed.

Lemma store_inv_insert s id a :
  store_inv s → agent_id (record a) = id → decode_public_key (public_key (record a)) = Ok (key a) →
  store_inv (set_agents s (<[id := a]> (agents s))).
Proof.
  intros Hinv Hid Hk id' a'. simpl. destruct (decide (id' = id)) as [->|Hne].
  - rewrite lookup_insert_eq. by intros [= <-].
  - rewrite lookup_insert_ne by done. apply Hinv.
Qed.

Lemma enroll_agents s id pk sp nm now force io :
  let r := enroll s id pk sp nm now force io in
  agents r.2 = agents s ∨
  ∃ k, decode_public_key pk = Ok k ∧
    agents r.2 = <[id := {| key := k; record :=
      {| agent_id := id; public_key := encode_public_key k; enrolled_at := now;
         sponsor_id := trim sp; sponsor_name := trim nm; revoked_at := None |} |}]> (agents s).
Proof.
  simpl. unfold enroll. destruct (is_empty (trim sp)); [by left|].
  destruct (is_empty (trim nm)); [by left|].
  destruct (decode_public_key pk) as [k|e] eqn:Hk; [|by left].
  destruct (agents s !! id) as [a|]; [destruct (is_live a && negb force); [by left|]|];
    right; exists k; by rewrite persist_agents.
Qed.

Lemma revoke_agents s id now io :
  agents (revoke s id now io).2 =
  alter (λ a, {| key := key a; record := revoke_record now (record a) |}) id (agents s).
Proof.
  unfold revoke. destruct (agents s !! id) as [a|] eqn:Ha; simpl.
  - set (s' := set_agents _ _). pose proof (persist_agents s' io) as Hp.
    destruct (persist s' io) as [[|] s'']; simpl in *; rewrite Hp; simpl;
      apply map_eq; intros j; (destruct (decide (id = j)) as [<-|Hne];
        [by rewrite lookup_insert_eq, lookup_alter_eq, Ha
        |by rewrite lookup_insert_ne, lookup_alter_ne]).
  - symmetry. apply map_eq. intros j. destruct (decide (id = j)) as [<-|Hne].
    + by rewrite lookup_alter_eq, Ha.
    + by rewrite lookup_alter_ne.
Qed.

Lemma load_agents_inv recs m m' :
  load_agents recs m = Ok m' →
  (∀ id a, m !! id = Some a → agent_id (record a) = id ∧
     decode_public_key (public_key (record a)) = Ok (key a)) →
  ∀ id a, m' !! id = Some a → agent_id (record a) = id ∧
     decode_public_key (public_key (record a)) = Ok (key a).
Proof.
  revert m. induction recs as [|rec recs IH]; intros m; simpl; [by intros [= <-]|].
  intros (k & Hk & Hl)%result_bind_ok Hm. apply (IH _ Hl).
  intros id a. destruct (decide (agent_id rec = id)) as [<-|Hne].
  - rewrite lookup_insert_eq. by intros [= <-].
  - rewrite lookup_insert_ne by done. apply Hm.
Qed.

Lemma load_store_inv f s : load f = Ok s → store_inv s.
Proof.
  destruct f as [b| |e]; simpl; [|by intros [= <-] ???|done].
  destruct (forallb is_ascii_whitespace b); [by intros [= <-] ???|].
  intros (file & _ & Hl)%result_bind_ok. destruct (decide (version file = 1)); [|done].
  apply result_bind_ok in Hl as (m & Hm & [= <-]).
  intros id a. simpl. apply (load_agents_inv _ _ _ Hm). intros ??. by rewrite lookup_empty.
Qed.

(** Loading a list of well-keyed records gives the map of those records. *)
Lemma load_agents_list (l : list (str * StoredAgent)) m :
  Forall (λ kv, agent_id (record kv.2) = kv.1 ∧
                decode_public_key (public_key (record kv.2)) = Ok (key kv.2)) l →
  NoDup l.*1 → (∀ k, k ∈ l.*1 → m !! k = None) →
  load_agents ((λ kv, record kv.2) <$> l) m = Ok (list_to_map l ∪ m).
Proof.
  revert m. induction l as [|[id a] l IH]; intros m Hf Hnd Hm; simpl.
  { by rewrite (left_id_L ∅ (∪)). }
  apply Forall_cons in Hf as [[Hid Hk] Hf]. apply NoDup_cons in Hnd as [Hni Hnd].
  simpl in *. rewrite Hk. simpl. rewrite Hid.
  rewrite IH; [|done|done|].
  - f_equal. destruct a as [k rec]; simpl in *. rewrite <- insert_union_l, insert_union_r; [done|].
    by apply not_elem_of_list_to_map_1.
  - intros k Hin. rewrite lookup_insert_ne by (intros ->; done). apply Hm. set_solver.
Qed.

Lemma not_blank a : forallb is_ascii_whitespace (to_text a) = false.
Proof. destruct (to_text_object a) as [r ->]. done. Qed.

(** The file that [persist] writes loads to the store that wrote it. *)
Lemma load_persisted s :
  store_inv s → path s = true →
  let file := to_text {| version := 1; file_agents := list_records s |} in
  load (FileBytes file) = Ok {| path := true; agents := agents s; disk := Some file |}.
Proof.
  intros Hinv Hp. simpl. rewrite not_blank, from_to_text. simpl.
  assert (∃ l, list_records s = (λ kv, record kv.2) <$> l ∧ map_to_list (agents s) ≡ₚ l)
    as (l & Hl & Hperm).
  { apply Permutation_map_inv. apply merge_sort_Permutation. }
  assert (list_to_map l = agents s) as Hm.
  { rewrite <- (list_to_map_to_list (agents s)). symmetry. apply list_to_map_proper; [|done].
    apply NoDup_fst_map_to_list. }
  rewrite Hl. rewrite load_agents_list.
  - simpl. by rewrite (right_id_L ∅ (∪)), Hm.
  - rewrite <- Hperm. apply Forall_forall. intros [id a] Hin%elem_of_map_to_list. by apply Hinv.
  - rewrite <- Hperm. apply NoDup_fst_map_to_list.
  - intros k _. apply lookup_empty.
Qed.

Lemma persist_synced s : store_inv s → disk_synced (persist s None).2.
Proof.
  unfold persist. destruct (path s) eqn:Hp; simpl; intros Hinv Hp'; simpl in *; [|congruence].
  eexists. split; [|done]. by rewrite load_persisted.
Qed.

Lemma store_inv_enroll s id pk sp nm now force io :
  store_inv s → store_inv (enroll s id pk sp nm now force io).2.
Proof.
  intros Hinv. destruct (enroll_agents s id pk sp nm now force io) as [Ha|(k & Hk & Ha)].
  - by apply (store_inv_agents s).
  - eapply store_inv_agents; [|apply (store_inv_insert s id)]; [exact Ha|done|done|].
    apply decode_encode_public_key.
Qed.

Lemma store_inv_revoke s id now io : store_inv s → store_inv (revoke s id now io).2.
Proof.
  intros Hinv id' a'. rewrite revoke_agents. destruct (decide (id = id')) as [<-|Hne].
  - rewrite lookup_alter_eq. intros (a & Ha & ->)%fmap_Some. by apply Hinv in Ha.
  - rewrite lookup_alter_ne by done. apply Hinv.
Qed.

(** ** Operator sessions and their abstract specification *)

(** An operator action, or a restart of the daemon, which reloads the file. *)
Inductive op : Type :=
| OEnroll (id pk sponsor name now : str) (force : bool)
| ORevoke (id now : str)
| ORestart.

Definition file_of (s : EnrollmentStore) : file_read :=
  match disk s with Some b => FileBytes b | None => FileMissing end.

(** One action, with the outcome of its file operations ([None]: they all
    succeed). *)
Definition run_op (s : EnrollmentStore) (oi : op * option str) : result EnrollmentError EnrollmentStore :=
  match oi.1 with
  | OEnroll id pk sp nm now force => Ok (enroll s id pk sp nm now force oi.2).2
  | ORevoke id now => Ok (revoke s id now oi.2).2
  | ORestart => if path s then load (file_of s) else Ok in_memory
  end.

Fixpoint run_ops (s : EnrollmentStore) (os : list (op * option str)) : result EnrollmentError EnrollmentStore :=
  match os with
  | [] => Ok s
  | o :: rest => s' ← run_op s o; run_ops s' rest
  end.

(** The abstract store: for each id, its key and whether it is live. *)
Definition abs (s : EnrollmentStore) : gmap str (VerifyingKey * bool) :=
  (λ a, (key a, is_live a)) <$> agents s.

(** What an action means for the bindings in memory: an enrollment with a named
    sponsor and a good key binds the id unless a live binding is in place and
    rotation is not forced; a revocation kills the binding. *)
Definition spec_op (m : gmap str (VerifyingKey * bool)) (o : op) : gmap str (VerifyingKey * bool) :=
  match o with
  | OEnroll id pk sp nm _ force =>
      if bool_decide (trim sp = []) || bool_decide (trim nm = []) then m
      else match decode_public_key pk, m !! id with
           | Err _, _ => m
           | Ok k, Some (_, true) => if force then <[id := (k, true)]> m else m
           | Ok k, _ => <[id := (k, true)]> m
           end
  | ORevoke id _ => alter (λ kl, (kl.1, false)) id m
  | ORestart => m
  end.

(** Whether an action goes on to write the file: not when it is refused, nor
    when there is nothing to revoke. *)
Definition saves (m : gmap str (VerifyingKey * bool)) (o : op) : bool :=
  match o with
  | OEnroll id pk sp nm _ force =>
      negb (bool_decide (trim sp = []) || bool_decide (trim nm = [])) && is_ok (decode_public_key pk) &&
      negb (match m !! id with Some (_, live) => live | None => false end && negb force)
  | ORevoke id _ => bool_decide (is_Some (m !! id))
  | ORestart => false
  end.

(** The abstract store: the bindings in memory and those in the file. *)
Abbreviation bindings := (gmap str (VerifyingKey * bool)).

(** An action acts on memory; when it writes and the write succeeds the file
    takes the whole of memory, and when the write fails the file stays.  A
    restart takes the bindings of the file. *)
Definition spec_step (mf : bindings * bindings) (oi : op * option str) : bindings * bindings :=
  match oi.1 with
  | ORestart => (mf.2, mf.2)
  | o => let m := spec_op mf.1 o in
         (m, if saves mf.1 o && bool_decide (oi.2 = None) then m else mf.2)
  end.

(** The bindings a restart would load. *)
Definition stored (s : EnrollmentStore) : bindings :=
  match load (file_of s) with Ok s' => abs s' | Err _ => ∅ end.

Lemma is_empty_decide s : is_empty s = bool_decide (s = []).
Proof. by destruct s. Qed.

Lemma abs_enroll s id pk sp nm now force io :
  abs (enroll s id pk sp nm now force io).2 = spec_op (abs s) (OEnroll id pk sp nm now force).
Proof.
  unfold enroll, spec_op. rewrite <- !is_empty_decide.
  destruct (is_empty (trim sp)); [done|]. destruct (is_empty (trim nm)); [done|]. simpl.
  destruct (decode_public_key pk) as [k|e]; [|done].
  assert (Habs : ∀ a io', agents a = agents (persist a io').2) by (intros; by rewrite persist_agents).
  assert (Hl : abs s !! id = (λ a, (key a, is_live a)) <$> agents s !! id)
    by (unfold abs; by rewrite lookup_fmap).
  rewrite Hl. destruct (agents s !! id) as [a|] eqn:Ha; simpl.
  - destruct (is_live a), force; simpl; try done;
      unfold abs; rewrite <- Habs; simpl; by rewrite fmap_insert.
  - unfold abs; rewrite <- Habs; simpl; by rewrite fmap_insert.
Qed.

Lemma abs_revoke s id now io : abs (revoke s id now io).2 = spec_op (abs s) (ORevoke id now).
Proof.
  unfold abs. rewrite revoke_agents. simpl. apply map_eq. intros j.
  rewrite lookup_fmap. destruct (decide (id = j)) as [<-|Hne].
  - rewrite !lookup_alter_eq, lookup_fmap. by destruct (agents s !! id).
  - rewrite !lookup_alter_ne, lookup_fmap by done. done.
Qed.

(** A store whose file, if any, agrees with memory. *)
Definition good (s : EnrollmentStore) : Prop := store_inv s ∧ path s = true ∧ disk_synced s.

Lemma persist_good s : store_inv s → path s = true → good (persist s None).2.
Proof.
  intros Hinv Hp. split_and!; [|by rewrite persist_path|by apply persist_synced].
  eapply store_inv_agents; [apply persist_agents|done].
Qed.

Lemma enroll_good s id pk sp nm now force :
  good s → good (enroll s id pk sp nm now force None).2.
Proof.
  intros (Hinv & Hp & Hd). unfold enroll. destruct (is_empty (trim sp)); [done|].
  destruct (is_empty (trim nm)); [done|]. destruct (decode_public_key pk) as [k|e] eqn:Hk; [|done].
  assert (good (persist (set_agents s (<[id:={|key:=k;record:={|agent_id:=id;
    public_key:=encode_public_key k;enrolled_at:=now;sponsor_id:=trim sp;sponsor_name:=trim nm;
    revoked_at:=None|}|}]>(agents s))) None).2).
  { apply persist_good; [|done]. apply store_inv_insert; [done|done|apply decode_encode_public_key]. }
  destruct (agents s !! id) as [a|]; [destruct (is_live a && negb force)|]; done.
Qed.

Lemma revoke_good s id now : good s → good (revoke s id now None).2.
Proof.
  intros (Hinv & Hp & Hd). pose proof (store_inv_revoke s id now None Hinv) as Hinv'. revert Hinv'.
  unfold revoke. destruct (agents s !! id) as [a|] eqn:Ha; [|done].
  set (s' := set_agents s _). pose proof (persist_agents s' None) as Hag.
  assert (store_inv s' → good (persist s' None).2) as Hg by (intros; by apply persist_good).
  destruct (persist s' None) as [[|] s'']; simpl in *; intros Hi; apply Hg;
    by apply (store_inv_agents s'').
Qed.

(** A store on a file that loads, whether or not it agrees with memory. *)
Definition sound (s : EnrollmentStore) : Prop :=
  store_inv s ∧ path s = true ∧ is_ok (load (file_of s)) = true.

Lemma good_sound s : good s → sound s ∧ stored s = abs s.
Proof.
  intros (Hinv & Hp & Hd). destruct (Hd Hp) as (f & Hl & Hf). unfold sound, stored, file_of.
  rewrite <- Hf, Hl. done.
Qed.

Lemma persist_stored s io :
  store_inv s → path s = true → is_ok (load (file_of s)) = true →
  let s' := (persist s io).2 in
  sound s' ∧ stored s' = if bool_decide (io = None) then abs s' else stored s.
Proof.
  intros Hinv Hp Hl s'. unfold s', persist. rewrite Hp. destruct io as [e|]; [by split|].
  pose proof (load_persisted s Hinv Hp) as Hload. cbn zeta in Hload.
  unfold sound, stored, file_of. cbn [snd disk path]. by rewrite Hload.
Qed.

Lemma enroll_stored s id pk sp nm now force io :
  sound s → let s' := (enroll s id pk sp nm now force io).2 in
  sound s' ∧ stored s' =
    if saves (abs s) (OEnroll id pk sp nm now force) && bool_decide (io = None) then abs s' else stored s.
Proof.
  intros (Hinv & Hp & Hl) s'. unfold s', enroll, saves. rewrite <- !is_empty_decide.
  destruct (is_empty (trim sp)); [done|]. destruct (is_empty (trim nm)); [done|]. simpl.
  destruct (decode_public_key pk) as [k|e] eqn:Hk; [|done].
  set (a := {| key := k; record := _ |}).
  pose proof (persist_stored (set_agents s (<[id := a]> (agents s))) io
    (store_inv_insert s id a Hinv eq_refl (decode_encode_public_key k)) Hp Hl) as Hst.
  assert (abs s !! id = (λ a, (key a, is_live a)) <$> agents s !! id) as ->
    by (unfold abs; by rewrite lookup_fmap).
  destruct (agents s !! id) as [b|]; simpl; [|exact Hst].
  destruct (is_live b), force; simpl; [exact Hst|done|exact Hst|exact Hst].
Qed.

Lemma revoke_stored s id now io :
  sound s → let s' := (revoke s id now io).2 in
  sound s' ∧ stored s' = if saves (abs s) (ORevoke id now) && bool_decide (io = None) then abs s' else stored s.
Proof.
  intros (Hinv & Hp & Hl) s'. unfold s', revoke, saves.
  assert (bool_decide (is_Some (abs s !! id)) = bool_decide (is_Some (agents s !! id))) as ->
    by (apply bool_decide_ext; unfold abs; by rewrite lookup_fmap, fmap_is_Some).
  destruct (agents s !! id) as [a|] eqn:Ha; simpl; [|done].
  set (a' := {| key := key a; record := revoke_record now (record a) |}).
  destruct (Hinv _ _ Ha) as [Hid Hk].
  pose proof (persist_stored (set_agents s (<[id := a']> (agents s))) io
    (store_inv_insert s id a' Hinv Hid Hk) Hp Hl) as Hst.
  destruct (persist _ io) as [[|] s'']; exact Hst.
Qed.

Lemma restart_stored s io :
  sound s → ∃ s', run_op s (ORestart, io) = Ok s' ∧ sound s' ∧ abs s' = stored s ∧ stored s' = stored s.
Proof.
  intros (Hinv & Hp & Hl). unfold run_op. cbn [fst]. rewrite Hp. unfold stored. destruct (load (file_of s)) as [s'|] eqn:Hs; [|done].
  exists s'. split; [done|]. assert (path s' = true ∧ file_of s' = file_of s) as [Hp' Hf].
  { revert Hs. unfold file_of. destruct (disk s) as [b|]; simpl; [|by intros [= <-]].
    destruct (forallb is_ascii_whitespace b); [by intros [= <-]|].
    intros (file & _ & Hr)%result_bind_ok. destruct (decide (version file = 1)); [|done].
    by apply result_bind_ok in Hr as (m & _ & [= <-]). }
  unfold sound. rewrite Hf, Hs. split_and!; [by eapply load_store_inv|done..].
Qed.

Lemma run_op_refines s oi :
  sound s → ∃ s', run_op s oi = Ok s' ∧ sound s' ∧ (abs s', stored s') = spec_step (abs s, stored s) oi.
Proof.
  intros Hg. destruct oi as [[id pk sp nm now force|id now|] io].
  - destruct (enroll_stored s id pk sp nm now force io Hg) as [Hs Hst]. eexists. split; [reflexivity|].
    split; [exact Hs|]. unfold spec_step. cbn [fst snd]. by rewrite Hst, abs_enroll.
  - destruct (revoke_stored s id now io Hg) as [Hs Hst]. eexists. split; [reflexivity|].
    split; [exact Hs|]. unfold spec_step. cbn [fst snd]. by rewrite Hst, abs_revoke.
  - destruct (restart_stored s io Hg) as (s' & Hr & Hs & Ha & Hst). exists s'. split; [exact Hr|].
    split; [exact Hs|]. unfold spec_step. cbn [fst snd]. by rewrite Ha, Hst.
Qed.

Lemma run_ops_refines os s :
  sound s → ∃ s', run_ops s os = Ok s' ∧ sound s' ∧
    (abs s', stored s') = fold_left spec_step os (abs s, stored s).
Proof.
  revert s. induction os as [|o os IH]; intros s Hg; simpl; [eauto|].
  destruct (run_op_refines s o Hg) as (s1 & -> & Hg1 & Ha1).
  destruct (IH s1 Hg1) as (s2 & Hr & Hg2 & Ha2). exists s2. by rewrite Ha2, Ha1.
Qed.

(** When no write fails, memory and file stay the same. *)
Lemma spec_written os m :
  Forall (λ oi, oi.2 = None) os →
  fold_left spec_step os (m, m) = let m' := fold_left spec_op os.*1 m in (m', m').
Proof.
  intros Hf. revert m. induction Hf as [|[o io] os Hio _ IH]; intros m; [done|]. simpl in Hio. subst io.
  simpl. rewrite <- IH. f_equal. unfold spec_step. destruct o as [id pk sp nm now force|id now|]; [| |done].
  - cbn [fst snd]. rewrite bool_decide_eq_true_2, andb_true_r by done.
    destruct (saves m (OEnroll id pk sp nm now force)) eqn:Hs; [done|]. f_equal. symmetry. revert Hs. simpl.
    destruct (_ || _); [done|]. destruct (decode_public_key pk); [|done]. simpl.
    by destruct (m !! id) as [[k' []]|], force.
  - cbn [fst snd]. rewrite bool_decide_eq_true_2, andb_true_r by done. simpl. case_bool_decide as Hs; [done|].
    f_equal. apply map_eq. intros j. destruct (decide (id = j)) as [<-|Hne].
    + rewrite lookup_alter_eq. destruct (m !! id) eqn:Hm; [|done]. by destruct Hs.
    + by rewrite lookup_alter_ne.
Qed.

(** ** Properties *)

(** Every branch of [enroll].  A blank sponsor id, then a blank sponsor
    name, then a bad key is refused and changes nothing; a live enrollment is
    not replaced unless rotation is forced; otherwise the id resolves at once
    to the decoded key and the trimmed sponsor, no other entry changes, and
    the call reports success unless the file could not be written. *)
Theorem enroll_outcomes s id pk sp nm now force io :
  let r := enroll s id pk sp nm now force io in
  (trim sp = [] → r = (Err (EMissingSponsor "sponsor_id"), s)) ∧
  (trim sp ≠ [] → trim nm = [] → r = (Err (EMissingSponsor "sponsor_name"), s)) ∧
  (trim sp ≠ [] → trim nm ≠ [] →
    match decode_public_key pk with
    | Err e => r = (Err e, s)
    | Ok k =>
        if bool_decide (is_Some (lookup_key s id)) && negb force
        then r = (Err (EDuplicate id), s)
        else lookup_key r.2 id = Some k ∧ sponsor_id_of r.2 id = Some (trim sp) ∧
             (∀ id', id' ≠ id → agents r.2 !! id' = agents s !! id') ∧
             (r.1 = Ok tt ↔ path s = false ∨ io = None)
    end).
Proof.
  simpl. rewrite <- !is_empty_true. unfold enroll, lookup_key.
  destruct (is_empty (trim sp)) eqn:Hs; [by split_and!|].
  destruct (is_empty (trim nm)) eqn:Hn; [by split_and!|].
  split_and!; [done|done|]. intros _ _. destruct (decode_public_key pk) as [k|e]; [|done].
  set (res := persist _ io).
  assert (match agents res.2 !! id with Some a => if is_live a then Some (key a) else None
          | None => None end = Some k ∧ sponsor_id_of res.2 id = Some (trim sp) ∧
          (∀ id', id' ≠ id → agents res.2 !! id' = agents s !! id') ∧
          (res.1 = Ok tt ↔ path s = false ∨ io = None)) as Hres.
  { unfold sponsor_id_of, res. rewrite persist_agents. simpl. rewrite lookup_insert_eq. simpl.
    split_and!; [done|done|intros; by rewrite lookup_insert_ne|].
    unfold persist. simpl. destruct (path s), io; naive_solver. }
  destruct (agents s !! id) as [a|]; simpl; [|exact Hres].
  destruct (is_live a), force; simpl; first [reflexivity | exact Hres].
Qed.


Definition not_enrolling (id : str) (o : op) : bool :=
  match o with OEnroll id' _ _ _ _ _ => bool_decide (id' ≠ id) | _ => true end.

Definition dead (m : gmap str (VerifyingKey * bool)) (id : str) : Prop :=
  match m !! id with Some (_, true) => False | _ => True end.

Lemma spec_op_dead m id o : not_enrolling id o = true → dead m id → dead (spec_op m o) id.
Proof.
  unfold dead. destruct o as [id' pk sp nm now force|id' now|]; simpl; [| |done].
  - intros Hne%bool_decide_eq_true Hd.
    repeat case_match; simplify_eq/=; try rewrite lookup_insert_ne in * by done;
      simplify_eq; try done; congruence.
  - intros _ Hd. destruct (decide (id' = id)) as [->|Hne].
    + rewrite lookup_alter_eq. by destruct (m !! id) as [[? []]|].
    + by rewrite lookup_alter_ne.
Qed.

Lemma spec_step_dead mf id oi :
  not_enrolling id oi.1 = true → dead mf.1 id → dead mf.2 id →
  dead (spec_step mf oi).1 id ∧ dead (spec_step mf oi).2 id.
Proof.
  destruct oi as [o io]. intros Hn Hm Hf. simpl in Hn. pose proof (spec_op_dead mf.1 id o Hn Hm) as Hd.
  unfold spec_step. cbn [fst snd]. destruct o; cbn [fst snd]; [destruct (_ && _)..|]; done.
Qed.

Lemma lookup_dead s id : dead (abs s) id → lookup_key s id = None ∧ sponsor_id_of s id = None.
Proof.
  unfold dead, abs, lookup_key, sponsor_id_of. rewrite lookup_fmap.
  destruct (agents s !! id) as [a|]; [|done]. simpl. by destruct (is_live a).
Qed.

(** Revocation is effective immediately and sticky.  Once a [revoke] whose
    write succeeded has run, the id resolves to no key and no sponsor, and
    stays so through any sequence of other enrollments, revocations and
    restarts, whether or not their writes succeed, until the operator enrolls
    that id again. *)
Theorem revocation_sticky s id now os :
  good s → Forall (λ oi, not_enrolling id oi.1 = true) os →
  ∃ s', run_ops (revoke s id now None).2 os = Ok s' ∧
        lookup_key s' id = None ∧ sponsor_id_of s' id = None.
Proof.
  intros Hg Hf. destruct (good_sound _ (revoke_good s id now Hg)) as [Hs1 Hst1].
  destruct (run_ops_refines os _ Hs1) as (s' & Hr & _ & Ha).
  exists s'. split; [done|]. apply lookup_dead. change (dead (abs s', stored s').1 id). rewrite Ha, Hst1.
  assert (dead (abs (revoke s id now None).2) id) as Hd.
  { rewrite abs_revoke. unfold dead. simpl. rewrite lookup_alter_eq. by destruct (abs s !! id) as [[]|]. }
  clear Ha Hr Hst1 Hs1. revert Hd. generalize (abs (revoke s id now None).2) as m. intros m Hd.
  assert (dead (m, m).1 id ∧ dead (m, m).2 id) as Hboth by done. clear Hd. revert Hboth.
  generalize (m, m) as mf. induction Hf as [|oi os Ho _ IH]; intros mf [H1' H2']; [done|].
  simpl. apply IH. by apply spec_step_dead.
Qed.

(** A failed write is not durable.  The operator sees the error and the
    revocation holds in memory, but the file still has the key live, and a
    restart brings it back. *)
Theorem failed_write_undone_by_restart s id k now e :
  good s → lookup_key s id = Some k →
  (revoke s id now (Some e)).1 = Err (EIo e) ∧ lookup_key (revoke s id now (Some e)).2 id = None ∧
  ∃ s', run_op (revoke s id now (Some e)).2 (ORestart, None) = Ok s' ∧ lookup_key s' id = Some k.
Proof.
  intros Hg Hk. pose proof Hg as (Hinv & Hp & Hd). unfold lookup_key in Hk |- *.
  destruct (agents s !! id) as [a|] eqn:Ha; [|done]. unfold revoke. rewrite Ha.
  unfold persist, run_op. cbn [path set_agents fst snd agents]. rewrite Hp. cbn [path set_agents fst snd agents].
  rewrite lookup_insert_eq. cbn [path set_agents fst snd agents]. rewrite Hp. split_and!; [done|done|].
  destruct (Hd Hp) as (f & Hl & Hf). unfold file_of. cbn [disk set_agents]. rewrite <- Hf, Hl.
  exists s. split; [done|]. by rewrite Ha.
Qed.
End Store.

#[global] Instance record_eq_dec : EqDecision EnrollmentRecord.
Proof. solve_decision. Defined.
#[global] Instance file_eq_dec : EqDecision StoreFile.
Proof. solve_decision. Defined.

#[global] Program Instance record_countable : Countable EnrollmentRecord :=
  inj_countable' (λ r, (agent_id r, public_key r, enrolled_at r, sponsor_id r, sponsor_name r, revoked_at r))
    (λ t, let '(a, b, c, d, e, f) := t in
          {| agent_id := a; public_key := b; enrolled_at := c; sponsor_id := d;
             sponsor_name := e; revoked_at := f |}) _.
Next Obligation. by intros []. Qed.

#[global] Program Instance file_countable : Countable StoreFile :=
  inj_countable' (λ f, (version f, file_agents f))
    (λ t, {| version := t.1; file_agents := t.2 |}) _.
Next Obligation. by intros []. Qed.

Section Witnesses.
#[local] Existing Instance toy_base64.
#[local] Existing Instance toy_ed25519.
#[local] Existing Instance toy_serde.

Definition fresh_store : EnrollmentStore := {| path := true; agents := ∅; disk := None |}.
Definition toy_pk (c : byte) : str := encode_public_key (c : VerifyingKey).

Lemma fresh_good : good fresh_store.
Proof.
  split_and!; [intros ?? Hl; simpl in Hl; by rewrite lookup_empty in Hl|done|]. intros _.
  eexists. split; [|reflexivity]. reflexivity.
Qed.

Lemma enroll_outcomes_witness :
  let r := enroll fresh_store "agent:a" (toy_pk Byte.x41) " ops@x " "Ops" "t0" false None in
  lookup_key r.2 "agent:a" = Some Byte.x41 ∧ r.1 = Ok tt.
Proof.
  destruct (enroll_outcomes fresh_store "agent:a" (toy_pk Byte.x41) " ops@x " "Ops" "t0" false None)
    as (_ & _ & Hw).
  specialize (Hw ltac:(by vm_compute) ltac:(by vm_compute)).
  destruct Hw as (Hk & _ & _ & Hok). split; [exact Hk|]. apply Hok. by right.
Defined.

(** An enrollment, a revocation whose write fails, and a restart. *)
Definition toy_ops : list (op * option str) :=
  [(OEnroll "agent:a" (toy_pk Byte.x41) "o" "n" "t0" false, None);
   (ORevoke "agent:a" "t1", Some "disk full"); (ORestart, None)].


Lemma revocation_sticky_witness :
  ∃ s', run_ops (revoke (enroll fresh_store "agent:a" (toy_pk Byte.x41) "o" "n" "t0" false None).2
                  "agent:a" "t1" None).2 [(ORestart, None); (OEnroll "agent:b" (toy_pk Byte.x42) "o" "n" "t2" true, Some "full")] = Ok s' ∧
        lookup_key s' "agent:a" = None ∧ sponsor_id_of s' "agent:a" = None.
Proof.
  apply (revocation_sticky (enroll fresh_store "agent:a" (toy_pk Byte.x41) "o" "n" "t0" false None).2).
  - apply enroll_good, fresh_good.
  - repeat constructor.
Defined.

Lemma failed_write_undone_by_restart_witness :
  let s := (enroll fresh_store "agent:a" (toy_pk Byte.x41) "o" "n" "t0" false None).2 in
  ∃ s', run_op (revoke s "agent:a" "t1" (Some "disk full")).2 (ORestart, None) = Ok s' ∧
        lookup_key s' "agent:a" = Some Byte.x41.
Proof.
  intros s. destruct (failed_write_undone_by_restart s "agent:a" Byte.x41 "t1" "disk full") as (_ & _ & Hr).
  - apply enroll_good, fresh_good.
  - vm_compute. reflexivity.
  - exact Hr.
Defined.
End Witnesses.
