(* ===== verification/Replay.v ===== *)
(** The replay cache: [crates/identity/src/replay.rs].

    Nonce reservations per agent, their insertion order, and the JSONL journal
    on disk with its compaction and size cap.  The file is part of the state;
    the outcome of each file operation is an input.  The theorems: a reserved
    nonce is refused until it expires, whatever happens in between; once it is
    in the journal this survives any number of daemon restarts; a refusal for
    capacity leaves the reservations as they were. *)

From S2P Require Import Prelude Strs Json Extern Toy.
#[local] Open Scope Z_scope.

Record JournalLine : Type := { agent : str; nonce : str; expires_unix : Z }.

#[global] Instance journal_line_eq_dec : EqDecision JournalLine.
Proof. solve_decision. Defined.

Inductive Reservation : Type := Fresh | Duplicate | CapacityFull.

#[global] Instance reservation_eq_dec : EqDecision Reservation.
Proof. solve_decision. Defined.

(** [Reservation::is_fresh]. *)
Definition is_fresh (r : Reservation) : bool := match r with Fresh => true | _ => false end.

Inductive ReplayCacheError : Type := RIo (e : str) | RCorrupt (e : str).

(** [Inner]; an entry of [insertion_order] is a [JournalLine]. *)
Record Inner : Type := {
  seen : gmap (str * str) Z;
  insertion_order : list JournalLine;
  journal_lines_written : Z;
}.

(** The cache and the content of its journal file ([None]: no file). *)
Record ReplayCache : Type := {
  inner : Inner;
  path : bool;
  max_journal_bytes : Z;
  disk : option str;
}.

Definition DEFAULT_MAX_JOURNAL_BYTES : Z := 16 * 1024 * 1024.

(** Outcomes of the file operations of one call: whether the rewrite of the
    journal went through, and how many bytes of an append were written when it
    was cut short. *)
Record Io : Type := { rewrite_ok : bool; append_short : option nat }.
Definition io_good : Io := {| rewrite_ok := true; append_short := None |}.

(** Every operation succeeds or fails as a whole: no append stops half way. *)
Definition not_torn (io : Io) : Prop := append_short io = None ∨ append_short io = Some 0%nat.

Definition line_key (l : JournalLine) : str * str := (agent l, nonce l).

Definition set_inner (c : ReplayCache) (i : Inner) : ReplayCache :=
  {| inner := i; path := path c; max_journal_bytes := max_journal_bytes c; disk := disk c |}.

(** [ReplayCache::with_journal_cap]. *)
Definition with_journal_cap (c : ReplayCache) (bytes : Z) : ReplayCache :=
  {| inner := inner c; path := path c; max_journal_bytes := bytes; disk := disk c |}.

(** [ReplayCache::in_memory]. *)
Definition in_memory : ReplayCache :=
  {| inner := {| seen := ∅; insertion_order := []; journal_lines_written := 0 |};
     path := false; max_journal_bytes := DEFAULT_MAX_JOURNAL_BYTES; disk := None |}.

(** [Inner::purge_expired]: drops expired entries from the front. *)
Fixpoint purge_loop (now : Z) (order : list JournalLine) (m : gmap (str * str) Z)
  : list JournalLine * gmap (str * str) Z :=
  match order with
  | [] => ([], m)
  | l :: rest =>
      if now <? expires_unix l then (order, m)
      else purge_loop now rest (delete (line_key l) m)
  end.

Definition purge_expired (now : Z) (i : Inner) : Inner :=
  let '(order, m) := purge_loop now (insertion_order i) (seen i) in
  {| seen := m; insertion_order := order; journal_lines_written := journal_lines_written i |}.

(** [journal_len]. *)
Definition journal_len (d : option str) : Z := match d with Some b => zlen b | None => 0 end.

(** [ReplayCache::live_entries]. *)
Definition live_entries (c : ReplayCache) : nat := size (seen (inner c)).

Section Cache.
Context `{SerdeLine JournalLine}.

(** A line of the journal, with its line feed. *)
Definition journal_text (ls : list JournalLine) : str :=
  mjoin ((λ l, to_text l ++ [zb 10]) <$> ls).

(** [ReplayCache::append_line]: an incomplete write is ignored. *)
Definition append_line (c : ReplayCache) (l : JournalLine) (io : Io) : ReplayCache :=
  if path c then
    let bytes := to_text l ++ [zb 10] in
    let written := match append_short io with Some n => take n bytes | None => bytes end in
    {| inner := inner c; path := path c; max_journal_bytes := max_journal_bytes c;
       disk := Some (default [] (disk c) ++ written) |}
  else c.

(** [ReplayCache::rewrite_journal]: the new journal replaces the old one by a
    rename, or some step failed and the old one stays. *)
Definition rewrite_journal (c : ReplayCache) (io : Io) : ReplayCache :=
  if path c && rewrite_ok io then
    let i := inner c in
    {| inner := {| seen := seen i; insertion_order := insertion_order i;
                   journal_lines_written := zlen (insertion_order i) |};
       path := path c; max_journal_bytes := max_journal_bytes c;
       disk := Some (journal_text (insertion_order i)) |}
  else c.

(** [BufRead::lines] over a file: each line must be UTF-8. *)
Definition read_lines (d : option str) : list str := match d with Some b => lines b | None => [] end.

(** The loading loop of [ReplayCache::open]. *)
Fixpoint load_lines (i now : Z) (ls : list str) (m : gmap (str * str) Z) (order : list JournalLine)
  : result ReplayCacheError (gmap (str * str) Z * list JournalLine) :=
  match ls with
  | [] => Ok (m, order)
  | l :: rest =>
      if utf8_valid l then
        if is_empty l then load_lines (i + 1) now rest m order
        else
          entry ← map_err (λ e, RCorrupt ("line " ++ show (i + 1) ++ ": " ++ e)) (from_text l);
          if now <? expires_unix entry
          then load_lines (i + 1) now rest (<[line_key entry := expires_unix entry]> m) (order ++ [entry])
          else load_lines (i + 1) now rest m order
      else Err (RIo "stream did not contain valid UTF-8")
  end.

(** [ReplayCache::open] on the file content [d]. *)
Definition open (d : option str) (now : Z) (io : Io) : result ReplayCacheError ReplayCache :=
  '(m, order) ← load_lines 0 now (read_lines d) ∅ [];
  let c lines_written :=
    {| inner := {| seen := m; insertion_order := order; journal_lines_written := lines_written |};
       path := true; max_journal_bytes := DEFAULT_MAX_JOURNAL_BYTES; disk := d |} in
  let live := Z.of_nat (size m) in
  let lines_on_disk := zlen (read_lines d) in
  if (1024 <? lines_on_disk) && (live * 2 <? lines_on_disk)
  then let c' := rewrite_journal (c 0) io in
       Ok (set_inner c' {| seen := seen (inner c'); insertion_order := insertion_order (inner c');
                           journal_lines_written := 0 |})
  else Ok (c lines_on_disk).

Definition reserve_entry (c : ReplayCache) (l : JournalLine) : ReplayCache :=
  let i := inner c in
  set_inner c {| seen := <[line_key l := expires_unix l]> (seen i);
                 insertion_order := insertion_order i ++ [l];
                 journal_lines_written := journal_lines_written i + 1 |}.

(** The rollback of a refused reservation. *)
Definition rollback_entry (c : ReplayCache) (l : JournalLine) : ReplayCache :=
  let i := inner c in
  set_inner c {| seen := delete (line_key l) (seen i);
                 insertion_order := removelast (insertion_order i);
                 journal_lines_written := journal_lines_written i |}.

(** [ReplayCache::check_and_reserve]. *)
Definition check_and_reserve (c : ReplayCache) (ag no : str) (now retention : Z) (io : Io)
  : Reservation * ReplayCache :=
  let l := {| agent := ag; nonce := no; expires_unix := i64_saturating_add now retention |} in
  let c0 := set_inner c (purge_expired now (inner c)) in
  match seen (inner c0) !! line_key l with
  | Some _ => (Duplicate, c0)
  | None =>
      let c1 := reserve_entry c0 l in
      if path c then
        let written := journal_lines_written (inner c1) in
        let due := (1024 <=? written) && (Z.of_nat (size (seen (inner c1))) * 2 <? written) in
        let journaled := (max_journal_bytes c <? journal_len (disk c1)) || due in
        let c2 := if journaled then rewrite_journal c1 io else c1 in
        if max_journal_bytes c <? journal_len (disk c2)
        then (CapacityFull, rollback_entry c2 l)
        else (Fresh, if journaled then c2 else append_line c2 l io)
      else (Fresh, c1)
  end.

(** ** The memory invariant *)

(** The map holds exactly the queued entries, which have distinct keys. *)
Definition mem_inv (c : ReplayCache) : Prop :=
  NoDup (line_key <$> insertion_order (inner c)) ∧
  seen (inner c) = list_to_map ((λ l, (line_key l, expires_unix l)) <$> insertion_order (inner c)).

Definition entry_map (ls : list JournalLine) : gmap (str * str) Z :=
  list_to_map ((λ l, (line_key l, expires_unix l)) <$> ls).

Lemma entry_map_keys ls : ((λ l, (line_key l, expires_unix l)) <$> ls).*1 = line_key <$> ls.
Proof. rewrite <- list_fmap_compose. done. Qed.

Lemma entry_map_Some ls k e :
  NoDup (line_key <$> ls) →
  entry_map ls !! k = Some e ↔ ∃ l, l ∈ ls ∧ line_key l = k ∧ expires_unix l = e.
Proof.
  intros Hnd. unfold entry_map. rewrite <- elem_of_list_to_map by (by rewrite entry_map_keys).
  rewrite list_elem_of_fmap. split; [intros (l & [= -> ->] & Hin); eauto|].
  intros (l & Hin & <- & <-). eauto.
Qed.

Lemma entry_map_None ls k : entry_map ls !! k = None ↔ k ∉ line_key <$> ls.
Proof. unfold entry_map. by rewrite <- not_elem_of_list_to_map, entry_map_keys. Qed.

Lemma entry_map_snoc ls l :
  NoDup (line_key <$> (ls ++ [l])) →
  entry_map (ls ++ [l]) = <[line_key l := expires_unix l]> (entry_map ls).
Proof.
  intros Hnd. apply map_eq. intros k. destruct (decide (line_key l = k)) as [<-|Hne].
  - rewrite lookup_insert_eq. apply entry_map_Some; [done|]. exists l. set_solver.
  - rewrite lookup_insert_ne by done. apply option_eq. intros e.
    rewrite fmap_app in Hnd. apply NoDup_app in Hnd as (Hnd & Hx & Hnd').
    rewrite !entry_map_Some; [|done|rewrite fmap_app; by apply NoDup_app].
    set_solver.
Qed.

Lemma purge_loop_spec now order m :
  NoDup (line_key <$> order) → m = entry_map order →
  let '(order', m') := purge_loop now order m in
  m' = entry_map order' ∧ NoDup (line_key <$> order') ∧
  (∃ dropped, order = dropped ++ order' ∧ Forall (λ l, expires_unix l ≤ now) dropped).
Proof.
  revert m. induction order as [|l order IH]; intros m Hnd Hm; simpl.
  { subst. split_and!; [done|done|]. by exists []. }
  destruct (now <? expires_unix l) eqn:Hlt; bool_to_prop.
  { split_and!; [done|done|]. by exists []. }
  apply NoDup_cons in Hnd as [Hni Hnd]. simpl in *.
  assert (delete (line_key l) m = entry_map order) as Hd.
  { subst. unfold entry_map. simpl. apply delete_insert_id. by apply entry_map_None. }
  specialize (IH _ Hnd Hd). destruct (purge_loop now order _) as [order' m'].
  destruct IH as (-> & Hnd' & d & -> & Hf). split_and!; [done|done|].
  exists (l :: d). split; [done|]. by constructor.
Qed.

Definition purged (c : ReplayCache) (now : Z) : ReplayCache :=
  set_inner c (purge_expired now (inner c)).

Lemma purged_spec c now :
  mem_inv c → mem_inv (purged c now) ∧
  ∃ dropped, insertion_order (inner c) = dropped ++ insertion_order (inner (purged c now)) ∧
             Forall (λ l, expires_unix l ≤ now) dropped.
Proof.
  intros [Hnd Hm]. unfold purged, purge_expired, mem_inv.
  pose proof (purge_loop_spec now _ _ Hnd Hm) as Hp.
  destruct (purge_loop now _ _) as [order' m']. simpl. by destruct Hp as (-> & Hnd' & Hd).
Qed.

Lemma reserve_inv c l :
  mem_inv c → seen (inner c) !! line_key l = None → mem_inv (reserve_entry c l).
Proof.
  intros [Hnd Hm] Hl. fold (entry_map (insertion_order (inner c))) in Hm.
  rewrite Hm in Hl. apply entry_map_None in Hl.
  assert (NoDup (line_key <$> (insertion_order (inner c) ++ [l]))) as Hnd'.
  { rewrite fmap_app. apply NoDup_app. split_and!; [done| |apply NoDup_singleton].
    intros x Hx. simpl. intros ->%list_elem_of_singleton. done. }
  split; [done|]. simpl. rewrite Hm. symmetry. by apply entry_map_snoc.
Qed.

Lemma rewrite_inner c io :
  seen (inner (rewrite_journal c io)) = seen (inner c) ∧
  insertion_order (inner (rewrite_journal c io)) = insertion_order (inner c).
Proof. unfold rewrite_journal. by destruct (path c && rewrite_ok io). Qed.

Lemma append_inner c l io : inner (append_line c l io) = inner c.
Proof. unfold append_line. by destruct (path c). Qed.

(** A refused reservation leaves the reservations as they were. *)
Lemma rollback_reserve c l io (j : bool) :
  mem_inv c → seen (inner c) !! line_key l = None →
  let c2 := if j then rewrite_journal (reserve_entry c l) io else reserve_entry c l in
  seen (inner (rollback_entry c2 l)) = seen (inner c) ∧
  insertion_order (inner (rollback_entry c2 l)) = insertion_order (inner c).
Proof.
  intros Hinv Hl c2.
  assert (seen (inner c2) = <[line_key l := expires_unix l]> (seen (inner c)) ∧
          insertion_order (inner c2) = insertion_order (inner c) ++ [l]) as [H1 H2].
  { subst c2. destruct j; [|done]. by destruct (rewrite_inner (reserve_entry c l) io) as [-> ->]. }
  simpl. rewrite H1, H2. split; [by apply delete_insert_id|apply removelast_last].
Qed.

Definition new_line (ag no : str) (now retention : Z) : JournalLine :=
  {| agent := ag; nonce := no; expires_unix := i64_saturating_add now retention |}.

(** What one call does to the reservations. *)
Lemma check_and_reserve_mem c ag no now ret io :
  mem_inv c →
  let r := check_and_reserve c ag no now ret io in
  let c0 := purged c now in
  mem_inv r.2 ∧ path r.2 = path c ∧
  match r.1 with
  | Fresh => seen (inner c0) !! (ag, no) = None ∧
             insertion_order (inner r.2) = insertion_order (inner c0) ++ [new_line ag no now ret]
  | Duplicate => is_Some (seen (inner c0) !! (ag, no)) ∧ r.2 = c0
  | CapacityFull => seen (inner c0) !! (ag, no) = None ∧ seen (inner r.2) = seen (inner c0) ∧
             insertion_order (inner r.2) = insertion_order (inner c0)
  end.
Proof.
  intros Hinv. destruct (purged_spec c now Hinv) as [Hinv0 _].
  unfold check_and_reserve. fold (purged c now). fold (new_line ag no now ret).
  set (l := new_line ag no now ret). change (ag, no) with (line_key l).
  destruct (seen (inner (purged c now)) !! line_key l) as [e|] eqn:Hl; simpl; [by eauto|].
  pose proof (reserve_inv _ _ Hinv0 Hl) as Hinv1.
  destruct (path c) eqn:Hp; [|by split_and!].
  set (j := (_ || _)). set (c2 := if j then _ else _).
  assert (seen (inner c2) = seen (inner (reserve_entry (purged c now) l)) ∧
          insertion_order (inner c2) = insertion_order (inner (purged c now)) ++ [l] ∧
          path c2 = true) as (Hs2 & Ho2 & Hp2).
  { subst c2. destruct j; [|done]. destruct (rewrite_inner (reserve_entry (purged c now) l) io) as [-> ->].
    split_and!; [done|done|]. unfold rewrite_journal. by destruct (path (reserve_entry _ _) && rewrite_ok io). }
  assert (mem_inv c2) as Hinv2 by (unfold mem_inv; rewrite Hs2, Ho2; exact Hinv1).
  destruct (max_journal_bytes c <? journal_len (disk c2)) eqn:Hcap; cbn [fst snd].
  - destruct (rollback_reserve (purged c now) l io j Hinv0 Hl) as [Hs Ho].
    fold c2 in Hs, Ho. split_and!; [|done|done|exact Hs|exact Ho].
    unfold mem_inv. rewrite Hs, Ho. exact Hinv0.
  - set (c3 := if j then c2 else append_line c2 l io).
    assert (inner c3 = inner c2 ∧ path c3 = true) as [Hi3 Hp3].
    { unfold c3. destruct j; [done|]. rewrite append_inner. split; [done|].
      unfold append_line. by rewrite Hp2. }
    unfold mem_inv. rewrite Hi3. split_and!; [apply Hinv2|apply Hinv2|exact Hp3|done|exact Ho2].
Qed.

(** The entry [(k, e)] is held in memory. *)
Definition held (c : ReplayCache) (k : str * str) (e : Z) : Prop :=
  ∃ l, l ∈ insertion_order (inner c) ∧ line_key l = k ∧ expires_unix l = e.

Lemma held_purged c k e now : mem_inv c → held c k e → now < e → held (purged c now) k e.
Proof.
  intros Hinv (l & Hin & <- & <-) Hlt. destruct (purged_spec c now Hinv) as (_ & d & Ho & Hf).
  rewrite Ho in Hin. apply elem_of_app in Hin as [Hin|Hin]; [|by exists l].
  rewrite Forall_forall in Hf. apply Hf in Hin. lia.
Qed.

Lemma held_seen c k e : mem_inv c → held c k e → seen (inner c) !! k = Some e.
Proof. intros [Hnd ->] Hh. by apply entry_map_Some. Qed.

Lemma held_step c k e ag no now ret io :
  mem_inv c → held c k e → now < e →
  let r := check_and_reserve c ag no now ret io in
  held r.2 k e ∧ ((ag, no) = k → r.1 = Duplicate).
Proof.
  intros Hinv Hh Hlt. pose proof (held_purged _ _ _ _ Hinv Hh Hlt) as Hh0.
  destruct (purged_spec c now Hinv) as [Hinv0 _]. pose proof (held_seen _ _ _ Hinv0 Hh0) as Hs.
  destruct (check_and_reserve_mem c ag no now ret io Hinv) as (_ & _ & Hr). cbn zeta in *.
  destruct (check_and_reserve c ag no now ret io) as [[] c']; simpl in *.
  - destruct Hr as [Hn Ho]. split; [|congruence]. destruct Hh0 as (l & Hin & ? & ?).
    exists l. rewrite Ho. set_solver.
  - destruct Hr as [_ ->]. done.
  - destruct Hr as (Hn & _ & Ho). split; [|congruence]. unfold held in *. by rewrite Ho.
Qed.

(** ** The journal invariant *)

Definition live_at (t : Z) (ls : list JournalLine) : list JournalLine :=
  filter (λ l, t < expires_unix l) ls.

Lemma elem_of_live t l ls : l ∈ live_at t ls ↔ t < expires_unix l ∧ l ∈ ls.
Proof. unfold live_at. by rewrite list_elem_of_filter. Qed.

(** The file at [d] holds the lines [ls]. *)
Definition holds (d : option str) (ls : list JournalLine) : Prop :=
  match d with Some b => b = journal_text ls | None => ls = [] end.

Lemma read_lines_holds d ls : holds d ls → read_lines d = to_text <$> ls.
Proof.
  destruct d as [b|]; simpl; [intros ->|intros ->; done]. unfold journal_text.
  rewrite <- (lines_terminated (to_text <$> ls)).
  - by rewrite <- list_fmap_compose.
  - apply Forall_fmap, Forall_true. intros l. apply to_text_one_line.
Qed.

Lemma load_lines_texts now ls i m order :
  m = entry_map order → NoDup (line_key <$> (order ++ live_at now ls)) →
  load_lines i now (to_text <$> ls) m order =
    Ok (entry_map (order ++ live_at now ls), order ++ live_at now ls).
Proof.
  revert i m order. induction ls as [|l ls IH]; intros i m order Hm Hnd; simpl.
  { by rewrite Hm, app_nil_r. }
  rewrite to_text_utf8, from_to_text. simpl.
  assert (is_empty (to_text l) = false) as -> by (by destruct (to_text_object l) as [? ->]).
  unfold live_at in *. rewrite filter_cons in *.
  destruct (now <? expires_unix l) eqn:Hlt; bool_to_prop.
  - rewrite decide_True in * by lia.
    replace (order ++ l :: filter (λ l, now < expires_unix l) ls)
      with ((order ++ [l]) ++ filter (λ l, now < expires_unix l) ls) in *
      by (by rewrite <- app_assoc).
    rewrite IH; [done| |done]. subst m. symmetry. apply entry_map_snoc.
    rewrite fmap_app in Hnd. by apply NoDup_app in Hnd as [? _].
  - rewrite decide_False in * by lia. by apply IH.
Qed.

(** The journal on disk and the memory: each reservation that satisfies [P] is
    journaled, live lines have distinct keys, and a live line that is not
    reserved (left by a refused reservation) only exists while the file is over
    its cap. *)
Definition disk_inv (t : Z) (P : JournalLine → Prop) (c : ReplayCache) : Prop :=
  path c = true ∧ ∃ ls, holds (disk c) ls ∧
    (∀ l, l ∈ insertion_order (inner c) → P l → l ∈ ls) ∧
    NoDup (line_key <$> live_at t ls) ∧
    (∀ l, l ∈ live_at t ls →
       l ∈ insertion_order (inner c) ∨ max_journal_bytes c < journal_len (disk c)).

Lemma live_at_mono t now ls : t ≤ now → sublist (live_at now ls) (live_at t ls).
Proof.
  intros Ht. induction ls as [|l ls IH]; [done|]. unfold live_at in *. rewrite !filter_cons.
  destruct (decide (now < expires_unix l)), (decide (t < expires_unix l)); try lia;
    first [done | by constructor].
Qed.

Lemma live_keys_mono t now ls :
  t ≤ now → NoDup (line_key <$> live_at t ls) → NoDup (line_key <$> live_at now ls).
Proof. intros Ht Hn. eapply sublist_NoDup; [exact Hn|]. by apply fmap_sublist, live_at_mono. Qed.

Lemma live_keys_NoDup t ls : NoDup (line_key <$> ls) → NoDup (line_key <$> live_at t ls).
Proof. intros Hn. eapply sublist_NoDup; [exact Hn|]. by apply fmap_sublist, sublist_filter. Qed.

Lemma disk_inv_purged t P now c :
  mem_inv c → disk_inv t P c → t ≤ now → disk_inv now P (purged c now).
Proof.
  intros Hinv (Hp & ls & Hh & Hsub & Hnd & Hgh) Ht.
  destruct (purged_spec c now Hinv) as (_ & d & Ho & Hf). split; [done|]. exists ls.
  split_and!; [done| |by eapply live_keys_mono|].
  - intros l Hl. apply Hsub. rewrite Ho. apply elem_of_app. by right.
  - intros l Hl. destruct (Hgh l) as [Hin|Hover]; [|rewrite Ho in Hin|by right].
    + eapply elem_of_sublist; [done|]. by apply live_at_mono.
    + apply elem_of_live in Hl as [Hlt _]. apply elem_of_app in Hin as [Hin|Hin]; [|by left].
      rewrite Forall_forall in Hf. apply Hf in Hin. lia.
Qed.

Lemma journal_text_snoc ls l : journal_text (ls ++ [l]) = journal_text ls ++ to_text l ++ [zb 10].
Proof.
  unfold journal_text. rewrite fmap_app, join_app. f_equal.
  rewrite <- (app_nil_r (to_text l ++ [zb 10])). done.
Qed.

(** A rewritten journal holds exactly the queue. *)
Lemma disk_inv_queue t P c :
  path c = true → mem_inv c → disk c = Some (journal_text (insertion_order (inner c))) → disk_inv t P c.
Proof.
  intros Hp [Hnd _] Hd. split; [done|]. exists (insertion_order (inner c)). rewrite Hd.
  split_and!; [done|done|by apply live_keys_NoDup|]. intros l [_ Hl]%elem_of_live. by left.
Qed.

(** Refusing the last entry of the queue for lack of room. *)
Lemma disk_inv_refused t P c l :
  disk_inv t P c → insertion_order (inner c) = removelast (insertion_order (inner c)) ++ [l] →
  max_journal_bytes c < journal_len (disk c) → disk_inv t P (rollback_entry c l).
Proof.
  intros (Hp & ls & Hh & Hsub & Hnd & Hgh) Ho Hover. split; [done|]. exists ls.
  split_and!; [done| |done|by right]. intros x Hx. apply Hsub. rewrite Ho. simpl in Hx.
  apply elem_of_app. by left.
Qed.

(** Appending the line of a new reservation. *)
Lemma disk_inv_append t P c l io :
  disk_inv t P c → journal_len (disk c) ≤ max_journal_bytes c → append_short io = None →
  line_key l ∉ line_key <$> insertion_order (inner c) →
  disk_inv t P (append_line (reserve_entry c l) l io).
Proof.
  intros (Hp & ls & Hh & Hsub & Hnd & Hgh) Hcap Hio Hk. unfold append_line. simpl. rewrite Hp, Hio.
  split; [done|]. exists (ls ++ [l]). simpl.
  assert (default [] (disk c) = journal_text ls) as -> by (destruct (disk c); simpl in *; by subst).
  split_and!.
  - by rewrite journal_text_snoc.
  - intros x [Hx|Hx]%elem_of_app HP; apply elem_of_app; [left; by apply Hsub|by right].
  - unfold live_at. rewrite filter_app, fmap_app. apply NoDup_app. split_and!; [done| |].
    + intros k (x & -> & Hx)%list_elem_of_fmap (y & Hy & Hin)%list_elem_of_fmap.
      apply list_elem_of_filter in Hin as [_ ->%list_elem_of_singleton].
      apply Hk. rewrite <- Hy. apply list_elem_of_fmap_2.
      destruct (Hgh x Hx); [done|lia].
    + rewrite filter_cons, filter_nil. destruct (decide _); simpl; [apply NoDup_singleton|constructor].
  - intros x [Hlt [Hx| ->%list_elem_of_singleton]%elem_of_app]%elem_of_live; left; [|set_solver].
    destruct (Hgh x) as [?|?]; [by apply elem_of_live|set_solver|lia].
Qed.

(** Reserving without journaling, allowed for a line that [P] does not ask for. *)
Lemma disk_inv_unjournaled t P c l d :
  disk_inv t P c → ¬ P l → d = disk c ∨ d = Some (default [] (disk c)) →
  disk_inv t P {| inner := inner (reserve_entry c l); path := path c;
                  max_journal_bytes := max_journal_bytes c; disk := d |}.
Proof.
  intros (Hp & ls & Hh & Hsub & Hnd & Hgh) HP Hd. split; [done|]. exists ls. simpl.
  assert (holds d ls ∧ journal_len d = journal_len (disk c)) as [Hh' Hlen].
  { destruct Hd as [->| ->]; [done|]. destruct (disk c); simpl in *; [done|]. by subst. }
  rewrite Hlen. split_and!; [done| |done|].
  - intros x [Hx| ->%list_elem_of_singleton]%elem_of_app HPx; [by apply Hsub|done].
  - intros x Hx. destruct (Hgh x Hx); [left; apply elem_of_app; by left|by right].
Qed.

(** One call keeps the invariant, when all its file operations succeed or the
    line it would add is not one that [P] asks for. *)
Lemma check_and_reserve_disk P c ag no now ret io :
  mem_inv c → disk_inv now P (purged c now) → not_torn io →
  (rewrite_ok io = true ∧ append_short io = None) ∨
    (seen (inner (purged c now)) !! (ag, no) = None → ¬ P (new_line ag no now ret)) →
  disk_inv now P (check_and_reserve c ag no now ret io).2.
Proof.
  intros Hinv Hd0 Htorn Hio. destruct (purged_spec c now Hinv) as [Hinv0 _].
  pose proof (proj1 Hd0) as Hp. change (path (purged c now)) with (path c) in Hp.
  unfold check_and_reserve. fold (purged c now). fold (new_line ag no now ret).
  set (l := new_line ag no now ret) in *. change (ag, no) with (line_key l) in Hio.
  destruct (seen (inner (purged c now)) !! line_key l) as [e|] eqn:Hl; [done|].
  pose proof (reserve_inv _ _ Hinv0 Hl) as Hinv1. rewrite Hp.
  destruct (_ || _) eqn:Hj.
  - destruct (rewrite_ok io) eqn:Hrw.
    + set (c2 := rewrite_journal (reserve_entry (purged c now) l) io).
      assert (c2 = rewrite_journal (reserve_entry (purged c now) l) io) as Hc2 by done.
      unfold rewrite_journal in Hc2. simpl in Hc2. rewrite Hp, Hrw in Hc2. simpl in Hc2.
      assert (disk_inv now P c2) as Hd2.
      { apply disk_inv_queue; rewrite Hc2; [done| |done]. exact Hinv1. }
      destruct (max_journal_bytes c <? journal_len (disk c2)) eqn:Hcap; cbn [snd]; [|exact Hd2].
      apply disk_inv_refused; [exact Hd2| |].
      * rewrite Hc2. simpl. by rewrite removelast_last.
      * bool_to_prop. rewrite Hc2 in *. exact Hcap.
    + unfold rewrite_journal. rewrite Hrw, andb_false_r. cbn [disk reserve_entry set_inner].
      destruct (max_journal_bytes c <? _) eqn:Hcap; cbn [snd].
      * destruct (rollback_reserve (purged c now) l io false Hinv0 Hl) as [_ Ho].
        destruct Hd0 as (Hp0 & ls & Hh & Hsub & Hnd & Hgh). split; [done|]. exists ls. by rewrite Ho.
      * destruct Hio as [[Hr _]|HP]; [done|].
        apply (disk_inv_unjournaled now P (purged c now) l); [done|by apply HP|by left].
  - apply orb_false_iff in Hj as [Hcap _]. simpl in Hcap. cbn [disk].
    change (disk (reserve_entry (purged c now) l)) with (disk c). rewrite Hcap. cbn [snd].
    bool_to_prop. destruct Htorn as [Hap|Hap].
    + apply disk_inv_append; [done|done|done|].
      apply entry_map_None. destruct Hinv0 as [_ Hm]. unfold entry_map. by rewrite <- Hm.
    + destruct Hio as [[_ Ha]|HP]; [congruence|]. unfold append_line. simpl. rewrite Hp, Hap.
      rewrite take_0, app_nil_r, <- Hp.
      apply (disk_inv_unjournaled now P (purged c now) l); [done|by apply HP|by right].
Qed.

(** Opening such a journal succeeds and keeps every live reservation that [P]
    asks for. *)
Lemma open_good t P c now io :
  disk_inv t P c → t ≤ now →
  ∃ c', open (disk c) now io = Ok c' ∧ mem_inv c' ∧
    (∀ cap, disk_inv now P (with_journal_cap c' cap)) ∧
    (∀ l, l ∈ insertion_order (inner c) → P l → now < expires_unix l → l ∈ insertion_order (inner c')).
Proof.
  intros (Hp & ls & Hh & Hsub & Hnd & Hgh) Ht.
  pose proof (live_keys_mono _ _ _ Ht Hnd) as Hnd'.
  unfold open. rewrite (read_lines_holds _ _ Hh).
  rewrite (load_lines_texts now ls 0 ∅ []) by done. cbn [app mbind result_bind].
  assert (∀ c' : ReplayCache, path c' = true → insertion_order (inner c') = live_at now ls →
    seen (inner c') = entry_map (live_at now ls) →
    disk c' = disk c ∨ disk c' = Some (journal_text (live_at now ls)) →
    mem_inv c' ∧ (∀ cap, disk_inv now P (with_journal_cap c' cap)) ∧
    (∀ l, l ∈ insertion_order (inner c) → P l → now < expires_unix l →
       l ∈ insertion_order (inner c'))) as Hgoal.
  { intros c' Hp' Ho Hs Hdk. assert (mem_inv c') as Hm by (unfold mem_inv; rewrite Ho, Hs; done).
    split_and!; [done| |].
    - intros cap. destruct Hdk as [Hdk|Hdk]; [|apply disk_inv_queue; simpl; [done|done|congruence]].
      split; [done|]. exists ls. simpl. rewrite Hdk, Ho. split_and!; [done| |done|by left].
      by intros l [_ ?]%elem_of_live.
    - intros l Hin HP Hlt. rewrite Ho. apply elem_of_live. split; [lia|by apply Hsub]. }
  unfold rewrite_journal. cbn [path]. destruct (_ && _); [destruct (rewrite_ok io)|];
    eexists; (split; [reflexivity|]); apply Hgoal; simpl; auto.
Qed.

(** ** Properties *)

(** One call of [check_and_reserve], with the clock and the disk it meets. *)
Record call : Type := { k_agent : str; k_nonce : str; k_now : Z; k_retention : Z; k_io : Io }.

Definition run_call (c : ReplayCache) (k : call) : ReplayCache :=
  (check_and_reserve c (k_agent k) (k_nonce k) (k_now k) (k_retention k) (k_io k)).2.

Lemma held_calls ks c k e :
  mem_inv c → held c k e → Forall (λ q, k_now q < e) ks →
  let c' := fold_left run_call ks c in mem_inv c' ∧ held c' k e.
Proof.
  revert c. induction ks as [|q ks IH]; intros c Hinv Hh Hf; [done|].
  apply Forall_cons in Hf as [Hq Hf]. simpl. apply IH; [| |done].
  - by apply check_and_reserve_mem.
  - by apply held_step.
Qed.

Lemma fresh_held c ag no now ret io c1 :
  mem_inv c → check_and_reserve c ag no now ret io = (Fresh, c1) →
  mem_inv c1 ∧ held c1 (ag, no) (i64_saturating_add now ret).
Proof.
  intros Hinv He. destruct (check_and_reserve_mem c ag no now ret io Hinv) as (Hi & _ & Hr).
  rewrite He in Hi, Hr. simpl in *. split; [done|]. destruct Hr as [_ Ho].
  exists (new_line ag no now ret). rewrite Ho. set_solver.
Qed.

(** A nonce reserved by [check_and_reserve] is refused as a duplicate
    until its retention ends.  This holds for every sequence of intervening
    calls (other agents, other nonces, refusals, any clock readings before the
    expiry) and whatever the disk does. *)
Theorem nonce_refused_until_expiry c ag no now ret io c1 ks now' ret' io' :
  mem_inv c → check_and_reserve c ag no now ret io = (Fresh, c1) →
  Forall (λ q, k_now q < i64_saturating_add now ret) ks →
  now' < i64_saturating_add now ret →
  (check_and_reserve (fold_left run_call ks c1) ag no now' ret' io').1 = Duplicate.
Proof.
  intros Hinv He Hks Hnow. destruct (fresh_held _ _ _ _ _ _ _ Hinv He) as [Hi1 Hh1].
  destruct (held_calls ks c1 _ _ Hi1 Hh1 Hks) as [Hi2 Hh2].
  by apply (held_step _ _ _ ag no now' ret' io' Hi2 Hh2 Hnow).
Qed.

(** A daemon's history: calls, and restarts that reopen the journal with some
    size cap; each with the outcome of its file operations. *)
Inductive event : Type :=
| EvCall (ag no : str) (now ret : Z) (io : Io)
| EvRestart (now cap : Z) (io : Io).

Definition ev_time (ev : event) : Z := match ev with EvCall _ _ t _ _ | EvRestart t _ _ => t end.
Definition ev_io (ev : event) : Io := match ev with EvCall _ _ _ _ io | EvRestart _ _ io => io end.

Definition run_event (c : ReplayCache) (ev : event) : result ReplayCacheError ReplayCache :=
  match ev with
  | EvCall ag no now ret io => Ok (check_and_reserve c ag no now ret io).2
  | EvRestart now cap io => (λ c', with_journal_cap c' cap) <$> open (disk c) now io
  end.

Fixpoint run_events (c : ReplayCache) (evs : list event) : result ReplayCacheError ReplayCache :=
  match evs with
  | [] => Ok c
  | ev :: rest => c' ← run_event c ev; run_events c' rest
  end.

(** The clock does not run backwards. *)
Fixpoint clock_ok (t : Z) (evs : list event) : Prop :=
  match evs with [] => True | ev :: rest => t ≤ ev_time ev ∧ clock_ok (ev_time ev) rest end.

(** The journal covers the reservations of one key. *)
Definition covers (t : Z) (k : str * str) : ReplayCache → Prop := disk_inv t (λ l, line_key l = k).

Lemma run_event_good t c ev k e :
  mem_inv c → covers t k c → held c k e → t ≤ ev_time ev → ev_time ev < e → not_torn (ev_io ev) →
  ∃ c', run_event c ev = Ok c' ∧ mem_inv c' ∧ covers (ev_time ev) k c' ∧ held c' k e.
Proof.
  intros Hinv Hd Hh Ht Hlt Hio. destruct ev as [ag no now ret io|now cap io]; simpl in *.
  - eexists. split; [done|]. split_and!.
    + by apply check_and_reserve_mem.
    + apply check_and_reserve_disk; [done|by apply (disk_inv_purged t)|done|]. right. intros Hn Hk.
      pose proof (held_purged _ _ _ _ Hinv Hh Hlt) as Hh0.
      destruct (purged_spec c now Hinv) as [Hinv0 _]. pose proof (held_seen _ _ _ Hinv0 Hh0) as Hs.
      simpl in Hk. unfold line_key in Hk. simpl in Hk. subst k. rewrite Hn in Hs. discriminate Hs.
    + by apply held_step.
  - destruct (open_good t _ c now io Hd Ht) as (c' & Ho & Hm & Hd' & Hl). rewrite Ho. simpl.
    eexists. split; [done|]. split_and!; [done|by apply Hd'|].
    destruct Hh as (l & Hin & Hk & He). exists l. split; [|done]. apply Hl; [done|done|lia].
Qed.

Lemma run_events_good evs t c k e :
  mem_inv c → covers t k c → clock_ok t evs → held c k e → Forall (λ ev, ev_time ev < e) evs →
  Forall (λ ev, not_torn (ev_io ev)) evs →
  ∃ c', run_events c evs = Ok c' ∧ mem_inv c' ∧ held c' k e.
Proof.
  revert t c. induction evs as [|ev evs IH]; intros t c Hinv Hd Hck Hh Hf Ho; simpl; [eauto|].
  destruct Hck as [Ht Hck]. apply Forall_cons in Hf as [Hlt Hf]. apply Forall_cons in Ho as [Hio Ho].
  destruct (run_event_good t c ev k e Hinv Hd Hh Ht Hlt Hio) as (c' & -> & Hm & Hd' & Hh').
  simpl. by apply (IH (ev_time ev)).
Qed.

(** A reservation whose file operations succeed is covered afterwards. *)
Lemma fresh_covers t c ag no now ret c1 :
  mem_inv c → disk_inv t (λ _, False) c → t ≤ now →
  check_and_reserve c ag no now ret io_good = (Fresh, c1) → covers now (ag, no) c1.
Proof.
  intros Hinv Hd Ht He. destruct (purged_spec c now Hinv) as [[_ Hm] _].
  destruct (disk_inv_purged t _ now c Hinv Hd Ht) as (Hp & ls & Hh & _ & Hnd & Hgh).
  destruct (check_and_reserve_mem c ag no now ret io_good Hinv) as (_ & _ & Hr). rewrite He in Hr.
  destruct Hr as [Hn _]. cbn zeta in Hn.
  change c1 with (Fresh, c1).2. rewrite <- He. apply check_and_reserve_disk; [done| |by left|by left].
  split; [done|]. exists ls. split_and!; [done| |done|done]. intros l Hin Hk. exfalso.
  fold (entry_map (insertion_order (inner (purged c now)))) in Hm. rewrite Hm in Hn.
  apply entry_map_None in Hn. apply Hn. rewrite <- Hk. by apply list_elem_of_fmap_2.
Qed.


(** A call never invents or loses a reservation.  What is reserved
    afterwards is what had not expired before, plus the new entry exactly when
    the answer is [Fresh]; an unseen nonce is [Fresh] in memory-only mode, and
    a refusal for capacity happens only while the journal is over its cap. *)
Theorem reservation_outcomes c ag no now ret io :
  mem_inv c →
  let r := check_and_reserve c ag no now ret io in
  let live := insertion_order (inner (purged c now)) in
  (∀ l, l ∈ insertion_order (inner c) → now < expires_unix l → l ∈ live) ∧
  (r.1 = Duplicate ↔ (ag, no) ∈ line_key <$> live) ∧
  (r.1 = Fresh → insertion_order (inner r.2) = live ++ [new_line ag no now ret]) ∧
  (r.1 ≠ Fresh → insertion_order (inner r.2) = live) ∧
  (r.1 = CapacityFull → path c = true ∧ max_journal_bytes r.2 < journal_len (disk r.2)).
Proof.
  intros Hinv r live. destruct (purged_spec c now Hinv) as ([Hnd0 Hm0] & d & Ho & Hf).
  destruct (check_and_reserve_mem c ag no now ret io Hinv) as (_ & _ & Hr). fold r in Hr.
  fold (entry_map live) in Hm0. cbn zeta in Hr.
  assert (seen (inner (purged c now)) !! (ag, no) = None ↔ (ag, no) ∉ line_key <$> live) as Hn
    by (rewrite Hm0; apply entry_map_None).
  assert ((ag, no) ∈ line_key <$> live ∨ (ag, no) ∉ line_key <$> live) as Hdec
    by (destruct (decide ((ag, no) ∈ line_key <$> live)); auto).
  split; [|split; [|split; [|split]]].
  - intros l Hl Hlt. rewrite Ho in Hl. apply elem_of_app in Hl as [Hl|Hl]; [|done].
    rewrite Forall_forall in Hf. apply Hf in Hl. lia.
  - destruct r as [[] c']; simpl in *; split; try done; try tauto.
    intros _. destruct Hr as [[e He] _]. destruct Hdec as [|Hno]; [done|]. apply Hn in Hno. congruence.
  - intros Hfr. rewrite Hfr in Hr. by destruct Hr.
  - intros Hne. destruct r as [[] c']; simpl in *; [done|by destruct Hr as [_ ->]|tauto].
  - clear Hr Hdec Hn. subst r. unfold check_and_reserve.
    destruct (_ !! _); [done|]. destruct (path c) eqn:Hp; [|done].
    set (j := _ || _). set (c2 := if j then _ else _).
    assert (max_journal_bytes c2 = max_journal_bytes c) as Hmx.
    { subst c2. destruct j; [|done]. unfold rewrite_journal. by destruct (_ && _). }
    destruct (max_journal_bytes c <? journal_len (disk c2)) eqn:Hcap; [|done].
    intros _. split; [done|]. bool_to_prop. simpl. lia.
Qed.
End Cache.

#[global] Program Instance journal_line_countable : Countable JournalLine :=
  inj_countable' (λ l, (agent l, nonce l, expires_unix l))
    (λ t, {| agent := t.1.1; nonce := t.1.2; expires_unix := t.2 |}) _.
Next Obligation. by intros []. Qed.

Section Witnesses.
#[local] Existing Instance toy_serde.
#[local] Existing Instance toy_serde_line.

Lemma in_memory_inv : mem_inv in_memory.
Proof. split; [constructor|done]. Qed.

Definition opened : ReplayCache :=
  {| inner := {| seen := ∅; insertion_order := []; journal_lines_written := 0 |};
     path := true; max_journal_bytes := DEFAULT_MAX_JOURNAL_BYTES; disk := None |}.

Lemma opened_inv : mem_inv opened ∧ disk_inv 100 (λ _, False) opened.
Proof.
  split; [split; [constructor|done]|]. split; [done|]. exists [].
  split_and!; [done|done|constructor|]. intros l Hl. by apply elem_of_nil in Hl.
Qed.

Lemma nonce_refused_until_expiry_witness :
  let c1 := (check_and_reserve in_memory "a" "n" 100 90 io_good).2 in
  (check_and_reserve (fold_left run_call
     [{| k_agent := "b"; k_nonce := "n"; k_now := 150; k_retention := 90; k_io := io_good |}] c1)
     "a" "n" 189 90 io_good).1 = Duplicate.
Proof.
  apply (nonce_refused_until_expiry in_memory "a" "n" 100 90 io_good).
  - apply in_memory_inv.
  - vm_compute. reflexivity.
  - repeat constructor.
  - vm_compute. reflexivity.
Defined.

(** No file operation happens. *)
Definition io_bad : Io := {| rewrite_ok := false; append_short := Some 0%nat |}.

(** A history with failing file operations and two restarts. *)
Definition toy_events : list event :=
  [EvRestart 120 1024 io_bad; EvCall "b" "m" 130 90 io_bad; EvRestart 140 512 io_good].


(** A nonce whose append failed is protected by memory only: it is refused
    while the daemon runs and accepted again after a restart, well before its
    retention ends. *)
Theorem unwritten_nonce_forgotten :
  let c1 := (check_and_reserve opened "a" "n" 100 90 io_bad).2 in
  (check_and_reserve opened "a" "n" 100 90 io_bad).1 = Fresh ∧
  (check_and_reserve c1 "a" "n" 110 90 io_good).1 = Duplicate ∧
  ∃ c2, run_events c1 [EvRestart 120 1024 io_good] = Ok c2 ∧
        (check_and_reserve c2 "a" "n" 121 90 io_good).1 = Fresh.
Proof.
  intros c1. split; [vm_compute; reflexivity|]. split; [vm_compute; reflexivity|].
  exists (match run_events c1 [EvRestart 120 1024 io_good] with Ok c => c | Err _ => opened end).
  split; vm_compute; reflexivity.
Qed.

Lemma reservation_outcomes_witness :
  insertion_order (inner (check_and_reserve in_memory "a" "n" 100 90 io_good).2) =
  [new_line "a" "n" 100 90].
Proof.
  destruct (reservation_outcomes in_memory "a" "n" 100 90 io_good in_memory_inv) as (_ & _ & Hf & _).
  rewrite Hf; [reflexivity|]. vm_compute. reflexivity.
Defined.

(** A refused reservation does reach the disk: compaction runs with the new
    entry already queued, so the journal that is left behind names it. *)
Theorem refused_reservation_is_journaled :
  ∃ c c' : ReplayCache, check_and_reserve c "a" "m" 100 90 io_good = (CapacityFull, c') ∧
    disk c' = Some (journal_text [new_line "a" "n" 100 90; new_line "a" "m" 100 90]) ∧
    insertion_order (inner c') = [new_line "a" "n" 100 90].
Proof.
  set (c0 := (check_and_reserve (with_journal_cap opened 10) "a" "n" 100 90 io_good).2).
  exists c0, (check_and_reserve c0 "a" "m" 100 90 io_good).2.
  split_and!; vm_compute; reflexivity.
Qed.
End Witnesses.
