(* ===== verification/Identity.v ===== *)
(** The attestation front door: [crates/identity/src/lib.rs].

    [verify] takes one message through the ordered checks of the protocol:
    version, enrolled agent, freshness, nonce reservation, signature over the
    canonical form.  The theorems characterise exactly what is accepted, what
    each failure reports and touches, and that a signed message is accepted
    at most once over any history of verifications. *)

From S2P Require Import Prelude Strs Json Extern Toy Protocol Enrollment Replay.
#[local] Open Scope Z_scope.

Record IdentityConfig : Type := { max_skew_secs : Z }.

Definition default_config : IdentityConfig := {| max_skew_secs := 30 |}.

Inductive IdentityError : Type :=
| IdVersion (v : str)
| IdUnknownAgent (id : str)
| IdReplay (why : str)
| IdBadSignature.

(** [IdentityError::error_code]. *)
Definition identity_error_code (e : IdentityError) : ErrorCode :=
  match e with
  | IdVersion _ => Version
  | IdUnknownAgent _ => UnknownAgent
  | IdReplay _ => Replay
  | IdBadSignature => BadSignature
  end.

(** [check_version]: exactly two dot-separated parts, the first ["0"]. *)
Definition check_version (v : option str) : result IdentityError unit :=
  match v with
  | None => Err (IdVersion "<missing>")
  | Some version =>
      match split Byte.x2e version with
      | [major; _] => if decide (major = "0") then Ok tt else Err (IdVersion version)
      | _ => Err (IdVersion version)
      end
  end.

Section Attest.
Context `{Base64, Ed25519, SerdeText StoreFile, SerdeLine JournalLine, JsonText, TimeApi, DebugFmt}.

(** [IdentityError::reason]. *)
Definition identity_reason (e : IdentityError) : str :=
  match e with
  | IdVersion v => "unsupported protocol version " ++ debug_str v
  | IdUnknownAgent id => "agent " ++ id ++ " is not enrolled"
  | IdReplay why => "freshness check failed: " ++ why
  | IdBadSignature => "signature did not verify"
  end.

Record VerifiedIntent : Type := {
  v_agent_id : str;
  v_envelope : Value;
  v_issued_at : Z;
  v_nonce : str;
}.

Record Attestor : Type := {
  enrollment : EnrollmentStore;
  replay : ReplayCache;
  config : IdentityConfig;
}.

(** [Attestor::sponsor_id]. *)
Definition attestor_sponsor_id (a : Attestor) (id : str) : option str :=
  sponsor_id_of (enrollment a) id.

(** [check_freshness]: instants are nanoseconds since the epoch. *)
Definition check_freshness (issued_at : option str) (now skew : Z) : result IdentityError Z :=
  match issued_at with
  | None => Err (IdReplay "missing issued_at")
  | Some raw =>
      parsed ← ok_or (parse_rfc3339 raw) (IdReplay "issued_at is not RFC 3339");
      if skew <? Z.abs (whole_seconds (now - parsed))
      then Err (IdReplay "issued_at outside allowed skew")
      else Ok parsed
  end.

Definition nonempty_str (o : option str) : option str :=
  match o with Some [] | None => None | Some s => Some s end.

(** Steps 0, 1 and 2a of [verify]: version, agent and key, freshness, nonce. *)
Definition admit_message (a : Attestor) (m : Map) (now : Z)
  : result IdentityError (str * VerifyingKey * Z * str) :=
  _ ← check_version (map_get "chaperone" m ≫= as_str);
  agent_id ← ok_or (nonempty_str (map_get "agent_id" m ≫= as_str)) (IdUnknownAgent "<unnamed>");
  vk ← ok_or (lookup_key (enrollment a) agent_id) (IdUnknownAgent agent_id);
  issued_at ← check_freshness (map_get "issued_at" m ≫= as_str) now (max_skew_secs (config a));
  nonce ← ok_or (nonempty_str (map_get "nonce" m ≫= as_str)) (IdReplay "missing nonce");
  Ok (agent_id, vk, issued_at, nonce).

(** Step 3 of [verify]: the signature over the canonical form. *)
Definition check_signature (vk : VerifyingKey) (m : Map) : result IdentityError unit :=
  encoded_sig ← ok_or (map_get "sig" m ≫= as_str) IdBadSignature;
  sig_bytes ← map_err (λ _, IdBadSignature) (decode_signature encoded_sig);
  if decide (length sig_bytes = 64%nat) then
    canon ← map_err (λ _, IdBadSignature) (canonical_form (Object m));
    if sig_verify_strict vk canon sig_bytes then Ok tt else Err IdBadSignature
  else Err IdBadSignature.

(** [Attestor::verify]. *)
Definition verify (a : Attestor) (message : Value) (now : Z) (io : Io)
  : result IdentityError VerifiedIntent * Attestor :=
  match as_object message with
  | None => (Err IdBadSignature, a)
  | Some m =>
      match admit_message a m now with
      | Err e => (Err e, a)
      | Ok (agent_id, vk, issued_at, nonce) =>
          let retention := i64_saturating_mul (max_skew_secs (config a)) 3 in
          let '(r, cache) := check_and_reserve (replay a) agent_id nonce (unix_timestamp now) retention io in
          let a' := {| enrollment := enrollment a; replay := cache; config := config a |} in
          match r with
          | Duplicate => (Err (IdReplay "nonce already used"), a')
          | CapacityFull => (Err (IdReplay "replay cache at capacity"), a')
          | Fresh =>
              match check_signature vk m with
              | Err e => (Err e, a')
              | Ok _ => (Ok {| v_agent_id := agent_id; v_envelope := message;
                               v_issued_at := issued_at; v_nonce := nonce |}, a')
              end
          end
      end
  end.

(** ** What is accepted *)

Lemma check_version_ok v :
  check_version v = Ok tt ↔ ∃ minor, v = Some ("0." ++ minor) ∧ Byte.x2e ∉ minor.
Proof.
  unfold check_version. split.
  - destruct v as [s|]; [|done]. pose proof (join_split Byte.x2e s) as Hj.
    pose proof (split_pieces Byte.x2e s) as Hp.
    destruct (split Byte.x2e s) as [|x [|y [|]]]; try done.
    case_decide as Hx; [|done]. intros _. exists y. subst. split; [done|].
    by inversion_clear Hp as [|?? _ Hp']; inversion_clear Hp'.
  - intros (minor & -> & Hn). change ("0." ++ minor) with ("0" ++ Byte.x2e :: minor).
    rewrite split_app_sep by (vm_compute; set_solver). by rewrite split_no_sep.
Qed.

Lemma check_freshness_ok o now skew t :
  check_freshness o now skew = Ok t ↔
  ∃ raw, o = Some raw ∧ parse_rfc3339 raw = Some t ∧ Z.abs (whole_seconds (now - t)) ≤ skew.
Proof.
  unfold check_freshness. destruct o as [raw|]; [|naive_solver].
  destruct (parse_rfc3339 raw) as [p|] eqn:Hp; simpl; [|naive_solver].
  destruct (skew <? _) eqn:Hs; bool_to_prop.
  - split; [done|]. intros (? & [= <-] & ? & ?). simplify_eq. lia.
  - split; [intros [= <-]; eauto|]. intros (? & [= <-] & ? & ?). congruence.
Qed.

Lemma check_freshness_error o now skew e :
  check_freshness o now skew = Err e → identity_error_code e = Replay.
Proof.
  unfold check_freshness. destruct o as [raw|]; [|by intros [= <-]].
  destruct (parse_rfc3339 raw); simpl; [|by intros [= <-]]. destruct (_ <? _); by intros [= <-].
Qed.

Lemma nonempty_str_Some o s : nonempty_str o = Some s ↔ o = Some s ∧ s ≠ [].
Proof. destruct o as [[|]|]; simpl; naive_solver. Qed.

(** The message [m] passes every check of steps 0 to 2a at time [now]. *)
Record admitted (a : Attestor) (m : Map) (now : Z) (id : str) (vk : VerifyingKey) (issued : Z)
    (no : str) : Prop := {
  adm_version : ∃ minor, map_get "chaperone" m ≫= as_str = Some ("0." ++ minor) ∧ Byte.x2e ∉ minor;
  adm_agent : map_get "agent_id" m ≫= as_str = Some id ∧ id ≠ [];
  adm_key : lookup_key (enrollment a) id = Some vk;
  adm_issued : ∃ raw, map_get "issued_at" m ≫= as_str = Some raw ∧ parse_rfc3339 raw = Some issued;
  adm_fresh : Z.abs (whole_seconds (now - issued)) ≤ max_skew_secs (config a);
  adm_nonce : map_get "nonce" m ≫= as_str = Some no ∧ no ≠ [];
}.

Lemma admit_message_ok a m now id vk issued no :
  admit_message a m now = Ok (id, vk, issued, no) ↔ admitted a m now id vk issued no.
Proof.
  unfold admit_message. split.
  - intros ([] & Hv & Hr)%result_bind_ok. apply result_bind_ok in Hr as (id' & Hid & Hr).
    apply result_bind_ok in Hr as (vk' & Hvk & Hr). apply result_bind_ok in Hr as (t & Ht & Hr).
    apply result_bind_ok in Hr as (no' & Hno & [= -> -> -> ->]).
    apply ok_or_ok, nonempty_str_Some in Hid. apply ok_or_ok in Hvk.
    apply ok_or_ok, nonempty_str_Some in Hno. apply check_freshness_ok in Ht as (raw & ? & ? & ?).
    apply check_version_ok in Hv. split; eauto.
  - intros [Hv Hid Hk (raw & Hraw & Hi) Hf Hno].
    apply check_version_ok in Hv. rewrite Hv. simpl.
    apply nonempty_str_Some in Hid, Hno. rewrite Hid. simpl. rewrite Hk. simpl.
    assert (check_freshness (map_get "issued_at" m ≫= as_str) now (max_skew_secs (config a)) = Ok issued)
      as -> by (apply check_freshness_ok; eauto).
    simpl. by rewrite Hno.
Qed.

(** The signature of [m] is a strict Ed25519 signature under [vk] of its
    canonical form without the [sig] field. *)
Definition signed_by (vk : VerifyingKey) (m : Map) : Prop :=
  ∃ enc sg canon, map_get "sig" m = Some (String enc) ∧ b64url_decode enc = Ok sg ∧
    length sg = 64%nat ∧ canonical (Object (map_remove "sig" m)) = Ok canon ∧
    sig_verify_strict vk canon sg = true.

Lemma check_signature_ok vk m : check_signature vk m = Ok tt ↔ signed_by vk m.
Proof.
  unfold check_signature, signed_by, decode_signature, canonical_form, canonical_form_excluding.
  cbn [as_object fold_left]. split.
  - intros (enc & He & Hr)%result_bind_ok. apply result_bind_ok in Hr as (sg & Hs & Hr).
    apply ok_or_ok in He. case_decide as Hl; [|done].
    apply result_bind_ok in Hr as (canon & Hc & Hr).
    destruct (sig_verify_strict vk canon sg) eqn:Hv; [|done].
    exists enc, sg, canon. destruct (map_get "sig" m) as [[]|]; simplify_eq/=.
    destruct (b64url_decode _); simplify_eq/=. by destruct (canonical _); simplify_eq/=.
  - intros (enc & sg & canon & -> & Hd & Hl & Hc & Hv). simpl. rewrite Hd. simpl.
    rewrite decide_True by done. rewrite Hc. simpl. by rewrite Hv.
Qed.

Lemma check_signature_error vk m e : check_signature vk m = Err e → e = IdBadSignature.
Proof.
  unfold check_signature. destruct (map_get "sig" m ≫= as_str); simpl; [|by intros [= <-]].
  destruct (decode_signature _); simpl; [|by intros [= <-]].
  case_decide; [|by intros [= <-]]. destruct (canonical_form _); simpl; [|by intros [= <-]].
  destruct (sig_verify_strict _ _ _); by intros [= <-].
Qed.

Definition retention_of (a : Attestor) : Z := i64_saturating_mul (max_skew_secs (config a)) 3.

Definition reserve (a : Attestor) (id no : str) (now : Z) (io : Io) : Reservation * ReplayCache :=
  check_and_reserve (replay a) id no (unix_timestamp now) (retention_of a) io.

Definition with_cache (a : Attestor) (c : ReplayCache) : Attestor :=
  {| enrollment := enrollment a; replay := c; config := config a |}.

Lemma verify_admitted a m now io id vk issued no :
  admitted a m now id vk issued no →
  verify a (Object m) now io =
    let '(r, c) := reserve a id no now io in
    (match r with
     | Fresh => _ ← check_signature vk m;
                Ok {| v_agent_id := id; v_envelope := Object m; v_issued_at := issued; v_nonce := no |}
     | Duplicate => Err (IdReplay "nonce already used")
     | CapacityFull => Err (IdReplay "replay cache at capacity")
     end, with_cache a c).
Proof.
  intros Ha%admit_message_ok. unfold verify. simpl. rewrite Ha. unfold reserve, retention_of.
  destruct (check_and_reserve _ _ _ _ _ _) as [[] c]; [|done|done].
  by destruct (check_signature vk m).
Qed.

Lemma verify_not_admitted a m now io e :
  admit_message a m now = Err e → verify a (Object m) now io = (Err e, a).
Proof. unfold verify. simpl. by intros ->. Qed.

Lemma verify_ok_iff a message now io v a' :
  verify a message now io = (Ok v, a') ↔
  ∃ m vk, message = Object m ∧ v_envelope v = message ∧
    admitted a m now (v_agent_id v) vk (v_issued_at v) (v_nonce v) ∧
    reserve a (v_agent_id v) (v_nonce v) now io = (Fresh, replay a') ∧
    signed_by vk m ∧ enrollment a' = enrollment a ∧ config a' = config a.
Proof.
  split.
  - intros Hv. destruct message as [| | | | |m]; try done.
    destruct (admit_message a m now) as [[[[id vk] issued] no]|e] eqn:Ha.
    2:{ rewrite (verify_not_admitted _ _ _ _ _ Ha) in Hv. done. }
    apply admit_message_ok in Ha. rewrite (verify_admitted _ _ _ _ _ _ _ _ Ha) in Hv.
    destruct (reserve a id no now io) as [[] c] eqn:Hr; [|done|done].
    destruct (check_signature vk m) as [[]|] eqn:Hs; [|done]. simplify_eq/=.
    apply check_signature_ok in Hs. exists m, vk. by split_and!.
  - intros (m & vk & -> & Henv & Ha & Hr & Hs & Hen & Hcf).
    rewrite (verify_admitted _ _ _ _ _ _ _ _ Ha), Hr.
    apply check_signature_ok in Hs. rewrite Hs. simpl.
    destruct v, a'; simpl in *; by subst.
Qed.

(** ** Properties *)

(** C5: [verify] accepts a message exactly when it is an object with version
    [0.x], from a live enrolled agent, issued within the allowed skew, with a
    nonce that could be reserved, and with a strict signature by that agent's
    enrolled key over the canonical form without [sig]; the verified intent
    carries those very fields and the only state change is the reservation. *)
Theorem verify_accepts_exactly a message now io v a' :
  verify a message now io = (Ok v, a') ↔
  ∃ m vk, message = Object m ∧ v_envelope v = message ∧
    admitted a m now (v_agent_id v) vk (v_issued_at v) (v_nonce v) ∧
    reserve a (v_agent_id v) (v_nonce v) now io = (Fresh, replay a') ∧
    signed_by vk m ∧ enrollment a' = enrollment a ∧ config a' = config a.
Proof. apply verify_ok_iff. Qed.

Definition version_ok (m : Map) : Prop :=
  ∃ minor, map_get "chaperone" m ≫= as_str = Some ("0." ++ minor) ∧ Byte.x2e ∉ minor.

Definition agent_known (a : Attestor) (m : Map) : Prop :=
  ∃ id, map_get "agent_id" m ≫= as_str = Some id ∧ id ≠ [] ∧ is_Some (lookup_key (enrollment a) id).

(** The error code a message earns, read off the specification: the first
    step that fails decides. *)
Definition earns (a : Attestor) (m : Map) (now : Z) (io : Io) (c : ErrorCode) : Prop :=
  match c with
  | Version => ¬ version_ok m
  | UnknownAgent => version_ok m ∧ ¬ agent_known a m
  | Replay => version_ok m ∧ agent_known a m ∧
      ¬ ∃ id vk issued no, admitted a m now id vk issued no ∧ (reserve a id no now io).1 = Fresh
  | BadSignature => ∃ id vk issued no, admitted a m now id vk issued no ∧
      (reserve a id no now io).1 = Fresh ∧ ¬ signed_by vk m
  | _ => False
  end.

Lemma admit_message_error a m now e :
  admit_message a m now = Err e →
  match identity_error_code e with
  | Version => ¬ version_ok m
  | UnknownAgent => version_ok m ∧ ¬ agent_known a m
  | Replay => version_ok m ∧ agent_known a m ∧ ¬ ∃ id vk issued no, admitted a m now id vk issued no
  | _ => False
  end.
Proof.
  intros He. assert (¬ ∃ id vk issued no, admitted a m now id vk issued no) as Hna.
  { intros (? & ? & ? & ? & Ha%admit_message_ok). congruence. }
  revert He. unfold admit_message.
  destruct (check_version _) as [[]|ev] eqn:Hv; simpl.
  2:{ intros [= <-]. assert (identity_error_code ev = Version) as ->.
      { revert Hv. unfold check_version. repeat case_match; intros [= <-]; done. }
      intros Hok. apply check_version_ok in Hok. congruence. }
  apply check_version_ok in Hv. fold (version_ok m) in Hv.
  destruct (nonempty_str (map_get "agent_id" m ≫= as_str)) as [id|] eqn:Hid; simpl.
  2:{ intros [= <-]. split; [done|]. intros (id & Hg & Hne & _).
      assert (nonempty_str (map_get "agent_id" m ≫= as_str) = Some id) by (by apply nonempty_str_Some).
      congruence. }
  apply nonempty_str_Some in Hid as [Hid Hne].
  destruct (lookup_key (enrollment a) id) as [vk|] eqn:Hk; simpl.
  2:{ intros [= <-]. split; [done|]. intros (id' & Hg & _ & [? ?]). congruence. }
  assert (agent_known a m) by (exists id; eauto).
  destruct (check_freshness (map_get "issued_at" m ≫= as_str) now (max_skew_secs (config a)))
    as [t|ef] eqn:Hf; simpl.
  2:{ intros [= <-]. assert (identity_error_code ef = Replay) as ->; [by eapply check_freshness_error|done]. }
  destruct (nonempty_str _); simpl; [done|]. by intros [= <-].
Qed.

Lemma admitted_known a m now id vk issued no :
  admitted a m now id vk issued no → version_ok m ∧ agent_known a m.
Proof. intros [Hv [Hid Hne] Hk _ _ _]. split; [done|]. exists id. eauto. Qed.

Lemma admitted_inj a m now id vk issued no id' vk' issued' no' :
  admitted a m now id vk issued no → admitted a m now id' vk' issued' no' →
  id' = id ∧ vk' = vk ∧ issued' = issued ∧ no' = no.
Proof. intros Hx%admit_message_ok Hy%admit_message_ok. rewrite Hx in Hy. by simplify_eq. Qed.

(** Which code a refused message reports.  Version, agent, freshness and
    replay, and signature are judged in this order, the first failing step
    decides the code, and a message that is not an object fails as unsigned. *)
Theorem verify_error_code a message now io e a' :
  verify a message now io = (Err e, a') →
  match message with
  | Object m => earns a m now io (identity_error_code e)
  | _ => identity_error_code e = BadSignature ∧ a' = a
  end.
Proof.
  intros Hv. destruct message as [| | | | |m].
  1-5: unfold verify in Hv; simpl in Hv; injection Hv as <- <-; done.
  destruct (admit_message a m now) as [[[[id vk] issued] no]|e'] eqn:Ha.
  - apply admit_message_ok in Ha. rewrite (verify_admitted _ _ _ _ _ _ _ _ Ha) in Hv.
    destruct (reserve a id no now io) as [r c] eqn:Hr.
    assert (r ≠ Fresh → ¬ ∃ id vk issued no,
      admitted a m now id vk issued no ∧ (reserve a id no now io).1 = Fresh) as Hno.
    { intros Hne (id' & vk' & is' & no' & Ha' & Hf).
      destruct (admitted_inj _ _ _ _ _ _ _ _ _ _ _ Ha Ha') as (-> & -> & -> & ->).
      rewrite Hr in Hf. done. }
    destruct r; simplify_eq/=.
    + destruct (check_signature vk m) as [[]|es] eqn:Hs; simplify_eq/=.
      pose proof (check_signature_error _ _ _ Hs) as ->.
      exists id, vk, issued, no. split_and!; [done|by rewrite Hr|].
      intros Hok%check_signature_ok. congruence.
    + destruct (admitted_known _ _ _ _ _ _ _ Ha). split_and!; auto.
    + destruct (admitted_known _ _ _ _ _ _ _ Ha). split_and!; auto.
  - rewrite (verify_not_admitted _ _ _ _ _ Ha) in Hv. simplify_eq.
    apply admit_message_error in Ha. unfold earns. destruct (identity_error_code e); try done.
    destruct Ha as (? & ? & Hn). split_and!; [done|done|].
    intros (? & ? & ? & ? & ? & _). apply Hn. eauto.
Qed.

(** ** At most once *)

(** A step of the front door's life: a message arrives, or the operator
    changes the enrollments. *)
Inductive event : Type :=
| EvMessage (message : Value) (now : Z) (io : Io)
| EvEnroll (s : EnrollmentStore).

Definition run_event (a : Attestor) (ev : event) : Attestor :=
  match ev with
  | EvMessage msg now io => (verify a msg now io).2
  | EvEnroll s => {| enrollment := s; replay := replay a; config := config a |}
  end.

Definition before (t : Z) (ev : event) : Prop :=
  match ev with EvMessage _ now _ => now ≤ t | EvEnroll _ => True end.

Lemma verify_cache a msg now io :
  config (verify a msg now io).2 = config a ∧
  (replay (verify a msg now io).2 = replay a ∨
   ∃ id no, replay (verify a msg now io).2 = (reserve a id no now io).2).
Proof.
  destruct msg as [| | | | |m]; simpl; auto. fold (reserve a).
  destruct (admit_message a m now) as [[[[id vk] issued] no]|e] eqn:Ha.
  - apply admit_message_ok in Ha. rewrite (verify_admitted _ _ _ _ _ _ _ _ Ha).
    destruct (reserve a id no now io) as [r c] eqn:Hr. split; [done|]. right.
    exists id, no. by rewrite Hr.
  - rewrite (verify_not_admitted _ _ _ _ _ Ha). auto.
Qed.

Lemma run_events_config evs a : config (fold_left run_event evs a) = config a.
Proof.
  revert a. induction evs as [|ev evs IH]; intros a; [done|]. simpl. rewrite IH.
  destruct ev as [msg now io|s]; simpl; [apply verify_cache|done].
Qed.

Lemma held_event a ev k e t :
  mem_inv (replay a) → held (replay a) k e → before t ev → unix_timestamp t < e →
  config (run_event a ev) = config a ∧ mem_inv (replay (run_event a ev)) ∧
  held (replay (run_event a ev)) k e.
Proof.
  intros Hinv Hh Hb Ht. destruct ev as [msg now io|s]; simpl in *; [|done].
  destruct (verify_cache a msg now io) as [Hc [-> |(id & no & ->)]]; [done|].
  split; [done|]. split; [by apply check_and_reserve_mem|].
  apply held_step; [done|done|]. rewrite !unix_timestamp_floor in *.
  assert (now / 1000000000 ≤ t / 1000000000) by (apply Z.div_le_mono; lia). lia.
Qed.

Lemma held_events evs a k e t :
  mem_inv (replay a) → held (replay a) k e → Forall (before t) evs → unix_timestamp t < e →
  let a' := fold_left run_event evs a in
  config a' = config a ∧ mem_inv (replay a') ∧ held (replay a') k e.
Proof.
  revert a. induction evs as [|ev evs IH]; intros a Hinv Hh Hf Ht; [done|].
  apply Forall_cons in Hf as [Hb Hf]. destruct (held_event a ev k e t Hinv Hh Hb Ht) as (Hc & Hi & Hh').
  simpl. rewrite <- Hc. by apply IH.
Qed.

(** Retention of three skews outlasts the window in which a message is fresh,
    whole-second rounding included, as soon as the skew is three seconds. *)
Lemma retention_covers now1 now2 issued skew :
  3 ≤ skew → 0 ≤ now1 →
  Z.abs (whole_seconds (now1 - issued)) ≤ skew → Z.abs (whole_seconds (now2 - issued)) ≤ skew →
  unix_timestamp now2 < i64_max →
  unix_timestamp now2 < i64_saturating_add (unix_timestamp now1) (i64_saturating_mul skew 3).
Proof.
  rewrite !whole_seconds_trunc, !unix_timestamp_floor. intros Hs Hn1 Ha Hb Hmax.
  assert (∀ d, Z.abs (Z.quot d 1000000000) ≤ skew → Z.abs d < (skew + 1) * 1000000000) as Hq.
  { intros d Hd. pose proof (Z.quot_rem' d 1000000000) as He.
    pose proof (Z.rem_bound_abs d 1000000000 ltac:(lia)). lia. }
  apply Hq in Ha, Hb.
  pose proof (Z.mul_div_le now2 1000000000 ltac:(lia)).
  pose proof (Z.mul_succ_div_gt now1 1000000000 ltac:(lia)).
  assert (0 ≤ now1 / 1000000000) by (apply Z.div_pos; lia).
  unfold i64_saturating_add, i64_saturating_mul, i64_min, i64_max in *. lia.
Qed.

(** C6: A signed message is accepted at most once.  With a skew of at least
    three seconds (the default is thirty), once [verify] accepts a message, no
    later call accepts a message with the same agent, nonce and issue time
    (whatever its other fields or signature), through any sequence of other
    messages and enrollment changes, for ever. *)
Theorem accepted_at_most_once a msg now1 io1 v a1 evs msg' now2 io2 :
  mem_inv (replay a) → 3 ≤ max_skew_secs (config a) → 0 ≤ now1 →
  verify a msg now1 io1 = (Ok v, a1) →
  Forall (before now2) evs → unix_timestamp now2 < i64_max →
  Forall (λ f, get msg' f = get msg f) ["agent_id"; "nonce"; "issued_at"] →
  is_ok (verify (fold_left run_event evs a1) msg' now2 io2).1 = false.
Proof.
  intros Hinv Hskew Hn0 Hv Hevs Hmax Hfields.
  apply verify_ok_iff in Hv as (m & vk & -> & _ & Ha & Hr & _ & _ & Hcfg).
  destruct (fresh_held _ _ _ _ _ _ _ Hinv Hr) as [Hi1 Hh1].
  destruct (verify _ msg' now2 io2) as [[v'|e] a2] eqn:Hv2; [exfalso|done].
  apply verify_ok_iff in Hv2 as (m' & vk' & -> & _ & Ha' & Hr' & _).
  inversion_clear Hfields as [|?? Hf1 Hf']. inversion_clear Hf' as [|?? Hf2 Hf''].
  inversion_clear Hf'' as [|?? Hf3 _]. unfold get in Hf1, Hf2, Hf3. simpl in *.
  pose proof (adm_agent _ _ _ _ _ _ _ Ha) as [Hid _]. pose proof (adm_agent _ _ _ _ _ _ _ Ha') as [Hid' _].
  pose proof (adm_nonce _ _ _ _ _ _ _ Ha) as [Hno _]. pose proof (adm_nonce _ _ _ _ _ _ _ Ha') as [Hno' _].
  destruct (adm_issued _ _ _ _ _ _ _ Ha) as (raw & Hraw & Hpr).
  destruct (adm_issued _ _ _ _ _ _ _ Ha') as (raw' & Hraw' & Hpr').
  rewrite Hf1 in Hid'. rewrite Hf2 in Hno'. rewrite Hf3 in Hraw'.
  assert (v_agent_id v' = v_agent_id v) as Eid by congruence.
  assert (v_nonce v' = v_nonce v) as Eno by congruence.
  assert (v_issued_at v' = v_issued_at v) as Eis by congruence.
  assert (unix_timestamp now2 < i64_saturating_add (unix_timestamp now1) (retention_of a)) as Hlt.
  { apply (retention_covers now1 now2 (v_issued_at v)); [done|done|apply Ha| |done].
    rewrite <- Eis. pose proof (adm_fresh _ _ _ _ _ _ _ Ha') as Hfr.
    by rewrite run_events_config, Hcfg in Hfr. }
  destruct (held_events evs a1 _ _ now2 Hi1 Hh1 Hevs Hlt) as (_ & Hi2 & Hh2).
  destruct (held_step _ _ _ (v_agent_id v) (v_nonce v) _ (retention_of (fold_left run_event evs a1)) io2
    Hi2 Hh2 Hlt) as [_ Hdup].
  unfold reserve in Hr'. rewrite Eid, Eno in Hr'. specialize (Hdup eq_refl). rewrite Hr' in Hdup. done.
Qed.
End Attest.

Section Witnesses.
#[local] Existing Instance toy_base64.
#[local] Existing Instance toy_ed25519.
#[local] Existing Instance toy_serde.
#[local] Existing Instance toy_serde_line.
#[local] Existing Instance toy_json.
#[local] Existing Instance toy_time.
#[local] Existing Instance toy_debug.

Definition toy_message (issued : Z) : Value :=
  let body := [("chaperone", String "0.1"); ("agent_id", String "a"); ("nonce", String "n");
               ("issued_at", String (show issued))] in
  match object body with
  | Object m =>
      let canon := match canonical (Object m) with Ok s => s | Err _ => [] end in
      Object (map_insert "sig" (String (encode_signature (sign (Byte.x41 : SigningKey) canon))) m)
  | v => v
  end.

Definition toy_attestor (skew : Z) : Attestor :=
  {| enrollment := (enroll fresh_store "a" (toy_pk Byte.x41) "o" "n" "t0" false None).2;
     replay := in_memory; config := {| max_skew_secs := skew |} |}.

Lemma verify_error_code_witness :
  earns (toy_attestor 30) [("chaperone", String "1.0")] 0 io_good Version.
Proof.
  apply (verify_error_code (toy_attestor 30) (Object [("chaperone", String "1.0")]) 0 io_good
    (IdVersion "1.0") (toy_attestor 30)).
  reflexivity.
Defined.

Definition toy_first : result IdentityError VerifiedIntent * Attestor :=
  verify (toy_attestor 30) (toy_message 50000000000) 40000000000 io_good.

Lemma verify_accepts_exactly_witness : ∃ m vk, toy_message 50000000000 = Object m ∧ signed_by vk m.
Proof.
  assert (is_ok toy_first.1 = true) as Hok by (vm_compute; reflexivity).
  destruct toy_first.1 as [v|e] eqn:Hv; [|discriminate Hok].
  destruct (proj1 (verify_accepts_exactly (toy_attestor 30) (toy_message 50000000000) 40000000000 io_good v toy_first.2))
    as (m & vk & Hm & _ & _ & _ & Hs & _).
  - rewrite <- Hv. apply surjective_pairing.
  - exists m, vk. split; [exact Hm|exact Hs].
Defined.

Lemma accepted_at_most_once_witness :
  is_ok toy_first.1 = true ∧
  is_ok (verify toy_first.2 (toy_message 50000000000) 79000000000 io_good).1 = false.
Proof.
  assert (is_ok toy_first.1 = true) as Hok by (vm_compute; reflexivity). split; [exact Hok|].
  destruct toy_first.1 as [v|e] eqn:Hv; [|discriminate Hok].
  apply (accepted_at_most_once (toy_attestor 30) (toy_message 50000000000) 40000000000 io_good v
    toy_first.2 [] (toy_message 50000000000) 79000000000 io_good).
  - apply in_memory_inv.
  - vm_compute. discriminate.
  - lia.
  - rewrite <- Hv. apply surjective_pairing.
  - constructor.
  - vm_compute. reflexivity.
  - repeat constructor.
Defined.

(** With a skew of two seconds the retention is too short by one second of
    rounding: the very same message is accepted twice. *)
Theorem short_skew_allows_replay :
  let a := toy_attestor 2 in let m := toy_message 3998000000 in
  let first := verify a m 999000000 io_good in
  is_ok first.1 = true ∧ is_ok (verify first.2 m 6990000000 io_good).1 = true.
Proof. split; vm_compute; reflexivity. Qed.
End Witnesses.
