(* ===== verification/Concurrent.v ===== *)
(** Interleaved calls on the shared attestor: [crates/identity/src/lib.rs],
    [replay.rs] and [enrollment.rs].

    The daemon runs its connections and its operator pages on a
    multi-threaded runtime over one [Arc<EnrollmentStore>] and one
    [Arc<ReplayCache>], so [verify], [enroll] and [revoke] overlap.  Each of
    them is cut here at the places where it takes a lock: [verify] looks the
    key up under the read lock of the store, reserves the nonce under the
    mutex of the cache and judges the signature without a lock; [enroll] and
    [revoke] change the map under the write lock, and [persist] then takes a
    snapshot under the read lock and replaces the file without a lock.  A
    call that runs alone is the sequential definition ([call_alone]).  The
    theorems hold for every interleaving of any number of calls. *)

From S2P Require Import Prelude Strs Json Extern Toy Protocol Enrollment Replay Identity.
#[local] Open Scope Z_scope.

Section Concurrent.
Context `{Base64, Ed25519, SerdeText StoreFile, SerdeLine JournalLine, JsonText, TimeApi, DebugFmt}.

(** ** The pieces of a call *)

(** The locked part of [enroll], after the checks that need no lock. *)
Definition enroll_locked (s : EnrollmentStore) (id pk_b64 sponsor name now : str) (force_rotate : bool)
  : result EnrollmentError EnrollmentStore :=
  if is_empty (trim sponsor) then Err (EMissingSponsor "sponsor_id")
  else if is_empty (trim name) then Err (EMissingSponsor "sponsor_name")
  else
    k ← decode_public_key pk_b64;
    let rec := {| agent_id := id; public_key := encode_public_key k; enrolled_at := now;
                  sponsor_id := trim sponsor; sponsor_name := trim name; revoked_at := None |} in
    if from_option is_live false (agents s !! id) && negb force_rotate
    then Err (EDuplicate id)
    else Ok (set_agents s (<[id := {| key := k; record := rec |}]> (agents s))).

(** The locked part of [revoke]; [None] when there is no entry. *)
Definition revoke_locked (s : EnrollmentStore) (id now : str) : option EnrollmentStore :=
  a ← agents s !! id;
  Some (set_agents s (<[id := {| key := key a; record := revoke_record now (record a) |}]> (agents s))).

(** The file part of [persist]: the snapshot replaces the file in one rename,
    or an earlier file operation failed ([io]). *)
Definition write_snapshot (s : EnrollmentStore) (snapshot : list EnrollmentRecord) (io : option str)
  : result EnrollmentError unit * EnrollmentStore :=
  match io with
  | Some e => (Err (EIo e), s)
  | None => (Ok tt, {| Enrollment.path := Enrollment.path s; agents := agents s;
                       Enrollment.disk := Some (to_text {| version := 1; file_agents := snapshot |}) |})
  end.

(** ** Calls *)

Inductive Request : Type :=
| RVerify (message : Value) (now : Z)
| REnroll (id pk sponsor name now : str) (force : bool)
| RRevoke (id now : str).

(** How far a call has come.  A call that reports to the operator returns
    whether an entry is there, which is always so after [enroll]. *)
Inductive CallStage : Type :=
| Start
| Reserving (m : Map) (id : str) (vk : VerifyingKey) (issued : Z) (no : str)
| Signing (m : Map) (id : str) (vk : VerifyingKey) (issued : Z) (no : str)
| Verified (r : result IdentityError VerifiedIntent)
| Persisting
| Writing (snapshot : list EnrollmentRecord)
| Stored (r : result EnrollmentError bool).

Record Call : Type := { request : Request; stage : CallStage }.

Definition set_store (a : Attestor) (s : EnrollmentStore) : Attestor :=
  {| enrollment := s; replay := replay a; config := config a |}.

(** What the disk does at this step, for the replay journal and for the
    enrollment file. *)
Record StepIo : Type := { journal_io : Io; store_io : option str }.

(** One step of one call, up to the next lock; [None] when it has returned. *)
Definition call_step (a : Attestor) (c : Call) (io : StepIo) : option (Attestor * CallStage) :=
  match request c, stage c with
  | RVerify message now, Start =>
      Some (a, match as_object message with
               | None => Verified (Err IdBadSignature)
               | Some m =>
                   match admit_message a m now with
                   | Err e => Verified (Err e)
                   | Ok (id, vk, issued, no) => Reserving m id vk issued no
                   end
               end)
  | RVerify _ now, Reserving m id vk issued no =>
      let '(r, cache) := reserve a id no now (journal_io io) in
      Some (with_cache a cache,
            match r with
            | Fresh => Signing m id vk issued no
            | Duplicate => Verified (Err (IdReplay "nonce already used"))
            | CapacityFull => Verified (Err (IdReplay "replay cache at capacity"))
            end)
  | RVerify message _, Signing m id vk issued no =>
      Some (a, Verified (_ ← check_signature vk m;
                         Ok {| v_agent_id := id; v_envelope := message;
                               v_issued_at := issued; v_nonce := no |}))
  | REnroll id pk sponsor name now force, Start =>
      match enroll_locked (enrollment a) id pk sponsor name now force with
      | Err e => Some (a, Stored (Err e))
      | Ok s => Some (set_store a s, Persisting)
      end
  | RRevoke id now, Start =>
      match revoke_locked (enrollment a) id now with
      | None => Some (a, Stored (Ok false))
      | Some s => Some (set_store a s, Persisting)
      end
  | (REnroll _ _ _ _ _ _ | RRevoke _ _), Persisting =>
      Some (a, if Enrollment.path (enrollment a) then Writing (list_records (enrollment a)) else Stored (Ok true))
  | (REnroll _ _ _ _ _ _ | RRevoke _ _), Writing snapshot =>
      let '(r, s) := write_snapshot (enrollment a) snapshot (store_io io) in
      Some (set_store a s, Stored (_ ← r; Ok true))
  | _, _ => None
  end.

(** ** A call that runs alone *)

(** The call takes [n] steps with nothing between them. *)
Fixpoint run_alone (n : nat) (a : Attestor) (c : Call) (io : StepIo) : Attestor * CallStage :=
  match n with
  | O => (a, stage c)
  | S n' =>
      match call_step a c io with
      | None => (a, stage c)
      | Some (a', st) => run_alone n' a' {| request := request c; stage := st |} io
      end
  end.

(** What the sequential definitions answer. *)
Definition sequential (a : Attestor) (q : Request) (io : StepIo) : Attestor * CallStage :=
  match q with
  | RVerify message now =>
      let '(r, a') := verify a message now (journal_io io) in (a', Verified r)
  | REnroll id pk sponsor name now force =>
      let '(r, s) := enroll (enrollment a) id pk sponsor name now force (store_io io) in
      (set_store a s, Stored (_ ← r; Ok true))
  | RRevoke id now =>
      let '(r, s) := revoke (enrollment a) id now (store_io io) in (set_store a s, Stored r)
  end.

Lemma run_alone_step n a c io :
  run_alone (S n) a c io =
    match call_step a c io with
    | None => (a, stage c)
    | Some (a', st) => run_alone n a' {| request := request c; stage := st |} io
    end.
Proof. done. Qed.

Lemma set_store_id a : set_store a (enrollment a) = a.
Proof. by destruct a. Qed.

Lemma persist_split s io :
  persist s io =
    if Enrollment.path s then write_snapshot s (list_records s) io else (Ok tt, s).
Proof. done. Qed.

Lemma enroll_split s id pk sp nm now force io :
  enroll s id pk sp nm now force io =
    match enroll_locked s id pk sp nm now force with
    | Err e => (Err e, s)
    | Ok s' => persist s' io
    end.
Proof.
  unfold enroll, enroll_locked. destruct (is_empty (trim sp)); [done|].
  destruct (is_empty (trim nm)); [done|]. destruct (decode_public_key pk); [|done]. simpl.
  destruct (agents s !! id) as [x|]; [|done]. simpl. by destruct (is_live x && negb force).
Qed.

Lemma revoke_split s id now io :
  revoke s id now io =
    match revoke_locked s id now with
    | None => (Ok false, s)
    | Some s' => let '(r, s'') := persist s' io in (_ ← r; Ok true, s'')
    end.
Proof.
  unfold revoke, revoke_locked. destruct (agents s !! id) as [x|]; [|done]. simpl.
  by destruct (persist _ io) as [[[]|e] s''].
Qed.

(** The steps after the locked part are [persist]. *)
Lemma persist_alone a q io :
  match q with RVerify _ _ => False | _ => True end →
  run_alone 2 a {| request := q; stage := Persisting |} io =
    let '(r, s) := persist (enrollment a) (store_io io) in (set_store a s, Stored (_ ← r; Ok true)).
Proof.
  intros Hq. rewrite persist_split.
  destruct q; [done|..]; cbn; destruct (Enrollment.path (enrollment a)); cbn;
    try by rewrite set_store_id.
  all: by destruct (write_snapshot _ _ _).
Qed.

Lemma verify_alone a message now io :
  run_alone 3 a {| request := RVerify message now; stage := Start |} io =
    sequential a (RVerify message now) io.
Proof.
  unfold sequential, verify. cbn [run_alone call_step request stage].
  destruct (as_object message) as [m|]; [|done].
  destruct (admit_message a m now) as [[[[id vk] issued] no]|e]; [|done].
  unfold reserve, retention_of.
  destruct (check_and_reserve _ _ _ _ _ _) as [[] cache]; [|done|done].
  by destruct (check_signature vk m).
Qed.

(** The three steps of a call, taken with nothing between them, are the
    sequential [verify], [enroll] and [revoke]: same result, same store, same
    cache. *)
Theorem call_alone a q io : run_alone 3 a {| request := q; stage := Start |} io = sequential a q io.
Proof.
  destruct q as [message now|id pk sp nm now force|id now]; [apply verify_alone|..].
  - unfold sequential. rewrite enroll_split, run_alone_step. cbn [call_step request stage].
    destruct (enroll_locked _ _ _ _ _ _ _) as [s|e].
    + rewrite persist_alone by done. cbn [set_store enrollment]. by destruct (persist s _).
    + simpl. by rewrite set_store_id.
  - unfold sequential. rewrite revoke_split, run_alone_step. cbn [call_step request stage].
    destruct (revoke_locked _ _ _) as [s|].
    + rewrite persist_alone by done. cbn [set_store enrollment]. by destruct (persist s _).
    + simpl. by rewrite set_store_id.
Qed.

(** ** All interleavings *)

(** The shared state, the calls that arrived, and the newest clock reading
    any call has brought to the replay cache so far. *)
Record World : Type := { att : Attestor; calls : list Call; latest : Z }.

(** The time library has no instants after the year 9999. *)
Definition MAX_CLOCK : Z := 253402300800 * 1000000000.
Definition good_clock (now : Z) : Prop := 0 ≤ now < MAX_CLOCK.

Definition clock_of (q : Request) : option Z :=
  match q with RVerify _ now => Some now | _ => None end.

(** The call is about to take the replay lock, with the clock it read when it
    started. *)
Definition at_lock (c : Call) : option Z :=
  match stage c with Reserving _ _ _ _ _ => clock_of (request c) | _ => None end.

(** A call arrives, or one of the calls takes its next step.  [lag] bounds how
    much older than another call's clock the clock of a call may be when that
    call gets the replay lock. *)
Inductive step (lag : Z) (w : World) : World → Prop :=
| step_arrive q :
    (∀ now, clock_of q = Some now → good_clock now) →
    step lag w {| att := att w; calls := calls w ++ [{| request := q; stage := Start |}];
                  latest := latest w |}
| step_run i c io a' st :
    calls w !! i = Some c → call_step (att w) c io = Some (a', st) →
    (∀ now, at_lock c = Some now → latest w ≤ now + lag) →
    step lag w {| att := a'; calls := <[i := {| request := request c; stage := st |}]> (calls w);
                  latest := from_option (Z.max (latest w)) (latest w) (at_lock c) |}.

(** A property of single calls that holds of arriving ones and is kept by
    the steps holds of the whole pool. *)
Lemma pool_inv (P : Call → Prop) lag w w' :
  step lag w w' → Forall P (calls w) →
  (∀ q, (∀ now, clock_of q = Some now → good_clock now) → P {| request := q; stage := Start |}) →
  (∀ c io a' st, P c → call_step (att w) c io = Some (a', st) → P {| request := request c; stage := st |}) →
  Forall P (calls w').
Proof.
  intros [q Hq|i c io a' st Hi Hc _] Hf Hs Hr; simpl.
  - apply Forall_app. split; [done|]. constructor; [by apply Hs|constructor].
  - apply Forall_insert; [done|]. eapply Hr; [|exact Hc]. by eapply Forall_lookup_1.
Qed.

(** The nonce a call has reserved and not given up: its agent and nonce, the
    clock it was reserved at and the issue time of the message. *)
Definition reserved (c : Call) : option (str * str * Z * Z) :=
  match request c, stage c with
  | RVerify _ now, Signing _ id _ issued no => Some (id, no, now, issued)
  | RVerify _ now, Verified (Ok v) => Some (v_agent_id v, v_nonce v, now, v_issued_at v)
  | _, _ => None
  end.

(** A call past its admission is within the allowed skew of its own clock. *)
Definition call_fresh (skew : Z) (c : Call) : Prop :=
  (∀ now, clock_of (request c) = Some now → good_clock now) ∧
  (∀ now m id vk issued no, clock_of (request c) = Some now → stage c = Reserving m id vk issued no →
     Z.abs (whole_seconds (now - issued)) ≤ skew) ∧
  (∀ k now issued, reserved c = Some (k, now, issued) → Z.abs (whole_seconds (now - issued)) ≤ skew).

Lemma call_step_config a c io a' st : call_step a c io = Some (a', st) → config a' = config a.
Proof.
  unfold call_step. intros Hc. repeat (case_match; try discriminate); simplify_eq/=; done.
Qed.

Lemma call_step_replay a c io a' st :
  call_step a c io = Some (a', st) → at_lock c = None → replay a' = replay a.
Proof.
  unfold call_step, at_lock. intros Hc Hl. repeat (case_match; try discriminate); simplify_eq/=; done.
Qed.

(** Away from the lock a step reserves nothing. *)
Lemma call_step_reserved a c io a' st x :
  call_step a c io = Some (a', st) → at_lock c = None →
  reserved {| request := request c; stage := st |} = Some x → reserved c = Some x.
Proof.
  unfold call_step, at_lock, reserved. destruct c as [q s]; simpl. intros Hc Hl Hr.
  destruct q, s; simplify_eq/=; try (repeat (case_match; try discriminate); simplify_eq/=; done).
  destruct (check_signature vk m) as [[]|e]; simplify_eq/=; done.
Qed.

(** At the lock a step is [check_and_reserve]. *)
Lemma call_step_locked a c io a' st now :
  call_step a c io = Some (a', st) → at_lock c = Some now →
  ∃ m id vk issued no, stage c = Reserving m id vk issued no ∧
    replay a' = (reserve a id no now (journal_io io)).2 ∧
    ∀ x, reserved {| request := request c; stage := st |} = Some x →
      x = (id, no, now, issued) ∧ (reserve a id no now (journal_io io)).1 = Fresh.
Proof.
  unfold call_step, at_lock, reserved. destruct c as [q s]; simpl. intros Hc Hl.
  destruct s as [|m id vk issued no| | | | |]; try discriminate. destruct q; simplify_eq/=.
  destruct (reserve a id no now (journal_io io)) as [r cache] eqn:Hr. simplify_eq/=.
  exists m, id, vk, issued, no. rewrite Hr. split_and!; [done|done|].
  intros x Hx. by destruct r; simplify_eq/=.
Qed.

Lemma call_fresh_start skew q :
  (∀ now, clock_of q = Some now → good_clock now) → call_fresh skew {| request := q; stage := Start |}.
Proof. intros Hq. split_and!; [done|done|]. intros k now issued. by destruct q. Qed.

Lemma call_fresh_step a c io a' st :
  call_fresh (max_skew_secs (config a)) c → call_step a c io = Some (a', st) →
  call_fresh (max_skew_secs (config a)) {| request := request c; stage := st |}.
Proof.
  intros (Hclk & Hadm & Hres) Hc. split_and!; [done|..].
  - intros now m id vk issued no Hq Hst. simpl in *. subst st. revert Hc. unfold call_step.
    destruct (request c) as [msg t| |] eqn:Hrq; [|done..]. simplify_eq/=.
    intros Hc. destruct (stage c) eqn:Hsc; simplify_eq/=; try done.
    + destruct (as_object msg) as [m'|]; [|done].
      destruct (admit_message _ m' now) as [[[[id' vk'] iss'] no']|e] eqn:Ha; simplify_eq/=.
      apply admit_message_ok in Ha. apply (adm_fresh _ _ _ _ _ _ _ Ha).
    + destruct (reserve _ _ _ _ _) as [[] ?]; simplify_eq/=.
  - intros k now issued Hr. destruct (at_lock c) as [t|] eqn:Hl.
    + destruct (call_step_locked _ _ _ _ _ _ Hc Hl) as (m & id & vk & iss' & no & Hst & _ & Hx).
      destruct (Hx _ Hr) as [Heq _]. simplify_eq. eapply Hadm; [|done].
      unfold at_lock in Hl. by rewrite Hst in Hl.
    + eapply Hres, call_step_reserved; eauto.
Qed.

(** ** Nonces under interleaving *)

Definition nonce_at (w : World) (i : nat) : option (str * str * Z * Z) := calls w !! i ≫= reserved.

(** What a step does to the reserved nonces: it leaves them and the cache
    alone, or it is the [check_and_reserve] of one call. *)
Lemma step_nonces lag w w' :
  step lag w w' →
  config (att w') = config (att w) ∧
  ((replay (att w') = replay (att w) ∧ latest w' = latest w ∧
    ∀ i x, nonce_at w' i = Some x → nonce_at w i = Some x) ∨
   (∃ i0 id no now issued io,
     latest w ≤ now + lag ∧ latest w' = Z.max (latest w) now ∧
     replay (att w') = (reserve (att w) id no now io).2 ∧
     ∀ i x, nonce_at w' i = Some x →
       (i ≠ i0 ∧ nonce_at w i = Some x) ∨
       (i = i0 ∧ x = (id, no, now, issued) ∧ (reserve (att w) id no now io).1 = Fresh))).
Proof.
  intros [q Hq|i0 c io a' st Hi Hc Hlag]; simpl.
  - split; [done|]. left. split_and!; [done|done|]. intros i x. unfold nonce_at. simpl.
    destruct (decide (i < length (calls w))%nat) as [Hl|Hl]; [by rewrite lookup_app_l|].
    rewrite lookup_app_r by lia. destruct (i - length (calls w))%nat; [by destruct q|done].
  - split; [by eapply call_step_config|].
    assert (∀ i, nonce_at {| att := a'; calls := <[i0 := {| request := request c; stage := st |}]> (calls w);
        latest := from_option (Z.max (latest w)) (latest w) (at_lock c) |} i =
      if decide (i = i0) then reserved {| request := request c; stage := st |} else nonce_at w i) as Hat.
    { intros i. unfold nonce_at. simpl. case_decide as Hd; [subst|by rewrite list_lookup_insert_ne].
      rewrite list_lookup_insert_eq; [done|by eapply lookup_lt_Some]. }
    destruct (at_lock c) as [now|] eqn:Hl.
    + right. destruct (call_step_locked _ _ _ _ _ _ Hc Hl) as (m & id & vk & issued & no & _ & Hr & Hx).
      exists i0, id, no, now, issued, (journal_io io). split_and!; [by apply Hlag|done|done|].
      intros i x. rewrite Hat. case_decide; [|by left]. intros Hx'. right. by destruct (Hx _ Hx').
    + left. split_and!; [by eapply call_step_replay|done|]. intros i x. rewrite Hat.
      case_decide as Hd; [|done]. subst. intros Hx. unfold nonce_at. rewrite Hi. simpl.
      by eapply call_step_reserved.
Qed.

(** The second at which a reservation made at [now] runs out. *)
Definition expiry (cfg : IdentityConfig) (now : Z) : Z :=
  i64_saturating_add (unix_timestamp now) (i64_saturating_mul (max_skew_secs cfg) 3).

(** Every reserved nonce is held in the cache until the newest clock reaches
    its expiry; two calls that reserved the same nonce did so so far apart
    that one reservation had run out. *)
Record nonce_inv (lag : Z) (cfg : IdentityConfig) (w : World) : Prop := {
  ni_config : config (att w) = cfg;
  ni_mem : mem_inv (replay (att w));
  ni_held : ∀ i k t iss, nonce_at w i = Some (k, t, iss) → unix_timestamp (latest w) < expiry cfg t →
    held (replay (att w)) k (expiry cfg t);
  ni_apart : ∀ i j k t u iss iss', i ≠ j →
    nonce_at w i = Some (k, t, iss) → nonce_at w j = Some (k, u, iss') →
    expiry cfg t ≤ unix_timestamp (u + lag) ∨ expiry cfg u ≤ unix_timestamp (t + lag);
}.

Lemma unix_mono t u : t ≤ u → unix_timestamp t ≤ unix_timestamp u.
Proof. rewrite !unix_timestamp_floor. apply Z.div_le_mono. lia. Qed.

(** A reservation that succeeds meets no other live reservation of the nonce. *)
Lemma fresh_apart lag cfg w i k t iss id no now io :
  0 ≤ lag → nonce_inv lag cfg w → latest w ≤ now + lag →
  nonce_at w i = Some (k, t, iss) → k = (id, no) → (reserve (att w) id no now io).1 = Fresh →
  expiry cfg t ≤ unix_timestamp (now + lag).
Proof.
  intros Hlag [Hcfg Hmem Hheld _] Hl Hi -> Hf. apply Z.nlt_ge. intros Hlt.
  pose proof (unix_mono (latest w) (now + lag) Hl). pose proof (unix_mono now (now + lag) ltac:(lia)).
  assert (held (replay (att w)) (id, no) (expiry cfg t)) as Hh by (eapply Hheld; [done|lia]).
  destruct (held_step _ _ (expiry cfg t) id no (unix_timestamp now) (retention_of (att w)) io Hmem Hh) as [_ Hd]; [lia|].
  unfold reserve in Hf. rewrite Hd in Hf; done.
Qed.

Lemma nonce_inv_step lag cfg w w' :
  0 ≤ lag → step lag w w' → nonce_inv lag cfg w → nonce_inv lag cfg w'.
Proof.
  intros Hlag Hs Hinv. pose proof Hinv as [Hcfg Hmem Hheld Hapart].
  destruct (step_nonces _ _ _ Hs) as [Hc [(Hr & Hl & Hn)|(i0 & id & no & now & issued & io & Hl & Hl' & Hr & Hn)]].
  { split; rewrite ?Hr, ?Hl, ?Hc; [done|done|by eauto|]. intros. eapply Hapart; eauto. }
  pose proof (unix_mono (latest w) (latest w') ltac:(lia)).
  pose proof (unix_mono now (latest w') ltac:(lia)).
  split; [by rewrite Hc|rewrite Hr; by apply check_and_reserve_mem|..].
  - intros i k t iss Hi Hlt. rewrite Hr. apply Hn in Hi as [[_ Hi]|(-> & [= -> -> ->] & Hf)].
    + apply held_step; [done|eapply Hheld; [done|lia]|lia].
    + destruct (reserve (att w) id no now io) as [r c] eqn:He. simpl in Hf. subst r.
      pose proof (fresh_held _ _ _ _ _ _ _ Hmem He) as [_ Hh]. simpl. unfold retention_of in Hh.
      by rewrite Hcfg in Hh.
  - intros i j k t u iss iss' Hne Hi Hj.
    apply Hn in Hi as [[_ Hi]|(-> & [= -> -> ->] & Hf)]; apply Hn in Hj as [[_ Hj]|(-> & Heq & Hf')].
    + by eapply (Hapart i j).
    + left. simplify_eq. by eapply (fresh_apart _ _ _ i).
    + right. by eapply (fresh_apart _ _ _ j).
    + done.
Qed.

Definition started (w : World) : Prop := calls w = [] ∧ mem_inv (replay (att w)).

Lemma reachable_inv lag w w' :
  0 ≤ lag → started w → rtc (step lag) w w' →
  nonce_inv lag (config (att w)) w' ∧
  Forall (call_fresh (max_skew_secs (config (att w)))) (calls w').
Proof.
  intros Hlag [Hn Hm] Hrtc.
  assert (nonce_inv lag (config (att w)) w ∧
          Forall (call_fresh (max_skew_secs (config (att w)))) (calls w)) as Hinv.
  { unfold started in *. split; [split; [done|done|..]|rewrite Hn; constructor];
      intros i; intros; unfold nonce_at in *; rewrite Hn in *; discriminate. }
  clear Hn Hm. revert Hinv. generalize (config (att w)). intros cfg.
  induction Hrtc as [w|w w1 w2 Hs _ IH]; [done|]. intros [Hi Hf]. apply IH. split.
  - by eapply nonce_inv_step.
  - pose proof (ni_config _ _ _ Hi) as Hcfg.
    apply (pool_inv _ _ _ _ Hs Hf); [intros q; apply call_fresh_start|].
    intros c io a' st Hc. rewrite <- Hcfg in *. intros. by eapply call_fresh_step.
Qed.

(** Three skews of retention cover the window in which a message is fresh
    and the time a call may be kept waiting for the lock. *)
Lemma retention_covers_lag cfg lag t u iss :
  0 ≤ lag ≤ (max_skew_secs cfg - 3) * 1000000000 → max_skew_secs cfg ≤ 1000000000 →
  good_clock t → good_clock u →
  Z.abs (whole_seconds (t - iss)) ≤ max_skew_secs cfg →
  Z.abs (whole_seconds (u - iss)) ≤ max_skew_secs cfg →
  unix_timestamp (u + lag) < expiry cfg t.
Proof.
  unfold expiry, good_clock, MAX_CLOCK. generalize (max_skew_secs cfg). intros skew Hlag Hsk Ht Hu.
  rewrite !whole_seconds_trunc, !unix_timestamp_floor. intros Ha Hb.
  assert (∀ d, Z.abs (Z.quot d 1000000000) ≤ skew → Z.abs d < (skew + 1) * 1000000000) as Hq.
  { intros d Hd. pose proof (Z.quot_rem' d 1000000000) as He.
    pose proof (Z.rem_bound_abs d 1000000000 ltac:(lia)). lia. }
  apply Hq in Ha, Hb.
  pose proof (Z.mul_div_le (u + lag) 1000000000 ltac:(lia)).
  pose proof (Z.mul_succ_div_gt t 1000000000 ltac:(lia)).
  assert (0 ≤ t / 1000000000) by (apply Z.div_pos; lia).
  unfold i64_saturating_add, i64_saturating_mul, i64_min, i64_max in *. lia.
Qed.

(** C11: However the calls interleave, two of them never both accept a message of the same
    agent, nonce and issue time.  For any number of overlapping [verify]
    calls, enrollments and revocations, in any order of their lock
    acquisitions and whatever the disk does, as long as no call waits longer
    than the skew less three seconds between reading its clock and getting
    the replay lock. *)
Theorem accepted_once_interleaved lag w w' i j m m' t u v v' :
  0 ≤ lag ≤ (max_skew_secs (config (att w)) - 3) * 1000000000 →
  max_skew_secs (config (att w)) ≤ 1000000000 →
  started w → rtc (step lag) w w' → i ≠ j →
  calls w' !! i = Some {| request := RVerify m t; stage := Verified (Ok v) |} →
  calls w' !! j = Some {| request := RVerify m' u; stage := Verified (Ok v') |} →
  (v_agent_id v, v_nonce v, v_issued_at v) ≠ (v_agent_id v', v_nonce v', v_issued_at v').
Proof.
  intros Hlag Hsk Hst Hrtc Hne Hi Hj [= Hid Hno Hiss].
  destruct (reachable_inv lag w w' ltac:(lia) Hst Hrtc) as [Hinv Hf].
  pose proof (Forall_lookup_1 _ _ _ _ Hf Hi) as (Hct & _ & Hft).
  pose proof (Forall_lookup_1 _ _ _ _ Hf Hj) as (Hcu & _ & Hfu).
  specialize (Hct t eq_refl). specialize (Hcu u eq_refl).
  specialize (Hft _ _ _ eq_refl). specialize (Hfu _ _ _ eq_refl).
  rewrite <- Hiss in Hfu.
  destruct (ni_apart _ _ _ Hinv i j (v_agent_id v, v_nonce v) t u (v_issued_at v) (v_issued_at v)) as [Ha|Ha];
    [done|unfold nonce_at; by rewrite Hi|unfold nonce_at; rewrite Hj; simpl; by rewrite Hid, Hno, Hiss|..].
  - pose proof (retention_covers_lag _ lag t u _ Hlag Hsk Hct Hcu Hft Hfu). lia.
  - pose proof (retention_covers_lag _ lag u t _ Hlag Hsk Hcu Hct Hfu Hft). lia.
Qed.

(** ** Revocation under interleaving *)

Definition enrolls (id : str) (c : Call) : bool :=
  match request c with REnroll id' _ _ _ _ _ => bool_decide (id' = id) | _ => false end.

(** The agent on whose behalf a call goes on after its key was looked up. *)
Definition acting (c : Call) : option str :=
  match stage c with
  | Reserving _ id _ _ _ | Signing _ id _ _ _ => Some id
  | Verified (Ok v) => Some (v_agent_id v)
  | _ => None
  end.

Lemma lookup_abs s id :
  lookup_key s id = None ↔ dead (abs s) id.
Proof.
  unfold lookup_key, dead, abs. rewrite lookup_fmap.
  destruct (agents s !! id) as [x|]; simpl; [|naive_solver].
  destruct (is_live x); naive_solver.
Qed.

(** What the locked parts mean, in terms of the abstract store. *)
Lemma enroll_locked_abs s id pk sp nm now force :
  abs (match enroll_locked s id pk sp nm now force with Ok s' => s' | Err _ => s end) =
    spec_op (abs s) (OEnroll id pk sp nm now force).
Proof.
  rewrite <- (abs_enroll _ _ _ _ _ _ _ None), enroll_split.
  destruct (enroll_locked _ _ _ _ _ _ _) as [s'|]; [|done].
  unfold abs. by rewrite persist_agents.
Qed.

Lemma revoke_locked_abs s id now :
  abs (unwrap_or (revoke_locked s id now) s) = spec_op (abs s) (ORevoke id now).
Proof.
  rewrite <- (abs_revoke _ _ _ None), revoke_split.
  destruct (revoke_locked _ _ _) as [s'|]; [|done]. simpl.
  pose proof (persist_agents s' None) as Hp. destruct (persist s' None) as [r s'']. simpl in *.
  unfold abs. by rewrite Hp.
Qed.

(** The operator action a step commits to memory. *)
Definition commits (c : Call) : list op :=
  match request c, stage c with
  | REnroll id pk sp nm now force, Start => [OEnroll id pk sp nm now force]
  | RRevoke id now, Start => [ORevoke id now]
  | _, _ => []
  end.

Lemma call_step_abs a c io a' st :
  call_step a c io = Some (a', st) →
  abs (enrollment a') = fold_left spec_op (commits c) (abs (enrollment a)).
Proof.
  unfold call_step, commits. destruct c as [q s]. cbn [request stage]. intros Hc.
  destruct q, s; try discriminate; try (by simplify_eq/=); cbn [fold_left].
  - by destruct (reserve _ _ _ _ _) as [[] ?]; simplify_eq/=.
  - rewrite <- enroll_locked_abs. by destruct (enroll_locked _ _ _ _ _ _ _); simplify_eq/=.
  - by destruct (store_io io); simplify_eq/=.
  - rewrite <- revoke_locked_abs. by destruct (revoke_locked _ _ _); simplify_eq/=.
  - by destruct (store_io io); simplify_eq/=.
Qed.

(** The action of a call that is past its locked part. *)
Definition committed (c : Call) : list op :=
  match stage c with
  | Start => []
  | _ => commits {| request := request c; stage := Start |}
  end.

Lemma committed_step a c io a' st :
  call_step a c io = Some (a', st) →
  committed {| request := request c; stage := st |} = committed c ++ commits c.
Proof.
  unfold call_step, committed, commits. destruct c as [q s]; simpl. intros Hc.
  destruct q, s; simplify_eq/=; try done; repeat case_match; simplify_eq/=; done.
Qed.

Definition history (w : World) : list op := concat (committed <$> calls w).

Lemma step_memory lag w w' :
  step lag w w' → ∃ os,
    abs (enrollment (att w')) = fold_left spec_op os (abs (enrollment (att w))) ∧
    history w' ≡ₚ history w ++ os.
Proof.
  intros [q _|i c io a' st Hi Hc _]; unfold history; simpl.
  - exists []. split; [done|]. by rewrite fmap_app, concat_app.
  - exists (commits c). split; [by eapply call_step_abs|].
    rewrite list_fmap_insert, (committed_step _ _ _ _ _ Hc).
    pose proof (lookup_lt_Some _ _ _ Hi) as Hlt.
    rewrite insert_take_drop by (by rewrite length_fmap).
    rewrite <- (take_drop_middle (committed <$> calls w) i (committed c)) at 3
      by (by rewrite list_lookup_fmap, Hi).
    rewrite !concat_app. simpl. rewrite <- !(assoc_L (++)). do 2 f_equiv. apply Permutation_app_comm.
Qed.

(** The map in memory is linearizable.  After any interleaving it is what the actions
    committed since would have made of it one after the other, in the order
    in which they got the write lock, each call counted once. *)
Theorem memory_linearizable lag w w' :
  rtc (step lag) w w' → ∃ os,
    abs (enrollment (att w')) = fold_left spec_op os (abs (enrollment (att w))) ∧
    history w' ≡ₚ history w ++ os.
Proof.
  induction 1 as [w|w w1 w2 Hs _ (os2 & Ha2 & Hp2)].
  - exists []. by rewrite (right_id_L [] (++)).
  - destruct (step_memory _ _ _ Hs) as (os1 & Ha1 & Hp1). exists (os1 ++ os2).
    rewrite fold_left_app, <- Ha1. split; [done|]. by rewrite Hp2, Hp1, (assoc_L (++)).
Qed.

Lemma step_requests lag w w' :
  step lag w w' → (request <$> calls w) `prefix_of` (request <$> calls w').
Proof.
  intros [q _|i c io a' st Hi _ _]; simpl.
  - rewrite fmap_app. by eexists.
  - rewrite list_fmap_insert. simpl. rewrite list_insert_id; [done|].
    by rewrite list_lookup_fmap, Hi.
Qed.

Lemma steps_requests lag w w' :
  rtc (step lag) w w' → (request <$> calls w) `prefix_of` (request <$> calls w').
Proof. induction 1 as [|w w1 w2 Hs _ IH]; [done|]. etrans; [by eapply step_requests|done]. Qed.

(** A call starts to act for an agent only by finding its key. *)
Lemma acting_step a c io a' st x :
  call_step a c io = Some (a', st) → acting {| request := request c; stage := st |} = Some x →
  acting c = Some x ∨ is_Some (lookup_key (enrollment a) x).
Proof.
  unfold call_step, acting. destruct c as [q s]; simpl. intros Hc Hx.
  destruct q as [msg now| |], s; simplify_eq/=; try (repeat case_match; simplify_eq/=; by auto).
  - destruct (as_object msg) as [m|]; [|done].
    destruct (admit_message a' m now) as [[[[id vk] is'] no]|e] eqn:Ha; simplify_eq/=.
    apply admit_message_ok in Ha. right. rewrite (adm_key _ _ _ _ _ _ _ Ha). eauto.
  - left. destruct (check_signature vk m) as [[]|]; by simplify_eq/=.
Qed.

Lemma step_revoked lag w w' id :
  step lag w w' → lookup_key (enrollment (att w)) id = None →
  Forall (λ c, enrolls id c = false) (calls w) →
  lookup_key (enrollment (att w')) id = None ∧
  ∀ i, calls w' !! i ≫= acting = Some id → calls w !! i ≫= acting = Some id.
Proof.
  intros [q _|i c io a' st Hi Hc _] Hd Hf; simpl.
  - split; [done|]. intros i. destruct (decide (i < length (calls w))%nat) as [Hl|Hl];
      [by rewrite lookup_app_l|]. rewrite lookup_app_r by lia.
    by destruct (i - length (calls w))%nat.
  - split.
    + apply lookup_abs. rewrite (call_step_abs _ _ _ _ _ Hc). apply lookup_abs in Hd.
      pose proof (Forall_lookup_1 _ _ _ _ Hf Hi) as He. revert He. unfold enrolls, commits.
      destruct (request c), (stage c); try done; cbn [fold_left]; intros He; apply spec_op_dead; try done.
      simpl. apply bool_decide_eq_true. by apply bool_decide_eq_false in He.
    + intros j. destruct (decide (j = i)) as [->|Hne]; [|by rewrite list_lookup_insert_ne].
      rewrite list_lookup_insert_eq by (by eapply lookup_lt_Some). rewrite Hi. simpl. intros Hx.
      destruct (acting_step _ _ _ _ _ _ Hc Hx) as [?|[? ?]]; [done|]. congruence.
Qed.

(** A revocation is effective at once.  When the id resolves to no key, then however the
    calls go on interleaving, as long as nobody enrolls the id, it resolves
    to no key and the only calls that can still act for it are those that
    had already looked its key up: every other message of the agent, in
    flight or yet to come, is refused. *)
Theorem revoked_stays_out lag w w' id :
  rtc (step lag) w w' → lookup_key (enrollment (att w)) id = None →
  Forall (λ q, enrolls id {| request := q; stage := Start |} = false) (request <$> calls w') →
  lookup_key (enrollment (att w')) id = None ∧
  ∀ i, calls w' !! i ≫= acting = Some id → calls w !! i ≫= acting = Some id.
Proof.
  induction 1 as [w|w w1 w2 Hs Hr IH]; intros Hd Hf; [done|].
  assert (Forall (λ c, enrolls id c = false) (calls w)) as Hw.
  { destruct (steps_requests _ _ _ (rtc_l _ _ _ _ Hs Hr)) as [l Hl]. rewrite Hl in Hf.
    apply Forall_app in Hf as [Hf _]. by apply Forall_fmap in Hf. }
  destruct (step_revoked _ _ _ _ Hs Hd Hw) as [Hd1 Ha1]. destruct (IH Hd1 Hf) as [Hd2 Ha2]. auto.
Qed.

(** ** The file under interleaving *)

(** The locked parts touch neither the path nor the file. *)
Lemma enroll_locked_file s id pk sp nm now force s' :
  enroll_locked s id pk sp nm now force = Ok s' →
  Enrollment.path s' = Enrollment.path s ∧ Enrollment.disk s' = Enrollment.disk s.
Proof.
  unfold enroll_locked. destruct (is_empty (trim sp)); [done|]. destruct (is_empty (trim nm)); [done|].
  intros (k & _ & Hr)%result_bind_ok. destruct (_ && _); [done|]. by simplify_eq/=.
Qed.

Lemma revoke_locked_file s id now s' :
  revoke_locked s id now = Some s' →
  Enrollment.path s' = Enrollment.path s ∧ Enrollment.disk s' = Enrollment.disk s.
Proof. unfold revoke_locked. destruct (agents s !! id); [|done]. intros. by simplify_eq/=. Qed.

Lemma call_step_store a c io a' st :
  call_step a c io = Some (a', st) → store_inv (enrollment a) →
  store_inv (enrollment a') ∧ Enrollment.path (enrollment a') = Enrollment.path (enrollment a).
Proof.
  intros Hc Hinv. revert Hc. unfold call_step. destruct c as [q s]. cbn [request stage]. intros Hc.
  destruct q as [|id pk sp nm now force|id now], s; try discriminate; try (by simplify_eq/=).
  - by destruct (reserve _ _ _ _ _) as [[] ?]; simplify_eq/=.
  - pose proof (store_inv_enroll _ id pk sp nm now force None Hinv) as He.
    destruct (enroll_locked (enrollment a) id pk sp nm now force) as [s'|] eqn:Hr; simplify_eq/=; [|done].
    split; [|by eapply enroll_locked_file].
    rewrite enroll_split, Hr in He. eapply store_inv_agents; [|exact He]. by rewrite persist_agents.
  - by destruct (store_io io); simplify_eq/=.
  - pose proof (store_inv_revoke _ id now None Hinv) as He.
    destruct (revoke_locked (enrollment a) id now) as [s'|] eqn:Hr; simplify_eq/=; [|done].
    split; [|by eapply revoke_locked_file].
    rewrite revoke_split, Hr in He. pose proof (persist_agents s' None) as Hp.
    destruct (persist s' None) as [r s'']. eapply store_inv_agents; [|exact He]. done.
  - by destruct (store_io io); simplify_eq/=.
Qed.

(** [snapshot] lists the store as it was at some moment between [w] and [w']. *)
Definition snapshot_of (lag : Z) (w w' : World) (snapshot : list EnrollmentRecord) : Prop :=
  ∃ w1, rtc (step lag) w w1 ∧ rtc (step lag) w1 w' ∧ store_inv (enrollment (att w1)) ∧
    Enrollment.path (enrollment (att w1)) = true ∧ snapshot = list_records (enrollment (att w1)).

Lemma snapshot_of_step lag w w' w'' snap :
  snapshot_of lag w w' snap → step lag w' w'' → snapshot_of lag w w'' snap.
Proof. intros (w1 & ? & ? & ? & ? & ?) Hs. exists w1. split_and!; try done. by eapply rtc_r. Qed.

Record file_inv (lag : Z) (w w' : World) : Prop := {
  fi_run : rtc (step lag) w w';
  fi_store : store_inv (enrollment (att w'));
  fi_writing : ∀ i c snap, calls w' !! i = Some c → stage c = Writing snap → snapshot_of lag w w' snap;
  fi_disk : Enrollment.disk (enrollment (att w')) = Enrollment.disk (enrollment (att w)) ∨
    ∃ snap, snapshot_of lag w w' snap ∧
      Enrollment.disk (enrollment (att w')) = Some (to_text {| version := 1; file_agents := snap |});
}.

(** Where a snapshot and a written file come from. *)
Lemma call_step_file a c io a' st :
  call_step a c io = Some (a', st) →
  (∀ snap, st = Writing snap →
     Enrollment.path (enrollment a) = true ∧ snap = list_records (enrollment a)) ∧
  (Enrollment.disk (enrollment a') = Enrollment.disk (enrollment a) ∨
   ∃ snap, stage c = Writing snap ∧
     Enrollment.disk (enrollment a') = Some (to_text {| version := 1; file_agents := snap |})).
Proof.
  unfold call_step. destruct c as [q s]. cbn [request stage]. intros Hc.
  destruct q as [|id pk sp nm now force|id now], s; try discriminate; simplify_eq/=;
    try (split; [intros; repeat case_match; simplify_eq/=; done|by left]).
  - by destruct (reserve _ _ _ _ _) as [[] ?]; simplify_eq/=; split; auto.
  - destruct (enroll_locked _ _ _ _ _ _ _) eqn:Hr; simplify_eq/=; (split; [done|left]); [|done].
    by eapply enroll_locked_file.
  - destruct (store_io io); simplify_eq/=; split; eauto; done.
  - destruct (revoke_locked _ _ _) eqn:Hr; simplify_eq/=; (split; [done|left]); [|done].
    by eapply revoke_locked_file.
  - destruct (store_io io); simplify_eq/=; split; eauto; done.
Qed.

Lemma file_inv_step lag w w1 w2 : file_inv lag w w1 → step lag w1 w2 → file_inv lag w w2.
Proof.
  intros [Hr Hst Hw Hd] Hs. assert (rtc (step lag) w w2) as Hr2 by (by eapply rtc_r).
  assert (∀ snap, snapshot_of lag w w1 snap → snapshot_of lag w w2 snap) as Hup
    by (intros; by eapply snapshot_of_step).
  pose proof Hs as Hs'. destruct Hs' as [q _|i c io a' st Hi Hc _]; simpl in *.
  - split; [done|done| |destruct Hd as [?|(snap & ? & ?)]; eauto]. simpl. intros j d snap Hj Hd'.
    apply Hup. apply lookup_app_Some in Hj as [Hj|[_ Hj]]; [by eapply Hw|].
    apply list_lookup_singleton_Some in Hj as [_ <-]. done.
  - destruct (call_step_file _ _ _ _ _ Hc) as [Hsnap Hdisk].
    split; [done|by eapply call_step_store|..]; simpl.
    + intros j d snap Hj Hst'. destruct (decide (j = i)) as [->|Hne].
      * rewrite list_lookup_insert_eq in Hj by (by eapply lookup_lt_Some). simplify_eq/=.
        destruct (Hsnap snap eq_refl) as [Hp ->]. exists w1. split_and!; try done. by apply rtc_once.
      * rewrite list_lookup_insert_ne in Hj by done. apply Hup. by eapply Hw.
    + destruct Hdisk as [->|(snap & Hsc & ->)]; [destruct Hd as [?|(snap & ? & ?)]; eauto|].
      right. exists snap. split; [|done]. apply Hup. by eapply Hw.
Qed.

(** The file is never a mixture.  Whatever overlaps, the enrollment file either is untouched
    or loads to the whole map as it was in memory at some moment of the run. *)
Theorem file_is_a_past_map lag w w' b :
  rtc (step lag) w w' → calls w = [] → store_inv (enrollment (att w)) →
  Enrollment.disk (enrollment (att w')) = Some b →
  Enrollment.disk (enrollment (att w)) = Some b ∨
  ∃ w1, rtc (step lag) w w1 ∧ rtc (step lag) w1 w' ∧
    load (FileBytes b) = Ok {| Enrollment.path := true; agents := agents (enrollment (att w1));
                               Enrollment.disk := Some b |}.
Proof.
  intros Hr Hn Hst Hb.
  assert (file_inv lag w w') as Hinv.
  { revert w' Hr Hb. intros w' Hr _. revert w' Hr. apply rtc_ind_r.
    - split; [done|done| |by left]. intros i c snap Hi. by rewrite Hn in Hi.
    - intros w1 w2 _ Hs Hf. by eapply file_inv_step. }
  destruct Hinv as [_ _ _ [Hd|(snap & (w1 & Hr1 & Hr2 & Hst1 & Hp1 & ->) & Hd)]]; [left; congruence|].
  right. exists w1. split_and!; [done|done|].
  assert (b = to_text {| version := 1; file_agents := list_records (enrollment (att w1)) |}) as ->
    by congruence.
  by rewrite load_persisted.
Qed.

(** ** Schedules *)

(** An interleaving given move by move, so that it can be run. *)
Inductive Move : Type :=
| Arrive (q : Request)
| Run (i : nat) (io : StepIo).

Definition do_move (lag : Z) (w : World) (mv : Move) : option World :=
  match mv with
  | Arrive q =>
      if from_option (λ now, (0 <=? now) && (now <? MAX_CLOCK)) true (clock_of q)
      then Some {| att := att w; calls := calls w ++ [{| request := q; stage := Start |}]; latest := latest w |}
      else None
  | Run i io =>
      c ← calls w !! i;
      '(a', st) ← call_step (att w) c io;
      if from_option (λ now, latest w <=? now + lag) true (at_lock c)
      then Some {| att := a'; calls := <[i := {| request := request c; stage := st |}]> (calls w);
                   latest := from_option (Z.max (latest w)) (latest w) (at_lock c) |}
      else None
  end.

Fixpoint run_schedule (lag : Z) (w : World) (mvs : list Move) : option World :=
  match mvs with
  | [] => Some w
  | mv :: rest => w' ← do_move lag w mv; run_schedule lag w' rest
  end.

Lemma do_move_step lag w mv w' : do_move lag w mv = Some w' → step lag w w'.
Proof.
  destruct mv as [q|i io]; simpl.
  - intros Hm. destruct (from_option _ _ _) eqn:Hb; simplify_eq. apply step_arrive.
    intros now Hq. rewrite Hq in Hb. simpl in Hb. unfold good_clock. lia.
  - destruct (calls w !! i) as [c|] eqn:Hi; [|done]. simpl.
    destruct (call_step (att w) c io) as [[a' st]|] eqn:Hc; [|done]. simpl. intros Hm.
    destruct (from_option _ true _) eqn:Hb; simplify_eq. eapply step_run; [done|done|].
    intros now Hl. rewrite Hl in Hb. simpl in Hb. lia.
Qed.

Lemma run_schedule_steps lag mvs w w' : run_schedule lag w mvs = Some w' → rtc (step lag) w w'.
Proof.
  revert w. induction mvs as [|mv mvs IH]; intros w; simpl; [by intros [= ->]|].
  destruct (do_move lag w mv) as [w1|] eqn:Hm; [|done]. simpl. intros Hr.
  eapply rtc_l; [by eapply do_move_step|by apply IH].
Qed.
End Concurrent.

Section Witnesses.
#[local] Existing Instance toy_base64.
#[local] Existing Instance toy_ed25519.
#[local] Existing Instance toy_serde.
#[local] Existing Instance toy_serde_line.
#[local] Existing Instance toy_json.
#[local] Existing Instance toy_time.
#[local] Existing Instance toy_debug.

Definition sec (n : Z) : Z := n * 1000000000.
(** A message of agent "a" with a nonce of choice. *)
Definition toy_signed (nonce : str) (issued : Z) : Value :=
  let body := [("chaperone", String "0.1"); ("agent_id", String "a"); ("nonce", String nonce);
               ("issued_at", String (show issued))] in
  match object body with
  | Object m =>
      let canon := match canonical (Object m) with Ok s => s | Err _ => [] end in
      Object (map_insert "sig" (String (encode_signature (sign (Byte.x41 : SigningKey) canon))) m)
  | v => v
  end.

Definition io_fine : StepIo := {| journal_io := io_good; store_io := None |}.
Definition go (i : nat) : Move := Run i io_fine.
Definition toy_world : World := {| att := toy_attestor 30; calls := []; latest := 0 |}.

Definition outcome (w : option World) (i : nat) : option (result unit bool) :=
  w ← w; c ← calls w !! i;
  match stage c with
  | Verified r => Some (if is_ok r then Ok true else Err tt)
  | Stored (Ok b) => Some (Ok b)
  | Stored (Err _) => Some (Err tt)
  | _ => None
  end.

(** Two copies of one message overlap at every lock. *)
Definition twins : list Move :=
  [Arrive (RVerify (toy_signed "n" (sec 50)) (sec 40)); Arrive (RVerify (toy_signed "n" (sec 50)) (sec 41));
   go 0; go 1; go 1; go 0; go 1].

Example twins_outcome :
  outcome (run_schedule (sec 27) toy_world twins) 0 = Some (Err tt) ∧
  outcome (run_schedule (sec 27) toy_world twins) 1 = Some (Ok true).
Proof. split; vm_compute; reflexivity. Qed.

(** One call keeps the message and its clock for a minute and a half before it gets the
    lock; meanwhile the reservation of its twin has run out. *)
Definition stalled : list Move :=
  [Arrive (RVerify (toy_signed "n" (sec 50)) (sec 40)); Arrive (RVerify (toy_signed "n" (sec 50)) (sec 40));
   go 0; go 1; go 1; go 1;
   Arrive (RVerify (toy_signed "other" (sec 140)) (sec 131)); go 2; go 2; go 0; go 0].

(** Without the bound on waiting, the same message is accepted twice: the
    bound is what the retention of three skews buys. *)
Example stalled_call_replays :
  outcome (run_schedule (sec 91) toy_world stalled) 0 = Some (Ok true) ∧
  outcome (run_schedule (sec 91) toy_world stalled) 1 = Some (Ok true) ∧
  from_option (λ _, true) false (run_schedule (sec 27) toy_world stalled) = false.
Proof. split; [|split]; vm_compute; reflexivity. Qed.

(** An enrollment takes its snapshot, a revocation runs from start to end,
    and the enrollment then writes its older snapshot. *)
Definition overtaken : list Move :=
  [Arrive (REnroll "b" (toy_pk Byte.x42) "o" "n" "t1" false); Arrive (RRevoke "a" "t2");
   go 0; go 0; go 1; go 1; go 1; go 0].

(** Both calls report success and the agent is revoked in memory, but the
    file says it is live: the next start of the daemon honours its key again. *)
Theorem revocation_lost_on_disk :
  let w := run_schedule (sec 27) toy_world overtaken in
  outcome w 0 = Some (Ok true) ∧ outcome w 1 = Some (Ok true) ∧
  (w ≫= λ w, lookup_key (enrollment (att w)) "a") = None ∧
  (w ≫= λ w, match load (file_of (enrollment (att w))) with
             | Ok s => lookup_key s "a"
             | Err _ => None
             end) = Some Byte.x41.
Proof. cbv zeta. split; [|split; [|split]]; vm_compute; reflexivity. Qed.

(** *** Witnesses *)

(** The message, clock and intent of a call that accepted. *)
Definition accepted (w : World) (i : nat) : option (Value * Z * VerifiedIntent) :=
  c ← calls w !! i;
  match request c, stage c with
  | RVerify m t, Verified (Ok v) => Some (m, t, v)
  | _, _ => None
  end.

Lemma accepted_Some w i m t v :
  accepted w i = Some (m, t, v) →
  calls w !! i = Some {| request := RVerify m t; stage := Verified (Ok v) |}.
Proof.
  unfold accepted. destruct (calls w !! i) as [[q st]|]; [|done]. simpl.
  destruct q, st as [| | |[]| | |]; intros; simplify_eq/=; done.
Qed.

(** Two messages of one agent overlap and both are accepted. *)
Definition siblings : list Move :=
  [Arrive (RVerify (toy_signed "n" (sec 50)) (sec 40)); Arrive (RVerify (toy_signed "p" (sec 50)) (sec 41));
   go 0; go 1; go 1; go 0; go 0; go 1].

Lemma accepted_once_interleaved_witness :
  ∃ w m t v m' u v', run_schedule (sec 27) toy_world siblings = Some w ∧
    accepted w 0 = Some (m, t, v) ∧ accepted w 1 = Some (m', u, v') ∧
    (v_agent_id v, v_nonce v, v_issued_at v) ≠ (v_agent_id v', v_nonce v', v_issued_at v').
Proof.
  assert (from_option (λ w, bool_decide (is_Some (fst <$> accepted w 0)) &&
                            bool_decide (is_Some (fst <$> accepted w 1))) false
            (run_schedule (sec 27) toy_world siblings) = true) as Hok by (vm_compute; reflexivity).
  destruct (run_schedule (sec 27) toy_world siblings) as [w|] eqn:Hw; [|discriminate Hok].
  simpl in Hok.
  destruct (accepted w 0) as [[[m t] v]|] eqn:Ha; [|discriminate Hok].
  destruct (accepted w 1) as [[[m' u] v']|] eqn:Hb; [|discriminate Hok].
  exists w, m, t, v, m', u, v'. split; [reflexivity|]. split; [exact Ha|]. split; [exact Hb|].
  apply (accepted_once_interleaved (sec 27) toy_world w 0 1 m m' t u v v').
  - vm_compute. split; discriminate.
  - vm_compute. discriminate.
  - split; [reflexivity|apply in_memory_inv].
  - by apply (run_schedule_steps _ siblings).
  - discriminate.
  - by apply accepted_Some.
  - by apply accepted_Some.
Defined.

Definition revoked_world : World :=
  {| att := set_store (toy_attestor 30) (revoke (enrollment (toy_attestor 30)) "a" "t1" None).2;
     calls := []; latest := 0 |}.

Definition late_message : list Move :=
  [Arrive (RVerify (toy_signed "n" (sec 50)) (sec 40)); go 0].

Lemma revoked_stays_out_witness :
  ∃ w, run_schedule (sec 27) revoked_world late_message = Some w ∧
    lookup_key (enrollment (att w)) "a" = None ∧
    ∀ i, calls w !! i ≫= acting = Some "a" → calls revoked_world !! i ≫= acting = Some "a".
Proof.
  assert (from_option (λ w, forallb (λ q, negb (enrolls "a" {| request := q; stage := Start |}))
            (request <$> calls w)) false (run_schedule (sec 27) revoked_world late_message) = true) as Hok
    by (vm_compute; reflexivity).
  destruct (run_schedule (sec 27) revoked_world late_message) as [w|] eqn:Hw; [|discriminate Hok].
  exists w. split; [reflexivity|]. apply (revoked_stays_out (sec 27) revoked_world w "a").
  - by apply (run_schedule_steps _ late_message).
  - vm_compute. reflexivity.
  - simpl in Hok. apply Forall_forall. intros q Hq. rewrite forallb_forall in Hok.
    specialize (Hok q). apply list_elem_of_In in Hq. apply Hok in Hq. by apply negb_true_iff in Hq.
Defined.

Lemma memory_linearizable_witness :
  ∃ w os, run_schedule (sec 27) toy_world overtaken = Some w ∧
    abs (enrollment (att w)) = fold_left spec_op os (abs (enrollment (att toy_world))) ∧
    history w ≡ₚ history toy_world ++ os.
Proof.
  assert (from_option (λ _, true) false (run_schedule (sec 27) toy_world overtaken) = true) as Hok
    by (vm_compute; reflexivity).
  destruct (run_schedule (sec 27) toy_world overtaken) as [w|] eqn:Hw; [|discriminate Hok].
  destruct (memory_linearizable (sec 27) toy_world w) as (os & Ha & Hp).
  - by apply (run_schedule_steps _ overtaken).
  - exists w, os. split; [reflexivity|]. split; [exact Ha|exact Hp].
Defined.

Lemma file_is_a_past_map_witness :
  ∃ w b, run_schedule (sec 27) toy_world overtaken = Some w ∧
    Enrollment.disk (enrollment (att w)) = Some b ∧
    (Enrollment.disk (enrollment (att toy_world)) = Some b ∨
     ∃ w1, rtc (step (sec 27)) toy_world w1 ∧ rtc (step (sec 27)) w1 w ∧
       load (FileBytes b) = Ok {| Enrollment.path := true; agents := agents (enrollment (att w1));
                                  Enrollment.disk := Some b |}).
Proof.
  assert (from_option (λ w, bool_decide (is_Some (Enrollment.disk (enrollment (att w))))) false
            (run_schedule (sec 27) toy_world overtaken) = true) as Hok by (vm_compute; reflexivity).
  destruct (run_schedule (sec 27) toy_world overtaken) as [w|] eqn:Hw; [|discriminate Hok].
  simpl in Hok. destruct (Enrollment.disk (enrollment (att w))) as [b|] eqn:Hb; [|discriminate Hok].
  exists w, b. split; [reflexivity|]. split; [exact Hb|].
  apply (file_is_a_past_map (sec 27) toy_world w b).
  - by apply (run_schedule_steps _ overtaken).
  - reflexivity.
  - apply store_inv_enroll, fresh_good.
  - exact Hb.
Defined.
End Witnesses.
