(* ===== verification/AuditChain.v ===== *)
(** The audit chain: [crates/audit/src/{event,keys,writer,verify}.rs].

    Events and their record bodies, sealing (canonical body, hash over the
    predecessor, signature), the append-only writer with its journal file, and
    the line-by-line verifier.  The theorems: what the writer appends always
    verifies and resumes, a verified journal is fixed by its head hash up to a
    SHA-256 collision inside the pair of journals, and what a failed write and
    a message of the deepest nesting do to the chain. *)

From S2P Require Import Prelude Strs Json Extern Toy Protocol.
#[local] Open Scope Z_scope.

(** ** event.rs *)

Inductive Outcome : Type :=
| Proceeded
| OutcomeDenied
| ConfirmationTimeout
| CredentialUnresolved
| MechanismError
| IdentityFailed (code : str)
| SessionOpened (handle : str)
| SessionClosed (reason : str) (exit_code : option Z)
| OutcomePolicyDrift (observed_hash detail : str).

(** [Outcome::to_value]. *)
Definition outcome_value (o : Outcome) : Value :=
  match o with
  | Proceeded => object [("status", jstr "proceeded")]
  | OutcomeDenied => object [("status", jstr "denied")]
  | ConfirmationTimeout => object [("status", jstr "confirm_timeout")]
  | CredentialUnresolved => object [("status", jstr "cred_unresolved")]
  | IdentityFailed code => object [("status", jstr "identity_failed"); ("code", jstr code)]
  | MechanismError => object [("status", jstr "mechanism_error")]
  | SessionOpened handle => object [("status", jstr "session_opened"); ("session_handle", jstr handle)]
  | SessionClosed reason exit_code =>
      object [("status", jstr "session_closed"); ("reason", jstr reason);
              ("exit_code", match exit_code with Some n => jnum n | None => Null end)]
  | OutcomePolicyDrift observed_hash detail =>
      object [("status", jstr "policy_drift"); ("observed_hash", jstr observed_hash);
              ("detail", jstr detail)]
  end.

Inductive RecordKind : Type := Genesis | IntentDecision | PolicyLoad | PolicyDrift.

(** [RecordKind::as_str]. *)
Definition record_kind_str (k : RecordKind) : str :=
  match k with
  | Genesis => "genesis"
  | IntentDecision => "intent_decision"
  | PolicyLoad => "policy_load"
  | PolicyDrift => "policy_drift"
  end.

Record AuditEvent : Type := {
  record_kind : RecordKind;
  ruleset_hash : str;
  ev_agent_id : str;
  ev_sponsor_id : str;
  ev_msg_id : str;
  ev_mechanism : str;
  ev_target_uri : str;
  ev_target_label : str;
  ev_cred_ref : str;
  ev_effect : str;
  ev_outcome : Outcome;
  intent_envelope : Value;
}.

(** ** writer.rs: hexadecimal *)

(** [hex] is [hex_bytes]; [unhex] accepts both cases. *)
Fixpoint unhex_pairs (s : str) : option str :=
  match s with
  | a :: b :: r =>
      hi ← hex_value a; lo ← hex_value b; t ← unhex_pairs r; Some (zb (hi * 16 + lo) :: t)
  | _ => Some []
  end.

Definition unhex (s : str) : option str :=
  if Nat.even (length s) then unhex_pairs s else None.

Lemma unhex_hex_pairs b : unhex_pairs (hex_bytes b) = Some b.
Proof.
  induction b as [|x b IH]; [done|]. cbn [hex_bytes unhex_pairs]. pose proof (bz_range x).
  rewrite !hex_value_digit by (try apply Z.mod_pos_bound; try split;
    try apply Z.div_pos; try apply Z.div_lt_upper_bound; lia).
  cbn [mbind option_bind]. rewrite IH. cbn [mbind option_bind]. do 2 f_equal.
  rewrite Z.mul_comm, <- Z.div_mod by lia. apply zb_bz.
Qed.

Lemma unhex_hex b : unhex (hex_bytes b) = Some b.
Proof.
  unfold unhex. rewrite length_hex_bytes, Nat.even_mul. simpl. apply unhex_hex_pairs.
Qed.

Lemma saturating_succ n : n + 1 < 2 ^ 53 → u64_saturating_add n 1 = n + 1.
Proof. unfold u64_saturating_add, u64_max. lia. Qed.

Definition zeros : str := replicate 32 (zb 0).

Lemma zeros_len : length zeros = 32%nat.
Proof. reflexivity. Qed.

Definition CHAIN_VERSION : Z := 1.
Definition UNHASHED_FIELDS : list str := ["this_hash"; "sig"].
Definition GENESIS_PREV_HEX : str := "0000000000000000000000000000000000000000000000000000000000000000".

Lemma genesis_prev_hex : GENESIS_PREV_HEX = hex_bytes zeros.
Proof. vm_compute. reflexivity. Qed.

Record Break : Type := { brk_line : nat; brk_reason : str }.
Record Tail : Type := { tail_seq : Z; tail_hash_hex : str }.
Record Report : Type := { tail : option Tail; error : option Break; records_ok : nat }.
Record Head : Type := { head_seq : Z; head_hash_hex : str }.

Inductive AuditError : Type :=
| AIo (e : str)
| BrokenChain (b : Break)
| ASerialize (e : str).

Section Chain.
Context `{Base64, Ed25519, JsonText, Sha256, DebugFmt}.

(** ** keys.rs *)

(** [verifying_key_from_b64url]. *)
Definition verifying_key_from_b64url (encoded : str) : result str VerifyingKey :=
  raw ← map_err (λ e, "public key is not valid base64url: " ++ e) (b64url_decode (trim encoded));
  if decide (length raw = 32%nat) then vk_from_bytes raw
  else Err ("public key must be 32 bytes, got " ++ show (zlen raw)).

(** [AuditKey::public_key_b64url], [sign_raw] / [sign_message],
    [verify_raw] / [verify_message] (each pair has the same body). *)
Definition public_key_b64url (key : SigningKey) : str :=
  encode_signature (vk_to_bytes (verifying_key key)).

Definition sign_raw (key : SigningKey) (msg : str) : str := encode_signature (sign key msg).

Definition verify_raw (vk : VerifyingKey) (msg sig_b64url : str) : bool :=
  match decode_signature sig_b64url with
  | Ok raw => bool_decide (length raw = 64%nat) && sig_verify vk msg raw
  | Err _ => false
  end.

Lemma verify_sign_raw key msg : verify_raw (verifying_key key) msg (sign_raw key msg) = true.
Proof.
  unfold verify_raw, sign_raw. rewrite decode_encode_signature.
  rewrite bool_decide_eq_true_2 by apply sign_len. by rewrite sign_verifies.
Qed.

(** ** writer.rs: sealing *)

(** [compute_hash]. *)
Definition compute_hash (body : Value) (prev_hash : str) : str :=
  let canon := match canonical_form_excluding body UNHASHED_FIELDS with Ok s => s | Err _ => [] end in
  sha256 (prev_hash ++ canon).

(** [seal_record]. *)
Definition seal_record (body : Value) (prev_hash : str) (key : SigningKey)
  : result AuditError (str * str) :=
  let this_hash := compute_hash body prev_hash in
  let signature := sign_raw key this_hash in
  let full := match body with
              | Object m => Object (map_insert "sig" (String signature)
                                     (map_insert "this_hash" (String (hex_bytes this_hash)) m))
              | v => v
              end in
  line ← map_err (λ e, ASerialize (canonical_error_str e)) (canonical_form_excluding full []);
  if utf8_valid line then Ok (this_hash, line) else Err (ASerialize "invalid utf-8 sequence").

(** ** verify.rs *)

Definition field_str (m : Map) (name : str) : option str := map_get name m ≫= as_str.
Definition field_u64 (m : Map) (name : str) : option Z := map_get name m ≫= as_u64.

(** [verify_line]. *)
Definition verify_line (line expect_prev_hex : str) (expect_seq : Z) (vk : VerifyingKey)
  : result str (Z * str) :=
  value ← map_err (λ e, "not JSON: " ++ e) (json_from_str line);
  obj ← ok_or (as_object value) "record is not a JSON object";
  if decide (field_u64 obj "chain_version" = Some CHAIN_VERSION) then
    seq ← ok_or (field_u64 obj "seq") "missing seq";
    if decide (seq = expect_seq) then
      this_hash_hex ← ok_or (field_str obj "this_hash") "missing this_hash";
      prev_hash ← ok_or (field_str obj "prev_hash") "missing prev_hash";
      if decide (prev_hash = expect_prev_hex) then
        canon ← map_err (λ e, "body canonicalization failed: " ++ canonical_error_str e)
                  (canonical_form_excluding value UNHASHED_FIELDS);
        prev_raw ← ok_or (unhex expect_prev_hex) "predecessor hash is not hex";
        let recomputed := sha256 (prev_raw ++ canon) in
        stored ← ok_or (unhex this_hash_hex) "this_hash is not hex";
        if decide (stored = recomputed) then
          sig ← ok_or (field_str obj "sig") "missing sig";
          if verify_raw vk recomputed sig then Ok (seq, this_hash_hex)
          else Err "signature does not verify under the audit key"
        else Err "this_hash does not match recomputed content hash"
      else Err ("prev_hash " ++ prev_hash ++ " does not match predecessor " ++ expect_prev_hex)
    else Err ("expected seq " ++ show expect_seq ++ ", found " ++ show seq)
  else Err ("chain_version mismatch: " ++ debug_opt_value (map_get "chain_version" obj)).

(** The loop of [walk_lines] from line [i] on. *)
Fixpoint walk (i : nat) (ls : list str) (vk : VerifyingKey) (expect_prev : str)
    (t : option Tail) (ok : nat) : Report :=
  match ls with
  | [] => {| tail := t; error := None; records_ok := ok |}
  | line :: rest =>
      if is_empty (trim line) then walk (S i) rest vk expect_prev t ok
      else match verify_line line expect_prev (Z.of_nat ok) vk with
           | Ok (seq, hash) =>
               walk (S i) rest vk hash (Some {| tail_seq := seq; tail_hash_hex := hash |}) (S ok)
           | Err reason =>
               {| tail := t; error := Some {| brk_line := i; brk_reason := reason |}; records_ok := ok |}
           end
  end.

(** [walk_lines], which [verify_file] applies to the content of a file. *)
Definition walk_lines (journal : str) (vk : VerifyingKey) : Report :=
  walk 0 (lines journal) vk GENESIS_PREV_HEX None 0.

(** ** writer.rs: the writer *)

(** The chain state, the key and the content of the journal file. *)
Record AuditWriter : Type := {
  w_seq : Z;
  w_prev_hash : str;
  w_key : SigningKey;
  journal : str;
}.

Definition set_state (w : AuditWriter) (seq : Z) (h : str) : AuditWriter :=
  {| w_seq := seq; w_prev_hash := h; w_key := w_key w; journal := journal w |}.

(** [write_line]: [short] is [None] when the line is written and synced, else
    the number of bytes that reached the file before the error. *)
Definition write_line (w : AuditWriter) (line : str) (short : option nat)
  : result AuditError unit * AuditWriter :=
  let bytes := line ++ [zb 10] in
  let put b := {| w_seq := w_seq w; w_prev_hash := w_prev_hash w; w_key := w_key w;
                  journal := journal w ++ b |} in
  match short with
  | None => (Ok tt, put bytes)
  | Some n => (Err (AIo "write failed"), put (take n bytes))
  end.

(** The fields of an event's record. *)
Definition event_fields (seq : Z) (prev_hash ts : str) (ev : AuditEvent) : list (str * Value) :=
  [("chain_version", jnum CHAIN_VERSION); ("seq", jnum seq);
   ("kind", jstr (record_kind_str (record_kind ev)));
   ("ruleset_hash", jstr (ruleset_hash ev)); ("ts", jstr ts);
   ("prev_hash", jstr (hex_bytes prev_hash));
   ("agent_id", jstr (ev_agent_id ev)); ("sponsor_id", jstr (ev_sponsor_id ev));
   ("msg_id", jstr (ev_msg_id ev)); ("mechanism", jstr (ev_mechanism ev));
   ("target_uri", jstr (ev_target_uri ev)); ("target_label", jstr (ev_target_label ev));
   ("cred_ref", jstr (ev_cred_ref ev)); ("effect", jstr (ev_effect ev));
   ("outcome", outcome_value (ev_outcome ev)); ("intent", intent_envelope ev)].

Definition event_body (seq : Z) (prev_hash ts : str) (ev : AuditEvent) : Value :=
  object (event_fields seq prev_hash ts ev).

Definition genesis_body (ts : str) : Value :=
  object [("chain_version", jnum CHAIN_VERSION); ("seq", jnum 0); ("kind", jstr "genesis");
          ("ruleset_hash", jstr []); ("ts", jstr ts); ("prev_hash", jstr (hex_bytes zeros))].

(** Sealing a body and writing it as record [seq]: the state moves first. *)
Definition commit (w : AuditWriter) (body : Value) (prev : str) (seq : Z) (short : option nat)
  : result AuditError Head * AuditWriter :=
  match seal_record body prev (w_key w) with
  | Err e => (Err e, w)
  | Ok (this_hash, line) =>
      match write_line (set_state w seq this_hash) line short with
      | (Err e, w') => (Err e, w')
      | (Ok _, w') => (Ok {| head_seq := seq; head_hash_hex := hex_bytes this_hash |}, w')
      end
  end.

(** [AuditWriter::append]; [ts] is the formatted clock. *)
Definition append (w : AuditWriter) (ev : AuditEvent) (ts : result str str) (short : option nat)
  : result AuditError Head * AuditWriter :=
  match ts with
  | Err e => (Err (ASerialize e), w)
  | Ok now =>
      let next_seq := u64_saturating_add (w_seq w) 1 in
      commit w (event_body next_seq (w_prev_hash w) now ev) (w_prev_hash w) next_seq short
  end.

(** [AuditWriter::append_genesis]. *)
Definition append_genesis (w : AuditWriter) (ts : result str str) (short : option nat)
  : result AuditError unit * AuditWriter :=
  match ts with
  | Err e => (Err (ASerialize e), w)
  | Ok now =>
      match commit w (genesis_body now) zeros 0 short with
      | (Ok _, w') => (Ok tt, w')
      | (Err e, w') => (Err e, w')
      end
  end.

(** [AuditWriter::head]. *)
Definition head (w : AuditWriter) : Head :=
  {| head_seq := w_seq w; head_hash_hex := hex_bytes (w_prev_hash w) |}.

(** The resume part of [AuditWriter::open]: the state a non-empty journal
    ends in, or the break that forbids extending it. *)
Definition resume (existing : str) (key : SigningKey) : result AuditError (Z * str) :=
  let report := walk_lines existing (verifying_key key) in
  match error report with
  | Some brk => Err (BrokenChain brk)
  | None =>
      t ← ok_or (tail report) (BrokenChain {| brk_line := 0; brk_reason := "journal is neither empty nor verifiable" |});
      decoded ← ok_or (unhex (tail_hash_hex t))
                  (BrokenChain {| brk_line := S (Z.to_nat (tail_seq t)); brk_reason := "tail hash is not hex" |});
      if decide (length decoded = 32%nat) then Ok (tail_seq t, decoded)
      else Err (BrokenChain {| brk_line := S (Z.to_nat (tail_seq t)); brk_reason := "tail hash is not 32 bytes" |})
  end.

(** [AuditWriter::open] on the content of the file, if it exists. *)
Definition open (existing : option str) (key : SigningKey) (ts : result str str) (short : option nat)
  : result AuditError AuditWriter :=
  let fresh := {| w_seq := 0; w_prev_hash := zeros; w_key := key; journal := default [] existing |} in
  let start := match append_genesis fresh ts short with
               | (Ok _, w) => Ok w
               | (Err e, _) => Err e
               end in
  match existing with
  | None => start
  | Some content =>
      if utf8_valid content then
        if is_empty (trim content) then start
        else '(seq, h) ← resume content key;
             Ok {| w_seq := seq; w_prev_hash := h; w_key := key; journal := content |}
      else Err (AIo "stream did not contain valid UTF-8")
  end.

#[local] Arguments append : simpl never.
#[local] Arguments open : simpl never.
#[local] Arguments commit : simpl never.

(** ** What the writer seals, the verifier accepts *)

(** A record body for position [n] after the hash [prev]. *)
Record body_for (n : Z) (prev : str) (m : Map) : Prop := {
  bf_sorted : keys_sorted m;
  bf_version : map_get "chain_version" m = Some (jnum CHAIN_VERSION);
  bf_seq : map_get "seq" m = Some (jnum n);
  bf_prev : map_get "prev_hash" m = Some (String (hex_bytes prev));
  bf_depth : (depth (Object m) ≤ MAX_DEPTH)%nat;
}.

Definition stamped (m : Map) (h signature : str) : Map :=
  map_insert "sig" (String signature) (map_insert "this_hash" (String (hex_bytes h)) m).

Lemma stamped_stripped m h sg :
  map_remove "sig" (map_remove "this_hash" (stamped m h sg)) = map_remove "sig" (map_remove "this_hash" m).
Proof.
  unfold stamped. rewrite (map_remove_comm "sig" "this_hash" (map_insert _ _ _)), map_remove_insert.
  by rewrite map_remove_comm, map_remove_insert.
Qed.

Lemma seal_line prev m key h line :
  keys_sorted m → (depth (Object m) ≤ MAX_DEPTH)%nat → seal_record (Object m) prev key = Ok (h, line) →
  h = sha256 (prev ++ match canonical (Object (map_remove "sig" (map_remove "this_hash" m))) with
                      | Ok s => s | Err _ => [] end) ∧
  let full := stamped m h (sign_raw key h) in
  canonical (Object full) = Ok line ∧ json_from_str line = Ok (Object (map_values normalize full)) ∧
  keys_sorted full.
Proof.
  intros Hb Hd. unfold seal_record, canonical_form_excluding, UNHASHED_FIELDS. cbn [as_object fold_left].
  set (h' := compute_hash (Object m) prev). fold (stamped m h' (sign_raw key h')).
  intros (line' & Hl & Hr)%result_bind_ok. destruct (utf8_valid line') eqn:Hu; [|done].
  injection Hr as <- <-. split.
  - unfold h', compute_hash, canonical_form_excluding, UNHASHED_FIELDS. cbn [as_object fold_left].
    by destruct (canonical (Object (map_remove "sig" (map_remove "this_hash" m)))).
  - destruct (canonical (Object (stamped m h' (sign_raw key h')))) as [s|e] eqn:Hc; [|done].
    injection Hl as ->.
    assert (keys_sorted (stamped m h' (sign_raw key h'))) as Hs.
    { unfold stamped. by do 2 apply keys_sorted_insert. }
    split_and!; [done| |done]. rewrite (canonical_parses _ _ Hc); [by rewrite normalize_object|].
    unfold stamped. do 2 (apply depth_insert; [simpl; lia|]). exact Hd.
Qed.

Lemma stamped_get m h sg k :
  k ∉ UNHASHED_FIELDS → map_get k (stamped m h sg) = map_get k m.
Proof.
  unfold stamped, UNHASHED_FIELDS. intros Hk.
  rewrite !map_get_insert_ne by (intros ->; apply Hk; vm_compute; set_solver). done.
Qed.

Lemma jnum_u64 n : 0 ≤ n → jnum n = Number (PosInt n).
Proof. intros Hn. unfold jnum. by destruct (Z.ltb_spec n 0); [lia|]. Qed.

(** The fields of a sealed record, as the verifier reads them. *)
Lemma sealed_fields n prev m h sg :
  body_for n prev m → 0 ≤ n < 2 ^ 53 →
  let obj := map_values normalize (stamped m h sg) in
  field_u64 obj "chain_version" = Some CHAIN_VERSION ∧ field_u64 obj "seq" = Some n ∧
  field_str obj "this_hash" = Some (hex_bytes h) ∧ field_str obj "prev_hash" = Some (hex_bytes prev) ∧
  field_str obj "sig" = Some sg.
Proof.
  intros Hb Hn obj. unfold field_u64, field_str, obj. rewrite !map_get_values.
  rewrite (stamped_get m h sg "chain_version"), (stamped_get m h sg "seq"),
    (stamped_get m h sg "prev_hash") by (vm_compute; set_solver).
  rewrite (bf_version _ _ _ Hb), (bf_seq _ _ _ Hb), (bf_prev _ _ _ Hb).
  unfold stamped. rewrite map_get_insert, map_get_insert_ne, map_get_insert by done.
  rewrite !jnum_u64 by (unfold CHAIN_VERSION; lia). cbn [fmap option_fmap option_map mbind option_bind].
  rewrite !normalize_int, !normalize_string by (unfold CHAIN_VERSION; lia).
  split_and!; reflexivity.
Qed.

Lemma seal_verifies n prev m key h line :
  body_for n prev m → 0 ≤ n < 2 ^ 53 → seal_record (Object m) prev key = Ok (h, line) →
  verify_line line (hex_bytes prev) n (verifying_key key) = Ok (n, hex_bytes h).
Proof.
  intros Hb Hn Hs. destruct (seal_line _ _ _ _ _ (bf_sorted _ _ _ Hb) (bf_depth _ _ _ Hb) Hs) as (Hh & Hc & Hp & Hsrt).
  destruct (sealed_fields n prev m h (sign_raw key h) Hb Hn) as (Hv & Hq & Ht & Hpv & Hsg).
  unfold verify_line. rewrite Hp. cbn [map_err mbind result_bind as_object ok_or].
  rewrite Hv, decide_True, Hq by done. cbn [ok_or mbind result_bind].
  rewrite decide_True, Ht, Hpv by done. cbn [ok_or mbind result_bind]. rewrite decide_True by done.
  destruct (canonical_remove _ "this_hash" _ Hsrt Hc) as (s1 & Hc1).
  destruct (canonical_remove _ "sig" _ (keys_sorted_remove "this_hash" _ Hsrt) Hc1) as (s2 & Hc2).
  assert (canonical_form_excluding (Object (map_values normalize (stamped m h (sign_raw key h))))
            UNHASHED_FIELDS = Ok s2) as ->.
  { unfold canonical_form_excluding, UNHASHED_FIELDS. cbn [as_object fold_left].
    rewrite !map_remove_values. unfold map_values. rewrite <- normalize_object, canonical_normalize, Hc2.
    - done.
    - by do 2 apply keys_sorted_remove. }
  cbn [map_err mbind result_bind]. rewrite unhex_hex. cbn [ok_or mbind result_bind].
  rewrite unhex_hex. cbn [ok_or mbind result_bind].
  rewrite stamped_stripped in Hc2. rewrite Hc2 in Hh. rewrite <- Hh, decide_True, Hsg by done.
  cbn [ok_or mbind result_bind]. by rewrite verify_sign_raw.
Qed.

Lemma seal_wrong_seq n k prev p prev' m key h line vk :
  body_for n prev m → 0 ≤ n < 2 ^ 53 → seal_record (Object m) p key = Ok (h, line) → k ≠ n →
  verify_line line prev' k vk = Err ("expected seq " ++ show k ++ ", found " ++ show n).
Proof.
  intros Hb Hn Hs Hk. destruct (seal_line _ _ _ _ _ (bf_sorted _ _ _ Hb) (bf_depth _ _ _ Hb) Hs) as (_ & _ & Hp & _).
  destruct (sealed_fields n prev m h (sign_raw key h) Hb Hn) as (Hv & Hq & _).
  unfold verify_line. rewrite Hp. cbn [map_err mbind result_bind as_object ok_or].
  rewrite Hv, decide_True, Hq by done. cbn [ok_or mbind result_bind]. by rewrite decide_False.
Qed.

(** ** Walking a journal of terminated lines *)

Definition jtext (ls : list str) : str := mjoin ((λ l, l ++ [zb 10]) <$> ls).

Lemma jtext_snoc ls l : jtext (ls ++ [l]) = jtext ls ++ l ++ [zb 10].
Proof.
  unfold jtext. rewrite fmap_app, join_app. f_equal. rewrite <- (app_nil_r (l ++ [zb 10])). done.
Qed.

Definition one_line (l : str) : Prop := (zb 10 ∉ l) ∧ (zb 13 ∉ l) ∧ ∃ r, l = Byte.x7b :: r.

Lemma one_line_nonblank l t : one_line l → is_empty (trim (l ++ t)) = false.
Proof.
  intros (_ & _ & r & ->). apply (trim_nonempty Byte.x7b); [set_solver|]. vm_compute. reflexivity.
Qed.

Lemma jtext_nonblank ls : Forall one_line ls → ls ≠ [] → is_empty (trim (jtext ls)) = false.
Proof.
  intros [|l ls' Hl _]; [done|]. intros _. unfold jtext. rewrite fmap_cons. cbn [mjoin list_join].
  rewrite <- app_assoc. by apply one_line_nonblank.
Qed.

Lemma lines_jtext ls : Forall one_line ls → lines (jtext ls) = ls.
Proof. intros Hf. apply lines_terminated. eapply Forall_impl; [done|]. by intros l (?&?&_). Qed.

Definition prev_of (t : option Tail) : str :=
  match t with Some x => tail_hash_hex x | None => GENESIS_PREV_HEX end.

Lemma walk_app i ls ls' vk t ok :
  error (walk i ls vk (prev_of t) t ok) = None →
  walk i (ls ++ ls') vk (prev_of t) t ok =
    let r := walk i ls vk (prev_of t) t ok in
    walk (i + length ls) ls' vk (prev_of (tail r)) (tail r) (records_ok r).
Proof.
  revert i t ok. induction ls as [|l ls IH]; intros i t ok; simpl; [by rewrite Nat.add_0_r|].
  destruct (is_empty (trim l)).
  { intros He. rewrite IH by done. by rewrite Nat.add_succ_r. }
  destruct (verify_line l (prev_of t) (Z.of_nat ok) vk) as [[q h]|]; [|done].
  intros He. specialize (IH (S i) (Some {| tail_seq := q; tail_hash_hex := h |}) (S ok)).
  simpl in IH. rewrite IH by done. by rewrite Nat.add_succ_r.
Qed.

Lemma walk_snoc ls l vk r q h :
  walk 0 ls vk GENESIS_PREV_HEX None 0 = r → error r = None → one_line l →
  verify_line l (prev_of (tail r)) (Z.of_nat (records_ok r)) vk = Ok (q, h) →
  walk 0 (ls ++ [l]) vk GENESIS_PREV_HEX None 0 =
    {| tail := Some {| tail_seq := q; tail_hash_hex := h |}; error := None;
       records_ok := S (records_ok r) |}.
Proof.
  intros Hr He Hol Hv. pose proof (one_line_nonblank l [] Hol) as Hl. rewrite app_nil_r in Hl.
  pose proof (walk_app 0 ls [l] vk None 0) as Hw. simpl in Hw.
  rewrite Hr in Hw. rewrite Hw by done. by rewrite Hl, Hv.
Qed.

(** ** The writer's invariant *)

(** The journal is a sequence of sealed lines that verifies up to exactly the
    position and hash the writer holds in memory. *)
Definition chain_inv (w : AuditWriter) : Prop :=
  ∃ ls, Forall one_line ls ∧ Forall (λ l, utf8_valid l = true) ls ∧ journal w = jtext ls ∧
    0 ≤ w_seq w ∧ length (w_prev_hash w) = 32%nat ∧
    walk 0 ls (verifying_key (w_key w)) GENESIS_PREV_HEX None 0 =
      {| tail := Some {| tail_seq := w_seq w; tail_hash_hex := hex_bytes (w_prev_hash w) |};
         error := None; records_ok := S (Z.to_nat (w_seq w)) |}.

Lemma canonical_line_ok m s : canonical (Object m) = Ok s → one_line s ∧ utf8_valid s = true.
Proof.
  intros Hc. split; [by eapply canonical_one_line|by eapply canonical_utf8].
Qed.

Lemma jtext_utf8 ls : Forall (λ l, utf8_valid l = true) ls → utf8_valid (jtext ls) = true.
Proof.
  induction 1 as [|l ls Hl _ IH]; [done|]. unfold jtext in *. rewrite fmap_cons.
  cbn [mjoin list_join]. rewrite <- app_assoc, utf8_valid_app by done. exact IH.
Qed.

(** Events that can be sealed: everything is serializable when the intent is,
    and exit codes are machine integers.  The sealed line can be read back when
    the intent leaves one level of nesting for the record around it. *)
Definition sealable (ev : AuditEvent) : Prop :=
  is_ok (canonical (intent_envelope ev)) = true ∧
  match ev_outcome ev with SessionClosed _ (Some n) => Z.abs n < 2 ^ 53 | _ => True end.

Definition shallow (ev : AuditEvent) : Prop := (depth (intent_envelope ev) < MAX_DEPTH)%nat.

Definition recordable (ev : AuditEvent) : Prop := sealable ev ∧ shallow ev.

Definition good_values (m : Map) : Prop := Forall (λ kv, is_ok (canonical kv.2) = true) m.

Definition low_values (fields : Map) : Prop := Forall (λ kv, (depth kv.2 < MAX_DEPTH)%nat) fields.

Lemma low_object fields m : low_values fields → object fields = Object m → (depth (Object m) ≤ MAX_DEPTH)%nat.
Proof.
  intros Hf Hm. apply (depth_object m 126). eapply object_forall; [exact Hm|].
  eapply Forall_impl; [exact Hf|]. unfold MAX_DEPTH. intros kv. simpl. lia.
Qed.

(** A body built from fields is one for its position. *)
Lemma object_fields_for n prev fields :
  low_values fields →
  get (object fields) "chain_version" = Some (jnum CHAIN_VERSION) →
  get (object fields) "seq" = Some (jnum n) →
  get (object fields) "prev_hash" = Some (String (hex_bytes prev)) →
  ∃ m, object fields = Object m ∧ body_for n prev m ∧
    (Forall (λ kv, is_ok (canonical kv.2) = true) fields → good_values m).
Proof.
  intros Hf Hv Hs Hp. destruct (object_sorted fields) as (m & Hm & Hst).
  pose proof (low_object _ _ Hf Hm) as Hd. rewrite Hm in Hv, Hs, Hp. exists m.
  split_and!; [done|by split|]. intros Hg. by eapply object_forall.
Qed.

Lemma outcome_depth o : depth (outcome_value o) = 1%nat.
Proof. by destruct o as [| | | | | | |r [n|]|]; simpl; try (unfold jnum; destruct (n <? 0)). Qed.

Lemma outcome_ok ev : sealable ev → is_ok (canonical (outcome_value (ev_outcome ev))) = true.
Proof.
  intros [_ Hx].
  assert (∀ fields, Forall (λ kv, is_ok (canonical kv.2) = true) fields →
    is_ok (canonical (object fields)) = true) as Hobj.
  { intros fields Hf. destruct (object_sorted fields) as (m & Hm & _). rewrite Hm.
    apply canonical_object_ok. by eapply object_forall. }
  destruct (ev_outcome ev) as [| | | | | | |r [n|]|]; simpl; apply Hobj; repeat constructor; simpl;
    try apply canonical_string_ok; [by apply canonical_int_ok|apply canonical_null_ok].
Qed.

Lemma event_fields_ok seq prev ts ev :
  sealable ev → 0 ≤ seq < 2 ^ 53 →
  Forall (λ kv, is_ok (canonical kv.2) = true) (event_fields seq prev ts ev).
Proof.
  intros Hr Hn. repeat (apply Forall_cons; split; [|try apply Forall_nil; try done]); cbn [snd];
    try apply canonical_string_ok; try (apply canonical_int_ok; unfold CHAIN_VERSION; lia);
    [by apply outcome_ok|apply Hr].
Qed.

Lemma event_body_for w ts ev :
  shallow ev → 0 ≤ w_seq w + 1 < 2 ^ 53 →
  ∃ m, event_body (w_seq w + 1) (w_prev_hash w) ts ev = Object m ∧
       body_for (w_seq w + 1) (w_prev_hash w) m ∧ (sealable ev → good_values m).
Proof.
  intros Hr Hn. destruct (object_fields_for (w_seq w + 1) (w_prev_hash w)
    (event_fields (w_seq w + 1) (w_prev_hash w) ts ev)) as (m & Hm & Hb & Hg);
    [|by rewrite object_get..|].
  - repeat (apply Forall_cons; split; [|try apply Forall_nil; try done]); cbn [snd];
      unfold jnum; try rewrite outcome_depth; try exact Hr; simpl; unfold MAX_DEPTH; lia.
  - exists m. split_and!; [exact Hm|done|]. intros Hs. apply Hg. by apply event_fields_ok.
Qed.

Lemma genesis_body_for ts :
  ∃ m, genesis_body ts = Object m ∧ body_for 0 zeros m ∧ good_values m.
Proof.
  unfold genesis_body.
  match goal with |- context [object ?f] =>
    destruct (object_fields_for 0 zeros f) as (m & Hm & Hb & Hg); [|by rewrite object_get..|] end.
  - repeat (apply Forall_cons; split; [|try apply Forall_nil; try done]); cbn [snd];
      unfold jnum; simpl; unfold MAX_DEPTH; lia.
  - exists m. split_and!; [done|done|]. apply Hg.
    repeat (apply Forall_cons; split; [|try apply Forall_nil; try done]); cbn [snd];
      try apply canonical_string_ok; apply canonical_int_ok; unfold CHAIN_VERSION; lia.
Qed.

(** Every sealed line is one line of UTF-8. *)
Lemma seal_shape prev m key h line :
  seal_record (Object m) prev key = Ok (h, line) →
  one_line line ∧ utf8_valid line = true ∧ length h = 32%nat.
Proof.
  unfold seal_record, canonical_form_excluding. cbn [as_object fold_left].
  intros (line' & Hl & Hr)%result_bind_ok. destruct (utf8_valid line') eqn:Hu; [|done].
  injection Hr as <- <-. match goal with Hl : context [canonical ?v] |- _ =>
    destruct (canonical v) as [s|e] eqn:Hc; [|done] end.
  injection Hl as ->. destruct (canonical_line_ok _ _ Hc) as [Ho _].
  split_and!; [done|done|apply sha256_len].
Qed.

Lemma seal_deep prev m key h line :
  seal_record (Object m) prev key = Ok (h, line) →
  ∃ h' sg, canonical (Object (stamped m h' sg)) = Ok line.
Proof.
  unfold seal_record, canonical_form_excluding. cbn [as_object fold_left].
  intros (line' & Hl & Hr)%result_bind_ok. destruct (utf8_valid line') eqn:Hu; [|done].
  injection Hr as _ ->. match goal with Hl : context [canonical ?v] |- _ =>
    destruct (canonical v) as [s|e] eqn:Hc; [|done] end.
  injection Hl as ->. eexists _, _. exact Hc.
Qed.

Lemma seal_total prev m key : good_values m → ∃ h line, seal_record (Object m) prev key = Ok (h, line).
Proof.
  intros Hg. unfold seal_record, canonical_form_excluding. cbn [as_object fold_left].
  set (h := compute_hash (Object m) prev). fold (stamped m h (sign_raw key h)).
  assert (is_ok (canonical (Object (stamped m h (sign_raw key h)))) = true) as Hok.
  { apply canonical_object_ok. unfold stamped.
    apply map_insert_forall; [apply canonical_string_ok|].
    apply map_insert_forall; [apply canonical_string_ok|done]. }
  destruct (canonical (Object (stamped m h (sign_raw key h)))) as [line|] eqn:Hc; [|done].
  destruct (canonical_line_ok _ _ Hc) as [Hl Hu]. exists h, line. simpl. by rewrite Hu.
Qed.

(** Committing a body that seals extends a verifying journal by one record. *)
Lemma commit_sealed w m n prev ls r h line :
  Forall one_line ls → Forall (λ l, utf8_valid l = true) ls → journal w = jtext ls →
  walk 0 ls (verifying_key (w_key w)) GENESIS_PREV_HEX None 0 = r → error r = None →
  prev_of (tail r) = hex_bytes prev → Z.of_nat (records_ok r) = n → n < 2 ^ 53 →
  body_for n prev m → seal_record (Object m) prev (w_key w) = Ok (h, line) →
  ∃ w', commit w (Object m) prev n None = (Ok (head w'), w') ∧ chain_inv w' ∧
    w_seq w' = n ∧ w_prev_hash w' = h ∧ w_key w' = w_key w ∧ journal w' = journal w ++ line ++ [zb 10].
Proof.
  intros Hls Hu Hj Hw He Hp Hn Hmax Hb Hs.
  destruct (seal_shape _ _ _ _ _ Hs) as (Hl & Hul & Hlen).
  unfold commit. rewrite Hs. simpl. exists {| w_seq := n; w_prev_hash := h; w_key := w_key w;
    journal := journal w ++ line ++ [zb 10] |}. split; [reflexivity|].
  split_and!; [|done..]. exists (ls ++ [line]). simpl. rewrite Hj.
  split_and!; [by apply Forall_app; auto|by apply Forall_app; auto|by rewrite jtext_snoc|lia|done|].
  rewrite (walk_snoc ls line _ r n (hex_bytes h)); [|done|done|done|].
  - do 2 f_equal. lia.
  - rewrite Hp, Hn. eapply seal_verifies; [done|lia|done].
Qed.

Lemma commit_extends w m n prev ls r :
  Forall one_line ls → Forall (λ l, utf8_valid l = true) ls → journal w = jtext ls →
  walk 0 ls (verifying_key (w_key w)) GENESIS_PREV_HEX None 0 = r → error r = None →
  prev_of (tail r) = hex_bytes prev → Z.of_nat (records_ok r) = n → n < 2 ^ 53 →
  body_for n prev m → good_values m →
  ∃ w', commit w (Object m) prev n None = (Ok (head w'), w') ∧ chain_inv w' ∧
    w_seq w' = n ∧ w_key w' = w_key w.
Proof.
  intros Hls Hu Hj Hw He Hp Hn Hmax Hb Hg.
  destruct (seal_total prev m (w_key w) Hg) as (h & line & Hs).
  destruct (commit_sealed _ _ _ _ _ _ _ _ Hls Hu Hj Hw He Hp Hn Hmax Hb Hs)
    as (w' & Hc & Hi & Hq & _ & Hk & _). by exists w'.
Qed.

(** An append whose write succeeds either extends the journal by one record or
    (the clock or the serialization failed) leaves everything as it was. *)
Lemma append_effect w ev ts :
  chain_inv w → shallow ev → w_seq w + 1 < 2 ^ 53 →
  ∃ r w', append w ev ts None = (r, w') ∧ chain_inv w' ∧ w_key w' = w_key w ∧
    w_seq w' = w_seq w + (if is_ok r then 1 else 0) ∧
    (is_ok ts = true → sealable ev → is_ok r = true).
Proof.
  intros Hi Hd Hmax. pose proof Hi as (ls & Hls & Hu & Hj & Hq & Hlen & Hw).
  destruct ts as [ts|e]; [|exists (Err (ASerialize e)), w; split_and!; simpl; (done || lia)].
  destruct (event_body_for w ts ev Hd) as (m & Hm & Hb & Hg); [lia|].
  unfold append. rewrite saturating_succ, Hm by lia.
  destruct (seal_record (Object m) (w_prev_hash w) (w_key w)) as [[h line]|e] eqn:Hs.
  - destruct (commit_sealed w m (w_seq w + 1) (w_prev_hash w) ls _ h line Hls Hu Hj Hw) as
      (w' & Hc & Hi' & Hq' & _ & Hk & _); [done|done|simpl; lia|lia|done|done|].
    exists (Ok (head w')), w'. split_and!; simpl; done.
  - exists (Err e), w. unfold commit. rewrite Hs. split_and!; simpl; [done|done|done|lia|].
    intros _ Hsl. destruct (seal_total (w_prev_hash w) m (w_key w) (Hg Hsl)) as (h & l & Hs').
    congruence.
Qed.

Lemma open_fresh key ts :
  ∃ w, open None key (Ok ts) None = Ok w ∧ chain_inv w ∧ w_seq w = 0 ∧ w_key w = key.
Proof.
  destruct (genesis_body_for ts) as (m & Hm & Hb & Hg). unfold open, append_genesis. rewrite Hm.
  set (w0 := {| w_seq := 0; w_prev_hash := zeros; w_key := key; journal := default [] None |}).
  destruct (commit_extends w0 m 0 zeros [] _ (Forall_nil_2 _) (Forall_nil_2 _) eq_refl eq_refl)
    as (w' & Hc & Hi & Hs & Hk); [done| |done|lia|done|done|].
  { apply genesis_prev_hex. }
  exists w'. rewrite Hc. split_and!; done.
Qed.

(** Reopening a journal resumes exactly where its writer stood. *)
Lemma open_resumes w ts short : chain_inv w → open (Some (journal w)) (w_key w) ts short = Ok w.
Proof.
  intros (ls & Hls & Hu & Hj & Hq & Hlen & Hw). unfold open. rewrite Hj, jtext_utf8 by done.
  rewrite jtext_nonblank by (destruct ls; [by simpl in Hw|done]).
  unfold resume, walk_lines. rewrite lines_jtext by done. rewrite Hw. simpl.
  rewrite unhex_hex. simpl. rewrite decide_True by done. simpl. destruct w; simpl in *. by subst.
Qed.

(** ** Properties *)

(** A step in the life of a journal: an append with the clock it reads (its
    error is dropped by the gateway, as here), or a restart of the gateway that
    reopens the file. *)
Inductive step : Type :=
| SAppend (ev : AuditEvent) (ts : result str str)
| SReopen (ts : result str str).

(** The writer after a history, and how many appends succeeded. *)
Fixpoint run_steps (w : AuditWriter) (ss : list step) : result AuditError (Z * AuditWriter) :=
  match ss with
  | [] => Ok (0, w)
  | SAppend ev ts :: rest =>
      let (r, w1) := append w ev ts None in
      '(n, w2) ← run_steps w1 rest; Ok ((if is_ok r then 1 else 0) + n, w2)
  | SReopen ts :: rest => w1 ← open (Some (journal w)) (w_key w) ts None; run_steps w1 rest
  end.

Definition step_shallow (s : step) : Prop := match s with SAppend ev _ => shallow ev | _ => True end.

Definition step_sealable (s : step) : Prop :=
  match s with SAppend ev ts => sealable ev ∧ is_ok ts = true | _ => True end.

Fixpoint appends (ss : list step) : Z :=
  match ss with
  | [] => 0
  | SAppend _ _ :: rest => 1 + appends rest
  | SReopen _ :: rest => appends rest
  end.

Lemma appends_nonneg ss : 0 ≤ appends ss.
Proof. induction ss as [|[] ss IH]; simpl; lia. Qed.

Lemma run_steps_good ss w :
  chain_inv w → Forall step_shallow ss → w_seq w + appends ss < 2 ^ 53 →
  ∃ n w', run_steps w ss = Ok (n, w') ∧ chain_inv w' ∧ w_seq w' = w_seq w + n ∧ w_key w' = w_key w ∧
    0 ≤ n ≤ appends ss ∧ (Forall step_sealable ss → n = appends ss).
Proof.
  revert w. induction ss as [|s ss IH]; intros w Hi Hf Hmax; simpl in *.
  { exists 0, w. split_and!; [done|done|lia|done|lia..|done]. }
  apply Forall_cons in Hf as [Hs Hf]. pose proof (appends_nonneg ss). destruct s as [ev ts|ts]; simpl in *.
  - destruct (append_effect w ev ts Hi Hs) as (r & w1 & -> & Hi1 & Hk & Hq & Hok); [lia|].
    destruct (IH w1 Hi1 Hf) as (n & w2 & -> & Hi2 & Hq2 & Hk2 & Hn & Hall); [destruct (is_ok r); lia|].
    exists ((if is_ok r then 1 else 0) + n), w2. cbn [mbind result_bind].
    split_and!; [done|done|lia|congruence|destruct (is_ok r); lia..|].
    intros [[Hsl Ht] Hrest]%Forall_cons. rewrite Hok, Hall by done. done.
  - rewrite open_resumes by done. cbn [mbind result_bind].
    destruct (IH w Hi Hf Hmax) as (n & w2 & -> & Hi2 & Hq2 & Hk2 & Hn & Hall).
    exists n, w2. split_and!; [done|done|done|done|lia..|]. intros [_ Hrest]%Forall_cons. auto.
Qed.


(** The canonical body of a journal line: what its hash covers. *)
Definition line_body (line : str) : option str :=
  match json_from_str line with
  | Ok v => match canonical_form_excluding v UNHASHED_FIELDS with Ok s => Some s | Err _ => None end
  | Err _ => None
  end.

Definition bodies (ls : list str) : list str :=
  omap line_body (filter (λ l, is_empty (trim l) = false) ls).

Definition chain_hash (start : str) (bs : list str) : str :=
  fold_left (λ h b, sha256 (h ++ b)) bs start.

Lemma verify_line_hash line p n vk q h :
  verify_line line p n vk = Ok (q, h) →
  ∃ b praw, line_body line = Some b ∧ unhex p = Some praw ∧ unhex h = Some (sha256 (praw ++ b)) ∧ q = n.
Proof.
  unfold verify_line, line_body. intros (v & Hv & Hr)%result_bind_ok.
  destruct (json_from_str line) as [v'|]; simplify_eq/=.
  apply result_bind_ok in Hr as (m & Hm & Hr). case_decide; [|done].
  apply result_bind_ok in Hr as (q' & _ & Hr). case_decide; [|done].
  apply result_bind_ok in Hr as (th & _ & Hr). apply result_bind_ok in Hr as (ph & _ & Hr).
  case_decide; [|done]. apply result_bind_ok in Hr as (c & Hc & Hr).
  destruct (canonical_form_excluding v UNHASHED_FIELDS) as [c'|]; simplify_eq/=.
  apply result_bind_ok in Hr as (praw & Hp%ok_or_ok & Hr).
  apply result_bind_ok in Hr as (st & Hst%ok_or_ok & Hr). case_decide; [|done].
  apply result_bind_ok in Hr as (sg & _ & Hr). case_match; [|done]. simplify_eq.
  exists c, praw. done.
Qed.

Lemma walk_hash i ls vk t ok praw :
  unhex (prev_of t) = Some praw →
  let r := walk i ls vk (prev_of t) t ok in
  error r = None →
  unhex (prev_of (tail r)) = Some (chain_hash praw (bodies ls)) ∧
  records_ok r = (ok + length (bodies ls))%nat.
Proof.
  revert i t ok praw. induction ls as [|l ls IH]; intros i t ok praw Hp; simpl.
  { intros _. split; [done|]. simpl. lia. }
  unfold bodies. rewrite filter_cons. destruct (is_empty (trim l)) eqn:Hl.
  { rewrite decide_False by done. by apply IH. }
  rewrite decide_True by done.
  destruct (verify_line l (prev_of t) (Z.of_nat ok) vk) as [[q h]|] eqn:Hv; [|done].
  destruct (verify_line_hash _ _ _ _ _ _ Hv) as (b & praw' & Hb & Hp' & Hh & ->).
  rewrite Hp in Hp'. injection Hp' as <-. cbn [omap list_omap]. rewrite Hb. intros He.
  destruct (IH (S i) (Some {| tail_seq := Z.of_nat ok; tail_hash_hex := h |}) (S ok) _ Hh He) as [IH1 IH2].
  split; [exact IH1|]. simpl. simpl in IH2. rewrite IH2. unfold bodies. lia.
Qed.

(** The bytes whose digest is the hash of the [i]-th record: the hash of the
    record before it and its own body. *)
Definition hash_input (bs : list str) (i : nat) : option str :=
  (λ b, chain_hash zeros (take i bs) ++ b) <$> bs !! i.

(** The two chains hash different bytes to the same digest at position [i]. *)
Definition collide_at (bs1 bs2 : list str) (i : nat) : Prop :=
  ∃ x y, hash_input bs1 i = Some x ∧ hash_input bs2 i = Some y ∧ x ≠ y ∧ sha256 x = sha256 y.

Lemma hash_input_app bs b i : (i < length bs)%nat → hash_input (bs ++ [b]) i = hash_input bs i.
Proof. intros Hi. unfold hash_input. by rewrite lookup_app_l, take_app_le by lia. Qed.

Lemma hash_input_last bs b : hash_input (bs ++ [b]) (length bs) = Some (chain_hash zeros bs ++ b).
Proof. unfold hash_input. by rewrite list_lookup_middle, take_app_length. Qed.

Lemma hash_input_lt bs i x : hash_input bs i = Some x → (i < length bs)%nat.
Proof. unfold hash_input. intros (b & Hb%lookup_lt_Some & _)%fmap_Some. done. Qed.

Lemma chain_hash_inj bs1 bs2 :
  length bs1 = length bs2 → chain_hash zeros bs1 = chain_hash zeros bs2 →
  bs1 = bs2 ∨ ∃ i, collide_at bs1 bs2 i.
Proof.
  assert (∀ bs, length (chain_hash zeros bs) = 32%nat) as Hlen.
  { intros bs. destruct bs as [|b bs _] using rev_ind; [done|].
    unfold chain_hash. rewrite fold_left_app. apply sha256_len. }
  revert bs2. induction bs1 as [|b1 bs1 IH] using rev_ind; intros bs2 Hl He.
  { destruct bs2; [by left|done]. }
  destruct bs2 as [|b2 bs2 _] using rev_ind; [by rewrite length_app in Hl; simpl in Hl; lia|].
  rewrite !length_app in Hl. unfold chain_hash in He. rewrite !fold_left_app in He. simpl in He, Hl.
  fold (chain_hash zeros bs1) (chain_hash zeros bs2) in He.
  destruct (decide (chain_hash zeros bs1 ++ b1 = chain_hash zeros bs2 ++ b2)) as [Heq|Hne].
  - apply app_inj_1 in Heq as [Heq ->]; [|by rewrite !Hlen].
    destruct (IH bs2) as [->|(i & x & y & Hx & Hy & Hxy)]; [lia|done|by left|right].
    exists i, x, y. by rewrite !hash_input_app by eauto using hash_input_lt.
  - right. exists (length bs1). eexists _, _. rewrite hash_input_last.
    replace (length bs1) with (length bs2) by lia. by rewrite hash_input_last.
Qed.

(** C8: Tamper evidence.  Two journals that both verify (even under
    different keys), hold the same number of records and end in the same head
    hash have the same hashed bodies, record by record, unless at one and the
    same position the two journals make the verifier hash different bytes
    (predecessor hash and body) to the same SHA-256 digest: short of such a
    collision inside the pair itself, no record can be altered, reordered,
    inserted or removed without changing the head. *)
Theorem head_fixes_journal j1 j2 vk1 vk2 t1 t2 n d :
  walk_lines j1 vk1 = {| tail := Some t1; error := None; records_ok := n |} →
  walk_lines j2 vk2 = {| tail := Some t2; error := None; records_ok := n |} →
  unhex (tail_hash_hex t1) = Some d → unhex (tail_hash_hex t2) = Some d →
  bodies (lines j1) = bodies (lines j2) ∨
  ∃ i, collide_at (bodies (lines j1)) (bodies (lines j2)) i.
Proof.
  unfold walk_lines. intros Hw1 Hw2 Hd1 Hd2.
  assert (unhex (prev_of None) = Some zeros) as Hz by (simpl; rewrite genesis_prev_hex; apply unhex_hex).
  pose proof (walk_hash 0 (lines j1) vk1 None 0 zeros Hz) as Hh1.
  pose proof (walk_hash 0 (lines j2) vk2 None 0 zeros Hz) as Hh2. simpl in Hh1, Hh2.
  rewrite Hw1 in Hh1. rewrite Hw2 in Hh2. simpl in *.
  destruct (Hh1 eq_refl) as [He1 Hn1]. destruct (Hh2 eq_refl) as [He2 Hn2].
  apply chain_hash_inj; congruence.
Qed.

(** A reported append is in the journal: one more line. *)
Lemma append_ok_line w ev ts short h w' :
  append w ev ts short = (Ok h, w') → ∃ line, journal w' = journal w ++ line ++ [zb 10].
Proof.
  unfold append. destruct ts as [now|]; [|done]. unfold commit.
  destruct (seal_record _ _ _) as [[h' line]|]; [|done]. unfold write_line, set_state.
  destruct short; [done|]. intros [= _ <-]. by exists line.
Qed.

(** An append whose write fails outright: the position moves, the file does not. *)
Lemma append_lost w ev ts :
  recordable ev → 0 ≤ w_seq w → w_seq w + 2 < 2 ^ 53 →
  ∃ h, append w ev (Ok ts) (Some 0%nat) = (Err (AIo "write failed"), set_state w (w_seq w + 1) h).
Proof.
  intros [Hr Hd] Hq Hmax. destruct (event_body_for w ts ev Hd) as (m & Hm & Hb & Hg); [lia|].
  destruct (seal_total (w_prev_hash w) _ (w_key w) (Hg Hr)) as (h & l & Hs).
  exists h. unfold append. rewrite saturating_succ by lia.
  unfold commit. rewrite Hm, Hs. simpl. unfold set_state. simpl. by rewrite app_nil_r.
Qed.

(** An append that is written: its line verifies at no other position. *)
Lemma append_written w ev ts :
  recordable ev → 0 ≤ w_seq w → w_seq w + 1 < 2 ^ 53 →
  ∃ h l, append w ev (Ok ts) None =
      (Ok {| head_seq := w_seq w + 1; head_hash_hex := hex_bytes h |},
       {| w_seq := w_seq w + 1; w_prev_hash := h; w_key := w_key w;
          journal := journal w ++ l ++ [zb 10] |}) ∧
    one_line l ∧ utf8_valid l = true ∧
    ∀ k prev' vk, k ≠ w_seq w + 1 →
      verify_line l prev' k vk = Err ("expected seq " ++ show k ++ ", found " ++ show (w_seq w + 1)).
Proof.
  intros [Hr Hd] Hq Hmax. destruct (event_body_for w ts ev Hd) as (m & Hm & Hb & Hg); [lia|].
  destruct (seal_total (w_prev_hash w) _ (w_key w) (Hg Hr)) as (h & l & Hs).
  destruct (seal_shape _ _ _ _ _ Hs) as (Hl & Hu & _).
  exists h, l. split_and!; [|done|done|].
  - unfold append. rewrite saturating_succ by lia.
    unfold commit. by rewrite Hm, Hs.
  - intros k prev' vk Hk. eapply seal_wrong_seq; [done|lia|done|done].
Qed.

(** A line that does not verify after a good journal breaks it for good: the
    verifier reports a break and the writer refuses to reopen the file. *)
Lemma bad_line_breaks w l reason ts :
  let vk := verifying_key (w_key w) in
  let j := journal w ++ l ++ [zb 10] in
  chain_inv w → one_line l → utf8_valid l = true →
  verify_line l (hex_bytes (w_prev_hash w)) (w_seq w + 1) vk = Err reason →
  ∃ brk, error (walk_lines j vk) = Some brk ∧ open (Some j) (w_key w) ts None = Err (BrokenChain brk).
Proof.
  intros vk j (ls & Hls & Hu & Hj & Hq & Hlen & Hw) Hl Hul Hbad.
  assert (j = jtext (ls ++ [l])) as Hj2 by (unfold j; by rewrite Hj, jtext_snoc).
  assert (Forall one_line (ls ++ [l])) as Hls2 by (apply Forall_app; auto).
  pose proof (walk_app 0 ls [l] vk None 0) as Hwa. simpl in Hwa.
  unfold vk in *. rewrite Hw in Hwa. specialize (Hwa eq_refl). simpl in Hwa.
  pose proof (one_line_nonblank l [] Hl) as Hnb. rewrite app_nil_r in Hnb.
  replace (Z.of_nat (S (Z.to_nat (w_seq w)))) with (w_seq w + 1) in Hwa by lia.
  rewrite Hnb, Hbad in Hwa.
  eexists. unfold walk_lines, open. rewrite Hj2, jtext_utf8 by (apply Forall_app; auto).
  rewrite jtext_nonblank by (try done; by destruct ls). unfold resume, walk_lines.
  rewrite lines_jtext, Hwa by done. done.
Qed.

(** A record that could not be written breaks the chain for good.  The
    writer advances its position before writing, so after a failed append that
    left nothing in the file the next append succeeds, yet the journal no
    longer verifies and cannot be reopened. *)
Theorem failed_write_breaks_chain w ev1 ev2 ts1 ts2 :
  chain_inv w → recordable ev1 → recordable ev2 → w_seq w + 2 < 2 ^ 53 →
  ∃ w1 w2 e h brk, append w ev1 (Ok ts1) (Some 0%nat) = (Err e, w1) ∧ journal w1 = journal w ∧
    append w1 ev2 (Ok ts2) None = (Ok h, w2) ∧
    error (walk_lines (journal w2) (verifying_key (w_key w))) = Some brk ∧
    open (Some (journal w2)) (w_key w) (Ok ts2) None = Err (BrokenChain brk).
Proof.
  intros Hi Hr1 Hr2 Hmax. pose proof Hi as (ls & _ & _ & _ & Hq & _ & _).
  destruct (append_lost w ev1 ts1 Hr1) as (h1 & Ha1); [lia..|].
  set (w1 := set_state w (w_seq w + 1) h1) in *.
  destruct (append_written w1 ev2 ts2 Hr2) as (h2 & l2 & Ha2 & Hl2 & Hu2 & Hbad); [simpl; lia..|].
  destruct (bad_line_breaks w l2 _ (Ok ts2) Hi Hl2 Hu2 (Hbad (w_seq w + 1) _ _ ltac:(simpl; lia)))
    as (brk & He & Ho).
  eexists w1, _, _, _, brk. split_and!; [exact Ha1|done|exact Ha2|exact He|exact Ho].
Qed.

(** A message nested as deep as the parser allows breaks the chain too.  The
    record holds the message one level further down, so it is sealed, written
    and reported as appended, but its line is deeper than the verifier's
    parser follows: the journal no longer verifies and the gateway cannot
    reopen it. *)
Theorem deep_message_breaks_journal w ev ts :
  chain_inv w → sealable ev → depth (intent_envelope ev) = MAX_DEPTH → w_seq w + 1 < 2 ^ 53 →
  ∃ h w' brk, append w ev (Ok ts) None = (Ok h, w') ∧
    error (walk_lines (journal w') (verifying_key (w_key w))) = Some brk ∧
    open (Some (journal w')) (w_key w) (Ok ts) None = Err (BrokenChain brk).
Proof.
  intros Hi Hs Hd Hmax. pose proof Hi as (ls & _ & _ & _ & Hq & _ & _).
  unfold append. rewrite saturating_succ by lia. unfold event_body.
  set (fields := event_fields (w_seq w + 1) (w_prev_hash w) ts ev).
  destruct (object_sorted fields) as (m & Hm & _). rewrite Hm.
  assert (good_values m) as Hg
    by (eapply object_forall; [exact Hm|]; apply event_fields_ok; [done|lia]).
  assert (map_get "intent" m = Some (intent_envelope ev)) as Hget.
  { change (get (Object m) "intent" = Some (intent_envelope ev)). by rewrite <- Hm, object_get. }
  destruct (seal_total (w_prev_hash w) m (w_key w) Hg) as (h & l & Hsl).
  destruct (seal_shape _ _ _ _ _ Hsl) as (Hl & Hu & _).
  destruct (seal_deep _ _ _ _ _ Hsl) as (h' & sg & Hc).
  assert (is_ok (json_from_str l) = false) as Hp.
  { apply (canonical_too_deep _ _ Hc). rewrite <- Hd. apply (depth_get "intent").
    rewrite stamped_get by (vm_compute; set_solver). exact Hget. }
  unfold commit. rewrite Hsl. cbn [write_line set_state w_seq w_prev_hash w_key journal].
  destruct (json_from_str l) as [v|e] eqn:Hv; [done|].
  destruct (bad_line_breaks w l ("not JSON: " ++ e) (Ok ts) Hi Hl Hu) as (brk & He & Ho).
  { unfold verify_line. by rewrite Hv. }
  eexists _, _, brk. split_and!; [done|exact He|exact Ho].
Qed.
End Chain.

Section Witnesses.
#[local] Existing Instance toy_base64.
#[local] Existing Instance toy_ed25519.
#[local] Existing Instance toy_json.
#[local] Existing Instance toy_sha256.
#[local] Existing Instance toy_debug.

Definition toy_key : SigningKey := Byte.x41.

Definition toy_event : AuditEvent :=
  {| record_kind := IntentDecision; ruleset_hash := "h"; ev_agent_id := "a"; ev_sponsor_id := "s";
     ev_msg_id := "m"; ev_mechanism := "http.request"; ev_target_uri := "u"; ev_target_label := "l";
     ev_cred_ref := "c"; ev_effect := "allow"; ev_outcome := SessionClosed "exited" (Some 1);
     intent_envelope := Null |}.

Lemma toy_event_recordable : recordable toy_event.
Proof. split; [split|]; vm_compute; try reflexivity; lia. Qed.

(** An append, one whose clock fails, a restart and another append. *)
Definition toy_history : list step :=
  [SAppend toy_event (Ok "t1"); SAppend toy_event (Err "clock"); SReopen (Ok "t2");
   SAppend toy_event (Ok "t3")].


Definition toy_journal : str :=
  match open None toy_key (Ok "t0") None with Ok w => journal w | Err _ => [] end.

Lemma head_fixes_journal_witness :
  bodies (lines toy_journal) = bodies (lines (toy_journal ++ [zb 10])) ∨
  ∃ i, collide_at (bodies (lines toy_journal)) (bodies (lines (toy_journal ++ [zb 10]))) i.
Proof.
  eapply (head_fixes_journal toy_journal (toy_journal ++ [zb 10])
    (verifying_key toy_key) (verifying_key toy_key)).
  - vm_compute. reflexivity.
  - vm_compute. reflexivity.
  - vm_compute. reflexivity.
  - vm_compute. reflexivity.
Defined.

Lemma failed_write_breaks_chain_witness :
  ∃ (w w1 w2 : AuditWriter) e h brk, chain_inv w ∧
    append w toy_event (Ok "t1") (Some 0%nat) = (Err e, w1) ∧ journal w1 = journal w ∧
    append w1 toy_event (Ok "t2") None = (Ok h, w2) ∧
    error (walk_lines (journal w2) (verifying_key (w_key w))) = Some brk.
Proof.
  destruct (open_fresh toy_key "t0") as (w & _ & Hi & Hq & _).
  destruct (failed_write_breaks_chain w toy_event toy_event "t1" "t2" Hi toy_event_recordable
    toy_event_recordable ltac:(rewrite Hq; vm_compute; reflexivity))
    as (w1 & w2 & e & h & brk & H1 & H2 & H3 & H4 & _).
  exists w, w1, w2, e, h, brk. tauto.
Defined.

(** A message of 127 nested arrays. *)
Fixpoint nest (n : nat) : Value := match n with O => Null | S n' => Array [nest n'] end.

Definition deep_event : AuditEvent :=
  {| record_kind := IntentDecision; ruleset_hash := "h"; ev_agent_id := "a"; ev_sponsor_id := "s";
     ev_msg_id := "m"; ev_mechanism := "http.request"; ev_target_uri := "u"; ev_target_label := "l";
     ev_cred_ref := "c"; ev_effect := "deny"; ev_outcome := IdentityFailed "identity.bad_signature";
     intent_envelope := object [("attachment", nest 126)] |}.

(** The message itself is accepted by the parser. *)
Lemma deep_message_breaks_journal_witness :
  json_from_str (json_to_string (intent_envelope deep_event)) = Ok (intent_envelope deep_event) ∧
  ∃ (w w' : AuditWriter) h brk, append w deep_event (Ok "t1") None = (Ok h, w') ∧
    error (walk_lines (journal w') (verifying_key (w_key w))) = Some brk.
Proof.
  split; [vm_compute; reflexivity|].
  destruct (open_fresh toy_key "t0") as (w & _ & Hi & Hq & _).
  destruct (deep_message_breaks_journal w deep_event "t1" Hi) as (h & w' & brk & Ha & He & _).
  - split; vm_compute; reflexivity.
  - vm_compute. reflexivity.
  - rewrite Hq. vm_compute. reflexivity.
  - exists w, w', h, brk. split; [exact Ha|exact He].
Defined.

End Witnesses.
