(* ===== verification/Transcript.v ===== *)
(** The transcript sidecar: [crates/audit/src/transcript.rs].

    A per-run recording of the agent channel sealed with the audit chain's
    primitives.  [append_frame] and [end] read the chain position under one
    lock and seal under a second one, so a call is two atomic steps; the model
    keeps them apart.  The theorems: calls that do not overlap give a journal
    that verifies; two overlapping calls give one that does not. *)

From S2P Require Import Prelude Strs Json Extern Toy Protocol AuditChain.
#[local] Open Scope Z_scope.

Definition EVIDENCE_CLASS : str := "self-produced".
Definition EVIDENCE_CLAUSE : str :=
  "signed by the operator's audit key; not third-party notarized; trust rests on operator key custody".

Section Transcript.
Context `{Base64, Ed25519, JsonText, Sha256, DebugFmt}.

(** The writer has the fields of the audit writer: position, previous hash,
    key and the file. *)
Abbreviation TranscriptWriter := AuditWriter.

(** [seal_and_write]: the body's own [seq] is authoritative. *)
Definition seal_and_write (w : TranscriptWriter) (body : Value) (short : option nat)
  : result AuditError Head * TranscriptWriter :=
  match get_u64 body "seq" with
  | None => (Err (ASerialize "body missing seq"), w)
  | Some seq => commit w body (w_prev_hash w) seq short
  end.

Definition transcript_genesis (ts audit_head audit_pubkey protocol_version : str) : Value :=
  object [("chain_version", jnum CHAIN_VERSION); ("seq", jnum 0); ("kind", jstr "transcript_genesis");
          ("ruleset_hash", jstr []); ("ts", jstr ts); ("prev_hash", jstr (hex_bytes zeros));
          ("evidence_class", jstr EVIDENCE_CLASS); ("evidence_clause", jstr EVIDENCE_CLAUSE);
          ("audit_head_hash", jstr audit_head); ("audit_pubkey", jstr audit_pubkey);
          ("protocol_version", jstr protocol_version)].

(** [TranscriptWriter::create]: refuses a path that exists. *)
Definition create (exists_already : bool) (key : SigningKey)
    (audit_head audit_pubkey protocol_version : str) (ts : result str str) (short : option nat)
  : result AuditError TranscriptWriter :=
  if exists_already
  then Err (AIo "transcript file exists; move it first (refusing to extend a chain across runs)")
  else
    now ← map_err ASerialize ts;
    match seal_and_write {| w_seq := 0; w_prev_hash := zeros; w_key := key; journal := [] |}
            (transcript_genesis now audit_head audit_pubkey protocol_version) short with
    | (Ok _, w) => Ok w
    | (Err e, _) => Err e
    end.

(** The first critical section of [append_frame]: the body from the position. *)
Definition frame_body (w : TranscriptWriter) (now direction frame_b64 : str) (content_length : Z) : Value :=
  object [("chain_version", jnum CHAIN_VERSION); ("seq", jnum (u64_saturating_add (w_seq w) 1));
          ("kind", jstr "transcript_frame"); ("ruleset_hash", jstr []); ("ts", jstr now);
          ("prev_hash", jstr (hex_bytes (w_prev_hash w))); ("direction", jstr direction);
          ("content_length", jnum content_length); ("frame_b64", jstr frame_b64)].

(** [TranscriptWriter::append_frame], without interference in between. *)
Definition append_frame (w : TranscriptWriter) (direction frame_b64 : str) (content_length : Z)
    (ts : result str str) (short : option nat) : result AuditError Head * TranscriptWriter :=
  match ts with
  | Err e => (Err (ASerialize e), w)
  | Ok now => seal_and_write w (frame_body w now direction frame_b64 content_length) short
  end.

Definition end_body (w : TranscriptWriter) (now : str) (frame_count : Z) : Value :=
  object [("chain_version", jnum CHAIN_VERSION); ("seq", jnum (u64_saturating_add (w_seq w) 1));
          ("kind", jstr "transcript_end"); ("ruleset_hash", jstr []); ("ts", jstr now);
          ("prev_hash", jstr (hex_bytes (w_prev_hash w))); ("frame_count", jnum frame_count)].

(** [TranscriptWriter::end]. *)
Definition end_transcript (w : TranscriptWriter) (frame_count : Z) (ts : result str str)
    (short : option nat) : result AuditError Head * TranscriptWriter :=
  match ts with
  | Err e => (Err (ASerialize e), w)
  | Ok now => seal_and_write w (end_body w now frame_count) short
  end.

(** ** Calls that do not overlap *)

(** A call of the recording side: one frame, or the end marker. *)
Inductive entry : Type :=
| Frame (direction frame_b64 : str) (content_length : Z)
| TheEnd (frame_count : Z).

Definition record_entry (w : TranscriptWriter) (e : entry) (ts : str)
  : result AuditError Head * TranscriptWriter :=
  match e with
  | Frame d f n => append_frame w d f n (Ok ts) None
  | TheEnd n => end_transcript w n (Ok ts) None
  end.

Definition entry_ok (e : entry) : Prop :=
  match e with Frame _ _ n | TheEnd n => 0 ≤ n < 2 ^ 53 end.

Definition entry_body (w : TranscriptWriter) (e : entry) (ts : str) : Value :=
  match e with
  | Frame d f n => frame_body w ts d f n
  | TheEnd n => end_body w ts n
  end.

Lemma entry_body_for w e ts :
  entry_ok e → 0 ≤ w_seq w → w_seq w + 1 < 2 ^ 53 →
  ∃ m, entry_body w e ts = Object m ∧ body_for (w_seq w + 1) (w_prev_hash w) m ∧ good_values m.
Proof.
  intros He Hq Hmax.
  destruct e as [d f n|n]; simpl; unfold frame_body, end_body; rewrite saturating_succ by lia;
    (match goal with |- context [object ?f] =>
       destruct (object_fields_for (w_seq w + 1) (w_prev_hash w) f) as (m & Hm & Hb & Hg);
         [|by rewrite object_get..|] end);
    try (exists m; split_and!; [done|done|apply Hg]);
    repeat (apply Forall_cons; split; [|try apply Forall_nil; try done]); cbn [snd];
    try apply canonical_string_ok; try (apply canonical_int_ok; unfold CHAIN_VERSION; simpl in He; lia);
    unfold jnum; simpl; unfold MAX_DEPTH; lia.
Qed.

Lemma entry_body_seq w e ts :
  0 ≤ w_seq w → w_seq w + 1 < 2 ^ 53 → get_u64 (entry_body w e ts) "seq" = Some (w_seq w + 1).
Proof.
  intros Hq Hmax. destruct e; unfold get_u64, entry_body, frame_body, end_body;
    rewrite saturating_succ, object_get, (jnum_u64 (w_seq w + 1)) by lia; reflexivity.
Qed.

Lemma record_entry_commit w e ts :
  0 ≤ w_seq w → w_seq w + 1 < 2 ^ 53 →
  record_entry w e ts = commit w (entry_body w e ts) (w_prev_hash w) (w_seq w + 1) None.
Proof.
  intros Hq Hmax. pose proof (entry_body_seq w e ts Hq Hmax) as Hs.
  destruct e; unfold record_entry, append_frame, end_transcript, seal_and_write; simpl in Hs;
    by rewrite Hs.
Qed.

Fixpoint record_all (w : TranscriptWriter) (es : list (entry * str)) : result AuditError TranscriptWriter :=
  match es with
  | [] => Ok w
  | (e, ts) :: rest =>
      match record_entry w e ts with (Ok _, w') => record_all w' rest | (Err x, _) => Err x end
  end.

Lemma record_entry_extends w e ts :
  chain_inv w → entry_ok e → w_seq w + 1 < 2 ^ 53 →
  ∃ w', record_entry w e ts = (Ok (head w'), w') ∧ chain_inv w' ∧ w_seq w' = w_seq w + 1 ∧
        w_key w' = w_key w.
Proof.
  intros (ls & Hls & Hu & Hj & Hq & Hlen & Hw) He Hmax.
  destruct (entry_body_for w e ts He Hq Hmax) as (m & Hm & Hb & Hg).
  rewrite record_entry_commit, Hm by done.
  destruct (commit_extends w m (w_seq w + 1) (w_prev_hash w) ls _ Hls Hu Hj Hw) as
    (w' & Hc & Hi & Hs & Hk); [done|done|simpl; lia|lia|done|done|].
  by exists w'.
Qed.

Lemma create_good key head pub ver ts :
  ∃ w, create false key head pub ver (Ok ts) None = Ok w ∧ chain_inv w ∧ w_seq w = 0 ∧ w_key w = key.
Proof.
  unfold create. simpl. unfold seal_and_write.
  assert (get_u64 (transcript_genesis ts head pub ver) "seq" = Some 0) as ->
    by (unfold get_u64, transcript_genesis; by rewrite object_get).
  destruct (object_fields_for 0 zeros
    [("chain_version", jnum CHAIN_VERSION); ("seq", jnum 0); ("kind", jstr "transcript_genesis");
     ("ruleset_hash", jstr []); ("ts", jstr ts); ("prev_hash", jstr (hex_bytes zeros));
     ("evidence_class", jstr EVIDENCE_CLASS); ("evidence_clause", jstr EVIDENCE_CLAUSE);
     ("audit_head_hash", jstr head); ("audit_pubkey", jstr pub); ("protocol_version", jstr ver)])
    as (m & Hm & Hb & Hg); [|by rewrite object_get..|].
  { repeat (apply Forall_cons; split; [|try apply Forall_nil; try done]); cbn [snd];
    unfold jnum; simpl; unfold MAX_DEPTH; lia. }
  specialize (Hg ltac:(repeat (apply Forall_cons; split; [|try apply Forall_nil; try done]); cbn [snd];
    try apply canonical_string_ok; apply canonical_int_ok; unfold CHAIN_VERSION; lia)).
  unfold transcript_genesis. rewrite Hm. cbn [w_prev_hash].
  destruct (commit_extends {| w_seq := 0; w_prev_hash := zeros; w_key := key; journal := [] |} m 0 zeros
    [] _ (Forall_nil_2 _) (Forall_nil_2 _) eq_refl eq_refl) as (w & -> & Hi & Hs & Hk);
    [done|apply genesis_prev_hex|done|lia|done|done|]. by exists w.
Qed.

Lemma record_all_good es w :
  chain_inv w → Forall (λ et, entry_ok et.1) es → w_seq w + zlen es < 2 ^ 53 →
  ∃ w', record_all w es = Ok w' ∧ chain_inv w' ∧ w_seq w' = w_seq w + zlen es ∧ w_key w' = w_key w.
Proof.
  revert w. induction es as [|[e ts] es IH]; intros w Hi Hf Hmax; simpl.
  { exists w. split_and!; [done|done|unfold zlen; simpl; lia|done]. }
  apply Forall_cons in Hf as [He Hf].
  assert (zlen ((e, ts) :: es) = 1 + zlen es) as Hz by (unfold zlen; simpl; lia).
  pose proof (zlen_nonneg es). rewrite Hz in *.
  destruct (record_entry_extends w e ts Hi He) as (w1 & -> & Hi1 & Hq1 & Hk1); [lia|].
  destruct (IH w1 Hi1 Hf) as (w2 & Hr & Hi2 & Hq2 & Hk2); [lia|].
  exists w2. split_and!; [done|done|lia|congruence].
Qed.

(** A transcript whose calls do not overlap always verifies under the
    audit key, whatever frames it records, up to its last record; and a
    transcript is never created over an existing file. *)
Theorem transcript_verifies key hd pub ver ts es :
  Forall (λ et, entry_ok et.1) es → zlen es < 2 ^ 53 →
  is_ok (create true key hd pub ver (Ok ts) None) = false ∧
  ∃ w0 w, create false key hd pub ver (Ok ts) None = Ok w0 ∧ record_all w0 es = Ok w ∧
    walk_lines (journal w) (verifying_key key) =
      {| tail := Some {| tail_seq := zlen es; tail_hash_hex := head_hash_hex (head w) |};
         error := None; records_ok := S (length es) |}.
Proof.
  intros Hf Hmax. split; [done|]. destruct (create_good key hd pub ver ts) as (w0 & Hc & Hi0 & Hq0 & Hk0).
  destruct (record_all_good es w0 Hi0 Hf) as (w & Hr & Hi & Hq & Hk); [lia|].
  exists w0, w. split_and!; [done|done|]. destruct Hi as (ls & Hls & _ & Hj & _ & _ & Hw).
  unfold walk_lines. rewrite Hj, lines_jtext, <- Hk0, <- Hk by done. rewrite Hw, Hq, Hq0, Z.add_0_l.
  f_equal. unfold zlen. lia.
Qed.

(** ** Overlapping calls *)

(** Two calls whose first critical sections both run before either seals. *)
Definition overlap (w : TranscriptWriter) (e1 e2 : entry) (ts1 ts2 : str)
  : result AuditError Head * TranscriptWriter :=
  let b1 := entry_body w e1 ts1 in
  let b2 := entry_body w e2 ts2 in
  let w1 := (seal_and_write w b1 None).2 in
  seal_and_write w1 b2 None.

Lemma overlap_second w m p n seq :
  chain_inv w → body_for n p m → good_values m → 0 ≤ n < 2 ^ 53 → n ≠ w_seq w + 1 →
  ∃ h w2 i, commit w (Object m) (w_prev_hash w) seq None = (Ok h, w2) ∧
    error (walk_lines (journal w2) (verifying_key (w_key w))) =
      Some {| brk_line := i; brk_reason := "expected seq " ++ show (w_seq w + 1) ++ ", found " ++ show n |}.
Proof.
  intros (ls & Hls & Hu & Hj & Hq & Hlen & Hw) Hb Hg Hn Hne.
  destruct (seal_total (w_prev_hash w) m (w_key w) Hg) as (h & l & Hs).
  destruct (seal_shape _ _ _ _ _ Hs) as (Hl & _ & _). unfold commit. rewrite Hs. simpl. eexists _, _, _. split; [reflexivity|].
  unfold walk_lines. simpl. rewrite Hj, <- jtext_snoc, lines_jtext by (apply Forall_app; auto).
  pose proof (walk_app 0 ls [l] (verifying_key (w_key w)) None 0) as Hwa. simpl in Hwa.
  rewrite Hw in Hwa. specialize (Hwa eq_refl). simpl in Hwa.
  pose proof (one_line_nonblank l [] Hl) as Hnb. rewrite app_nil_r in Hnb.
  rewrite Hnb, (seal_wrong_seq _ _ _ _ _ _ _ _ _ _ Hb Hn Hs) in Hwa by lia.
  rewrite Hwa. replace (Z.of_nat (S (Z.to_nat (w_seq w)))) with (w_seq w + 1) by lia. reflexivity.
Qed.

(** Overlapping calls corrupt the transcript.  When two recordings read
    the position before either is sealed, both calls report success, but the
    second record repeats the first one's sequence number and the verifier
    reports a break. *)
Theorem overlapping_appends_break w e1 e2 ts1 ts2 :
  chain_inv w → entry_ok e1 → entry_ok e2 → w_seq w + 2 < 2 ^ 53 →
  ∃ h w2 i, overlap w e1 e2 ts1 ts2 = (Ok h, w2) ∧
    error (walk_lines (journal w2) (verifying_key (w_key w))) =
      Some {| brk_line := i;
              brk_reason := "expected seq " ++ show (w_seq w + 2) ++ ", found " ++ show (w_seq w + 1) |}.
Proof.
  intros Hi He1 He2 Hmax. pose proof Hi as (ls & _ & _ & _ & Hq & _).
  destruct (entry_body_for w e2 ts2 He2 Hq) as (m & Hm & Hb & Hg); [lia|].
  destruct (record_entry_extends w e1 ts1 Hi He1) as (w1 & Hr & Hi1 & Hq1 & Hk1); [lia|].
  rewrite record_entry_commit in Hr by lia.
  assert (∀ e w' ts, get_u64 (entry_body w e ts) "seq" = Some (w_seq w + 1) ∧
    seal_and_write w' (entry_body w e ts) None =
      commit w' (entry_body w e ts) (w_prev_hash w') (w_seq w + 1) None) as Hsw.
  { intros e w' ts. assert (get_u64 (entry_body w e ts) "seq" = Some (w_seq w + 1)) as Hs
      by (apply entry_body_seq; lia). split; [done|]. unfold seal_and_write. by rewrite Hs. }
  unfold overlap. rewrite (proj2 (Hsw e1 w ts1)), Hr. cbn [snd]. rewrite (proj2 (Hsw e2 w1 ts2)), Hm.
  destruct (overlap_second w1 m (w_prev_hash w) (w_seq w + 1) (w_seq w + 1) Hi1 Hb Hg)
    as (h & w2 & i & Hc & Hx); [lia|lia|].
  exists h, w2, i. split; [done|]. rewrite Hk1, Hq1 in Hx.
  replace (w_seq w + 1 + 1) with (w_seq w + 2) in Hx by lia. exact Hx.
Qed.
End Transcript.

Section Witnesses.
#[local] Existing Instance toy_base64.
#[local] Existing Instance toy_ed25519.
#[local] Existing Instance toy_json.
#[local] Existing Instance toy_sha256.
#[local] Existing Instance toy_debug.

Lemma transcript_verifies_witness :
  ∃ w0 w, create false toy_key "h" "p" "0.1" (Ok "t") None = Ok w0 ∧
    record_all w0 [(Frame "request" "e30" 2, "t1"); (TheEnd 1, "t2")] = Ok w ∧
    error (walk_lines (journal w) (verifying_key toy_key)) = None.
Proof.
  destruct (transcript_verifies toy_key "h" "p" "0.1" "t"
    [(Frame "request" "e30" 2, "t1"); (TheEnd 1, "t2")]) as (_ & w0 & w & Hc & Hr & Hw).
  - repeat constructor; vm_compute; congruence.
  - vm_compute. reflexivity.
  - exists w0, w. split; [exact Hc|]. split; [exact Hr|]. by rewrite Hw.
Defined.

Lemma overlapping_appends_break_witness :
  ∃ (w : AuditWriter) h w2 i r, chain_inv w ∧
    overlap w (Frame "request" "e30" 2) (Frame "response" "e30" 2) "t1" "t2" = (Ok h, w2) ∧
    error (walk_lines (journal w2) (verifying_key (w_key w))) = Some {| brk_line := i; brk_reason := r |}.
Proof.
  destruct (create_good toy_key "h" "p" "0.1" "t") as (w & _ & Hi & Hq & _).
  destruct (overlapping_appends_break w (Frame "request" "e30" 2) (Frame "response" "e30" 2) "t1" "t2" Hi)
    as (h & w2 & i & Ho & Hx).
  - vm_compute. split; congruence.
  - vm_compute. split; congruence.
  - rewrite Hq. vm_compute. reflexivity.
  - exists w, h, w2, i. eexists. split; [exact Hi|]. split; [exact Ho|]. exact Hx.
Defined.
End Witnesses.
