(* ===== verification/Session.v ===== *)
(** Brokered sessions: [crates/gateway-core/src/session.rs].

    The handle table with its owner binding and TTL, output sequence numbers,
    relay counters and the heartbeat bookkeeping.  Instants and durations are
    nanoseconds; a channel is an identifier.  The theorems: which frames reach
    a session, read off the whole history of the table, and the pacing of the
    heartbeat. *)

From S2P Require Import Prelude Strs Json Extern Protocol.
#[local] Open Scope Z_scope.

Definition SESSION_PREFIX : str := "sess_".

Record OutputChunk : Type := { stream : str; data : str }.

Record OutputBatch : Type := {
  chunks : list OutputChunk;
  closed : bool;
  exit_code : option Z;
}.

Record Entry : Type := {
  s_agent_id : str;
  s_mechanism : str;
  s_target_uri : str;
  s_target_label : str;
  expires_at : Z;
  opened_at : Z;
  out_seq : Z;
  commands : Z;
  bytes_in : Z;
  bytes_out : Z;
  last_beat : option Z;
  channel : nat;
}.

Record SessionStats : Type := {
  st_commands : Z;
  st_bytes_in : Z;
  st_bytes_out : Z;
  elapsed : Z;
}.

Abbreviation SessionTable := (gmap str Entry).

(** [SessionTable::new]. *)
Definition table_new : SessionTable := ∅.

Section Handles.
Context `{Base64}.

(** The handle made from 32 bytes of the operating system's generator. *)
Definition handle_of (raw : str) : str := SESSION_PREFIX ++ encode_signature raw.

(** [SessionTable::insert]; [now] is the clock at both reads. *)
Definition session_insert (t : SessionTable) (agent_id mechanism target_uri target_label : str)
    (chan : nat) (ttl now : Z) (raw : str) : str * Entry * SessionTable :=
  let handle := handle_of raw in
  let entry :=
    {| s_agent_id := agent_id; s_mechanism := mechanism; s_target_uri := target_uri;
       s_target_label := target_label; expires_at := now + ttl; opened_at := now; out_seq := 0;
       commands := 0; bytes_in := 0; bytes_out := 0; last_beat := None; channel := chan |} in
  (handle, entry, <[handle := entry]> t).
End Handles.

(** [Instant::saturating_duration_since]. *)
Definition saturating_duration_since (a b : Z) : Z := Z.max 0 (a - b).

(** [SessionTable::access]. *)
Definition access (t : SessionTable) (handle agent_id : str) (now : Z)
  : result (str * str) (Entry * Z) :=
  match t !! handle with
  | None => Err ("E_SESSION_EXPIRED", "unknown session_handle")
  | Some entry =>
      if decide (s_agent_id entry = agent_id) then
        let remaining := saturating_duration_since (expires_at entry) now in
        if remaining =? 0 then Err ("E_SESSION_EXPIRED", "session past its TTL")
        else Ok (entry, remaining)
      else Err ("E_SESSION_OWNER", "frame identity differs from session opener")
  end.

(** [SessionTable::take]. *)
Definition session_take (t : SessionTable) (handle agent_id : str) : option Entry * SessionTable :=
  match t !! handle with
  | Some entry =>
      if decide (s_agent_id entry = agent_id) then (Some entry, delete handle t) else (None, t)
  | None => (None, t)
  end.

(** [SessionTable::snapshot], in some order. *)
Definition snapshot (t : SessionTable) : list (str * Entry) := map_to_list t.

(** [SessionTable::reap_expired]. *)
Definition reap_expired (t : SessionTable) (now : Z) : list (str * Entry) * SessionTable :=
  (map_to_list (filter (λ kv, expires_at kv.2 ≤ now) t),
   filter (λ kv, ¬ expires_at kv.2 ≤ now) t).

Definition set_out_seq (e : Entry) (n : Z) : Entry :=
  {| s_agent_id := s_agent_id e; s_mechanism := s_mechanism e; s_target_uri := s_target_uri e;
     s_target_label := s_target_label e; expires_at := expires_at e; opened_at := opened_at e;
     out_seq := n; commands := commands e; bytes_in := bytes_in e; bytes_out := bytes_out e;
     last_beat := last_beat e; channel := channel e |}.

(** [Entry::next_out_seq]. *)
Definition next_out_seq (e : Entry) : Z * Entry :=
  (u64_wrapping_add (out_seq e) 1, set_out_seq e (u64_wrapping_add (out_seq e) 1)).

(** [Entry::record_relay]. *)
Definition record_relay (e : Entry) (nin nout : Z) : Entry :=
  {| s_agent_id := s_agent_id e; s_mechanism := s_mechanism e; s_target_uri := s_target_uri e;
     s_target_label := s_target_label e; expires_at := expires_at e; opened_at := opened_at e;
     out_seq := out_seq e; commands := u64_wrapping_add (commands e) 1;
     bytes_in := u64_wrapping_add (bytes_in e) nin; bytes_out := u64_wrapping_add (bytes_out e) nout;
     last_beat := last_beat e; channel := channel e |}.

(** [Entry::stats]. *)
Definition stats (e : Entry) (now : Z) : SessionStats :=
  {| st_commands := commands e; st_bytes_in := bytes_in e; st_bytes_out := bytes_out e;
     elapsed := saturating_duration_since now (opened_at e) |}.

Definition set_last_beat (e : Entry) (t : Z) : Entry :=
  {| s_agent_id := s_agent_id e; s_mechanism := s_mechanism e; s_target_uri := s_target_uri e;
     s_target_label := s_target_label e; expires_at := expires_at e; opened_at := opened_at e;
     out_seq := out_seq e; commands := commands e; bytes_in := bytes_in e; bytes_out := bytes_out e;
     last_beat := Some t; channel := channel e |}.

(** [Entry::heartbeat_due]. *)
Definition heartbeat_due (e : Entry) (threshold now : Z) : bool * Entry :=
  if saturating_duration_since now (opened_at e) <? threshold then (false, e)
  else
    let due := match last_beat e with
               | None => true
               | Some last => threshold <=? saturating_duration_since now last
               end in
    if due then (true, set_last_beat e now) else (false, e).

(** ** The table over its history *)

(** Operations on the table.  [TRelay] is a relayed frame, which updates the counters
    of the shared entry. *)
Inductive top : Type :=
| TInsert (handle agent : str) (e : Entry)
| TTake (handle agent : str)
| TReap (now : Z)
| TRelay (handle : str) (nin nout : Z).

Definition run_top (t : SessionTable) (o : top) : SessionTable :=
  match o with
  | TInsert h a e => <[h := e]> t
  | TTake h a => (session_take t h a).2
  | TReap now => (reap_expired t now).2
  | TRelay h nin nout => alter (λ e, record_relay (next_out_seq e).2 nin nout) h t
  end.

(** The operation forgets nothing about the session [h] of agent [a] that
    expires at [x]. *)
Definition keeps (h a : str) (x : Z) (o : top) : Prop :=
  match o with
  | TInsert h' _ _ => h' ≠ h
  | TTake h' a' => h' = h → a' ≠ a
  | TReap now => now < x
  | TRelay _ _ _ => True
  end.

(** The session [h] is bound to agent [a] until [x]. *)
Definition bound (t : SessionTable) (h a : str) (x : Z) : Prop :=
  ∃ e, t !! h = Some e ∧ s_agent_id e = a ∧ expires_at e = x.

Lemma access_bound t h a now :
  is_ok (access t h a now) = true ↔ ∃ x, bound t h a x ∧ now < x.
Proof.
  unfold access, bound. destruct (t !! h) as [e|]; [|naive_solver].
  case_decide as Ha; [|naive_solver]. unfold saturating_duration_since.
  destruct (Z.eqb_spec (Z.max 0 (expires_at e - now)) 0) as [Hz|Hz]; simpl.
  - split; [done|]. intros (x & (e' & [= <-] & _ & <-) & Hlt). lia.
  - split; [|done]. intros _. exists (expires_at e). split; [by exists e|lia].
Qed.

Lemma run_top_bound t o h a x :
  match o with TInsert h' a' e => s_agent_id e = a' | _ => True end →
  bound (run_top t o) h a x ↔
  (∃ e, o = TInsert h a e ∧ expires_at e = x) ∨ (bound t h a x ∧ keeps h a x o).
Proof.
  intros Hwf. unfold bound. destruct o as [h' a' e'|h' a'|now|h' n1 n2]; simpl.
  - destruct (decide (h' = h)) as [->|Hne].
    + rewrite lookup_insert_eq. split; [intros (e & [= <-] & <- & <-); left; subst; eauto|].
      intros [(e & [= -> ->] & <-)|[_ Hk]]; [|done]. eauto.
    + rewrite lookup_insert_ne by done. naive_solver.
  - unfold session_take. destruct (decide (h' = h)) as [->|Hne].
    + destruct (t !! h) as [e|] eqn:He; simpl; [|rewrite He; naive_solver].
      case_decide as Ha; simpl; [rewrite lookup_delete_eq|rewrite He]; naive_solver.
    + destruct (t !! h') as [e|]; simpl; [|naive_solver].
      case_decide; simpl; [rewrite lookup_delete_ne by done|]; naive_solver.
  - split.
    + intros (e & [Hl Hx]%map_lookup_filter_Some & Ha & He). right. split; [eauto|]. simpl in Hx. lia.
    + intros [(e & ? & _)|[(e & Hl & Ha & He) Hx]]; [done|]. exists e. split; [|done].
      apply map_lookup_filter_Some. split; [done|]. simpl. lia.
  - destruct (decide (h' = h)) as [->|Hne].
    + rewrite lookup_alter_eq. destruct (t !! h) as [e|]; simpl; naive_solver.
    + rewrite lookup_alter_ne by done. naive_solver.
Qed.

Definition op_wf (o : top) : Prop := match o with TInsert _ a e => s_agent_id e = a | _ => True end.

Lemma run_tops_bound os h a x :
  Forall op_wf os →
  bound (fold_left run_top os table_new) h a x ↔
  ∃ pre post e, os = pre ++ TInsert h a e :: post ∧ expires_at e = x ∧ Forall (keeps h a x) post.
Proof.
  induction os as [|o os IH] using rev_ind; intros Hwf.
  { split; [by intros (e & Hl & _)|]. intros ([|] & ? & ? & ? & _); done. }
  apply Forall_app in Hwf as [Hwf Ho]. inversion_clear Ho as [|?? Ho' _].
  rewrite fold_left_app. simpl. rewrite run_top_bound, IH by done. split.
  - intros [(e & -> & <-)|((pre & post & e & -> & Hx & Hk) & Hko)].
    + exists os, [], e. auto.
    + exists pre, (post ++ [o]), e. split_and!; [by rewrite <- app_assoc|done|].
      apply Forall_app. auto.
  - intros (pre & post & e & He & Hx & Hk). destruct post as [|o' post _] using rev_ind.
    + apply app_inj_tail in He as [-> ->]. left. eauto.
    + rewrite app_comm_cons, app_assoc in He. apply app_inj_tail in He as [-> ->].
      apply Forall_app in Hk as [Hk Hk']. right.
      split; [exists pre, post, e; auto|]. by inversion_clear Hk'.
Qed.

(** Who may drive a session.  After any history of the table, a frame of
    agent [a] is let through to handle [h] at time [now] exactly when [a]
    opened [h], its TTL has not run out, and since then the handle was neither
    reissued, nor taken by its owner, nor reaped after its expiry; another
    agent's close attempt does not count. *)
Theorem access_iff_owner_and_live os h a now :
  Forall op_wf os →
  is_ok (access (fold_left run_top os table_new) h a now) = true ↔
  ∃ pre post e, os = pre ++ TInsert h a e :: post ∧ now < expires_at e ∧
    Forall (keeps h a (expires_at e)) post.
Proof.
  intros Hwf. rewrite access_bound. split.
  - intros (x & Hb & Hlt). apply run_tops_bound in Hb as (pre & post & e & -> & <- & Hk); [|done].
    exists pre, post, e. auto.
  - intros (pre & post & e & -> & Hlt & Hk). exists (expires_at e). split; [|done].
    apply run_tops_bound; [done|]. exists pre, post, e. auto.
Qed.

Definition toy_entry (a : str) (x : Z) : Entry :=
  {| s_agent_id := a; s_mechanism := "ssh"; s_target_uri := "u"; s_target_label := "l";
     expires_at := x; opened_at := 0; out_seq := 0; commands := 0; bytes_in := 0; bytes_out := 0;
     last_beat := None; channel := 0 |}.

Lemma access_iff_owner_and_live_witness :
  let os := [TInsert "h" "a" (toy_entry "a" 10); TTake "h" "b"; TRelay "h" 1 1] in
  is_ok (access (fold_left run_top os table_new) "h" "a" 9) = true.
Proof.
  simpl. apply (access_iff_owner_and_live
    [TInsert "h" "a" (toy_entry "a" 10); TTake "h" "b"; TRelay "h" 1 1] "h" "a" 9).
  - repeat constructor.
  - exists [], [TTake "h" "b"; TRelay "h" 1 1], (toy_entry "a" 10). split; [reflexivity|].
    split; [reflexivity|]. repeat constructor. intros _. discriminate.
Defined.

(** ** Heartbeats *)

(** Polling an entry at a sequence of times; the times that gave a beat. *)
Fixpoint beats (e : Entry) (threshold : Z) (polls : list Z) : list Z :=
  match polls with
  | [] => []
  | now :: rest =>
      match heartbeat_due e threshold now with
      | (true, e') => now :: beats e' threshold rest
      | (false, e') => beats e' threshold rest
      end
  end.

(** The earliest time of the next beat. *)
Definition next_beat (e : Entry) (threshold : Z) : Z :=
  Z.max (opened_at e + threshold)
        (match last_beat e with Some t => t + threshold | None => opened_at e + threshold end).

Lemma heartbeat_due_spec e threshold now :
  0 < threshold →
  let r := heartbeat_due e threshold now in
  (r.1 = true ↔ next_beat e threshold ≤ now) ∧ opened_at r.2 = opened_at e ∧
  last_beat r.2 = if r.1 then Some now else last_beat e.
Proof.
  intros Ht. unfold heartbeat_due, next_beat, saturating_duration_since.
  destruct (Z.ltb_spec (Z.max 0 (now - opened_at e)) threshold); simpl.
  { split_and!; [split; [done|lia]|done|done]. }
  destruct (last_beat e) as [l|] eqn:Hl.
  - destruct (Z.leb_spec threshold (Z.max 0 (now - l))); simpl; split_and!; try done; split; (done || lia).
  - simpl. split_and!; [split; (done || lia)|done|done].
Qed.

(** Each beat comes at the first poll at or after the previous one plus the
    threshold. *)
Fixpoint paced (threshold due : Z) (polls bs : list Z) : Prop :=
  match polls with
  | [] => bs = []
  | now :: rest =>
      if due <=? now
      then ∃ bs', bs = now :: bs' ∧ paced threshold (now + threshold) rest bs'
      else paced threshold due rest bs
  end.

(** Heartbeats are paced.  For an entry polled at non-decreasing times
    after it was opened, the beats are exactly: the first poll once the session
    has been open for the threshold, then each first poll at least one
    threshold after the previous beat. *)
Theorem heartbeats_paced e threshold polls :
  0 < threshold → Forall (λ t, opened_at e ≤ t) polls →
  paced threshold (next_beat e threshold) polls (beats e threshold polls).
Proof.
  intros Ht. revert e. induction polls as [|now polls IH]; intros e Hf; [done|].
  apply Forall_cons in Hf as [Hn Hf]. simpl.
  destruct (heartbeat_due_spec e threshold now Ht) as (Hd & Ho & Hl).
  destruct (heartbeat_due e threshold now) as [[] e']; simpl in *.
  - destruct (Z.leb_spec (next_beat e threshold) now); [|naive_solver lia].
    eexists. split; [done|]. replace (now + threshold) with (next_beat e' threshold).
    + apply IH. by rewrite Ho.
    + unfold next_beat. rewrite Hl, Ho. lia.
  - destruct (Z.leb_spec (next_beat e threshold) now); [naive_solver lia|].
    replace (next_beat e threshold) with (next_beat e' threshold) by (unfold next_beat; by rewrite Hl, Ho).
    apply IH. by rewrite Ho.
Qed.

Lemma heartbeats_paced_witness :
  beats (toy_entry "a" 100) 10 [5; 10; 15; 21; 30] = [10; 21] ∧
  paced 10 10 [5; 10; 15; 21; 30] (beats (toy_entry "a" 100) 10 [5; 10; 15; 21; 30]).
Proof.
  split; [reflexivity|]. apply (heartbeats_paced (toy_entry "a" 100) 10).
  - lia.
  - repeat constructor; vm_compute; congruence.
Defined.
