(* ===== verification/SessionTasks.v ===== *)
(** Overlapping session frames: [handle_session_frame] and
    [emit_session_heartbeats] of [crates/gateway-core/src/lib.rs] over the
    shared table of [session.rs].

    Frames of several connections and the periodic scan run as tasks of one
    process.  The table is behind one lock and holds [Arc]s, so an entry
    outlives its removal; each channel is behind a lock of its own, which a
    command keeps from its write to the end of its read and a teardown for the
    shutdown.  A task is cut here at these locks.  Entries live in a heap, the
    table maps handles to them, and [log] records what happened to the
    channels, the feed and the journal, in order.

    The theorems hold for every interleaving of any number of tasks: only the
    owner's admitted frames reach a channel; every session is torn down once
    and none is forgotten; output is numbered without gap or repetition; a
    command's output is read right after its own input; nothing deadlocks and
    every task finishes. *)

From S2P Require Import Prelude Strs Json Extern Toy Protocol Session.
#[local] Open Scope Z_scope.

(** ** State *)

Inductive Role : Type :=
| TaskCommand (agent handle input : str)
| TaskClose (agent handle : str)
| TaskScan (threshold : Z).

(** A chunk of output under its sequence number. *)
Abbreviation Numbered := (list (Z * OutputChunk)).

Inductive Reply : Type :=
| ReplyError (code reason : str)
| ReplyOutput (outs : Numbered) (closed : bool) (exit : option Z)
| ReplyClosed
| ReplyScanned.

(** How far a task has come.  [Waiting] and [Relaying] have the entry and the
    instant it was admitted at; [Tearing] and [Summing] the removed entries
    with their handles. *)
Inductive TaskStage : Type :=
| Begin
| Waiting (p : nat) (admitted : Z)
| Relaying (p : nat) (admitted : Z)
| Ended (outs : Numbered) (exit : option Z)
| Tearing (todo : list (str * nat)) (outs : Numbered) (exit : option Z)
| Summing (x : str * nat) (todo : list (str * nat)) (outs : Numbered) (exit : option Z)
| Recording (outs : Numbered) (exit : option Z)
| Beating (todo : list (str * nat))
| Done (r : Reply).

Record Task : Type := { role : Role; stage : TaskStage }.

Inductive event : Type :=
| EWrite (i p : nat) (admitted : Z) (data : str) (ok : bool)
| ERead (i p : nat) (batch : OutputBatch) (outs : Numbered)
| EShutdown (i p : nat)
| ESummary (i : nat) (handle : str) (p : nat) (st : SessionStats)
| EBeat (handle : str) (p : nat) (st : SessionStats)
| ERecord (i : nat) (reason : str) (exit : option Z).

Record World : Type := {
  heap : gmap nat Entry;
  table : gmap str nat;
  holder : gmap nat nat;
  tasks : list Task;
  log : list event;
}.

(** The table as [session.rs] has it. *)
Definition view (w : World) : SessionTable := omap (λ p, heap w !! p) (table w).

(** What a step meets: the clock, and what the channel answers. *)
Record Env : Type := { now : Z; write_result : result str unit; batch_read : OutputBatch }.

Definition with_table (w : World) (t : gmap str nat) : World :=
  {| heap := heap w; table := t; holder := holder w; tasks := tasks w; log := log w |}.
Definition with_entry (w : World) (p : nat) (e : Entry) : World :=
  {| heap := <[p := e]> (heap w); table := table w; holder := holder w; tasks := tasks w; log := log w |}.
Definition with_holder (w : World) (h : gmap nat nat) : World :=
  {| heap := heap w; table := table w; holder := h; tasks := tasks w; log := log w |}.
Definition logged (w : World) (e : event) : World :=
  {| heap := heap w; table := table w; holder := holder w; tasks := tasks w; log := log w ++ [e] |}.
Definition set_task (w : World) (i : nat) (t : Task) : World :=
  {| heap := heap w; table := table w; holder := holder w; tasks := <[i := t]> (tasks w); log := log w |}.

(** ** Operations on the shared table *)

(** [SessionTable::access]: the [Arc] of the entry. *)
Definition access_arc (w : World) (handle agent : str) (now : Z) : result (str * str) nat :=
  match table w !! handle with
  | None => Err ("E_SESSION_EXPIRED", "unknown session_handle")
  | Some p => _ ← access (view w) handle agent now; Ok p
  end.

(** [SessionTable::take]. *)
Definition take_arc (w : World) (handle agent : str) : option nat * World :=
  match table w !! handle, session_take (view w) handle agent with
  | Some p, (Some _, _) => (Some p, with_table w (delete handle (table w)))
  | _, _ => (None, w)
  end.

Definition expired (w : World) (now : Z) (kv : str * nat) : Prop :=
  from_option (λ e, expires_at e ≤ now) False (heap w !! kv.2).
#[global] Instance expired_dec w now kv : Decision (expired w now kv).
Proof. unfold expired. destruct (heap w !! kv.2); simpl; apply _. Defined.

(** [SessionTable::reap_expired]. *)
Definition reap_arcs (w : World) (now : Z) : list (str * nat) * World :=
  (map_to_list (filter (expired w now) (table w)),
   with_table w (filter (λ kv, ¬ expired w now kv) (table w))).

(** [next_out_seq] for each chunk of a batch, in order. *)
Fixpoint number_chunks (e : Entry) (cs : list OutputChunk) : Numbered * Entry :=
  match cs with
  | [] => ([], e)
  | c :: rest =>
      let '(seq, e1) := next_out_seq e in
      let '(outs, e2) := number_chunks e1 rest in ((seq, c) :: outs, e2)
  end.

Definition out_len (b : OutputBatch) : Z := foldr (λ c n, zlen (data c) + n) 0 (chunks b).

(** ** Steps of a task *)

(** A command up to its lock, while it has the lock, and after it. *)
Definition command_step (w : World) (i : nat) (agent handle input : str) (st : TaskStage) (env : Env)
  : option (World * TaskStage) :=
  match st with
  | Begin =>
      Some (w, match access_arc w handle agent (now env) with
               | Err (code, reason) => Done (ReplyError code reason)
               | Ok p => Waiting p (now env)
               end)
  | Waiting p admitted =>
      match holder w !! p with
      | Some _ => None
      | None =>
          match write_result env with
          | Err e => Some (logged w (EWrite i p admitted input false),
                           Done (ReplyError "E_MECHANISM" ("channel write failed: " ++ e)))
          | Ok _ => Some (logged (with_holder w (<[p := i]> (holder w))) (EWrite i p admitted input true),
                          Relaying p admitted)
          end
      end
  | Relaying p _ =>
      e ← heap w !! p;
      let b := batch_read env in
      let '(outs, e') := number_chunks (record_relay e (zlen input) (out_len b)) (chunks b) in
      let w' := logged (with_entry (with_holder w (delete p (holder w))) p e') (ERead i p b outs) in
      Some (w', if closed b then Ended outs (exit_code b) else Done (ReplyOutput outs false None))
  | Ended outs exit =>
      match take_arc w handle agent with
      | (Some p, w') => Some (w', Tearing [(handle, p)] outs exit)
      | (None, w') => Some (w', Recording outs exit)
      end
  | _ => None
  end.

(** The shutdown of each removed entry, under its lock, and its summary. *)
Definition teardown_step (w : World) (i : nat) (after : World → TaskStage) (st : TaskStage) (env : Env)
  : option (World * TaskStage) :=
  match st with
  | Tearing [] outs exit => Some (w, after w)
  | Tearing ((h, p) :: todo) outs exit =>
      match holder w !! p with
      | Some _ => None
      | None => Some (logged w (EShutdown i p), Summing (h, p) todo outs exit)
      end
  | Summing (h, p) todo outs exit =>
      e ← heap w !! p;
      Some (logged w (ESummary i h p (stats e (now env))), Tearing todo outs exit)
  | _ => None
  end.

(** The heartbeats of a snapshot. *)
Definition beat_step (w : World) (threshold : Z) (todo : list (str * nat)) (env : Env) : option (World * TaskStage) :=
  match todo with
  | [] => Some (w, Done ReplyScanned)
  | (h, p) :: rest =>
      e ← heap w !! p;
      let '(due, e') := heartbeat_due e threshold (now env) in
      let w' := with_entry w p e' in
      Some (if due then logged w' (EBeat h p (stats e' (now env))) else w', Beating rest)
  end.

Definition task_step (w : World) (i : nat) (t : Task) (env : Env) : option (World * TaskStage) :=
  match role t, stage t with
  | TaskCommand agent handle input, ((Tearing _ outs exit | Summing _ _ outs exit) as st) =>
      teardown_step w i (λ _, Recording outs exit) st env
  | TaskCommand _ _ _, Recording outs exit =>
      Some (logged w (ERecord i "exited" exit), Done (ReplyOutput outs true exit))
  | TaskCommand agent handle input, st => command_step w i agent handle input st env
  | TaskClose agent handle, Begin =>
      match take_arc w handle agent with
      | (Some p, w') => Some (w', Tearing [(handle, p)] [] None)
      | (None, w') => Some (w', Done (ReplyError "E_SESSION_EXPIRED" "unknown or expired session_handle"))
      end
  | TaskClose _ _, Recording _ _ => Some (logged w (ERecord i "client_close" None), Done ReplyClosed)
  | TaskClose _ _, st => teardown_step w i (λ _, Recording [] None) st env
  | TaskScan _, Begin => let '(dead, w') := reap_arcs w (now env) in Some (w', Tearing dead [] None)
  | TaskScan threshold, Beating todo => beat_step w threshold todo env
  | TaskScan threshold, st =>
      teardown_step w i (λ w, if threshold =? 0 then Done ReplyScanned
                              else Beating (map_to_list (table w))) st env
  end.

(** ** All interleavings *)

Section Steps.
Context `{Base64}.

(** A task takes its next step. *)
Inductive run_step (w : World) : World → Prop :=
| run_task i t env w' st :
    tasks w !! i = Some t → task_step w i t env = Some (w', st) →
    run_step w (set_task w' i {| role := role t; stage := st |}).

(** A session is opened under a handle that is not in use, a frame arrives or
    the timer fires, or a task takes its next step. *)
Inductive step (w : World) : World → Prop :=
| step_open agent mechanism uri label ttl t raw p h e table' :
    session_insert (view w) agent mechanism uri label p ttl t raw = (h, e, table') →
    heap w !! p = None → table w !! h = None →
    step w {| heap := <[p := e]> (heap w); table := <[h := p]> (table w); holder := holder w;
              tasks := tasks w; log := log w |}
| step_arrive r :
    step w {| heap := heap w; table := table w; holder := holder w;
              tasks := tasks w ++ [{| role := r; stage := Begin |}]; log := log w |}
| step_run w' : run_step w w' → step w w'.

Definition no_sessions : World := {| heap := ∅; table := ∅; holder := ∅; tasks := []; log := [] |}.
Definition reachable (w : World) : Prop := rtc step no_sessions w.
End Steps.

(** ** The steps as rules *)

(** Stages in which a task holds no entry. *)
Definition idle (st : TaskStage) : bool :=
  match st with Begin | Ended _ _ | Recording _ _ | Done _ => true | _ => false end.
Definition spent (st : TaskStage) : bool :=
  match st with Tearing [] _ _ | Beating [] => true | _ => idle st end.

(** What one step can do to the shared state. *)
Inductive rule (w : World) (i : nat) : Role → TaskStage → World → TaskStage → Prop :=
| rule_idle r st st' :
    spent st = true → idle st' = true ∨ st' = Beating (map_to_list (table w)) → rule w i r st w st'
| rule_admit a h input p t e : table w !! h = Some p → heap w !! p = Some e → s_agent_id e = a →
    t < expires_at e → rule w i (TaskCommand a h input) Begin w (Waiting p t)
| rule_refused_write a h input p t msg : holder w !! p = None →
    rule w i (TaskCommand a h input) (Waiting p t) (logged w (EWrite i p t input false)) (Done msg)
| rule_write a h input p t : holder w !! p = None →
    rule w i (TaskCommand a h input) (Waiting p t)
      (logged (with_holder w (<[p := i]> (holder w))) (EWrite i p t input true)) (Relaying p t)
| rule_read a h input p t e b outs e' st' : heap w !! p = Some e →
    number_chunks (record_relay e (zlen input) (out_len b)) (chunks b) = (outs, e') → idle st' = true →
    rule w i (TaskCommand a h input) (Relaying p t)
      (logged (with_entry (with_holder w (delete p (holder w))) p e') (ERead i p b outs)) st'
| rule_take r st a h p e outs exit : idle st = true → table w !! h = Some p → heap w !! p = Some e →
    s_agent_id e = a → rule w i r st (with_table w (delete h (table w))) (Tearing [(h, p)] outs exit)
| rule_reap threshold t : rule w i (TaskScan threshold) Begin (reap_arcs w t).2 (Tearing (reap_arcs w t).1 [] None)
| rule_shutdown r h p todo outs exit : holder w !! p = None →
    rule w i r (Tearing ((h, p) :: todo) outs exit) (logged w (EShutdown i p)) (Summing (h, p) todo outs exit)
| rule_summary r h p todo outs exit st : rule w i r (Summing (h, p) todo outs exit)
    (logged w (ESummary i h p st)) (Tearing todo outs exit)
| rule_record r outs exit reason x msg : rule w i r (Recording outs exit) (logged w (ERecord i reason x)) (Done msg)
| rule_beat threshold h p todo e t (due : bool) e' : heap w !! p = Some e →
    heartbeat_due e threshold t = (due, e') →
    rule w i (TaskScan threshold) (Beating ((h, p) :: todo))
      (if due then logged (with_entry w p e') (EBeat h p (stats e' t)) else with_entry w p e') (Beating todo).

Lemma view_lookup w h : view w !! h = p ← table w !! h; heap w !! p.
Proof. unfold view. by rewrite lookup_omap. Qed.

Lemma access_arc_ok w h a t p :
  access_arc w h a t = Ok p ↔
  ∃ e, table w !! h = Some p ∧ heap w !! p = Some e ∧ s_agent_id e = a ∧ t < expires_at e.
Proof.
  unfold access_arc, access. rewrite view_lookup. destruct (table w !! h) as [q|] eqn:Hq; simpl; [|naive_solver].
  destruct (heap w !! q) as [e|] eqn:He; simpl; [|naive_solver].
  case_decide as Ha; simpl; [|naive_solver]. unfold saturating_duration_since.
  destruct (Z.eqb_spec (Z.max 0 (expires_at e - t)) 0); simpl; [split; [done|naive_solver lia]|].
  split; [intros [= ->]; exists e; split_and!; try done; lia|]. by intros (? & [= ->] & _).
Qed.

Lemma take_arc_some w h a p w' :
  take_arc w h a = (Some p, w') ↔
  (∃ e, table w !! h = Some p ∧ heap w !! p = Some e ∧ s_agent_id e = a) ∧ w' = with_table w (delete h (table w)).
Proof.
  unfold take_arc, session_take. rewrite view_lookup. destruct (table w !! h) as [q|] eqn:Hq; simpl; [|naive_solver].
  destruct (heap w !! q) as [e|] eqn:He; simpl; [|naive_solver]. case_decide; naive_solver.
Qed.

Lemma take_arc_none w h a w' : take_arc w h a = (None, w') → w' = w.
Proof. unfold take_arc. repeat case_match; congruence. Qed.

Lemma teardown_rule w i r after st env w' st' :
  teardown_step w i after st env = Some (w', st') →
  idle (after w) = true ∨ after w = Beating (map_to_list (table w)) → rule w i r st w' st'.
Proof.
  unfold teardown_step. destruct st as [| | | |[|[h p] todo]|[h p] todo| | |]; try done; intros Hs Hi.
  - simplify_eq. apply rule_idle; auto.
  - destruct (holder w !! p) eqn:Hh; simplify_eq. by apply rule_shutdown.
  - destruct (heap w !! p); simplify_eq/=. apply rule_summary.
Qed.

Lemma take_rule w i r st h a outs exit w' p :
  idle st = true → take_arc w h a = (Some p, w') → rule w i r st w' (Tearing [(h, p)] outs exit).
Proof. intros Hi [(e & Ht & He & Ha) ->]%take_arc_some. by eapply rule_take. Qed.

Lemma command_rule w i a h input st env w' st' :
  command_step w i a h input st env = Some (w', st') → rule w i (TaskCommand a h input) st w' st'.
Proof.
  unfold command_step. destruct st as [|p t|p t|outs exit| | | | |]; try done; intros Hs.
  - destruct (access_arc w h a (now env)) as [p|[c m]] eqn:Ha; simplify_eq; [|apply rule_idle; auto].
    apply access_arc_ok in Ha as (e & ? & ? & ? & ?). by eapply rule_admit.
  - destruct (holder w !! p) eqn:Hh; [done|].
    destruct (write_result env); simplify_eq; [by apply rule_write|by apply rule_refused_write].
  - destruct (heap w !! p) as [e|] eqn:He; [|done]. simpl in Hs.
    destruct (number_chunks _ _) as [outs e'] eqn:Hn. simplify_eq/=. eapply rule_read; [done|done|].
    by destruct (closed (batch_read env)).
  - destruct (take_arc w h a) as [[p|] w1] eqn:Ht; simplify_eq; [by eapply take_rule|].
    apply take_arc_none in Ht as ->. apply rule_idle; auto.
Qed.

Lemma task_step_rule w i t env w' st' :
  task_step w i t env = Some (w', st') → rule w i (role t) (stage t) w' st'.
Proof.
  unfold task_step. destruct t as [r st]. cbn [role stage]. intros Hs. destruct r as [a h input|a h|threshold].
  - destruct st; cbv beta iota in Hs; try (by apply command_rule in Hs); try (eapply teardown_rule; [done|by left]).
    simplify_eq. apply rule_record.
  - destruct st; cbv beta iota in Hs; try (eapply teardown_rule; [done|by left]); [|simplify_eq; apply rule_record].
    destruct (take_arc w h a) as [[p|] w1] eqn:Ht; simplify_eq; [by eapply take_rule|].
    apply take_arc_none in Ht as ->. apply rule_idle; auto.
  - destruct st as [| | | | | | |[|[h p] todo]|]; cbv beta iota in Hs;
      try (eapply teardown_rule; [exact Hs|destruct (threshold =? 0); [by left|by right]]).
    + cbn in Hs. simplify_eq. apply (rule_reap w i threshold (now env)).
    + cbn in Hs. simplify_eq. apply rule_idle; auto.
    + cbn in Hs. destruct (heap w !! p) as [e|] eqn:He; [|done]. cbn in Hs.
      destruct (heartbeat_due e threshold (now env)) as [due e'] eqn:Hd. simplify_eq. by eapply rule_beat.
Qed.

(** ** Custody of the entries *)

(** Entries a task has removed from the table and not shut down yet. *)
Definition pending (st : TaskStage) : list nat :=
  match st with Tearing todo _ _ | Summing _ todo _ _ => todo.*2 | _ => [] end.

Definition shutdown_of (e : event) : list nat := match e with EShutdown _ p => [p] | _ => [] end.

(** Where every entry is: in the table, with a task that tears it down, or
    shut down. *)
Definition custody (w : World) : list nat :=
  (map_to_list (table w)).*2 ++ (tasks w ≫= λ t, pending (stage t)) ++ (log w ≫= shutdown_of).

Lemma bind_insert_perm {A B} (f : A → list B) l i x y :
  l !! i = Some x → f y ++ (l ≫= f) ≡ₚ f x ++ (<[i := y]> l ≫= f).
Proof.
  intros Hi. assert (i < length l)%nat as Hl by by eapply lookup_lt_Some.
  rewrite insert_take_drop by done. rewrite <- (take_drop_middle l i x Hi) at 1.
  rewrite !bind_app. simpl. solve_Permutation.
Qed.

Lemma perm_trade {A} (T T' P P' B B' L L' : list A) :
  T ++ P ++ L ≡ₚ T' ++ P' ++ L' → P' ++ B ≡ₚ P ++ B' → T' ++ B' ++ L' ≡ₚ T ++ B ++ L.
Proof.
  intros H1 H2. apply (Permutation_app_inv_l (P ++ P')).
  transitivity ((P ++ B') ++ (T' ++ P' ++ L')); [solve_Permutation|].
  rewrite <- H1, <- H2. solve_Permutation.
Qed.

Lemma map_to_list_split {A} (P : str * A → Prop) `{!∀ x, Decision (P x)} (m : gmap str A) :
  map_to_list (filter P m) ++ map_to_list (filter (λ x, ¬ P x) m) ≡ₚ map_to_list m.
Proof.
  rewrite <- (map_filter_union_complement P m) at 3. apply NoDup_Permutation.
  - apply NoDup_app. split_and!; [apply NoDup_map_to_list| |apply NoDup_map_to_list].
    intros [k x] [_ H1]%elem_of_map_to_list%map_lookup_filter_Some
      [_ H2]%elem_of_map_to_list%map_lookup_filter_Some. done.
  - apply NoDup_map_to_list.
  - intros [k x]. rewrite map_filter_union_complement, elem_of_app, !elem_of_map_to_list, !map_lookup_filter_Some.
    destruct (decide (P (k, x))); naive_solver.
Qed.

Lemma rule_tasks w i r st w' st' : rule w i r st w' st' → tasks w' = tasks w.
Proof. intros Hr. destruct Hr; try done. by destruct due. Qed.

(** Steps of a task keep the agent and the expiry of every entry. *)
Lemma number_chunks_same e cs :
  let e' := (number_chunks e cs).2 in s_agent_id e' = s_agent_id e ∧ expires_at e' = expires_at e.
Proof.
  revert e. induction cs as [|c cs IH]; intros e; [done|]. simpl.
  specialize (IH (set_out_seq e (u64_wrapping_add (out_seq e) 1))). by destruct (number_chunks _ cs).
Qed.

Lemma rule_heap w i r st w' st' p e' :
  rule w i r st w' st' → heap w' !! p = Some e' →
  ∃ e, heap w !! p = Some e ∧ s_agent_id e = s_agent_id e' ∧ expires_at e = expires_at e'.
Proof.
  intros Hr He. destruct Hr as [| | | |? ? ? q ? e b outs e1 ? Hq Hn _| | | | | |? ? q ? e ? due e1 Hq Hd]; simpl in *; eauto.
  - destruct (decide (q = p)) as [->|]; [|rewrite lookup_insert_ne in He by done; eauto].
    rewrite lookup_insert_eq in He. simplify_eq. exists e. split; [done|].
    pose proof (number_chunks_same (record_relay e (zlen input) (out_len b)) (chunks b)) as Hs.
    rewrite Hn in Hs. simpl in Hs. by destruct Hs.
  - assert (heap w !! p = Some e' ∨ p = q ∧ e' = e1) as [|[-> ->]]; [|by eauto|].
    + destruct due; simpl in He; (destruct (decide (q = p)) as [->|];
        [rewrite lookup_insert_eq in He; naive_solver|rewrite lookup_insert_ne in He by done; auto]).
    + exists e. split; [done|]. unfold heartbeat_due in Hd. repeat case_match; simplify_eq; done.
Qed.

Lemma rule_dom w i r st w' st' : rule w i r st w' st' → dom (heap w') = dom (heap w).
Proof.
  intros Hr. destruct Hr as [| | | |? ? ? p ? e| | | | | |? ? p ? e]; simpl; try done.
  - apply dom_insert_lookup_L. by eexists.
  - destruct due; simpl; apply dom_insert_lookup_L; by eexists.
Qed.

(** A step moves an entry from the table to the task, or from the task to the
    shut down ones. *)
Lemma rule_custody w i r st w' st' :
  rule w i r st w' st' →
  (map_to_list (table w)).*2 ++ pending st ++ (log w ≫= shutdown_of) ≡ₚ
  (map_to_list (table w')).*2 ++ pending st' ++ (log w' ≫= shutdown_of).
Proof.
  intros Hr. assert (∀ s, idle s = true → pending s = []) as Hid by by intros [].
  assert (∀ s, spent s = true → pending s = []) as Hsp by by intros [| | | |[] ? ?| | |[]|].
  destruct Hr; simpl; rewrite ?bind_app; simpl; rewrite ?app_nil_r; try done.
  - rewrite (Hsp st) by done. by destruct H0 as [?| ->]; [rewrite (Hid st')|].
  - by rewrite (Hid st').
  - rewrite (Hid st) by done. rewrite <- (map_to_list_delete _ _ _ H0). simpl. solve_Permutation.
  - rewrite <- (map_to_list_split (expired w t) (table w)) at 1. rewrite fmap_app. solve_Permutation.
  - solve_Permutation.
  - by destruct due; simpl; rewrite ?bind_app; simpl; rewrite ?app_nil_r.
Qed.

(** ** The exchange on a channel *)

(** The channel an event is on. *)
Definition touches (p : nat) (e : event) : bool :=
  match e with
  | EWrite _ q _ _ _ | ERead _ q _ _ | EShutdown _ q => bool_decide (q = p)
  | _ => false
  end.
Definition relaying (st : TaskStage) : option nat := match st with Relaying p _ => Some p | _ => None end.
Definition is_read (e : event) : bool := match e with ERead _ _ _ _ => true | _ => false end.

(** A step as the channels see it. *)
Inductive traffic (w : World) (i : nat) (st : TaskStage) (w' : World) (st' : TaskStage) : Prop :=
| traffic_other es :
    relaying st = None → relaying st' = None → holder w' = holder w → log w' = log w ++ es →
    Forall (λ e, is_read e = false ∧ ∀ p, touches p e = true → holder w !! p = None) es → (length es ≤ 1)%nat →
    traffic w i st w' st'
| traffic_write p t d :
    relaying st = None → relaying st' = Some p → holder w !! p = None → holder w' = <[p := i]> (holder w) →
    log w' = log w ++ [EWrite i p t d true] → traffic w i st w' st'
| traffic_read p b outs :
    relaying st = Some p → relaying st' = None → holder w' = delete p (holder w) →
    log w' = log w ++ [ERead i p b outs] → traffic w i st w' st'.

Lemma traffic_quiet w i st w' st' :
  relaying st = None → relaying st' = None → holder w' = holder w → log w' = log w → traffic w i st w' st'.
Proof. intros. apply (traffic_other _ _ _ _ _ []); rewrite ?app_nil_r; auto. Qed.

Lemma traffic_event w i st w' st' e :
  relaying st = None → relaying st' = None → holder w' = holder w → log w' = log w ++ [e] →
  is_read e = false → (∀ p, touches p e = true → holder w !! p = None) → traffic w i st w' st'.
Proof. intros. apply (traffic_other _ _ _ _ _ [e]); auto. Qed.

Lemma rule_traffic w i r st w' st' : rule w i r st w' st' → traffic w i st w' st'.
Proof.
  assert (∀ s, idle s = true → relaying s = None) as Hid by by intros [].
  assert (∀ s, spent s = true → relaying s = None) as Hsp by by intros [].
  intros Hr.
  destruct Hr as [r st st' Hs Hs'|a h d p t e|a h d p t msg Hh|a h d p t Hh|a h d p t e b outs e' st' He Hn Hs|
    |threshold t|r h p todo outs exit Hh|r h p todo outs exit st|r outs exit reason x msg|threshold h p todo e t due e'].
  - apply traffic_quiet; [auto| |done|done]. by destruct Hs' as [?| ->]; [auto|].
  - by apply traffic_quiet.
  - eapply traffic_event; [done..|]. intros q. simpl. rewrite bool_decide_eq_true. by intros <-.
  - by eapply traffic_write.
  - eapply traffic_read; [done|by apply Hid|done|done].
  - apply traffic_quiet; auto.
  - by apply traffic_quiet.
  - eapply traffic_event; [done..|]. intros q. simpl. rewrite bool_decide_eq_true. by intros <-.
  - by eapply traffic_event.
  - by eapply traffic_event.
  - destruct due; [by eapply traffic_event|by apply traffic_quiet].
Qed.

(** ** What a task may be at *)

(** Entries a task works on. *)
Definition refs (st : TaskStage) : list nat :=
  match st with
  | Waiting p _ | Relaying p _ => [p]
  | Tearing todo _ _ | Beating todo => todo.*2
  | Summing (_, p) todo _ _ => p :: todo.*2
  | _ => []
  end.

(** The stages of each kind of task. *)
Definition fits (t : Task) : bool :=
  match role t, stage t with
  | _, (Begin | Tearing _ _ _ | Summing _ _ _ _) => true
  | TaskCommand _ _ _, (Waiting _ _ | Relaying _ _ | Ended _ _ | Recording _ _
                       | Done (ReplyOutput _ _ _ | ReplyError _ _)) => true
  | TaskClose _ _, (Recording _ _ | Done (ReplyClosed | ReplyError _ _)) => true
  | TaskScan _, (Beating _ | Done ReplyScanned) => true
  | _, _ => false
  end.

Lemma task_step_fits w i t env w' st' :
  task_step w i t env = Some (w', st') → fits {| role := role t; stage := st' |} = true.
Proof.
  unfold task_step, command_step, teardown_step, beat_step, mbind, option_bind. destruct t as [[] st]; destruct st; simpl; intros Hs;
    simplify_eq/=; try done; repeat (case_match; simplify_eq/=; try done).
Qed.

Lemma rule_refs w i r st w' st' :
  rule w i r st w' st' → (∀ h p, table w !! h = Some p → p ∈ dom (heap w)) →
  Forall (.∈ dom (heap w)) (refs st) → Forall (.∈ dom (heap w)) (refs st').
Proof.
  intros Hr Ht. assert (∀ s, idle s = true → refs s = []) as Hid by by intros [].
  assert (∀ l, l ⊆ map_to_list (table w) → Forall (.∈ dom (heap w)) l.*2) as Hl.
  { intros l Hsub. apply Forall_fmap, Forall_forall. intros [h p] Hin%Hsub%elem_of_map_to_list. by eapply Ht. }
  intros Hf. destruct Hr as [r st st' _ [Hs'| ->]|a h d p t e Hp He| | |a h d p t e b outs e' st' _ _ Hs'
    |r st a h p e outs exit _ Hp _ _|threshold t| | | |]; simpl in *; try done.
  - by rewrite Hid.
  - by apply Hl.
  - repeat constructor. by eapply Ht.
  - by rewrite Hid.
  - repeat constructor. by eapply Ht.
  - apply Hl. intros [h p] Hin%elem_of_map_to_list. apply map_lookup_filter_Some in Hin as [Hin _].
    by apply elem_of_map_to_list.
  - by inversion_clear Hf.
  - by inversion_clear Hf.
Qed.

(** Only [access] admits a frame to a channel, and only an admitted frame is
    written. *)
Lemma rule_waiting w i r st w' st' p a :
  rule w i r st w' st' → st' = Waiting p a →
  ∃ agent h d e, r = TaskCommand agent h d ∧ heap w' !! p = Some e ∧ s_agent_id e = agent ∧ a < expires_at e.
Proof.
  intros Hr Hw. destruct Hr as [? ? ? _ [Hi| ->]|agent h d q t e _ He Ha Ht| | |? ? ? ? ? ? ? ? ? ? _ _ Hi| | | | | |];
    simplify_eq; try done. exists (s_agent_id e), h, d, e. done.
Qed.

Lemma rule_written w i r st w' st' j p a d ok :
  rule w i r st w' st' → EWrite j p a d ok ∈ log w' →
  EWrite j p a d ok ∈ log w ∨ j = i ∧ st = Waiting p a ∧ ∃ agent h, r = TaskCommand agent h d.
Proof.
  intros Hr Hin. destruct Hr as [| | | | | | | | | |? ? ? ? ? ? []]; simpl in *; auto;
    apply elem_of_app in Hin as [Hin|Hin%list_elem_of_singleton]; auto; simplify_eq; eauto 10.
Qed.

(** ** Summaries *)

(** The entry a task has shut down and not summarised yet. *)
Definition summing (st : TaskStage) : list nat := match st with Summing (_, p) _ _ _ => [p] | _ => [] end.
Definition summary_of (e : event) : list nat := match e with ESummary _ _ p _ => [p] | _ => [] end.

Lemma rule_summing w i r st w' st' :
  rule w i r st w' st' →
  summing st' ++ (log w' ≫= summary_of) ++ (log w ≫= shutdown_of) ≡ₚ
  summing st ++ (log w ≫= summary_of) ++ (log w' ≫= shutdown_of).
Proof.
  intros Hr. assert (∀ s, idle s = true → summing s = []) as Hid by by intros [].
  assert (∀ s, spent s = true → summing s = []) as Hsp by by intros [].
  destruct Hr as [? st st' ? [?| ->]| | | |? ? ? ? ? ? ? ? ? ? _ _ ?|? ? ? ? ? ? ? ? ?| | | | |? ? ? ? ? ? []];
    simpl; rewrite ?bind_app; simpl; rewrite ?app_nil_r, ?(Hid st') by done; try done.
  - by rewrite Hsp.
  - by rewrite Hsp.
  - by rewrite Hid.
  - solve_Permutation.
  - solve_Permutation.
Qed.

Definition finished (t : Task) : Prop := match stage t with Done _ => True | _ => False end.
#[global] Instance finished_dec t : Decision (finished t).
Proof. unfold finished. destruct (stage t); apply _. Defined.

(** ** Sequence numbers *)

(** What the frames of a session were answered, and what its channel gave, in
    the order of the reads. *)
Definition outputs (p : nat) (l : list event) : Numbered :=
  l ≫= λ e, match e with ERead _ q _ outs => if decide (q = p) then outs else [] | _ => [] end.
Definition produced (p : nat) (l : list event) : list OutputChunk :=
  l ≫= λ e, match e with ERead _ q b _ => if decide (q = p) then chunks b else [] | _ => [] end.

Definition wrapped (n : nat) : Z := Z.of_nat n mod (u64_max + 1).

(** The chunks numbered on from [n]. *)
Fixpoint numbered (n : nat) (cs : list OutputChunk) : Numbered :=
  match cs with [] => [] | c :: rest => (wrapped (S n), c) :: numbered (S n) rest end.

Lemma numbered_app n cs ds : numbered n (cs ++ ds) = numbered n cs ++ numbered (n + length cs) ds.
Proof.
  revert n. induction cs as [|c cs IH]; intros n; simpl; [by rewrite Nat.add_0_r|]. by rewrite IH, <- plus_n_Sm.
Qed.

Lemma number_chunks_spec e n cs :
  out_seq e = wrapped n →
  (number_chunks e cs).1 = numbered n cs ∧ out_seq (number_chunks e cs).2 = wrapped (n + length cs).
Proof.
  revert e n. induction cs as [|c cs IH]; intros e n He; simpl; [by rewrite Nat.add_0_r|].
  assert (u64_wrapping_add (out_seq e) 1 = wrapped (S n)) as Hn.
  { rewrite He. unfold u64_wrapping_add, wrapped. rewrite Nat2Z.inj_succ. unfold Z.succ. by rewrite Zplus_mod_idemp_l. }
  specialize (IH (set_out_seq e (u64_wrapping_add (out_seq e) 1)) (S n) Hn).
  destruct (number_chunks _ cs) as [outs e']. simpl in *. by rewrite Hn, <- plus_n_Sm; destruct IH as [-> ->].
Qed.

(** The counter of the entry is at the number of chunks given out. *)
Definition counted (w : World) (p : nat) : Prop :=
  outputs p (log w) = numbered 0 (produced p (log w)) ∧
  match heap w !! p with
  | Some e => out_seq e = wrapped (length (produced p (log w)))
  | None => produced p (log w) = []
  end.

Lemma produced_snoc p l e :
  produced p (l ++ [e]) =
    produced p l ++ match e with ERead _ q b _ => if decide (q = p) then chunks b else [] | _ => [] end.
Proof. unfold produced. rewrite bind_app. simpl. by rewrite app_nil_r. Qed.

Lemma outputs_snoc p l e :
  outputs p (l ++ [e]) =
    outputs p l ++ match e with ERead _ q _ outs => if decide (q = p) then outs else [] | _ => [] end.
Proof. unfold outputs. rewrite bind_app. simpl. by rewrite app_nil_r. Qed.

(** A step gives out the next chunks or leaves counters and answers alone. *)
Lemma rule_counted w i r st w' st' p : rule w i r st w' st' → counted w p → counted w' p.
Proof.
  intros Hr. unfold counted.
  destruct Hr as [| | | |a h d q t e b outs e' st' He Hn _| | | | | |threshold h q todo e t due e' He Hd];
    simpl; rewrite ?produced_snoc, ?outputs_snoc, ?app_nil_r; try done.
  - destruct (decide (q = p)) as [->|Hne]; [|rewrite !app_nil_r, lookup_insert_ne by done; done].
    rewrite lookup_insert_eq, He, length_app. intros [Ho Hc].
    pose proof (number_chunks_spec (record_relay e (zlen d) (out_len b)) _ (chunks b) Hc) as [H1 H2].
    rewrite Hn in H1, H2. simpl in H1, H2. by rewrite numbered_app, Ho, H1.
  - assert (out_seq e' = out_seq e) as Hs by (unfold heartbeat_due in Hd; repeat case_match; by simplify_eq).
    intros Hc. destruct due; simpl; rewrite ?produced_snoc, ?outputs_snoc, ?app_nil_r;
      (destruct (decide (q = p)) as [->|]; [rewrite lookup_insert_eq, Hs; by rewrite He in Hc|by rewrite lookup_insert_ne]).
Qed.

(** The output a command carries to its answer. *)
Definition carries (t : Task) : option Numbered :=
  match role t, stage t with
  | TaskCommand _ _ _, (Ended outs _ | Tearing _ outs _ | Summing _ _ outs _ | Recording outs _
                       | Done (ReplyOutput outs _ _)) => Some outs
  | _, _ => None
  end.

Lemma task_step_carries w i t env w' st' outs :
  task_step w i t env = Some (w', st') → carries {| role := role t; stage := st' |} = Some outs →
  carries t = Some outs ∨ ∃ p b, log w' = log w ++ [ERead i p b outs].
Proof.
  unfold task_step, command_step, teardown_step, carries, mbind, option_bind.
  destruct t as [[a h d| |] st]; [|done..]. destruct st; simpl; intros Hs Hc; simplify_eq/=; auto;
    repeat (case_match; simplify_eq/=; eauto).
Qed.

Lemma rule_log w i r st w' st' : rule w i r st w' st' → log w ⊆ log w'.
Proof. intros Hr. destruct Hr as [| | | | | | | | | |? ? ? ? ? ? []]; simpl; set_solver. Qed.

(** ** Work left *)

(** Steps a task has left at most, with [n] sessions in the table. *)
Definition rank (n : nat) (t : Task) : nat :=
  let scan := match role t with TaskScan _ => true | _ => false end in
  match stage t with
  | Begin => if scan then 3 * n + 6 else 8
  | Waiting _ _ => 7
  | Relaying _ _ => 6
  | Ended _ _ => 5
  | Tearing todo _ _ => 2 * length todo + 2 + (if scan then n + 1 else 0)
  | Summing _ todo _ _ => 2 * length todo + 3 + (if scan then n + 1 else 0)
  | Recording _ _ => 1
  | Beating todo => length todo + 1
  | Done _ => 0
  end.

Definition work (w : World) : nat := sum_list (rank (size (table w)) <$> tasks w).

Lemma rank_mono n m t : (n ≤ m)%nat → (rank n t ≤ rank m t)%nat.
Proof. intros. unfold rank. destruct (stage t), (role t); lia. Qed.

Lemma reap_size w t :
  (length (reap_arcs w t).1 + size (table (reap_arcs w t).2) = size (table w))%nat.
Proof.
  pose proof (Permutation_length (map_to_list_split (expired w t) (table w))) as Hl.
  by rewrite length_app, !length_map_to_list in Hl; simpl; rewrite length_map_to_list.
Qed.

Lemma take_size w h a p w' : take_arc w h a = (Some p, w') → (size (table w') < size (table w))%nat.
Proof.
  intros [(e & Ht & _) ->]%take_arc_some. simpl. rewrite map_size_delete_Some by eauto.
  enough (size (table w) ≠ 0%nat) by lia. intros Hz%map_size_empty_inv. by rewrite Hz in Ht.
Qed.

Lemma teardown_rank w i r after st env w' st' :
  teardown_step w i after st env = Some (w', st') →
  (∀ n, n = size (table w) → ∀ outs exit, rank n {| role := r; stage := after w |} < rank n {| role := r; stage := Tearing [] outs exit |})%nat →
  table w' = table w ∧
  (rank (size (table w)) {| role := r; stage := st' |} < rank (size (table w)) {| role := r; stage := st |})%nat.
Proof.
  unfold teardown_step, mbind, option_bind. destruct st as [| | | |[|[h p] todo]|[h p] todo| | |]; try done; intros Hs Ha.
  - simplify_eq. auto.
  - destruct (holder w !! p); simplify_eq. split; [done|]. unfold rank. simpl. destruct r; lia.
  - destruct (heap w !! p); simplify_eq. split; [done|]. unfold rank. simpl. destruct r; lia.
Qed.

Lemma command_rank w i a h d st env w' st' :
  command_step w i a h d st env = Some (w', st') →
  (size (table w') ≤ size (table w))%nat ∧
  ∀ n m, (rank n {| role := TaskCommand a h d; stage := st' |} < rank m {| role := TaskCommand a h d; stage := st |})%nat.
Proof.
  unfold command_step, mbind, option_bind. destruct st; intros Hs; try done.
  - destruct (access_arc _ _ _ _) as [|[]]; simplify_eq. 
    1-2: split; [done|]; intros; unfold rank; simpl; lia.
  - destruct (holder w !! p); [done|]. destruct (write_result env); simplify_eq; (split; [done|]); intros; unfold rank; simpl; lia.
  - destruct (heap w !! p); [|done]. destruct (number_chunks _ _). simplify_eq. split; [done|]. intros.
    unfold rank. destruct (closed _); simpl; lia.
  - destruct (take_arc w h a) as [[p|] w1] eqn:Ht; simplify_eq.
    + apply take_size in Ht. split; [lia|]. intros. unfold rank. simpl. lia.
    + apply take_arc_none in Ht as ->. split; [done|]. intros. unfold rank. simpl. lia.
Qed.

Lemma task_step_rank w i t env w' st' :
  task_step w i t env = Some (w', st') →
  (size (table w') ≤ size (table w))%nat ∧
  (rank (size (table w')) {| role := role t; stage := st' |} < rank (size (table w)) t)%nat.
Proof.
  unfold task_step. destruct t as [r st]. cbn [role stage]. intros Hs.
  assert (∀ after : World → TaskStage, teardown_step w i after st env = Some (w', st') →
    (∀ n, n = size (table w) → ∀ outs exit, rank n {| role := r; stage := after w |} < rank n {| role := r; stage := Tearing [] outs exit |})%nat →
    (size (table w') ≤ size (table w))%nat ∧
    (rank (size (table w')) {| role := r; stage := st' |} < rank (size (table w)) {| role := r; stage := st |})%nat) as Htd.
  { intros after H1 H2. destruct (teardown_rank _ _ _ _ _ _ _ _ H1 H2) as [-> ?]. done. }
  destruct r as [a h d|a h|threshold].
  - destruct st; cbv beta iota in Hs; try (apply command_rank in Hs as [? ?]; auto);
      try (eapply Htd; [exact Hs|]; intros; unfold rank; simpl; lia).
    simplify_eq. split; [done|]. unfold rank. simpl. lia.
  - destruct st; cbv beta iota in Hs; try (eapply Htd; [exact Hs|]; intros; unfold rank; simpl; lia).
    + destruct (take_arc w h a) as [[p|] w1] eqn:Ht; simplify_eq.
      * apply take_size in Ht. split; [lia|]. unfold rank. simpl. lia.
      * apply take_arc_none in Ht as ->. split; [done|]. unfold rank. simpl. lia.
    + simplify_eq. split; [done|]. unfold rank. simpl. lia.
  - destruct st as [| | | | | | |[|[h p] todo]|]; cbv beta iota in Hs;
      try (eapply Htd; [exact Hs|]; intros; subst; unfold rank; destruct (threshold =? 0); simpl;
           rewrite ?length_map_to_list; lia).
    + pose proof (reap_size w (now env)). destruct (reap_arcs w (now env)) as [dead w1]. simplify_eq. simpl in *.
      unfold rank. simpl. lia.
    + simpl in Hs. simplify_eq. split; [done|]. unfold rank. simpl. lia.
    + unfold beat_step, mbind, option_bind in Hs. destruct (heap w !! p); [|done].
      destruct (heartbeat_due _ _ _) as [[] e']; simplify_eq; (split; [done|]); unfold rank; simpl; lia.
Qed.

Lemma sum_insert (f g : Task → nat) l i x y :
  l !! i = Some x → (∀ t, g t ≤ f t)%nat → (g y < f x)%nat →
  (sum_list (g <$> <[i := y]> l) < sum_list (f <$> l))%nat.
Proof.
  intros Hi Hle Hlt.
  assert (∀ k, sum_list (g <$> k) ≤ sum_list (f <$> k))%nat as Hall.
  { induction k as [|z k IH]; [done|]. rewrite !fmap_cons. simpl. specialize (Hle z). lia. }
  revert i Hi. induction l as [|z l IH]; intros [|i] Hi; [done|done|injection Hi as ->|simpl in Hi];
    simpl insert; rewrite !fmap_cons; simpl.
  - specialize (Hall l). lia.
  - specialize (IH _ Hi). specialize (Hle z). lia.
Qed.

Section Invariants.
Context `{Base64}.

(** The frame of a command is the owner's and was admitted in time. *)
Definition entitled (w : World) (i p : nat) (admitted : Z) (input : str) : Prop :=
  ∃ t agent handle e, tasks w !! i = Some t ∧ role t = TaskCommand agent handle input ∧
    heap w !! p = Some e ∧ s_agent_id e = agent ∧ admitted < expires_at e.

Lemma custody_step w w' :
  step w w' → custody w ≡ₚ elements (dom (heap w)) → custody w' ≡ₚ elements (dom (heap w')).
Proof.
  unfold custody. intros [agent m u l ttl t raw p h e tb _ Hp Hh|r|w1 [i t env w2 st Ht Hs]] Hc; simpl.
  - rewrite map_to_list_insert by done. simpl. rewrite Hc, dom_insert_L, elements_union_singleton; [done|].
    by apply not_elem_of_dom.
  - by rewrite bind_app, app_nil_r.
  - apply task_step_rule in Hs. rewrite (rule_dom _ _ _ _ _ _ Hs), <- Hc.
    rewrite (rule_tasks _ _ _ _ _ _ Hs). eapply perm_trade; [by eapply rule_custody|].
    apply (bind_insert_perm (λ t, pending (stage t)) _ _ t {| role := role t; stage := st |} Ht).
Qed.
Lemma step_lookup w w' i t env st :
  tasks w !! i = Some t → task_step w i t env = Some (w', st) → ∀ j,
  tasks (set_task w' i {| role := role t; stage := st |}) !! j =
    if decide (j = i) then Some {| role := role t; stage := st |} else tasks w !! j.
Proof.
  intros Ht Hs%task_step_rule%rule_tasks j. simpl. rewrite Hs.
  case_decide; [subst; apply list_lookup_insert_eq; by eapply lookup_lt_Some|by apply list_lookup_insert_ne].
Qed.

(** A frame stays the owner's. *)
Lemma entitled_step w w' i p t d : step w w' → entitled w i p t d → entitled w' i p t d.
Proof.
  intros Hs (x & a & h & e & Hx & Hr & He & Ha & Ht).
  destruct Hs as [agent m u l ttl now raw q h' e' tb _ Hq Hh|r|w1 [j y env w2 st Hy Hs]].
  - exists x, a, h, e. split_and!; try done. simpl. rewrite lookup_insert_ne; [done|congruence].
  - exists x, a, h, e. split_and!; try done. simpl. by apply lookup_app_l_Some.
  - pose proof (step_lookup _ _ _ _ _ _ Hy Hs i) as Hl. apply task_step_rule in Hs.
    assert (is_Some (heap w2 !! p)) as [e2 He2].
    { apply elem_of_dom. rewrite (rule_dom _ _ _ _ _ _ Hs). apply elem_of_dom. eauto. }
    destruct (rule_heap _ _ _ _ _ _ _ _ Hs He2) as (e0 & He0 & Hag & Hex). simplify_eq.
    case_decide as Hd; [subst|].
    + eexists _, _, h, e2. split_and!; [exact Hl|by simplify_eq|done|done|lia].
    + rewrite Hx in Hl. eexists _, _, h, e2. split_and!; [exact Hl|done|done|done|lia].
Qed.

Record sound (w : World) : Prop := {
  so_custody : custody w ≡ₚ elements (dom (heap w));
  so_fits : ∀ i t, tasks w !! i = Some t → fits t = true;
  so_refs : ∀ i t, tasks w !! i = Some t → Forall (.∈ dom (heap w)) (refs (stage t));
  so_holder : ∀ p i, holder w !! p = Some i ↔ ∃ t, tasks w !! i = Some t ∧ relaying (stage t) = Some p;
  so_waiting : ∀ i t p a, tasks w !! i = Some t → stage t = Waiting p a → ∃ d, entitled w i p a d;
  so_written : ∀ i p a d ok, EWrite i p a d ok ∈ log w → entitled w i p a d;
}.

Lemma sound_table w h p : sound w → table w !! h = Some p → p ∈ dom (heap w).
Proof.
  intros Hs Hp. apply elem_of_elements. rewrite <- (so_custody _ Hs). unfold custody.
  apply elem_of_app. left. apply list_elem_of_fmap. exists (h, p). split; [done|]. by apply elem_of_map_to_list.
Qed.

Lemma sound_start : sound no_sessions.
Proof.
  split; try done; [|by intros ? ? ? ? ? ?%elem_of_nil].
  intros p i. split; [done|by intros (t & Ht & _)].
Qed.

Lemma sound_open w agent m u l ttl now raw p h e tb :
  session_insert (view w) agent m u l p ttl now raw = (h, e, tb) → heap w !! p = None → table w !! h = None →
  sound w → sound {| heap := <[p := e]> (heap w); table := <[h := p]> (table w); holder := holder w;
                     tasks := tasks w; log := log w |}.
Proof.
  intros Hi Hp Hh Hs. pose proof (step_open _ _ _ _ _ _ _ _ _ _ _ _ Hi Hp Hh) as Hstep.
  split; simpl; try apply Hs.
  - apply (custody_step _ _ Hstep), Hs.
  - intros i t Ht. eapply Forall_impl; [by eapply so_refs|]. intros q. simpl. set_solver.
  - intros i t q a Ht Hw. destruct (so_waiting _ Hs _ _ _ _ Ht Hw) as [d Hd]. exists d. by eapply entitled_step.
  - intros. eapply entitled_step; [done|]. by eapply so_written.
Qed.

Lemma arrived_lookup w r j t :
  (tasks w ++ [{| role := r; stage := Begin |}]) !! j = Some t → tasks w !! j = Some t ∨ t = {| role := r; stage := Begin |}.
Proof. intros [|[_ Ht]]%lookup_app_Some; [by left|]. apply list_lookup_singleton_Some in Ht as [_ <-]. by right. Qed.

Lemma sound_arrive w r :
  sound w → sound {| heap := heap w; table := table w; holder := holder w;
                     tasks := tasks w ++ [{| role := r; stage := Begin |}]; log := log w |}.
Proof.
  intros Hs. pose proof (step_arrive w r) as Hstep. split; simpl; try apply Hs.
  - apply (custody_step _ _ Hstep), Hs.
  - intros i t [Ht| ->]%arrived_lookup; [by eapply so_fits|by destruct r].
  - intros i t [Ht| ->]%arrived_lookup; [by eapply so_refs|constructor].
  - intros p i. rewrite (so_holder _ Hs). split; intros (t & Ht & Hr).
    + exists t. split; [by apply lookup_app_l_Some|done].
    + apply arrived_lookup in Ht as [Ht| ->]; [by exists t|done].
  - intros i t q a [Ht| ->]%arrived_lookup Hw; [|done].
    destruct (so_waiting _ Hs _ _ _ _ Ht Hw) as [d Hd]. exists d. by eapply entitled_step.
  - intros. eapply entitled_step; [done|]. by eapply so_written.
Qed.

(** The lock is held exactly by the task between its write and its read. *)
Lemma holder_run w i t w' st' :
  sound w → tasks w !! i = Some t → traffic w i (stage t) w' st' → ∀ p j,
  holder w' !! p = Some j ↔ if decide (j = i) then relaying st' = Some p
                            else ∃ u, tasks w !! j = Some u ∧ relaying (stage u) = Some p.
Proof.
  intros Hs Ht Htr p j. pose proof (so_holder _ Hs p) as Hh.
  assert (holder w !! p = Some i ↔ relaying (stage t) = Some p) as Hi by (rewrite Hh; naive_solver).
  destruct Htr as [es Hr Hr' -> _ _ _|q a d Hr Hr' Hq -> _|q b outs Hr Hr' -> _].
  - case_decide as Hd; [subst; rewrite Hi, Hr, Hr'; done|apply Hh].
  - rewrite lookup_insert_Some. case_decide as Hd; [subst|]; rewrite ?Hr', Hh; naive_solver.
  - rewrite lookup_delete_Some. case_decide as Hd; [subst|]; rewrite ?Hr', Hh; [naive_solver|].
    split; [naive_solver|]. intros (u & Hu & Hru). split; [|by eauto]. intros ->.
    assert (holder w !! p = Some j) as Hj by (apply Hh; eauto). apply Hi in Hr. congruence.
Qed.

Lemma sound_run w w' : run_step w w' → sound w → sound w'.
Proof.
  intros Hrun Hs. pose proof (step_run _ _ Hrun) as Hstep. destruct Hrun as [i t env w1 st Ht Ht1].
  pose proof (step_lookup _ _ _ _ _ _ Ht Ht1) as Hl. pose proof (task_step_fits _ _ _ _ _ _ Ht1) as Hf.
  apply task_step_rule in Ht1 as Hr. split.
  - apply (custody_step _ _ Hstep), Hs.
  - intros j u. rewrite Hl. case_decide; [by intros [= <-]|apply (so_fits _ Hs)].
  - intros j u. rewrite Hl. cbn [heap set_task]. rewrite (rule_dom _ _ _ _ _ _ Hr).
    case_decide; [intros [= <-]|apply (so_refs _ Hs)].
    eapply rule_refs; [exact Hr|intros; by eapply sound_table|by eapply so_refs].
  - intros p j. cbn [holder set_task]. rewrite (holder_run _ _ _ _ _ Hs Ht (rule_traffic _ _ _ _ _ _ Hr)), Hl.
    case_decide; [naive_solver|done].
  - intros j u p a. rewrite Hl. case_decide; [subst; intros [= <-] Hw|intros Hu Hw].
    + destruct (rule_waiting _ _ _ _ _ _ _ _ Hr Hw) as (agent & h & d & e & Hro & He & Ha & Hx).
      exists d. eexists _, agent, h, e. split_and!; [rewrite Hl; by case_decide|done|done|done|done].
    + destruct (so_waiting _ Hs _ _ _ _ Hu Hw) as [d Hd]. exists d. by eapply entitled_step.
  - intros j p a d ok Hin. eapply entitled_step; [done|].
    destruct (rule_written _ _ _ _ _ _ _ _ _ _ _ Hr Hin) as [|(-> & Hst & agent & h & Hro)]; [by eapply so_written|].
    destruct (so_waiting _ Hs _ _ _ _ Ht Hst) as [d' Hd].
    pose proof Hd as (x & ag & h' & e & Hx & Hrx & _). by assert (d' = d) as -> by congruence.
Qed.

Lemma reachable_sound w : reachable w → sound w.
Proof.
  revert w. apply (rtc_ind_r sound); [apply sound_start|].
  intros x y _ Hs Hx. destruct Hs as [|r|]; [by eapply sound_open|by apply sound_arrive|by eapply sound_run].
Qed.

(** Every shutdown has its summary, or the task that made it is about to send
    it. *)
Lemma summaries w :
  reachable w → (tasks w ≫= λ t, summing (stage t)) ++ (log w ≫= summary_of) ≡ₚ log w ≫= shutdown_of.
Proof.
  revert w. apply (rtc_ind_r (λ w, _)); [done|]. intros w w' _ Hs Hw.
  destruct Hs as [|r|w2 [i t env w1 st Ht Hs]]; simpl; [done|by rewrite bind_app, app_nil_r|].
  apply task_step_rule in Hs. rewrite (rule_tasks _ _ _ _ _ _ Hs). apply rule_summing in Hs.
  pose proof (bind_insert_perm (λ t, summing (stage t)) _ _ t {| role := role t; stage := st |} Ht) as Hb.
  apply (Permutation_app_inv_l (summing (stage t) ++ (log w ≫= summary_of))).
  transitivity ((summing (stage t) ++ (<[i := {| role := role t; stage := st |}]> (tasks w) ≫= λ t, summing (stage t)))
    ++ (log w ≫= summary_of) ++ (log w1 ≫= summary_of)); [solve_Permutation|].
  rewrite <- Hb. simpl.
  transitivity ((summing st ++ (log w1 ≫= summary_of) ++ ((tasks w ≫= λ t, summing (stage t)) ++ (log w ≫= summary_of))));
    [solve_Permutation|].
  by rewrite Hw, Hs, <- app_assoc.
Qed.

Lemma finished_bind {B} (f : TaskStage → list B) l :
  (∀ r, f (Done r) = []) → Forall finished l → (l ≫= λ t, f (stage t)) = [].
Proof.
  intros Hf. induction 1 as [|t l Ht Hl IH]; [done|]. rewrite bind_cons, IH.
  unfold finished in Ht. destruct (stage t); try done. by rewrite Hf.
Qed.

(** C12: Every session is torn down once, and none is forgotten.  However the
    frames and scans interleave: no channel is shut down twice; a session that
    is still in the table was not shut down; and when every task has finished,
    exactly the sessions that were shut down have had their summary, each once,
    and every other session is still in the table. *)
Theorem one_teardown w :
  reachable w →
  NoDup (log w ≫= shutdown_of) ∧
  (∀ h p, table w !! h = Some p → p ∉ log w ≫= shutdown_of) ∧
  (Forall finished (tasks w) →
    (log w ≫= summary_of) ≡ₚ log w ≫= shutdown_of ∧
    ∀ p e, heap w !! p = Some e → p ∉ log w ≫= shutdown_of → ∃ h, table w !! h = Some p).
Proof.
  intros Hr. pose proof (so_custody _ (reachable_sound _ Hr)) as Hc.
  assert (NoDup (custody w)) as Hn by (rewrite Hc; apply NoDup_elements).
  unfold custody in Hn. apply NoDup_app in Hn as (_ & Hd & Hn). split_and!.
  - by apply NoDup_app in Hn as (_ & _ & Hn).
  - intros h p Hp Hin. apply (Hd p); [|apply elem_of_app; by right].
    apply list_elem_of_fmap. exists (h, p). split; [done|]. by apply elem_of_map_to_list.
  - intros Hf. split; [by rewrite <- (summaries _ Hr), (finished_bind summing)|].
    intros p e Hp Hno. assert (p ∈ custody w) as Hin.
    { rewrite Hc. apply elem_of_elements, elem_of_dom. eauto. }
    unfold custody in Hin. rewrite (finished_bind pending) in Hin by done.
    apply elem_of_app in Hin as [Hin|]; [|done].
    apply list_elem_of_fmap in Hin as ([h q] & -> & Hin%elem_of_map_to_list). eauto.
Qed.

(** C16: Only the owner's frames are written.  Whatever was written to the channel
    of a session is the input of a command frame of the agent that opened the
    session, admitted before the session's time ran out. *)
Theorem only_owner_writes w i p admitted data ok :
  reachable w → EWrite i p admitted data ok ∈ log w →
  ∃ t agent handle e, tasks w !! i = Some t ∧ role t = TaskCommand agent handle data ∧
    heap w !! p = Some e ∧ s_agent_id e = agent ∧ admitted < expires_at e.
Proof. intros Hr. by apply so_written, reachable_sound. Qed.

(** ** Exchanges *)

(** The log ends in a write of task [i] to [p] with nothing on [p] after it. *)
Definition exchanging (l : list event) (i p : nat) : Prop :=
  ∃ l1 t d l2, l = l1 ++ EWrite i p t d true :: l2 ∧ Forall (λ e, touches p e = false) l2.

(** Every read comes right after its task's own write. *)
Definition paired (l : list event) : Prop :=
  ∀ pre i p b outs post, l = pre ++ ERead i p b outs :: post → exchanging pre i p.

Lemma paired_snoc l e :
  paired l → (∀ i p b outs, e = ERead i p b outs → exchanging l i p) → paired (l ++ [e]).
Proof.
  intros Hp He pre i p b outs post Heq. destruct post as [|x post _] using rev_ind.
  - apply app_inj_tail in Heq as [-> ->]. by eapply He.
  - rewrite app_comm_cons, app_assoc in Heq. apply app_inj_tail in Heq as [-> ->]. by eapply Hp.
Qed.

Lemma exchanging_snoc l i p e : exchanging l i p → touches p e = false → exchanging (l ++ [e]) i p.
Proof.
  intros (l1 & t & d & l2 & -> & Hf) He. exists l1, t, d, (l2 ++ [e]). split; [by rewrite <- app_assoc|].
  apply Forall_app. auto.
Qed.

Lemma exchange_run w i st w' st' :
  traffic w i st w' st' → (∀ p, relaying st = Some p → holder w !! p = Some i) →
  paired (log w) → (∀ p j, holder w !! p = Some j → exchanging (log w) j p) →
  paired (log w') ∧ ∀ p j, holder w' !! p = Some j → exchanging (log w') j p.
Proof.
  intros Ht Hst Hp Hh. destruct Ht as [es _ _ -> -> He Hlen|q t d _ _ Hq -> ->|q b outs Hr _ -> ->].
  - destruct es as [|e [|]]; simpl in Hlen; [by rewrite app_nil_r| |lia]. apply Forall_singleton in He as [Hread He]. split.
    + apply paired_snoc; [done|]. by intros ? ? ? ? ->.
    + intros p j Hj. apply exchanging_snoc; [by apply Hh|]. apply not_true_is_false. intros Hto%He. congruence.
  - split; [by apply paired_snoc|]. intros p j [[<- <-]|[Hne Hj]]%lookup_insert_Some.
    + exists (log w), t, d, []. auto.
    + apply exchanging_snoc; [by apply Hh|]. simpl. by rewrite bool_decide_eq_false_2.
  - split; [apply paired_snoc; [done|]; intros ? ? ? ? [= <- <- _ _]; auto|].
    intros p j [Hne Hj]%lookup_delete_Some. apply exchanging_snoc; [by apply Hh|]. simpl. by rewrite bool_decide_eq_false_2.
Qed.

Lemma reachable_exchanges w :
  reachable w → paired (log w) ∧ ∀ p j, holder w !! p = Some j → exchanging (log w) j p.
Proof.
  intros Hr. enough (sound w ∧ paired (log w) ∧ ∀ p j, holder w !! p = Some j → exchanging (log w) j p) by tauto.
  revert w Hr. apply (rtc_ind_r (λ w, _)).
  { split; [apply sound_start|]. split; [|done]. intros [] ? ? ? ? ? Hl; done. }
  intros w w' _ Hs (Hw & Hp & Hh). destruct Hs as [| |w' Hrun]; [split; [by eapply sound_open|done]|split; [by apply sound_arrive|done]|].
  split; [by eapply sound_run|]. destruct Hrun as [i t env w1 st Ht Hs]. apply task_step_rule, rule_traffic in Hs.
  apply (exchange_run _ _ _ _ _ Hs); [|done|done]. intros p Hrel. apply (so_holder _ Hw). eauto.
Qed.

(** C15: Output belongs to the command that is answered with it.  Whatever a command
    read from a channel, the last thing done to that channel before the read
    was the write of the same command: no other frame and no shutdown came
    between. *)
Theorem output_follows_own_input w pre i p batch outs post :
  reachable w → log w = pre ++ ERead i p batch outs :: post →
  ∃ l1 admitted data l2, pre = l1 ++ EWrite i p admitted data true :: l2 ∧
    Forall (λ e, touches p e = false) l2.
Proof. intros Hr Hl. apply reachable_exchanges in Hr as [Hp _]. by eapply Hp. Qed.

Lemma reachable_counted w p : reachable w → counted w p.
Proof.
  revert w. apply (rtc_ind_r (λ w, counted w p)); [done|]. intros w w' _ Hs Hw.
  destruct Hs as [agent m u l ttl now raw q h e tb Hi Hq _|r|w2 [i t env w1 st Ht Hs]]; simpl.
  - unfold counted in *. simpl. destruct (decide (q = p)) as [->|]; [|by rewrite lookup_insert_ne].
    rewrite lookup_insert_eq. rewrite Hq in Hw. destruct Hw as [Ho Hp]. split; [done|]. rewrite Hp.
    unfold session_insert in Hi. by simplify_eq/=.
  - done.
  - apply task_step_rule in Hs. by apply (rule_counted _ _ _ _ _ _ p) in Hs.
Qed.

Lemma reachable_carries w i t outs :
  reachable w → tasks w !! i = Some t → carries t = Some outs → ∃ p b, ERead i p b outs ∈ log w.
Proof.
  intros Hr. revert i t outs. pattern w. revert w Hr. apply rtc_ind_r; [done|].
  intros w w' _ Hs Hw j u outs. destruct Hs as [|r|w2 [i t env w1 st Ht Hs]]; simpl; [apply Hw|..].
  - intros [|[_ [_ <-]%list_lookup_singleton_Some]]%lookup_app_Some; [by apply Hw|by destruct r].
  - pose proof (step_lookup _ _ _ _ _ _ Ht Hs j) as Hl. simpl in Hl. rewrite Hl. intros Hu Hc.
    assert (log w ⊆ log w1) as Hsub by (eapply rule_log, task_step_rule, Hs).
    case_decide as Hd; [subst; simplify_eq|destruct (Hw _ _ _ Hu Hc) as (p & b & Hin); by eauto].
    destruct (task_step_carries _ _ _ _ _ _ _ Hs Hc) as [Hc'|(p & b & ->)].
    + destruct (Hw _ _ _ Ht Hc') as (p & b & Hin). eauto.
    + exists p, b. set_solver.
Qed.

(** C14: Output is numbered without gap or repetition.  Over all commands of a
    session, in the order of their reads, what they were answered is what the
    channel gave, chunk by chunk, under the numbers 1, 2, 3, ... (of 64 bits);
    and the output of every answer is that of a read of its own task. *)
Theorem output_numbered w :
  reachable w →
  (∀ p, outputs p (log w) = numbered 0 (produced p (log w))) ∧
  (∀ i t outs closed exit, tasks w !! i = Some t → stage t = Done (ReplyOutput outs closed exit) →
     ∃ p b, ERead i p b outs ∈ log w).
Proof.
  intros Hr. split; [intros p; by apply reachable_counted|]. intros i t outs c x Ht Hst.
  eapply reachable_carries; [done|done|].
  pose proof (so_fits _ (reachable_sound _ Hr) _ _ Ht) as Hf.
  destruct t as [[] st]; simpl in Hst; by subst.
Qed.

(** ** Progress *)

Lemma run_work w w' : run_step w w' → (work w' < work w)%nat.
Proof.
  intros [i t env w1 st Ht Hs]. destruct (task_step_rank _ _ _ _ _ _ Hs) as [Hle Hlt].
  apply task_step_rule, rule_tasks in Hs as Htk. unfold work. cbn [table tasks set_task]. rewrite Htk.
  eapply sum_insert; [exact Ht| |exact Hlt]. intros u. by apply rank_mono.
Qed.

Lemma nsteps_work n w w' : nsteps run_step n w w' → (n + work w' ≤ work w)%nat.
Proof. induction 1 as [|n x y z Hxy Hyz IH]; [lia|]. apply run_work in Hxy. lia. Qed.

(** A channel that takes everything and gives nothing. *)
Definition silent (t : Z) : Env :=
  {| now := t; write_result := Ok tt; batch_read := {| chunks := []; closed := false; exit_code := None |} |}.

Lemma teardown_runs w i after st env :
  Forall (.∈ dom (heap w)) (refs st) →
  match st with Tearing ((_, p) :: _) _ _ => holder w !! p = None | Tearing [] _ _ | Summing _ _ _ _ => True | _ => False end →
  is_Some (teardown_step w i after st env).
Proof.
  unfold teardown_step. intros Hr Hst. destruct st as [| | | |[|[h p] todo]|[h p] todo| | |]; try done; [by rewrite Hst|].
  apply Forall_cons in Hr as [[e He]%elem_of_dom _]. by rewrite He.
Qed.

(** A task that is not finished runs, unless the channel it needs is held. *)
Lemma task_runs w i t :
  sound w → tasks w !! i = Some t → ¬ finished t →
  is_Some (task_step w i t (silent 0)) ∨ (relaying (stage t) = None ∧ ∃ p, is_Some (holder w !! p)).
Proof.
  intros Hs Ht Hf. pose proof (so_fits _ Hs _ _ Ht) as Hfit. pose proof (so_refs _ Hs _ _ Ht) as Hr.
  destruct t as [r st]. unfold finished in Hf. unfold task_step. cbn [role stage] in *.
  destruct (match st with Tearing ((_, p) :: _) _ _ | Waiting p _ => holder w !! p | _ => None end) as [j|] eqn:Hb.
  { right. destruct st as [| | | |[|[]]| | | |]; naive_solver. }
  left. destruct st as [|p a|p a|outs exit|[|[h p] todo] outs exit|[h p] todo outs exit|outs exit|[|[h p] todo]|]; try done.
  all: try (destruct r; try done; by apply teardown_runs).
  - destruct r; simpl; try done. by destruct (take_arc _ _ _) as [[] ?].
  - destruct r; try done. simpl. rewrite Hb. eauto.
  - destruct r; try done. apply Forall_cons in Hr as [[e He]%elem_of_dom _]. simpl. rewrite He. eauto.
  - destruct r; try done. simpl. destruct (take_arc _ _ _) as [[] ?]; eauto.
  - destruct r; try done. apply Forall_cons in Hr as [[e He]%elem_of_dom _]. simpl in *. rewrite He. simpl.
    destruct (heartbeat_due _ _ _). eauto.
Qed.

Lemma some_task_runs w i t :
  sound w → tasks w !! i = Some t → ¬ finished t → ∃ w', run_step w w'.
Proof.
  intros Hs Ht Hf.
  assert (∀ j u, tasks w !! j = Some u → is_Some (task_step w j u (silent 0)) → ∃ w', run_step w w') as Hrun.
  { intros j u Hu [[w1 st] H1]. eexists. by eapply run_task. }
  destruct (task_runs w i t Hs Ht Hf) as [?|[_ [p [j Hp]]]]; [by eauto|].
  apply (so_holder _ Hs) in Hp as (u & Hu & Hrel). apply (Hrun _ _ Hu).
  destruct (task_runs w j u Hs Hu) as [?|[? _]]; [|done|congruence].
  destruct u as [r []]; try done; by intros [].
Qed.

(** C13: No deadlock, and every task finishes.  From any reachable state, the tasks
    that are under way take at most [work] steps together, in whatever order;
    and when none of them can take a step, every one of them has given its
    answer. *)
Theorem tasks_finish w :
  reachable w →
  (∀ n w', nsteps run_step n w w' → (n ≤ work w)%nat) ∧
  (∀ w', rtc run_step w w' → nf run_step w' → Forall finished (tasks w')).
Proof.
  intros Hr. split.
  - intros n w' Hn%nsteps_work. lia.
  - intros w' Hw Hnf. assert (sound w') as Hs.
    { apply reachable_sound. unfold reachable in *. etrans; [exact Hr|]. eapply rtc_subrel; [|exact Hw]. intros x y. apply step_run. }
    apply Forall_lookup_2. intros i t Ht.
    destruct (stage t) as [| | | | | | | |r] eqn:Hst; try (unfold finished; by rewrite Hst).
    all: destruct Hnf; apply (some_task_runs _ _ _ Hs Ht); unfold finished; rewrite Hst; by intros [].
Qed.

End Invariants.

(** ** Schedules *)

(** An interleaving as a list of moves; a move that is not possible is
    skipped. *)
Inductive Move : Type :=
| MOpen (agent : str) (ttl now : Z) (raw : str) (p : nat)
| MArrive (r : Role)
| MRun (i : nat) (env : Env).

Section Schedules.
Context `{Base64}.

Definition do_move (w : World) (m : Move) : World :=
  match m with
  | MOpen agent ttl now raw p =>
      let '(h, e, _) := session_insert (view w) agent "ssh" "uri" "label" p ttl now raw in
      match heap w !! p, table w !! h with
      | None, None => {| heap := <[p := e]> (heap w); table := <[h := p]> (table w); holder := holder w;
                         tasks := tasks w; log := log w |}
      | _, _ => w
      end
  | MArrive r => {| heap := heap w; table := table w; holder := holder w;
                    tasks := tasks w ++ [{| role := r; stage := Begin |}]; log := log w |}
  | MRun i env =>
      match tasks w !! i with
      | Some t => match task_step w i t env with
                  | Some (w', st) => set_task w' i {| role := role t; stage := st |}
                  | None => w
                  end
      | None => w
      end
  end.

Definition run_schedule (ms : list Move) : World := foldl do_move no_sessions ms.

Lemma move_reaches w m : rtc step w (do_move w m).
Proof.
  destruct m as [agent ttl t raw p|r|i env]; cbn [do_move].
  - destruct (session_insert (view w) agent "ssh" "uri" "label" p ttl t raw) as [[h e] tb] eqn:Hi.
    destruct (heap w !! p) eqn:Hp; [done|]. destruct (table w !! h) eqn:Hh; [done|].
    apply rtc_once. by eapply step_open.
  - apply rtc_once, step_arrive.
  - destruct (tasks w !! i) as [t|] eqn:Ht; [|done]. destruct (task_step w i t env) as [[w' st]|] eqn:Hs; [|done].
    apply rtc_once, step_run. by eapply run_task.
Qed.

Lemma run_schedule_reachable ms : reachable (run_schedule ms).
Proof.
  unfold reachable, run_schedule. generalize no_sessions as w. induction ms as [|m ms IH]; intros w; simpl; [done|].
  etrans; [apply move_reaches|apply IH].
Qed.

Lemma run_schedule_app ms ks : run_schedule (ms ++ ks) = foldl do_move (run_schedule ms) ks.
Proof. apply foldl_app. Qed.

Lemma run_moves w ms :
  Forall (λ m, match m with MRun _ _ => True | _ => False end) ms → rtc run_step w (foldl do_move w ms).
Proof.
  intros Hf. revert w. induction Hf as [|m ms Hm Hf IH]; intros w; simpl; [done|].
  etrans; [|apply IH]. destruct m as [| |i env]; try done. cbn [do_move].
  destruct (tasks w !! i) as [t|] eqn:Ht; [|done]. destruct (task_step w i t env) as [[w' st]|] eqn:Hs; [|done].
  apply rtc_once. by eapply run_task.
Qed.

Lemma finished_nf w : Forall finished (tasks w) → nf run_step w.
Proof.
  intros Hf [w' [i t env w1 st Ht Hs]]. eapply Forall_lookup_1 in Hf; [|exact Ht].
  destruct t as [[] []]; try done.
Qed.
End Schedules.

#[local] Existing Instance toy_base64.

Definition reading (t : Z) (text : str) : Env :=
  {| now := t; write_result := Ok tt;
     batch_read := {| chunks := [{| stream := "o"; data := text |}]; closed := false; exit_code := None |} |}.
Definition exiting (t : Z) : Env :=
  {| now := t; write_result := Ok tt; batch_read := {| chunks := []; closed := true; exit_code := Some 0 |} |}.

(** Two commands and a close of one session: the second command is admitted,
    waits for the first, and is overtaken by the close. *)
Definition contenders : list Move :=
  [MOpen "a" 100 0 "r" 7; MArrive (TaskCommand "a" (handle_of "r") "x"); MArrive (TaskCommand "a" (handle_of "r") "y");
   MArrive (TaskClose "a" (handle_of "r"))].
Definition overtaken : list Move := contenders ++
  [MRun 0 (silent 1); MRun 0 (silent 1); MRun 1 (silent 2); MRun 1 (silent 2); MRun 2 (silent 3); MRun 2 (silent 3);
   MRun 0 (reading 4 "ab"); MRun 2 (silent 5); MRun 2 (silent 5); MRun 2 (silent 5); MRun 2 (silent 5);
   MRun 1 (silent 200); MRun 1 (reading 201 "c")].

(** A close confirms and records the end of a session whose admitted commands
    still run: here the second command is written after the record of the
    close, and after the session's time. *)
Example command_after_close :
  log (run_schedule overtaken) =
    [EWrite 0 7 1 "x" true;
     ERead 0 7 {| chunks := [{| stream := "o"; data := "ab" |}]; closed := false; exit_code := None |}
       [(1, {| stream := "o"; data := "ab" |})];
     EShutdown 2 7;
     ESummary 2 (handle_of "r") 7 {| st_commands := 1; st_bytes_in := 1; st_bytes_out := 2; elapsed := 5 |};
     ERecord 2 "client_close" None;
     EWrite 1 7 2 "y" true;
     ERead 1 7 {| chunks := [{| stream := "o"; data := "c" |}]; closed := false; exit_code := None |}
       [(2, {| stream := "o"; data := "c" |})]].
Proof. reflexivity. Qed.

(** The channel ends under a command while a close of its session is on its
    way. *)
Definition crossing : list Move :=
  [MOpen "a" 100 0 "r" 7; MArrive (TaskCommand "a" (handle_of "r") "x"); MArrive (TaskClose "a" (handle_of "r"));
   MRun 0 (silent 1); MRun 0 (silent 1); MRun 1 (silent 2); MRun 0 (exiting 3); MRun 0 (silent 3); MRun 0 (silent 3);
   MRun 1 (silent 4); MRun 1 (silent 4); MRun 1 (silent 4); MRun 1 (silent 4)].

(** Both record the end of the one session, with different reasons. *)
Example two_close_records :
  (log (run_schedule crossing) ≫= λ e, match e with ERecord i reason exit => [(i, reason, exit)] | _ => [] end) =
    [(0%nat, "exited" : str, Some 0); (1%nat, "client_close" : str, None)] ∧
  (log (run_schedule crossing) ≫= shutdown_of) = [7%nat].
Proof. split; reflexivity. Qed.

Lemma one_teardown_witness :
  NoDup (log (run_schedule overtaken) ≫= shutdown_of) ∧
  (log (run_schedule overtaken) ≫= summary_of) ≡ₚ (log (run_schedule overtaken) ≫= shutdown_of).
Proof.
  destruct (one_teardown (run_schedule overtaken) (run_schedule_reachable overtaken)) as (Hn & _ & Hq).
  split; [exact Hn|]. apply Hq. decide_now.
Defined.

Lemma only_owner_writes_witness :
  ∃ t agent handle e, tasks (run_schedule overtaken) !! 1%nat = Some t ∧ role t = TaskCommand agent handle "y" ∧
    heap (run_schedule overtaken) !! 7%nat = Some e ∧ s_agent_id e = agent ∧ 2 < expires_at e.
Proof.
  apply (only_owner_writes (run_schedule overtaken) 1 7 2 "y" true (run_schedule_reachable overtaken)).
  rewrite command_after_close. apply list_elem_of_lookup. exists 5%nat. reflexivity.
Defined.

Lemma output_follows_own_input_witness :
  ∃ l1 admitted data l2,
    take 6 (log (run_schedule overtaken)) = l1 ++ EWrite 1 7 admitted data true :: l2 ∧
    Forall (λ e, touches 7 e = false) l2.
Proof.
  eapply (output_follows_own_input (run_schedule overtaken) (take 6 (log (run_schedule overtaken))) 1 7
    {| chunks := [{| stream := "o"; data := "c" |}]; closed := false; exit_code := None |} _ []
    (run_schedule_reachable overtaken)).
  rewrite command_after_close. reflexivity.
Defined.

Lemma output_numbered_witness :
  outputs 7 (log (run_schedule overtaken)) =
    [(1, {| stream := "o"; data := "ab" |}); (2, {| stream := "o"; data := "c" |})].
Proof.
  rewrite (proj1 (output_numbered (run_schedule overtaken) (run_schedule_reachable overtaken)) 7%nat).
  rewrite command_after_close. reflexivity.
Defined.

Lemma tasks_finish_witness :
  work (run_schedule contenders) = 24%nat ∧ Forall finished (tasks (run_schedule overtaken)).
Proof.
  split; [reflexivity|].
  apply (tasks_finish (run_schedule contenders) (run_schedule_reachable contenders)).
  - unfold overtaken. rewrite run_schedule_app. apply run_moves. repeat constructor.
  - apply finished_nf. decide_now.
Defined.
