(* ===== verification/SshCa.v ===== *)
(** The SSH certificate authority:
    [crates/gateway-core/src/{ssh_ca,ssh_ca_provider,ssh_ca_gateway}.rs] and
    the endpoint parsing of [ssh.rs].

    Minting a user certificate for an enrolled agent: validation, the fields
    of the certificate, and the classified errors.  The certificate builder of
    the [ssh_key] crate is a parameter.  The theorems fix the fields of every
    minted certificate and show that the authority's key is never handed out
    or replaced. *)

From S2P Require Import Prelude Strs Json Extern Toy Protocol Enrollment.
#[local] Open Scope Z_scope.

Definition TTL_CEILING_SECS : Z := 3600.
Definition HOST_EXTENSION : str := "host@chaperone".
Definition CA_ENTRY : str := "chaperone/ca/ssh".
Definition CA_SCHEME : str := "ca".

Record MintRequest : Type := {
  r_agent_id : str;
  r_msg_id : str;
  r_username : str;
  r_host : str;
  r_want_pty : bool;
  r_ttl_secs : Z;
}.

Inductive MintError : Type := TtlAboveCeiling | BadAgentKey | EmptyField | BadCaKey.

(** [MintError::detail]. *)
Definition mint_detail (e : MintError) : str :=
  match e with
  | TtlAboveCeiling => "requested TTL exceeds the ruled ceiling"
  | BadAgentKey => "agent key is not a parseable Ed25519 public key"
  | EmptyField => "agent id, username, and host are all required"
  | BadCaKey => "CA key material did not parse"
  end.

Record MintedCert : Type := { cert_openssh : str; key_id : str }.

Inductive CaError : Type :=
| NotInitialized
| CaUnreadable
| CaKeyInvalid
| BadCredRef
| AgentNotEnrolled
| Mint (e : MintError).

(** [CaError::detail_text]. *)
Definition ca_detail_text (e : CaError) : str :=
  match e with
  | NotInitialized => "SSH CA not initialized; run chaperone ca-init first"
  | CaUnreadable => "CA key unreadable from the vault"
  | CaKeyInvalid => "stored CA key is not a parseable SSH private key"
  | BadCredRef => "ca:// references take exactly one host"
  | AgentNotEnrolled => "agent not enrolled; no key to certify"
  | Mint m => mint_detail m
  end.

Record MintIntent : Type := {
  i_agent_id : str;
  i_msg_id : str;
  i_username : str;
  i_want_pty : bool;
  i_ttl_secs : Z;
}.

Record AgentIdentity : Type := {
  a_agent_id : str;
  public_key_b64url : str;
  a_sponsor_id : str;
}.

(** What is put into the certificate builder of the [ssh_key] crate. *)
Record CertFields : Type := {
  cert_nonce : str;
  subject : str;
  valid_after : Z;
  valid_before : Z;
  cert_key_id : str;
  principals : list str;
  extensions : list (str * str);
}.

(** [russh::keys]: private keys in OpenSSH text, and a signed user certificate
    of the given fields as OpenSSH text, or a refusal of the builder. *)
Class SshKeys := {
  CaKey : Type;
  ca_from_openssh : str → option CaKey;
  sign_user_cert : CaKey → CertFields → option str;
  ca_public_key : CaKey → option str;
  fresh_ca_text : str → option str;
}.

Section Mint.
Context `{Base64, Ed25519, SshKeys}.

(** [ca_public_line]. *)
Definition ca_public_line (private_text : str) : option str :=
  k ← ca_from_openssh private_text; ca_public_key k.

(** [sign_crt_at]; [nonce] comes from the operating system's generator. *)
Definition sign_crt_at (ca_key : CaKey) (agent_public_key_b64url : str) (req : MintRequest)
    (anchor_epoch : Z) (nonce : str) : result MintError MintedCert :=
  if (r_ttl_secs req =? 0) || (TTL_CEILING_SECS <? r_ttl_secs req) then Err TtlAboveCeiling
  else if is_empty (trim (r_agent_id req)) || is_empty (trim (r_username req)) ||
          is_empty (trim (r_host req)) || is_empty (trim (r_msg_id req)) then Err EmptyField
  else
    raw ← map_err (λ _, BadAgentKey) (b64url_decode (trim agent_public_key_b64url));
    if decide (length raw = 32%nat) then
      let kid := "chaperone:" ++ trim (r_agent_id req) ++ ":" ++ trim (r_msg_id req) in
      let fields :=
        {| cert_nonce := nonce; subject := raw;
           valid_after := u64_saturating_sub anchor_epoch 60;
           valid_before := anchor_epoch + r_ttl_secs req;
           cert_key_id := kid; principals := [trim (r_username req)];
           extensions := (HOST_EXTENSION, trim (r_host req)) ::
                         (if r_want_pty req then [("permit-pty", [])] else []) |} in
      text ← ok_or (sign_user_cert ca_key fields) BadCaKey;
      Ok {| cert_openssh := text; key_id := kid |}
    else Err BadAgentKey.

(** [CaContext]: where the authority's key and the enrolled identities live. *)
Record CaContext : Type := {
  read_ca_entry : result CaError (option str);
  ctx_agent_identity : str → result CaError (option AgentIdentity);
  write_ca_entry : str → result CaError unit;
}.

(** [SshCaProvider::mint_for] at epoch [now]. *)
Definition mint_for (ctx : CaContext) (cred_ref : str) (identity : AgentIdentity)
    (intent : MintIntent) (now : Z) (nonce : str) : result CaError MintedCert :=
  host0 ← ok_or (strip_prefix "ca://" cred_ref) BadCredRef;
  let host := trim host0 in
  if is_empty host || contains_byte colon host || contains_byte slash host then Err BadCredRef
  else
    entry ← read_ca_entry ctx;
    ca_text ← ok_or entry NotInitialized;
    ca_key ← ok_or (ca_from_openssh ca_text) CaKeyInvalid;
    map_err Mint
      (sign_crt_at ca_key (public_key_b64url identity)
         {| r_agent_id := i_agent_id intent; r_msg_id := i_msg_id intent;
            r_username := i_username intent; r_host := host;
            r_want_pty := i_want_pty intent; r_ttl_secs := i_ttl_secs intent |} now nonce).

(** [SshCaProvider::initialized]. *)
Definition initialized (ctx : CaContext) : result CaError bool :=
  e ← read_ca_entry ctx; Ok (match e with Some _ => true | None => false end).

(** [SshCaProvider::init]; the result carries what is written, if anything. *)
Definition init (ctx : CaContext) (seed : str) : result CaError (option str) :=
  b ← initialized ctx;
  if (b : bool) then Ok None
  else
    text ← ok_or (fresh_ca_text seed) CaUnreadable;
    _ ← write_ca_entry ctx text;
    Ok (Some text).

(** [Provider::resolve] of the authority: refused for every entry. *)
Definition ca_resolve (entry : str) : result str str :=
  Err "the SSH CA key is non-exportable; minting is the only operation it serves".

(** [GatewayCaContext]: the local vault, when it is open, and the enrollments.
    [list_entries] and [get_entry] are the vault's [list] and [get]. *)
Definition read_ca_text (vault : option (result str (list str) * (str → result str (option str))))
  : result CaError (option str) :=
  match vault with
  | None => Ok None
  | Some (list_entries, get_entry) =>
      entries ← map_err (λ _, CaUnreadable) list_entries;
      if bool_decide (CA_ENTRY ∈ entries) then
        v ← map_err (λ _, CaUnreadable) (get_entry CA_ENTRY);
        t ← ok_or v CaUnreadable; Ok (Some t)
      else Ok None
  end.

Definition gateway_agent_identity `{SerdeText StoreFile} (s : EnrollmentStore) (id : str)
  : result CaError (option AgentIdentity) :=
  match lookup_key s id with
  | Some k => Ok (Some {| a_agent_id := id; public_key_b64url := encode_signature (vk_to_bytes k);
                          a_sponsor_id := default [] (sponsor_id_of s id) |})
  | None => Ok None
  end.

(** ** ssh.rs: the endpoint of a session *)

(** Where [SshBackend::connect] goes: host, port and login come from the
    operation body; the target URI is not consulted. *)
Definition ssh_endpoint (target_uri : str) (operation : Value) : result str (str * Z * str) :=
  host ← ok_or (get_str operation "host") "operation.host missing";
  let p := default 22 (get_u64 operation "port") in
  let port := if p <=? u16_max then p else 22 in
  user ← ok_or (get_str operation "user") "operation.user missing";
  Ok (host, port, user).

(** ** Properties *)

(** The certificate a request stands for. *)
Definition cert_for (req : MintRequest) (pk : str) (now : Z) (nonce : str) (f : CertFields) : Prop :=
  cert_nonce f = nonce ∧ subject f = pk ∧ length pk = 32%nat ∧
  valid_after f = u64_saturating_sub now 60 ∧ valid_before f = now + r_ttl_secs req ∧
  cert_key_id f = "chaperone:" ++ trim (r_agent_id req) ++ ":" ++ trim (r_msg_id req) ∧
  principals f = [trim (r_username req)] ∧ trim (r_username req) ≠ [] ∧
  extensions f = (HOST_EXTENSION, trim (r_host req)) ::
                 (if r_want_pty req then [("permit-pty", [])] else []).

Lemma sign_crt_at_ok k pkb64 req now nonce c :
  sign_crt_at k pkb64 req now nonce = Ok c →
  0 ≤ r_ttl_secs req →
  1 ≤ r_ttl_secs req ≤ TTL_CEILING_SECS ∧
  ∃ pk f, b64url_decode (trim pkb64) = Ok pk ∧ cert_for req pk now nonce f ∧
    sign_user_cert k f = Some (cert_openssh c) ∧ key_id c = cert_key_id f.
Proof.
  unfold sign_crt_at, cert_for. intros Hs Hnn.
  destruct ((r_ttl_secs req =? 0) || (TTL_CEILING_SECS <? r_ttl_secs req)) eqn:Ht; [done|].
  bool_to_prop. split; [lia|].
  destruct (is_empty (trim (r_agent_id req)) || is_empty (trim (r_username req)) ||
          is_empty (trim (r_host req)) || is_empty (trim (r_msg_id req))) eqn:He; [done|].
  bool_to_prop. apply result_bind_ok in Hs as (pk & Hpk & Hs). case_decide as Hl; [|done].
  apply result_bind_ok in Hs as (text & Hsign%ok_or_ok & [= <-]).
  exists pk. eexists. split; [by destruct (b64url_decode _); simplify_eq/=|].
  split; [|split; [exact Hsign|done]]. split_and!; try done.
  intros Hn. rewrite Hn in *. done.
Qed.

(** What a minted certificate says.  When the authority mints for
    [ca://host], the certificate certifies exactly the enrolled 32-byte key,
    names the trimmed user as its only principal, binds the host by extension,
    carries no forwarding extension, is valid for at most one hour past the
    clock (plus one minute of grace before it), and its key id joins the agent
    to the message; the host is one plain name. *)
Theorem minted_certificate ctx cred_ref identity intent now nonce c :
  0 ≤ i_ttl_secs intent → 0 ≤ now →
  mint_for ctx cred_ref identity intent now nonce = Ok c →
  ∃ host text k pk f,
    cred_ref = "ca://" ++ host ∧ trim host ≠ [] ∧ (colon ∉ trim host) ∧ (slash ∉ trim host) ∧
    read_ca_entry ctx = Ok (Some text) ∧ ca_from_openssh text = Some k ∧
    b64url_decode (trim (public_key_b64url identity)) = Ok pk ∧ length pk = 32%nat ∧
    sign_user_cert k f = Some (cert_openssh c) ∧ subject f = pk ∧
    principals f = [trim (i_username intent)] ∧ trim (i_username intent) ≠ [] ∧
    extensions f = (HOST_EXTENSION, trim host) ::
                   (if i_want_pty intent then [("permit-pty", [])] else []) ∧
    now - 60 ≤ valid_after f ≤ now ∧ now < valid_before f ≤ now + TTL_CEILING_SECS ∧
    key_id c = "chaperone:" ++ trim (i_agent_id intent) ++ ":" ++ trim (i_msg_id intent) ∧
    cert_key_id f = key_id c.
Proof.
  intros Hnn Hnow. unfold mint_for. intros (host & Hh%ok_or_ok & Hm)%result_bind_ok.
  apply strip_prefix_Some in Hh as ->. cbn zeta in Hm.
  destruct (is_empty (trim host) || contains_byte colon (trim host) || contains_byte slash (trim host))
    eqn:He; [done|]. bool_to_prop.
  apply result_bind_ok in Hm as (entry & Hr & Hm). apply result_bind_ok in Hm as (text & Ht%ok_or_ok & Hm).
  apply result_bind_ok in Hm as (k & Hk%ok_or_ok & Hm). subst entry.
  match type of Hm with map_err _ ?s = _ => destruct s as [c'|] eqn:Hs end; simplify_eq/=.
  destruct (sign_crt_at_ok _ _ _ _ _ _ Hs Hnn) as (Httl & pk & f & Hpk & Hf & Hsign & Hkid).
  destruct Hf as (_ & Hsub & Hlen & Hva & Hvb & Hid & Hpr & Hne & Hext). simpl in *.
  rewrite trim_trim in *.
  exists host, text, k, pk, f. split_and!; try done.
  - intros Hn. rewrite Hn in *. done.
  - by apply contains_byte_false.
  - by apply contains_byte_false.
  - rewrite Hva. unfold u64_saturating_sub. lia.
  - rewrite Hva. unfold u64_saturating_sub. lia.
  - rewrite Hvb. lia.
  - rewrite Hvb. lia.
  - congruence.
Qed.

(** The authority's key stays put.  Resolving through the authority is
    refused for every entry, and [init] writes a key only when none is stored:
    an existing authority is never replaced. *)
Theorem ca_key_never_leaves_or_changes ctx seed entry text :
  is_ok (ca_resolve entry) = false ∧
  (read_ca_entry ctx = Ok (Some text) → init ctx seed = Ok None) ∧
  (∀ written, init ctx seed = Ok (Some written) → read_ca_entry ctx = Ok None).
Proof.
  split; [done|]. unfold init, initialized. split.
  - by intros ->.
  - intros w. destruct (read_ca_entry ctx) as [[t|]|e]; simpl; [done|done|done].
Qed.
End Mint.

Section Witnesses.
#[local] Existing Instance toy_base64.
#[local] Existing Instance toy_ed25519.

Definition toy_ssh : SshKeys :=
  {| CaKey := str; ca_from_openssh s := if is_empty s then None else Some s;
     sign_user_cert k f := Some (k ++ cert_key_id f); ca_public_key k := Some k;
     fresh_ca_text s := Some ("key" ++ s) |}.
#[local] Existing Instance toy_ssh.

Definition toy_ctx : CaContext :=
  {| read_ca_entry := Ok (Some "cakey"); ctx_agent_identity _ := Ok None; write_ca_entry _ := Ok tt |}.

Definition toy_intent : MintIntent :=
  {| i_agent_id := "agent:a"; i_msg_id := "m1"; i_username := " deploy "; i_want_pty := false;
     i_ttl_secs := 300 |}.

Definition toy_identity : AgentIdentity :=
  {| a_agent_id := "agent:a"; public_key_b64url := toy_pk Byte.x41; a_sponsor_id := "s" |}.

Lemma minted_certificate_witness :
  ∃ c f, mint_for toy_ctx "ca://web1" toy_identity toy_intent 1000 "nonce" = Ok c ∧
    sign_user_cert ("cakey" : CaKey) f = Some (cert_openssh c) ∧ principals f = ["deploy"].
Proof.
  set (r := mint_for toy_ctx "ca://web1" toy_identity toy_intent 1000 "nonce").
  assert (is_ok r = true) as Hok by (vm_compute; reflexivity).
  destruct r as [c|e] eqn:Hr; [|discriminate Hok]. exists c.
  destruct (minted_certificate toy_ctx "ca://web1" toy_identity toy_intent 1000 "nonce" c
    ltac:(simpl; lia) ltac:(lia) Hr) as (host & text & k & pk & f & _ & _ & _ & _ & Ht & Hk & _ & _ & Hs & _ & Hp & _).
  exists f. split; [reflexivity|]. split.
  - injection Ht as <-. injection Hk as <-. exact Hs.
  - rewrite Hp. vm_compute. reflexivity.
Defined.

Lemma ca_key_never_leaves_or_changes_witness : init toy_ctx "s" = Ok None.
Proof. apply (ca_key_never_leaves_or_changes toy_ctx "s" "x" "cakey"). reflexivity. Defined.
End Witnesses.
