(* ===== verification/Gateway.v ===== *)
(** The gateway: [crates/gateway-core/src/lib.rs].

    The assembled spine from a signed message to its response: identity,
    typed parse, policy, confirmation, fetch-late resolution or minting,
    injection or session establishment, audit and the live feed.  Handlers are
    programs of a small state monad over the gateway's components that also
    records every action on the outside world in order, so that ordering and
    absence of effects are statements about that record. *)

From S2P Require Import Prelude Strs Json Extern Protocol Matcher Policy Enrollment Replay Identity.
From S2P Require Import AuditChain Session SshCa.
#[local] Open Scope Z_scope.

(** ** Configuration and the human gate *)

Record GatewayConfig : Type := {
  default_max_response_bytes : Z;
  default_session_ttl_secs : Z;
  default_timeout_secs : Z;
  session_heartbeat_secs : Z;
}.

(** [GatewayConfig::default]. *)
Definition default_gateway_config : GatewayConfig :=
  {| default_max_response_bytes := 1048576; default_session_ttl_secs := 300;
     default_timeout_secs := 30; session_heartbeat_secs := 300 |}.

Inductive SessionFrameKind : Type := Command | Close.

Inductive ConfirmOutcome : Type := Approved | Refused | TimedOut.

Record ConfirmContext : Type := {
  cc_agent_id : str;
  cc_target_label : str;
  cc_target_uri : str;
  cc_mechanism : str;
  cc_summary : str;
}.

(** [OperatorGate::render]. *)
Definition gate_render (ctx : ConfirmContext) : str :=
  [zb 10] ++ "CHAPERONE CONFIRMATION" ++ [zb 10] ++ "  agent:     " ++ cc_agent_id ctx ++
  [zb 10] ++ "  target:    " ++ cc_target_label ctx ++ " (" ++ cc_target_uri ctx ++ ")" ++
  [zb 10] ++ "  mechanism: " ++ cc_mechanism ctx ++
  [zb 10] ++ "  action:    " ++ cc_summary ctx ++ [zb 10] ++ "Approve? [y/N]: ".

(** [OperatorGate::parse]. *)
Definition gate_parse (answer : option str) : ConfirmOutcome :=
  match (λ a, to_ascii_lowercase (trim a)) <$> answer with
  | Some a => if bool_decide (a = "y") || bool_decide (a = "yes") then Approved else Refused
  | None => Refused
  end.

(** [OperatorGate::confirm]: what the operator channel does within the
    timeout. *)
Inductive operator_io : Type :=
| PromptFailed
| ReadFailed
| Answered (answer : option str)
| NoAnswerInTime
| WorkerDied.

Definition gate_confirm (io : operator_io) : ConfirmOutcome :=
  match io with
  | PromptFailed | ReadFailed | WorkerDied => Refused
  | Answered a => gate_parse a
  | NoAnswerInTime => TimedOut
  end.

(** [AlwaysTimeoutGate::confirm]. *)
Definition always_timeout (ctx : ConfirmContext) : ConfirmOutcome := TimedOut.

(** [PrivilegeAllowlist::permits]: the pinned arguments are a prefix. *)
Definition privilege_permits (entries : list (str * list str)) (command : str) (args : list str) : bool :=
  existsb (λ e, bool_decide (e.1 = command) && (length e.2 <=? length args)%nat &&
                bool_decide (take (length e.2) args = e.2)) entries.

(** ** The outside world *)

Record HttpLimits : Type := { hl_max_response_bytes : Z; hl_timeout_secs : Z }.
Record HttpResponse : Type := { hr_status : Z; hr_headers : list (str * str); hr_body : str }.

(** What the gateway meets while it handles one message: clocks, entropy, the
    outcome of file operations, the human at the gate, the vault, the
    mechanism backends and the live channels. *)
Record World : Type := {
  wall_clock : Z;
  mono_clock : Z;
  unix_epoch : Z;
  formatted_now : result str str;
  replay_io : Io;
  audit_short : option nat;
  entropy : str;
  confirm : ConfirmContext → ConfirmOutcome;
  resolve : str → result str str;
  connect : str → str → Value → str → result str nat;
  http_execute : str → str → HttpOperation → str → HttpLimits → result str HttpResponse;
  db_execute : str → Value → str → result str Value;
  channel_write : nat → str → result str unit;
  channel_read : nat → OutputBatch;
  schema_error : Value → str;
}.

(** Actions on the outside world. *)
Inductive action : Type :=
| AConfirm (ctx : ConfirmContext)
| AResolve (cred_ref : str)
| AMint (cred_ref : str) (intent : MintIntent)
| AConnect (mechanism target_uri : str) (operation : Value)
| AHttp (mechanism target_uri : str) (op : HttpOperation) (limits : HttpLimits)
| ADb (target_uri : str) (operation : Value)
| AAudit (ev : AuditEvent)
| AAuditFailed (ev : AuditEvent)
| ABroadcast (event : Value)
| AWrite (chan : nat) (data : str)
| ARead (chan : nat)
| AShutdown (chan : nat).

Definition NANOS : Z := 1000000000.

(** [Instant + Duration] for whole seconds; [None] is its overflow panic. *)
Definition instant_add (now secs : Z) : option Z :=
  if now / NANOS + secs <=? i64_max then Some (now + secs * NANOS) else None.

Section Gateway.
Context `{Base64, Ed25519, SerdeText StoreFile, SerdeLine JournalLine, JsonText, Sha256, TimeApi,
          DebugFmt, SshKeys}.

Record Gateway : Type := {
  attestor : Attestor;
  policy : Policy;
  audit : AuditWriter;
  config : GatewayConfig;
  sessions : SessionTable;
  backends : gset str;
  privilege_allowlist : option (list (str * list str));
  ruleset_hash : str;
  event_hub : bool;
  halted : bool;
  halt_reason : option str;
  ssh_ca : option CaContext;
}.

Definition set_attestor (g : Gateway) (a : Attestor) : Gateway :=
  {| attestor := a; policy := policy g; audit := audit g; config := config g;
     sessions := sessions g; backends := backends g; privilege_allowlist := privilege_allowlist g;
     ruleset_hash := ruleset_hash g; event_hub := event_hub g; halted := halted g;
     halt_reason := halt_reason g; ssh_ca := ssh_ca g |}.
Definition set_audit (g : Gateway) (w : AuditWriter) : Gateway :=
  {| attestor := attestor g; policy := policy g; audit := w; config := config g;
     sessions := sessions g; backends := backends g; privilege_allowlist := privilege_allowlist g;
     ruleset_hash := ruleset_hash g; event_hub := event_hub g; halted := halted g;
     halt_reason := halt_reason g; ssh_ca := ssh_ca g |}.
Definition set_sessions (g : Gateway) (t : SessionTable) : Gateway :=
  {| attestor := attestor g; policy := policy g; audit := audit g; config := config g;
     sessions := t; backends := backends g; privilege_allowlist := privilege_allowlist g;
     ruleset_hash := ruleset_hash g; event_hub := event_hub g; halted := halted g;
     halt_reason := halt_reason g; ssh_ca := ssh_ca g |}.
Definition set_halt (g : Gateway) (reason : str) : Gateway :=
  {| attestor := attestor g; policy := policy g; audit := audit g; config := config g;
     sessions := sessions g; backends := backends g; privilege_allowlist := privilege_allowlist g;
     ruleset_hash := ruleset_hash g; event_hub := event_hub g; halted := true;
     halt_reason := Some reason; ssh_ca := ssh_ca g |}.

(** ** The handler monad *)

(** A handler transforms the gateway, appends to the list of actions, and
    returns a value unless it panics. *)
Definition M (A : Type) : Type := Gateway → option A * Gateway * list action.

#[global] Instance M_ret : MRet M := λ A a g, (Some a, g, []).
#[global] Instance M_bind : MBind M := λ A B f m g,
  match m g with
  | (Some a, g1, t1) => let '(b, g2, t2) := f a g1 in (b, g2, t1 ++ t2)
  | (None, g1, t1) => (None, g1, t1)
  end.

Definition get_gw : M Gateway := λ g, (Some g, g, []).
Definition put_gw (g : Gateway) : M unit := λ _, (Some tt, g, []).
Definition act (a : action) : M unit := λ g, (Some tt, g, [a]).
Definition panic {A} : M A := λ g, (None, g, []).

(** ** Responses *)

Definition echo_msg_id (message : Value) : Value := default Null (get message "msg_id").

(** [Gateway::error]. *)
Definition error_response (message : Value) (code reason : str) : Value :=
  object [("type", jstr "error"); ("msg_id", echo_msg_id message); ("code", jstr code);
          ("reason", jstr reason)].

(** [audit_id]. *)
Definition audit_id (seq : Z) : str := "aud_" ++ show seq.

(** [base64_std_decode]: undecodable input is empty. *)
Definition base64_std_decode (text : str) : str :=
  match b64std_decode (trim text) with Ok b => b | Err _ => [] end.

(** [object_from_pairs]. *)
Definition object_from_pairs (pairs : list (str * str)) : Value :=
  object ((λ kv, (kv.1, jstr kv.2)) <$> pairs).

(** ** Audit and the live feed *)

(** [AuditWriter::append] as the handlers use it: the sequence number if the
    record was written; a failure (clock, serialization, write) is dropped. *)
Definition append_action (r : result AuditError Head) (ev : AuditEvent) : action :=
  if is_ok r then AAudit ev else AAuditFailed ev.

Definition append_event (w : World) (ev : AuditEvent) : M (option Z) :=
  g ← get_gw;
  let '(r, a) := append (audit g) ev (formatted_now w) (audit_short w) in
  _ ← put_gw (set_audit g a);
  _ ← act (append_action r ev);
  mret (match r with Ok h => Some (head_seq h) | Err _ => None end).

(** [Gateway::broadcast_json]. *)
Definition broadcast_json (event : Value) : M unit :=
  g ← get_gw; if event_hub g then act (ABroadcast event) else mret tt.

Definition sponsor_of (g : Gateway) (id : str) : str :=
  default [] (attestor_sponsor_id (attestor g) id).

(** The event of [Gateway::audit_decision]. *)
Definition decision_event (g : Gateway) (envelope : Envelope) (eff : str) (outcome : Outcome) : AuditEvent :=
  {| record_kind := IntentDecision; AuditChain.ruleset_hash := ruleset_hash g;
     ev_agent_id := e_agent_id envelope; ev_sponsor_id := sponsor_of g (e_agent_id envelope);
     ev_msg_id := e_msg_id envelope; ev_mechanism := e_mechanism envelope;
     ev_target_uri := uri (e_target envelope); ev_target_label := label (e_target envelope);
     ev_cred_ref := e_cred_ref envelope; ev_effect := eff; ev_outcome := outcome;
     intent_envelope := envelope_to_value envelope |}.

(** [Gateway::audit_decision]. *)
Definition audit_decision (w : World) (envelope : Envelope) (eff : str) (notify : bool)
    (outcome : Outcome) : M (option Z) :=
  g ← get_gw;
  let event := decision_event g envelope eff outcome in
  seq ← append_event w event;
  _ ← (if bool_decide (eff = effect_str Deny) || notify then
         broadcast_json (object
           [("type", jstr "decision"); ("audit_id", jstr (audit_id (default 0 seq)));
            ("agent_id", jstr (ev_agent_id event)); ("sponsor_id", jstr (ev_sponsor_id event));
            ("effect", jstr (ev_effect event)); ("mechanism", jstr (ev_mechanism event));
            ("target_uri", jstr (ev_target_uri event));
            ("outcome", outcome_value (ev_outcome event))])
       else mret tt);
  mret seq.

(** [Gateway::audit_identity_failure]. *)
Definition identity_failure_event (g : Gateway) (message : Value) (code : ErrorCode) : AuditEvent :=
  let claimed := default "<unnamed>" (get_str message "agent_id") in
  let target_field k := default [] (t ← get message "target"; get_str t k) in
  {| record_kind := IntentDecision; AuditChain.ruleset_hash := ruleset_hash g;
     ev_agent_id := claimed; ev_sponsor_id := sponsor_of g claimed;
     ev_msg_id := default [] (get_str message "msg_id");
     ev_mechanism := default [] (get_str message "mechanism");
     ev_target_uri := target_field "uri"; ev_target_label := target_field "label";
     ev_cred_ref := default [] (get_str message "cred_ref"); ev_effect := "deny";
     ev_outcome := IdentityFailed (code_str code); intent_envelope := message |}.

Definition audit_identity_failure (w : World) (message : Value) (code : ErrorCode) : M unit :=
  g ← get_gw; _ ← append_event w (identity_failure_event g message code); mret tt.

(** [Gateway::broadcast_session_event]. *)
Definition broadcast_session_event (w : World) (kind handle : str) (entry : Entry) : M unit :=
  g ← get_gw;
  let s := stats entry (mono_clock w) in
  broadcast_json (object
    [("type", jstr kind); ("session_handle", jstr handle); ("agent_id", jstr (s_agent_id entry));
     ("sponsor_id", jstr (sponsor_of g (s_agent_id entry)));
     ("mechanism", jstr (s_mechanism entry)); ("target_uri", jstr (s_target_uri entry));
     ("target_label", jstr (s_target_label entry)); ("commands", jnum (st_commands s));
     ("bytes_in", jnum (st_bytes_in s)); ("bytes_out", jnum (st_bytes_out s));
     ("elapsed_secs", jnum (elapsed s / NANOS))]).

(** A terminal outcome after policy: record it, then answer with an error. *)
Definition fail_with (w : World) (message : Value) (envelope : Envelope) (d : Decision)
    (outcome : Outcome) (code reason : str) : M Value :=
  _ ← audit_decision w envelope (effect_str (effect d)) (d_notify_on_use d) outcome;
  mret (error_response message code reason).

(** The step of every handler that verifies the message. *)
Definition verify_message (w : World) (message : Value) : M (result IdentityError VerifiedIntent) :=
  g ← get_gw;
  let '(r, a) := verify (attestor g) message (wall_clock w) (replay_io w) in
  _ ← put_gw (set_attestor g a);
  mret r.

(** ** Opening a session *)

Definition no_backend (mechanism : str) : str :=
  "mechanism " ++ debug_str mechanism ++ " has no session backend configured in this build".

(** The [ca://] branch of [open_session]: the certificate that becomes the
    session secret, or the detail text of the failure. *)
Definition mint_secret (w : World) (envelope : Envelope) (d : Decision) (ca : CaContext)
  : M (result str str) :=
  g ← get_gw;
  let username := default [] (get_str (e_operation envelope) "user") in
  let want_pty := default true (get (e_operation envelope) "pty" ≫= as_bool) in
  let ttl := Z.min (default (default_session_ttl_secs (config g)) (session_ttl_s (d_limits d)))
                   TTL_CEILING_SECS in
  match ctx_agent_identity ca (e_agent_id envelope) with
  | Ok (Some identity) =>
      let intent := {| i_agent_id := e_agent_id envelope; i_msg_id := e_msg_id envelope;
                       i_username := username; i_want_pty := want_pty; i_ttl_secs := ttl |} in
      _ ← act (AMint (e_cred_ref envelope) intent);
      mret (match mint_for ca (e_cred_ref envelope) identity intent (unix_epoch w) (entropy w) with
            | Ok cert => Ok (cert_openssh cert)
            | Err e => Err (ca_detail_text e)
            end)
  | Ok None | Err _ => mret (Err (ca_detail_text AgentNotEnrolled))
  end.

(** The credential of a session: minted for [ca://] references, otherwise
    resolved from the vault; an error is the outcome, code and reason. *)
Definition session_secret (w : World) (envelope : Envelope) (d : Decision)
  : M (result (Outcome * str * str) str) :=
  g ← get_gw;
  if starts_with "ca://" (e_cred_ref envelope) then
    match ssh_ca g with
    | None => mret (Err (MechanismError, "E_MECHANISM", ca_detail_text NotInitialized))
    | Some ca =>
        r ← mint_secret w envelope d ca;
        mret (map_err (λ e, (MechanismError, "E_MECHANISM", e)) r)
    end
  else
    _ ← act (AResolve (e_cred_ref envelope));
    mret (map_err (λ e, (CredentialUnresolved, "E_CRED_UNRESOLVED", e)) (resolve w (e_cred_ref envelope))).

(** The TTL of a session: declared by the envelope, else the default. *)
Definition session_ttl (g : Gateway) (envelope : Envelope) : Z :=
  default (default_session_ttl_secs (config g)) (e_constraints envelope ≫= c_session_ttl_s).

(** The tail of [open_session], once the channel is established: the handle is
    issued, the opening recorded and the result built. *)
Definition issue_session (w : World) (message : Value) (agent_id : str) (envelope : Envelope)
    (d : Decision) (chan : nat) : M Value :=
  g ← get_gw;
  let ttl := session_ttl g envelope in
  match instant_add (mono_clock w) ttl with
  | None => panic
  | Some _ =>
      let '(handle, _, table) :=
        session_insert (sessions g) agent_id (e_mechanism envelope) (uri (e_target envelope))
          (label (e_target envelope)) chan (ttl * NANOS) (mono_clock w) (entropy w) in
      _ ← put_gw (set_sessions g table);
      seq ← audit_decision w envelope (effect_str (effect d)) (d_notify_on_use d) (SessionOpened handle);
      mret (object [("type", jstr "result"); ("decision", jstr (effect_str (effect d)));
                    ("session_handle", jstr handle); ("session_ttl", jnum ttl);
                    ("audit_id", jstr (audit_id (default 0 seq))); ("msg_id", echo_msg_id message)])
  end.

(** [Gateway::open_session]. *)
Definition open_session (w : World) (message : Value) (agent_id : str) (envelope : Envelope)
    (d : Decision) : M Value :=
  g ← get_gw;
  if bool_decide (e_mechanism envelope ∈ backends g) then
    s ← session_secret w envelope d;
    match s with
    | Err (outcome, code, reason) => fail_with w message envelope d outcome code reason
    | Ok secret =>
        _ ← act (AConnect (e_mechanism envelope) (uri (e_target envelope)) (e_operation envelope));
        match connect w (e_mechanism envelope) (uri (e_target envelope)) (e_operation envelope) secret with
        | Err e => fail_with w message envelope d MechanismError "E_MECHANISM"
                     ("session establishment failed: " ++ e)
        | Ok chan => issue_session w message agent_id envelope d chan
        end
    end
  else fail_with w message envelope d MechanismError "E_MECHANISM" (no_backend (e_mechanism envelope)).

(** ** Session frames *)

Definition session_event (g : Gateway) (message : Value) (agent_id mechanism reason : str)
    (exit : option Z) : AuditEvent :=
  {| record_kind := IntentDecision; AuditChain.ruleset_hash := ruleset_hash g; ev_agent_id := agent_id;
     ev_sponsor_id := sponsor_of g agent_id; ev_msg_id := default [] (get_str message "msg_id");
     ev_mechanism := mechanism; ev_target_uri := []; ev_target_label := []; ev_cred_ref := [];
     ev_effect := "allow"; ev_outcome := SessionClosed reason exit; intent_envelope := message |}.

(** The close branch of [handle_session_frame]. *)
Definition close_session (w : World) (message : Value) (agent_id handle : str) : M Value :=
  g ← get_gw;
  match session_take (sessions g) handle agent_id with
  | (None, _) =>
      mret (error_response message "E_SESSION_EXPIRED" "unknown or expired session_handle")
  | (Some entry, table) =>
      _ ← put_gw (set_sessions g table);
      _ ← act (AShutdown (channel entry));
      _ ← broadcast_session_event w "session.summary" handle entry;
      g' ← get_gw;
      seq ← append_event w (session_event g' message agent_id "session.close" "client_close" None);
      mret (object [("type", jstr "session.closed"); ("session_handle", jstr handle);
                    ("reason", jstr "client_close"); ("exit_code", Null);
                    ("audit_id", jstr (audit_id (default 0 seq))); ("msg_id", echo_msg_id message)])
  end.

(** The relayed output: each chunk takes the next output sequence number. *)
Fixpoint number_outputs (e : Entry) (cs : list OutputChunk) : list Value * Entry :=
  match cs with
  | [] => ([], e)
  | c :: rest =>
      let '(seq, e1) := next_out_seq e in
      let '(vs, e2) := number_outputs e1 rest in
      (object [("seq", jnum seq); ("stream", jstr (stream c)); ("data_b64", jstr (b64std_encode (data c)))] :: vs, e2)
  end.

Definition exit_value (x : option Z) : Value := match x with Some n => jnum n | None => Null end.

(** The part of the command branch after the channel reported its end. *)
Definition end_session (w : World) (message : Value) (agent_id handle : str) (outputs : list Value)
    (exit : option Z) : M Value :=
  g ← get_gw;
  _ ← (match session_take (sessions g) handle agent_id with
       | (Some entry, table) =>
           _ ← put_gw (set_sessions g table);
           _ ← act (AShutdown (channel entry));
           broadcast_session_event w "session.summary" handle entry
       | (None, _) => mret tt
       end);
  g' ← get_gw;
  seq ← append_event w (session_event g' message agent_id "session.command" "exited" exit);
  mret (object [("type", jstr "session.output"); ("session_handle", jstr handle);
                ("outputs", Array outputs); ("closed", Bool true); ("exit_code", exit_value exit);
                ("audit_id", jstr (audit_id (default 0 seq))); ("msg_id", echo_msg_id message)]).

(** The command branch of [handle_session_frame]. *)
Definition relay_command (w : World) (message : Value) (agent_id handle : str) : M Value :=
  let input := match get_str message "input_b64" with Some b => base64_std_decode b | None => [] end in
  g ← get_gw;
  match access (sessions g) handle agent_id (mono_clock w) with
  | Err (code, reason) => mret (error_response message code reason)
  | Ok (entry, _) =>
      _ ← act (AWrite (channel entry) input);
      match channel_write w (channel entry) input with
      | Err e => mret (error_response message "E_MECHANISM" ("channel write failed: " ++ e))
      | Ok _ =>
          _ ← act (ARead (channel entry));
          let batch := channel_read w (channel entry) in
          let out_len := foldr (λ c n, zlen (data c) + n) 0 (chunks batch) in
          let '(outputs, entry') := number_outputs (record_relay entry (zlen input) out_len) (chunks batch) in
          _ ← put_gw (set_sessions g (<[handle := entry']> (sessions g)));
          if closed batch then end_session w message agent_id handle outputs (exit_code batch)
          else mret (object [("type", jstr "session.output"); ("session_handle", jstr handle);
                             ("outputs", Array outputs); ("closed", Bool false);
                             ("msg_id", echo_msg_id message)])
      end
  end.

(** [Gateway::handle_session_frame]. *)
Definition handle_session_frame (w : World) (message : Value) (kind : SessionFrameKind) : M Value :=
  r ← verify_message w message;
  match r with
  | Err e => mret (error_response message (code_str (identity_error_code e)) (identity_reason e))
  | Ok verified =>
      match get_str message "session_handle" with
      | None => mret (error_response message "E_SESSION_EXPIRED" "frame carries no session_handle")
      | Some handle =>
          match kind with
          | Close => close_session w message (v_agent_id verified) handle
          | Command => relay_command w message (v_agent_id verified) handle
          end
      end
  end.

(** ** Intents *)

(** The deny reason: provenance of the decision. *)
Definition deny_reason (d : Decision) : str :=
  match d_source d with
  | DefaultDeny => "no policy rule permits this action (default-deny)"
  | ByRule _ _ _ => "denied by " ++ source_label (d_source d)
  end.

Definition ONE_SHOT : list str := ["http-bearer"; "http-basic"; "db-scram"].

(** The arguments of a local-privilege operation. *)
Definition operation_args (op : Value) : list str :=
  match get op "args" ≫= as_array with Some a => omap as_str a | None => [] end.

Definition privilege_pinned (g : Gateway) (op : Value) : bool :=
  match privilege_allowlist g with
  | Some al => privilege_permits al (default [] (get_str op "command")) (operation_args op)
  | None => false
  end.

(** The effect that gates an [ssh] or [local-privilege] session, and the
    summary shown: an allowed local-privilege command still takes the human
    gate unless the operator pinned it. *)
Definition session_gate (g : Gateway) (envelope : Envelope) (d : Decision) : Effect * str :=
  if bool_decide (e_mechanism envelope = "local-privilege") then
    let op := e_operation envelope in
    let summary := "run " ++ default [] (get_str op "command") ++ " " ++ join " " (operation_args op) in
    let eff := if negb (privilege_pinned g op) && bool_decide (effect d = Allow)
               then NeedsConfirmation else effect d in
    (eff, summary)
  else (effect d, []).

Definition confirm_context (agent_id summary : str) (envelope : Envelope) : ConfirmContext :=
  {| cc_agent_id := agent_id; cc_target_label := label (e_target envelope);
     cc_target_uri := uri (e_target envelope); cc_mechanism := e_mechanism envelope;
     cc_summary := summary |}.

(** Asks the human when the effect needs it; [true] means go on. *)
Definition human_gate (w : World) (eff : Effect) (ctx : ConfirmContext) : M bool :=
  if bool_decide (eff = NeedsConfirmation) then
    _ ← act (AConfirm ctx);
    mret (match confirm w ctx with Approved => true | _ => false end)
  else mret true.

(** The routing of the mechanisms that are not one-shot. *)
Definition route_session (w : World) (message : Value) (agent_id : str) (envelope : Envelope)
    (d : Decision) : M Value :=
  g ← get_gw;
  if bool_decide (e_mechanism envelope ∈ ["ssh"; "local-privilege"]) then
    if bool_decide (e_mechanism envelope ∈ backends g) then
      let '(eff, summary) := session_gate g envelope d in
      ok ← human_gate w eff
             (confirm_context agent_id (if is_empty summary then "operation" else summary) envelope);
      if (ok : bool) then open_session w message agent_id envelope d
      else fail_with w message envelope d ConfirmationTimeout "E_CONFIRM_TIMEOUT"
             "the human gate did not approve this privileged action"
    else fail_with w message envelope d MechanismError "E_MECHANISM" (no_backend (e_mechanism envelope))
  else fail_with w message envelope d MechanismError "E_MECHANISM"
         ("mechanism " ++ debug_str (e_mechanism envelope) ++ " is not available in this build").

(** The action line of the single human gate. *)
Definition operation_summary (op : Value) : str :=
  match http_operation_of_value op with
  | Some h => http_summary h
  | None => match db_operation_of_value op with Some q => db_summary q | None => "operation" end
  end.

Definition opt_value (o : option str) : Value := match o with Some s => jstr s | None => Null end.

(** [serde_json::to_value] of a [DbOperation]. *)
Definition db_operation_to_value (op : DbOperation) : Value :=
  object [("engine", jstr (db_engine op)); ("database", opt_value (db_database op));
          ("statement", opt_value (db_statement op));
          ("params", match db_params op with Some l => Array (jstr <$> l) | None => Null end);
          ("username", opt_value (db_username op))].

Definition insert_field (k : str) (x v : Value) : Value :=
  match v with Object m => Object (map_insert k x m) | _ => v end.

(** The [db-scram] branch: a statement runs at once, otherwise a session opens. *)
Definition run_db (w : World) (message : Value) (agent_id : str) (envelope : Envelope) (d : Decision)
  : M Value :=
  match db_operation_of_value (e_operation envelope) with
  | None => fail_with w message envelope d MechanismError "E_MECHANISM"
              ("operation body invalid: " ++ schema_error w (e_operation envelope))
  | Some op =>
      match db_statement op with
      | None => open_session w message agent_id envelope d
      | Some _ =>
          _ ← act (AResolve (e_cred_ref envelope));
          match resolve w (e_cred_ref envelope) with
          | Err e => fail_with w message envelope d CredentialUnresolved "E_CRED_UNRESOLVED" e
          | Ok secret =>
              _ ← act (ADb (uri (e_target envelope)) (db_operation_to_value op));
              match db_execute w (uri (e_target envelope)) (db_operation_to_value op) secret with
              | Err e => fail_with w message envelope d MechanismError "E_MECHANISM" e
              | Ok result =>
                  let r1 := insert_field "msg_id" (echo_msg_id message)
                              (insert_field "decision" (jstr (effect_str (effect d))) result) in
                  seq ← audit_decision w envelope (effect_str (effect d)) (d_notify_on_use d) Proceeded;
                  mret (insert_field "audit_id" (jstr (audit_id (default 0 seq))) r1)
              end
          end
      end
  end.

Definition http_limits (g : Gateway) (d : Decision) : HttpLimits :=
  {| hl_max_response_bytes := default (default_max_response_bytes (config g)) (max_response_bytes (d_limits d));
     hl_timeout_secs := default_timeout_secs (config g) |}.

(** The HTTP branch: operation parse, fetch-late resolution, injection. *)
Definition run_http (w : World) (message : Value) (envelope : Envelope) (d : Decision) : M Value :=
  match http_operation_of_value (e_operation envelope) with
  | None => fail_with w message envelope d MechanismError "E_MECHANISM"
              ("operation body invalid: " ++ schema_error w (e_operation envelope))
  | Some op =>
      if has_agent_authorization op then
        fail_with w message envelope d MechanismError "E_MECHANISM"
          "agents do not supply Authorization headers; name a cred_ref instead"
      else
        _ ← act (AResolve (e_cred_ref envelope));
        match resolve w (e_cred_ref envelope) with
        | Err e => fail_with w message envelope d CredentialUnresolved "E_CRED_UNRESOLVED" e
        | Ok secret =>
            g ← get_gw;
            let limits := http_limits g d in
            _ ← act (AHttp (e_mechanism envelope) (uri (e_target envelope)) op limits);
            match http_execute w (e_mechanism envelope) (uri (e_target envelope)) op secret limits with
            | Err e => fail_with w message envelope d MechanismError "E_MECHANISM" e
            | Ok resp =>
                seq ← audit_decision w envelope (effect_str (effect d)) (d_notify_on_use d) Proceeded;
                mret (object [("type", jstr "result"); ("decision", jstr (effect_str (effect d)));
                              ("status", jnum (hr_status resp));
                              ("headers", object_from_pairs (hr_headers resp));
                              ("body_b64", jstr (b64std_encode (hr_body resp)));
                              ("audit_id", jstr (audit_id (default 0 seq)));
                              ("msg_id", echo_msg_id message)])
            end
        end
  end.

(** What happens to an intent that policy did not deny. *)
Definition broker (w : World) (message : Value) (agent_id : str) (envelope : Envelope) (d : Decision)
  : M Value :=
  if bool_decide (e_mechanism envelope ∈ ONE_SHOT) then
    ok ← human_gate w (effect d)
           (confirm_context agent_id (operation_summary (e_operation envelope)) envelope);
    if (ok : bool) then
      if bool_decide (e_mechanism envelope = "db-scram")
      then run_db w message agent_id envelope d
      else run_http w message envelope d
    else fail_with w message envelope d ConfirmationTimeout "E_CONFIRM_TIMEOUT"
           "the human gate did not approve this action"
  else route_session w message agent_id envelope d.

Definition policy_request (agent_id : str) (envelope : Envelope) : Request :=
  {| req_agent_id := agent_id; req_cred_ref := e_cred_ref envelope;
     req_target_uri := uri (e_target envelope); req_mechanism := e_mechanism envelope;
     declared := e_constraints envelope |}.

(** [Gateway::handle_intent]. *)
Definition handle_intent (w : World) (message : Value) : M Value :=
  r ← verify_message w message;
  match r with
  | Err e =>
      _ ← audit_identity_failure w message (identity_error_code e);
      mret (error_response message (code_str (identity_error_code e)) (identity_reason e))
  | Ok verified =>
      match envelope_of_value (v_envelope verified) with
      | None => mret (error_response message "E_MECHANISM"
                  ("signed intent failed schema validation: " ++ schema_error w (v_envelope verified)))
      | Some envelope =>
          g ← get_gw;
          let d := evaluate (policy g) (policy_request (v_agent_id verified) envelope) in
          if bool_decide (effect d = Deny)
          then fail_with w message envelope d OutcomeDenied "E_DENIED" (deny_reason d)
          else broker w message (v_agent_id verified) envelope d
      end
  end.

(** [Gateway::handle_message]. *)
Definition handle_message (w : World) (message : Value) : M Value :=
  g ← get_gw;
  if halted g then
    mret (error_response message "E_GATEWAY_HALTED" (default "gateway halted" (halt_reason g)))
  else
    match get_str message "type" with
    | Some ty =>
        if decide (ty = "intent") then handle_intent w message
        else if decide (ty = "session.command") then handle_session_frame w message Command
        else if decide (ty = "session.close") then handle_session_frame w message Close
        else mret (error_response message "E_MECHANISM" "unsupported message type")
    | None => mret (error_response message "E_MECHANISM" "unsupported message type")
    end.

(** [Gateway::halt]: the first reason stays. *)
Definition halt (g : Gateway) (reason : str) : Gateway :=
  match halt_reason g with Some _ => g | None => set_halt g reason end.

(** The event that [Gateway::new] anchors the ruleset with. *)
Definition policy_load_event (hash : str) : AuditEvent :=
  {| record_kind := PolicyLoad; AuditChain.ruleset_hash := hash; ev_agent_id := []; ev_sponsor_id := [];
     ev_msg_id := []; ev_mechanism := "policy"; ev_target_uri := []; ev_target_label := [];
     ev_cred_ref := []; ev_effect := "allow"; ev_outcome := Proceeded; intent_envelope := Null |}.

Inductive NewError : Type := HttpClientFailed | AuditAppendFailed.

(** [Gateway::new]: no gateway without its ruleset in the audit chain.
    [http_ok] is whether the outbound HTTP client could be built. *)
Definition gateway_new (a : Attestor) (p : Policy) (writer : AuditWriter) (cfg : GatewayConfig)
    (http_ok : bool) (ts : result str str) (short : option nat)
  : result NewError Gateway * AuditWriter :=
  if negb http_ok then (Err HttpClientFailed, writer)
  else match append writer (policy_load_event (source_hash_hex p)) ts short with
  | (Ok _, writer') =>
      (Ok {| attestor := a; policy := p; audit := writer'; config := cfg; sessions := table_new;
             backends := ∅; privilege_allowlist := None; ruleset_hash := source_hash_hex p;
             event_hub := false; halted := false; halt_reason := None; ssh_ca := None |}, writer')
  | (Err _, writer') => (Err AuditAppendFailed, writer')
  end.

(** [Gateway::with_ssh_ca], [set_privilege_allowlist], [with_event_hub],
    [with_session_backend]: the wiring done before serving. *)
Definition with_ssh_ca (g : Gateway) (ca : CaContext) : Gateway :=
  {| attestor := attestor g; policy := policy g; audit := audit g; config := config g;
     sessions := sessions g; backends := backends g; privilege_allowlist := privilege_allowlist g;
     ruleset_hash := ruleset_hash g; event_hub := event_hub g; halted := halted g;
     halt_reason := halt_reason g; ssh_ca := Some ca |}.
Definition set_privilege_allowlist (g : Gateway) (al : list (str * list str)) : Gateway :=
  {| attestor := attestor g; policy := policy g; audit := audit g; config := config g;
     sessions := sessions g; backends := backends g; privilege_allowlist := Some al;
     ruleset_hash := ruleset_hash g; event_hub := event_hub g; halted := halted g;
     halt_reason := halt_reason g; ssh_ca := ssh_ca g |}.
Definition with_event_hub (g : Gateway) : Gateway :=
  {| attestor := attestor g; policy := policy g; audit := audit g; config := config g;
     sessions := sessions g; backends := backends g; privilege_allowlist := privilege_allowlist g;
     ruleset_hash := ruleset_hash g; event_hub := true; halted := halted g;
     halt_reason := halt_reason g; ssh_ca := ssh_ca g |}.
Definition with_session_backend (g : Gateway) (mechanism : str) : Gateway :=
  {| attestor := attestor g; policy := policy g; audit := audit g; config := config g;
     sessions := sessions g; backends := {[mechanism]} ∪ backends g;
     privilege_allowlist := privilege_allowlist g;
     ruleset_hash := ruleset_hash g; event_hub := event_hub g; halted := halted g;
     halt_reason := halt_reason g; ssh_ca := ssh_ca g |}.

(** [Gateway::emit_session_heartbeats]. *)
Fixpoint reap_all (w : World) (dead : list (str * Entry)) : M unit :=
  match dead with
  | [] => mret tt
  | (handle, entry) :: rest =>
      _ ← act (AShutdown (channel entry));
      _ ← broadcast_session_event w "session.summary" handle entry;
      reap_all w rest
  end.

Fixpoint beat_all (w : World) (threshold : Z) (live : list (str * Entry)) : M unit :=
  match live with
  | [] => mret tt
  | (handle, entry) :: rest =>
      let '(due, entry') := heartbeat_due entry threshold (mono_clock w) in
      _ ← (if (due : bool) then
             g ← get_gw;
             _ ← put_gw (set_sessions g (<[handle := entry']> (sessions g)));
             broadcast_session_event w "session.heartbeat" handle entry'
           else mret tt);
      beat_all w threshold rest
  end.

Definition emit_session_heartbeats (w : World) : M unit :=
  g ← get_gw;
  let '(dead, live) := reap_expired (sessions g) (mono_clock w) in
  _ ← put_gw (set_sessions g live);
  _ ← reap_all w dead;
  g' ← get_gw;
  if session_heartbeat_secs (config g') =? 0 then mret tt
  else beat_all w (session_heartbeat_secs (config g') * NANOS) (snapshot (sessions g')).

(** ** Reasoning about handlers *)

(** The audit records a trace wrote, the appends it attempted, and its
    credential-touching actions. *)
Definition audits (t : list action) : list AuditEvent :=
  omap (λ a, match a with AAudit ev => Some ev | _ => None end) t.

Definition attempts (t : list action) : list AuditEvent :=
  omap (λ a, match a with AAudit ev | AAuditFailed ev => Some ev | _ => None end) t.

Definition touches (a : action) : bool :=
  match a with
  | AResolve _ | AMint _ _ | AConnect _ _ _ | AHttp _ _ _ _ | ADb _ _ => true
  | _ => false
  end.

Definition untouched (t : list action) : Prop := Forall (λ a, touches a = false) t.

Lemma audits_app t u : audits (t ++ u) = audits t ++ audits u.
Proof. apply omap_app. Qed.
Lemma attempts_app t u : attempts (t ++ u) = attempts t ++ attempts u.
Proof. apply omap_app. Qed.

Lemma attempts_none t : attempts t = [] → audits t = [].
Proof. induction t as [|[] t IH]; simpl; try done; exact IH. Qed.

Lemma bind_run {A B} (m : M A) (f : A → M B) g r g' t :
  (m ≫= f) g = (r, g', t) →
  (∃ a g1 t1 t2, m g = (Some a, g1, t1) ∧ f a g1 = (r, g', t2) ∧ t = t1 ++ t2) ∨
  (r = None ∧ m g = (None, g', t)).
Proof.
  unfold mbind, M_bind. destruct (m g) as [[[a|] g1] t1].
  - destruct (f a g1) as [[b g2] t2] eqn:Hf. intros [= <- <- <-]. left. by exists a, g1, t1, t2.
  - intros [= <- <- <-]. by right.
Qed.

(** Between [g] and [g'] one append was made, of [ev]: the audit writer is the
    one [append] leaves, the journal has one more line and the trace shows the
    record if [append] succeeded, and the trace shows no record if it failed. *)
Definition recorded (w : World) (g : Gateway) (ev : AuditEvent) (g' : Gateway) (t : list action) : Prop :=
  attempts t = [ev] ∧
  match append (audit g) ev (formatted_now w) (audit_short w) with
  | (Ok _, a) => audit g' = a ∧ audits t = [ev] ∧
      ∃ line, journal (audit g') = journal (audit g) ++ line ++ [zb 10]
  | (Err _, a) => audit g' = a ∧ audits t = []
  end.

(** Nothing was appended. *)
Definition unrecorded (g g' : Gateway) (t : list action) : Prop :=
  attempts t = [] ∧ audits t = [] ∧ audit g' = audit g.

(** From [g], [m] makes exactly one append, of an event that satisfies [P],
    unless it panics, when it makes none. *)
Definition one_record_at (w : World) (P : AuditEvent → Prop) (g : Gateway) (m : M Value) : Prop :=
  ∀ r g' t, m g = (r, g', t) →
    match r with
    | Some _ => ∃ ev, P ev ∧ recorded w g ev g' t
    | None => unrecorded g g' t
    end.
Definition one_record (w : World) (P : AuditEvent → Prop) (m : M Value) : Prop :=
  ∀ g, one_record_at w P g m.

(** [m] returns and appends nothing. *)
Definition silent {A} (m : M A) : Prop :=
  ∀ g, ∃ a g' t, m g = (Some a, g', t) ∧ attempts t = [] ∧ audit g' = audit g.

Lemma silent_get : silent get_gw.
Proof. intros g. by exists g, g, []. Qed.
Lemma silent_ret {A} (a : A) : silent (mret a).
Proof. intros g. by exists a, g, []. Qed.
Lemma silent_act a : attempts [a] = [] → silent (act a).
Proof. intros Ha g. by eexists _, _, [a]. Qed.

Lemma silent_bind {A B} (m : M A) (f : A → M B) :
  silent m → (∀ a, silent (f a)) → silent (m ≫= f).
Proof.
  intros Hm Hf g. unfold mbind, M_bind. destruct (Hm g) as (a & g1 & t1 & -> & Ht1 & Ha1).
  destruct (Hf a g1) as (b & g2 & t2 & -> & Ht2 & Ha2). exists b, g2, (t1 ++ t2).
  rewrite attempts_app, Ht1, Ht2. split_and!; [done|done|congruence].
Qed.

Lemma recorded_after w ev g g1 g' t1 t2 :
  attempts t1 = [] → audit g1 = audit g → recorded w g1 ev g' t2 → recorded w g ev g' (t1 ++ t2).
Proof.
  intros Ht1 Ha [Ht2 Hr]. unfold recorded. rewrite attempts_app, audits_app, Ht1, Ht2, (attempts_none t1 Ht1).
  by rewrite <- Ha.
Qed.

Lemma one_record_after {A} w P (m : M A) (f : A → M Value) g a g1 t1 :
  m g = (Some a, g1, t1) → attempts t1 = [] → audit g1 = audit g →
  one_record_at w P g1 (f a) → one_record_at w P g (m ≫= f).
Proof.
  intros Hm Ht1 Ha Hf r g' t. unfold mbind, M_bind. rewrite Hm.
  destruct (f a g1) as [[b g2] t2] eqn:Hb. intros [= <- <- <-]. specialize (Hf _ _ _ Hb). destruct b as [b|].
  - destruct Hf as (ev & HP & Hr). exists ev. split; [done|]. by eapply recorded_after.
  - destruct Hf as (H1' & H2' & H3'). unfold unrecorded.
    rewrite attempts_app, audits_app, Ht1, (attempts_none t1 Ht1). split_and!; [done|done|congruence].
Qed.

Lemma one_record_bind {A} w P (m : M A) (f : A → M Value) :
  silent m → (∀ a, one_record w P (f a)) → one_record w P (m ≫= f).
Proof.
  intros Hm Hf g. destruct (Hm g) as (a & g1 & t1 & Hr & Ht & Ha).
  by eapply one_record_after; [exact Hr|exact Ht|exact Ha|apply Hf].
Qed.

Lemma one_record_if w P (b : bool) (m1 m2 : M Value) :
  one_record w P m1 → one_record w P m2 → one_record w P (if b then m1 else m2).
Proof. by destruct b. Qed.

Lemma silent_broadcast v : silent (broadcast_json v).
Proof.
  intros g. unfold broadcast_json, get_gw, act, mbind, M_bind, mret, M_ret.
  destruct (event_hub g); by eexists _, _, _.
Qed.

(** What one append does. *)
Lemma append_event_run w ev g :
  ∃ seq r a, append (audit g) ev (formatted_now w) (audit_short w) = (r, a) ∧
    append_event w ev g = (Some seq, set_audit g a, [append_action r ev]).
Proof.
  unfold append_event, get_gw, put_gw, act, mbind, M_bind, mret, M_ret.
  destruct (append (audit g) _ _ _) as [r a]. by eexists _, r, a.
Qed.

Lemma append_recorded w ev g r a t :
  append (audit g) ev (formatted_now w) (audit_short w) = (r, a) → attempts t = [] →
  recorded w g ev (set_audit g a) (append_action r ev :: t).
Proof.
  intros Ha Ht. unfold recorded. rewrite Ha. pose proof (attempts_none t Ht) as Ht'.
  split; [by destruct r; simpl; rewrite Ht|]. destruct r as [h|e]; simpl; rewrite Ht'; [|done].
  split_and!; [done|done|]. by eapply append_ok_line.
Qed.

(** Recording a decision: one append, and the feed when the decision is a
    denial or its rule notifies. *)
Lemma audit_decision_run w envelope eff notify outcome g :
  let ev := decision_event g envelope eff outcome in
  ∃ seq r a t, append (audit g) ev (formatted_now w) (audit_short w) = (r, a) ∧
    audit_decision w envelope eff notify outcome g = (Some seq, set_audit g a, append_action r ev :: t) ∧
    ((t = [] ∧ (event_hub g && (bool_decide (eff = effect_str Deny) || notify) = false)) ∨
     (∃ v, t = [ABroadcast v] ∧ event_hub g && (bool_decide (eff = effect_str Deny) || notify) = true)).
Proof.
  intros ev. destruct (append (audit g) ev (formatted_now w) (audit_short w)) as [r a] eqn:Ha.
  unfold audit_decision. destruct (bool_decide (eff = effect_str Deny) || notify);
    unfold append_event, broadcast_json, get_gw, put_gw, act, mbind, M_bind, mret, M_ret;
    fold ev; rewrite Ha; simpl.
  - destruct (event_hub g) eqn:Hh; simpl; eexists _, _, _, _; (split_and!; [done|done|]); [right; eauto|by left].
  - eexists _, _, _, _. split_and!; [done|done|]. left. by rewrite andb_false_r.
Qed.

(** Appends on behalf of an envelope. *)
Definition about (envelope : Envelope) (ev : AuditEvent) : Prop :=
  ev_agent_id ev = e_agent_id envelope ∧ ev_msg_id ev = e_msg_id envelope ∧
  intent_envelope ev = envelope_to_value envelope.

Lemma one_record_audit_ret w envelope eff notify outcome (f : option Z → Value) :
  one_record w (about envelope) (audit_decision w envelope eff notify outcome ≫= λ seq, mret (f seq)).
Proof.
  intros g r g' t. unfold mbind at 1, M_bind at 1.
  destruct (audit_decision_run w envelope eff notify outcome g) as (seq & res & a & t1 & Ha & -> & Ht).
  unfold mret, M_ret. intros [= <- <- <-]. rewrite app_nil_r.
  exists (decision_event g envelope eff outcome). split; [by split_and!|].
  apply append_recorded; [done|]. by destruct Ht as [[-> _]|(v & -> & _)].
Qed.

Lemma one_record_fail w message envelope d outcome code reason :
  one_record w (about envelope) (fail_with w message envelope d outcome code reason).
Proof. apply one_record_audit_ret. Qed.

#[local] Hint Resolve silent_get silent_ret silent_broadcast one_record_fail
  one_record_audit_ret : chaperone.

Lemma silent_session_secret w envelope d : silent (session_secret w envelope d).
Proof.
  apply silent_bind; [auto with chaperone|]. intros g. destruct (starts_with _ _).
  - destruct (ssh_ca g) as [ca|]; [|auto with chaperone].
    apply silent_bind; [|intros; apply silent_ret]. apply silent_bind; [auto with chaperone|]. intros g'.
    destruct (ctx_agent_identity ca _) as [[id|]|]; [|auto with chaperone..].
    apply silent_bind; [by apply silent_act|intros; apply silent_ret].
  - apply silent_bind; [by apply silent_act|intros; apply silent_ret].
Qed.

Lemma one_record_issue w message agent_id envelope d chan :
  one_record w (about envelope) (issue_session w message agent_id envelope d chan).
Proof.
  intros g. eapply one_record_after; [reflexivity|done|done|]. cbv beta zeta.
  destruct (instant_add _ _); [|by intros r g' t [= <- <- <-]].
  destruct (session_insert _ _ _ _ _ _ _ _ _) as [[h e] table].
  eapply one_record_after; [reflexivity|done|done|]. apply one_record_audit_ret.
Qed.

Lemma one_record_open w message agent_id envelope d :
  one_record w (about envelope) (open_session w message agent_id envelope d).
Proof.
  apply one_record_bind; [auto with chaperone|]. intros g.
  apply one_record_if; [|auto with chaperone].
  apply one_record_bind; [apply silent_session_secret|]. intros [secret|[[o c] r]]; [|auto with chaperone].
  apply one_record_bind; [by apply silent_act|]. intros [].
  destruct (connect _ _ _ _ _); [apply one_record_issue|auto with chaperone].
Qed.

Lemma silent_human_gate w eff ctx : silent (human_gate w eff ctx).
Proof.
  unfold human_gate. destruct (bool_decide _); [|auto with chaperone].
  apply silent_bind; [by apply silent_act|intros; apply silent_ret].
Qed.

Lemma one_record_db w message agent_id envelope d : one_record w (about envelope) (run_db w message agent_id envelope d).
Proof.
  unfold run_db. destruct (db_operation_of_value _) as [op|]; [|auto with chaperone].
  destruct (db_statement op); [|apply one_record_open].
  apply one_record_bind; [by apply silent_act|]. intros [].
  destruct (resolve _ _); [|auto with chaperone].
  apply one_record_bind; [by apply silent_act|]. intros [].
  destruct (db_execute _ _ _ _); [|auto with chaperone]. apply one_record_audit_ret.
Qed.

Lemma one_record_http w message envelope d : one_record w (about envelope) (run_http w message envelope d).
Proof.
  unfold run_http. destruct (http_operation_of_value _) as [op|]; [|auto with chaperone].
  apply one_record_if; [auto with chaperone|].
  apply one_record_bind; [by apply silent_act|]. intros [].
  destruct (resolve _ _); [|auto with chaperone].
  apply one_record_bind; [auto with chaperone|]. intros g. cbv zeta.
  apply one_record_bind; [by apply silent_act|]. intros [].
  destruct (http_execute _ _ _ _ _ _); [|auto with chaperone]. apply one_record_audit_ret.
Qed.

Lemma one_record_broker w message agent_id envelope d :
  one_record w (about envelope) (broker w message agent_id envelope d).
Proof.
  unfold broker. apply one_record_if.
  - apply one_record_bind; [apply silent_human_gate|]. intros ok.
    repeat apply one_record_if; [apply one_record_db|apply one_record_http|auto with chaperone].
  - apply one_record_bind; [auto with chaperone|]. intros g.
    repeat apply one_record_if; [|auto with chaperone..].
    destruct (session_gate g envelope d) as [eff summary].
    apply one_record_bind; [apply silent_human_gate|]. intros ok.
    apply one_record_if; [apply one_record_open|auto with chaperone].
Qed.

Lemma verify_message_run w message g :
  verify_message w message g =
    let '(r, a) := verify (attestor g) message (wall_clock w) (replay_io w) in
    (Some r, set_attestor g a, []).
Proof.
  unfold verify_message, get_gw, put_gw, mbind, M_bind, mret, M_ret.
  by destruct (verify (attestor g) message (wall_clock w) (replay_io w)).
Qed.

(** What [handle_intent] comes to, given the verdict of the front door. *)
Lemma handle_intent_run w message g :
  handle_intent w message g =
    let '(r, a) := verify (attestor g) message (wall_clock w) (replay_io w) in
    let g1 := set_attestor g a in
    match r with
    | Err e =>
        (audit_identity_failure w message (identity_error_code e) ≫= λ _,
         mret (error_response message (code_str (identity_error_code e)) (identity_reason e))) g1
    | Ok v =>
        match envelope_of_value (v_envelope v) with
        | None => (Some (error_response message "E_MECHANISM"
                     ("signed intent failed schema validation: " ++ schema_error w (v_envelope v))), g1, [])
        | Some envelope =>
            let d := evaluate (policy g) (policy_request (v_agent_id v) envelope) in
            (if bool_decide (effect d = Deny)
             then fail_with w message envelope d OutcomeDenied "E_DENIED" (deny_reason d)
             else broker w message (v_agent_id v) envelope d) g1
        end
    end.
Proof.
  unfold handle_intent. unfold mbind at 1, M_bind at 1. rewrite verify_message_run.
  destruct (verify (attestor g) message (wall_clock w) (replay_io w)) as [[v|e] a].
  - destruct (envelope_of_value (v_envelope v)) as [envelope|]; [|done].
    unfold get_gw, mbind, M_bind. simpl.
    destruct (bool_decide _); [destruct (fail_with _ _ _ _ _ _ _ _) as [[]]|
                               destruct (broker _ _ _ _ _ _) as [[]]]; done.
  - destruct ((audit_identity_failure _ _ _ ≫= _) _) as [[]]; done.
Qed.

Lemma handle_message_intent w message g :
  halted g = false → get_str message "type" = Some "intent" →
  handle_message w message g = handle_intent w message g.
Proof.
  intros Hh Ht. unfold handle_message, get_gw, mbind, M_bind. rewrite Hh, Ht. simpl.
  by destruct (handle_intent w message g) as [[]].
Qed.


(** ** Credentials are touched only after a grant *)

(** [m] never touches a credential. *)
Definition calm {A} (m : M A) : Prop := ∀ g r g' t, m g = (r, g', t) → untouched t.

Lemma calm_ret {A} (a : A) : calm (mret a).
Proof. intros g r g' t [= <- <- <-]. constructor. Qed.

Lemma calm_bind {A B} (m : M A) (f : A → M B) : calm m → (∀ a, calm (f a)) → calm (m ≫= f).
Proof.
  intros Hm Hf g r g' t [(a & g1 & t1 & t2 & H1' & H2' & ->)|[_ Hn]]%bind_run.
  - apply Forall_app. split; [by eapply Hm|by eapply Hf].
  - by eapply Hm.
Qed.

Lemma calm_fail w message envelope d outcome code reason :
  calm (fail_with w message envelope d outcome code reason).
Proof.
  apply calm_bind; [|intros; apply calm_ret]. intros g r g' t.
  destruct (audit_decision_run w envelope (effect_str (effect d)) (d_notify_on_use d) outcome g)
    as (seq & res & a & t1 & _ & -> & Ht). intros [= <- <- <-]. constructor; [by destruct res|].
  destruct Ht as [[-> _]|(v & -> & _)]; repeat constructor.
Qed.

Lemma gated_trace w eff ctx (k kfail : M Value) g r g' t :
  calm kfail → (ok ← human_gate w eff ctx; if (ok : bool) then k else kfail) g = (r, g', t) →
  ¬ untouched t → eff = NeedsConfirmation →
  confirm w ctx = Approved ∧ ∃ t', t = AConfirm ctx :: t'.
Proof.
  intros Hc Hr Ht ->. revert Hr. unfold human_gate. rewrite bool_decide_eq_true_2 by done.
  unfold act, mbind, M_bind, mret, M_ret.
  destruct (confirm w ctx) eqn:Hcf.
  - destruct (k g) as [[b g2] t2]. intros [= <- <- <-]. split; [done|]. by eexists.
  - destruct (kfail g) as [[b g2] t2] eqn:Hk. intros [= <- <- <-]. exfalso. apply Ht.
    constructor; [done|]. by eapply Hc.
  - destruct (kfail g) as [[b g2] t2] eqn:Hk. intros [= <- <- <-]. exfalso. apply Ht.
    constructor; [done|]. by eapply Hc.
Qed.

(** The effect that decides whether the human is asked. *)
Definition gate_effect (g : Gateway) (envelope : Envelope) (d : Decision) : Effect :=
  if bool_decide (e_mechanism envelope ∈ ONE_SHOT) then effect d else (session_gate g envelope d).1.

Lemma broker_gated w message agent_id envelope d g r g' t :
  broker w message agent_id envelope d g = (r, g', t) → ¬ untouched t →
  gate_effect g envelope d = NeedsConfirmation →
  ∃ ctx t', t = AConfirm ctx :: t' ∧ confirm w ctx = Approved ∧ cc_agent_id ctx = agent_id ∧
            cc_mechanism ctx = e_mechanism envelope ∧ cc_target_uri ctx = uri (e_target envelope).
Proof.
  unfold broker, gate_effect. destruct (bool_decide (e_mechanism envelope ∈ ONE_SHOT)); intros Hr Ht Hg.
  - eapply gated_trace in Hr as [Hc [t' ->]]; [|apply calm_fail|done|done]. by eexists _, t'.
  - revert Hr. unfold route_session, get_gw. unfold mbind at 1, M_bind at 1.
    destruct (bool_decide (e_mechanism envelope ∈ ["ssh"; "local-privilege"])).
    2:{ destruct (fail_with _ _ _ _ _ _ _ g) as [[b g2] t2] eqn:Hf. intros [= <- <- <-].
        apply calm_fail in Hf. done. }
    destruct (bool_decide (e_mechanism envelope ∈ backends g)).
    2:{ destruct (fail_with _ _ _ _ _ _ _ g) as [[b g2] t2] eqn:Hf. intros [= <- <- <-].
        apply calm_fail in Hf. done. }
    destruct (session_gate g envelope d) as [eff summary]. simpl in Hg. subst eff.
    destruct ((ok ← human_gate _ _ _; _) g) as [[b g2] t2] eqn:Hk. intros [= <- <- <-].
    eapply gated_trace in Hk as [Hc [t' ->]]; [|apply calm_fail|done|done]. by eexists _, t'.
Qed.

Lemma calm_get : calm get_gw.
Proof. intros g r g' t [= <- <- <-]. constructor. Qed.
Lemma calm_put g0 : calm (put_gw g0).
Proof. intros g r g' t [= <- <- <-]. constructor. Qed.
Lemma calm_act a : touches a = false → calm (act a).
Proof. intros Ha g r g' t [= <- <- <-]. by repeat constructor. Qed.
Lemma calm_broadcast v : calm (broadcast_json v).
Proof.
  apply calm_bind; [apply calm_get|]. intros g. destruct (event_hub g); [by apply calm_act|apply calm_ret].
Qed.
Lemma calm_append w ev : calm (append_event w ev).
Proof.
  intros g r g' t. destruct (append_event_run w ev g) as (seq & res & a & _ & ->). intros [= <- <- <-].
  constructor; [by destruct res|constructor].
Qed.
Lemma calm_session_event w kind handle entry : calm (broadcast_session_event w kind handle entry).
Proof. apply calm_bind; [apply calm_get|]. intros g. apply calm_broadcast. Qed.

#[local] Hint Resolve calm_ret calm_get calm_put calm_broadcast calm_append calm_session_event : chaperone.
#[local] Hint Extern 1 (calm (act _)) => (by apply calm_act) : chaperone.

Ltac calm_steps :=
  repeat first [ progress (auto with chaperone)
               | apply calm_bind; [by auto with chaperone|intros ?; cbv beta zeta]
               | progress case_match ].

Lemma calm_end w message agent_id handle outputs exit :
  calm (end_session w message agent_id handle outputs exit).
Proof.
  apply calm_bind; [auto with chaperone|]. intros g1. apply calm_bind; [|intros []; calm_steps].
  destruct (session_take _ _ _) as [[e'|] tb]; calm_steps.
Qed.
#[local] Hint Resolve calm_end : chaperone.

Lemma calm_relay w message agent_id handle : calm (relay_command w message agent_id handle).
Proof.
  unfold relay_command. apply calm_bind; [auto with chaperone|]. intros g.
  destruct (access _ _ _ _) as [[entry rem]|[code reason]]; [|auto with chaperone].
  apply calm_bind; [auto with chaperone|]. intros []. destruct (channel_write _ _ _); [|auto with chaperone].
  apply calm_bind; [auto with chaperone|]. intros []. cbv zeta.
  destruct (number_outputs _ _) as [outputs entry'].
  apply calm_bind; [auto with chaperone|]. intros []. destruct (closed _); auto with chaperone.
Qed.

Lemma calm_close w message agent_id handle : calm (close_session w message agent_id handle).
Proof.
  unfold close_session. apply calm_bind; [auto with chaperone|]. intros g.
  destruct (session_take _ _ _) as [[entry|] table]; calm_steps.
Qed.

Lemma calm_frame w message kind : calm (handle_session_frame w message kind).
Proof.
  apply calm_bind.
  { intros g r g' t. rewrite verify_message_run. destruct (verify _ _ _ _) as [v a].
    intros [= <- <- <-]. constructor. }
  intros [v|e]; [|auto with chaperone]. destruct (get_str message "session_handle") as [h|]; [|auto with chaperone].
  destruct kind; [apply calm_relay|apply calm_close].
Qed.

Lemma granted_trace w message g r g' t :
  handle_message w message g = (r, g', t) → ¬ untouched t →
  halted g = false ∧ get_str message "type" = Some "intent" ∧
  ∃ v a envelope, verify (attestor g) message (wall_clock w) (replay_io w) = (Ok v, a) ∧
    envelope_of_value (v_envelope v) = Some envelope ∧
    let d := evaluate (policy g) (policy_request (v_agent_id v) envelope) in
    effect d ≠ Deny ∧
    (gate_effect g envelope d = NeedsConfirmation →
     ∃ ctx t', t = AConfirm ctx :: t' ∧ confirm w ctx = Approved ∧ cc_agent_id ctx = v_agent_id v ∧
       cc_mechanism ctx = e_mechanism envelope ∧ cc_target_uri ctx = uri (e_target envelope)).
Proof.
  intros Hm Ht. destruct (halted g) eqn:Hh.
  { exfalso. revert Hm. unfold handle_message, get_gw, mbind, M_bind. rewrite Hh. intros [= <- <- <-].
    apply Ht. constructor. }
  assert (∀ m, calm m → (∃ g1, m g1 = (r, g', t)) → False) as Hcalm
    by (intros m Hc (g1 & Hr); apply Ht; by eapply Hc).
  split; [done|]. destruct (decide (get_str message "type" = Some "intent")) as [Hty|Hty].
  2:{ exfalso. revert Hm. unfold handle_message, get_gw. unfold mbind at 1, M_bind at 1. rewrite Hh.
      destruct (get_str message "type") as [ty|].
      2:{ intros [= <- <- <-]. apply Ht. constructor. }
      rewrite decide_False by congruence. repeat case_decide.
      - destruct (handle_session_frame _ _ _ g) as [[b g2] t2] eqn:Hf. intros [= <- <- <-].
        eapply (Hcalm _ (calm_frame w message Command)). eauto.
      - destruct (handle_session_frame _ _ _ g) as [[b g2] t2] eqn:Hf. intros [= <- <- <-].
        eapply (Hcalm _ (calm_frame w message Close)). eauto.
      - intros [= <- <- <-]. apply Ht. constructor. }
  split; [done|]. revert Hm. rewrite handle_message_intent, handle_intent_run by done.
  destruct (verify (attestor g) message (wall_clock w) (replay_io w)) as [[v|e] a]; simpl; intros Hm.
  - destruct (envelope_of_value (v_envelope v)) as [envelope|] eqn:He; simplify_eq/=.
    2:{ exfalso. apply Ht. constructor. }
    exists v, a, envelope. split_and!; [done|done|..].
    + intros Hd. rewrite bool_decide_eq_true_2 in Hm by done.
      eapply (Hcalm _ (calm_fail _ _ _ _ _ _ _)). eauto.
    + intros Hg. destruct (bool_decide _); [exfalso; eapply (Hcalm _ (calm_fail _ _ _ _ _ _ _)); eauto|].
      eapply broker_gated in Hm; [|done|done]. done.
  - exfalso. revert Hm. unfold audit_identity_failure, get_gw, mbind, M_bind, mret, M_ret.
    destruct (append_event_run w (identity_failure_event (set_attestor g a) message (identity_error_code e))
      (set_attestor g a)) as (seq & res & a' & _ & ->). intros [= <- <- <-]. apply Ht.
    constructor; [by destruct res|constructor].
Qed.

(** C1: Fetch-late.  No secret is resolved, no certificate minted, no backend
    connected and no HTTP request or database statement made (traffic on the
    channel of a session already open is the subject of
    [GatewayProps.frames_reach_only_own_channel] and [SessionTasks]), unless the gateway is not halted, the message is an
    intent that the front door verified and that parses, policy does not deny
    it, and, whenever the gate applies, a human approved it first: the very
    first action was the prompt for this agent, mechanism and target. *)
Theorem credentials_only_after_grant w message g r g' t :
  handle_message w message g = (r, g', t) → ¬ untouched t →
  halted g = false ∧ get_str message "type" = Some "intent" ∧
  ∃ v a envelope, verify (attestor g) message (wall_clock w) (replay_io w) = (Ok v, a) ∧
    envelope_of_value (v_envelope v) = Some envelope ∧
    let d := evaluate (policy g) (policy_request (v_agent_id v) envelope) in
    effect d ≠ Deny ∧
    (gate_effect g envelope d = NeedsConfirmation →
     ∃ ctx t', t = AConfirm ctx :: t' ∧ confirm w ctx = Approved ∧ cc_agent_id ctx = v_agent_id v ∧
       cc_mechanism ctx = e_mechanism envelope ∧ cc_target_uri ctx = uri (e_target envelope)).
Proof. apply granted_trace. Qed.

(** C19: Privileged commands take the human gate.  For a verified
    [local-privilege] intent whose command the operator has not pinned, no
    credential is touched and no backend contacted, even when policy allows
    the request outright, unless the human approved the prompt that comes
    before everything else. *)
Theorem local_privilege_needs_human w message g r g' t v a envelope :
  handle_message w message g = (r, g', t) →
  verify (attestor g) message (wall_clock w) (replay_io w) = (Ok v, a) →
  envelope_of_value (v_envelope v) = Some envelope →
  e_mechanism envelope = "local-privilege" → privilege_pinned g (e_operation envelope) = false →
  ¬ untouched t →
  ∃ ctx t', t = AConfirm ctx :: t' ∧ confirm w ctx = Approved ∧ cc_agent_id ctx = v_agent_id v.
Proof.
  intros Hm Hv He Hmech Hpin Ht. destruct (granted_trace _ _ _ _ _ _ Hm Ht) as (_ & _ & v' & a' & env & Hv' & He' & Hd & Hg).
  rewrite Hv in Hv'. injection Hv' as <- <-. rewrite He in He'. injection He' as <-.
  destruct Hg as (ctx & t' & -> & Hc & Hid & _); [|by exists ctx, t'].
  unfold gate_effect, session_gate. rewrite Hmech, Hpin. simpl.
  set (e := effect _) in *. by destruct e.
Qed.

(** The exact effect of a denial.  A verified intent that policy denies
    is answered [E_DENIED]; the only actions are one append to the journal,
    of a record with the outcome denied, and, when a feed is attached, one broadcast, whatever the
    rule's notification flag; sessions are untouched. *)
Theorem denied_intent_effects w message g v a envelope :
  halted g = false → get_str message "type" = Some "intent" →
  verify (attestor g) message (wall_clock w) (replay_io w) = (Ok v, a) →
  envelope_of_value (v_envelope v) = Some envelope →
  let d := evaluate (policy g) (policy_request (v_agent_id v) envelope) in
  effect d = Deny →
  let ev := decision_event (set_attestor g a) envelope "deny" OutcomeDenied in
  ∃ g' t, handle_message w message g =
      (Some (error_response message "E_DENIED" (deny_reason d)), g',
       append_action (append (audit g) ev (formatted_now w) (audit_short w)).1 ev :: t) ∧
    sessions g' = sessions g ∧
    (if event_hub g then ∃ b, t = [ABroadcast b] else t = []).
Proof.
  intros Hh Hty Hv He d Hd ev. rewrite handle_message_intent, handle_intent_run, Hv, He by done.
  cbv zeta beta. fold d. rewrite bool_decide_eq_true_2 by done. unfold fail_with. rewrite Hd.
  destruct (audit_decision_run w envelope (effect_str Deny) (d_notify_on_use d) OutcomeDenied (set_attestor g a))
    as (seq & res & a' & t & Ha & Hr & Ht).
  unfold mbind, M_bind, mret, M_ret. rewrite Hr. rewrite app_nil_r.
  simpl in Ha. fold ev in Ha. rewrite Ha.
  eexists _, t. split_and!; [done|done|]. simpl in Ht. rewrite andb_true_r in Ht.
  destruct Ht as [[-> ->]|(b & -> & ->)]; eauto.
Qed.
End Gateway.
