(* ===== verification/GatewayProps.v ===== *)
(** Properties of the gateway's handlers: [crates/gateway-core/src/lib.rs].

    What a halted gateway does, what a denied intent does, which channel a
    session frame can reach, how long sessions live, what the recorded
    evidence keeps, and that nothing the gateway emits depends on a secret
    except through the answer of the mechanism it was spent on. *)

From S2P Require Import Prelude Strs Json Extern Toy Protocol Matcher Policy Enrollment Replay Identity.
From S2P Require Import AuditChain Session SshCa Gateway.
#[local] Open Scope Z_scope.

Section Props.
Context `{Base64, Ed25519, SerdeText StoreFile, SerdeLine JournalLine, JsonText, Sha256, TimeApi,
          DebugFmt, SshKeys}.

(** A halt is final.  After [halt], whatever further reasons are given,
    the first one stays, and every message of every type is answered with
    [E_GATEWAY_HALTED] and that reason, without any action on the outside
    world and without any change of state. *)
Theorem halt_is_final g reason reasons w message :
  halt_reason g = None →
  let g1 := fold_left halt reasons (halt g reason) in
  halt_reason g1 = Some reason ∧
  handle_message w message g1 = (Some (error_response message "E_GATEWAY_HALTED" reason), g1, []).
Proof.
  intros Hn g1. assert (halted g1 = true ∧ halt_reason g1 = Some reason) as [Hh Hr].
  { subst g1. assert (halted (halt g reason) = true ∧ halt_reason (halt g reason) = Some reason) as Hb
      by (unfold halt; by rewrite Hn).
    revert Hb. generalize (halt g reason). induction reasons as [|r rs IH]; intros g0 Hb; [done|].
    simpl. apply IH. unfold halt. by rewrite (proj2 Hb). }
  split; [done|]. unfold handle_message, get_gw, mbind, M_bind. rewrite Hh, Hr. done.
Qed.

(** ** Session frames *)

Definition channel_of (x : action) : option nat :=
  match x with AWrite c _ | ARead c | AShutdown c => Some c | _ => None end.

Definition channels (t : list action) : list nat := omap channel_of t.

Lemma channels_app t u : channels (t ++ u) = channels t ++ channels u.
Proof. apply omap_app. Qed.

Lemma channels_shutdown c t : channels (AShutdown c :: t) = c :: channels t.
Proof. done. Qed.

Lemma broadcast_session_run w kind handle entry g :
  ∃ t, broadcast_session_event w kind handle entry g = (Some tt, g, t) ∧ channels t = [].
Proof.
  unfold broadcast_session_event, broadcast_json, get_gw, act, mbind, M_bind, mret, M_ret.
  destruct (event_hub g); by eexists.
Qed.

Lemma number_outputs_same e cs :
  let e' := (number_outputs e cs).2 in
  s_agent_id e' = s_agent_id e ∧ channel e' = channel e ∧ expires_at e' = expires_at e.
Proof.
  revert e. induction cs as [|c cs IH]; intros e; [done|]. simpl.
  specialize (IH (set_out_seq e (u64_wrapping_add (out_seq e) 1))).
  by destruct (number_outputs _ cs).
Qed.

Lemma end_session_channels w message agent_id handle outputs exit g r g' t e :
  sessions g !! handle = Some e →
  end_session w message agent_id handle outputs exit g = (r, g', t) →
  Forall (λ c, c = channel e) (channels t).
Proof.
  intros He. unfold end_session, get_gw, put_gw, act. unfold mbind, M_bind, mret, M_ret.
  unfold session_take. rewrite He. case_decide as Ha.
  - destruct (broadcast_session_run w "session.summary" handle e (set_sessions g (delete handle (sessions g))))
      as (tb & -> & Hb).
    destruct (append_event_run w (session_event (set_sessions g (delete handle (sessions g))) message agent_id
      "session.command" "exited" exit) (set_sessions g (delete handle (sessions g)))) as (seq & res & a2 & _ & ->).
    intros [= <- <- <-]. cbn [app]. rewrite <- ?app_assoc.
    rewrite ?channels_shutdown, ?channels_app, Hb. destruct res; by repeat constructor.
  - destruct (append_event_run w (session_event g message agent_id "session.command" "exited" exit) g)
      as (seq & res & a2 & _ & ->). intros [= <- <- <-]. destruct res; constructor.
Qed.

Lemma relay_channels w message agent_id handle g r g' t c :
  relay_command w message agent_id handle g = (r, g', t) → c ∈ channels t →
  ∃ e, sessions g !! handle = Some e ∧ s_agent_id e = agent_id ∧ channel e = c ∧
       mono_clock w < expires_at e.
Proof.
  unfold relay_command, get_gw. unfold mbind at 1, M_bind at 1. unfold access.
  destruct (sessions g !! handle) as [e|] eqn:He; [|by intros [= <- <- <-] Hc%elem_of_nil].
  case_decide as Ha; [|by intros [= <- <- <-] Hc%elem_of_nil].
  unfold saturating_duration_since. destruct (Z.eqb_spec (Z.max 0 (expires_at e - mono_clock w)) 0) as [Hz|Hz].
  { by intros [= <- <- <-] Hc%elem_of_nil. }
  assert (mono_clock w < expires_at e) by lia.
  intros Hr Hc. exists e. split_and!; [done|done| |done]. symmetry.
  assert (Forall (λ c, c = channel e) (channels t)) as Hf; [|by rewrite Forall_forall in Hf; apply Hf].
  revert Hr. unfold act. unfold mbind at 1, M_bind at 1.
  destruct (channel_write w (channel e) _); [|intros [= <- <- <-]; by repeat constructor].
  unfold mbind at 1, M_bind at 1.
  pose proof (number_outputs_same (record_relay e (zlen match get_str message "input_b64" with
    | Some b => base64_std_decode b | None => [] end)
    (foldr (λ c n, zlen (data c) + n) 0 (chunks (channel_read w (channel e)))))
    (chunks (channel_read w (channel e)))) as (_ & Hch & _).
  destruct (number_outputs _ _) as [outputs e']. simpl in Hch. unfold put_gw. unfold mbind at 1, M_bind at 1.
  destruct (closed (channel_read w (channel e))).
  - set (g1 := set_sessions g _). destruct (end_session w message agent_id handle outputs _ g1)
      as [[b g2] t2] eqn:Hend. intros [= <- <- <-].
    eapply (end_session_channels _ _ _ _ _ _ _ _ _ _ e') in Hend; [|apply lookup_insert_eq].
    simpl. repeat constructor. rewrite Hch in Hend. exact Hend.
  - intros [= <- <- <-]. simpl. by repeat constructor.
Qed.

Lemma close_channels w message agent_id handle g r g' t c :
  close_session w message agent_id handle g = (r, g', t) → c ∈ channels t →
  ∃ e, sessions g !! handle = Some e ∧ s_agent_id e = agent_id ∧ channel e = c.
Proof.
  unfold close_session, get_gw, put_gw, act. unfold mbind, M_bind, mret, M_ret. unfold session_take.
  destruct (sessions g !! handle) as [e|] eqn:He; [|by intros [= <- <- <-] Hc%elem_of_nil].
  case_decide as Ha; [|by intros [= <- <- <-] Hc%elem_of_nil].
  set (g1 := set_sessions g _).
  destruct (broadcast_session_run w "session.summary" handle e g1) as (tb & -> & Hb).
  destruct (append_event_run w (session_event g1 message agent_id "session.close" "client_close" None) g1)
    as (seq & res & a2 & _ & ->).
  intros [= <- <- <-] Hc. exists e. split_and!; [done|done|].
  change (c ∈ channel e :: channels (tb ++ [append_action res (session_event g1 message agent_id
    "session.close" "client_close" None)])) in Hc.
  rewrite channels_app, Hb in Hc. by destruct res; apply list_elem_of_singleton in Hc.
Qed.

(** A session frame reaches only its owner's channel.  Whatever a command
    or close frame writes to, reads from or shuts down is the channel of the
    session named by the frame, and that session was opened by the very agent
    that signed the frame; a command frame also comes before the session's
    expiry. *)
Theorem frames_reach_only_own_channel w message kind g r g' t c :
  handle_session_frame w message kind g = (r, g', t) → c ∈ channels t →
  ∃ v a handle e, verify (attestor g) message (wall_clock w) (replay_io w) = (Ok v, a) ∧
    get_str message "session_handle" = Some handle ∧ sessions g !! handle = Some e ∧
    channel e = c ∧ s_agent_id e = v_agent_id v ∧
    (kind = Command → mono_clock w < expires_at e).
Proof.
  unfold handle_session_frame. unfold mbind, M_bind. rewrite verify_message_run.
  destruct (verify (attestor g) message (wall_clock w) (replay_io w)) as [[v|er] a];
    [|by intros [= <- <- <-] Hc%elem_of_nil].
  destruct (get_str message "session_handle") as [handle|]; [|by intros [= <- <- <-] Hc%elem_of_nil].
  destruct kind.
  - destruct (relay_command _ _ _ _ _) as [[b g2] t2] eqn:Hr. intros [= <- <- <-] Hc. simpl in Hc.
    destruct (relay_channels _ _ _ _ _ _ _ _ _ Hr Hc) as (e & He & Ha & Hch & Hx).
    exists v, a, handle, e. by split_and!.
  - destruct (close_session _ _ _ _ _) as [[b g2] t2] eqn:Hr. intros [= <- <- <-] Hc. simpl in Hc.
    destruct (close_channels _ _ _ _ _ _ _ _ _ Hr Hc) as (e & He & Ha & Hch).
    exists v, a, handle, e. by split_and!.
Qed.

(** ** Where sessions come from *)

(** What a new session looks like. *)
Definition session_of (w : World) (agent_id : str) (envelope : Envelope) (g : Gateway) (e : Entry) : Prop :=
  s_agent_id e = agent_id ∧ s_mechanism e = e_mechanism envelope ∧
  s_target_uri e = uri (e_target envelope) ∧ e_mechanism envelope ∈ backends g ∧
  opened_at e = mono_clock w ∧
  ∃ secret, connect w (e_mechanism envelope) (uri (e_target envelope)) (e_operation envelope) secret
            = Ok (channel e).

(** The sessions [m] adds all satisfy [P]; [m] leaves the gateway as it is. *)
Definition adds {A} (P : Gateway → Entry → Prop) (m : M A) : Prop :=
  ∀ g r g' t h e, m g = (r, g', t) → sessions g' !! h = Some e → sessions g !! h = None → P g e.
Definition steady {A} (m : M A) : Prop := ∀ g r g' t, m g = (r, g', t) → g' = g.

Lemma adds_same {A} P (m : M A) :
  (∀ g r g' t, m g = (r, g', t) → sessions g' = sessions g) → adds P m.
Proof. intros Hm g r g' t h e Hr Hs Hn. rewrite (Hm _ _ _ _ Hr) in Hs. congruence. Qed.

Lemma adds_bind {A B} P (m : M A) (f : A → M B) : steady m → (∀ a, adds P (f a)) → adds P (m ≫= f).
Proof.
  intros Hm Hf g r g' t h e [(a & g1 & t1 & t2 & Ha & Hb & ->)|[_ Hn]]%bind_run.
  - apply Hm in Ha as ->. by eapply Hf.
  - apply Hm in Hn as ->. congruence.
Qed.

Lemma adds_get {B} P (f : Gateway → M B) :
  (∀ g r g' t h e, f g g = (r, g', t) → sessions g' !! h = Some e → sessions g !! h = None → P g e) →
  adds P (get_gw ≫= f).
Proof.
  intros Hf g r g' t h e. unfold get_gw, mbind, M_bind.
  destruct (f g g) as [[b g2] t2] eqn:Hb. intros [= <- <- <-]. by eapply Hf.
Qed.

Lemma adds_fail P w message envelope d outcome code reason :
  adds P (fail_with w message envelope d outcome code reason).
Proof.
  apply adds_same. intros g r g' t. unfold fail_with, mbind, M_bind, mret, M_ret.
  destruct (audit_decision_run w envelope (effect_str (effect d)) (d_notify_on_use d) outcome g)
    as (seq & res & a1 & t1 & _ & -> & _). by intros [= <- <- <-].
Qed.

Lemma adds_decision_ret P w envelope eff notify outcome (f : option Z → Value) :
  adds P (audit_decision w envelope eff notify outcome ≫= λ seq, mret (f seq)).
Proof.
  apply adds_same. intros g r g' t. unfold mbind at 1, M_bind at 1, mret, M_ret.
  destruct (audit_decision_run w envelope eff notify outcome g) as (seq & res & a1 & t1 & _ & -> & _).
  by intros [= <- <- <-].
Qed.

Lemma steady_act x : steady (act x).
Proof. by intros g r g' t [= <- <- <-]. Qed.

Lemma steady_gate w eff ctx : steady (human_gate w eff ctx).
Proof. intros g r g' t. unfold human_gate. by destruct (bool_decide _); intros [= <- <- <-]. Qed.

Lemma steady_secret w envelope d : steady (session_secret w envelope d).
Proof.
  intros g r g' t. unfold session_secret, mint_secret, get_gw, act, mbind, M_bind, mret, M_ret.
  destruct (starts_with _ _); [|by intros [= <- <- <-]].
  destruct (ssh_ca g) as [ca|]; [|by intros [= <- <- <-]].
  destruct (ctx_agent_identity ca _) as [[id|]|]; by intros [= <- <- <-].
Qed.

#[local] Hint Resolve adds_fail adds_decision_ret steady_act steady_gate steady_secret : chaperone.

Lemma adds_issue w message agent_id envelope d chan secret g r g' t h e :
  connect w (e_mechanism envelope) (uri (e_target envelope)) (e_operation envelope) secret = Ok chan →
  e_mechanism envelope ∈ backends g →
  issue_session w message agent_id envelope d chan g = (r, g', t) →
  sessions g' !! h = Some e → sessions g !! h = None → session_of w agent_id envelope g e.
Proof.
  intros Hc Hb. unfold issue_session, get_gw, put_gw, panic. unfold mbind at 1, M_bind at 1.
  destruct (instant_add _ _); [|intros [= <- <- <-]; congruence].
  unfold session_insert. unfold mbind at 1, M_bind at 1. set (g1 := set_sessions g _).
  unfold mbind, M_bind, mret, M_ret.
  match goal with |- context [audit_decision w envelope ?x ?y ?z g1] =>
    destruct (audit_decision_run w envelope x y z g1) as (seq & res & a2 & t2 & _ & -> & _) end.
  intros [= <- <- <-]. subst g1. simpl. intros Hl Hn.
  apply lookup_insert_Some in Hl as [[_ <-]|[_ Hl]]; [|congruence].
  unfold session_of. simpl. split_and!; try done. by exists secret.
Qed.

Lemma adds_open w message agent_id envelope d :
  adds (session_of w agent_id envelope) (open_session w message agent_id envelope d).
Proof.
  apply adds_get. intros g r g' t h e. case_bool_decide as Hb; [|apply adds_fail].
  intros [(s & g1 & t1 & t2 & Ha%steady_secret & Hr & ->)|[_ Hn%steady_secret]]%bind_run; [|congruence].
  subst g1. destruct s as [secret|[[o c] x]]; [|by eapply adds_fail].
  revert Hr. unfold act. unfold mbind at 1, M_bind at 1. destruct (connect _ _ _ _ _) as [chan|er] eqn:Hc.
  - destruct (issue_session _ _ _ _ _ _ _) as [[b g2] t3] eqn:Hi. intros [= <- <- <-].
    by eapply adds_issue.
  - destruct (fail_with _ _ _ _ _ _ _ g) as [[b g2] t3] eqn:Hf. intros [= <- <- <-].
    by eapply adds_fail in Hf.
Qed.
#[local] Hint Resolve adds_open : chaperone.

Lemma adds_db w message agent_id envelope d :
  adds (session_of w agent_id envelope) (run_db w message agent_id envelope d).
Proof.
  unfold run_db. destruct (db_operation_of_value _) as [op|]; [|auto with chaperone].
  destruct (db_statement op); [|auto with chaperone].
  apply adds_bind; [auto with chaperone|]. intros []. destruct (resolve _ _); [|auto with chaperone].
  apply adds_bind; [auto with chaperone|]. intros []. destruct (db_execute _ _ _ _); auto with chaperone.
Qed.

Lemma adds_http P w message envelope d : adds P (run_http w message envelope d).
Proof.
  unfold run_http. destruct (http_operation_of_value _) as [op|]; [|auto with chaperone].
  destruct (has_agent_authorization op); [auto with chaperone|].
  apply adds_bind; [auto with chaperone|]. intros []. destruct (resolve _ _); [|auto with chaperone].
  apply adds_bind; [by intros g r g' t [= <- <- <-]|]. intros g. cbv zeta.
  apply adds_bind; [auto with chaperone|]. intros [].
  destruct (http_execute _ _ _ _ _ _); auto with chaperone.
Qed.

Lemma adds_broker w message agent_id envelope d :
  adds (session_of w agent_id envelope) (broker w message agent_id envelope d).
Proof.
  unfold broker. destruct (bool_decide _).
  - apply adds_bind; [auto with chaperone|]. intros []; [|auto with chaperone].
    destruct (bool_decide _); [apply adds_db|apply adds_http].
  - unfold route_session. apply adds_bind; [by intros g r g' t [= <- <- <-]|]. intros g.
    destruct (bool_decide _); [|auto with chaperone]. destruct (bool_decide _); [|auto with chaperone].
    destruct (session_gate g envelope d) as [eff summary].
    apply adds_bind; [auto with chaperone|]. intros []; auto with chaperone.
Qed.

(** Session frames and the sessions they leave: none is added. *)
Lemma end_sessions_shrink w message agent_id handle outputs exit g r g' t h e :
  end_session w message agent_id handle outputs exit g = (r, g', t) →
  sessions g' !! h = Some e → is_Some (sessions g !! h).
Proof.
  unfold end_session, get_gw, put_gw, act. unfold mbind, M_bind, mret, M_ret. unfold session_take.
  destruct (sessions g !! handle) as [e0|] eqn:He; [case_decide|].
  1: destruct (broadcast_session_run w "session.summary" handle e0 (set_sessions g (delete handle (sessions g))))
      as (tb & -> & _).
  all: match goal with |- context [append_event ?w0 ?ev ?g0] =>
         destruct (append_event_run w0 ev g0) as (seq & res & a2 & _ & ->) end.
  all: intros [= <- <- <-]; simpl; eauto.
  intros [_ Hl]%lookup_delete_Some. eauto.
Qed.

Lemma relay_adds_none w message agent_id handle :
  adds (λ _ _, False) (relay_command w message agent_id handle).
Proof.
  apply adds_get. intros g r g' t h e. unfold access.
  destruct (sessions g !! handle) as [e0|] eqn:He; [|intros [= <- <- <-]; congruence].
  case_decide; [|intros [= <- <- <-]; congruence].
  destruct (_ =? 0); [intros [= <- <- <-]; congruence|].
  unfold act, put_gw. unfold mbind at 1, M_bind at 1.
  destruct (channel_write w (channel e0) _); [|intros [= <- <- <-]; congruence].
  unfold mbind at 1, M_bind at 1. destruct (number_outputs _ _) as [outputs e1].
  unfold mbind at 1, M_bind at 1. set (g1 := set_sessions g _).
  assert (∀ e', sessions g1 !! h = Some e' → sessions g !! h = None → False) as Hg1.
  { simpl. intros e' [[<- _]|[_ Hl]]%lookup_insert_Some; congruence. }
  destruct (closed _).
  - destruct (end_session w message agent_id handle outputs _ g1) as [[b g2] t2] eqn:Hend.
    intros [= <- <- <-] Hl. destruct (end_sessions_shrink _ _ _ _ _ _ _ _ _ _ _ _ Hend Hl) as [e' He'].
    by eapply Hg1.
  - intros [= <- <- <-] Hl. by eapply Hg1.
Qed.

Lemma close_adds_none w message agent_id handle :
  adds (λ _ _, False) (close_session w message agent_id handle).
Proof.
  apply adds_get. intros g r g' t h e. unfold session_take, put_gw, act.
  destruct (sessions g !! handle) as [e0|] eqn:He; [|intros [= <- <- <-]; congruence].
  case_decide; [|intros [= <- <- <-]; congruence].
  unfold mbind, M_bind, mret, M_ret. set (g1 := set_sessions g _).
  destruct (broadcast_session_run w "session.summary" handle e0 g1) as (tb & -> & _). unfold get_gw.
  destruct (append_event_run w (session_event g1 message agent_id "session.close" "client_close" None) g1)
    as (seq & res & a2 & _ & ->).
  intros [= <- <- <-]. simpl. intros [_ Hl]%lookup_delete_Some. congruence.
Qed.

Lemma frame_adds_none w message kind g r g' t h e :
  handle_session_frame w message kind g = (r, g', t) → sessions g' !! h = Some e →
  sessions g !! h = None → False.
Proof.
  unfold handle_session_frame. unfold mbind, M_bind. rewrite verify_message_run.
  destruct (verify (attestor g) message (wall_clock w) (replay_io w)) as [[v|er] a];
    [|intros [= <- <- <-]; simpl; congruence].
  destruct (get_str message "session_handle") as [handle|]; [|intros [= <- <- <-]; simpl; congruence].
  destruct kind.
  - destruct (relay_command _ _ _ _ _) as [[b g2] t2] eqn:Hr. intros [= <- <- <-].
    by apply (relay_adds_none _ _ _ _ _ _ _ _ _ _ Hr).
  - destruct (close_session _ _ _ _ _) as [[b g2] t2] eqn:Hr. intros [= <- <- <-].
    by apply (close_adds_none _ _ _ _ _ _ _ _ _ _ Hr).
Qed.

(** C18: Where sessions come from.  A session that a message brings into the
    table belongs to the agent whose signature the front door verified on that
    very message, is for the mechanism and target of the intent, which policy
    did not deny and for which a backend is configured, was connected by that
    backend for that target and operation, and is dated from now. *)
Theorem new_session_provenance w message g r g' t h e :
  handle_message w message g = (r, g', t) → sessions g !! h = None → sessions g' !! h = Some e →
  ∃ v a envelope, verify (attestor g) message (wall_clock w) (replay_io w) = (Ok v, a) ∧
    envelope_of_value (v_envelope v) = Some envelope ∧
    effect (evaluate (policy g) (policy_request (v_agent_id v) envelope)) ≠ Deny ∧
    session_of w (v_agent_id v) envelope g e.
Proof.
  intros Hm Hn Hl. revert Hm. unfold handle_message. unfold mbind at 1, M_bind at 1, get_gw at 1.
  destruct (halted g) eqn:Hh; [intros [= <- <- <-]; congruence|].
  destruct (get_str message "type") as [ty|] eqn:Hty; [|intros [= <- <- <-]; congruence].
  repeat case_decide; subst.
  - rewrite handle_intent_run.
    destruct (verify (attestor g) message (wall_clock w) (replay_io w)) as [[v|er] a].
    + destruct (envelope_of_value (v_envelope v)) as [envelope|] eqn:He;
        [|intros [= <- <- <-]; simpl in Hl; congruence].
      cbv zeta. case_bool_decide as Hd.
      * destruct (fail_with _ _ _ _ _ _ _ _) as [[b g2] t2] eqn:Hf. intros [= <- <- <-].
        by apply (adds_fail (λ _ _, False) _ _ _ _ _ _ _ _ _ _ _ _ _ Hf) in Hl.
      * destruct (broker _ _ _ _ _ _) as [[b g2] t2] eqn:Hf. intros [= <- <- <-].
        exists v, a, envelope. split_and!; [done..|].
        exact (adds_broker _ _ _ _ _ _ _ _ _ _ _ Hf Hl Hn).
    + unfold audit_identity_failure, get_gw, mbind, M_bind, mret, M_ret.
      destruct (append_event_run w (identity_failure_event (set_attestor g a) message (identity_error_code er))
        (set_attestor g a)) as (seq & res & a1 & _ & ->). intros [= <- <- <-]. simpl in Hl. congruence.
  - destruct (handle_session_frame _ _ _ _) as [[b g2] t2] eqn:Hf. intros [= <- <- <-].
    by destruct (frame_adds_none _ _ _ _ _ _ _ _ _ Hf Hl Hn).
  - destruct (handle_session_frame _ _ _ _) as [[b g2] t2] eqn:Hf. intros [= <- <- <-].
    by destruct (frame_adds_none _ _ _ _ _ _ _ _ _ Hf Hl Hn).
  - intros [= <- <- <-]. congruence.
Qed.

(** ** Secrets *)

(** Two worlds whose vaults may hold different secrets, related by [R], which
    the mechanism backends answer alike. *)
Record same_but_secrets (R : str → str → Prop) (w1 w2 : World) : Prop := {
  sb_wall : wall_clock w1 = wall_clock w2;
  sb_mono : mono_clock w1 = mono_clock w2;
  sb_epoch : unix_epoch w1 = unix_epoch w2;
  sb_now : formatted_now w1 = formatted_now w2;
  sb_replay : replay_io w1 = replay_io w2;
  sb_short : audit_short w1 = audit_short w2;
  sb_entropy : entropy w1 = entropy w2;
  sb_confirm : ∀ c, confirm w1 c = confirm w2 c;
  sb_schema : ∀ v, schema_error w1 v = schema_error w2 v;
  sb_write : ∀ c s, channel_write w1 c s = channel_write w2 c s;
  sb_read : ∀ c, channel_read w1 c = channel_read w2 c;
  sb_resolve : ∀ c, match resolve w1 c, resolve w2 c with
                    | Ok s1, Ok s2 => R s1 s2
                    | Err e1, Err e2 => e1 = e2
                    | _, _ => False
                    end;
  sb_connect : ∀ m u o s1 s2, R s1 s2 → connect w1 m u o s1 = connect w2 m u o s2;
  sb_http : ∀ m u o s1 s2 l, R s1 s2 → http_execute w1 m u o s1 l = http_execute w2 m u o s2 l;
  sb_db : ∀ u o s1 s2, R s1 s2 → db_execute w1 u o s1 = db_execute w2 u o s2;
}.

Lemma bind_ext {A B} (m1 m2 : M A) (f1 f2 : A → M B) g :
  m1 g = m2 g → (∀ a g', f1 a g' = f2 a g') → (m1 ≫= f1) g = (m2 ≫= f2) g.
Proof. unfold mbind, M_bind. intros -> Hf. destruct (m2 g) as [[[a|] g1] t1]; [by rewrite Hf|done]. Qed.

Section Confinement.
Variables (R : str → str → Prop) (w1 w2 : World).
Hypothesis Hsame : same_but_secrets R w1 w2.
(** Minted certificates are made from the gateway's own state and the clock,
    which both worlds share: they count as related to themselves. *)
Hypothesis Hminted : ∀ ca ref id intent cert,
  mint_for ca ref id intent (unix_epoch w1) (entropy w1) = Ok cert →
  R (cert_openssh cert) (cert_openssh cert).

Lemma same_append ev g : append_event w1 ev g = append_event w2 ev g.
Proof. unfold append_event. by rewrite (sb_now _ _ _ Hsame), (sb_short _ _ _ Hsame). Qed.

Lemma same_decision envelope eff notify outcome g :
  audit_decision w1 envelope eff notify outcome g = audit_decision w2 envelope eff notify outcome g.
Proof.
  unfold audit_decision. apply bind_ext; [done|]. intros g1 g2. apply bind_ext; [apply same_append|done].
Qed.

Lemma same_fail message envelope d outcome code reason g :
  fail_with w1 message envelope d outcome code reason g = fail_with w2 message envelope d outcome code reason g.
Proof. apply bind_ext; [apply same_decision|done]. Qed.

Lemma same_verify message g : verify_message w1 message g = verify_message w2 message g.
Proof. unfold verify_message. by rewrite (sb_wall _ _ _ Hsame), (sb_replay _ _ _ Hsame). Qed.

Lemma same_gate eff ctx g : human_gate w1 eff ctx g = human_gate w2 eff ctx g.
Proof. unfold human_gate. by rewrite (sb_confirm _ _ _ Hsame). Qed.

Lemma same_broadcast kind handle entry g :
  broadcast_session_event w1 kind handle entry g = broadcast_session_event w2 kind handle entry g.
Proof. unfold broadcast_session_event. by rewrite (sb_mono _ _ _ Hsame). Qed.

#[local] Hint Resolve same_append same_decision same_fail same_verify same_gate same_broadcast : chaperone.
Ltac same := first [done | by auto with chaperone].

Lemma same_end message agent_id handle outputs exit g :
  end_session w1 message agent_id handle outputs exit g = end_session w2 message agent_id handle outputs exit g.
Proof.
  apply bind_ext; [done|]. intros g1 g2. apply bind_ext.
  - destruct (session_take _ _ _) as [[e|] tb]; [|done].
    apply bind_ext; [done|]. intros [] g3. apply bind_ext; [done|]. intros [] g4. same.
  - intros [] g3. apply bind_ext; [done|]. intros g4 g5. apply bind_ext; same.
Qed.

Lemma same_relay message agent_id handle g :
  relay_command w1 message agent_id handle g = relay_command w2 message agent_id handle g.
Proof.
  apply bind_ext; [done|]. intros g1 g2. rewrite (sb_mono _ _ _ Hsame).
  destruct (access _ _ _ _) as [[e rem]|[c x]]; [|done].
  apply bind_ext; [done|]. intros [] g3. rewrite (sb_write _ _ _ Hsame).
  destruct (channel_write _ _ _); [|done]. apply bind_ext; [done|]. intros [] g4.
  cbv zeta. rewrite (sb_read _ _ _ Hsame). destruct (number_outputs _ _) as [outputs e'].
  apply bind_ext; [done|]. intros [] g5. destruct (closed _); [apply same_end|done].
Qed.

Lemma same_close message agent_id handle g :
  close_session w1 message agent_id handle g = close_session w2 message agent_id handle g.
Proof.
  apply bind_ext; [done|]. intros g1 g2. destruct (session_take _ _ _) as [[e|] tb]; [|done].
  apply bind_ext; [done|]. intros [] g3. apply bind_ext; [done|]. intros [] g4.
  apply bind_ext; [same|]. intros [] g5. apply bind_ext; [done|]. intros g6 g7. apply bind_ext; same.
Qed.

Lemma same_frame message kind g :
  handle_session_frame w1 message kind g = handle_session_frame w2 message kind g.
Proof.
  apply bind_ext; [same|]. intros [v|e] g1; [|done].
  destruct (get_str message "session_handle"); [|done]. destruct kind; [apply same_relay|apply same_close].
Qed.

Lemma same_issue message agent_id envelope d chan g :
  issue_session w1 message agent_id envelope d chan g = issue_session w2 message agent_id envelope d chan g.
Proof.
  apply bind_ext; [done|]. intros g1 g2. cbv zeta.
  rewrite (sb_mono _ _ _ Hsame), (sb_entropy _ _ _ Hsame). destruct (instant_add _ _); [|done].
  destruct (session_insert _ _ _ _ _ _ _ _ _) as [[h e] tb].
  apply bind_ext; [done|]. intros [] g3. apply bind_ext; same.
Qed.

(** The secrets of a session are related. *)
Lemma same_secret envelope d g :
  let '(r1, g1, t1) := session_secret w1 envelope d g in
  let '(r2, g2, t2) := session_secret w2 envelope d g in
  g1 = g2 ∧ t1 = t2 ∧
  match r1, r2 with
  | Some (Ok s1), Some (Ok s2) => R s1 s2
  | Some (Err x1), Some (Err x2) => x1 = x2
  | None, None => True
  | _, _ => False
  end.
Proof.
  unfold session_secret, mint_secret, get_gw, act, mbind, M_bind, mret, M_ret.
  destruct (starts_with _ _).
  - destruct (ssh_ca g) as [ca|]; [|done].
    destruct (ctx_agent_identity ca _) as [[id|]|]; [|done..].
    split_and!; [done|done|].
    rewrite <- (sb_epoch _ _ _ Hsame), <- (sb_entropy _ _ _ Hsame).
    destruct (mint_for _ _ _ _ _ _) eqn:Hm; [|done]. simpl. by eapply Hminted.
  - pose proof (sb_resolve _ _ _ Hsame (e_cred_ref envelope)) as Hr.
    destruct (resolve w1 _), (resolve w2 _); simpl; split_and!; done || by subst.
Qed.

Lemma same_open message agent_id envelope d g :
  open_session w1 message agent_id envelope d g = open_session w2 message agent_id envelope d g.
Proof.
  apply bind_ext; [done|]. intros g1 g2. destruct (bool_decide _); [|same].
  unfold mbind, M_bind. pose proof (same_secret envelope d g2) as Hs.
  destruct (session_secret w1 envelope d g2) as [[r1 g3] t1], (session_secret w2 envelope d g2) as [[r2 g4] t2].
  destruct Hs as (-> & -> & Hs). destruct r1 as [[s1|[[o c] x]]|], r2 as [[s2|[[o' c'] x']]|]; try done.
  - simpl. rewrite (sb_connect _ _ _ Hsame _ _ _ _ _ Hs). destruct (connect _ _ _ _ _); [by rewrite same_issue|by rewrite same_fail].
  - simplify_eq. by rewrite same_fail.
Qed.

Lemma same_db message agent_id envelope d g :
  run_db w1 message agent_id envelope d g = run_db w2 message agent_id envelope d g.
Proof.
  unfold run_db. rewrite (sb_schema _ _ _ Hsame).
  destruct (db_operation_of_value _) as [op|]; [|same]. destruct (db_statement op); [|apply same_open].
  apply bind_ext; [done|]. intros [] g1. pose proof (sb_resolve _ _ _ Hsame (e_cred_ref envelope)) as Hr.
  destruct (resolve w1 _), (resolve w2 _); try done; [|subst; same].
  apply bind_ext; [done|]. intros [] g2. rewrite (sb_db _ _ _ Hsame _ _ _ _ Hr).
  destruct (db_execute _ _ _ _); [|same]. apply bind_ext; same.
Qed.

Lemma same_http message envelope d g :
  run_http w1 message envelope d g = run_http w2 message envelope d g.
Proof.
  unfold run_http. rewrite (sb_schema _ _ _ Hsame).
  destruct (http_operation_of_value _) as [op|]; [|same]. destruct (has_agent_authorization op); [same|].
  apply bind_ext; [done|]. intros [] g1. pose proof (sb_resolve _ _ _ Hsame (e_cred_ref envelope)) as Hr.
  destruct (resolve w1 _), (resolve w2 _); try done; [|subst; same].
  apply bind_ext; [done|]. intros g2 g3. apply bind_ext; [done|]. intros [] g4.
  rewrite (sb_http _ _ _ Hsame _ _ _ _ _ _ Hr). destruct (http_execute _ _ _ _ _ _); [|same].
  apply bind_ext; same.
Qed.

Lemma same_broker message agent_id envelope d g :
  broker w1 message agent_id envelope d g = broker w2 message agent_id envelope d g.
Proof.
  unfold broker. destruct (bool_decide _).
  - apply bind_ext; [same|]. intros [] g1; [|same]. destruct (bool_decide _); [apply same_db|apply same_http].
  - apply bind_ext; [done|]. intros g1 g2. destruct (bool_decide _); [|same]. destruct (bool_decide _); [|same].
    destruct (session_gate _ _ _) as [eff summary].
    apply bind_ext; [same|]. intros [] g3; [apply same_open|same].
Qed.

Lemma same_intent message g : handle_intent w1 message g = handle_intent w2 message g.
Proof.
  apply bind_ext; [same|]. intros [v|e] g1.
  - rewrite (sb_schema _ _ _ Hsame). destruct (envelope_of_value _) as [envelope|]; [|done].
    apply bind_ext; [done|]. intros g2 g3. cbv zeta. destruct (bool_decide _); [same|apply same_broker].
  - apply bind_ext; [|done]. apply bind_ext; [done|]. intros g2 g3. apply bind_ext; same.
Qed.

Lemma same_message message g : handle_message w1 message g = handle_message w2 message g.
Proof.
  apply bind_ext; [done|]. intros g1 g2. destruct (halted g1); [done|].
  destruct (get_str message "type"); [|done]. repeat case_decide; [apply same_intent|apply same_frame..|done].
Qed.
End Confinement.

(** C3: Secrets stay inside.  Two runs that differ only in the secrets held
    by the vault, and whose backends answer alike, give the same response, the
    same gateway state (audit journal, sessions) and the same actions: prompts,
    audit records, broadcasts and channel traffic carry nothing of a secret
    except what the backend it was spent on answers. *)
Theorem secrets_stay_inside R w1 w2 message g :
  same_but_secrets R w1 w2 →
  (∀ ca ref id intent cert, mint_for ca ref id intent (unix_epoch w1) (entropy w1) = Ok cert →
     R (cert_openssh cert) (cert_openssh cert)) →
  handle_message w1 message g = handle_message w2 message g.
Proof. intros Hs Hm. by apply (same_message R). Qed.
End Props.
