(* ===== verification/Scenarios.v ===== *)
(** Concrete runs of the gateway.

    A small gateway with one enrolled agent, one rule, an in-memory replay
    cache and a scripted outside world, and signed messages for it.  The runs
    instantiate the gateway's theorems and exhibit the behaviours that only
    show on a concrete message: what bounds a session's lifetime, what a very
    long declared lifetime does, and which fields the audit evidence keeps. *)

From S2P Require Import Prelude Strs Json Extern Toy Protocol Matcher Policy Enrollment Replay Identity.
From S2P Require Import AuditChain Session SshCa Gateway GatewayProps.
#[local] Open Scope Z_scope.

#[local] Existing Instance toy_base64.
#[local] Existing Instance toy_ed25519.
#[local] Existing Instance toy_serde.
#[local] Existing Instance toy_serde_line.
#[local] Existing Instance toy_json.
#[local] Existing Instance toy_sha256.
#[local] Existing Instance toy_time.
#[local] Existing Instance toy_debug.
#[local] Existing Instance toy_ssh.

(** ** The gateway, the world and the messages *)

Definition toy_rule (e : Effect) (l : Limits) : Rule :=
  {| rule_name := Some "r"; notify_on_use := false; rule_effect := e; rule_agent_id := Exact "a";
     rule_cred_ref := Any; rule_target_uri := Any; rule_mechanism := Any; pairs := []; limits := l |}.

Definition toy_gateway (rs : list Rule) : Gateway :=
  {| attestor := toy_attestor 30; policy := from_rules rs;
     audit := {| w_seq := 0; w_prev_hash := zeros; w_key := toy_key; journal := [] |};
     config := default_gateway_config; sessions := table_new;
     backends := {["ssh"; "local-privilege"]}; privilege_allowlist := None; ruleset_hash := [];
     event_hub := true; halted := false; halt_reason := None; ssh_ca := None |}.

Definition toy_world (secret : str) (answer : ConfirmOutcome) : World :=
  {| wall_clock := 50000000000; mono_clock := 7000000000; unix_epoch := 50; formatted_now := Ok "now";
     replay_io := io_good; audit_short := None; entropy := replicate 32 Byte.x01;
     confirm _ := answer; resolve _ := Ok secret;
     connect _ _ _ s := if bool_decide (s = secret) then Ok 4%nat else Err "auth";
     http_execute _ _ _ _ _ := Ok {| hr_status := 200; hr_headers := []; hr_body := "ok" |};
     db_execute _ _ _ := Ok Null; channel_write _ _ := Ok tt;
     channel_read _ := {| chunks := []; closed := false; exit_code := None |};
     schema_error _ := "schema" |}.

Definition toy_sign (body : list (str * Value)) : Value :=
  match object body with
  | Object m =>
      let canon := match canonical (Object m) with Ok s => s | Err _ => [] end in
      Object (map_insert "sig" (String (encode_signature (sign (Byte.x41 : SigningKey) canon))) m)
  | v => v
  end.

Definition toy_intent_body (mechanism : str) (operation : Value) (ttl : option Z) : list (str * Value) :=
  [("chaperone", String "0.1"); ("msg_id", String "m1"); ("type", String "intent");
   ("agent_id", String "a"); ("issued_at", String (show 50000000000)); ("nonce", String "n");
   ("target", object [("uri", String "ssh://h"); ("label", String "l")]);
   ("mechanism", String mechanism); ("cred_ref", String "vault://k"); ("operation", operation);
   ("constraints", object (opt_field "session_ttl_s" ttl))].

Definition toy_msg (mechanism : str) (ttl : option Z) : Value :=
  toy_sign (toy_intent_body mechanism (object [("command", String "id")]) ttl).

Definition toy_run (rs : list Rule) (answer : ConfirmOutcome) (message : Value) :=
  handle_message (toy_world "s3cret" answer) message (toy_gateway rs).

(** ** Instances of the gateway's theorems *)

Definition allow_all : list Rule := [toy_rule Allow no_limits].
Definition ssh_run : option Value * Gateway * list action :=
  toy_run allow_all Approved (toy_msg "ssh" (Some 60)).

Lemma run_triple (x : option Value * Gateway * list action) : x = (x.1.1, x.1.2, x.2).
Proof. by destruct x as [[]]. Qed.


Definition needs_human : list Rule := [toy_rule NeedsConfirmation no_limits].
Definition gated_run : option Value * Gateway * list action :=
  toy_run needs_human Approved (toy_msg "ssh" (Some 60)).

Lemma touched (t : list action) : forallb (λ a, negb (touches a)) t = false → ¬ untouched t.
Proof.
  intros Hf Hu. assert (forallb (λ a, negb (touches a)) t = true) as Ht; [|congruence].
  apply forallb_forall. intros x Hx%list_elem_of_In. unfold untouched in Hu. rewrite Forall_forall in Hu.
  by rewrite (Hu x Hx).
Qed.

Lemma credentials_only_after_grant_witness :
  ∃ v a, verify (toy_attestor 30) (toy_msg "ssh" (Some 60)) 50000000000 io_good = (Ok v, a) ∧
         ¬ untouched gated_run.2.
Proof.
  assert (¬ untouched gated_run.2) as Ht by (apply touched; vm_compute; reflexivity).
  destruct (credentials_only_after_grant (toy_world "s3cret" Approved) (toy_msg "ssh" (Some 60))
    (toy_gateway needs_human) gated_run.1.1 gated_run.1.2 gated_run.2 (run_triple gated_run) Ht)
    as (_ & _ & v & a & _ & Hv & _).
  exists v, a. split; [exact Hv|exact Ht].
Defined.

Definition priv_run : option Value * Gateway * list action :=
  toy_run allow_all Approved (toy_msg "local-privilege" None).

Lemma local_privilege_needs_human_witness : ∃ ctx t', priv_run.2 = AConfirm ctx :: t' ∧ cc_agent_id ctx = "a".
Proof.
  set (x := verify (toy_attestor 30) (toy_msg "local-privilege" None) 50000000000 io_good).
  assert (match x.1 with
          | Ok v => match envelope_of_value (v_envelope v) with
                    | Some e => e_mechanism e = "local-privilege" ∧ v_agent_id v = "a"
                    | None => False
                    end
          | Err _ => False end) as Hx by (vm_compute; split; reflexivity).
  destruct x.1 as [v|] eqn:Hv; [|destruct Hx].
  destruct (envelope_of_value (v_envelope v)) as [e|] eqn:He; [|destruct Hx].
  destruct (local_privilege_needs_human (toy_world "s3cret" Approved) (toy_msg "local-privilege" None)
    (toy_gateway allow_all) priv_run.1.1 priv_run.1.2 priv_run.2 v x.2 e (run_triple priv_run))
    as (ctx & t' & Ht & _ & Hid).
  - change (x = (Ok v, x.2)). rewrite <- Hv. apply surjective_pairing.
  - exact He.
  - exact (proj1 Hx).
  - reflexivity.
  - apply touched. vm_compute. reflexivity.
  - exists ctx, t'. split; [exact Ht|]. rewrite Hid. exact (proj2 Hx).
Defined.

Lemma halt_is_final_witness :
  let g1 := halt (halt (toy_gateway allow_all) "drift") "later" in
  handle_message (toy_world "s" Refused) Null g1 = (Some (error_response Null "E_GATEWAY_HALTED" "drift"), g1, []).
Proof. apply (halt_is_final (toy_gateway allow_all) "drift" ["later"] (toy_world "s" Refused) Null). reflexivity. Defined.

Definition denied_run : option Value * Gateway * list action := toy_run [] Approved (toy_msg "ssh" None).

Lemma denied_intent_effects_witness : ∃ r ev b, denied_run.2 = [append_action r ev; ABroadcast b].
Proof.
  set (x := verify (toy_attestor 30) (toy_msg "ssh" None) 50000000000 io_good).
  assert (match x.1 with
          | Ok v => bool_decide (is_Some (envelope_of_value (v_envelope v))) = true
          | Err _ => False end) as Hx by (vm_compute; reflexivity).
  destruct x.1 as [v|] eqn:Hv; [|destruct Hx].
  destruct (envelope_of_value (v_envelope v)) as [e|] eqn:He; [|discriminate Hx].
  destruct (denied_intent_effects (toy_world "s3cret" Approved) (toy_msg "ssh" None)
    (toy_gateway []) v x.2 e) as (g' & t & Hr & _ & b & ->).
  - reflexivity.
  - reflexivity.
  - change (x = (Ok v, x.2)). rewrite <- Hv. apply surjective_pairing.
  - exact He.
  - reflexivity.
  - eexists _, _, b. unfold denied_run, toy_run. rewrite Hr. reflexivity.
Defined.

(** A command frame for an open session. *)
Definition toy_frame : Value :=
  toy_sign [("chaperone", String "0.1"); ("msg_id", String "m2"); ("type", String "session.command");
            ("agent_id", String "a"); ("issued_at", String (show 50000000000)); ("nonce", String "n2");
            ("session_handle", String "h"); ("input_b64", String "6c73")].

Definition frame_gateway : Gateway :=
  set_sessions (toy_gateway []) {["h" := toy_entry "a" (60 * NANOS)]}.

Definition frame_run : option Value * Gateway * list action :=
  handle_session_frame (toy_world "s3cret" Approved) toy_frame Command frame_gateway.

Lemma frames_reach_only_own_channel_witness :
  channels frame_run.2 = [0%nat; 0%nat] ∧
  ∃ v a, verify (toy_attestor 30) toy_frame 50000000000 io_good = (Ok v, a).
Proof.
  assert (channels frame_run.2 = [0%nat; 0%nat]) as Hc by (vm_compute; reflexivity).
  split; [exact Hc|].
  destruct (frames_reach_only_own_channel (toy_world "s3cret" Approved) toy_frame Command frame_gateway
    frame_run.1.1 frame_run.1.2 frame_run.2 0%nat (run_triple frame_run)) as (v & a & _ & _ & Hv & _).
  - rewrite Hc. by left.
  - exists v, a. exact Hv.
Defined.

Lemma new_session_provenance_witness :
  ∃ h e, sessions ssh_run.1.2 !! h = Some e ∧ s_agent_id e = "a".
Proof.
  set (h := "sess_0101010101010101010101010101010101010101010101010101010101010101" : str).
  assert (match sessions ssh_run.1.2 !! h with Some e => s_agent_id e = "a" | None => False end) as Hs
    by (vm_compute; reflexivity).
  destruct (sessions ssh_run.1.2 !! h) as [e|] eqn:He; [|destruct Hs]. exists h, e. split; [exact He|].
  destruct (new_session_provenance (toy_world "s3cret" Approved) (toy_msg "ssh" (Some 60))
    (toy_gateway allow_all) ssh_run.1.1 ssh_run.1.2 ssh_run.2 h e (run_triple ssh_run))
    as (v & a & env & Hv & _ & _ & Hid & _); [reflexivity|exact He|]. exact Hs.
Defined.

(** Two vaults with different secrets, each accepted by its own backend.  A
    certificate of the example authority is longer than either. *)
Lemma toy_minted_long ca ref id intent now nonce cert :
  mint_for ca ref id intent now nonce = Ok cert → (6 < length (cert_openssh cert))%nat.
Proof.
  unfold mint_for. intros (host & _ & Hm)%result_bind_ok. cbn zeta in Hm. destruct (_ || _); [done|].
  apply result_bind_ok in Hm as (entry & _ & Hm). apply result_bind_ok in Hm as (text & _ & Hm).
  apply result_bind_ok in Hm as (k & _ & Hm). revert Hm. unfold sign_crt_at.
  destruct (_ || _); [done|]. destruct (_ || _); [done|].
  match goal with |- map_err _ ?r = _ → _ => destruct r as [c'|] eqn:Hr end; [|done]. intros [= <-].
  apply result_bind_ok in Hr as (pk & _ & Hr). case_decide; [|done].
  apply result_bind_ok in Hr as (t & Ht%ok_or_ok & [= <-]). simpl in Ht. injection Ht as <-. simpl.
  rewrite !length_app. simpl. lia.
Qed.

Definition swapped (s1 s2 : str) : Prop :=
  (s1 = "s3cret" ∧ s2 = "other") ∨ (s1 = s2 ∧ (6 < length s1)%nat).

Lemma secrets_stay_inside_witness :
  toy_run allow_all Approved (toy_msg "ssh" (Some 60)) =
  handle_message (toy_world "other" Approved) (toy_msg "ssh" (Some 60)) (toy_gateway allow_all).
Proof.
  apply (secrets_stay_inside swapped (toy_world "s3cret" Approved) (toy_world "other" Approved)).
  - split; try reflexivity.
    + intros c. left. split; reflexivity.
    + intros m u o s1 s2 [[-> ->]|[<- Hl]]; [reflexivity|]. simpl.
      rewrite !bool_decide_eq_false_2; [reflexivity|intros ->; simpl in Hl; lia..].
  - intros ca ref id intent cert Hm. right. split; [reflexivity|]. exact (toy_minted_long _ _ _ _ _ _ _ Hm).
Defined.

(** ** Behaviours shown by a run *)

(** The policy's session lifetime is not enforced.  A rule that limits
    sessions to sixty seconds decides with that limit, and the session opened
    under it lasts for the whole day its agent declared. *)
Theorem policy_session_ttl_not_enforced :
  let rs := [toy_rule Allow {| max_response_bytes := None; session_ttl_s := Some 60 |}] in
  let message := toy_msg "ssh" (Some 86400) in
  let run := toy_run rs Approved message in
  (∃ v envelope, (verify (toy_attestor 30) message 50000000000 io_good).1 = Ok v ∧
     envelope_of_value (v_envelope v) = Some envelope ∧
     session_ttl_s (d_limits (evaluate (from_rules rs) (policy_request (v_agent_id v) envelope))) = Some 60) ∧
  (λ e, expires_at e - opened_at e) <$> (map_to_list (sessions run.1.2)).*2 = [86400 * NANOS].
Proof.
  split; [|vm_compute; reflexivity].
  set (r := (verify (toy_attestor 30) (toy_msg "ssh" (Some 86400)) 50000000000 io_good).1).
  assert (match r with
          | Ok v => match envelope_of_value (v_envelope v) with
                    | Some e => session_ttl_s (d_limits (evaluate
                        (from_rules [toy_rule Allow {| max_response_bytes := None; session_ttl_s := Some 60 |}])
                        (policy_request (v_agent_id v) e))) = Some 60
                    | None => False end
          | Err _ => False end) as Hr by (vm_compute; reflexivity).
  destruct r as [v|]; [|done]. destruct (envelope_of_value (v_envelope v)) as [e|] eqn:He; [|done].
  by exists v, e.
Qed.

(** A very long declared lifetime stops the handler half way.  The
    largest 64-bit lifetime is accepted by identity and policy; the secret is
    resolved and spent on the backend, then the handler panics before the
    session is stored and before the decision is recorded. *)
Theorem huge_session_ttl_panics_unrecorded :
  let run := toy_run allow_all Approved (toy_msg "ssh" (Some u64_max)) in
  run.1.1 = None ∧ audits run.2 = [] ∧ sessions run.1.2 = ∅ ∧
  ∃ op, run.2 = [AResolve "vault://k"; AConnect "ssh" "ssh://h" op].
Proof.
  split; [vm_compute; reflexivity|]. split; [vm_compute; reflexivity|]. split; [vm_compute; reflexivity|].
  eexists. vm_compute. reflexivity.
Qed.

(** The evidence is not the message.  A signed field outside the schema
    is covered by the signature that the front door verified, and is absent
    from the envelope stored in the audit record of the decision. *)
Theorem evidence_drops_unknown_fields :
  let message := toy_sign (("purpose", String "rotate") :: toy_intent_body "ssh" (object []) None) in
  let run := toy_run allow_all Approved message in
  is_ok (verify (toy_attestor 30) message 50000000000 io_good).1 = true ∧
  get_str message "purpose" = Some "rotate" ∧
  (λ ev, (get_str (intent_envelope ev) "msg_id", get (intent_envelope ev) "purpose")) <$> audits run.2 =
    [(Some ("m1" : str), None)].
Proof. split; [vm_compute; reflexivity|]. split; vm_compute; reflexivity. Qed.
