(* ===== verification/SessionSerial.v ===== *)
(** A session frame that runs alone: the steps of [SessionTasks], taken with
    nothing between them, against the frame handlers of [Gateway].

    [SessionTasks] cuts [handle_session_frame] at its locks; [Gateway] has it
    as one computation with the journal and the feed.  Run alone from a
    reachable state, the steps leave the same table, do the same to the channel
    in the same order, record the same, and give the same answer. *)

From S2P Require Import Prelude Strs Json Extern Toy Protocol Matcher Policy Enrollment Replay Identity.
From S2P Require Import AuditChain Session SshCa SessionTasks Gateway GatewayProps Scenarios.
#[local] Open Scope Z_scope.

(** ** A task alone *)

Fixpoint run_alone (n : nat) (x : SessionTasks.World) (i : nat) (t : Task) (env : Env) : SessionTasks.World * TaskStage :=
  match n with
  | O => (x, stage t)
  | S n' =>
      match task_step x i t env with
      | None => (x, stage t)
      | Some (x', st) => run_alone n' x' i {| role := role t; stage := st |} env
      end
  end.

(** What is done to a channel, and the close records. *)
Inductive op : Type :=
| OpWrite (p : nat) (data : str)
| OpRead (p : nat)
| OpShutdown (p : nat)
| OpRecord (reason : str) (exit : option Z).

Definition op_of_event (e : event) : option op :=
  match e with
  | EWrite _ p _ data _ => Some (OpWrite p data)
  | ERead _ p _ _ => Some (OpRead p)
  | EShutdown _ p => Some (OpShutdown p)
  | ERecord _ reason exit => Some (OpRecord reason exit)
  | _ => None
  end.

Definition op_of_action (a : action) : option op :=
  match a with
  | AWrite p data => Some (OpWrite p data)
  | ARead p => Some (OpRead p)
  | AShutdown p => Some (OpShutdown p)
  | AAudit ev | AAuditFailed ev =>
      match ev_outcome ev with SessionClosed reason exit => Some (OpRecord reason exit) | _ => None end
  | _ => None
  end.

(** ** The table seen through the heap *)

(** Channels are numbered by the entry they belong to, and no two handles have
    the same entry. *)
Definition tidy (x : SessionTasks.World) : Prop :=
  (∀ p e, heap x !! p = Some e → channel e = p) ∧
  (∀ h h' p, table x !! h = Some p → table x !! h' = Some p → h = h').

Lemma view_delete x h : view (with_table x (delete h (table x))) = delete h (view x).
Proof. unfold view. simpl. by rewrite omap_delete. Qed.

Lemma view_with_entry x h p e e' :
  tidy x → table x !! h = Some p → heap x !! p = Some e → view (with_entry x p e') = <[h := e']> (view x).
Proof.
  intros [_ Hinj] Hp He. apply map_eq. intros h'. rewrite view_lookup. simpl.
  destruct (decide (h' = h)) as [->|Hne]; [by rewrite Hp, lookup_insert_eq; simpl; rewrite lookup_insert_eq|].
  rewrite lookup_insert_ne, view_lookup by done. destruct (table x !! h') as [q|] eqn:Hq; [|done]. simpl.
  rewrite lookup_insert_ne; [done|]. intros ->. apply Hne. by eapply Hinj.
Qed.

Lemma number_chunks_channel e cs : channel (number_chunks e cs).2 = channel e.
Proof.
  revert e. induction cs as [|c cs IH]; intros e; [done|]. simpl.
  specialize (IH (set_out_seq e (u64_wrapping_add (out_seq e) 1))). by destruct (number_chunks _ cs).
Qed.

Section Tidy.
Context `{Base64}.

Lemma reachable_tidy x : reachable x → tidy x.
Proof.
  intros Hr. split.
  - revert x Hr. apply (rtc_ind_r (λ x, ∀ p e, heap x !! p = Some e → channel e = p)); [done|].
    intros x y _ Hs Hx p e. destruct Hs as [agent m u l ttl t raw q h e1 tb Hi _ _|r|y [i t env x1 st Ht Hs]]; simpl; [|apply Hx|].
    + intros [[<- <-]|[_ He]]%lookup_insert_Some; [|by apply Hx]. unfold session_insert in Hi. by simplify_eq/=.
    + apply task_step_rule in Hs. destruct Hs as [| | | |a h d q t' e0 b outs e' st' He0 Hn _| | | | | |th h q todo e0 t' due e' He0 Hd]; simpl; auto.
      * intros [[<- <-]|[_ He]]%lookup_insert_Some; [|by apply Hx]. rewrite <- (Hx _ _ He0).
        pose proof (number_chunks_channel (record_relay e0 (zlen d) (out_len b)) (chunks b)) as Hc.
        by rewrite Hn in Hc.
      * assert (channel e' = channel e0) as Hc by (unfold heartbeat_due in Hd; repeat case_match; by simplify_eq).
        destruct due; simpl; (intros [[<- <-]|[_ He]]%lookup_insert_Some; [rewrite Hc; by apply Hx|by apply Hx]).
  - intros h h' p Hp Hp'. apply reachable_sound, so_custody in Hr.
    assert (NoDup (custody x)) as Hn by (rewrite Hr; apply NoDup_elements).
    unfold custody in Hn. apply NoDup_app in Hn as (Hn & _ & _).
    apply elem_of_map_to_list, list_elem_of_lookup in Hp as [i Hi], Hp' as [j Hj].
    assert (i = j) as -> by (eapply NoDup_lookup; [exact Hn|rewrite list_lookup_fmap, Hi|rewrite list_lookup_fmap, Hj]; done).
    congruence.
Qed.
End Tidy.

(** ** The handlers alone *)

Section Serial.
Context `{Base64, Ed25519, SerdeText StoreFile, SerdeLine JournalLine, JsonText, Sha256, TimeApi,
          DebugFmt, SshKeys}.

(** What the channel answers the task, as it answers the handler. *)
Definition channel_env (w : World) (p : nat) (input : str) : Env :=
  {| now := mono_clock w; write_result := channel_write w p input; batch_read := channel_read w p |}.

Definition render_output (x : Z * OutputChunk) : Value :=
  object [("seq", jnum x.1); ("stream", jstr (stream x.2)); ("data_b64", jstr (b64std_encode (data x.2)))].

(** The answer of a task as the message that is sent. *)
Inductive frame_answers (message : Value) (handle : str) : Reply → Value → Prop :=
| answer_error code reason : frame_answers message handle (ReplyError code reason) (error_response message code reason)
| answer_output outs :
    frame_answers message handle (ReplyOutput outs false None)
      (object [("type", jstr "session.output"); ("session_handle", jstr handle);
               ("outputs", Array (render_output <$> outs)); ("closed", Bool false); ("msg_id", echo_msg_id message)])
| answer_ended outs exit seq :
    frame_answers message handle (ReplyOutput outs true exit)
      (object [("type", jstr "session.output"); ("session_handle", jstr handle);
               ("outputs", Array (render_output <$> outs)); ("closed", Bool true); ("exit_code", exit_value exit);
               ("audit_id", jstr (audit_id seq)); ("msg_id", echo_msg_id message)])
| answer_closed seq :
    frame_answers message handle ReplyClosed
      (object [("type", jstr "session.closed"); ("session_handle", jstr handle);
               ("reason", jstr "client_close"); ("exit_code", Null);
               ("audit_id", jstr (audit_id seq)); ("msg_id", echo_msg_id message)]).

Lemma number_outputs_render e cs :
  number_outputs e cs = (render_output <$> (number_chunks e cs).1, (number_chunks e cs).2).
Proof.
  revert e. induction cs as [|c cs IH]; intros e; [done|]. simpl. rewrite IH. by destruct (number_chunks _ cs).
Qed.

Lemma M_bind_run {A B} (m : M A) (f : A → M B) g a g1 t1 b g2 t2 :
  m g = (Some a, g1, t1) → f a g1 = (b, g2, t2) → (m ≫= f) g = (b, g2, t1 ++ t2).
Proof. intros Hm Hf. unfold mbind, M_bind. by rewrite Hm, Hf. Qed.

Lemma append_keeps_sessions w ev g :
  ∃ seq g' a, append_event w ev g = (Some seq, g', [a]) ∧ sessions g' = sessions g ∧
    op_of_action a = op_of_action (AAudit ev).
Proof.
  destruct (append_event_run w ev g) as (seq & r & a & _ & ->). eexists _, _, _.
  split_and!; [done|done|by destruct r].
Qed.

Lemma broadcast_run w k h e g :
  ∃ acts, broadcast_session_event w k h e g = (Some tt, g, acts) ∧ omap op_of_action acts = [].
Proof.
  unfold broadcast_session_event, broadcast_json, mbind, M_bind, get_gw. destruct (event_hub g); by eexists.
Qed.

(** The end of a teardown, and of the record after it. *)
Lemma teardown_alone n x i r h p outs exit env e :
  (match r with TaskScan _ => False | _ => True end) → holder x !! p = None → heap x !! p = Some e →
  run_alone (3 + n) x i {| role := r; stage := Tearing [(h, p)] outs exit |} env =
  run_alone n (logged (logged x (EShutdown i p)) (ESummary i h p (stats e (now env)))) i
    {| role := r; stage := match r with TaskCommand _ _ _ => Recording outs exit | _ => Recording [] None end |} env.
Proof. intros Hr Hh He. destruct r; try done; cbn; rewrite Hh; cbn; by rewrite He. Qed.

(** The frame as a task and as a handler. *)
Definition frame_role (kind : SessionFrameKind) (message : Value) (agent handle : str) : Role :=
  match kind with
  | Command => TaskCommand agent handle
                 (match get_str message "input_b64" with Some b => base64_std_decode b | None => [] end)
  | Close => TaskClose agent handle
  end.
Definition frame_handler (w : World) (kind : SessionFrameKind) (message : Value) (agent handle : str) : M Value :=
  match kind with
  | Command => relay_command w message agent handle
  | Close => close_session w message agent handle
  end.

(** Both left the same table, did the same and gave the same answer. *)
Definition agrees (x : SessionTasks.World) (g : Gateway) (message : Value) (handle : str)
    (task : SessionTasks.World * TaskStage) (handler : option Value * Gateway * list action) : Prop :=
  ∃ v g' acts r evs, handler = (Some v, g', acts) ∧ task.2 = Done r ∧ view task.1 = sessions g' ∧
    log task.1 = log x ++ evs ∧ omap op_of_event evs = omap op_of_action acts ∧ frame_answers message handle r v.

(** One step of a task alone. *)
Lemma alone_step n x i t env x' st :
  task_step x i t env = Some (x', st) →
  run_alone (S n) x i t env = run_alone n x' i {| role := role t; stage := st |} env.
Proof. intros Hs. cbn [run_alone]. by rewrite Hs. Qed.

Lemma take_views x g handle agent :
  view x = sessions g →
  match take_arc x handle agent with
  | (Some p, x') => ∃ e, heap x !! p = Some e ∧ session_take (sessions g) handle agent = (Some e, view x') ∧
      x' = with_table x (delete handle (table x))
  | (None, x') => session_take (sessions g) handle agent = (None, sessions g) ∧ x' = x
  end.
Proof.
  intros Hv. unfold take_arc, session_take. rewrite Hv, <- Hv, view_lookup.
  destruct (table x !! handle) as [p|] eqn:Hp; simpl; [|done].
  destruct (heap x !! p) as [e|] eqn:He; simpl; [|done]. case_decide; [|done].
  exists e. by rewrite view_delete.
Qed.

Lemma close_alone w message agent handle g x i env :
  tidy x → view x = sessions g → (∀ p, holder x !! p = None) → now env = mono_clock w →
  agrees x g message handle (run_alone 8 x i {| role := TaskClose agent handle; stage := Begin |} env)
    (close_session w message agent handle g).
Proof.
  intros Ht Hv Hh Hnow. unfold close_session.
  pose proof (take_views x g handle agent Hv) as Hk. destruct (take_arc x handle agent) as [[p|] x1] eqn:Hta.
  - destruct Hk as (e & He & Hst & Hx1).
    rewrite (alone_step 7 _ _ _ _ x1 (Tearing [(handle, p)] [] None)) by (cbn; by rewrite Hta).
    rewrite (teardown_alone 4 _ _ _ _ _ _ _ _ e) by by rewrite ?Hx1.
    destruct (broadcast_run w "session.summary" handle e (set_sessions g (view x1))) as (a1 & Hb & Ho).
    destruct (append_keeps_sessions w (session_event (set_sessions g (view x1)) message agent
      "session.close" "client_close" None) (set_sessions g (view x1))) as (seq & g' & a & Hap & Hg' & Ha).
    do 5 eexists. split_and!.
    + eapply M_bind_run; [done|]. rewrite Hst. eapply M_bind_run; [done|]. eapply M_bind_run; [done|].
      eapply M_bind_run; [exact Hb|]. eapply M_bind_run; [done|]. eapply M_bind_run; [exact Hap|]. done.
    + done.
    + by rewrite Hg'.
    + cbn. rewrite <- !app_assoc. by rewrite Hx1.
    + rewrite (proj1 Ht _ _ He). simpl. rewrite omap_app, Ho. simpl. by rewrite Ha.
    + apply answer_closed.
  - destruct Hk as [Hst ->]. erewrite alone_step by (cbn; by rewrite Hta).
    exists (error_response message "E_SESSION_EXPIRED" "unknown or expired session_handle"), g, [].
    eexists _, []. split_and!; try done; [|by rewrite app_nil_r|apply answer_error].
    eapply (M_bind_run get_gw _ _ _ _ []); [done|]. by rewrite Hst.
Qed.

(** The end of a command whose channel is closed. *)
Lemma end_alone w message agent handle input outs exit g x i env :
  (∀ p e, heap x !! p = Some e → channel e = p) → view x = sessions g → (∀ p, holder x !! p = None) →
  agrees x g message handle (run_alone 5 x i {| role := TaskCommand agent handle input; stage := Ended outs exit |} env)
    (end_session w message agent handle (render_output <$> outs) exit g).
Proof.
  intros Ht Hv Hh. unfold end_session.
  pose proof (take_views x g handle agent Hv) as Hk. destruct (take_arc x handle agent) as [[p|] x1] eqn:Hta.
  - destruct Hk as (e & He & Hst & Hx1).
    rewrite (alone_step 4 _ _ _ _ x1 (Tearing [(handle, p)] outs exit)) by (cbn; by rewrite Hta).
    rewrite (teardown_alone 1 _ _ _ _ _ _ _ _ e) by by rewrite ?Hx1.
    destruct (broadcast_run w "session.summary" handle e (set_sessions g (view x1))) as (a1 & Hb & Ho).
    destruct (append_keeps_sessions w (session_event (set_sessions g (view x1)) message agent
      "session.command" "exited" exit) (set_sessions g (view x1))) as (seq & g' & a & Hap & Hg' & Ha).
    do 5 eexists. split_and!.
    + eapply M_bind_run; [done|]. rewrite Hst.
      eapply M_bind_run; [eapply M_bind_run; [done|]; eapply M_bind_run; [done|exact Hb]|].
      eapply M_bind_run; [done|]. eapply M_bind_run; [exact Hap|]. done.
    + done.
    + by rewrite Hg'.
    + cbn. rewrite <- !app_assoc. by rewrite Hx1.
    + rewrite (Ht _ _ He). simpl. rewrite omap_app, Ho. simpl. by rewrite Ha.
    + apply answer_ended.
  - destruct Hk as [Hst ->]. rewrite (alone_step 4 _ _ _ _ x (Recording outs exit)) by (cbn; by rewrite Hta).
    destruct (append_keeps_sessions w (session_event g message agent "session.command" "exited" exit) g) as (seq & g' & a & Hap & Hg' & Ha).
    do 5 eexists. split_and!.
    + eapply M_bind_run; [done|]. rewrite Hst. eapply M_bind_run; [done|]. eapply M_bind_run; [done|].
      eapply M_bind_run; [exact Hap|]. done.
    + done.
    + by rewrite Hg'.
    + done.
    + simpl. by rewrite Ha.
    + apply answer_ended.
Qed.
(** What a handler did before the part that agrees. *)
Lemma agrees_after x g message handle evs0 acts0 g1 x1 task handler :
  log x1 = log x ++ evs0 → omap op_of_event evs0 = omap op_of_action acts0 →
  agrees x1 g1 message handle task handler →
  agrees x g message handle task (let '(v, g2, acts) := handler in (v, g2, acts0 ++ acts)).
Proof.
  intros Hl Ho (v & g' & acts & r & evs & -> & Hr & Hv & Hl' & Ho' & Ha).
  exists v, g', (acts0 ++ acts), r, (evs0 ++ evs). split_and!; try done.
  - by rewrite Hl', Hl, app_assoc.
  - by rewrite !omap_app, Ho, Ho'.
Qed.

Lemma access_views x g handle agent t :
  view x = sessions g →
  match access_arc x handle agent t with
  | Ok p => ∃ e rem, table x !! handle = Some p ∧ heap x !! p = Some e ∧ access (sessions g) handle agent t = Ok (e, rem)
  | Err cr => access (sessions g) handle agent t = Err cr
  end.
Proof.
  intros Hv. unfold access_arc. rewrite Hv. unfold access. rewrite <- Hv, view_lookup.
  destruct (table x !! handle) as [p|]; simpl; [|done]. destruct (heap x !! p) as [e|] eqn:He; simpl; [|done].
  case_decide; simpl; [|done]. destruct (_ =? 0); simpl; [done|]. by eexists _, _.
Qed.

(** The state after the exchange of a command. *)
Definition relayed (x : SessionTasks.World) (i p : nat) (a : Z) (input : str) (e' : Entry) (b : OutputBatch)
    (outs : Numbered) : SessionTasks.World :=
  logged (with_entry (with_holder (logged (with_holder x (<[p := i]> (holder x))) (EWrite i p a input true))
                        (delete p (<[p := i]> (holder x)))) p e') (ERead i p b outs).

Lemma exchange_alone n x i agent handle input p a env e outs e' :
  holder x !! p = None → heap x !! p = Some e → write_result env = Ok tt →
  number_chunks (record_relay e (zlen input) (out_len (batch_read env))) (chunks (batch_read env)) = (outs, e') →
  run_alone (2 + n) x i {| role := TaskCommand agent handle input; stage := Waiting p a |} env =
  run_alone n (relayed x i p a input e' (batch_read env) outs) i
    {| role := TaskCommand agent handle input;
       stage := if closed (batch_read env) then Ended outs (exit_code (batch_read env)) else Done (ReplyOutput outs false None) |} env.
Proof. intros Hh He Hw Hn. cbn. rewrite Hh, Hw. cbn. rewrite He. cbn. by rewrite Hn. Qed.

(** From the exchange on, where the channel took the input. *)
Definition relay_tail (w : World) (message : Value) (agent handle : str) (g : Gateway) (p : nat) (e' : Entry)
    (outs : Numbered) : M Value :=
  _ ← put_gw (set_sessions g (<[handle := e']> (sessions g)));
  if closed (channel_read w p)
  then end_session w message agent handle (render_output <$> outs) (exit_code (channel_read w p))
  else mret (object [("type", jstr "session.output"); ("session_handle", jstr handle);
                     ("outputs", Array (render_output <$> outs)); ("closed", Bool false);
                     ("msg_id", echo_msg_id message)]).

Lemma relay_tail_alone w message agent handle input g x i p a e e' outs :
  tidy x → view x = sessions g → (∀ p, holder x !! p = None) → table x !! handle = Some p →
  heap x !! p = Some e → channel e' = p →
  agrees (relayed x i p a input e' (channel_read w p) outs) g message handle
    (run_alone 5 (relayed x i p a input e' (channel_read w p) outs) i
      {| role := TaskCommand agent handle input;
         stage := if closed (channel_read w p) then Ended outs (exit_code (channel_read w p))
                  else Done (ReplyOutput outs false None) |} (channel_env w p input))
    (relay_tail w message agent handle g p e' outs g).
Proof.
  intros Ht Hv Hh Hp He Hc. unfold relay_tail, mbind, M_bind, put_gw.
  set (x2 := relayed x i p a input e' (channel_read w p) outs).
  assert (view x2 = <[handle := e']> (sessions g)) as Hv2 by (rewrite <- Hv; by apply (view_with_entry x handle p e)).
  destruct (closed (channel_read w p)).
  - apply (agrees_after _ _ _ _ [] [] (set_sessions g (<[handle := e']> (sessions g))) x2);
      [by rewrite app_nil_r|done|]. apply end_alone; [|done|].
    + intros q e1. simpl. intros [[<- <-]|[_ H1']]%lookup_insert_Some; [done|by apply Ht].
    + intros q. simpl. apply lookup_delete_None. destruct (decide (q = p)) as [->|]; [by left|right].
      by rewrite lookup_insert_ne.
  - eexists _, _, [], _, []. split_and!; [done|done|done|by rewrite app_nil_r|done|apply answer_output].
Qed.

Lemma relay_handler w message agent handle g p e rem e' outs input :
  access (sessions g) handle agent (mono_clock w) = Ok (e, rem) → channel e = p → channel_write w p input = Ok tt →
  number_chunks (record_relay e (zlen input) (out_len (channel_read w p))) (chunks (channel_read w p)) = (outs, e') →
  input = match get_str message "input_b64" with Some b => base64_std_decode b | None => [] end →
  relay_command w message agent handle g =
    let '(v, g2, acts) := relay_tail w message agent handle g p e' outs g in (v, g2, [AWrite p input; ARead p] ++ acts).
Proof.
  intros Hac Hch Hw Hn Hin. unfold relay_command. rewrite <- Hin. clear Hin.
  destruct (relay_tail w message agent handle g p e' outs g) as [[v g2] acts] eqn:Htail.
  eapply (M_bind_run get_gw _ _ _ _ []); [done|]. rewrite Hac, Hch.
  eapply (M_bind_run (act _) _ _ _ _ [_]); [done|]. rewrite Hw.
  eapply (M_bind_run (act _) _ _ _ _ [_]); [done|].
  rewrite number_outputs_render. fold (out_len (channel_read w p)). by rewrite Hn.
Qed.

Lemma command_alone w message agent handle g x i :
  let input := match get_str message "input_b64" with Some b => base64_std_decode b | None => [] end in
  tidy x → view x = sessions g → (∀ p, holder x !! p = None) →
  agrees x g message handle
    (run_alone 8 x i {| role := TaskCommand agent handle input; stage := Begin |}
       (channel_env w (default 0%nat (table x !! handle)) input))
    (relay_command w message agent handle g).
Proof.
  intros input Ht Hv Hh.
  pose proof (access_views x g handle agent (mono_clock w) Hv) as Hac.
  erewrite alone_step by done. cbn [role stage task_step command_step now channel_env].
  destruct (access_arc x handle agent (mono_clock w)) as [p|[code reason]].
  2: { exists (error_response message code reason), g, []. eexists _, [].
       split_and!; try done; [|by rewrite app_nil_r|apply answer_error].
       unfold relay_command. eapply (M_bind_run get_gw _ _ _ _ []); [done|]. by rewrite Hac. }
  destruct Hac as (e & rem & Hp & He & Hac). rewrite Hp. cbn [default from_option].
  pose proof (proj1 Ht _ _ He) as Hch.
  destruct (channel_write w p input) as [[]|msg] eqn:Hw.
  2: { erewrite alone_step by (cbn; by rewrite (Hh p), Hw).
       eexists _, g, [AWrite p input], _, [EWrite i p (mono_clock w) input false].
       split_and!; [|done|done|done|done|apply answer_error].
       unfold relay_command. eapply (M_bind_run get_gw _ _ _ _ []); [done|]. fold input. rewrite Hac, Hch.
       eapply (M_bind_run (act _) _ _ _ _ [_]); [done|]. by rewrite Hw. }
  destruct (number_chunks (record_relay e (zlen input) (out_len (channel_read w p))) (chunks (channel_read w p)))
    as [outs e'] eqn:Hn.
  rewrite (exchange_alone 5 _ _ _ _ _ _ _ _ e outs e') by done. cbn [batch_read channel_env].
  assert (channel e' = p) as Hce'.
  { pose proof (number_chunks_channel (record_relay e (zlen input) (out_len (channel_read w p))) (chunks (channel_read w p))) as Hc.
    rewrite Hn in Hc. simpl in Hc. congruence. }
  rewrite (relay_handler w message agent handle g p e rem e' outs input) by done.
  eapply (agrees_after _ _ _ _ [EWrite i p (mono_clock w) input true; ERead i p (channel_read w p) outs]);
    [|done|by apply (relay_tail_alone w message agent handle input g x i p (mono_clock w) e)].
  simpl. by rewrite <- app_assoc.
Qed.

(** C17: The cut is faithful.  From any reachable state in which no channel is in
    use, a command or a close whose steps are taken with nothing between them
    agrees with the handler of [Gateway]: same table, the same writes, reads,
    shutdowns and close records in the same order, and the same answer. *)
Theorem frame_alone w kind message agent handle g x i :
  reachable x → view x = sessions g → (∀ p, holder x !! p = None) →
  let input := match get_str message "input_b64" with Some b => base64_std_decode b | None => [] end in
  agrees x g message handle
    (run_alone 8 x i {| role := frame_role kind message agent handle; stage := Begin |}
       (channel_env w (default 0%nat (table x !! handle)) input))
    (frame_handler w kind message agent handle g).
Proof.
  intros Hr%reachable_tidy Hv Hh. destruct kind; [by apply command_alone|by apply close_alone].
Qed.
End Serial.

#[local] Existing Instance toy_base64.
#[local] Existing Instance toy_ed25519.
#[local] Existing Instance toy_serde.
#[local] Existing Instance toy_serde_line.
#[local] Existing Instance toy_json.
#[local] Existing Instance toy_sha256.
#[local] Existing Instance toy_time.
#[local] Existing Instance toy_debug.
#[local] Existing Instance toy_ssh.

Lemma frame_alone_witness :
  let x := run_schedule [MOpen "a" (100 * NANOS) 0 "r" 4] in
  let g := set_sessions (toy_gateway []) (view x) in
  agrees x g Null (handle_of "r")
    (run_alone 8 x 0 {| role := TaskCommand "a" (handle_of "r") []; stage := Begin |}
       (channel_env (toy_world "s" Approved) (default 0%nat (table x !! handle_of "r")) []))
    (relay_command (toy_world "s" Approved) Null "a" (handle_of "r") g).
Proof.
  intros x g. apply (frame_alone (toy_world "s" Approved) Command Null "a" (handle_of "r") g x 0).
  - apply run_schedule_reachable.
  - reflexivity.
  - intros p. apply lookup_empty.
Defined.
