(* ===== verification/Guard.v ===== *)
(** The policy-integrity guard: [crates/gateway-core/src/policy_guard.rs].

    The permission gate at load time, the observation of the policy file at
    each tick of the watch, and what a confirmed drift does: halt, one signed
    record, one broadcast.  The file at each tick is given by what reading it
    returns. *)

From S2P Require Import Prelude Strs Json Extern Toy Protocol Matcher Policy Enrollment Replay Identity.
From S2P Require Import AuditChain Session SshCa Gateway Scenarios.
#[local] Open Scope Z_scope.

(** [default_watch_interval], in seconds. *)
Definition default_watch_interval : Z := 5.

(** [{:04o}] of a number below [0o10000]: its four octal digits. *)
Definition octal4 (m : Z) : str :=
  [zb (48 + m / 512 mod 8); zb (48 + m / 64 mod 8); zb (48 + m / 8 mod 8); zb (48 + m mod 8)].

(** [verify_permissions] on unix, from the file's mode and owner; [path] is the
    displayed path. *)
Definition verify_permissions (path : str) (stat : result str (Z * Z)) (euid : Z) : result str unit :=
  match stat with
  | Err e => Err ("cannot stat " ++ path ++ ": " ++ e)
  | Ok (mode, uid) =>
      if negb (Z.land mode 18 =? 0) then
        Err (path ++ " is group/other-writable (mode " ++ octal4 (Z.land mode 4095) ++
             "); a policy file must be writable only by its owner. fix: chmod go-w " ++ path)
      else if negb (uid =? euid) then
        Err (path ++ " is owned by uid " ++ show uid ++ " but the gateway runs as uid " ++ show euid ++
             "; refusing a policy someone else controls")
      else Ok tt
  end.

Lemma land_18_zero m : Z.land m 18 = 0 ↔ Z.testbit m 1 = false ∧ Z.testbit m 4 = false.
Proof.
  split.
  - intros H. assert (Hb : ∀ n, Z.testbit m n && Z.testbit 18 n = false).
    { intros n. by rewrite <- Z.land_spec, H, Z.bits_0. }
    pose proof (Hb 1) as H1. pose proof (Hb 4) as H4. cbn in H1, H4. by rewrite !andb_true_r in *.
  - intros [H1 H4]. apply Z.bits_inj'. intros n Hn. rewrite Z.land_spec, Z.bits_0.
    destruct (decide (n = 1)) as [-> |]; [by rewrite H1|].
    destruct (decide (n = 4)) as [-> |]; [by rewrite H4|].
    apply andb_false_intro2. destruct (decide (4 < n)).
    + apply Z.bits_above_log2; [lia|]. by change (Z.log2 18) with 4.
    + assert (n = 0 ∨ n = 2 ∨ n = 3) as [-> | [-> | ->]] by lia; done.
Qed.

(** A policy file passes exactly when its owner is the gateway's user and
    neither the group (bit 4) nor others (bit 1) may write it. *)
Lemma verify_permissions_ok path mode uid euid :
  verify_permissions path (Ok (mode, uid)) euid = Ok tt ↔
  uid = euid ∧ Z.testbit mode 1 = false ∧ Z.testbit mode 4 = false.
Proof.
  unfold verify_permissions. rewrite <- land_18_zero.
  destruct (Z.eqb_spec (Z.land mode 18) 0), (Z.eqb_spec uid euid); simpl; naive_solver.
Qed.

Record Drift : Type := { observed_hash : str; detail : str }.

Inductive Observation : Type :=
| Consistent
| Unconfirmed
| DriftSeen (d : Drift).

(** What reading the policy file returned. *)
Inductive file_seen : Type :=
| SeenBytes (b : str)
| SeenMissing
| SeenUnreadable.

Section Guard.
Context `{Base64, Ed25519, SerdeText StoreFile, SerdeLine JournalLine, JsonText, Sha256, TimeApi,
          DebugFmt, SshKeys}.

(** [hash_doc_bytes]. *)
Definition hash_doc_bytes (bytes : str) : str := hex_bytes (sha256 bytes).

(** [PolicyWatch::check_once]. *)
Definition check_once (baseline : str) (f : file_seen) (prior_failures : Z) : Observation :=
  match f with
  | SeenBytes b =>
      let observed := hash_doc_bytes b in
      if decide (observed = baseline) then Consistent
      else DriftSeen {| observed_hash := observed; detail := "content changed" |}
  | SeenMissing => DriftSeen {| observed_hash := []; detail := "file missing" |}
  | SeenUnreadable =>
      if 1 <=? prior_failures then DriftSeen {| observed_hash := []; detail := "file unreadable" |}
      else Unconfirmed
  end.

(** [short]: the first sixteen characters. *)
Definition short (hex : str) : str := take_chars 16 hex.

Definition drift_reason (baseline : str) (d : Drift) : str :=
  "policy integrity guard: " ++ detail d ++ " (loaded " ++ short baseline ++ ", observed " ++
  short (observed_hash d) ++ ")".

Definition drift_event (baseline : str) (d : Drift) : AuditEvent :=
  {| record_kind := PolicyDrift; AuditChain.ruleset_hash := baseline; ev_agent_id := []; ev_sponsor_id := [];
     ev_msg_id := []; ev_mechanism := "policy"; ev_target_uri := []; ev_target_label := [];
     ev_cred_ref := []; ev_effect := []; ev_outcome := OutcomePolicyDrift (observed_hash d) (detail d);
     intent_envelope := Null |}.

(** [fire_drift]; [hub] says whether the watch has the event hub. *)
Definition fire_drift (w : World) (hub : bool) (baseline : str) (d : Drift) : M unit :=
  g ← get_gw;
  _ ← put_gw (halt g (drift_reason baseline d));
  seq ← append_event w (drift_event baseline d);
  if hub then
    act (ABroadcast (object [("type", jstr "policy_drift"); ("audit_id", jstr ("aud_" ++ show (default 0 seq)));
                             ("ruleset_hash", jstr baseline); ("observed_hash", jstr (observed_hash d));
                             ("detail", jstr (detail d)); ("halted", Bool true)]))
  else mret tt.

(** One tick of [PolicyWatch::run]; the count of failures so far is passed on. *)
Definition watch_tick (w : World) (hub : bool) (baseline : str) (f : file_seen) (failures : Z) : M Z :=
  g ← get_gw;
  if halted g then mret failures
  else match check_once baseline f failures with
       | Consistent => mret 0
       | Unconfirmed => mret (failures + 1)
       | DriftSeen d => _ ← fire_drift w hub baseline d; mret failures
       end.

Fixpoint watch_run (hub : bool) (baseline : str) (ticks : list (World * file_seen)) (failures : Z) : M Z :=
  match ticks with
  | [] => mret failures
  | (w, f) :: rest => n ← watch_tick w hub baseline f failures; watch_run hub baseline rest n
  end.

(** ** Properties *)

(** The observations that must stop the gateway: changed content, a missing
    file, or two unreadable ticks in a row ([streak] unreadable already). *)
Fixpoint tampered (baseline : str) (fs : list file_seen) (streak : bool) : bool :=
  match fs with
  | [] => false
  | SeenBytes b :: rest => bool_decide (hash_doc_bytes b ≠ baseline) || tampered baseline rest false
  | SeenMissing :: _ => true
  | SeenUnreadable :: rest => streak || tampered baseline rest true
  end.

Lemma watch_halted hub baseline ticks n g :
  halted g = true → watch_run hub baseline ticks n g = (Some n, g, []).
Proof.
  intros Hh. induction ticks as [|[w f] ticks IH]; [done|]. cbn [watch_run].
  unfold watch_tick, get_gw, mbind, M_bind. rewrite Hh. cbv beta iota. simpl. by rewrite IH.
Qed.

Lemma fire_drift_run w hub baseline d g : halt_reason g = None →
  ∃ g' t, fire_drift w hub baseline d g = (Some tt, g', t) ∧ recorded w g (drift_event baseline d) g' t ∧
    halted g' = true ∧ halt_reason g' = Some (drift_reason baseline d).
Proof.
  intros Hn. unfold fire_drift, get_gw, put_gw, act, mbind, M_bind, mret, M_ret.
  unfold halt. rewrite Hn. cbv beta iota.
  match goal with |- context [append_event w ?ev ?g0] =>
    destruct (append_event_run w ev g0) as (seq & r & a & Ha & ->);
    pose proof (append_recorded w ev g0 r a) as Hrec end.
  destruct hub; eexists _, _; (split; [reflexivity|]); (split; [by apply Hrec|done]).
Qed.

(** What a run of the watch leaves behind. *)
Definition watch_post (baseline : str) (ws : list World) (bad : bool) (g g' : Gateway) (t : list action) : Prop :=
  halted g' = bad ∧
  (if bad then ∃ w ev, w ∈ ws ∧ record_kind ev = PolicyDrift ∧ AuditChain.ruleset_hash ev = baseline ∧
                       recorded w g ev g' t
   else unrecorded g g' t) ∧
  (bad = true → ∃ reason, halt_reason g' = Some reason).

Lemma watch_run_post hub baseline ticks : ∀ n g,
  0 ≤ n → halted g = false → halt_reason g = None →
  ∃ n' g' t, watch_run hub baseline ticks n g = (Some n', g', t) ∧
    watch_post baseline ticks.*1 (tampered baseline ticks.*2 (1 <=? n)) g g' t.
Proof.
  induction ticks as [|[w f] ticks IH]; intros n g Hn Hh Hr.
  { exists n, g, []. split; [done|]. by split_and!. }
  assert (∀ d, check_once baseline f n = DriftSeen d →
    ∃ n' g' t, watch_run hub baseline ((w, f) :: ticks) n g = (Some n', g', t) ∧
      watch_post baseline (w :: ticks.*1) true g g' t) as Hbad.
  { intros d Hd. destruct (fire_drift_run w hub baseline d g Hr) as (g1 & t1 & Hf & Hrec & Hh1 & Hr1).
    cbn [watch_run]. unfold watch_tick, get_gw. unfold mbind, M_bind, mret, M_ret. rewrite Hh, Hd, Hf.
    rewrite (watch_halted hub baseline ticks n g1 Hh1). eexists _, _, _. split; [reflexivity|].
    rewrite !app_nil_r. split_and!; [done| |eauto]. exists w, (drift_event baseline d).
    split_and!; [by left|done|done|exact Hrec]. }
  assert (∀ bad g' t, watch_post baseline ticks.*1 bad g g' t → watch_post baseline (w :: ticks.*1) bad g g' t)
    as Hmore.
  { intros bad g' t (Hp1 & Hp2 & Hp3). split_and!; [done| |done]. destruct bad; [|done].
    destruct Hp2 as (w' & ev & Hin & Hev). exists w', ev. split; [by right|done]. }
  assert (∀ m, check_once baseline f n ≠ Unconfirmed → check_once baseline f n = Consistent → m = 0 →
    watch_run hub baseline ((w, f) :: ticks) n g = watch_run hub baseline ticks m g) as Hgood.
  { intros m _ Hc ->. cbn [watch_run]. unfold watch_tick, get_gw. unfold mbind, M_bind, mret, M_ret.
    rewrite Hh, Hc. simpl. by destruct (watch_run hub baseline ticks 0 g) as [[]]. }
  cbn [fmap list_fmap tampered]. destruct f as [b| |]; cbn [snd check_once] in *.
  - case_decide as Hb.
    + rewrite (Hgood 0) by done. rewrite bool_decide_eq_false_2 by (intros Hx; by apply Hx).
      destruct (IH 0 g) as (n' & g' & t & Hw & Hp); [lia|done|done|]. exists n', g', t. auto.
    + rewrite bool_decide_eq_true_2 by done. by eapply Hbad.
  - by eapply Hbad.
  - destruct (Z.leb_spec 1 n); [by eapply Hbad|]. clear Hbad Hgood. cbn [orb].
    destruct (IH (n + 1) g) as (n' & g' & t & Hw & Hp); [lia|done|done|].
    replace (1 <=? n + 1) with true in Hp by (symmetry; apply Z.leb_le; lia).
    exists n', g', t. split; [|by apply Hmore]. cbn [watch_run]. unfold watch_tick, get_gw. unfold mbind, M_bind, mret, M_ret.
    rewrite Hh. cbn [check_once]. destruct (Z.leb_spec 1 n); [lia|]. by rewrite Hw.
Qed.

(** C20: Drift always stops brokering, and only drift does.  From a running
    gateway, after any number of ticks, the gateway is halted exactly if some
    tick saw content with another hash, or no file, or an unreadable file
    twice in a row; then exactly one append was made, at one of those ticks,
    of a [policy_drift] event with the loaded hash (a record in the journal
    when that append succeeded; its failure is dropped and does not stop the
    halt), and from then on every message is refused without any action.
    Otherwise nothing was appended. *)
Theorem drift_stops_brokering hub baseline ticks g :
  halted g = false → halt_reason g = None →
  ∃ n g' t, watch_run hub baseline ticks 0 g = (Some n, g', t) ∧
    halted g' = tampered baseline ticks.*2 false ∧
    (if tampered baseline ticks.*2 false
     then ∃ w ev, w ∈ ticks.*1 ∧ record_kind ev = PolicyDrift ∧ AuditChain.ruleset_hash ev = baseline ∧
                  recorded w g ev g' t
     else unrecorded g g' t) ∧
    (tampered baseline ticks.*2 false = true → ∃ reason, ∀ w message,
       handle_message w message g' = (Some (error_response message "E_GATEWAY_HALTED" reason), g', [])).
Proof.
  intros Hh Hr. destruct (watch_run_post hub baseline ticks 0 g) as (n & g' & t & Hw & H1' & H2' & H4');
    [lia|done|done|]. simpl in *. exists n, g', t. split_and!; try done.
  intros Ht. destruct (H4' Ht) as [reason Hrr]. exists reason. intros w message.
  assert (halted g' = true) as Hx by (rewrite H1'; exact Ht).
  unfold handle_message, get_gw, mbind, M_bind. by rewrite Hx, Hrr.
Qed.

(** The loaded policy is consistent with its own file.  For a document
    that loads, the baseline the watch compares with is the hash of exactly
    that document, so an untouched file never counts as drift. *)
Theorem loaded_policy_is_consistent `{Toml} doc p n :
  from_toml doc = Ok p → check_once (source_hash_hex p) (SeenBytes doc) n = Consistent.
Proof.
  unfold from_toml. intros (file & _ & Hl)%result_bind_ok. apply result_bind_ok in Hl as (rs & _ & [= <-]).
  simpl. by rewrite decide_True.
Qed.
End Guard.

Section Witnesses.
#[local] Existing Instance toy_base64.
#[local] Existing Instance toy_ed25519.
#[local] Existing Instance toy_serde.
#[local] Existing Instance toy_serde_line.
#[local] Existing Instance toy_json.
#[local] Existing Instance toy_sha256.
#[local] Existing Instance toy_time.
#[local] Existing Instance toy_debug.
#[local] Existing Instance toy_ssh.

Definition toy_ticks : list (World * file_seen) :=
  let w := toy_world "s" Refused in
  [(w, SeenBytes "rules"); (w, SeenUnreadable); (w, SeenBytes "rules"); (w, SeenBytes "other"); (w, SeenMissing)].

Lemma drift_stops_brokering_witness :
  ∃ n g' t, watch_run true (hash_doc_bytes "rules") toy_ticks 0 (toy_gateway []) = (Some n, g', t) ∧
    halted g' = true ∧ length (attempts t) = 1%nat.
Proof.
  destruct (drift_stops_brokering true (hash_doc_bytes "rules") toy_ticks (toy_gateway []))
    as (n & g' & t & Hw & Hh & Ha & _); [reflexivity|reflexivity|].
  assert (tampered (hash_doc_bytes "rules") toy_ticks.*2 false = true) as Hbad by (vm_compute; reflexivity).
  rewrite Hbad in Hh, Ha. destruct Ha as (w & ev & _ & _ & _ & Hrec & _).
  exists n, g', t. split; [exact Hw|]. split; [exact Hh|]. rewrite Hrec. reflexivity.
Defined.

Definition toy_toml : Toml := {| toml_from_str _ := Ok {| file_rule := [] |}; toml_quote s := s |}.
#[local] Existing Instance toy_toml.

Lemma loaded_policy_is_consistent_witness :
  check_once (hash_doc_bytes "rules") (SeenBytes "rules") 0 = Consistent.
Proof.
  apply (loaded_policy_is_consistent "rules"
    {| rules := []; source_hash_hex := hash_doc_bytes "rules" |} 0). reflexivity.
Defined.
End Witnesses.
