(* ===== verification/Transport.v ===== *)
(** The local channel: [crates/transport/src/].

    [codec.rs]: Content-Length frames.  [message.rs]: JSON-object requests and
    the correlation id.  [server.rs]: the unary loop of one connection,
    [drive_connection], over an arbitrary handler with state.  A peer is the
    bytes it sends and the way its stream ends. *)

From S2P Require Import Prelude Strs Json Extern Toy.
#[local] Open Scope Z_scope.

(** ** codec.rs *)

Definition MAX_FRAME_BYTES : Z := 8 * 1024 * 1024.
Definition MAX_HEADER_BYTES : Z := 16 * 1024.
Definition CRLF : str := [Byte.x0d; Byte.x0a].
Definition HEADER_TERMINATOR : str := CRLF ++ CRLF.

Inductive FrameError : Type :=
| Closed
| FIo (e : str)
| MalformedHeader (why : str)
| HeaderTooLarge
| FrameTooLarge (n : Z)
| UnexpectedEof
| InvalidUtf8.

(** [Display for FrameError]. *)
Definition frame_error_str (e : FrameError) : str :=
  match e with
  | Closed => "connection closed"
  | FIo e => "transport i/o error: " ++ e
  | MalformedHeader why => "malformed frame header: " ++ why
  | HeaderTooLarge => "frame header exceeds " ++ show MAX_HEADER_BYTES ++ " bytes"
  | FrameTooLarge n => "declared frame of " ++ show n ++ " bytes exceeds hard limit of " ++ show MAX_FRAME_BYTES
  | UnexpectedEof => "connection ended mid-frame"
  | InvalidUtf8 => "frame body is not valid UTF-8"
  end.

(** How the peer's byte stream ends: [None] for end of file, else an error. *)
Definition ending : Type := option str.

(** [read_header]: byte by byte up to the blank line; also the bytes left. *)
Fixpoint read_header_from (buf input : str) (fin : ending) : result FrameError (str * str) :=
  match input with
  | [] => match fin with
          | Some e => Err (FIo e)
          | None => if is_empty buf then Err Closed else Err UnexpectedEof
          end
  | b :: rest =>
      let buf' := buf ++ [b] in
      if MAX_HEADER_BYTES <? zlen buf' then Err HeaderTooLarge
      else if ends_with HEADER_TERMINATOR buf' then Ok (buf', rest)
      else read_header_from buf' rest fin
  end.

Definition read_header (input : str) (fin : ending) : result FrameError (str * str) :=
  read_header_from [] input fin.

(** The loop of [parse_content_length] over the header lines. *)
Fixpoint content_length_lines (ls : list str) (found : option Z) : result FrameError (option Z) :=
  match ls with
  | [] => Ok found
  | line :: rest =>
      if is_empty line then content_length_lines rest found
      else match split_once Byte.x3a line with
           | None => Err (MalformedHeader "line without ':' separator")
           | Some (name, value) =>
               if eq_ignore_ascii_case (trim name) "content-length" then
                 match parse_uint u64_max (trim value) with
                 | None => Err (MalformedHeader "content-length is not a number")
                 | Some parsed =>
                     match found with
                     | Some _ => Err (MalformedHeader "duplicate content-length")
                     | None => content_length_lines rest (Some parsed)
                     end
                 end
               else content_length_lines rest found
           end
  end.

(** [parse_content_length]. *)
Definition parse_content_length (header : str) : result FrameError Z :=
  if utf8_valid header then
    found ← content_length_lines (split_str CRLF (trim_end_matches HEADER_TERMINATOR header)) None;
    ok_or found (MalformedHeader "missing content-length")
  else Err (MalformedHeader "header block is not ASCII").

(** [read_frame]: the limit is checked before the body is read. *)
Definition read_frame (input : str) (fin : ending) : result FrameError (str * str) :=
  '(header, rest) ← read_header input fin;
  n ← parse_content_length header;
  if MAX_FRAME_BYTES <? n then Err (FrameTooLarge n)
  else if zlen rest <? n then Err (match fin with Some e => FIo e | None => UnexpectedEof end)
  else
    let body := take (Z.to_nat n) rest in
    if utf8_valid body then Ok (body, drop (Z.to_nat n) rest) else Err InvalidUtf8.

(** [write_frame]: the bytes written. *)
Definition frame_header (n : Z) : str := "Content-Length: " ++ show n ++ HEADER_TERMINATOR.
Definition write_frame (payload : str) : str := frame_header (zlen payload) ++ payload.

(** *** Reading a header that was written *)

Lemma ends_with_last pat s b : ends_with (pat ++ [b]) (s ++ [b]) = ends_with pat s.
Proof. unfold ends_with. rewrite !reverse_snoc. simpl. by rewrite bool_decide_eq_true_2. Qed.

Lemma ends_with_last_ne pat s b c : b ≠ c → ends_with (pat ++ [b]) (s ++ [c]) = false.
Proof. intros Hn. unfold ends_with. rewrite !reverse_snoc. simpl. by rewrite bool_decide_eq_false_2. Qed.

(** Bytes other than a line feed never end the header. *)
Lemma read_header_plain h : ∀ buf rest fin, (Byte.x0a ∉ h) → zlen (buf ++ h) ≤ MAX_HEADER_BYTES →
  read_header_from buf (h ++ rest) fin = read_header_from (buf ++ h) rest fin.
Proof.
  induction h as [|b h IH]; intros buf rest fin Hn Hl; [by rewrite app_nil_r|].
  apply not_elem_of_cons in Hn as [Hb Hn]. cbn [app read_header_from].
  replace (buf ++ b :: h) with ((buf ++ [b]) ++ h) in Hl |- * by (by rewrite <- app_assoc).
  destruct (Z.ltb_spec MAX_HEADER_BYTES (zlen (buf ++ [b]))) as [Hlt|_].
  { exfalso. unfold zlen in *. rewrite !length_app in *. lia. }
  change HEADER_TERMINATOR with ((CRLF ++ [Byte.x0d]) ++ [Byte.x0a]).
  rewrite ends_with_last_ne by done. by apply IH.
Qed.

Lemma ends_with_in pat s b : b ∈ pat → ends_with pat s = true → b ∈ s.
Proof. intros Hb [r ->]%ends_with_spec. apply elem_of_app. by right. Qed.

Lemma header_too_short s : (Byte.x0a ∉ s) → ends_with HEADER_TERMINATOR (s ++ CRLF) = false.
Proof.
  intros Hn. change HEADER_TERMINATOR with (((CRLF ++ [Byte.x0d]) ++ [Byte.x0a])).
  change CRLF with ([Byte.x0d] ++ [Byte.x0a]) at 2. rewrite app_assoc, !ends_with_last.
  destruct (ends_with CRLF s) eqn:He; [|done]. destruct Hn. eapply ends_with_in; [|done]. vm_compute. set_solver.
Qed.

(** A header without a line feed, then the blank line. *)
Lemma read_header_block h rest fin : (Byte.x0a ∉ h) → zlen (h ++ HEADER_TERMINATOR) ≤ MAX_HEADER_BYTES →
  read_header (h ++ HEADER_TERMINATOR ++ rest) fin = Ok (h ++ HEADER_TERMINATOR, rest).
Proof.
  intros Hn Hl. unfold read_header.
  assert (∀ k, zlen k ≤ 4 → (MAX_HEADER_BYTES <? zlen (h ++ k)) = false) as Hfit.
  { intros k Hk. apply Z.ltb_ge. rewrite zlen_app in *. change (zlen HEADER_TERMINATOR) with 4 in Hl. lia. }
  assert (read_header_from [] (h ++ HEADER_TERMINATOR ++ rest) fin =
          read_header_from h (HEADER_TERMINATOR ++ rest) fin) as ->.
  { rewrite read_header_plain; [done|done|]. rewrite zlen_app in *. pose proof (zlen_nonneg HEADER_TERMINATOR).
    simpl. unfold zlen in *. simpl. lia. }
  change (HEADER_TERMINATOR ++ rest) with (Byte.x0d :: Byte.x0a :: Byte.x0d :: Byte.x0a :: rest).
  cbn [read_header_from]. rewrite <- !app_assoc. cbn [app].
  rewrite !Hfit by (vm_compute; discriminate).
  change HEADER_TERMINATOR with ((CRLF ++ [Byte.x0d]) ++ [Byte.x0a]) at 1.
  rewrite ends_with_last_ne by done.
  change (h ++ [Byte.x0d; Byte.x0a]) with (h ++ CRLF). rewrite (header_too_short h Hn).
  change (h ++ [Byte.x0d; Byte.x0a; Byte.x0d]) with (h ++ (CRLF ++ [Byte.x0d])). rewrite app_assoc.
  change HEADER_TERMINATOR with ((CRLF ++ [Byte.x0d]) ++ [Byte.x0a]) at 1.
  rewrite ends_with_last_ne by done.
  rewrite (proj2 (ends_with_spec HEADER_TERMINATOR (h ++ [Byte.x0d; Byte.x0a; Byte.x0d; Byte.x0a]))); [done|].
  by exists h.
Qed.

Lemma trim_fuel_step ws n s r : strip_one ws s = Some r → trim_fuel (S n) ws s = trim_fuel n ws r.
Proof. intros Hs. cbn [trim_fuel]. by rewrite Hs. Qed.

Lemma trim_terminator h : (Byte.x0a ∉ h) → trim_end_matches HEADER_TERMINATOR (h ++ HEADER_TERMINATOR) = h.
Proof.
  intros Hn. unfold trim_end_matches. rewrite reverse_app. rewrite length_app.
  change (length HEADER_TERMINATOR) with 4%nat. rewrite Nat.add_comm. change (4 + length h)%nat with (S (3 + length h)).
  rewrite (trim_fuel_step _ _ _ (reverse h)).
  2:{ unfold strip_one. cbn [find_map]. by rewrite (proj2 (strip_prefix_Some _ _ (reverse h))). }
  rewrite trim_fuel_stable; [apply reverse_involutive|]. unfold strip_one. cbn [find_map].
  rewrite (proj2 (strip_prefix_None _ _)); [done|].
  destruct (starts_with _ (reverse h)) eqn:He; [|done]. destruct Hn.
  apply starts_with_spec in He as [r Hr]. apply elem_of_reverse. rewrite Hr. apply elem_of_app. left.
  vm_compute. set_solver.
Qed.

Lemma split_str_none pat s b : b ∈ pat → (b ∉ s) → split_str pat s = [s].
Proof.
  intros Hb Hn. unfold split_str. destruct (length s); [done|]. simpl. unfold split_once_str.
  destruct (find pat s) as [i|] eqn:Hf; [|done]. exfalso.
  apply find_Some in Hf as (a & r & -> & _). apply Hn. set_solver.
Qed.

Lemma ascii_digits n : 0 ≤ n → Forall (λ b, graphic b = true) (show n).
Proof. intros Hn. eapply Forall_impl; [by apply show_digits|apply digit_graphic]. Qed.

Lemma graphic_not c s : graphic c = false → Forall (λ b, graphic b = true) s → c ∉ s.
Proof. intros Hc Hf Hin. rewrite Forall_forall in Hf. specialize (Hf c Hin). congruence. Qed.

Definition header_text (n : Z) : str := "Content-Length: " ++ show n.

Lemma header_text_plain n c : 0 ≤ n → (c = Byte.x0a ∨ c = Byte.x0d) → c ∉ header_text n.
Proof.
  intros Hn Hc. apply not_elem_of_app. split.
  - destruct Hc as [-> | ->]; vm_compute; set_solver.
  - apply graphic_not; [by destruct Hc as [-> | ->]|by apply ascii_digits].
Qed.

Lemma header_text_len n : 0 ≤ n ≤ u64_max → zlen (header_text n ++ HEADER_TERMINATOR) ≤ 85.
Proof.
  intros Hn. unfold header_text. rewrite !zlen_app.
  change (zlen "Content-Length: ") with 16. change (zlen HEADER_TERMINATOR) with 4.
  assert (∀ f m, zlen (show_fuel f m) ≤ Z.of_nat f + 1) as Hs.
  { induction f as [|f IH]; intros m; cbn [show_fuel]; [vm_compute; discriminate|].
    case_match; [unfold zlen; simpl; lia|]. specialize (IH (m / 10)). rewrite zlen_app. unfold zlen in *. simpl. lia. }
  assert (Z.log2 n ≤ 63).
  { transitivity (Z.log2 u64_max); [apply Z.log2_le_mono; lia|vm_compute; discriminate]. }
  specialize (Hs (S (Z.to_nat (Z.log2 n))) n). fold (show n) in Hs. pose proof (Z.log2_nonneg n). lia.
Qed.

Lemma header_text_short n : 0 ≤ n ≤ u64_max → zlen (header_text n ++ HEADER_TERMINATOR) ≤ MAX_HEADER_BYTES.
Proof. intros Hn. pose proof (header_text_len n Hn). unfold MAX_HEADER_BYTES. lia. Qed.

(** The lines of a written header. *)
Lemma header_lines n : 0 ≤ n →
  utf8_valid (frame_header n) = true ∧
  split_str CRLF (trim_end_matches HEADER_TERMINATOR (frame_header n)) = [header_text n].
Proof.
  intros Hn. unfold frame_header. rewrite app_assoc. fold (header_text n). split.
  - rewrite <- (app_nil_r (_ ++ _)), utf8_valid_ascii; [done|]. unfold header_text.
    apply Forall_app. split; [apply Forall_app; split|].
    + repeat constructor.
    + eapply Forall_impl; [apply ascii_digits; lia|]. intros b. destruct b; vm_compute; congruence.
    + repeat constructor.
  - rewrite trim_terminator by (apply header_text_plain; [lia|by left]).
    by rewrite (split_str_none _ _ Byte.x0d) by (first [vm_compute; set_solver | apply header_text_plain; [lia|by right]]).
Qed.

Lemma header_field n : split_once Byte.x3a (header_text n) = Some (("Content-Length" : str), Byte.x20 :: show n).
Proof. apply split_once_Some. split; [done|]. vm_compute. set_solver. Qed.

Lemma parse_written_header n : 0 ≤ n ≤ u64_max → parse_content_length (frame_header n) = Ok n.
Proof.
  intros Hn. unfold parse_content_length. destruct (header_lines n) as [-> ->]; [lia|].
  cbn [content_length_lines]. change (is_empty (header_text n)) with false. cbv iota. rewrite header_field.
  replace (eq_ignore_ascii_case (trim "Content-Length") "content-length") with true by (vm_compute; done).
  rewrite trim_space_graphic by (apply ascii_digits; lia). rewrite parse_uint_show by lia. done.
Qed.

(** A written frame is read back, whatever follows it. *)
Lemma read_written payload rest fin :
  utf8_valid payload = true → zlen payload ≤ MAX_FRAME_BYTES →
  read_frame (write_frame payload ++ rest) fin = Ok (payload, rest).
Proof.
  intros Hu Hl. pose proof (zlen_nonneg payload) as Hnn.
  assert (0 ≤ zlen payload ≤ u64_max) as Hr by (unfold MAX_FRAME_BYTES, u64_max in *; lia).
  unfold read_frame, write_frame, frame_header. fold (header_text (zlen payload)).
  replace ((("Content-Length: " ++ show (zlen payload) ++ HEADER_TERMINATOR) ++ payload) ++ rest)
    with (header_text (zlen payload) ++ HEADER_TERMINATOR ++ (payload ++ rest))
    by (unfold header_text; by rewrite <- !app_assoc).
  rewrite read_header_block by (first [apply header_text_plain; [lia|by left] | by apply header_text_short]).
  cbn [mbind result_bind]. unfold header_text. rewrite <- app_assoc.
  fold (frame_header (zlen payload)). rewrite parse_written_header by done. cbn [mbind result_bind].
  destruct (Z.ltb_spec MAX_FRAME_BYTES (zlen payload)); [lia|].
  destruct (Z.ltb_spec (zlen (payload ++ rest)) (zlen payload)) as [Hx|_].
  { rewrite zlen_app in Hx. pose proof (zlen_nonneg rest). lia. }
  unfold zlen. rewrite Nat2Z.id, take_app_length, drop_app_length, Hu. done.
Qed.

Lemma read_header_shape buf input fin h rest :
  read_header_from buf input fin = Ok (h, rest) →
  buf ++ input = h ++ rest ∧ zlen h ≤ MAX_HEADER_BYTES ∧ ends_with HEADER_TERMINATOR h = true ∧
  (length rest < length input)%nat.
Proof.
  revert buf. induction input as [|b input IH]; intros buf; cbn [read_header_from].
  { destruct fin; [done|]. by destruct (is_empty buf). }
  destruct (Z.ltb_spec MAX_HEADER_BYTES (zlen (buf ++ [b]))); [done|].
  destruct (ends_with HEADER_TERMINATOR (buf ++ [b])) eqn:He.
  - intros [= <- <-]. rewrite <- app_assoc. split_and!; [done|lia|done|simpl; lia].
  - intros (Hb & Hl & Ht & Hr)%IH. rewrite <- app_assoc in Hb. split_and!; [done..|simpl; lia].
Qed.

Lemma read_frame_shape input fin body rest :
  read_frame input fin = Ok (body, rest) →
  ∃ header, input = header ++ body ++ rest ∧ zlen header ≤ MAX_HEADER_BYTES ∧
    ends_with HEADER_TERMINATOR header = true ∧ parse_content_length header = Ok (zlen body) ∧
    zlen body ≤ MAX_FRAME_BYTES ∧ utf8_valid body = true ∧ (length rest < length input)%nat.
Proof.
  unfold read_frame. intros ([h r] & Hh & Hf)%result_bind_ok.
  apply read_header_shape in Hh as (Hi & Hl & He & Hr). simpl in Hi.
  apply result_bind_ok in Hf as (n & Hn & Hf).
  destruct (Z.ltb_spec MAX_FRAME_BYTES n); [done|]. destruct (Z.ltb_spec (zlen r) n); [done|].
  destruct (utf8_valid (take (Z.to_nat n) r)) eqn:Hu; [|done]. injection Hf as <- <-.
  assert (0 ≤ n).
  { unfold parse_content_length in Hn. destruct (utf8_valid h); [|done].
    apply result_bind_ok in Hn as ([m|] & Hc & Hn); [|done]. injection Hn as ->.
    assert (∀ ls found m, (∀ x, found = Some x → 0 ≤ x) → content_length_lines ls found = Ok (Some m) → 0 ≤ m) as Hg.
    { clear. induction ls as [|l ls IH]; intros found m Hf; cbn [content_length_lines].
      - intros [= ->]. by apply Hf.
      - destruct (is_empty l); [by apply IH|]. destruct (split_once _ l) as [[nm v]|]; [|done].
        destruct (eq_ignore_ascii_case _ _); [|by apply IH].
        destruct (parse_uint u64_max (trim v)) as [p|] eqn:Hp; [|done]. destruct found; [done|].
        apply IH. intros x [= <-]. by apply parse_uint_nonneg in Hp. }
    eapply Hg; [|exact Hc]. done. }
  exists h. rewrite take_drop. split_and!; try done.
  - rewrite Hn. f_equal. unfold zlen in *. rewrite length_take. lia.
  - unfold zlen in *. rewrite length_take. lia.
  - rewrite length_drop. lia.
Qed.

(** ** message.rs *)

Record Request : Type := { msg_id : option str; value : Value }.

Inductive MessageError : Type := NotAnObject | InvalidJson (e : str).

(** [Display for MessageError]. *)
Definition message_error_str (e : MessageError) : str :=
  match e with
  | NotAnObject => "message is not a JSON object"
  | InvalidJson e => "message is not valid JSON: " ++ e
  end.

(** [Request::reply]: the transport's correlation id wins. *)
Definition reply (r : Request) (response : Value) : Value :=
  match response with
  | Object m => match msg_id r with Some id => Object (map_insert "msg_id" (String id) m) | None => response end
  | _ => response
  end.

(** [transport_error_frame]. *)
Definition transport_error_frame (reason : str) : Value :=
  object [("type", jstr "error"); ("scope", jstr "transport"); ("reason", jstr reason)].

Section Connection.
Context `{JsonText}.

(** [Request::parse]. *)
Definition request_parse (text : str) : result MessageError Request :=
  v ← map_err InvalidJson (json_from_str text);
  if is_object v then Ok {| msg_id := get_str v "msg_id"; value := v |} else Err NotAnObject.

(** ** server.rs *)

Context {St : Type}.

(** A handler answers one request and may change its state; [None] is a
    panic, which ends the connection's task. *)
Definition Handler : Type := St → Request → option Value * St.

(** The handler that [cmd_serve] installs over the gateway: the response
    echoes the request's correlation id. *)
Definition serve_handler (handle_message : St → Value → option Value * St) : Handler :=
  λ s request, let '(r, s') := handle_message s (value request) in (reply request <$> r, s').

(** What a connection does: frames shown to the observer, frames written. *)
Inductive event : Type :=
| Observed (direction bytes : str)
| Wrote (bytes : str).

(** [answer_protocol_violation]. *)
Definition answer_protocol_violation (reason : str) : list event :=
  let frame := json_to_string (transport_error_frame reason) in
  if is_empty frame then [] else [Wrote (write_frame frame)].

Definition observe (observer : bool) (direction bytes : str) : list event :=
  if observer then [Observed direction bytes] else [].

(** [drive_connection]: one request, one response, until the peer closes or
    violates the protocol.  [peer_reads] says whether the peer still takes
    the response; [None] is fuel exhausted. *)
Fixpoint drive_connection (fuel : nat) (handler : Handler) (observer : bool) (peer_reads : str → bool)
    (s : St) (input : str) (fin : ending) : option (list event * St) :=
  match fuel with
  | O => None
  | S k =>
      match read_frame input fin with
      | Err Closed => Some ([], s)
      | Err e => Some (answer_protocol_violation (frame_error_str e), s)
      | Ok (text, rest) =>
          match request_parse text with
          | Err _ => Some (observe observer "request" text ++
                           answer_protocol_violation "frame payload is not a JSON object", s)
          | Ok request =>
              match handler s request with
              | (None, s') => Some (observe observer "request" text, s')
              | (Some response, s') =>
                  let payload := json_to_string response in
                  let here := observe observer "request" text ++ observe observer "response" payload ++
                              [Wrote (write_frame payload)] in
                  if peer_reads payload then
                    '(evs, s2) ← drive_connection k handler observer peer_reads s' rest fin;
                    Some (here ++ evs, s2)
                  else Some (here, s')
              end
          end
      end
  end.

(** ** Properties *)

Lemma drive_total fuel handler observer peer_reads s input fin :
  (length input < fuel)%nat →
  is_Some (drive_connection fuel handler observer peer_reads s input fin).
Proof.
  revert s input. induction fuel as [|k IH]; intros s input Hl; [lia|]. cbn [drive_connection].
  destruct (read_frame input fin) as [[text rest]|e] eqn:Hr; [|destruct e; eauto].
  destruct (request_parse text) as [request|]; [|eauto]. destruct (handler s request) as [[response|] s']; [|eauto].
  cbv zeta. destruct (peer_reads _); [|eauto].
  apply read_frame_shape in Hr as (_ & _ & _ & _ & _ & _ & _ & Hlt).
  destruct (IH s' rest) as [[evs s2] ->]; [lia|]. simpl. eauto.
Qed.

(** Fuel for the loop: on every finite input one more than the number of bytes
    is enough, since each request consumes at least one byte.  (The handler is
    a function here; a call that never returns is in [Endpoint].) *)
Theorem connection_terminates handler observer peer_reads s input fin :
  ∃ evs s', drive_connection (S (length input)) handler observer peer_reads s input fin = Some (evs, s').
Proof. destruct (drive_total (S (length input)) handler observer peer_reads s input fin) as [[evs s'] He]; eauto. Qed.

(** The requests of a conversation: texts that parse, small enough to frame. *)
Definition well_formed (t : str * Request) : Prop :=
  request_parse t.1 = Ok t.2 ∧ utf8_valid t.1 = true ∧ zlen t.1 ≤ MAX_FRAME_BYTES.

(** Answering requests in order. *)
Fixpoint converse (handler : Handler) (observer : bool) (s : St) (ts : list (str * Request))
  : option (list event * St) :=
  match ts with
  | [] => Some ([], s)
  | (text, request) :: rest =>
      match handler s request with
      | (None, _) => None
      | (Some response, s1) =>
          '(evs, s2) ← converse handler observer s1 rest;
          Some (observe observer "request" text ++
                observe observer "response" (json_to_string response) ++
                [Wrote (write_frame (json_to_string response))] ++ evs, s2)
      end
  end.

Lemma drive_converse handler observer ts : ∀ s tail fin fuel evs s',
  Forall well_formed ts → converse handler observer s ts = Some (evs, s') →
  drive_connection (length ts + fuel) handler observer (λ _, true) s
    (mjoin ((λ t, write_frame t.1) <$> ts) ++ tail) fin =
  ('(evs2, s2) ← drive_connection fuel handler observer (λ _, true) s' tail fin; Some (evs ++ evs2, s2)).
Proof.
  induction ts as [|[text request] ts IH]; intros s tail fin fuel evs s' Hw Hc.
  { injection Hc as <- <-. simpl. by destruct (drive_connection _ _ _ _ _ _ _) as [[]|]. }
  apply Forall_cons in Hw as [(Hp & Hu & Hl) Hw]. cbn [converse] in Hc. simpl in Hp, Hu, Hl.
  destruct (handler s request) as [[response|] s1] eqn:Hh; [|done].
  destruct (converse handler observer s1 ts) as [[evs1 s2]|] eqn:Hc1; [|done]. injection Hc as <- <-.
  cbn [length Nat.add drive_connection fmap list_fmap mjoin list_join fst]. rewrite <- app_assoc.
  rewrite read_written by done. rewrite Hp, Hh. cbv zeta iota.
  rewrite (IH _ _ _ _ _ _ Hw Hc1).
  destruct (drive_connection fuel _ _ _ _ _ _) as [[evs2 s3]|]; [|done]. simpl. by rewrite <- !app_assoc.
Qed.

(** C39: Request and response in step.  When a peer that reads sends well-formed
    requests, each of which the handler answers, and then anything that is not
    a frame, the handler gets exactly
    those requests, in order; the peer gets exactly its responses, in order,
    and after them one transport error frame, or nothing if it closed at a
    frame boundary.  Nothing after the violation reaches the handler. *)
Theorem conversation handler observer ts s tail fin evs s' e :
  Forall well_formed ts → converse handler observer s ts = Some (evs, s') →
  read_frame tail fin = Err e →
  ∀ fuel, (length ts < fuel)%nat →
  drive_connection fuel handler observer (λ _, true) s (mjoin ((λ t, write_frame t.1) <$> ts) ++ tail) fin =
  Some (evs ++ match e with Closed => [] | _ => answer_protocol_violation (frame_error_str e) end, s').
Proof.
  intros Hw Hc He fuel Hf. replace fuel with (length ts + S (fuel - length ts - 1))%nat by lia.
  rewrite (drive_converse _ _ _ _ _ _ _ _ _ Hw Hc). cbn [drive_connection]. rewrite He. by destruct e.
Qed.
End Connection.

(** C38: Frames round trip exactly.  A written frame is read back with what
    follows it untouched; and whatever [read_frame] returns was on the wire
    behind a header of at most 16 KiB whose only content length is the length
    of the body, a UTF-8 text of at most 8 MiB. *)
Theorem frames_exact input fin body rest :
  (∀ payload, utf8_valid payload = true → zlen payload ≤ MAX_FRAME_BYTES →
     read_frame (write_frame payload ++ input) fin = Ok (payload, input)) ∧
  (read_frame input fin = Ok (body, rest) →
   ∃ header, input = header ++ body ++ rest ∧ zlen header ≤ MAX_HEADER_BYTES ∧
     parse_content_length header = Ok (zlen body) ∧ zlen body ≤ MAX_FRAME_BYTES ∧ utf8_valid body = true).
Proof.
  split; [intros payload Hu Hl; by apply read_written|].
  intros (h & ? & ? & ? & ? & ? & ? & ?)%read_frame_shape. by exists h.
Qed.

(** An oversized frame is refused unread.  A declared length above 8 MiB
    is answered with that very length, whatever bytes follow the header and
    even if none do. *)
Theorem oversized_refused_unread n rest fin :
  MAX_FRAME_BYTES < n ≤ u64_max → read_frame (frame_header n ++ rest) fin = Err (FrameTooLarge n).
Proof.
  intros Hn. assert (0 ≤ n ≤ u64_max) as Hr by (unfold MAX_FRAME_BYTES in *; lia).
  unfold read_frame, frame_header. fold (header_text n).
  replace (("Content-Length: " ++ show n ++ HEADER_TERMINATOR) ++ rest)
    with (header_text n ++ HEADER_TERMINATOR ++ rest) by (unfold header_text; by rewrite <- !app_assoc).
  rewrite read_header_block by (first [apply header_text_plain; [lia|by left] | by apply header_text_short]).
  cbn [mbind result_bind]. unfold header_text. rewrite <- app_assoc. fold (frame_header n).
  rewrite parse_written_header by done. cbn [mbind result_bind]. destruct (Z.ltb_spec MAX_FRAME_BYTES n); [done|lia].
Qed.

Section Witnesses.
#[local] Existing Instance toy_json.

Definition toy_text : str := json_to_string (Object [("msg_id", String "m1")]).
Definition toy_request : Request := {| msg_id := Some "m1"; value := Object [("msg_id", String "m1")] |}.
(** Answers with the number of requests seen, under a forged correlation id. *)
Definition toy_handler : Handler (St := Z) :=
  serve_handler (λ n _, (Some (Object [("msg_id", String "forged"); ("n", jnum n)]), n + 1)).

Lemma conversation_witness :
  drive_connection 2 toy_handler false (λ _, true) 5 (write_frame toy_text ++ "x") None =
  Some ([Wrote (write_frame (json_to_string (Object [("msg_id", String "m1"); ("n", jnum 5)])));
         Wrote (write_frame (json_to_string (transport_error_frame "connection ended mid-frame")))], 6).
Proof.
  pose proof (conversation toy_handler false [(toy_text, toy_request)] 5 "x" None
    [Wrote (write_frame (json_to_string (Object [("msg_id", String "m1"); ("n", jnum 5)])))] 6 UnexpectedEof) as Hc.
  cbn [fmap list_fmap mjoin list_join fst] in Hc. rewrite app_nil_r in Hc. rewrite Hc.
  - vm_compute. reflexivity.
  - repeat constructor; vm_compute; congruence.
  - vm_compute. reflexivity.
  - vm_compute. reflexivity.
  - vm_compute. lia.
Defined.

Lemma frames_exact_witness : read_frame (write_frame "{}" ++ "rest") None = Ok ("{}" : str, "rest" : str).
Proof. apply (frames_exact "rest" None [] []); vm_compute; congruence. Defined.

Lemma oversized_refused_unread_witness :
  read_frame (frame_header 8388609 ++ []) None = Err (FrameTooLarge 8388609).
Proof. apply oversized_refused_unread. vm_compute. split; congruence. Defined.
End Witnesses.
