(* ===== verification/Endpoint.v ===== *)
(** Endpoints and the client: [crates/transport/src/server.rs] ([serve],
    [ServerHandle], the accept loops), [uds.rs], [named_pipe.rs], the bind and
    connect of [operator_pipe.rs], and [client.rs].

    The file system is a map from paths to what is there; a socket file is live
    while a process accepts on it.  Every system call comes with its outcome.
    The theorems say who can reach an endpoint, which files binding may
    replace, that connections do not disturb each other, and that client and
    server together are a procedure call. *)

From S2P Require Import Prelude Strs Json Extern Toy Transport.
#[local] Open Scope Z_scope.

(** ** Paths and files *)

Inductive node : Type :=
| NDir (mode : Z)
| NSock (live : bool) (mode : Z)
| NFile (text : str).

#[global] Instance node_eq_dec : EqDecision node.
Proof. solve_decision. Defined.

Abbreviation fs := (gmap str node).

(** [Path::parent], for paths without [.] components. *)
Definition path_parent (p : str) : option str :=
  let p' := trim_end_matches "/" p in
  if is_empty p' then None
  else match rsplit_once Byte.x2f p' with
       | None => Some []
       | Some (a, _) => let a' := trim_end_matches "/" a in Some (if is_empty a' then "/" else a')
       end.

(** The outcomes of the system calls of a bind: [None] is success.  A file is
    created with [new_mode], what the umask leaves of the default. *)
Record BindIo : Type := {
  mkdir_err : option str;
  chmod_dir_err : option str;
  unlink_err : option str;
  bind_err : option str;
  chmod_err : option str;
  new_mode : Z;
}.

Definition no_entry : str := "No such file or directory (os error 2)".

(** [std::fs::create_dir_all]: nothing to do for the empty path. *)
Fixpoint create_dirs (fuel : nat) (mode : Z) (f : fs) (p : str) : result str fs :=
  if is_empty p then Ok f
  else match f !! p with
       | Some (NDir _) => Ok f
       | Some _ => Err "File exists (os error 17)"
       | None =>
           match fuel, path_parent p with
           | S k, Some q => f' ← create_dirs k mode f q; Ok (<[p := NDir mode]> f')
           | _, _ => Err "failed to create whole tree"
           end
       end.
Definition create_dir_all (io : BindIo) (f : fs) (p : str) : result str unit * fs :=
  match mkdir_err io with
  | Some e => (Err e, f)
  | None => match create_dirs (S (length p)) (new_mode io) f p with Ok f' => (Ok tt, f') | Err e => (Err e, f) end
  end.

(** [std::fs::set_permissions]. *)
Definition set_permissions (err : option str) (mode : Z) (f : fs) (p : str) : result str unit * fs :=
  match err, f !! p with
  | Some e, _ => (Err e, f)
  | None, None => (Err no_entry, f)
  | None, Some (NDir _) => (Ok tt, <[p := NDir mode]> f)
  | None, Some (NSock l _) => (Ok tt, <[p := NSock l mode]> f)
  | None, Some (NFile t) => (Ok tt, f)
  end.

(** [std::fs::remove_file]. *)
Definition remove_file (err : option str) (f : fs) (p : str) : result str unit * fs :=
  match err, f !! p with
  | Some e, _ => (Err e, f)
  | None, None => (Err no_entry, f)
  | None, Some (NDir _) => (Err "Is a directory (os error 21)", f)
  | None, Some _ => (Ok tt, delete p f)
  end.

(** ** uds.rs *)

Definition owner_dir : Z := 0x1C0.
Definition owner_file : Z := 0x180.

Inductive BindError : Type :=
| BIo (e : str)
| AlreadyRunning (endpoint : str)
| BUnsupported (requested : str).

(** [Display for BindError]. *)
Definition bind_error_str (e : BindError) : str :=
  match e with
  | BIo e => "failed to bind local channel: " ++ e
  | AlreadyRunning endpoint => "a live gateway already owns " ++ endpoint
  | BUnsupported requested => requested ++ " transport is not available on this platform"
  end.

(** [prepare_parent_dir]. *)
Definition prepare_parent_dir (io : BindIo) (f : fs) (path : str) : result str unit * fs :=
  match path_parent path with
  | None => (Err "socket path has no parent directory", f)
  | Some p =>
      match create_dir_all io f p with
      | (Err e, f1) => (Err e, f1)
      | (Ok _, f1) => set_permissions (chmod_dir_err io) owner_dir f1 p
      end
  end.

(** Whether a connection to the path is answered. *)
Definition answers (f : fs) (path : str) : bool := match f !! path with Some (NSock live _) => live | _ => false end.

(** [UnixListener::bind] and the permissions of the new socket; when they
    cannot be set the listener is dropped and its file stays. *)
Definition bind_listener (io : BindIo) (f : fs) (path : str) : result BindError unit * fs :=
  match bind_err io, f !! path with
  | Some e, _ => (Err (BIo e), f)
  | None, Some _ => (Err (BIo "Address already in use (os error 98)"), f)
  | None, None =>
      match set_permissions (chmod_err io) owner_file (<[path := NSock true (new_mode io)]> f) path with
      | (Ok _, f') => (Ok tt, f')
      | (Err e, _) => (Err (BIo e), <[path := NSock false (new_mode io)]> f)
      end
  end.

(** The rest of [bind] once the directory is there. *)
Definition bind_prepared (io : BindIo) (f : fs) (path : str) : result BindError unit * fs :=
  match f !! path with
  | None => bind_listener io f path
  | Some _ =>
      if answers f path then (Err (AlreadyRunning path), f)
      else match remove_file (unlink_err io) f path with
           | (Err e, f2) => (Err (BIo e), f2)
           | (Ok _, f2) => bind_listener io f2 path
           end
  end.

(** [uds::bind]. *)
Definition uds_bind (io : BindIo) (f : fs) (path : str) : result BindError unit * fs :=
  match prepare_parent_dir io f path with
  | (Err e, f1) => (Err (BIo e), f1)
  | (Ok _, f1) => bind_prepared io f1 path
  end.

(** ** server.rs *)

(** [ListenSpec]. *)
Inductive ListenSpec : Type :=
| UnixSocket (p : str)
| NamedPipe (name : str)
| TcpV4 (port : Z)
| TcpV6 (port : Z).

Record SocketAddr : Type := { ip : list Z; port_of : Z }.
Definition v4_loopback (port : Z) : SocketAddr := {| ip := [127; 0; 0; 1]; port_of := port |}.
Definition v6_loopback (port : Z) : SocketAddr := {| ip := [0; 0; 0; 0; 0; 0; 0; 1]; port_of := port |}.

(** The accept loop's task is left out of the handle. *)
Record ServerHandle : Type := { socket_path : option str; tcp_addr : option SocketAddr }.

(** What the machine is and does: the platform, the socket calls of a TCP bind
    (the local address of the listener, or the error of the first call
    that failed), and the creation of a pipe ([None]: permission denied). *)
Record Platform : Type := {
  is_unix : bool;
  is_windows : bool;
  tcp_bind : SocketAddr → result str SocketAddr;
  pipe_create : str → option (result str unit);
}.

(** [PipeListener::bind]. *)
Definition pipe_bind (plat : Platform) (name : str) : result BindError unit :=
  match pipe_create plat name with
  | Some (Ok _) => Ok tt
  | None => Err (AlreadyRunning name)
  | Some (Err e) => Err (BIo e)
  end.

Definition tcp_serve (plat : Platform) (addr : SocketAddr) : result BindError ServerHandle :=
  actual ← map_err BIo (tcp_bind plat addr);
  Ok {| socket_path := None;
        tcp_addr := Some (if port_of addr =? 0 then actual else addr) |}.

(** [serve]. *)
Definition transport_serve (plat : Platform) (io : BindIo) (f : fs) (spec : ListenSpec) : result BindError ServerHandle * fs :=
  match spec with
  | UnixSocket path =>
      if is_unix plat then
        match uds_bind io f path with
        | (Ok _, f') => (Ok {| socket_path := Some path; tcp_addr := None |}, f')
        | (Err e, f') => (Err e, f')
        end
      else (Err (BUnsupported "unix socket"), f)
  | NamedPipe name =>
      if is_windows plat then
        (_ ← pipe_bind plat name; Ok {| socket_path := None; tcp_addr := None |}, f)
      else (Err (BUnsupported "named pipe"), f)
  | TcpV4 port => (tcp_serve plat (v4_loopback port), f)
  | TcpV6 port => (tcp_serve plat (v6_loopback port), f)
  end.

(** [ServerHandle::shutdown]: the accept loop is aborted, which closes the
    listener, and the socket file is removed, if it can be. *)
Definition close_listener (f : fs) (path : str) : fs :=
  match f !! path with Some (NSock _ m) => <[path := NSock false m]> f | _ => f end.
Definition shutdown (unlink : option str) (f : fs) (h : ServerHandle) : fs :=
  match socket_path h with
  | Some p => (remove_file unlink (close_listener f p) p).2
  | None => f
  end.

(** ** named_pipe.rs *)

(** [PipeListener]: whether an instance is armed. *)
Record PipeListener : Type := { pipe_name : str; armed : bool }.

(** [PipeListener::next_client]: whether the client's connection succeeded,
    whether the next instance could be created. *)
Definition next_client (connected created : bool) (l : PipeListener) : bool * PipeListener :=
  if armed l then
    if connected then (true, {| pipe_name := pipe_name l; armed := created |})
    else (false, {| pipe_name := pipe_name l; armed := false |})
  else (false, l).

(** [accept_windows_pipe]: the clients served, until [next_client] gives none. *)
Fixpoint accept_windows_pipe (l : PipeListener) (clients : list (bool * bool)) : nat :=
  match clients with
  | [] => 0
  | (connected, created) :: rest =>
      let '(some, l') := next_client connected created l in
      if some then S (accept_windows_pipe l' rest) else 0
  end.

(** What opening a pipe returns; the pipe may have no free instance. *)
Inductive pipe_open : Type := Opened | Busy | OpenFailed (e : str).
Definition MAX_ATTEMPTS : nat := 50.
Definition pipe_busy : str := "All pipe instances are busy. (os error 231)".

(** [named_pipe::connect], and [OperatorStream::connect_name] on Windows: the
    outcome of each attempt is given; [attempts] is how many were busy. *)
Fixpoint pipe_connect_from (fuel attempts : nat) (outcome : nat → pipe_open) : result str nat :=
  match outcome attempts with
  | Opened => Ok attempts
  | OpenFailed e => Err e
  | Busy => if (MAX_ATTEMPTS <=? S attempts)%nat then Err pipe_busy
            else match fuel with O => Err pipe_busy | S k => pipe_connect_from k (S attempts) outcome end
  end.
Definition pipe_connect (outcome : nat → pipe_open) : result str nat := pipe_connect_from MAX_ATTEMPTS 0 outcome.

(** ** operator_pipe.rs, on unix *)

(** [interprocess]: the name of an endpoint, and the creation of a listener
    that may replace a dead one. *)
Class LocalSockets := {
  fs_name : str → result str unit;
  create_sync : BindIo → fs → str → result str fs;
  create_makes_socket : ∀ io f p f', create_sync io f p = Ok f' → f' = <[p := NSock true (new_mode io)]> f;
}.

(** [OperatorListener::bind]: a live peer is left alone. *)
Definition operator_bind `{LocalSockets} (busy_msg : str → str) (io : BindIo) (f : fs) (printname : str)
  : result str unit * fs :=
  match fs_name printname with
  | Err e => (Err e, f)
  | Ok _ =>
      if answers f printname then (Err (busy_msg printname), f)
      else match create_sync io f printname with
           | Err e => (Err e, f)
           | Ok f1 =>
               match set_permissions (chmod_err io) owner_file f1 printname with
               | (Ok _, f2) => (Ok tt, f2)
               | (Err e, _) => (Err e, <[printname := NSock false (new_mode io)]> f1)
               end
           end
  end.

(** [EventHub::listen] and [ConsoleHub::spawn], up to the acceptor thread they
    start on the listener. *)
Definition events_listen `{LocalSockets} (io : BindIo) (f : fs) (name : str) : result str unit * fs :=
  if utf8_valid name then
    let '(r, f') := operator_bind (λ p, "a live event feed already owns " ++ p) io f name in
    (map_err (λ e, "events bind: " ++ e) r, f')
  else (Err ("events endpoint path is not valid UTF-8: " ++ from_utf8_lossy name), f).

Definition console_spawn `{LocalSockets} (io : BindIo) (f : fs) (name : str) : result str unit * fs :=
  if utf8_valid name then
    let '(r, f') := operator_bind (λ p, "a live console already owns " ++ p) io f name in
    (map_err (λ e, "console bind: " ++ e) r, f')
  else (Err ("console endpoint path is not valid UTF-8: " ++ from_utf8_lossy name), f).

(** [OperatorStream::connect]. *)
Definition operator_connect `{LocalSockets} (f : fs) (printname : str) : result str unit :=
  _ ← fs_name printname;
  if answers f printname then Ok tt
  else Err (if bool_decide (is_Some (f !! printname)) then "Connection refused (os error 111)" else no_entry).

(** ** client.rs *)

Inductive ClientError : Type :=
| CConnect (e : str)
| CUnsupported (requested : str)
| CFrame (e : FrameError)
| CMessage (e : MessageError)
| CSerialization (e : str).

(** [Display for ClientError]. *)
Definition client_error_str (e : ClientError) : str :=
  match e with
  | CConnect e => "connect failed: " ++ e
  | CUnsupported requested => requested ++ " transport is not available on this platform"
  | CFrame e => "framing error: " ++ frame_error_str e
  | CMessage e => "invalid response message: " ++ message_error_str e
  | CSerialization e => "failed to serialize request: " ++ e
  end.

(** What a client reached. *)
Inductive reached : Type := AtSocket (p : str) | AtPipe (name : str) | AtTcp (a : SocketAddr).

(** [Connection::connect]. *)
Definition client_connect (plat : Platform) (f : fs) (pipe : nat → pipe_open) (tcp : SocketAddr → result str unit)
    (spec : ListenSpec) : result ClientError reached :=
  match spec with
  | UnixSocket p =>
      if is_unix plat then
        if answers f p then Ok (AtSocket p)
        else Err (CConnect (if bool_decide (is_Some (f !! p)) then "Connection refused (os error 111)" else no_entry))
      else Err (CUnsupported "unix socket")
  | NamedPipe name =>
      if is_windows plat then _ ← map_err CConnect (pipe_connect pipe); Ok (AtPipe name)
      else Err (CUnsupported "named pipe")
  | TcpV4 port => _ ← map_err CConnect (tcp (v4_loopback port)); Ok (AtTcp (v4_loopback port))
  | TcpV6 port => _ ← map_err CConnect (tcp (v6_loopback port)); Ok (AtTcp (v6_loopback port))
  end.

Section Client.
Context `{JsonText}.

(** [Connection::request]: the bytes sent, the answer, and what is left of the
    bytes the server sends. *)
Definition client_request (write : option str) (input : str) (fin : ending) (message : Value)
  : str * result ClientError Value * str :=
  let payload := json_to_string message in
  match write with
  | Some e => ([], Err (CFrame (FIo e)), input)
  | None =>
      match read_frame input fin with
      | Err e => (write_frame payload, Err (CFrame e), input)
      | Ok (text, rest) =>
          (write_frame payload, map_err CMessage (value <$> request_parse text), rest)
      end
  end.

(** A session of the client: one request after the other on one stream. *)
Fixpoint client_session (input : str) (fin : ending) (ms : list Value) : str * list (result ClientError Value) :=
  match ms with
  | [] => ([], [])
  | m :: rest =>
      let '(sent, answer, input') := client_request None input fin m in
      let '(sent', answers) := client_session input' fin rest in
      (sent ++ sent', answer :: answers)
  end.
End Client.

(** ** Who can reach an endpoint, and what binding replaces *)

Lemma create_dirs_keeps fuel mode : ∀ f p f', create_dirs fuel mode f p = Ok f' →
  (∀ x n, f !! x = Some n → f' !! x = Some n) ∧ (is_empty p = false → ∃ m, f' !! p = Some (NDir m)).
Proof.
  induction fuel as [|k IH]; intros f p f'; cbn [create_dirs]; (destruct (is_empty p) eqn:Hp; [by intros [= <-]|]);
    destruct (f !! p) as [[m|l m|t]|] eqn:Hf; try done; try (intros [= <-]; split; [done|eauto]).
  destruct (path_parent p) as [q|]; [|done]. intros (f1 & H1 & [= <-])%result_bind_ok.
  apply IH in H1 as [Hk _]. split.
  - intros x n Hx. destruct (decide (x = p)) as [->|Hne]; [congruence|]. rewrite lookup_insert_ne by done. by apply Hk.
  - intros _. exists mode. by rewrite lookup_insert_eq.
Qed.

Lemma create_dir_all_keeps io f p r f' : create_dir_all io f p = (r, f') →
  (∀ x n, f !! x = Some n → f' !! x = Some n) ∧ (r = Ok tt → is_empty p = false → ∃ m, f' !! p = Some (NDir m)).
Proof.
  unfold create_dir_all. destruct (mkdir_err io); [by intros [= <- <-]|].
  destruct (create_dirs _ _ _ _) as [f1|e] eqn:Hc; intros [= <- <-]; [|done]. apply create_dirs_keeps in Hc as [? ?]. auto.
Qed.

Lemma set_permissions_ok err mode f p f' : set_permissions err mode f p = (Ok tt, f') →
  (∀ x, x ≠ p → f' !! x = f !! x) ∧ is_Some (f !! p) ∧
  (∀ m, f !! p = Some (NDir m) → f' !! p = Some (NDir mode)) ∧
  (∀ l m, f !! p = Some (NSock l m) → f' !! p = Some (NSock l mode)).
Proof.
  unfold set_permissions. destruct err; [done|]. destruct (f !! p) as [[m|l m|t]|] eqn:Hf; intros [= <-];
    (split_and!; [intros x Hx; by rewrite ?lookup_insert_ne|eauto| |]); intros; rewrite ?lookup_insert_eq; congruence.
Qed.

Lemma set_permissions_err err mode f p e f' : set_permissions err mode f p = (Err e, f') → f' = f.
Proof. unfold set_permissions. by destruct err; [intros [= _ <-]|destruct (f !! p) as [[]|]; intros [= _ <-]]. Qed.

(** Preparing the directory touches nothing else that exists. *)
Lemma prepare_keeps io f path r f1 : f !! [] = None → prepare_parent_dir io f path = (r, f1) →
  (∀ x n, f !! x = Some n → Some x ≠ path_parent path → f1 !! x = Some n) ∧
  (r = Ok tt → ∃ p, path_parent path = Some p ∧ f1 !! p = Some (NDir owner_dir)).
Proof.
  intros H0. unfold prepare_parent_dir. destruct (path_parent path) as [p|]; [|by intros [= <- <-]].
  destruct (create_dir_all io f p) as [[[]|e] f2] eqn:Hc.
  2:{ intros [= <- <-]. apply create_dir_all_keeps in Hc as [Hk _]. split; [auto|done]. }
  pose proof Hc as Hc'. apply create_dir_all_keeps in Hc as [Hk Hd]. intros Hs. destruct r as [[]|e].
  2:{ apply set_permissions_err in Hs as ->. split; [auto|done]. }
  apply set_permissions_ok in Hs as (Ho & Hp & Hdir & _). split.
  - intros x n Hx Hne. rewrite Ho by congruence. auto.
  - intros _. exists p. split; [done|]. destruct (is_empty p) eqn:He.
    + destruct p; [|done]. exfalso. unfold create_dir_all in Hc'. destruct (mkdir_err io); [done|].
      cbn in Hc'. injection Hc' as <-. by destruct Hp; congruence.
    + destruct (Hd eq_refl eq_refl) as [m Hm]. eauto.
Qed.

Lemma bind_listener_spec io f path r f' : bind_listener io f path = (r, f') →
  (∀ x, x ≠ path → f' !! x = f !! x) ∧ (r = Ok tt → f' !! path = Some (NSock true owner_file) ∧ f !! path = None).
Proof.
  unfold bind_listener. destruct (bind_err io); [by intros [= <- <-]|]. destruct (f !! path) eqn:Hf; [by intros [= <- <-]|].
  destruct (set_permissions _ _ _ _) as [[[]|e] f1] eqn:Hs; intros [= <- <-].
  - apply set_permissions_ok in Hs as (Ho & _ & _ & Hm). split.
    + intros x Hx. by rewrite Ho, lookup_insert_ne.
    + intros _. split; [|done]. eapply Hm. apply lookup_insert_eq.
  - split; [|done]. intros x Hx. by rewrite lookup_insert_ne.
Qed.

Lemma remove_file_spec err f p r f' : remove_file err f p = (r, f') →
  (∀ x, x ≠ p → f' !! x = f !! x) ∧ (r = Ok tt → f' !! p = None ∧ ∀ m, f !! p ≠ Some (NDir m)) ∧ (∀ e, r = Err e → f' = f).
Proof.
  unfold remove_file. destruct err; [by intros [= <- <-]; split_and!|].
  destruct (f !! p) as [[]|] eqn:Hf; intros [= <- <-]; split_and!; try done; intros;
    rewrite ?lookup_delete_ne, ?lookup_delete_eq by done; try done; split; congruence.
Qed.

(** A socket or file at the path itself is left by the preparation. *)
Lemma prepare_spares io f path r f1 n : prepare_parent_dir io f path = (r, f1) →
  f !! path = Some n → (∀ m, n ≠ NDir m) → f !! [] = None → f1 !! path = Some n.
Proof.
  intros Hp Hf Hn H0. destruct (decide (Some path = path_parent path)) as [Hs|Hs]; [|by apply (prepare_keeps io f path r f1)].
  revert Hp. unfold prepare_parent_dir. rewrite <- Hs. destruct (create_dir_all io f path) as [[[]|] f2] eqn:Hc.
  2:{ intros [= _ <-]. by apply create_dir_all_keeps in Hc as [Hk _]; apply Hk. }
  exfalso. destruct (is_empty path) eqn:He; [destruct path; [congruence|done]|].
  apply create_dir_all_keeps in Hc as [Hk Hd]. destruct (Hd eq_refl He) as [m Hm]. rewrite (Hk _ _ Hf) in Hm.
  injection Hm as ->. by eapply Hn.
Qed.

Lemma bind_prepared_spec io f path r f' : bind_prepared io f path = (r, f') →
  (r = Ok tt → f' !! path = Some (NSock true owner_file) ∧ ∀ m, f !! path ≠ Some (NDir m)) ∧
  (answers f path = true → f' = f ∧ ∃ e, r = Err e) ∧ (∀ x, x ≠ path → f' !! x = f !! x).
Proof.
  unfold bind_prepared. destruct (f !! path) as [n|] eqn:Hf.
  - destruct (answers f path) eqn:Ha; [intros [= <- <-]; split_and!; eauto; done|].
    destruct (remove_file _ f path) as [[[]|e] f2] eqn:Hr; apply remove_file_spec in Hr as (Ho & Hr1 & Hr2).
    + intros Hb. apply bind_listener_spec in Hb as [Hb1 Hb2]. split_and!; [|done|intros x Hx; by rewrite Hb1, Ho].
      intros ->. rewrite <- Hf. split; [by apply Hb2|by apply Hr1].
    + intros [= <- <-]. rewrite (Hr2 e eq_refl). by split_and!.
  - intros Hb. apply bind_listener_spec in Hb as [Hb1 Hb2]. split_and!; [|unfold answers; by rewrite Hf|done].
    intros ->. split; [by apply Hb2|done].
Qed.

Lemma uds_bind_ok io f path f' : f !! [] = None → uds_bind io f path = (Ok tt, f') →
  f' !! path = Some (NSock true owner_file) ∧ ∃ p, path_parent path = Some p ∧ p ≠ path ∧ f' !! p = Some (NDir owner_dir).
Proof.
  intros H0. unfold uds_bind. destruct (prepare_parent_dir io f path) as [[[]|] f1] eqn:Hp; [|done].
  destruct (prepare_keeps _ _ _ _ _ H0 Hp) as [_ Hd]. intros (Hb1 & _ & Hb3)%bind_prepared_spec.
  destruct (Hb1 eq_refl) as [Hs Hn], (Hd eq_refl) as (p & Hpp & Hm). split; [done|].
  assert (p ≠ path) as Hne by (intros ->; by eapply Hn). exists p. by rewrite Hb3.
Qed.

(** A gateway's socket is its owner's and nobody else's.  When a bind
    succeeds the socket is live with mode 0600, in a directory of mode 0700; an
    endpoint on which another process answers is refused and left as it is; and
    nothing that existed is touched besides the path itself and the mode of
    its directory, whichever system call fails. *)
Theorem bind_owner_only io f path r f' : f !! [] = None → uds_bind io f path = (r, f') →
  (r = Ok tt → f' !! path = Some (NSock true owner_file) ∧
     ∃ p, path_parent path = Some p ∧ p ≠ path ∧ f' !! p = Some (NDir owner_dir)) ∧
  (answers f path = true → f' !! path = f !! path ∧ ∃ e, r = Err e) ∧
  (∀ x n, f !! x = Some n → x ≠ path → Some x ≠ path_parent path → f' !! x = Some n).
Proof.
  intros H0 Hu. split; [intros ->; by eapply uds_bind_ok|]. revert Hu. unfold uds_bind.
  destruct (prepare_parent_dir io f path) as [r1 f1] eqn:Hp. destruct (prepare_keeps _ _ _ _ _ H0 Hp) as [Hk _].
  assert (answers f path = true → f1 !! path = f !! path ∧ answers f1 path = true) as Hlive.
  { unfold answers. destruct (f !! path) as [[|l m|]|] eqn:Hf; try done. intros ->.
    rewrite (prepare_spares _ _ _ _ _ _ Hp Hf) by done. done. }
  destruct r1 as [[]|e].
  - intros (_ & Hb2 & Hb3)%bind_prepared_spec. split.
    + intros [Ha1 Ha2]%Hlive. by destruct (Hb2 Ha2) as [-> ?].
    + intros x n Hx Hne Hpar. rewrite Hb3 by done. auto.
  - intros [= <- <-]. split; [|auto]. intros [Ha1 _]%Hlive. eauto.
Qed.

(** *** Binding again *)

Definition no_failures (io : BindIo) : Prop :=
  mkdir_err io = None ∧ chmod_dir_err io = None ∧ unlink_err io = None ∧ bind_err io = None ∧ chmod_err io = None.

Lemma create_dirs_there fuel mode f p m : f !! p = Some (NDir m) → create_dirs (S fuel) mode f p = Ok f.
Proof. intros Hp. cbn [create_dirs]. rewrite Hp. by destruct (is_empty p). Qed.

Lemma bind_listener_free io f path : no_failures io → f !! path = None → (bind_listener io f path).1 = Ok tt.
Proof. intros (_ & _ & _ & Hb & Hc) Hf. unfold bind_listener, set_permissions. by rewrite Hb, Hf, Hc, lookup_insert_eq. Qed.

(** In an existing directory, over nothing or over a dead socket or a file. *)
Lemma bind_succeeds io f path p m : no_failures io → path_parent path = Some p → p ≠ path → f !! p = Some (NDir m) →
  answers f path = false → (∀ m, f !! path ≠ Some (NDir m)) → (uds_bind io f path).1 = Ok tt.
Proof.
  intros Hio Hpp Hne Hp Ha Hd. pose proof Hio as (H1 & H2 & H3 & _). unfold uds_bind, prepare_parent_dir.
  rewrite Hpp. unfold create_dir_all. rewrite H1, (create_dirs_there _ _ _ _ _ Hp). unfold set_permissions. rewrite H2, Hp.
  unfold bind_prepared, answers, remove_file. rewrite H3, !lookup_insert_ne by done. unfold answers in Ha.
  destruct (f !! path) as [[|l ?|]|] eqn:Hf; [by destruct (Hd mode)| | |]; rewrite ?Ha;
    apply bind_listener_free; rewrite ?lookup_delete_eq, ?lookup_insert_ne; done.
Qed.

(** A gateway can start again where one ran: after a crash, which leaves the
    socket file, and after a shutdown, whether or not that removed it. *)
Theorem rebind io io' f path f1 unlink : f !! [] = None → uds_bind io f path = (Ok tt, f1) → no_failures io' →
  (uds_bind io' (close_listener f1 path) path).1 = Ok tt ∧
  (uds_bind io' (shutdown unlink f1 {| socket_path := Some path; tcp_addr := None |}) path).1 = Ok tt.
Proof.
  intros H0 Hb Hio. destruct (uds_bind_ok _ _ _ _ H0 Hb) as (Hs & p & Hpp & Hne & Hp).
  assert (∀ f2, f2 !! p = f1 !! p → answers f2 path = false → (∀ m, f2 !! path ≠ Some (NDir m)) → (uds_bind io' f2 path).1 = Ok tt) as Hre.
  { intros f2 Hp2 Ha Hd. eapply bind_succeeds; [done..|by rewrite Hp2|done|done]. }
  unfold shutdown, close_listener, remove_file. cbn [socket_path]. rewrite Hs, !lookup_insert_eq.
  split; [|destruct unlink; cbn [snd]]; apply Hre; unfold answers;
    rewrite ?lookup_insert_ne, ?lookup_insert_eq, ?lookup_delete_ne, ?lookup_delete_eq, ?lookup_insert_ne by done; done.
Qed.

(** A file that is no socket does not answer either: binding to its path
    deletes it. *)
Theorem bind_deletes_file io f path p m t : f !! [] = None → no_failures io → path_parent path = Some p → p ≠ path →
  f !! p = Some (NDir m) → f !! path = Some (NFile t) →
  (uds_bind io f path).1 = Ok tt ∧ (uds_bind io f path).2 !! path = Some (NSock true owner_file).
Proof.
  intros H0 Hio Hpp Hne Hp Hf. assert ((uds_bind io f path).1 = Ok tt) as Hok.
  { eapply bind_succeeds; try done; [unfold answers; by rewrite Hf|intros m'; by rewrite Hf]. }
  split; [done|]. destruct (uds_bind io f path) as [r f'] eqn:Hb. simpl in Hok. subst r.
  by destruct (uds_bind_ok _ _ _ _ H0 Hb) as [? _].
Qed.

(** *** Loopback only *)

Definition loopback (a : SocketAddr) : Prop := ip a = ip (v4_loopback 0) ∨ ip a = ip (v6_loopback 0).

(** No address but the loopback one is listened on or dialled, whatever the
    specification; a port that was asked for is the port. *)
Theorem loopback_only plat io f spec : (∀ a b, tcp_bind plat a = Ok b → ip b = ip a) →
  (∀ h a, (transport_serve plat io f spec).1 = Ok h → tcp_addr h = Some a → loopback a) ∧
  (∀ pipe tcp a, client_connect plat f pipe tcp spec = Ok (AtTcp a) → loopback a).
Proof.
  intros Hip.
  assert (∀ addr h a, loopback addr → tcp_serve plat addr = Ok h → tcp_addr h = Some a → loopback a) as Ht.
  { unfold tcp_serve, loopback. intros addr h a Hl. destruct (tcp_bind plat addr) as [b|] eqn:Hb; [|done].
    intros [= <-]. cbn [tcp_addr]. intros [= <-]. destruct (port_of addr =? 0); [|done]. by rewrite (Hip _ _ Hb). }
  split.
  - intros h a. destruct spec as [p|n|port|port]; cbn [transport_serve fst].
    + destruct (is_unix plat); [|done]. destruct (uds_bind io f p) as [[]]; [|done]. by intros [= <-].
    + destruct (is_windows plat); [|done]. cbn [fst]. destruct (pipe_bind plat n); [|done]. by intros [= <-].
    + apply Ht. by left.
    + apply Ht. by right.
  - intros pipe tcp a. destruct spec as [p|n|port|port]; cbn [client_connect].
    + destruct (is_unix plat), (answers f p); done.
    + destruct (is_windows plat); [|done]. by destruct (pipe_connect pipe).
    + destruct (tcp _); [|done]. intros [= <-]. by left.
    + destruct (tcp _); [|done]. intros [= <-]. by right.
Qed.

(** *** Named pipes *)

Lemma pipe_connect_spec outcome : ∀ fuel n, (MAX_ATTEMPTS <= fuel + n)%nat → (n < MAX_ATTEMPTS)%nat →
  match pipe_connect_from fuel n outcome with
  | Ok k => (n <= k < MAX_ATTEMPTS)%nat ∧ outcome k = Opened ∧ ∀ i, (n <= i < k)%nat → outcome i = Busy
  | Err e => (∃ k, (n <= k < MAX_ATTEMPTS)%nat ∧ outcome k = OpenFailed e ∧ ∀ i, (n <= i < k)%nat → outcome i = Busy) ∨
             (e = pipe_busy ∧ ∀ i, (n <= i < MAX_ATTEMPTS)%nat → outcome i = Busy)
  end.
Proof.
  induction fuel as [|k IH]; intros n Hf Hn; [lia|]. cbn [pipe_connect_from].
  destruct (outcome n) eqn:Ho; [| |left; exists n; split_and!; [lia|lia|done|intros; lia]].
  { split_and!; [lia|lia|done|intros; lia]. }
  destruct (Nat.leb_spec MAX_ATTEMPTS (S n)).
  { right. split; [done|]. intros i Hi. replace i with n by lia. done. }
  specialize (IH (S n) ltac:(lia) ltac:(lia)). destruct (pipe_connect_from k (S n) outcome) as [j|e].
  - destruct IH as (? & ? & Hb). split_and!; [lia|lia|done|]. intros i Hi. destruct (decide (i = n)) as [->|]; [done|]. apply Hb. lia.
  - destruct IH as [(j & ? & ? & Hb)|[-> Hb]].
    + left. exists j. split_and!; [lia|lia|done|]. intros i Hi. destruct (decide (i = n)) as [->|]; [done|]. apply Hb. lia.
    + right. split; [done|]. intros i Hi. destruct (decide (i = n)) as [->|]; [done|]. apply Hb. lia.
Qed.

(** The pipe client stops after at most fifty attempts, with the first outcome
    that is not "busy", or with that error. *)
Theorem pipe_connect_bounded outcome :
  match pipe_connect outcome with
  | Ok k => (k < MAX_ATTEMPTS)%nat ∧ outcome k = Opened ∧ ∀ i, (i < k)%nat → outcome i = Busy
  | Err e => (∃ k, (k < MAX_ATTEMPTS)%nat ∧ outcome k = OpenFailed e ∧ ∀ i, (i < k)%nat → outcome i = Busy) ∨
             (e = pipe_busy ∧ ∀ i, (i < MAX_ATTEMPTS)%nat → outcome i = Busy)
  end.
Proof.
  pose proof (pipe_connect_spec outcome MAX_ATTEMPTS 0) as Hs. unfold pipe_connect.
  specialize (Hs ltac:(unfold MAX_ATTEMPTS; lia) ltac:(unfold MAX_ATTEMPTS; lia)).
  destruct (pipe_connect_from MAX_ATTEMPTS 0 outcome) as [k|e].
  - destruct Hs as (? & ? & Hb). split_and!; [lia|done|]. intros i Hi. apply Hb. lia.
  - destruct Hs as [(k & ? & ? & Hb)|[-> Hb]]; [left|right].
    + exists k. split_and!; [lia|done|]. intros i Hi. apply Hb. lia.
    + split; [done|]. intros i Hi. apply Hb. lia.
Qed.

(** One handshake that fails ends the Windows accept loop, whoever waits
    behind it. *)
Theorem pipe_loop_ends_at_failed_handshake l ok rest created :
  Forall (λ c, c = (true, true)) ok → armed l = true →
  accept_windows_pipe l (ok ++ (false, created) :: rest) = length ok.
Proof.
  intros Hok. revert l. induction Hok as [|c ok -> Hok IH]; intros l Ha; cbn [app accept_windows_pipe]; unfold next_client; rewrite Ha; [done|].
  cbn [length]. f_equal. by apply IH.
Qed.

(** The operator's endpoints have the same promise. *)
Theorem operator_bind_owner_only `{LocalSockets} busy io f p r f' : operator_bind busy io f p = (r, f') →
  (r = Ok tt → f' !! p = Some (NSock true owner_file)) ∧
  (answers f p = true → f' = f ∧ ∃ e, r = Err e) ∧ (∀ x, x ≠ p → f' !! x = f !! x).
Proof.
  unfold operator_bind. destruct (fs_name p); [|intros [= <- <-]; split_and!; eauto; done].
  destruct (answers f p) eqn:Ha; [intros [= <- <-]; split_and!; eauto; done|].
  destruct (create_sync io f p) as [f1|e] eqn:Hc; [|intros [= <- <-]; split_and!; eauto; done].
  apply create_makes_socket in Hc as ->. destruct (set_permissions _ _ _ p) as [[[]|e] f2] eqn:Hs; intros [= <- <-].
  - apply set_permissions_ok in Hs as (Ho & _ & _ & Hm). split_and!; [|done|].
    + intros _. eapply Hm. apply lookup_insert_eq.
    + intros x Hx. by rewrite Ho, lookup_insert_ne.
  - split_and!; [done|done|]. intros x Hx. by rewrite !lookup_insert_ne.
Qed.

(** A second daemon on the same names takes neither the feed nor the console
    of the first: both answer with the owner's name and leave the sockets. *)
Theorem operator_endpoints_not_displaced `{LocalSockets} io f p :
  answers f p = true → fs_name p = Ok tt → utf8_valid p = true →
  events_listen io f p = (Err ("events bind: a live event feed already owns " ++ p), f) ∧
  console_spawn io f p = (Err ("console bind: a live console already owns " ++ p), f).
Proof. intros Ha Hn Hu. unfold events_listen, console_spawn, operator_bind. by rewrite Hu, Hn, Ha. Qed.

(** ** Client and server together *)

Section Together.
Context `{JsonText} {St : Type}.

(** What survives the wire: an object that fits a frame and reads back. *)
Definition transmits (v : Value) : Prop :=
  json_from_str (json_to_string v) = Ok v ∧ is_object v = true ∧ utf8_valid (json_to_string v) = true ∧
  zlen (json_to_string v) ≤ MAX_FRAME_BYTES.

Definition request_of (v : Value) : Request := {| msg_id := get_str v "msg_id"; value := v |}.

Lemma transmits_parse v : transmits v → request_parse (json_to_string v) = Ok (request_of v).
Proof. intros (Hj & Ho & _). unfold request_parse. rewrite Hj. cbn. by rewrite Ho. Qed.

(** Calling the handler once per message. *)
Fixpoint calls (handler : Handler (St := St)) (s : St) (ms : list Value) : option (list Value * St) :=
  match ms with
  | [] => Some ([], s)
  | m :: rest =>
      match handler s (request_of m) with
      | (None, _) => None
      | (Some r, s1) => '(rs, s2) ← calls handler s1 rest; Some (r :: rs, s2)
      end
  end.

(** The bytes of the frames a connection wrote. *)
Definition written (evs : list event) : str := mjoin ((λ e, match e with Wrote b => b | Observed _ _ => [] end) <$> evs).

Lemma written_app a b : written (a ++ b) = written a ++ written b.
Proof. unfold written. by rewrite fmap_app, join_app. Qed.

Definition sent (ms : list Value) : str := mjoin ((λ m, write_frame (json_to_string m)) <$> ms).

Lemma sent_cons m ms : sent (m :: ms) = write_frame (json_to_string m) ++ sent ms.
Proof. done. Qed.

Lemma calls_converse handler observer ms : ∀ s rs s', calls handler s ms = Some (rs, s') →
  ∃ evs, converse handler observer s ((λ m, (json_to_string m, request_of m)) <$> ms) = Some (evs, s') ∧ written evs = sent rs.
Proof.
  induction ms as [|m ms IH]; intros s rs s' Hc; cbn [calls] in Hc; [injection Hc as <- <-; by exists []|].
  rewrite fmap_cons. cbn [converse]. destruct (handler s (request_of m)) as [[r|] s1]; [|done].
  destruct (calls handler s1 ms) as [[rs' s2]|] eqn:Hc'; [|done]. injection Hc as <- <-.
  destruct (IH _ _ _ Hc') as (evs & -> & Hw). cbn [mbind option_bind]. eexists. split; [done|].
  rewrite !written_app, Hw. unfold sent. rewrite fmap_cons. destruct observer; cbn; by rewrite ?app_nil_r.
Qed.

(** The client reads the responses that were written. *)
Lemma client_reads ms : ∀ rs fin, length ms = length rs → Forall transmits rs →
  client_session (sent rs) fin ms = (sent ms, Ok <$> rs).
Proof.
  induction ms as [|m ms IH]; intros [|r rs] fin Hl Hr; try done. apply Forall_cons in Hr as [Ht Hr].
  pose proof (transmits_parse r Ht) as Hp. destruct Ht as (_ & _ & Hu & Hlen). cbn [client_session client_request].
  unfold client_request. rewrite (sent_cons r). rewrite read_written by done. rewrite Hp. cbn [fmap result_fmap map_err].
  rewrite IH by (done || simpl in Hl; lia). done.
Qed.

Lemma calls_length handler ms : ∀ s rs s', calls handler s ms = Some (rs, s') → length ms = length rs.
Proof.
  induction ms as [|m ms IH]; intros s rs s'; cbn [calls]; [by intros [= <- <-]|].
  destruct (handler s (request_of m)) as [[r|] s1]; [|done]. destruct (calls handler s1 ms) as [[rs' s2]|] eqn:Hc; [|done].
  intros [= <- <-]. simpl. f_equal. by eapply IH.
Qed.

(** C37: Client and server make a procedure call.  The bytes a client sends for
    a list of messages make the server's connection loop call the handler once
    per message, in order, and the bytes the server writes make the client
    return exactly the handler's responses, in order, whoever observes. *)
Theorem call_and_return handler observer s ms rs s' :
  Forall transmits ms → Forall transmits rs → calls handler s ms = Some (rs, s') →
  ∃ evs, drive_connection (S (length ms)) handler observer (λ _, true) s (sent ms) None = Some (evs, s') ∧
    client_session (written evs) None ms = (sent ms, Ok <$> rs).
Proof.
  intros Hm Hr Hc. destruct (calls_converse handler observer ms s rs s' Hc) as (evs & He & Hw). exists evs. split.
  - set (ts := (λ m, (json_to_string m, request_of m)) <$> ms) in *.
    assert (Forall well_formed ts) as Hwf.
    { apply Forall_fmap. eapply Forall_impl; [exact Hm|]. intros m Ht. split_and!; [by apply transmits_parse|apply Ht|apply Ht]. }
    pose proof (drive_converse handler observer ts s [] None 1 evs s' Hwf He) as Hd. subst ts.
    rewrite length_fmap, Nat.add_1_r, app_nil_r, <- list_fmap_compose in Hd. etrans; [exact Hd|]. cbn. by rewrite app_nil_r.
  - rewrite Hw. apply client_reads; [by eapply calls_length|done].
Qed.
End Together.

(** ** The accept loop and its connections

    [accept_unix] and [accept_tcp] spawn one [drive_connection] per client, all
    over one asynchronous handler.  The connections take turns in any order, and
    so do the calls of the handler: a call goes from one of its waiting points
    to the next in a turn, and calls of different connections overlap. *)

Section Rounds.
Context `{JsonText} {St : Type}.

(** What a connection finds when it reads: the end, with what it writes
    before it stops, or a request, with what is left. *)
Inductive arrival : Type :=
| Ends (evs : list event)
| Asks (text : str) (r : Request) (rest : str).

Definition arrive (observer : bool) (input : str) (fin : ending) : arrival :=
  match read_frame input fin with
  | Err Closed => Ends []
  | Err e => Ends (answer_protocol_violation (frame_error_str e))
  | Ok (text, rest) =>
      match request_parse text with
      | Err _ => Ends (observe observer "request" text ++ answer_protocol_violation "frame payload is not a JSON object")
      | Ok r => Asks text r rest
      end
  end.

(** What it does with the handler's answer, and what it reads next. *)
Definition respond (observer : bool) (reads : str → bool) (rest : str) (response : option Value) : list event * option str :=
  match response with
  | None => ([], None)
  | Some v =>
      let payload := json_to_string v in
      (observe observer "response" payload ++ [Wrote (write_frame payload)], if reads payload then Some rest else None)
  end.

(** The two make one round of [drive_connection]. *)
Lemma drive_round k handler observer reads (s : St) input fin :
  drive_connection (S k) handler observer reads s input fin =
  match arrive observer input fin with
  | Ends evs => Some (evs, s)
  | Asks text r rest =>
      let '(response, s') := handler s r in
      let '(evs, next) := respond observer reads rest response in
      match next with
      | None => Some (observe observer "request" text ++ evs, s')
      | Some cur => '(evs2, s2) ← drive_connection k handler observer reads s' cur fin;
                    Some (observe observer "request" text ++ evs ++ evs2, s2)
      end
  end.
Proof.
  cbn [drive_connection]. unfold arrive, respond. destruct (read_frame input fin) as [[text rest]|e]; [|by destruct e].
  destruct (request_parse text) as [r|]; [|done]. destruct (handler s r) as [[v|] s']; [|by rewrite app_nil_r]. cbv zeta.
  destruct (reads (json_to_string v)); [|done]. destruct (drive_connection _ _ _ _ _ _ _) as [[evs2 s2]|]; [|done].
  cbn. by rewrite <- !app_assoc.
Qed.
End Rounds.

(** An asynchronous handler: where a call of it starts, and how a call goes on
    to its next waiting point or returns ([None] is a panic), over the state all
    calls share. *)
Record AsyncHandler (St Loc : Type) : Type := {
  begin_call : Request → Loc;
  call_goes : St → Loc → St → Loc + option Value → Prop;
}.
Arguments begin_call {St Loc} _ _.
Arguments call_goes {St Loc} _ _ _ _ _.

Section Server.
Context `{JsonText} {St Loc : Type}.

(** A connection: what the peer sends and how that ends, whether it takes a
    response, what the connection did, what it reads next, and the call of the
    handler it waits for, with the request and what is left to read. *)
Record Conn : Type := {
  c_input : str;
  c_fin : ending;
  c_reads : str → bool;
  c_log : list event;
  c_next : option str;
  c_call : option (Request * str * Loc);
}.

Definition new_conn (input : str) (fin : ending) (reads : str → bool) : Conn :=
  {| c_input := input; c_fin := fin; c_reads := reads; c_log := []; c_next := Some input; c_call := None |}.
Definition advance (c : Conn) (evs : list event) (next : option str) (call : option (Request * str * Loc)) : Conn :=
  {| c_input := c_input c; c_fin := c_fin c; c_reads := c_reads c; c_log := c_log c ++ evs; c_next := next; c_call := call |}.

Record Server : Type := { shared : St; conns : gmap nat Conn }.

Definition put_conn (σ : Server) (s : St) (i : nat) (c : Conn) : Server :=
  {| shared := s; conns := <[i := c]> (conns σ) |}.

(** A client is accepted, an accept fails and the loop goes on, a connection
    ends or starts a call of the handler, or a call goes on or returns. *)
Inductive server_step (handler : AsyncHandler St Loc) (observer : bool)
  : Server → list (nat * Request * option Value) → Server → Prop :=
| sv_accept σ i input fin reads : conns σ !! i = None →
    server_step handler observer σ [] (put_conn σ (shared σ) i (new_conn input fin reads))
| sv_accept_failed σ : server_step handler observer σ [] σ
| sv_end σ i c cur evs : conns σ !! i = Some c → c_next c = Some cur → arrive observer cur (c_fin c) = Ends evs →
    server_step handler observer σ [] (put_conn σ (shared σ) i (advance c evs None None))
| sv_ask σ i c cur text r rest : conns σ !! i = Some c → c_next c = Some cur →
    arrive observer cur (c_fin c) = Asks text r rest →
    server_step handler observer σ []
      (put_conn σ (shared σ) i (advance c (observe observer "request" text) None (Some (r, rest, begin_call handler r))))
| sv_work σ i c r rest loc loc' s' : conns σ !! i = Some c → c_call c = Some (r, rest, loc) →
    call_goes handler (shared σ) loc s' (inl loc') →
    server_step handler observer σ [] (put_conn σ s' i (advance c [] None (Some (r, rest, loc'))))
| sv_answer σ i c r rest loc response s' evs next : conns σ !! i = Some c → c_call c = Some (r, rest, loc) →
    call_goes handler (shared σ) loc s' (inr response) → respond observer (c_reads c) rest response = (evs, next) →
    server_step handler observer σ [(i, r, response)] (put_conn σ s' i (advance c evs next None)).

(** The server from its start, with the requests answered, in order. *)
Inductive serves (handler : AsyncHandler St Loc) (observer : bool) (s0 : St)
  : list (nat * Request * option Value) → Server → Prop :=
| serves_start : serves handler observer s0 [] {| shared := s0; conns := ∅ |}
| serves_step hist σ h σ' : serves handler observer s0 hist σ → server_step handler observer σ h σ' →
    serves handler observer s0 (hist ++ h) σ'.

(** The handler alone under overlapping calls, one per caller at a time: the
    calls returned so far, in the order of their returns, the state, and the
    calls under way. *)
Inductive called (handler : AsyncHandler St Loc) (s0 : St)
  : list (nat * Request * option Value) → St → gmap nat (Request * Loc) → Prop :=
| called_start : called handler s0 [] s0 ∅
| called_begin h s m i r : called handler s0 h s m → m !! i = None →
    called handler s0 h s (<[i := (r, begin_call handler r)]> m)
| called_work h s m i r loc s' loc' : called handler s0 h s m → m !! i = Some (r, loc) →
    call_goes handler s loc s' (inl loc') → called handler s0 h s' (<[i := (r, loc')]> m)
| called_return h s m i r loc s' response : called handler s0 h s m → m !! i = Some (r, loc) →
    call_goes handler s loc s' (inr response) → called handler s0 (h ++ [(i, r, response)]) s' (delete i m).

(** The calls the connections wait for. *)
Definition waiting_call (c : Conn) : option (Request * Loc) := (λ x, (x.1.1, x.2)) <$> c_call c.
Definition waiting_calls (σ : Server) : gmap nat (Request * Loc) := omap waiting_call (conns σ).

(** One connection alone, given the answers to its requests. *)
Inductive conn_run (observer : bool) (reads : str → bool) (fin : ending)
  : str → list (Request * option Value) → list event → option str → Prop :=
| cr_here input : conn_run observer reads fin input [] [] (Some input)
| cr_end input evs : arrive observer input fin = Ends evs → conn_run observer reads fin input [] evs None
| cr_stop input text r rest response evs : arrive observer input fin = Asks text r rest →
    respond observer reads rest response = (evs, None) →
    conn_run observer reads fin input [(r, response)] (observe observer "request" text ++ evs) None
| cr_ask input text r rest response evs cur h log next : arrive observer input fin = Asks text r rest →
    respond observer reads rest response = (evs, Some cur) → conn_run observer reads fin cur h log next →
    conn_run observer reads fin input ((r, response) :: h) (observe observer "request" text ++ evs ++ log) next.

Lemma conn_run_snoc observer reads fin input h log cur h' log' next :
  conn_run observer reads fin input h log (Some cur) → conn_run observer reads fin cur h' log' next →
  conn_run observer reads fin input (h ++ h') (log ++ log') next.
Proof.
  intros Hr. remember (Some cur) as n eqn:Hn. revert Hn. induction Hr; intros Hn Hr'; simplify_eq; [done|].
  cbn [app]. rewrite <- !app_assoc. eapply cr_ask; eauto.
Qed.

(** Answers read off a list. *)
Definition playback : Handler (St := list (option Value)) :=
  λ q _, match q with x :: q' => (x, q') | [] => (None, []) end.

(** Such a run is the connection loop over the answers. *)
Lemma conn_run_drive observer reads fin input h log next : conn_run observer reads fin input h log next → next = None →
  ∀ k, (length h <= k)%nat → drive_connection (S k) playback observer reads (h.*2) input fin = Some (log, []).
Proof.
  intros Hr. induction Hr as [|? ? Ha|? ? ? ? ? ? Ha Hs|? ? ? ? ? ? ? h ? ? Ha Hs Hr IH]; intros Hn k Hk; try done.
  - rewrite drive_round, Ha. done.
  - rewrite fmap_cons, drive_round, Ha. cbn [playback snd]. by rewrite Hs.
  - rewrite fmap_cons, drive_round, Ha. cbn [playback snd]. rewrite Hs. destruct k as [|k]; [simpl in Hk; lia|].
    by rewrite (IH Hn k) by (simpl in Hk; lia).
Qed.

(** The requests of one connection, in order. *)
Definition own (i : nat) (hist : list (nat * Request * option Value)) : list (Request * option Value) :=
  (λ e, (e.1.2, e.2)) <$> filter (λ e, e.1.1 = i) hist.

Lemma own_app i a b : own i (a ++ b) = own i a ++ own i b.
Proof. unfold own. by rewrite filter_app, fmap_app. Qed.

Lemma own_here i r v : own i [(i, r, v)] = [(r, v)].
Proof. unfold own. by rewrite filter_cons_True. Qed.

Lemma own_other i j r v : j ≠ i → own i [(j, r, v)] = [].
Proof. intros. unfold own. by rewrite filter_cons_False. Qed.

(** Each connection is where the answers to its own requests have brought it:
    at its next read or its end, or in a call for its next request. *)
Definition conn_ok (observer : bool) (hist : list (nat * Request * option Value)) (i : nat) (c : Conn) : Prop :=
  match c_call c with
  | None => conn_run observer (c_reads c) (c_fin c) (c_input c) (own i hist) (c_log c) (c_next c)
  | Some (r, rest, _) => c_next c = None ∧ ∃ log cur text,
      conn_run observer (c_reads c) (c_fin c) (c_input c) (own i hist) log (Some cur) ∧
      arrive observer cur (c_fin c) = Asks text r rest ∧ c_log c = log ++ observe observer "request" text
  end.

(** A step of connection [i] leaves the others as they are. *)
Lemma conns_ok_put observer hist h σ s i c :
  (∀ j c, conns σ !! j = Some c → conn_ok observer hist j c) → (∀ j, j ≠ i → own j h = []) →
  conn_ok observer (hist ++ h) i c → ∀ j c', conns (put_conn σ s i c) !! j = Some c' → conn_ok observer (hist ++ h) j c'.
Proof.
  intros Hall Hother Hc j c'. cbn [put_conn conns]. intros [[<- <-]|[Hne Hj]]%lookup_insert_Some; [done|].
  unfold conn_ok. rewrite own_app, Hother, app_nil_r by done. by apply Hall.
Qed.

Lemma conn_ok_step handler observer hist σ h σ' : server_step handler observer σ h σ' →
  (∀ j c, conns σ !! j = Some c → conn_ok observer hist j c) → (∀ j, conns σ !! j = None → own j hist = []) →
  (∀ j c, conns σ' !! j = Some c → conn_ok observer (hist ++ h) j c) ∧ (∀ j, conns σ' !! j = None → own j (hist ++ h) = []).
Proof.
  intros Hs Hall Hnone. split.
  - destruct Hs as [σ i input fin reads Hi|σ|σ i c cur evs Hi Hcur Ha|σ i c cur text r rest Hi Hcur Ha
      |σ i c r rest loc loc' s' Hi Hcall _|σ i c r rest loc response s' evs next Hi Hcall _ Hresp].
    2: by rewrite app_nil_r.
    all: apply conns_ok_put; [done|intros j Hne; first [done|by apply own_other]|].
    all: try (pose proof (Hall i c Hi) as Hc; unfold conn_ok in Hc; rewrite ?Hcall in Hc).
    + unfold conn_ok. cbn. rewrite app_nil_r, Hnone by done. constructor.
    + destruct (c_call c) as [[[r rest] loc]|]; [destruct Hc as [Hn _]; congruence|]. unfold conn_ok. cbn.
      rewrite own_app. eapply conn_run_snoc; [rewrite <- Hcur; exact Hc|by apply cr_end].
    + destruct (c_call c) as [[[r' rest'] loc]|]; [destruct Hc as [Hn _]; congruence|]. unfold conn_ok. cbn.
      split; [done|]. rewrite app_nil_r. exists (c_log c), cur, text. by rewrite <- Hcur.
    + unfold conn_ok. cbn. rewrite !app_nil_r. by destruct Hc.
    + destruct Hc as (_ & log & cur & text & Hrun & Ha & Hlog). unfold conn_ok. cbn.
      rewrite own_app, own_here, Hlog, <- app_assoc. eapply conn_run_snoc; [exact Hrun|].
      destruct next as [cur'|]; [|by eapply cr_stop]. rewrite <- (app_nil_r evs). eapply cr_ask; [done..|constructor].
  - destruct Hs as [σ i input fin reads Hi|σ|σ i c cur evs Hi Hcur Ha|σ i c cur text r rest Hi Hcur Ha
      |σ i c r rest loc loc' s' Hi Hcall _|σ i c r rest loc response s' evs next Hi Hcall _ Hresp];
      intros j Hj; rewrite own_app, ?app_nil_r;
      try (cbn [put_conn conns] in Hj; apply lookup_insert_None in Hj as [Hj Hne]); try (by rewrite Hnone, ?app_nil_r).
    rewrite Hnone by done. by rewrite own_other by done.
Qed.

(** On the handler's side a step starts, moves or ends one call. *)
Lemma waiting_put σ s i c : waiting_calls (put_conn σ s i c) =
  match waiting_call c with Some x => <[i := x]> (waiting_calls σ) | None => delete i (waiting_calls σ) end.
Proof.
  apply map_eq. intros j. unfold waiting_calls, put_conn. cbn. rewrite lookup_omap.
  destruct (decide (i = j)) as [<-|Hne].
  - rewrite lookup_insert_eq. cbn. destruct (waiting_call c); by rewrite ?lookup_insert_eq, ?lookup_delete_eq.
  - rewrite lookup_insert_ne by done. destruct (waiting_call c); rewrite ?lookup_insert_ne, ?lookup_delete_ne by done; by rewrite lookup_omap.
Qed.

Lemma waiting_lookup σ i c : conns σ !! i = Some c → waiting_calls σ !! i = waiting_call c.
Proof. intros Hi. unfold waiting_calls. by rewrite lookup_omap, Hi. Qed.

Lemma called_step handler observer hist σ h σ' s0 : server_step handler observer σ h σ' →
  (∀ j c, conns σ !! j = Some c → conn_ok observer hist j c) →
  called handler s0 hist (shared σ) (waiting_calls σ) → called handler s0 (hist ++ h) (shared σ') (waiting_calls σ').
Proof.
  intros Hs Hall Hc. destruct Hs as [σ i input fin reads Hi|σ|σ i c cur evs Hi Hcur Ha|σ i c cur text r rest Hi Hcur Ha
    |σ i c r rest loc loc' s' Hi Hcall Hg|σ i c r rest loc response s' evs next Hi Hcall Hg Hresp];
    rewrite ?app_nil_r, ?waiting_put; cbn [shared put_conn waiting_call advance new_conn c_call fmap option_fmap option_map fst snd].
  - rewrite delete_id; [done|]. unfold waiting_calls. by rewrite lookup_omap, Hi.
  - done.
  - rewrite delete_id; [done|]. rewrite (waiting_lookup _ _ _ Hi). pose proof (Hall _ _ Hi) as Hok.
    unfold conn_ok, waiting_call in *. destruct (c_call c) as [[[r rest] loc]|]; [destruct Hok; congruence|done].
  - apply called_begin; [done|]. rewrite (waiting_lookup _ _ _ Hi). pose proof (Hall _ _ Hi) as Hok.
    unfold conn_ok, waiting_call in *. destruct (c_call c) as [[[r' rest'] loc]|]; [destruct Hok; congruence|done].
  - eapply called_work; [done| |done]. rewrite (waiting_lookup _ _ _ Hi). unfold waiting_call. by rewrite Hcall.
  - eapply called_return; [done| |done]. rewrite (waiting_lookup _ _ _ Hi). unfold waiting_call. by rewrite Hcall.
Qed.

Lemma server_inv handler observer s0 hist σ : serves handler observer s0 hist σ →
  called handler s0 hist (shared σ) (waiting_calls σ) ∧
  (∀ i c, conns σ !! i = Some c → conn_ok observer hist i c) ∧ (∀ i, conns σ !! i = None → own i hist = []).
Proof.
  induction 1 as [|hist σ h σ' _ (Hc & Hi & Hn) Hst]; [split_and!; [constructor|done|done]|].
  split; [by eapply called_step|by eapply conn_ok_step].
Qed.

End Server.
Arguments Conn : clear implicits.
Arguments Server : clear implicits.

(** ** Concrete endpoints *)

Section Witnesses.
#[local] Existing Instance toy_json.

Definition good_io : BindIo :=
  {| mkdir_err := None; chmod_dir_err := None; unlink_err := None; bind_err := None; chmod_err := None; new_mode := 0x1ED |}.
Definition a_disk : fs := {[ ("/" : str) := NDir 0x1ED; ("/run" : str) := NDir 0x1ED; ("/run/x" : str) := NFile "precious" ]}.
Definition a_path : str := "/run/chaperone/gw.sock".

Lemma bind_owner_only_witness :
  (uds_bind good_io a_disk a_path).1 = Ok tt ∧ (uds_bind good_io a_disk a_path).2 !! a_path = Some (NSock true owner_file) ∧
  (uds_bind good_io a_disk a_path).2 !! ("/run/x" : str) = Some (NFile "precious").
Proof.
  destruct (uds_bind good_io a_disk a_path) as [r f'] eqn:Hb.
  assert (r = Ok tt) as Hr by (apply (f_equal fst) in Hb; vm_compute in Hb; congruence).
  destruct (bind_owner_only good_io a_disk a_path r f') as (H1 & _ & H3); [reflexivity|exact Hb|].
  split; [exact Hr|]. split; [apply H1; exact Hr|]. apply H3; vm_compute; congruence.
Defined.

(** A socket path that names a file destroys the file; a bare name cannot be
    bound, since the permissions of the empty path cannot be set. *)
Example file_is_lost : (uds_bind good_io a_disk "/run/x").2 !! ("/run/x" : str) = Some (NSock true owner_file).
Proof. vm_compute. reflexivity. Qed.
Example bare_name_fails : (uds_bind good_io a_disk "gw.sock").1 = Err (BIo no_entry).
Proof. vm_compute. reflexivity. Qed.
(** The directory is made private whatever else is in it. *)
Example shared_directory_closed : (uds_bind good_io a_disk "/run/gw.sock").2 !! ("/run" : str) = Some (NDir owner_dir).
Proof. vm_compute. reflexivity. Qed.

Definition a_message : Value := Object [("msg_id", String "m1")].
Definition an_answer (n : Z) : Value := Object [("msg_id", String "m1"); ("n", jnum n)].

Lemma call_and_return_witness :
  ∃ evs, drive_connection 3 toy_handler true (λ _, true) 5 (sent [a_message; a_message]) None = Some (evs, 7) ∧
    client_session (written evs) None [a_message; a_message] = (sent [a_message; a_message], Ok <$> [an_answer 5; an_answer 6]).
Proof.
  apply (call_and_return toy_handler true 5 [a_message; a_message] [an_answer 5; an_answer 6] 7); [| |reflexivity];
    repeat constructor; vm_compute; congruence.
Defined.

(** Two connections and a call that waits once: while the call of the second
    is under way the first breaks the protocol. *)
Definition slow_handler : AsyncHandler Z (Request * bool) :=
  {| begin_call r := (r, false);
     call_goes s loc s' out :=
       match loc with
       | (r, false) => out = inl (r, true) ∧ s' = s
       | (r, true) => ∃ v, out = inr v ∧ toy_handler s r = (v, s')
       end |}.
Definition rude : Conn (Request * bool) := new_conn "x" None (λ _, true).
Definition polite : Conn (Request * bool) := new_conn (write_frame (json_to_string a_message)) None (λ _, true).
Definition asked (b : bool) : Conn (Request * bool) := advance polite [] None (Some (toy_request, [], (toy_request, b))).
Definition error_log : list event := answer_protocol_violation "connection ended mid-frame".
Definition answer_log : list event := [Wrote (write_frame (json_to_string (an_answer 5)))].

Definition served0 : Server Z (Request * bool) := put_conn {| shared := 5; conns := ∅ |} 5 0 rude.
Definition served1 : Server Z (Request * bool) := put_conn (put_conn served0 5 1 polite) 5 1 (asked false).
Definition served2 : Server Z (Request * bool) := put_conn (put_conn served1 5 1 (asked true)) 5 0 (advance rude error_log None None).
Definition served3 : Server Z (Request * bool) := put_conn served2 6 1 (advance (asked true) answer_log (Some []) None).

Lemma two_served : serves slow_handler false 5 [(1%nat, toy_request, Some (an_answer 5))] served3.
Proof.
  apply (serves_step _ _ _ [] served2 [(1%nat, toy_request, Some (an_answer 5))]).
  - apply (serves_step _ _ _ [] (put_conn served1 5 1 (asked true)) []);
      [apply (serves_step _ _ _ [] served1 []); [apply (serves_step _ _ _ [] (put_conn served0 5 1 polite) []);
        [apply (serves_step _ _ _ [] served0 []); [apply (serves_step _ _ _ [] {| shared := 5; conns := ∅ |} []); [constructor|]|]|]|]|].
    + by apply (sv_accept slow_handler false {| shared := 5; conns := ∅ |}).
    + by apply (sv_accept slow_handler false served0).
    + apply (sv_ask slow_handler false (put_conn served0 5 1 polite) 1%nat polite (write_frame (json_to_string a_message)) toy_text);
        vm_compute; reflexivity.
    + apply (sv_work slow_handler false served1 1%nat (asked false) toy_request [] (toy_request, false)); by try reflexivity.
    + apply (sv_end slow_handler false (put_conn served1 5 1 (asked true)) 0%nat rude "x"); vm_compute; reflexivity.
  - apply (sv_answer slow_handler false served2 1%nat (asked true) toy_request [] (toy_request, true) (Some (an_answer 5)));
      [reflexivity|reflexivity| |vm_compute; reflexivity].
    eexists. split; [reflexivity|vm_compute; reflexivity].
Qed.

End Witnesses.
