(* ===== verification/Events.v ===== *)
(** The operator event feed: [crates/gateway-core/src/events.rs].

    The hub's registry, the bounded queue of each subscriber and its delivery
    thread, as a step relation: the broker's broadcasts, registrations and the
    delivery threads interleave freely.  Lines are numbered by the broadcasts
    so far, so that loss, duplication and reordering are statements about
    lists. *)

From S2P Require Import Prelude Strs.
#[local] Open Scope Z_scope.

Definition SUB_QUEUE_LEN : nat := 256.

(** One subscriber: the lines in its queue, the line its thread is writing,
    what its peer has received, and whether the thread still runs.
    [registered] says whether the hub still holds the send half; [joined] is
    the number of broadcasts before it registered. *)
Record Sub : Type := {
  queue : list str;
  writing : option str;
  received : list str;
  thread_alive : bool;
  registered : bool;
  joined : nat;
}.

(** The registry.  [subs] keeps every subscriber ever registered, in order;
    the vector of the source is the registered ones.  [count] is the atomic
    counter, incremented after the push ([uncounted] pushes are still to be
    counted); [sent] is every line broadcast. *)
Record Hub : Type := {
  subs : list Sub;
  count : Z;
  uncounted : nat;
  sent : list str;
}.

(** [EventHub::new]. *)
Definition hub_new : Hub := {| subs := []; count := 0; uncounted := 0; sent := [] |}.

Definition members (h : Hub) : list Sub := filter (λ s, registered s = true) (subs h).

(** [EventHub::subscriber_count]. *)
Definition subscriber_count (h : Hub) : Z := count h.

(** ** Broadcast *)

Definition usize_wrapping_sub (a b : Z) : Z := (a - b) mod (u64_max + 1).

(** [SyncSender::try_send] into one subscriber's queue, and what [retain]
    does with the verdict. *)
Definition try_send (wire : str) (s : Sub) : bool * Sub :=
  if thread_alive s && (length (queue s) <? SUB_QUEUE_LEN)%nat
  then (true, {| queue := queue s ++ [wire]; writing := writing s; received := received s;
                 thread_alive := thread_alive s; registered := true; joined := joined s |})
  else (false, {| queue := queue s; writing := writing s; received := received s;
                  thread_alive := thread_alive s; registered := false; joined := joined s |}).

Fixpoint broadcast_subs (wire : str) (ss : list Sub) (c : Z) : list Sub * Z :=
  match ss with
  | [] => ([], c)
  | s :: rest =>
      if registered s then
        let '(ok, s') := try_send wire s in
        let '(rest', c') := broadcast_subs wire rest (if (ok : bool) then c else usize_wrapping_sub c 1) in
        (s' :: rest', c')
      else let '(rest', c') := broadcast_subs wire rest c in (s :: rest', c')
  end.

(** [EventHub::broadcast]: enqueue only. *)
Definition broadcast (h : Hub) (line : str) : Hub :=
  let wire := line ++ [zb 10] in
  let '(ss, c) := broadcast_subs wire (subs h) (count h) in
  {| subs := ss; count := c; uncounted := uncounted h; sent := sent h ++ [wire] |}.

(** ** Registration *)

Definition new_sub (n : nat) : Sub :=
  {| queue := []; writing := None; received := []; thread_alive := true; registered := true; joined := n |}.

(** [Shared::add_subscriber]: the push under the lock; a failed spawn
    registers nothing. *)
Definition add_subscriber (h : Hub) (spawned : bool) : Hub :=
  if spawned
  then {| subs := subs h ++ [new_sub (length (sent h))]; count := count h;
          uncounted := S (uncounted h); sent := sent h |}
  else h.

(** The [fetch_add] after the push. *)
Definition count_subscriber (h : Hub) : Hub :=
  match uncounted h with
  | O => h
  | S n => {| subs := subs h; count := (count h + 1) mod (u64_max + 1); uncounted := n; sent := sent h |}
  end.

(** ** The delivery thread *)

(** Takes the next line; exits when the queue is empty and disconnected. *)
Definition thread_take (s : Sub) : Sub :=
  if thread_alive s then
    match writing s, queue s with
    | None, l :: q => {| queue := q; writing := Some l; received := received s; thread_alive := true;
                         registered := registered s; joined := joined s |}
    | None, [] => {| queue := []; writing := None; received := received s;
                     thread_alive := registered s; registered := registered s; joined := joined s |}
    | Some _, _ => s
    end
  else s.

(** The blocking write ends: the peer has the line, or is gone and the thread
    ends, dropping its queue. *)
Definition thread_write (ok : bool) (s : Sub) : Sub :=
  match writing s with
  | Some l =>
      if ok then {| queue := queue s; writing := None; received := received s ++ [l];
                    thread_alive := thread_alive s; registered := registered s; joined := joined s |}
      else {| queue := []; writing := None; received := received s; thread_alive := false;
              registered := registered s; joined := joined s |}
  | None => s
  end.

Definition set_subs (h : Hub) (ss : list Sub) : Hub :=
  {| subs := ss; count := count h; uncounted := uncounted h; sent := sent h |}.

(** The steps of the broker, the accept loop and the delivery threads. *)
Inductive hub_step : Hub → Hub → Prop :=
| step_broadcast h line : hub_step h (broadcast h line)
| step_add h spawned : hub_step h (add_subscriber h spawned)
| step_count h : hub_step h (count_subscriber h)
| step_take h i s : subs h !! i = Some s → hub_step h (set_subs h (<[i := thread_take s]> (subs h)))
| step_write h i s ok : subs h !! i = Some s → hub_step h (set_subs h (<[i := thread_write ok s]> (subs h))).

Definition hub_reachable : Hub → Prop := rtc hub_step hub_new.

(** ** Invariant *)

(** A subscriber against the lines broadcast since it joined: what it received,
    is being written and has queued is an initial part of them, and all of them
    while it is registered and its thread runs. *)
Record sub_ok (ls : list str) (s : Sub) : Prop := {
  so_queue : (length (queue s) ≤ SUB_QUEUE_LEN)%nat;
  so_prefix : ∃ lost, drop (joined s) ls = received s ++ option_list (writing s) ++ queue s ++ lost ∧
                      (registered s = true → thread_alive s = true → lost = []);
  so_joined : (joined s ≤ length ls)%nat;
}.

Definition hub_ok (h : Hub) : Prop :=
  Forall (sub_ok (sent h)) (subs h) ∧
  count h = (zlen (members h) - Z.of_nat (uncounted h)) mod (u64_max + 1).

Lemma sub_ok_send ls wire s : sub_ok ls s →
  sub_ok (ls ++ [wire]) (if registered s then (try_send wire s).2 else s).
Proof.
  intros [Hq (lost & Hp & Hc) Hj].
  assert (drop (joined s) (ls ++ [wire]) = drop (joined s) ls ++ [wire]) as Hd.
  { rewrite drop_app. by replace (joined s - length ls)%nat with 0%nat by lia. }
  assert (∀ s', queue s' = queue s → writing s' = writing s → received s' = received s → joined s' = joined s →
            (registered s' = true → thread_alive s' = true → False) → sub_ok (ls ++ [wire]) s') as Hkeep.
  { intros s' Hq' Hw Hr' Hj' Hn. split; rewrite ?Hq', ?Hj', ?length_app; [done| |simpl; lia].
    exists (lost ++ [wire]). rewrite Hd, Hp, Hw, Hr', <- !app_assoc. split; [done|]. intros. by destruct Hn. }
  destruct (registered s) eqn:Hr; [|apply Hkeep; congruence]. unfold try_send.
  destruct (thread_alive s && (length (queue s) <? SUB_QUEUE_LEN)%nat) eqn:Ht; [|by apply Hkeep].
  apply andb_true_iff in Ht as [Ha Hl%Nat.ltb_lt]. rewrite (Hc eq_refl Ha), app_nil_r in Hp.
  split; simpl; rewrite ?length_app; simpl; [lia| |lia].
  exists []. rewrite Hd, Hp, app_nil_r, <- !app_assoc. done.
Qed.

Lemma broadcast_subs_spec wire ss c :
  broadcast_subs wire ss c =
    ((λ s, if registered s then (try_send wire s).2 else s) <$> ss,
     fold_left (λ c s, if registered s && negb (try_send wire s).1 then usize_wrapping_sub c 1 else c) ss c).
Proof.
  revert c. induction ss as [|s ss IH]; intros c; [done|]. cbn [broadcast_subs fold_left fmap list_fmap].
  destruct (registered s); simpl; [destruct (try_send wire s) as [[] s']; simpl|]; by rewrite IH.
Qed.

Lemma broadcast_count wire ss c (k : Z) :
  c = (zlen (filter (λ s, registered s = true) ss) - k) mod (u64_max + 1) →
  (broadcast_subs wire ss c).2 =
    (zlen (filter (λ s, registered s = true) (broadcast_subs wire ss c).1) - k) mod (u64_max + 1).
Proof.
  revert c k. induction ss as [|s ss IH]; intros c k Hc; [done|]. cbn [broadcast_subs].
  rewrite filter_cons in Hc. destruct (registered s) eqn:Hr.
  - rewrite decide_True in Hc by done. unfold zlen in Hc. cbn [length] in Hc.
    unfold try_send. destruct (thread_alive s && _).
    + specialize (IH c (k - 1)). destruct (broadcast_subs wire ss c) as [ss' c']. simpl in IH.
      cbn [fst snd]. rewrite filter_cons, decide_True by done. unfold zlen in *. cbn [length].
      rewrite IH; [f_equal; lia|]. rewrite Hc. f_equal. lia.
    + specialize (IH (usize_wrapping_sub c 1) k). destruct (broadcast_subs wire ss _) as [ss' c']. simpl in IH.
      cbn [fst snd]. rewrite filter_cons, decide_False by done. apply IH.
      unfold usize_wrapping_sub. rewrite Hc, Zminus_mod_idemp_l. unfold zlen. f_equal. lia.
  - rewrite decide_False in Hc by congruence. specialize (IH c k Hc).
    destruct (broadcast_subs wire ss c) as [ss' c']. simpl in *. rewrite filter_cons, decide_False by congruence. done.
Qed.

Lemma members_insert h i s s' : subs h !! i = Some s → registered s' = registered s →
  length (filter (λ s, registered s = true) (<[i := s']> (subs h))) = length (members h).
Proof.
  unfold members. generalize (subs h). clear h. intros ss. revert i. induction ss as [|x ss IH]; intros [|i] Hi Hr; try done.
  - injection Hi as ->. simpl. rewrite !filter_cons. rewrite Hr. by destruct (decide _).
  - simpl in *. rewrite !filter_cons. specialize (IH i Hi Hr). destruct (decide _); simpl; lia.
Qed.

Lemma sub_ok_take ls s : sub_ok ls s → sub_ok ls (thread_take s) ∧ registered (thread_take s) = registered s.
Proof.
  intros [Hq (lost & Hp & Hc) Hj]. unfold thread_take. destruct (thread_alive s) eqn:Ha.
  2:{ split; [|done]. split; [done|exists lost; split; [done|congruence]|done]. }
  destruct (writing s) as [l|] eqn:Hw; [split; [|done]; split; [done| |done]; exists lost; rewrite Hw; auto|].
  destruct (queue s) as [|l q] eqn:Hqq; simpl in *.
  - split; [|done]. split; simpl; [lia| |done]. exists lost. auto.
  - split; [|done]. split; simpl; [lia| |done]. exists lost. auto.
Qed.

Lemma sub_ok_write ls s ok : sub_ok ls s → sub_ok ls (thread_write ok s) ∧ registered (thread_write ok s) = registered s.
Proof.
  intros [Hq (lost & Hp & Hc) Hj]. unfold thread_write. destruct (writing s) as [l|] eqn:Hw.
  2:{ split; [|done]. split; [done| |done]. exists lost. rewrite Hw. auto. }
  destruct ok; (split; [|done]); split; simpl; try done; try lia.
  - exists lost. rewrite Hp, <- app_assoc. done.
  - exists (l :: queue s ++ lost). split; [by rewrite Hp|done].
Qed.

Lemma hub_ok_step h h' : hub_step h h' → hub_ok h → hub_ok h'.
Proof.
  intros Hs [Hf Hc]. destruct Hs as [h line|h spawned|h|h i s Hi|h i s ok Hi].
  - unfold broadcast. pose proof (broadcast_count (line ++ [zb 10]) _ _ _ Hc) as Hb.
    rewrite broadcast_subs_spec in *. simpl in *. split; [|exact Hb]. simpl.
    apply Forall_fmap. eapply Forall_impl; [exact Hf|]. intros s Hs. by apply sub_ok_send.
  - destruct spawned; [|done]. split; simpl.
    + apply Forall_app. split; [done|]. apply Forall_singleton. split; simpl; [lia| |lia].
      exists []. by rewrite drop_all.
    + rewrite Hc. unfold members. simpl. rewrite filter_app. unfold zlen. rewrite length_app. simpl. f_equal. lia.
  - unfold count_subscriber. destruct (uncounted h) as [|n] eqn:Hu; [split; [exact Hf|by rewrite Hu]|]. split; [exact Hf|]. simpl.
    rewrite Hc, Zplus_mod_idemp_l. change (members _) with (members h) at 2. f_equal. lia.
  - rewrite Forall_lookup in Hf. destruct (sub_ok_take _ _ (Hf _ _ Hi)) as [Ht Hr]. split; simpl.
    + apply Forall_lookup. intros j x [(-> & <- & _)|[_ Hx]]%list_lookup_insert_Some; [done|by eapply Hf].
    + unfold zlen, members. simpl. by rewrite (members_insert h i s) by done.
  - rewrite Forall_lookup in Hf. destruct (sub_ok_write _ _ ok (Hf _ _ Hi)) as [Ht Hr]. split; simpl.
    + apply Forall_lookup. intros j x [(-> & <- & _)|[_ Hx]]%list_lookup_insert_Some; [done|by eapply Hf].
    + unfold zlen, members. simpl. by rewrite (members_insert h i s) by done.
Qed.

Lemma hub_reachable_ok h : hub_reachable h → hub_ok h.
Proof.
  intros Hr. refine (rtc_ind_r hub_ok hub_new _ _ h Hr).
  - split; [constructor|done].
  - intros x y _ Hs Hx. by eapply hub_ok_step.
Qed.

(** The feed in order.  Under every interleaving of broadcasts,
    registrations and delivery threads, what a subscriber's peer has received
    is an initial part of the lines broadcast since it joined, in order,
    without gap or repetition; its queue never exceeds 256 lines; as long as
    it is registered and its thread runs nothing is lost; and the counter is
    the number of registered subscribers, up to registrations still to be
    counted. *)
Theorem feed_in_order h :
  hub_reachable h →
  (∀ i s, subs h !! i = Some s →
     received s `prefix_of` drop (joined s) (sent h) ∧ (length (queue s) ≤ SUB_QUEUE_LEN)%nat ∧
     (registered s = true → thread_alive s = true →
      drop (joined s) (sent h) = received s ++ option_list (writing s) ++ queue s)) ∧
  (uncounted h = 0%nat → subscriber_count h = zlen (members h) mod (u64_max + 1)).
Proof.
  intros [Hf Hc]%hub_reachable_ok. split.
  - intros i s Hi. rewrite Forall_lookup in Hf. destruct (Hf i s Hi) as [Hq (lost & Hp & Hl) _].
    split_and!; [by eexists|done|]. intros Hr Ha. by rewrite Hp, (Hl Hr Ha), app_nil_r.
  - intros Hu. unfold subscriber_count. rewrite Hc, Hu. f_equal. lia.
Qed.

(** Subscribers do not disturb each other.  A broadcast leaves each
    registered subscriber with the line at the end of its queue if its thread
    runs and its queue has room, and drops it otherwise, whatever the others
    do; subscribers dropped earlier are not touched. *)
Theorem broadcast_isolated h line i s :
  subs h !! i = Some s →
  ∃ s', subs (broadcast h line) !! i = Some s' ∧
    (registered s = false → s' = s) ∧
    (registered s = true →
       if bool_decide (thread_alive s = true ∧ (length (queue s) < SUB_QUEUE_LEN)%nat)
       then registered s' = true ∧ queue s' = queue s ++ [line ++ [zb 10]]
       else registered s' = false ∧ queue s' = queue s) ∧
    received s' = received s ∧ writing s' = writing s.
Proof.
  intros Hi. unfold broadcast. rewrite broadcast_subs_spec. simpl. rewrite list_lookup_fmap, Hi. simpl.
  eexists. split; [done|]. destruct (registered s) eqn:Hr; [|by split_and!].
  unfold try_send. case_bool_decide as Hb.
  - destruct Hb as [-> Hl]. rewrite (proj2 (Nat.ltb_lt _ _) Hl). by split_and!.
  - assert (thread_alive s && (length (queue s) <? SUB_QUEUE_LEN)%nat = false) as ->; [|by split_and!].
    destruct (thread_alive s) eqn:Ha; [|done]. simpl. apply Nat.ltb_nlt. intros Hl. by apply Hb.
Qed.

Definition toy_hub : Hub := broadcast (count_subscriber (add_subscriber hub_new true)) "{}".

Lemma toy_hub_reachable : hub_reachable toy_hub.
Proof.
  eapply rtc_l; [apply (step_add _ true)|]. eapply rtc_l; [apply step_count|].
  eapply rtc_l; [apply step_broadcast|]. apply rtc_refl.
Qed.

Lemma feed_in_order_witness : subscriber_count toy_hub = 1.
Proof. rewrite (proj2 (feed_in_order toy_hub toy_hub_reachable)); reflexivity. Defined.

Lemma broadcast_isolated_witness : ∃ s', subs (broadcast toy_hub "x") !! 0%nat = Some s' ∧ registered s' = true.
Proof.
  destruct (broadcast_isolated toy_hub "x" 0 _ eq_refl) as (s' & Hs & _ & Hr & _).
  exists s'. split; [exact Hs|]. exact (proj1 (Hr eq_refl)).
Defined.
