(* ===== verification/KnownHosts.v ===== *)
(** Host-key pins: [crates/gateway-core/src/known_hosts.rs] and the host-key
    check of [crates/gateway-core/src/ssh.rs], for operations that do not
    overlap ([PinTasks] has those that do).

    The pin store with its file, the three host-key policies, trust on first
    use, and the import of OpenSSH [known_hosts] lines. *)

From stdpp Require Import sorting.
From S2P Require Import Prelude Strs Json Extern Toy.
#[local] Open Scope Z_scope.

Record Pin : Type := {
  hostport : str;
  openssh_key : str;
  first_seen : str;
  source : str;
}.

(** The file: [StoreFile]. *)
Record PinFile : Type := { version : Z; pins : list Pin }.

Inductive PinStoreError : Type :=
| PIo (e : str)
| PCorrupt (e : str)
| PSerialize (e : str).

(** [Display for PinStoreError]. *)
Definition pin_error_str (e : PinStoreError) : str :=
  match e with
  | PIo e => "known-hosts i/o: " ++ e
  | PCorrupt e => "known-hosts corrupt: " ++ e
  | PSerialize e => "known-hosts serialize: " ++ e
  end.

(** Outcome of reading the file. *)
Inductive file_read : Type :=
| FileText (text : str)
| FileMissing
| FileError (e : str).

(** The pins in memory and the content of the file, if it exists. *)
Record PinStore : Type := { inner : gmap str Pin; disk : option str }.

Section Pins.
Context `{SerdeText PinFile}.

(** [PinStore::load]. *)
Definition load_pins (ps : list Pin) : gmap str Pin :=
  fold_left (λ m p, <[hostport p := p]> m) ps ∅.

Definition load (f : file_read) : result PinStoreError PinStore :=
  match f with
  | FileText text =>
      if is_empty (trim text) then Ok {| inner := ∅; disk := Some text |}
      else
        file ← map_err PCorrupt (from_text text);
        if decide (version file = 1) then Ok {| inner := load_pins (pins file); disk := Some text |}
        else Err (PCorrupt ("unknown known-hosts version " ++ show (version file)))
  | FileMissing => Ok {| inner := ∅; disk := None |}
  | FileError e => Err (PIo e)
  end.

(** [PinStore::get]. *)
Definition get_pin (s : PinStore) (hp : str) : option Pin := inner s !! hp.

(** [PinStore::list]: sorted by identity. *)
Definition pin_le (a b : Pin) : Prop := str_ltb (hostport b) (hostport a) = false.
#[global] Instance pin_le_dec a b : Decision (pin_le a b).
Proof. unfold pin_le. apply _. Defined.
Definition list_pins (s : PinStore) : list Pin := merge_sort pin_le ((map_to_list (inner s)).*2).

(** [PinStore::persist]: the rename replaces the file, unless an earlier file
    operation failed. *)
Definition persist (s : PinStore) (io : option str) : result PinStoreError unit * PinStore :=
  match io with
  | Some e => (Err (PIo e), s)
  | None => (Ok tt, {| inner := inner s; disk := Some (to_text {| version := 1; pins := list_pins s |}) |})
  end.

(** [PinStore::insert] with nothing between its locked parts: the lookup, the
    map, then the file.  [PinTasks] has the parts. *)
Definition insert_pin (s : PinStore) (hp key src now : str) (io : option str)
  : result PinStoreError unit * PinStore :=
  match inner s !! hp with
  | Some pin =>
      if decide (openssh_key pin = key) then (Ok tt, s)
      else (Err (PCorrupt (hp ++ " is already pinned to a DIFFERENT key; an operator must review and replace the pin")), s)
  | None =>
      persist {| inner := <[hp := {| hostport := hp; openssh_key := key; first_seen := now; source := src |}]> (inner s);
                 disk := disk s |} io
  end.

(** [PinStore::replace]. *)
Definition replace_pin (s : PinStore) (hp key reason now : str) (io : option str)
  : result PinStoreError bool * PinStore :=
  match inner s !! hp with
  | Some pin =>
      let s1 := {| inner := <[hp := {| hostport := hostport pin; openssh_key := key; first_seen := now;
                                       source := "replace:" ++ reason |}]> (inner s); disk := disk s |} in
      match persist s1 io with (Ok _, s2) => (Ok true, s2) | (Err e, s2) => (Err e, s2) end
  | None => (Ok false, s)
  end.

(** ** ssh.rs: the host-key policy *)

Inductive HostKeyPolicy : Type :=
| RefuseUnknown
| TrustOnFirstUseAll
| UsePinStore (tofu : bool).

(** [ClientHandler::check_server_key] for the identity [hp]; [line] is the
    outcome of [key_line] on the server's key.  An error refuses too. *)
Definition check_server_key (p : HostKeyPolicy) (s : PinStore) (hp : str) (line : result str str)
    (now : str) (io : option str) : result str bool * PinStore :=
  match line with
  | Err _ => (Ok false, s)
  | Ok line =>
      match p with
      | TrustOnFirstUseAll => (Ok true, s)
      | RefuseUnknown => (Ok false, s)
      | UsePinStore tofu =>
          match get_pin s hp with
          | Some pin => (Ok (bool_decide (openssh_key pin = line)), s)
          | None =>
              if tofu then
                match insert_pin s hp line "tofu" now io with
                | (Ok _, s') => (Ok true, s')
                | (Err e, s') => (Err ("pin persistence failed: " ++ pin_error_str e), s')
                end
              else (Ok false, s)
          end
      end
  end.

Definition accepts (r : result str bool) : bool := match r with Ok b => b | Err _ => false end.

(** ** Properties of the store *)

(** Every pin is stored under its own identity. *)
Definition keyed (m : gmap str Pin) : Prop := ∀ hp pin, m !! hp = Some pin → hostport pin = hp.

Lemma keyed_insert m hp pin : keyed m → hostport pin = hp → keyed (<[hp := pin]> m).
Proof. intros Hm Hp hp' pin' [[<- <-]|[_ Hl]]%lookup_insert_Some; [done|by apply Hm]. Qed.

Lemma load_pins_app ps m : fold_left (λ m p, <[hostport p := p]> m) ps m = load_pins ps ∪ m.
Proof.
  unfold load_pins. revert m. induction ps as [|p ps IH]; intros m; simpl; [by rewrite (left_id_L ∅ (∪))|].
  rewrite (IH (<[_ := p]> m)), (IH (<[_ := p]> ∅)). rewrite <- (assoc_L (∪)). f_equal.
  by rewrite <- insert_union_l, (left_id_L ∅ (∪)).
Qed.

Lemma keyed_load ps : keyed (load_pins ps).
Proof.
  unfold load_pins. assert (keyed ∅) as He by (intros ??; by rewrite lookup_empty). revert He.
  generalize (∅ : gmap str Pin). induction ps as [|p ps IH]; intros m Hm; simpl; [done|].
  apply IH. by apply keyed_insert.
Qed.

(** Loading a permutation of the pins of a keyed map gives the map back. *)
Lemma load_pins_list (l : list (str * Pin)) :
  Forall (λ kv, hostport kv.2 = kv.1) l → NoDup l.*1 → load_pins l.*2 = list_to_map l.
Proof.
  induction l as [|[k p] l IH]; intros Hf Hnd; [done|]. apply Forall_cons in Hf as [Hk Hf].
  apply NoDup_cons in Hnd as [Hni Hnd]. cbn [fst snd] in Hk. rewrite !fmap_cons. cbn [fst snd].
  unfold load_pins. cbn [fold_left list_to_map foldr]. rewrite load_pins_app, IH by done.
  rewrite Hk. symmetry. rewrite insert_union_singleton_l. rewrite map_union_comm; [done|].
  apply map_disjoint_singleton_l. by apply not_elem_of_list_to_map_1.
Qed.

Lemma load_pins_persisted s : keyed (inner s) → load_pins (list_pins s) = inner s.
Proof.
  intros Hk. assert (∃ l, list_pins s = l.*2 ∧ map_to_list (inner s) ≡ₚ l) as (l & Hl & Hp).
  { apply Permutation_map_inv. apply merge_sort_Permutation. }
  rewrite Hl, load_pins_list.
  - rewrite <- (list_to_map_to_list (inner s)). symmetry. apply list_to_map_proper; [|done].
    apply NoDup_fst_map_to_list.
  - rewrite <- Hp. apply Forall_forall. intros [k p] Hin%elem_of_map_to_list. by apply Hk.
  - rewrite <- Hp. apply NoDup_fst_map_to_list.
Qed.

(** A file that some store persisted. *)
Definition wrote (d : option str) (m : gmap str Pin) : Prop :=
  keyed m ∧ ∃ ps, d = Some (to_text {| version := 1; pins := ps |}) ∧ load_pins ps = m.

Lemma load_wrote d m : wrote d m → ∃ t, d = Some t ∧ load (FileText t) = Ok {| inner := m; disk := Some t |}.
Proof.
  intros (Hk & ps & -> & Hm). eexists. split; [done|]. simpl.
  destruct (to_text_object {| version := 1; pins := ps |}) as [r Hr].
  rewrite (trim_nonempty Byte.x7b) by (first [rewrite Hr; by left | done]).
  rewrite from_to_text. simpl. by rewrite Hm.
Qed.

Lemma persist_wrote s : keyed (inner s) → wrote (disk (persist s None).2) (inner s).
Proof. intros Hk. split; [done|]. eexists. split; [done|]. by apply load_pins_persisted. Qed.

(** What happens to a store: checks of server keys, operator inserts and
    replacements, and restarts from the file. *)
Inductive pin_op : Type :=
| PCheck (tofu : bool) (hp : str) (line : result str str) (now : str) (io : option str)
| PInsert (hp key src now : str) (io : option str)
| PReplace (hp key reason now : str) (io : option str)
| PRestart.

Definition run_pin_op (s : PinStore) (o : pin_op) : PinStore :=
  match o with
  | PCheck tofu hp line now io => (check_server_key (UsePinStore tofu) s hp line now io).2
  | PInsert hp key src now io => (insert_pin s hp key src now io).2
  | PReplace hp key reason now io => (replace_pin s hp key reason now io).2
  | PRestart => match load (match disk s with Some t => FileText t | None => FileMissing end) with
                | Ok s' => s'
                | Err _ => s
                end
  end.

Definition replaces (hp : str) (o : pin_op) : bool :=
  match o with PReplace hp' _ _ _ _ => bool_decide (hp' = hp) | _ => false end.

(** The key [k] is pinned for [hp], in memory and in the file. *)
Definition pinned (hp k : str) (s : PinStore) : Prop :=
  keyed (inner s) ∧ (openssh_key <$> inner s !! hp = Some k) ∧
  ∃ m, wrote (disk s) m ∧ openssh_key <$> m !! hp = Some k.

Lemma pinned_insert hp k s s' : pinned hp k s → keyed (inner s') → disk s' = disk s →
  openssh_key <$> inner s' !! hp = Some k → ∀ io, pinned hp k (persist s' io).2.
Proof.
  intros (_ & _ & m & Hw & Hm) Hk Hd Hi [e|]; simpl.
  - split_and!; [done|done|]. exists m. by rewrite Hd.
  - split_and!; [done|done|]. exists (inner s'). split; [by apply persist_wrote|done].
Qed.

Lemma pinned_add hp k s hp' key src now io : pinned hp k s → pinned hp k (insert_pin s hp' key src now io).2.
Proof.
  intros Hp. unfold insert_pin. destruct (inner s !! hp') as [pin|] eqn:Hl; [by case_decide|].
  destruct Hp as (Hk & Hi & Hd). apply (pinned_insert hp k s); [done| |done|].
  - by apply keyed_insert.
  - simpl. rewrite lookup_insert_ne; [done|]. intros ->. rewrite Hl in Hi. done.
Qed.

Lemma pinned_step hp k s o : pinned hp k s → replaces hp o = false → pinned hp k (run_pin_op s o).
Proof.
  intros Hp Hr. destruct o as [tofu hp' line now io|hp' key src now io|hp' key reason now io|]; simpl.
  - destruct line as [line|]; [|done]. simpl. destruct (get_pin s hp'); [done|]. destruct tofu; [|done].
    pose proof (pinned_add hp k s hp' line "tofu" now io Hp) as Ha.
    by destruct (insert_pin s hp' line "tofu" now io) as [[] s'].
  - by apply pinned_add.
  - unfold replace_pin. destruct (inner s !! hp') as [pin|] eqn:Hl; [|done]. cbv zeta.
    simpl in Hr. apply bool_decide_eq_false in Hr.
    match goal with |- context [persist ?s1 io] => assert (pinned hp k (persist s1 io).2) as Ha end.
    { destruct Hp as (Hk & Hi & Hd). apply (pinned_insert hp k s); [done| |done|].
      - apply keyed_insert; [done|]. simpl. by apply Hk.
      - simpl. by rewrite lookup_insert_ne. }
    destruct (persist _ io) as [[] s2]; exact Ha.
  - destruct Hp as (Hk & Hi & m & Hw & Hm). destruct (load_wrote _ _ Hw) as (t & Ht & Hl).
    rewrite Ht, Hl. split_and!; [apply Hw|done|]. exists m. by rewrite <- Ht.
Qed.

Lemma pinned_steps hp k os s : pinned hp k s → Forall (λ o, replaces hp o = false) os →
  pinned hp k (fold_left run_pin_op os s).
Proof. intros Hp Hf. revert s Hp. induction Hf; intros s Hp; simpl; [done|]. apply IHHf. by apply pinned_step. Qed.

(** A pin decides until an operator replaces it, when the operations do not
    overlap: through any sequence of connections to any hosts, operator's
    inserts, replacements of other pins, failed writes and restarts, the check
    accepts the pinned key for that host and refuses every other.  [PinTasks]
    has the statement for operations that overlap. *)
Theorem pin_decides_serially hp k s os tofu line now io :
  pinned hp k s → Forall (λ o, replaces hp o = false) os →
  accepts (check_server_key (UsePinStore tofu) (fold_left run_pin_op os s) hp (Ok line) now io).1 =
  bool_decide (line = k).
Proof.
  intros Hp Hf. destruct (pinned_steps hp k os s Hp Hf) as (_ & Hi & _).
  unfold check_server_key, get_pin. destruct (inner _ !! hp) as [pin|]; [|done]. injection Hi as ->.
  simpl. apply bool_decide_ext. by split; intros ->.
Qed.

Lemma contact_pins s hp line now : keyed (inner s) → inner s !! hp = None →
  pinned hp line (check_server_key (UsePinStore true) s hp (Ok line) now None).2.
Proof.
  intros Hk Hn. unfold check_server_key, get_pin. rewrite Hn. unfold insert_pin. rewrite Hn.
  set (s1 := {| inner := _; disk := disk s |}).
  assert (keyed (inner s1)) as Hk1 by (by apply keyed_insert).
  assert (openssh_key <$> inner s1 !! hp = Some line) as Hi1 by (simpl; by rewrite lookup_insert_eq).
  split_and!; [done|done|]. exists (inner s1). split; [by apply persist_wrote|done].
Qed.

(** First contact.  An unknown host is refused unless trust on first use
    is on; then it is accepted exactly if the pin could be written to the file,
    and from then on that key is pinned. *)
Theorem first_contact s hp line now io tofu :
  keyed (inner s) → inner s !! hp = None →
  let r := check_server_key (UsePinStore tofu) s hp (Ok line) now io in
  accepts r.1 = tofu && bool_decide (io = None) ∧
  (accepts r.1 = true → pinned hp line r.2) ∧
  (tofu = false → r.2 = s).
Proof.
  intros Hk Hn r. subst r. pose proof (contact_pins s hp line now Hk Hn) as Hp.
  unfold check_server_key, get_pin, insert_pin in *. rewrite Hn in *. destruct tofu; [|done].
  by destruct io as [e|]; simpl in *.
Qed.
End Pins.

(** ** Import *)

(** [normalize_hostport]. *)
Definition normalize_hostport (pattern : str) : str := pattern.

Definition patterned (p : str) : bool :=
  starts_with "|" p || contains_byte Byte.x2c p || contains_byte Byte.x2a p || contains_byte Byte.x3f p ||
  starts_with "!" p.

(** [parse_openssh_known_hosts]: the pins and the lines skipped. *)
Fixpoint import_lines (i : Z) (now : str) (ls : list str) : list Pin * list str :=
  match ls with
  | [] => ([], [])
  | raw :: rest =>
      let line := trim raw in
      let '(ps, sk) := import_lines (i + 1) now rest in
      if is_empty line || starts_with "#" line then (ps, sk)
      else match split_whitespace line with
           | patterns :: keytype :: keybody :: _ =>
               if patterned patterns
               then (ps, ("line " ++ show (i + 1) ++ ": patterned/hashed entry") :: sk)
               else ({| hostport := normalize_hostport patterns; openssh_key := keytype ++ " " ++ keybody;
                        first_seen := now; source := "import" |} :: ps, sk)
           | _ => (ps, sk)
           end
  end.

Definition parse_openssh_known_hosts (text now : str) : list Pin * list str := import_lines 0 now (lines text).

(** ** Witnesses and concrete behaviours *)

#[global] Instance pin_eq_dec : EqDecision Pin.
Proof. solve_decision. Defined.
#[global] Program Instance pin_countable : Countable Pin :=
  inj_countable' (λ p, (hostport p, openssh_key p, first_seen p, source p))
    (λ t, {| hostport := t.1.1.1; openssh_key := t.1.1.2; first_seen := t.1.2; source := t.2 |}) _.
Next Obligation. by intros []. Qed.
#[global] Instance pin_file_eq_dec : EqDecision PinFile.
Proof. solve_decision. Defined.
#[global] Program Instance pin_file_countable : Countable PinFile :=
  inj_countable' (λ f, (version f, pins f)) (λ t, {| version := t.1; pins := t.2 |}) _.
Next Obligation. by intros []. Qed.

Section Witnesses.
#[local] Existing Instance toy_serde.

Definition empty_store : PinStore := {| inner := ∅; disk := None |}.
Definition contacted : PinStore :=
  (check_server_key (UsePinStore true) empty_store "h:22" (Ok "ssh-ed25519 AAAA") "t0" None).2.

Lemma first_contact_witness : pinned "h:22" "ssh-ed25519 AAAA" contacted.
Proof.
  apply (first_contact empty_store "h:22" "ssh-ed25519 AAAA" "t0" None true).
  - intros hp pin. simpl. by rewrite lookup_empty.
  - reflexivity.
  - reflexivity.
Defined.

Lemma pin_decides_serially_witness :
  accepts (check_server_key (UsePinStore true) (run_pin_op contacted PRestart) "h:22" (Ok "ssh-ed25519 BBBB") "t1" None).1
  = false.
Proof.
  apply (pin_decides_serially "h:22" "ssh-ed25519 AAAA" contacted [PRestart] true "ssh-ed25519 BBBB" "t1" None).
  - apply (contact_pins empty_store); [intros hp pin; simpl; by rewrite lookup_empty|reflexivity].
  - repeat constructor.
Defined.

(** A pin that could not be written is refused once and trusted afterwards:
    the map keeps it.  After a restart the host is unknown again. *)
Theorem unwritten_pin_is_trusted :
  let r1 := check_server_key (UsePinStore true) empty_store "h:22" (Ok "key-a") "t0" (Some "disk full") in
  let r2 := check_server_key (UsePinStore true) r1.2 "h:22" (Ok "key-a") "t1" (Some "disk full") in
  let r3 := check_server_key (UsePinStore true) (run_pin_op r2.2 PRestart) "h:22" (Ok "key-b") "t2" None in
  accepts r1.1 = false ∧ accepts r2.1 = true ∧ disk r2.2 = None ∧ accepts r3.1 = true.
Proof. split_and!; vm_compute; reflexivity. Qed.

(** An imported bare host is stored under its name, while connections look up
    [host:port]: a different key for that host is accepted on first contact. *)
Theorem imported_bare_host_not_consulted :
  let '(ps, skipped) := parse_openssh_known_hosts "web1 ssh-ed25519 AAAA me@x" "t0" in
  let s := fold_left (λ s p, (insert_pin s (hostport p) (openssh_key p) (source p) "t0" None).2) ps empty_store in
  length ps = 1%nat ∧ openssh_key <$> get_pin s "web1" = Some ("ssh-ed25519 AAAA" : str) ∧
  accepts (check_server_key (UsePinStore true) s ("web1" ++ ":" ++ show 22) (Ok "ssh-ed25519 BBBB") "t1" None).1 = true.
Proof. vm_compute. split_and!; reflexivity. Qed.
End Witnesses.
