(* ===== verification/PinTasks.v ===== *)
(** Overlapping host-key checks: [crates/gateway-core/src/known_hosts.rs] and
    [ClientHandler::check_server_key] of [ssh.rs].

    Sessions are opened in parallel over one [Arc<PinStore>], and an operator
    may insert and replace pins meanwhile.  [insert] looks for a pin under the
    mutex, releases it, and adds the pin under the mutex again; [persist] then
    takes a snapshot under the mutex and replaces the file without it.  Each
    call is cut here at these places.  A call that runs alone is the sequential
    definition ([pin_call_alone]).  A pin that has settled decides under every
    interleaving ([pin_decides]); two first contacts that overlap are both
    accepted, with different keys ([overlapping_first_contacts]). *)

From S2P Require Import Prelude Strs Json Extern Toy KnownHosts.
#[local] Open Scope Z_scope.

(** ** Calls *)

Inductive PinRequest : Type :=
| QCheck (tofu : bool) (hp line : str)
| QInsert (hp key src : str)
| QReplace (hp key reason : str).

Definition request_host (q : PinRequest) : str :=
  match q with QCheck _ hp _ | QInsert hp _ _ | QReplace hp _ _ => hp end.

(** How far a call has come: before its first lock; before the lookup of
    [insert]; between that lookup and the addition; before the snapshot of
    [persist]; with the snapshot; returned. *)
Inductive PinStage : Type :=
| PStart
| PContains
| PAdding
| PSnapshot
| PWriting (snapshot : list Pin)
| PReturned (r : result str bool).

Record PinCall : Type := { preq : PinRequest; pstage : PinStage }.

(** What a call adds to the store: the key and where it is from. *)
Definition addition (q : PinRequest) : str * str :=
  match q with QCheck _ _ line => (line, "tofu") | QInsert _ key src => (key, src) | QReplace _ key reason => (key, "replace:" ++ reason) end.

(** What a call returns when [insert] or [replace] ends with [r]; the operator
    sees whether there was an error. *)
Definition returns (q : PinRequest) (r : result PinStoreError unit) : result str bool :=
  match r, q with
  | Ok _, _ => Ok true
  | Err e, QCheck _ _ _ => Err ("pin persistence failed: " ++ pin_error_str e)
  | Err e, _ => Err (pin_error_str e)
  end.

Section PinTasks.
Context `{SerdeText PinFile}.

(** The first locked part of [insert]. *)
Definition insert_lookup (s : PinStore) (q : PinRequest) : PinStage :=
  match inner s !! request_host q with
  | Some pin =>
      if decide (openssh_key pin = (addition q).1) then PReturned (returns q (Ok tt))
      else PReturned (returns q (Err (PCorrupt (request_host q ++
             " is already pinned to a DIFFERENT key; an operator must review and replace the pin"))))
  | None => PAdding
  end.

Definition add_pin (s : PinStore) (q : PinRequest) (now : str) : PinStore :=
  {| inner := <[request_host q := {| hostport := request_host q; openssh_key := (addition q).1; first_seen := now;
                                     source := (addition q).2 |}]> (inner s); disk := disk s |}.

(** The file part of [persist]. *)
Definition write_pins (s : PinStore) (snapshot : list Pin) (io : option str) : result PinStoreError unit * PinStore :=
  match io with
  | Some e => (Err (PIo e), s)
  | None => (Ok tt, {| inner := inner s; disk := Some (to_text {| version := 1; pins := snapshot |}) |})
  end.

(** One step of one call, at the clock [now] and with the outcome [io] of its
    file operations; [None] when it has returned. *)
Definition pin_call_step (s : PinStore) (c : PinCall) (now : str) (io : option str) : option (PinStore * PinStage) :=
  match pstage c with
  | PStart =>
      match preq c with
      | QCheck tofu hp line =>
          Some (s, match get_pin s hp with
                   | Some pin => PReturned (Ok (bool_decide (openssh_key pin = line)))
                   | None => if tofu then PContains else PReturned (Ok false)
                   end)
      | QInsert _ _ _ => Some (s, insert_lookup s (preq c))
      | QReplace hp key reason =>
          match inner s !! hp with
          | Some pin => Some (add_pin s (preq c) now, PSnapshot)
          | None => Some (s, PReturned (Ok false))
          end
      end
  | PContains => Some (s, insert_lookup s (preq c))
  | PAdding => Some (add_pin s (preq c) now, PSnapshot)
  | PSnapshot => Some (s, PWriting (list_pins s))
  | PWriting snapshot => let '(r, s') := write_pins s snapshot io in Some (s', PReturned (returns (preq c) r))
  | PReturned _ => None
  end.

(** ** A call alone *)

Fixpoint pin_alone (n : nat) (s : PinStore) (c : PinCall) (now : str) (io : option str) : PinStore * PinStage :=
  match n with
  | O => (s, pstage c)
  | S n' =>
      match pin_call_step s c now io with
      | None => (s, pstage c)
      | Some (s', st) => pin_alone n' s' {| preq := preq c; pstage := st |} now io
      end
  end.

Definition pin_sequential (s : PinStore) (q : PinRequest) (now : str) (io : option str) : PinStore * result str bool :=
  match q with
  | QCheck tofu hp line => let '(r, s') := check_server_key (UsePinStore tofu) s hp (Ok line) now io in (s', r)
  | QInsert hp key src => let '(r, s') := insert_pin s hp key src now io in (s', returns q r)
  | QReplace hp key reason =>
      let '(r, s') := replace_pin s hp key reason now io in (s', map_err pin_error_str r)
  end.

(** Taken with nothing between them, the steps of a call are the sequential
    [check_server_key], [insert] and [replace], on a store that keeps each pin
    under its own host. *)
Theorem pin_call_alone s q now io : keyed (inner s) →
  pin_alone 5 s {| preq := q; pstage := PStart |} now io =
    let '(s', r) := pin_sequential s q now io in (s', PReturned r).
Proof.
  intros Hk. destruct q as [tofu hp line|hp key src|hp key reason]; cbn.
  - unfold get_pin. destruct (inner s !! hp) as [pin|] eqn:Hp; [done|]. destruct tofu; [|done].
    cbn. unfold insert_lookup, insert_pin. cbn. rewrite Hp. cbn. by destruct io.
  - unfold insert_lookup, insert_pin. cbn. destruct (inner s !! hp) as [pin|] eqn:Hp; [by case_decide|].
    cbn. by destruct io.
  - unfold replace_pin. destruct (inner s !! hp) as [pin|] eqn:Hp; [|done]. cbn. rewrite (Hk _ _ Hp). by destruct io.
Qed.

(** ** All interleavings *)

(** The store, the calls under way and returned, and what checks were
    answered: the host, the key it showed, and whether it was accepted. *)
Record PinWorld : Type := { store : PinStore; calls : list PinCall; answered : list (str * str * bool) }.

Definition answer_of (q : PinRequest) (st : PinStage) : list (str * str * bool) :=
  match q, st with QCheck _ hp line, PReturned r => [(hp, line, accepts r)] | _, _ => [] end.

(** A call the daemon or the operator makes ([ok] says which), a step of a
    call, or a restart from the file, which ends every call. *)
Inductive pin_step (ok : PinRequest → Prop) (w : PinWorld) : PinWorld → Prop :=
| pin_arrive q : ok q →
    pin_step ok w {| store := store w; calls := calls w ++ [{| preq := q; pstage := PStart |}]; answered := answered w |}
| pin_run i c now io s' st :
    calls w !! i = Some c → pin_call_step (store w) c now io = Some (s', st) →
    pin_step ok w {| store := s'; calls := <[i := {| preq := preq c; pstage := st |}]> (calls w);
                     answered := answered w ++ answer_of (preq c) st |}
| pin_restart s' :
    load (match disk (store w) with Some t => FileText t | None => FileMissing end) = Ok s' →
    pin_step ok w {| store := s'; calls := []; answered := answered w |}.

(** ** Pins that have settled *)

(** No call on [hp] is past its start, and no snapshot without the pin is
    waiting to be written. *)
Definition call_settled (hp k : str) (c : PinCall) : Prop :=
  (request_host (preq c) = hp →
     match pstage c with PStart => match preq c with QReplace _ _ _ => False | _ => True end
                       | PReturned _ => True | _ => False end) ∧
  (∀ snap, pstage c = PWriting snap → keyed (load_pins snap) ∧ openssh_key <$> load_pins snap !! hp = Some k).

(** The key [k] is pinned for [hp], in memory and in the file, and no call
    under way will change that. *)
Definition settled (hp k : str) (w : PinWorld) : Prop :=
  pinned hp k (store w) ∧ Forall (call_settled hp k) (calls w).

Definition not_replacing (hp : str) (q : PinRequest) : Prop :=
  match q with QReplace hp' _ _ => hp' ≠ hp | _ => True end.

Lemma pinned_lookup hp k s : pinned hp k s → ∃ pin, inner s !! hp = Some pin ∧ openssh_key pin = k.
Proof. intros (_ & Hi & _). destruct (inner s !! hp) as [pin|]; [|done]. injection Hi as <-. eauto. Qed.

Lemma pinned_add_other hp k s q now : pinned hp k s → request_host q ≠ hp → pinned hp k (add_pin s q now).
Proof.
  intros (Hk & Hi & Hd) Hne. split_and!; [by apply keyed_insert| |done]. simpl. by rewrite lookup_insert_ne.
Qed.

Lemma pinned_write hp k s snap io : pinned hp k s → keyed (load_pins snap) →
  openssh_key <$> load_pins snap !! hp = Some k → pinned hp k (write_pins s snap io).2.
Proof.
  intros (Hk & Hi & Hd) Hks Hs. destruct io; [done|]. split_and!; [done|done|]. exists (load_pins snap).
  split; [|done]. split; [done|]. by eexists.
Qed.

(** A step of a call on a settled pin. *)
Lemma settled_call hp k s c now io s' st :
  pinned hp k s → call_settled hp k c → pin_call_step s c now io = Some (s', st) →
  pinned hp k s' ∧ call_settled hp k {| preq := preq c; pstage := st |} ∧
  Forall (λ '(h, line, b), h = hp → b = bool_decide (line = k)) (answer_of (preq c) st).
Proof.
  intros Hp [Hh Hw] Hs. destruct (pinned_lookup _ _ _ Hp) as (pin & Hl & Hpk). unfold pin_call_step in Hs.
  destruct (decide (request_host (preq c) = hp)) as [He|Hne].
  - specialize (Hh He). destruct (pstage c) eqn:Hst; try done. unfold insert_lookup, get_pin in Hs.
    destruct (preq c) as [tofu hp' line|hp' key src|] eqn:Hq; [| |done]; cbn [request_host addition fst] in *; subst hp';
      rewrite Hl in Hs.
    + simplify_eq. split_and!; [done|by split|]. repeat constructor. intros _. cbn. apply bool_decide_ext. by split; intros ->.
    + destruct (decide (openssh_key pin = key)); simplify_eq; split_and!; try done; by split.
  - assert (Forall (λ '(h, line, b), h = hp → b = bool_decide (line = k)) (answer_of (preq c) st)) as Ha.
    { unfold answer_of. destruct (preq c), st; constructor; [|constructor]. by intros ->. }
    assert (∀ st', (∀ snap, st' ≠ PWriting snap) → call_settled hp k {| preq := preq c; pstage := st' |}) as Hc.
    { intros st' Hno. split; [done|]. cbn. intros snap ->. by destruct (Hno snap). }
    destruct (pstage c) eqn:Hst; [| | | | |done].
    + destruct (preq c) as [tofu hp' line|hp' key src|hp' key reason] eqn:Hq.
      * simplify_eq. split_and!; [done| |done]. rewrite <- Hq in *. apply Hc. intros snap. repeat case_match; done.
      * simplify_eq. split_and!; [done| |done]. apply Hc. unfold insert_lookup. intros snap. repeat case_match; done.
      * destruct (inner s !! hp'); simplify_eq; (split_and!; [|by apply Hc|done]); [|done]. by apply pinned_add_other.
    + simplify_eq. split_and!; [done| |done]. apply Hc. unfold insert_lookup. intros snap. repeat case_match; done.
    + simplify_eq. split_and!; [by apply pinned_add_other|by apply Hc|done].
    + simplify_eq. split_and!; [done| |done]. split; [done|]. cbn. intros ? [= <-]. destruct Hp as (Hk & Hi & _).
      by rewrite load_pins_persisted.
    + destruct (write_pins s snapshot io) as [r s1] eqn:Hwr. simplify_eq. destruct (Hw _ eq_refl) as [Hks Hsn].
      split_and!; [|by apply Hc|done]. pose proof (pinned_write hp _ s snapshot io Hp Hks Hsn) as Hpw. by rewrite Hwr in Hpw.
Qed.

Lemma settled_step hp k w w' : settled hp k w → pin_step (not_replacing hp) w w' →
  settled hp k w' ∧ ∃ new, answered w' = answered w ++ new ∧
    Forall (λ '(h, line, b), h = hp → b = bool_decide (line = k)) new.
Proof.
  intros [Hp Hc] [q Hq|i c now io s' st Hi Hs|s' Hl]; cbn.
  - split; [|exists []; by rewrite app_nil_r]. split; [done|]. apply Forall_app. split; [done|]. constructor; [|constructor].
    split; cbn; [|done]. intros <-. by destruct q.
  - destruct (settled_call hp k _ _ _ _ _ _ Hp (Forall_lookup_1 _ _ _ _ Hc Hi) Hs) as (Hp' & Hc' & Ha).
    split; [|by eexists]. split; [done|]. by apply Forall_insert.
  - split; [|exists []; by rewrite app_nil_r]. split; [|constructor]. destruct Hp as (Hk & Hin & m & Hw & Hm).
    destruct (load_wrote _ _ Hw) as (t & Ht & Hload). rewrite Ht, Hload in Hl. simplify_eq. cbn.
    split_and!; [apply Hw|done|]. exists m. by rewrite <- Ht.
Qed.

(** C35: A settled pin decides until an operator replaces it.  Once a key is
    pinned for a host, in memory and in the file, and no call that could still
    undo that is under way (a first contact or operator's change of the same
    host that has passed its lookup, or a write of an older snapshot), then
    under every interleaving of checks of any hosts, operator's inserts,
    replacements of other pins, failed writes and restarts, every answer to a
    check of that host accepts the pinned key and refuses every other, and so
    does the next check. *)
Theorem pin_decides hp k w w' :
  settled hp k w → rtc (pin_step (not_replacing hp)) w w' →
  (∃ new, answered w' = answered w ++ new ∧ Forall (λ '(h, line, b), h = hp → b = bool_decide (line = k)) new) ∧
  ∀ tofu line now io, accepts (check_server_key (UsePinStore tofu) (store w') hp (Ok line) now io).1 = bool_decide (line = k).
Proof.
  intros Hs Hr. enough (settled hp k w' ∧ ∃ new, answered w' = answered w ++ new ∧
    Forall (λ '(h, line, b), h = hp → b = bool_decide (line = k)) new) as [[Hp _] Hn].
  { split; [done|]. intros tofu line now io. destruct (pinned_lookup _ _ _ Hp) as (pin & Hl & <-).
    unfold check_server_key, get_pin. rewrite Hl. cbn. apply bool_decide_ext. by split; intros ->. }
  revert Hs. induction Hr as [w|w w1 w' Hs1 _ IH]; intros Hs; [split; [done|]; exists []; by rewrite app_nil_r|].
  destruct (settled_step _ _ _ _ Hs Hs1) as [Hs' (n1 & Ha1 & Hf1)]. destruct (IH Hs') as [Hs2 (n2 & Ha2 & Hf2)].
  split; [done|]. exists (n1 ++ n2). rewrite Ha2, Ha1, app_assoc. split; [done|]. by apply Forall_app.
Qed.

(** A first contact that ran alone has settled. *)
Lemma contact_settles s hp line now l : keyed (inner s) → inner s !! hp = None →
  settled hp line {| store := (pin_alone 5 s {| preq := QCheck true hp line; pstage := PStart |} now None).1;
                     calls := []; answered := l |}.
Proof.
  intros Hk Hn. split; [|constructor]. cbn [store]. rewrite pin_call_alone by done. unfold pin_sequential.
  pose proof (contact_pins s hp line now Hk Hn) as Hp. by destruct (check_server_key _ _ _ _ _ _) as [r s'].
Qed.
End PinTasks.

(** ** Concrete interleavings *)

Section Runs.
#[local] Existing Instance toy_serde.

Inductive PinMove : Type := PArrive (q : PinRequest) | PRun (i : nat) (io : option str) | PReboot.

(** A move that is not possible is skipped. *)
Definition pin_move (w : PinWorld) (m : PinMove) : PinWorld :=
  match m with
  | PArrive q => {| store := store w; calls := calls w ++ [{| preq := q; pstage := PStart |}]; answered := answered w |}
  | PRun i io =>
      match calls w !! i with
      | Some c => match pin_call_step (store w) c "now" io with
                  | Some (s', st) => {| store := s'; calls := <[i := {| preq := preq c; pstage := st |}]> (calls w);
                                        answered := answered w ++ answer_of (preq c) st |}
                  | None => w
                  end
      | None => w
      end
  | PReboot => match load (match disk (store w) with Some t => FileText t | None => FileMissing end) with
               | Ok s' => {| store := s'; calls := []; answered := answered w |}
               | Err _ => w
               end
  end.

Definition move_ok (ok : PinRequest → Prop) (m : PinMove) : Prop := match m with PArrive q => ok q | _ => True end.

Lemma pin_move_reaches ok w m : move_ok ok m → rtc (pin_step ok) w (pin_move w m).
Proof.
  intros Hm. destruct m as [q|i io|]; cbn [pin_move].
  - by apply rtc_once, pin_arrive.
  - destruct (calls w !! i) as [c|] eqn:Hc; [|done]. destruct (pin_call_step _ _ _ _) as [[s' st]|] eqn:Hs; [|done].
    apply rtc_once. by eapply pin_run.
  - destruct (load _) as [s'|] eqn:Hl; [|done]. by apply rtc_once, pin_restart.
Qed.

Lemma pin_moves_reach ok w ms : Forall (move_ok ok) ms → rtc (pin_step ok) w (foldl pin_move w ms).
Proof.
  intros Hf. revert w. induction Hf as [|m ms Hm Hf IH]; intros w; cbn [foldl]; [done|].
  etrans; [by apply pin_move_reaches|apply IH].
Qed.

Definition no_pins : PinWorld := {| store := empty_store; calls := []; answered := [] |}.

(** Both first contacts have looked for a pin before either adds one. *)
Definition two_contacts : list PinMove :=
  [PArrive (QCheck true "h:22" "key-a"); PArrive (QCheck true "h:22" "key-b");
   PRun 0 None; PRun 0 None; PRun 1 None; PRun 1 None;
   PRun 0 None; PRun 0 None; PRun 0 None; PRun 1 None; PRun 1 None; PRun 1 None].

(** Two overlapping first contacts of one host that shows different keys are
    both accepted.  The second replaces the pin of the first, which was written
    and trusted, without an operator; from then on the first key is refused. *)
Theorem overlapping_first_contacts :
  let w := foldl pin_move no_pins two_contacts in
  rtc (pin_step (not_replacing "h:22")) no_pins w ∧
  answered w = [(("h:22" : str), ("key-a" : str), true); (("h:22" : str), ("key-b" : str), true)] ∧
  openssh_key <$> get_pin (store w) "h:22" = Some ("key-b" : str) ∧
  accepts (check_server_key (UsePinStore true) (store w) "h:22" (Ok "key-a") "t" None).1 = false.
Proof.
  split; [apply pin_moves_reach; repeat constructor|]. split_and!; vm_compute; reflexivity.
Qed.

(** A pin alone, then a check with another key and one with a write of an
    unrelated pin in between, and a restart. *)
Definition settled_world : PinWorld :=
  {| store := (pin_alone 5 empty_store {| preq := QCheck true "h:22" "key-a"; pstage := PStart |} "t" None).1;
     calls := []; answered := [] |}.
Definition later : list PinMove :=
  [PArrive (QCheck true "h:22" "key-b"); PArrive (QInsert "i:22" "key-c" "cli"); PRun 1 None; PRun 0 None;
   PRun 1 None; PRun 1 None; PRun 1 None; PReboot; PArrive (QCheck true "h:22" "key-a"); PRun 0 None].

Lemma pin_decides_witness :
  let w := foldl pin_move settled_world later in
  ∃ new, answered w = [] ++ new ∧ Forall (λ '(h, line, b), h = "h:22" → b = bool_decide (line = "key-a")) new.
Proof.
  intros w. apply (pin_decides "h:22" "key-a" settled_world w).
  - apply (contact_settles empty_store); [intros hp pin; cbn; by rewrite lookup_empty|reflexivity].
  - apply pin_moves_reach. repeat constructor.
Defined.

Example later_answers :
  answered (foldl pin_move settled_world later) =
    [(("h:22" : str), ("key-b" : str), false); (("h:22" : str), ("key-a" : str), true)].
Proof. vm_compute. reflexivity. Qed.
End Runs.
