(* ===== verification/Ssh.v ===== *)
(** The SSH backend: [crates/gateway-core/src/ssh.rs].

    [ssh_connect] is the whole of [SshBackend::connect], over the host-key
    check of [KnownHosts] and a class for the SSH library; the session channel
    reads messages of the server into batches.  The theorems say that the
    private key is used only towards a host whose key the policy accepted, and
    that a session shows the server's output complete and in order. *)

From S2P Require Import Prelude Strs Json Extern Toy Protocol Session SshCa KnownHosts.
#[local] Open Scope Z_scope.

(** [key_line] on the outcome of [to_openssh]. *)
Definition key_line (openssh : result str str) : result str str :=
  full ← map_err (λ e, "host key serialization failed: " ++ e) openssh;
  let fields := split_whitespace full in
  let algo := default [] (fields !! 0%nat) in
  let b64 := default [] (fields !! 1%nat) in
  if is_empty algo || is_empty b64 then Err "host key openssh form incomplete" else Ok (algo ++ " " ++ b64).

(** [russh]: the key a server presents (or why it was not reached), the key
    exchange under the handler's verdict, the authentication of a user with a
    key, the requests on the channel.  The exchange succeeds only if the
    handler accepted the key. *)
Class Russh := {
  from_openssh : str → result str unit;
  presented : str → Z → result str (result str str);
  key_exchange : str → Z → result str bool → result str unit;
  authenticate : str → Z → str → str → result str bool;
  channel_open : str → Z → result str unit;
  request_pty : str → Z → result str unit;
  request_shell : str → Z → result str unit;
  key_exchange_accepted : ∀ h p v, key_exchange h p v = Ok tt → v = Ok true;
}.

(** What the backend does towards a host. *)
Inductive ssh_call : Type :=
| SDial (host : str) (port : Z)
| SAuth (host : str) (port : Z) (user key : str)
| SOpen
| SPty
| SShell.

Section Ssh.
Context `{Russh, SerdeText PinFile}.

(** [client::connect] with [ClientHandler]: the pin store is consulted under
    the name the connection goes to. *)
Definition ssh_dial (policy : HostKeyPolicy) (store : PinStore) (now : str) (io : option str) (host : str) (port : Z)
  : result str unit * PinStore :=
  match presented host port with
  | Err e => (Err e, store)
  | Ok key =>
      let '(verdict, store') := check_server_key policy store (host ++ ":" ++ show port) (key_line key) now io in
      (key_exchange host port verdict, store')
  end.

(** Authentication, the channel and, if wanted, a terminal with a shell. *)
Definition ssh_login (host : str) (port : Z) (user secret : str) (want_pty : bool) : result str unit * list ssh_call :=
  match authenticate host port user secret with
  | Err e => (Err ("auth exchange failed: " ++ e), [SAuth host port user secret])
  | Ok false => (Err ("public key rejected for " ++ user ++ "@" ++ host), [SAuth host port user secret])
  | Ok true =>
      match channel_open host port with
      | Err e => (Err ("channel open failed: " ++ e), [SAuth host port user secret; SOpen])
      | Ok _ =>
          if want_pty then
            match request_pty host port with
            | Err e => (Err ("pty request failed: " ++ e), [SAuth host port user secret; SOpen; SPty])
            | Ok _ => (map_err (λ e, "shell request failed: " ++ e) (request_shell host port),
                       [SAuth host port user secret; SOpen; SPty; SShell])
            end
          else (Ok tt, [SAuth host port user secret; SOpen])
      end
  end.

(** [SshBackend::connect]. *)
Definition ssh_connect (policy : HostKeyPolicy) (store : PinStore) (now : str) (io : option str)
    (target_uri : str) (operation : Value) (secret : str) : result str unit * list ssh_call * PinStore :=
  match ssh_endpoint target_uri operation with
  | Err e => (Err e, [], store)
  | Ok (host, port, user) =>
      let want_pty := default true (get operation "pty" ≫= as_bool) in
      match from_openssh secret with
      | Err e => (Err ("vault entry is not a parseable SSH private key: " ++ e), [], store)
      | Ok _ =>
          match ssh_dial policy store now io host port with
          | (Err e, store') => (Err ("connect to " ++ host ++ ":" ++ show port ++ " failed: " ++ e), [SDial host port], store')
          | (Ok _, store') =>
              let '(r, calls) := ssh_login host port user secret want_pty in (r, SDial host port :: calls, store')
          end
      end
  end.
End Ssh.

(** ** The session channel *)

(** [ChannelMsg], as far as [read_batch] tells them apart. *)
Inductive ChannelMsg : Type :=
| Data (d : str)
| ExtendedData (d : str)
| ExitStatus (status : Z)
| Eof
| Close
| OtherMsg.

(** [SshChannel]: [None] after [shutdown]; what the server still sends, [None]
    at the end of the stream. *)
Record SshChannel : Type := { ssh_open : bool; incoming : list ChannelMsg; stream_ends : bool }.

Definition push (b : OutputBatch) (name d : str) : OutputBatch :=
  {| chunks := chunks b ++ [ {| stream := name; data := d |} ]; closed := closed b; exit_code := exit_code b |}.
Definition close_batch (b : OutputBatch) : OutputBatch :=
  {| chunks := chunks b; closed := true; exit_code := exit_code b |}.

(** [i32::try_from] of a [u32]. *)
Definition i32_of_u32 (n : Z) : option Z := if n <=? 2147483647 then Some n else None.

(** The arms of [read_batch]: the batch, and whether it is over. *)
Definition take_msg (b : OutputBatch) (m : ChannelMsg) : OutputBatch * bool :=
  match m with
  | Data d => (push b "stdout" d, false)
  | ExtendedData d => (push b "stderr" d, false)
  | ExitStatus n => ({| chunks := chunks b; closed := closed b; exit_code := i32_of_u32 n |}, false)
  | Eof | Close => (close_batch b, true)
  | OtherMsg => (b, false)
  end.

(** The loop of [read_batch]: [in_time n] says whether the [n]-th message comes
    before the deadline, [late n] whether the deadline has passed after it. *)
Fixpoint read_msgs (in_time late : nat → bool) (n : nat) (b : OutputBatch) (ms : list ChannelMsg) (ends : bool)
  : OutputBatch * list ChannelMsg :=
  if in_time n then
    match ms with
    | [] => (if ends then close_batch b else b, [])
    | m :: rest =>
        let '(b', over) := take_msg b m in
        if over || (64 <=? length (chunks b'))%nat || late n then (b', rest)
        else read_msgs in_time late (S n) b' rest ends
    end
  else (b, ms).

Definition empty_batch : OutputBatch := {| chunks := []; closed := false; exit_code := None |}.

(** [SshChannel::read_batch]. *)
Definition ssh_read_batch (in_time late : nat → bool) (ch : SshChannel) : OutputBatch * SshChannel :=
  if ssh_open ch then
    let '(b, rest) := read_msgs in_time late 0 empty_batch (incoming ch) (stream_ends ch) in
    (b, {| ssh_open := true; incoming := rest; stream_ends := stream_ends ch |})
  else (close_batch empty_batch, ch).

(** [SshChannel::write]. *)
Definition ssh_write (outcome : result str unit) (ch : SshChannel) : result str unit :=
  if ssh_open ch then outcome else Err "channel already closed".

(** [SshChannel::shutdown]: the channel is dropped unless a read holds its
    lock. *)
Definition ssh_shutdown (lock_free : bool) (ch : SshChannel) : SshChannel :=
  if lock_free then {| ssh_open := false; incoming := incoming ch; stream_ends := stream_ends ch |} else ch.

(** ** Properties *)

Section Hosts.
Context `{Russh, SerdeText PinFile}.

Lemma check_server_key_ok policy s hp line now io s' : check_server_key policy s hp line now io = (Ok true, s') →
  ∃ l, line = Ok l ∧
    match policy with
    | RefuseUnknown => False
    | TrustOnFirstUseAll => s' = s
    | UsePinStore tofu =>
        openssh_key <$> get_pin s' hp = Some l ∧
        (s' = s ∨ tofu = true ∧ get_pin s hp = None ∧ disk s' = Some (to_text {| version := 1; pins := list_pins s' |}))
    end.
Proof.
  unfold check_server_key. destruct line as [l|]; [|done]. intros Hc. exists l. split; [done|].
  destruct policy as [| |tofu]; [done|by injection Hc as <-|]. unfold get_pin in *. destruct (inner s !! hp) as [pin|] eqn:Hp.
  - injection Hc as Hk <-. bool_to_prop. rewrite Hp. cbn. rewrite Hk. auto.
  - destruct tofu; [|done]. unfold insert_pin in Hc. rewrite Hp in Hc. destruct io; [done|]. cbn in Hc. injection Hc as <-.
    cbn [inner disk]. rewrite lookup_insert_eq. split; [done|]. right. split_and!; [done|done|done].
Qed.

Lemma ssh_dial_ok policy store now io host port store' : ssh_dial policy store now io host port = (Ok tt, store') →
  ∃ key, presented host port = Ok key ∧
    check_server_key policy store (host ++ ":" ++ show port) (key_line key) now io = (Ok true, store').
Proof.
  unfold ssh_dial. destruct (presented host port) as [key|]; [|done]. destruct (check_server_key _ _ _ _ _ _) as [v s'] eqn:Hc.
  intros [= Hk <-]. apply key_exchange_accepted in Hk as ->. eauto.
Qed.

Lemma ssh_login_auth host port user secret pty : ∀ h p u k, SAuth h p u k ∈ (ssh_login host port user secret pty).2 →
  h = host ∧ p = port ∧ u = user ∧ k = secret.
Proof. intros h p u k. unfold ssh_login. repeat case_match; cbn [snd]; set_solver. Qed.

(** C30: The private key is used towards a host only after its host key was
    accepted.  If the backend authenticates at all, it is once, with the key of
    the vault, as the user and at the host and port of the operation, and the
    key that host presented had passed the policy: not under the policy that
    refuses unknown hosts; under pinning, the pin of exactly that host and port
    is that key, and a pin made on this first contact is already in the file. *)
Theorem key_only_to_checked_host policy store now io uri op secret r calls store' h p u k :
  ssh_connect policy store now io uri op secret = (r, calls, store') → SAuth h p u k ∈ calls →
  k = secret ∧ ssh_endpoint uri op = Ok (h, p, u) ∧
  ∃ key line, presented h p = Ok key ∧ key_line key = Ok line ∧
    match policy with
    | RefuseUnknown => False
    | TrustOnFirstUseAll => True
    | UsePinStore tofu =>
        openssh_key <$> get_pin store' (h ++ ":" ++ show p) = Some line ∧
        (store' = store ∨ tofu = true ∧ disk store' = Some (to_text {| version := 1; pins := list_pins store' |}))
    end.
Proof.
  unfold ssh_connect. destruct (ssh_endpoint uri op) as [[[host port] user]|]; [|intros [= <- <- <-]; by intros ?%elem_of_nil].
  destruct (from_openssh secret); [|intros [= <- <- <-]; by intros ?%elem_of_nil].
  destruct (ssh_dial policy store now io host port) as [[[]|e] s1] eqn:Hd.
  2:{ intros [= <- <- <-]. rewrite list_elem_of_singleton. done. }
  pose proof (ssh_login_auth host port user secret (default true (get op "pty" ≫= as_bool))) as Hl.
  destruct (ssh_login _ _ _ _ _) as [r1 cs]. intros [= <- <- <-]. rewrite elem_of_cons. intros [?|Hin]; [done|].
  apply Hl in Hin as (-> & -> & -> & ->). split_and!; [done|done|].
  apply ssh_dial_ok in Hd as (key & Hp & Hc). apply check_server_key_ok in Hc as (line & Hline & Hpol).
  exists key, line. split_and!; [done|done|]. destruct policy; [done|done|]. destruct Hpol as [? [?|(? & ? & ?)]]; auto.
Qed.
End Hosts.

(** *** Output *)

Definition chunk_of (m : ChannelMsg) : list OutputChunk :=
  match m with
  | Data d => [ {| stream := "stdout"; data := d |} ]
  | ExtendedData d => [ {| stream := "stderr"; data := d |} ]
  | _ => []
  end.
Definition output (ms : list ChannelMsg) : list OutputChunk := mjoin (chunk_of <$> ms).

Definition is_end (m : ChannelMsg) : bool := match m with Eof | Close => true | _ => false end.

Lemma take_msg_chunks b m : chunks (take_msg b m).1 = chunks b ++ chunk_of m ∧ (take_msg b m).2 = is_end m ∧
  closed (take_msg b m).1 = closed b || is_end m.
Proof. destruct m; cbn; rewrite ?app_nil_r, ?orb_false_r, ?orb_true_r; done. Qed.

Lemma chunk_of_length m : (length (chunk_of m) ≤ 1)%nat.
Proof. destruct m; cbn; lia. Qed.

(** What a read takes: a run of messages of which at most the last is an end. *)
Definition run_to_end (taken : list ChannelMsg) : Prop := Forall (λ m, is_end m = false) (take (pred (length taken)) taken).
Definition at_end (taken : list ChannelMsg) : bool := match last taken with Some m => is_end m | None => false end.

Lemma run_to_end_cons m taken : is_end m = false → run_to_end taken → run_to_end (m :: taken).
Proof. intros Hm Ht. destruct taken as [|m1 taken]; [constructor|]. by constructor. Qed.

Lemma at_end_cons m taken : is_end m = false → at_end (m :: taken) = at_end taken.
Proof. intros Hm. unfold at_end. destruct taken; [cbn; by rewrite Hm|by rewrite last_cons_cons]. Qed.

Lemma read_msgs_spec in_time late ends ms : ∀ n b, (length (chunks b) < 64)%nat → closed b = false →
  let '(b', rest) := read_msgs in_time late n b ms ends in
  ∃ taken, ms = taken ++ rest ∧ chunks b' = chunks b ++ output taken ∧ (length (chunks b') ≤ 64)%nat ∧
    (at_end taken = true → closed b' = true) ∧ (closed b' = true → at_end taken = true ∨ ends = true ∧ rest = []) ∧
    run_to_end taken.
Proof.
  induction ms as [|m ms IH]; intros n b Hlen Hc; cbn [read_msgs]; destruct (in_time n); cbv iota beta;
    try (exists []; cbn; rewrite app_nil_r; split_and!; solve [done | lia | congruence | constructor]).
  { exists (@nil ChannelMsg). cbn. rewrite app_nil_r. destruct ends; cbn [chunks close_batch closed]; split_and!; solve [done | lia | congruence | auto | constructor]. }
  destruct (take_msg_chunks b m) as (Hch & Ho & Hcl). destruct (take_msg b m) as [b1 over]. cbn [fst snd] in *. subst over.
  pose proof (chunk_of_length m). rewrite Hc in Hcl. cbn [orb] in Hcl.
  assert (length (chunks b1) ≤ 64)%nat by (rewrite Hch, length_app; lia).
  destruct (is_end m || (64 <=? length (chunks b1))%nat || late n) eqn:Hstop; cbv iota beta.
  - exists [m]. unfold output, at_end. cbn. rewrite app_nil_r, Hcl. split_and!; solve [done | auto | constructor].
  - apply orb_false_iff in Hstop as [[He H64]%orb_false_iff _]. apply Nat.leb_gt in H64. rewrite He in Hcl.
    specialize (IH (S n) b1 H64 Hcl). destruct (read_msgs in_time late (S n) b1 ms ends) as [b' rest].
    destruct IH as (taken & -> & Hb & Hl & He1 & He2 & Hf). exists (m :: taken). rewrite at_end_cons by done.
    split_and!; [done|by rewrite Hb, Hch, <- app_assoc|done|done|done|by apply run_to_end_cons].
Qed.

(** Reading again and again, with any timing. *)
Fixpoint read_all (reads : list ((nat → bool) * (nat → bool))) (ch : SshChannel) : list OutputBatch * SshChannel :=
  match reads with
  | [] => ([], ch)
  | (in_time, late) :: more =>
      let '(b, ch1) := ssh_read_batch in_time late ch in
      let '(bs, ch2) := read_all more ch1 in (b :: bs, ch2)
  end.

(** A session shows the server's output, all of it, in order.  Whatever the
    timing of the reads, their chunks together are the output messages up to
    where reading has come, each once and with the name of its stream; no batch
    has more than 64 chunks; and a batch says "closed" only if the server ended
    the channel or the stream. *)
Theorem ssh_output_in_order reads ch bs ch' : ssh_open ch = true → read_all reads ch = (bs, ch') →
  (∃ taken, incoming ch = taken ++ incoming ch' ∧ mjoin (chunks <$> bs) = output taken) ∧
  Forall (λ b, (length (chunks b) ≤ 64)%nat) bs ∧
  (Forall (λ m, is_end m = false) (incoming ch) → stream_ends ch = false → Forall (λ b, closed b = false) bs).
Proof.
  revert ch bs ch'. induction reads as [|[in_time late] reads IH]; intros ch bs ch' Ho; cbn [read_all].
  { intros [= <- <-]. split_and!; [by exists []|constructor|constructor]. }
  unfold ssh_read_batch. rewrite Ho. pose proof (read_msgs_spec in_time late (stream_ends ch) (incoming ch) 0 empty_batch) as Hs.
  destruct (read_msgs _ _ _ _ _ _) as [b rest]. destruct Hs as (taken & Ht & Hb & Hl & _ & Hcl & _); [cbn; lia|done|].
  destruct (read_all reads _) as [bs1 ch1] eqn:Hr. intros [= <- <-]. apply IH in Hr as ((taken1 & Ht1 & Hb1) & Hl1 & Hc1); [|done].
  cbn [incoming stream_ends] in *. split_and!.
  - exists (taken ++ taken1). rewrite Ht, Ht1, <- app_assoc. split; [done|]. rewrite fmap_cons. cbn.
    unfold output. rewrite fmap_app, join_app.
    f_equal; [exact Hb|exact Hb1].
  - by constructor.
  - intros Hf Hse. rewrite Ht in Hf. apply Forall_app in Hf as [Hf1 Hf2]. constructor; [|by apply Hc1].
    destruct (closed b) eqn:Hcb; [|done]. exfalso. destruct (Hcl eq_refl) as [He|[? _]]; [|congruence].
    unfold at_end in He. destruct (last taken) as [m|] eqn:Hlast; [|done]. apply last_Some in Hlast as [l' ->].
    apply Forall_app in Hf1 as [_ Hf1]. apply Forall_cons in Hf1 as [Hm _]. by rewrite Hm in He.
Qed.

(** An exit status that follows the end of the output is not reported: the
    batch that ends at [Eof] says closed and has no exit code. *)
Theorem exit_status_after_eof_lost d n rest :
  (ssh_read_batch (λ _, true) (λ _, false) {| ssh_open := true; incoming := Data d :: Eof :: ExitStatus n :: rest; stream_ends := false |}).1 =
  {| chunks := [ {| stream := "stdout"; data := d |} ]; closed := true; exit_code := None |}.
Proof. reflexivity. Qed.

(** Without a terminal nothing is started on the channel: neither a shell nor
    a command is requested. *)
Theorem no_pty_runs_nothing `{Russh, SerdeText PinFile} policy store now io uri op secret :
  (get op "pty" ≫= as_bool) = Some false →
  (ssh_connect policy store now io uri op secret).1.1 = Ok tt →
  (SPty ∉ (ssh_connect policy store now io uri op secret).1.2) ∧ (SShell ∉ (ssh_connect policy store now io uri op secret).1.2).
Proof.
  intros Hp. unfold ssh_connect. rewrite Hp. cbn [default]. repeat case_match; try done. cbn [fst snd]. intros _.
  unfold ssh_login in *. repeat case_match; simplify_eq; set_solver.
Qed.

(** ** A concrete host *)

Section Witnesses.
#[local] Existing Instances toy_serde.

(** Every host presents the same key; everything is granted. *)
Definition toy_russh : Russh.
Proof.
  refine {| from_openssh _ := Ok tt; presented _ _ := Ok (Ok ("ssh-ed25519 AAAA host" : str));
            key_exchange _ _ v := match v with Ok true => Ok tt | _ => Err "Unknown server key" end;
            authenticate _ _ _ _ := Ok true; channel_open _ _ := Ok tt; request_pty _ _ := Ok tt; request_shell _ _ := Ok tt |}.
  intros h p [[]|]; done.
Defined.
#[local] Existing Instance toy_russh.

Definition an_operation : Value := object [("host", jstr "app-01"); ("user", jstr "deploy")].
Definition no_pins : PinStore := {| inner := ∅; disk := None |}.

Definition first_contact : result str unit * list ssh_call * PinStore :=
  ssh_connect (UsePinStore true) no_pins "t0" None "ssh://app-01" an_operation "KEY".

Lemma key_only_to_checked_host_witness :
  first_contact.1 = (Ok tt, [SDial "app-01" 22; SAuth "app-01" 22 "deploy" "KEY"; SOpen; SPty; SShell]) ∧
  openssh_key <$> get_pin first_contact.2 "app-01:22" = Some ("ssh-ed25519 AAAA" : str).
Proof.
  split; [vm_compute; reflexivity|].
  destruct (key_only_to_checked_host (UsePinStore true) no_pins "t0" None "ssh://app-01" an_operation "KEY"
              first_contact.1.1 first_contact.1.2 first_contact.2 "app-01" 22 "deploy" "KEY")
    as (_ & _ & key & line & Hk & Hl & Hp & _).
  - unfold first_contact. by destruct (ssh_connect _ _ _ _ _ _ _) as [[]].
  - change first_contact.1.2 with [SDial "app-01" 22; SAuth "app-01" 22 "deploy" "KEY"; SOpen; SPty; SShell]. set_solver.
  - injection Hk as <-. vm_compute in Hl. injection Hl as <-. exact Hp.
Defined.

Lemma ssh_output_in_order_witness :
  mjoin (chunks <$> (read_all [(λ _, true, λ _, true); (λ _, true, λ _, false)]
    {| ssh_open := true; incoming := [Data "a"; ExtendedData "b"; Data "c"]; stream_ends := false |}).1) =
  output [Data "a"; ExtendedData "b"; Data "c"].
Proof.
  set (ch := {| ssh_open := true; incoming := [Data "a"; ExtendedData "b"; Data "c"]; stream_ends := false |}).
  destruct (read_all [(λ _, true, λ _, true); (λ _, true, λ _, false)] ch) as [bs ch'] eqn:Hr.
  destruct (ssh_output_in_order _ ch bs ch' eq_refl Hr) as ((taken & Ht & Hb) & _).
  assert (incoming ch' = []) as Hi by (vm_compute in Hr; by injection Hr as _ <-).
  rewrite Hi, app_nil_r in Ht. cbn [fst]. rewrite Hb, <- Ht. reflexivity.
Defined.
End Witnesses.
