(* ===== verification/Http.v ===== *)
(** The HTTP injector: [crates/injectors/src/http.rs] and [lib.rs].

    The Authorization header, the request that is sent, the ceiling on the
    response body, and the redaction of reflected credentials.  The HTTP
    client and the target are a parameter: any answer is possible. *)

From S2P Require Import Prelude Strs Json Extern Toy Protocol.
#[local] Open Scope Z_scope.

(** ** lib.rs *)

Inductive TransportError : Type :=
| ConnectionRefused | Timeout | TlsFailure | DnsFailure | BodyReadFailed | RequestBuildFailed
| AuditAppendFailed.

(** [TransportError::detail]. *)
Definition transport_detail (e : TransportError) : str :=
  match e with
  | ConnectionRefused => "connection refused"
  | Timeout => "timed out"
  | TlsFailure => "TLS failure"
  | DnsFailure => "host not resolved"
  | BodyReadFailed => "response body unreadable"
  | RequestBuildFailed => "request could not be built"
  | AuditAppendFailed => "audit record could not be appended"
  end.

(** The kinds of a client error that [TransportError::classify] reads. *)
Record ClientError : Type := {
  is_timeout : bool; is_connect : bool; is_body : bool; is_decode : bool; is_builder : bool; is_request : bool;
  message : str;
}.

(** [TransportError::classify]: the message is never read. *)
Definition classify (e : ClientError) : TransportError :=
  if is_timeout e then Timeout
  else if is_connect e then ConnectionRefused
  else if is_body e || is_decode e then BodyReadFailed
  else if is_builder e || is_request e then RequestBuildFailed
  else TlsFailure.

Inductive InjectorError : Type :=
| BadOperation (e : str)
| CredentialUnusable
| TransportFailed (e : TransportError)
| ResponseTooLarge (limit : Z).

(** [Display for InjectorError]. *)
Definition injector_error_str (e : InjectorError) : str :=
  match e with
  | BadOperation e => "invalid operation: " ++ e
  | CredentialUnusable => "credential cannot be attached to this request"
  | TransportFailed e => "outbound call failed: " ++ transport_detail e
  | ResponseTooLarge limit => "response exceeded the " ++ show limit ++ "-byte ceiling"
  end.

(** ** http.rs: the response body *)

(** A body arrives in chunks; the stream may fail instead of ending. *)
Record BodyStream : Type := { body_chunks : list str; body_error : option ClientError }.

Fixpoint read_chunks (body : str) (cs : list str) (err : option ClientError) (cap : Z) : result InjectorError str :=
  match cs with
  | [] => match err with Some e => Err (TransportFailed (classify e)) | None => Ok body end
  | c :: rest =>
      if cap <? zlen body + zlen c then Err (ResponseTooLarge cap)
      else read_chunks (body ++ c) rest err cap
  end.

(** [read_body_capped]. *)
Definition read_body_capped (s : BodyStream) (cap : Z) : result InjectorError str :=
  read_chunks [] (body_chunks s) (body_error s) cap.

(** ** http.rs: redaction *)

Definition REDACTION_MARKER : str := "[REDACTED-CREDENTIAL]".

(** The scan for one form: [fuel] is the number of bytes. *)
Fixpoint scrub_fuel (fuel : nat) (form data : str) : str :=
  match fuel with
  | O => []
  | S k =>
      match data with
      | [] => []
      | b :: rest =>
          if starts_with form data then REDACTION_MARKER ++ scrub_fuel k form (drop (length form) data)
          else b :: scrub_fuel k form rest
      end
  end.

Definition scrub_form (form data : str) : str := scrub_fuel (length data) form data.

(** [sort_by_key(Reverse(len))]: stable, longest first. *)
Fixpoint insert_longest (f : str) (fs : list str) : list str :=
  match fs with
  | [] => [f]
  | g :: rest => if (length g <? length f)%nat then f :: fs else g :: insert_longest f rest
  end.
Definition longest_first (fs : list str) : list str := fold_left (λ acc f, insert_longest f acc) fs [].

(** [scrub_bytes]. *)
Definition scrub_bytes (data : str) (secrets : list str) : str :=
  fold_left (λ d form, scrub_form form d) (longest_first (filter (λ s, is_empty s = false) secrets)) data.

(** [scrub_header_pairs]: header values are ASCII, so the conversion back to a
    string changes nothing ([scrub_ascii]). *)
Definition scrub_header_pairs (pairs : list (str * str)) (secrets : list str) : list (str * str) :=
  (λ kv, (kv.1, scrub_bytes kv.2 secrets)) <$> pairs.

(** ** http.rs: the request *)

(** The HTTP client crate: which header names, header values and methods it
    accepts, header names in lower case, and which response header values are
    text. *)
Class HttpClient := {
  header_name : str → option str;
  header_value : str → bool;
  method_known : str → bool;
}.

Definition visible_ascii (b : byte) : bool := in_range 32 126 b || bool_decide (b = Byte.x09).

Record Outbound : Type := {
  out_method : str;
  out_uri : str;
  out_headers : gmap str str;
  out_body : option str;
  out_timeout : Z;
}.

Record TargetResponse : Type := {
  tr_status : Z;
  tr_headers : list (str * str);
  tr_body : BodyStream;
}.

Record HttpResult : Type := { res_status : Z; res_headers : list (str * str); res_body : str }.

Section Execute.
Context `{Base64, DebugFmt, HttpClient}.

(** [assemble_authorization]. *)
Definition assemble_authorization (mechanism : str) (op : HttpOperation) (secret : str)
  : result InjectorError str :=
  if decide (mechanism = "http-bearer") then
    let v := "Bearer " ++ secret in
    if header_value v then Ok v else Err CredentialUnusable
  else if decide (mechanism = "http-basic") then
    match http_username op with
    | None => Err (BadOperation "http-basic requires a username field (D14)")
    | Some username =>
        if contains_byte Byte.x3a username then Err (BadOperation "username must not contain ':' (RFC 7617)")
        else
          let v := "Basic " ++ b64std_encode (username ++ ":" ++ secret) in
          if header_value v then Ok v else Err CredentialUnusable
    end
  else Err (BadOperation (debug_str mechanism ++ " is not an http mechanism")).

(** The agent's headers. *)
Fixpoint agent_headers (hs : list (str * str)) (m : gmap str str) : result InjectorError (gmap str str) :=
  match hs with
  | [] => Ok m
  | (name, value) :: rest =>
      match header_name name with
      | None => Err (BadOperation ("invalid header name " ++ debug_str name))
      | Some n =>
          if header_value value then agent_headers rest (<[n := value]> m)
          else Err (BadOperation ("invalid header value for " ++ debug_str n))
      end
  end.

Definition reflectable (auth secret : str) : list str := auth :: (if is_empty secret then [] else [secret]).

(** The request that [execute] builds. *)
Definition build_request (target_uri : str) (op : HttpOperation) (auth : str) (timeout : Z)
  : result InjectorError Outbound :=
  if negb (starts_with "http://" target_uri) && negb (starts_with "https://" target_uri)
  then Err (BadOperation ("unsupported target scheme in " ++ debug_str target_uri))
  else
    headers ← agent_headers (http_headers op) ∅;
    if method_known (http_method op) then
      body ← (match http_body_b64 op with
              | None => Ok None
              | Some b => match b64std_decode (trim b) with
                          | Ok x => Ok (Some x)
                          | Err _ => Err (BadOperation "body_b64 is not valid base64")
                          end
              end);
      Ok {| out_method := http_method op; out_uri := target_uri;
            out_headers := <["authorization" := auth]> headers; out_body := body; out_timeout := timeout |}
    else Err (BadOperation ("unknown method " ++ debug_str (http_method op))).

(** Response headers that are text, names in lower case. *)
Definition text_headers (hs : list (str * str)) : list (str * str) :=
  (λ kv, (to_ascii_lowercase kv.1, kv.2)) <$> filter (λ kv, forallb visible_ascii kv.2 = true) hs.

(** [HttpInjector::execute] against a target: no redirect is followed, so one
    request gets one answer. *)
Definition execute (target : Outbound → result ClientError TargetResponse) (mechanism target_uri : str)
    (op : HttpOperation) (secret : str) (max_response_bytes timeout : Z) : result InjectorError HttpResult :=
  auth ← assemble_authorization mechanism op secret;
  request ← build_request target_uri op auth timeout;
  response ← map_err (λ e, TransportFailed (classify e)) (target request);
  body ← read_body_capped (tr_body response) max_response_bytes;
  Ok {| res_status := tr_status response;
        res_headers := scrub_header_pairs (text_headers (tr_headers response)) (reflectable auth secret);
        res_body := scrub_bytes body (reflectable auth secret) |}.
End Execute.

(** ** Redaction is complete *)

Definition open_bracket : byte := Byte.x5b.
Definition close_bracket : byte := Byte.x5d.

(** A form the marker cannot help to spell: no square brackets, and not part
    of the marker. *)
Definition clean (f : str) : Prop :=
  (open_bracket ∉ f) ∧ (close_bracket ∉ f) ∧ contains f REDACTION_MARKER = false ∧ f ≠ [].

Lemma scrub_prefix n form data g :
  (open_bracket ∉ g) → starts_with g (scrub_fuel n form data) = true → starts_with g data = true.
Proof.
  revert data g. induction n as [|n IH]; intros data g Hg Hs.
  { apply starts_with_spec in Hs as [r Hr]. simpl in Hr. by destruct g. }
  destruct g as [|c g]; [done|]. destruct data as [|b rest]; [done|]. cbn [scrub_fuel] in Hs.
  destruct (starts_with form (b :: rest)) eqn:Hf.
  - exfalso. apply starts_with_spec in Hs as [r Hr]. injection Hr as <- _. set_solver.
  - apply starts_with_spec in Hs as [r Hr]. injection Hr as <- Hr.
    apply not_elem_of_cons in Hg as [_ Hg].
    assert (starts_with g rest = true) as [r' ->]%starts_with_spec.
    { apply IH; [done|]. apply starts_with_spec. by exists r. }
    apply starts_with_spec. by exists r'.
Qed.

(** An occurrence in [m ++ out] is in [out], in [m], or crosses over. *)
Lemma contains_app_cases f m out :
  contains f (m ++ out) = true →
  contains f out = true ∨ contains f m = true ∨
  ∃ x y g, m = x ++ y ∧ y ≠ [] ∧ f = y ++ g ∧ starts_with g out = true.
Proof.
  intros (a & r & He)%contains_spec. apply app_eq_inv in He as [(k & Hm & Hr)|(k & Ha & Hr)].
  - apply app_eq_inv in Hr as [(j & Hf & Ho)|(j & Hk & Ho)].
    + destruct k as [|c k].
      * left. apply contains_spec. exists [], r. by rewrite Ho, Hf.
      * right. right. exists a, (c :: k), j. split_and!; [done|done|done|]. apply starts_with_spec. by exists r.
    + right. left. apply contains_spec. exists a, j. by rewrite Hm, Hk.
  - left. apply contains_spec. exists k, r. by rewrite Hr.
Qed.

Lemma marker_tail x y : REDACTION_MARKER = x ++ y → y ≠ [] → close_bracket ∈ y.
Proof.
  intros Hm Hy. destruct (exists_last Hy) as (y' & c & ->).
  assert (last REDACTION_MARKER = Some c) as Hl by (rewrite Hm, app_assoc; apply last_snoc).
  injection Hl as <-. apply elem_of_app. right. by left.
Qed.

Lemma scrub_removes n form g data :
  form ≠ [] → clean g → (length data ≤ n)%nat →
  (∀ p d, data = p ++ d → starts_with form d = false → starts_with g d = false) →
  contains g (scrub_fuel n form data) = false.
Proof.
  intros Hform (Ho & Hc & Hm & Hne). revert data. induction n as [|n IH]; intros data Hl Hq.
  { destruct (contains g (scrub_fuel 0 form data)) eqn:E; [|done].
    apply contains_spec in E as (a & r & E). simpl in E. by destruct a, g. }
  destruct data as [|b rest].
  { destruct (contains g (scrub_fuel (S n) form [])) eqn:E; [|done].
    apply contains_spec in E as (a & r & E). simpl in E. by destruct a, g. }
  cbn [scrub_fuel]. destruct (starts_with form (b :: rest)) eqn:Hf.
  - apply not_true_is_false. intros [Hx|[Hx|(x & y & k & Hmk & Hy & -> & _)]]%contains_app_cases.
    + rewrite IH in Hx; [done| |].
      * rewrite length_drop. destruct form; [done|]. simpl in *. lia.
      * intros p d Hd. apply (Hq (take (length form) (b :: rest) ++ p)).
        by rewrite <- app_assoc, <- Hd, take_drop.
    + congruence.
    + apply Hc. apply elem_of_app. left. by eapply marker_tail.
  - apply not_true_is_false. intros (a & r & E)%contains_spec. destruct a as [|c a].
    + assert (starts_with g (b :: rest) = true) as Hg.
      { apply (scrub_prefix (S n) form); [done|]. cbn [scrub_fuel]. rewrite Hf. apply starts_with_spec. by exists r. }
      rewrite (Hq [] (b :: rest)) in Hg; done.
    + injection E as _ E. assert (contains g (scrub_fuel n form rest) = true) as Hx.
      { apply contains_spec. by exists a, r. }
      rewrite IH in Hx; [done|simpl in Hl; lia|]. intros p d Hd. apply (Hq (b :: p)). by rewrite Hd.
Qed.

Lemma scrub_form_removes form data : clean form → contains form (scrub_form form data) = false.
Proof. intros Hc. apply scrub_removes; [apply Hc|done|lia|]. by intros. Qed.

Lemma scrub_form_keeps form g data : form ≠ [] → clean g →
  contains g data = false → contains g (scrub_form form data) = false.
Proof.
  intros Hf Hc Hn. apply scrub_removes; [done|done|lia|]. intros p d -> _.
  apply not_true_is_false. intros [r ->]%starts_with_spec. rewrite (proj2 (contains_spec g (p ++ g ++ r))) in Hn; [done|].
  by exists p, r.
Qed.

Lemma insert_longest_perm f fs : insert_longest f fs ≡ₚ f :: fs.
Proof.
  induction fs as [|g fs IH]; [done|]. simpl. destruct (length g <? length f)%nat; [done|].
  rewrite IH. constructor.
Qed.

Lemma longest_first_perm fs : longest_first fs ≡ₚ fs.
Proof.
  unfold longest_first. assert (∀ acc, fold_left (λ acc f, insert_longest f acc) fs acc ≡ₚ fs ++ acc) as Hg.
  { induction fs as [|f fs IH]; intros acc; [done|]. simpl. rewrite IH, insert_longest_perm.
    by rewrite Permutation_middle. }
  by rewrite Hg, app_nil_r.
Qed.

Lemma scrub_all fs : ∀ data done, Forall clean fs → Forall clean done →
  (∀ g, g ∈ done → contains g data = false) →
  ∀ g, g ∈ fs ++ done → contains g (fold_left (λ d form, scrub_form form d) fs data) = false.
Proof.
  induction fs as [|f fs IH]; intros data dn Hf Hd Hn g Hg; [by apply Hn|].
  apply Forall_cons in Hf as [Hcf Hf]. simpl. apply (IH _ (f :: dn)); [done|by constructor| |set_solver].
  intros h [->|Hh]%elem_of_cons; [by apply scrub_form_removes|].
  apply scrub_form_keeps; [apply Hcf| |by apply Hn]. rewrite Forall_forall in Hd. by apply Hd.
Qed.

Lemma scrub_bytes_complete data secrets g :
  Forall (λ s, s = [] ∨ clean s) secrets → g ∈ secrets → g ≠ [] → contains g (scrub_bytes data secrets) = false.
Proof.
  intros Hc Hg Hne. unfold scrub_bytes.
  assert (Forall clean (longest_first (filter (λ s, is_empty s = false) secrets))) as Hf.
  { apply Forall_forall. intros s Hs. rewrite longest_first_perm in Hs. apply list_elem_of_filter in Hs as [He Hs].
    rewrite Forall_forall in Hc. destruct (Hc s Hs) as [->|]; done. }
  apply (scrub_all _ data []); [done|constructor|set_solver|]. rewrite app_nil_r, longest_first_perm.
  apply list_elem_of_filter. split; [|done]. by destruct g.
Qed.

(** Header values stay ASCII. *)
Lemma scrub_ascii data secrets :
  Forall (λ b, in_range 0 127 b = true) data → Forall (λ b, in_range 0 127 b = true) (scrub_bytes data secrets).
Proof.
  unfold scrub_bytes. generalize (longest_first (filter (λ s, is_empty s = false) secrets)). intros fs.
  revert data. induction fs as [|f fs IH]; intros data Hd; [done|]. simpl. apply IH.
  unfold scrub_form. generalize (length data). intros n. revert data Hd.
  induction n as [|n IHn]; intros data Hd; [constructor|]. cbn [scrub_fuel].
  destruct data as [|b rest]; [constructor|]. destruct (starts_with f (b :: rest)).
  - apply Forall_app. split; [repeat constructor|]. apply IHn. by apply Forall_drop.
  - apply Forall_cons in Hd as [Hb Hd]. constructor; [done|]. by apply IHn.
Qed.

Lemma read_chunks_spec cs : ∀ body err cap, zlen body ≤ cap →
  read_chunks body cs err cap =
    if zlen (body ++ mjoin cs) <=? cap
    then match err with Some e => Err (TransportFailed (classify e)) | None => Ok (body ++ mjoin cs) end
    else Err (ResponseTooLarge cap).
Proof.
  induction cs as [|c cs IH]; intros body err cap Hb; cbn [read_chunks].
  { change (mjoin []) with ([] : str). rewrite app_nil_r. by rewrite (proj2 (Z.leb_le _ _) Hb). }
  change (mjoin (c :: cs)) with (c ++ mjoin cs).
  destruct (Z.ltb_spec cap (zlen body + zlen c)) as [Hc|Hc].
  - rewrite (proj2 (Z.leb_gt _ _)); [done|]. rewrite !zlen_app. pose proof (zlen_nonneg (mjoin cs)). lia.
  - rewrite IH by (rewrite zlen_app; lia). by rewrite <- app_assoc.
Qed.

Section Properties.
Context `{Base64, DebugFmt, HttpClient}.

Lemma auth_clean mechanism op secret auth :
  clean secret → assemble_authorization mechanism op secret = Ok auth → clean auth.
Proof.
  intros (Ho & Hc & _ & _). unfold assemble_authorization.
  assert (∀ t, (open_bracket ∉ t) → (close_bracket ∉ t) → ∀ w, w ∈ ["Bearer " : str; "Basic "] → clean (w ++ t)) as Hw.
  { intros t Hto Htc w Hin. assert ((open_bracket ∉ w) ∧ (close_bracket ∉ w) ∧ Byte.x61 ∈ w) as (Hwo & Hwc & Hwa).
    { apply elem_of_cons in Hin as [->|Hin]; [|apply list_elem_of_singleton in Hin as ->]; split_and!; decide_now. }
    split_and!; [set_solver|set_solver| |intros [-> _]%app_eq_nil; by apply elem_of_nil in Hwa].
    apply not_true_is_false. intros (a & r & Hm)%contains_spec.
    assert (Byte.x61 ∈ REDACTION_MARKER) as Hx by (rewrite Hm; set_solver).
    assert (Byte.x61 ∉ REDACTION_MARKER) by decide_now. done. }
  case_decide.
  - cbv zeta. destruct (header_value _); [|done]. intros [= <-]. apply (Hw secret Ho Hc "Bearer "). by left.
  - case_decide; [|done]. destruct (http_username op) as [u|]; [|done]. destruct (contains_byte _ u); [done|].
    cbv zeta. destruct (header_value _); [|done]. intros [= <-].
    destruct (b64std_no_bracket (u ++ ":" ++ secret)) as [Hbo Hbc]. apply (Hw _ Hbo Hbc "Basic "). right. by left.
Qed.

(** C33: A reflected credential does not come back.  Whatever the target
    answers, for a secret without square brackets that is not part of the
    redaction marker, neither the body nor any header value that [execute]
    returns contains the secret or the Authorization value built from it. *)
Theorem reflected_secret_redacted target mechanism uri op secret cap timeout auth res :
  clean secret → assemble_authorization mechanism op secret = Ok auth →
  execute target mechanism uri op secret cap timeout = Ok res →
  ∀ form, form ∈ [secret; auth] →
    contains form (res_body res) = false ∧ Forall (λ kv, contains form kv.2 = false) (res_headers res).
Proof.
  intros Hs Ha. unfold execute. rewrite Ha. simpl. intros (req & _ & Hx)%result_bind_ok form Hf.
  apply result_bind_ok in Hx as (resp & _ & Hx). apply result_bind_ok in Hx as (body & _ & [= <-]). simpl.
  pose proof (auth_clean _ _ _ _ Hs Ha) as Hac.
  assert (∀ d, contains form (scrub_bytes d (reflectable auth secret)) = false) as Hscrub.
  { intros d. unfold reflectable. assert (is_empty secret = false) as -> by (by destruct secret, Hs as (_ & _ & _ & ?)).
    apply scrub_bytes_complete.
    - apply Forall_cons. split; [by right|]. apply Forall_singleton. by right.
    - set_solver.
    - apply elem_of_cons in Hf as [->|Hf]; [apply Hs|]. apply list_elem_of_singleton in Hf as ->. apply Hac. }
  split; [apply Hscrub|]. unfold scrub_header_pairs. apply Forall_fmap, Forall_true. intros kv. apply Hscrub.
Qed.

(** C40: The response ceiling.  A response is relayed only if its whole body
    fits under the ceiling; a longer one is refused with the ceiling, never
    truncated, however it is cut into chunks. *)
Theorem response_ceiling s cap :
  0 ≤ cap →
  read_body_capped s cap =
    if zlen (mjoin (body_chunks s)) <=? cap
    then match body_error s with Some e => Err (TransportFailed (classify e)) | None => Ok (mjoin (body_chunks s)) end
    else Err (ResponseTooLarge cap).
Proof. intros Hc. unfold read_body_capped. by rewrite read_chunks_spec. Qed.
End Properties.

Section Witnesses.
#[local] Existing Instance toy_base64.
#[local] Existing Instance toy_debug.

Definition toy_client : HttpClient :=
  {| header_name s := Some (to_ascii_lowercase s); header_value := forallb visible_ascii; method_known _ := true |}.
#[local] Existing Instance toy_client.

Definition toy_get (user : option str) : HttpOperation :=
  {| http_method := "GET"; http_headers := []; http_body_b64 := None; http_username := user |}.

(** A target that reflects what [f] makes of the Authorization header. *)
Definition reflecting (f : str → str) (o : Outbound) : result ClientError TargetResponse :=
  let text := f (default [] (out_headers o !! ("authorization" : str))) in
  Ok {| tr_status := 200; tr_headers := [("X-Echo", text)];
        tr_body := {| body_chunks := [text]; body_error := None |} |}.

Lemma toy_clean : clean "s3cret".
Proof. split_and!; [decide_now|decide_now|vm_compute; reflexivity|done]. Qed.

Lemma reflected_secret_redacted_witness :
  ∃ res, execute (reflecting (λ a, a)) "http-bearer" "https://x" (toy_get None) "s3cret" 100 30 = Ok res ∧
         contains "s3cret" (res_body res) = false.
Proof.
  eexists. split; [vm_compute; reflexivity|].
  eapply (reflected_secret_redacted (reflecting (λ a, a)) "http-bearer" "https://x" (toy_get None) "s3cret" 100 30
    "Bearer s3cret").
  - exact toy_clean.
  - vm_compute. reflexivity.
  - vm_compute. reflexivity.
  - by left.
Defined.

Lemma response_ceiling_witness :
  read_body_capped {| body_chunks := ["abc"; "de"]; body_error := None |} 4 = Err (ResponseTooLarge 4).
Proof. apply (response_ceiling {| body_chunks := ["abc"; "de"]; body_error := None |} 4). lia. Defined.

(** A reflected basic token comes back.  With [http-basic], a target that
    reflects only the token after the word Basic is relayed verbatim, and the
    token decodes to the user name and the secret. *)
Theorem reflected_basic_token_leaks :
  ∃ res, execute (reflecting (drop 6)) "http-basic" "https://x" (toy_get (Some "u")) "s3cret" 100 30 = Ok res ∧
         b64std_decode (res_body res) = Ok ("u:s3cret" : str).
Proof. eexists. split; vm_compute; reflexivity. Qed.

(** With brackets in the secret the marker itself can complete a new copy. *)
Theorem bracketed_secret_survives :
  contains "]x" (scrub_bytes "]xx" ["]x"]) = true.
Proof. vm_compute. reflexivity. Qed.
End Witnesses.
