(* ===== verification/Vault.v ===== *)
(** The vault: [crates/vault/src/local.rs], [sealer.rs], [shared.rs],
    [provider.rs] and [hashicorp.rs].

    The encrypted local store with its file, the passphrase sealer, the
    provider the daemon registers, [cred_ref] dispatch and the HashiCorp KV-v2
    provider.  AES-GCM, Argon2id, base64 and serde are interfaces; random bytes
    and the outcome of file operations are arguments.  The build is the default
    one; [Keyring] has the build with the [keyring] feature. *)

From stdpp Require Import sorting.
From S2P Require Import Prelude Strs Json Extern Toy Protocol SshCa.
#[local] Open Scope Z_scope.

(** ** sealer.rs *)

Inductive SealerError : Type :=
| Keyring (e : str)
| Crypto (e : str).

Definition sealer_error_str (e : SealerError) : str :=
  match e with
  | Keyring e => "platform key store: " ++ e
  | Crypto e => "crypto failure in sealer: " ++ e
  end.

Definition ARGON_M_COST_KIB : Z := 65536.
Definition ARGON_T_COST : Z := 3.
Definition ARGON_P_COST : Z := 1.
Definition NONCE_LEN : nat := 12.

Record KdfParams : Type := { salt_b64 : str; m_cost_kib : Z; t_cost : Z; p_cost : Z }.

Record PassphraseSealer : Type := { ps_params : KdfParams; ps_passphrase : str }.

Section Sealer.
Context `{Base64, Aead, Argon2}.

(** [PassphraseSealer::new] with the 16 random bytes of salt. *)
Definition new_sealer (passphrase salt : str) : PassphraseSealer :=
  {| ps_params := {| salt_b64 := b64url_encode salt; m_cost_kib := ARGON_M_COST_KIB;
                     t_cost := ARGON_T_COST; p_cost := ARGON_P_COST |};
     ps_passphrase := passphrase |}.

(** [PassphraseSealer::from_params]. *)
Definition from_params (params : KdfParams) (passphrase : str) : PassphraseSealer :=
  {| ps_params := params; ps_passphrase := passphrase |}.

(** [unb64] of the sealer. *)
Definition sealer_unb64 (text : str) : result SealerError str :=
  map_err (λ e, Crypto ("base64: " ++ e)) (b64url_decode text).

(** [PassphraseSealer::derive_kek]. *)
Definition derive_kek (s : PassphraseSealer) : result SealerError str :=
  let k := ps_params s in
  salt ← sealer_unb64 (salt_b64 k);
  _ ← map_err (λ e, Crypto ("argon2 params: " ++ e)) (argon2_params (m_cost_kib k) (t_cost k) (p_cost k));
  map_err (λ e, Crypto ("argon2id: " ++ e))
    (argon2id (m_cost_kib k) (t_cost k) (p_cost k) (ps_passphrase s) salt).

(** [PassphraseSealer::seal] with the wrapping nonce. *)
Definition seal (s : PassphraseSealer) (dek nonce : str) : result SealerError str :=
  kek ← derive_kek s;
  ct ← ok_or (aead_encrypt kek nonce dek) (Crypto "encrypt failed");
  Ok (nonce ++ ct).

(** [PassphraseSealer::unseal]. *)
Definition unseal (s : PassphraseSealer) (sealed : str) : result SealerError str :=
  if (length sealed <=? NONCE_LEN)%nat then Err (Crypto "sealed DEK too short")
  else
    kek ← derive_kek s;
    plain ← ok_or (aead_decrypt kek (take NONCE_LEN sealed) (drop NONCE_LEN sealed))
                  (Crypto "authentication failed");
    if decide (length plain = 32%nat) then Ok plain else Err (Crypto "DEK is not 32 bytes").

(** A sealed key opens again under the same passphrase. *)
Lemma unseal_seal s dek nonce sealed :
  length dek = 32%nat → length nonce = NONCE_LEN → seal s dek nonce = Ok sealed → unseal s sealed = Ok dek.
Proof.
  intros Hd Hn. unfold seal, unseal. destruct (derive_kek s) as [kek|]; [|done]. simpl.
  destruct (aead_encrypt kek nonce dek) as [ct|] eqn:He; [|done]. simpl. intros [= <-].
  pose proof (aead_encrypt_len _ _ _ _ He). rewrite length_app.
  destruct (Nat.leb_spec (length nonce + length ct) NONCE_LEN); [lia|].
  rewrite take_app_length', drop_app_length' by done.
  rewrite (aead_decrypt_encrypt _ _ _ _ He). simpl. by rewrite decide_True.
Qed.
End Sealer.

(** ** local.rs *)

Definition MAGIC : str := "CHAPVAULT1".
Definition BODY_NONCE_LEN : nat := 12.

Inductive VaultError : Type :=
| VIo (e : str)
| VCorrupt (e : str)
| WrongPassphrase
| VSeal (e : SealerError)
| AlreadyExists (p : str).

Definition vault_error_str (e : VaultError) : str :=
  match e with
  | VIo e => "vault i/o: " ++ e
  | VCorrupt e => "vault corrupt: " ++ e
  | WrongPassphrase => "passphrase does not open this vault"
  | VSeal e => sealer_error_str e
  | AlreadyExists p => "a vault already exists at " ++ p
  end.

Record Header : Type := {
  version : Z;
  h_sealer_name : str;
  h_kdf : KdfParams;
  sealed_dek_b64 : str;
  body_nonce_b64 : str;
  body_b64 : str;
}.

Record Body : Type := { entries : gmap str str }.

Record LocalVault : Type := {
  path : str;
  sealer_name : str;
  sealed_dek : str;
  kdf : KdfParams;
  dek : str;
  body_nonce : str;
  body_ciphertext : str;
}.

(** An open handle and the bytes of the file at its path, if there is one. *)
Record Store : Type := { handle : LocalVault; file : option str }.

Section Local.
Context `{Base64, Aead, Argon2, DebugFmt, SerdeText Header, SerdeText Body}.

Definition unb64 (text : str) : result VaultError str :=
  map_err (λ e, VCorrupt ("base64: " ++ e)) (b64url_decode text).

Definition encrypt_body (dek nonce : str) (body : Body) : result VaultError str :=
  ok_or (aead_encrypt dek nonce (to_text body)) (VCorrupt "body encryption failed").

Definition decrypt_body (dek nonce ct : str) : result VaultError Body :=
  plain ← ok_or (aead_decrypt dek nonce ct) (VCorrupt "body authentication failed");
  map_err (λ e, VCorrupt ("body: " ++ e)) (from_text plain).

(** [persist]: the rename replaces the file, unless an earlier file operation
    failed with [io]. *)
Definition persist (f : option str) (header : Header) (io : option str)
  : result VaultError unit * option str :=
  match io with
  | Some e => (Err (VIo e), f)
  | None => (Ok tt, Some (MAGIC ++ to_text header))
  end.

(** The header [rewrite] and [create] write for a handle. *)
Definition header_of (v : LocalVault) : Header :=
  {| version := 1; h_sealer_name := sealer_name v; h_kdf := kdf v;
     sealed_dek_b64 := b64url_encode (sealed_dek v);
     body_nonce_b64 := b64url_encode (body_nonce v);
     body_b64 := b64url_encode (body_ciphertext v) |}.

(** [LocalVault::create] on the file [f] at [p], with its random bytes: the
    salt, the data key, the wrapping nonce and the body nonce. *)
Definition create (p : str) (f : option str) (sealer_choice passphrase : str)
    (salt new_dek wrap_nonce nonce : str) (io : option str) : result VaultError Store :=
  match f with
  | Some _ => Err (AlreadyExists p)
  | None =>
      if decide (sealer_choice = ("passphrase" : str)) then
        let sealer := new_sealer passphrase salt in
        sealed ← map_err VSeal (seal sealer new_dek wrap_nonce);
        body_ct ← encrypt_body new_dek nonce {| entries := ∅ |};
        let v := {| path := p; sealer_name := "passphrase"; sealed_dek := sealed;
                    kdf := ps_params sealer; dek := new_dek; body_nonce := nonce;
                    body_ciphertext := body_ct |} in
        match persist f (header_of v) io with
        | (Ok _, f') => Ok {| handle := v; file := f' |}
        | (Err e, _) => Err e
        end
      else
        Err (VCorrupt ("unknown sealer " ++ debug_str sealer_choice ++
          " (this build supports: passphrase; rebuild with --features keyring for keyring support)"))
  end.

(** The magic and the header at the start of [open] and [sealer_of]. *)
Definition read_header (raw : result str str) : result VaultError Header :=
  raw ← map_err VIo raw;
  text ← ok_or (strip_prefix MAGIC raw) (VCorrupt "not a chaperone vault file");
  map_err (λ e, VCorrupt ("header: " ++ e)) (from_text text).

(** [LocalVault::open] of what reading the file returned. *)
Definition open (p : str) (raw : result str str) (passphrase : str) : result VaultError LocalVault :=
  header ← read_header raw;
  if negb (version header =? 1) then
    Err (VCorrupt ("unknown vault version " ++ show (version header)))
  else
    sealed ← unb64 (sealed_dek_b64 header);
    body_nonce_raw ← unb64 (body_nonce_b64 header);
    nonce ← (if decide (length body_nonce_raw = BODY_NONCE_LEN) then Ok body_nonce_raw
             else Err (VCorrupt "body nonce length"));
    body_ct ← unb64 (body_b64 header);
    if decide (h_sealer_name header = ("passphrase" : str)) then
      dek ← map_err (λ e, match e with
                          | Crypto m => if contains "authentication failed" m then WrongPassphrase
                                        else VSeal (Crypto m)
                          | other => VSeal other
                          end)
                    (unseal (from_params (h_kdf header) passphrase) sealed);
      _ ← decrypt_body dek nonce body_ct;
      Ok {| path := p; sealer_name := h_sealer_name header; sealed_dek := sealed;
            kdf := h_kdf header; dek := dek; body_nonce := nonce; body_ciphertext := body_ct |}
    else Err (VCorrupt ("this build cannot unseal " ++ debug_str (h_sealer_name header) ++ " stores")).

(** [LocalVault::sealer_of]. *)
Definition sealer_of (raw : result str str) : result VaultError str :=
  h_sealer_name <$> read_header raw.

Definition decrypt_entries (v : LocalVault) : result VaultError Body :=
  decrypt_body (dek v) (body_nonce v) (body_ciphertext v).

Definition set_body (v : LocalVault) (nonce ct : str) : LocalVault :=
  {| path := path v; sealer_name := sealer_name v; sealed_dek := sealed_dek v; kdf := kdf v;
     dek := dek v; body_nonce := nonce; body_ciphertext := ct |}.

(** [LocalVault::rewrite] with the fresh nonce: the handle first, then the file. *)
Definition rewrite_body (s : Store) (body : Body) (nonce : str) (io : option str)
  : result VaultError unit * Store :=
  let v := handle s in
  match encrypt_body (dek v) nonce body with
  | Err e => (Err e, {| handle := set_body v nonce (body_ciphertext v); file := file s |})
  | Ok ct =>
      let v' := set_body v nonce ct in
      let '(r, f) := persist (file s) (header_of v') io in
      (r, {| handle := v'; file := f |})
  end.

(** [LocalVault::set]. *)
Definition set_entry (s : Store) (entry_path value nonce : str) (io : option str)
  : result VaultError unit * Store :=
  match decrypt_entries (handle s) with
  | Err e => (Err e, s)
  | Ok body => rewrite_body s {| entries := <[entry_path := value]> (entries body) |} nonce io
  end.

(** [LocalVault::get]. *)
Definition get_entry (v : LocalVault) (entry_path : str) : result VaultError (option str) :=
  body ← decrypt_entries v; Ok (entries body !! entry_path).

(** [LocalVault::delete]. *)
Definition delete_entry (s : Store) (entry_path nonce : str) (io : option str)
  : result VaultError bool * Store :=
  match decrypt_entries (handle s) with
  | Err e => (Err e, s)
  | Ok body =>
      match entries body !! entry_path with
      | None => (Ok false, s)
      | Some _ =>
          match rewrite_body s {| entries := delete entry_path (entries body) |} nonce io with
          | (Ok _, s') => (Ok true, s')
          | (Err e, s') => (Err e, s')
          end
      end
  end.

(** The keys of a [BTreeMap] in order. *)
Definition key_le (a b : str) : Prop := str_ltb b a = false.
#[global] Instance key_le_dec a b : Decision (key_le a b).
Proof. unfold key_le. apply _. Defined.
Definition sorted_keys {A} (m : gmap str A) : list str := merge_sort key_le ((map_to_list m).*1).

(** [LocalVault::list]. *)
Definition list_entries (v : LocalVault) : result VaultError (list str) :=
  body ← decrypt_entries v; Ok (sorted_keys (entries body)).

(** *** The store promises two maps: what the handle serves and what the file
    holds.  They differ after a failed write. *)

Record VaultSpec : Type := { live : gmap str str; saved : gmap str str }.

Inductive vop : Type :=
| OSet (entry value nonce : str) (io : option str)
| ODelete (entry nonce : str) (io : option str)
| OGet (entry : str)
| OList
| OReopen (passphrase : str).

Inductive vout : Type :=
| RUnit
| RBool (b : bool)
| RSecret (o : option str)
| RKeys (l : list str).

(** One operation on the store; [OReopen] replaces the handle when [open]
    succeeds. *)
Definition vault_step (s : Store) (o : vop) : result VaultError vout * Store :=
  match o with
  | OSet e v n io => let '(r, s') := set_entry s e v n io in ((λ _, RUnit) <$> r, s')
  | ODelete e n io => let '(r, s') := delete_entry s e n io in (RBool <$> r, s')
  | OGet e => (RSecret <$> get_entry (handle s) e, s)
  | OList => (RKeys <$> list_entries (handle s), s)
  | OReopen pass =>
      match open (path (handle s)) (ok_or (file s) "No such file or directory (os error 2)") pass with
      | Ok v => (Ok RUnit, {| handle := v; file := file s |})
      | Err e => (Err e, s)
      end
  end.

Definition spec_write (sp : VaultSpec) (m : gmap str str) (io : option str) (out : vout)
  : result VaultError vout * VaultSpec :=
  match io with
  | Some e => (Err (VIo e), {| live := m; saved := saved sp |})
  | None => (Ok out, {| live := m; saved := m |})
  end.

Definition spec_step (sp : VaultSpec) (o : vop) : result VaultError vout * VaultSpec :=
  match o with
  | OSet e v _ io => spec_write sp (<[e := v]> (live sp)) io RUnit
  | ODelete e _ io =>
      match live sp !! e with
      | Some _ => spec_write sp (delete e (live sp)) io (RBool true)
      | None => (Ok (RBool false), sp)
      end
  | OGet e => (Ok (RSecret (live sp !! e)), sp)
  | OList => (Ok (RKeys (sorted_keys (live sp))), sp)
  | OReopen _ => (Ok RUnit, {| live := saved sp; saved := saved sp |})
  end.

Fixpoint vault_run (s : Store) (ops : list vop) : list (result VaultError vout) :=
  match ops with
  | [] => []
  | o :: ops => let '(r, s') := vault_step s o in r :: vault_run s' ops
  end.

Fixpoint spec_run (sp : VaultSpec) (ops : list vop) : list (result VaultError vout) :=
  match ops with
  | [] => []
  | o :: ops => let '(r, sp') := spec_step sp o in r :: spec_run sp' ops
  end.

(** A body within AES-GCM's limit; nonces of 12 bytes; the store's passphrase. *)
Definition fits (m : gmap str str) : bool :=
  Z.of_nat (length (to_text {| entries := m |})) <=? AES_GCM_MAX.

Definition op_ok (pass : str) (sp : VaultSpec) (o : vop) : bool :=
  match o with
  | OSet e v n _ => bool_decide (length n = 12%nat) && fits (<[e := v]> (live sp))
  | ODelete e n _ => bool_decide (length n = 12%nat) && fits (delete e (live sp))
  | OReopen p => bool_decide (p = pass)
  | _ => true
  end.

Fixpoint ops_ok (pass : str) (sp : VaultSpec) (ops : list vop) : bool :=
  match ops with
  | [] => true
  | o :: ops => op_ok pass sp o && ops_ok pass (spec_step sp o).2 ops
  end.

(** What a handle that serves [m] satisfies, given the passphrase. *)
Definition serves (pass : str) (v : LocalVault) (m : gmap str str) : Prop :=
  decrypt_entries v = Ok {| entries := m |} ∧ length (dek v) = 32%nat ∧
  length (body_nonce v) = BODY_NONCE_LEN ∧ sealer_name v = ("passphrase" : str) ∧
  unseal (from_params (kdf v) pass) (sealed_dek v) = Ok (dek v).

(** The handle serves [live], the file is a header of a handle that differs in
    its body only and serves [saved]. *)
Definition related (pass : str) (s : Store) (sp : VaultSpec) : Prop :=
  serves pass (handle s) (live sp) ∧
  ∃ n ct, let v := set_body (handle s) n ct in
    serves pass v (saved sp) ∧ file s = Some (MAGIC ++ to_text (header_of v)).

Lemma decrypt_encrypt_body k n b ct : encrypt_body k n b = Ok ct → decrypt_body k n ct = Ok b.
Proof.
  unfold encrypt_body, decrypt_body. intros He%ok_or_ok.
  rewrite (aead_decrypt_encrypt _ _ _ _ He). simpl. by rewrite from_to_text.
Qed.

Lemma encrypt_body_total k n m : length k = 32%nat → length n = 12%nat → fits m = true →
  ∃ ct, encrypt_body k n {| entries := m |} = Ok ct.
Proof.
  intros Hk Hn Hf%Z.leb_le. destruct (aead_encrypt_total k n _ Hk Hn Hf) as [ct Hc].
  exists ct. unfold encrypt_body. by rewrite Hc.
Qed.

(** A file written for a handle opens to that handle. *)
Lemma open_written pass v m : serves pass v m →
  open (path v) (Ok (MAGIC ++ to_text (header_of v))) pass = Ok v.
Proof.
  intros (Hd & _ & Hn & Hs & Hu). unfold open, read_header. cbn [map_err mbind result_bind].
  rewrite (proj2 (strip_prefix_Some _ _ _) eq_refl). simpl. rewrite from_to_text. simpl.
  unfold unb64. rewrite !b64url_decode_encode. simpl. rewrite decide_True by done. simpl.
  rewrite Hs, decide_True by done. rewrite Hu. simpl.
  unfold decrypt_entries in Hd. rewrite Hd. simpl. rewrite <- Hs. by destruct v.
Qed.

Lemma rewrite_body_spec pass s sp m n io out :
  related pass s sp → length n = 12%nat → fits m = true →
  let '(r, s') := rewrite_body s {| entries := m |} n io in
  ((λ _, out) <$> r) = (spec_write sp m io out).1 ∧ related pass s' (spec_write sp m io out).2.
Proof.
  intros [Hl (n0 & ct0 & Hsv & Hf)] Hn Hm. destruct Hl as (Hd & Hk & Hbn & Hs & Hu).
  destruct (encrypt_body_total (dek (handle s)) n m) as [ct Hct]; [done..|].
  unfold rewrite_body. rewrite Hct.
  assert (serves pass (set_body (handle s) n ct) m) as Hnew.
  { split; [|done]. by apply decrypt_encrypt_body. }
  destruct io as [e|]; simpl; (split; [done|]); split; try done.
  - exists n0, ct0. done.
  - exists n, ct. done.
Qed.

Lemma vault_step_spec pass s sp o : related pass s sp → op_ok pass sp o = true →
  let '(r, s') := vault_step s o in r = (spec_step sp o).1 ∧ related pass s' (spec_step sp o).2.
Proof.
  intros Hr Ho. pose proof Hr as [(Hd & _) (n0 & ct0 & Hsv & Hf)].
  destruct o as [e v n io|e n io|e| |p]; cbn [vault_step spec_step op_ok] in *.
  - apply andb_true_iff in Ho as [Hn%bool_decide_eq_true Hm]. unfold set_entry. rewrite Hd. simpl.
    pose proof (rewrite_body_spec _ _ _ _ _ io RUnit Hr Hn Hm) as Hw.
    by destruct (rewrite_body s _ n io).
  - apply andb_true_iff in Ho as [Hn%bool_decide_eq_true Hm]. unfold delete_entry. rewrite Hd. simpl.
    destruct (live sp !! e); [|done].
    pose proof (rewrite_body_spec _ _ _ _ _ io (RBool true) Hr Hn Hm) as Hw.
    by destruct (rewrite_body s _ n io) as [[]].
  - unfold get_entry. by rewrite Hd.
  - unfold list_entries. by rewrite Hd.
  - apply bool_decide_eq_true in Ho as ->. rewrite Hf. cbn [ok_or].
    change (path (handle s)) with (path (set_body (handle s) n0 ct0)). erewrite open_written by done.
    split; [done|]. split; [done|]. by exists n0, ct0.
Qed.

Lemma vault_run_spec pass ops s sp : related pass s sp → ops_ok pass sp ops = true →
  vault_run s ops = spec_run sp ops.
Proof.
  revert s sp. induction ops as [|o ops IH]; intros s sp Hr Ho; [done|]. simpl in *.
  apply andb_true_iff in Ho as [Ho Hops]. pose proof (vault_step_spec _ _ _ _ Hr Ho) as Hstep.
  destruct (vault_step s o) as [r s'], (spec_step sp o) as [r' sp']. simpl in *.
  destruct Hstep as [-> Hr']. f_equal. by apply IH.
Qed.

Lemma create_related p pass salt k wn n io s :
  length k = 32%nat → length wn = 12%nat → length n = 12%nat →
  create p None "passphrase" pass salt k wn n io = Ok s → related pass s {| live := ∅; saved := ∅ |}.
Proof.
  intros Hk Hwn Hn. unfold create. rewrite decide_True by done.
  destruct (seal _ k wn) as [sealed|] eqn:Hs; [|done]. cbn [map_err mbind result_bind].
  destruct (encrypt_body k n _) as [ct|] eqn:Hc; [|done]. cbn [mbind result_bind].
  destruct io; [done|]. cbn [persist]. intros [= <-].
  match goal with |- related _ {| handle := ?v |} _ => assert (serves pass v ∅) as Hv end.
  { split; [by apply decrypt_encrypt_body|]. split_and!; [done..|]. exact (unseal_seal _ k wn sealed Hk Hwn Hs). }
  split; [done|]. exists n, ct. done.
Qed.

(** The local vault implements a map from entry paths to secrets.  On a
    created store, every sequence of writes, removals, reads, listings and
    reopenings with the passphrase, each write with a 12-byte nonce, a body
    within AES-GCM's limit and its file operations failing or not, returns what
    the two-map specification returns: reads see the last write, the handle
    keeps a write whose file operation failed, and reopening goes back to the
    last write that reached the file. *)
Theorem vault_refines_spec p pass salt k wn n s ops :
  length k = 32%nat → length wn = 12%nat → length n = 12%nat →
  create p None "passphrase" pass salt k wn n None = Ok s →
  ops_ok pass {| live := ∅; saved := ∅ |} ops = true →
  vault_run s ops = spec_run {| live := ∅; saved := ∅ |} ops.
Proof. intros Hk Hwn Hn Hc Ho. eapply vault_run_spec; [|done]. by eapply (create_related p _ salt k wn n). Qed.

(** A handle vouches for the file: [open] succeeds only if the key unseals
    under the passphrase and the body authenticates and parses. *)
Theorem open_authenticates p raw pass v : open p raw pass = Ok v →
  is_ok (decrypt_entries v) = true ∧ unseal (from_params (kdf v) pass) (sealed_dek v) = Ok (dek v) ∧
  length (body_nonce v) = BODY_NONCE_LEN ∧ path v = p.
Proof.
  unfold open. destruct (read_header raw) as [h|]; [|done]. simpl.
  destruct (negb _); [done|].
  destruct (unb64 (sealed_dek_b64 h)) as [sealed|]; [|done]. simpl.
  destruct (unb64 (body_nonce_b64 h)) as [nonce|]; [|done]. simpl.
  destruct (decide (length nonce = _)) as [Hn|]; [|done]. simpl.
  destruct (unb64 (body_b64 h)) as [ct|]; [|done]. simpl.
  destruct (decide _); [|done].
  destruct (unseal _ sealed) as [k|] eqn:Hu; [|done]. simpl.
  destruct (decrypt_body k nonce ct) as [b|] eqn:Hb; [|done]. simpl.
  intros [= <-]. unfold decrypt_entries. simpl. by rewrite Hb.
Qed.

(** A passphrase whose key does not authenticate the sealed key is reported as
    wrong, and the file of a store is not touched by the attempt. *)
Theorem wrong_passphrase pass pass' s sp kek :
  related pass s sp → derive_kek (from_params (kdf (handle s)) pass') = Ok kek →
  aead_decrypt kek (take NONCE_LEN (sealed_dek (handle s))) (drop NONCE_LEN (sealed_dek (handle s))) = None →
  vault_step s (OReopen pass') = (Err WrongPassphrase, s).
Proof.
  intros [(_ & _ & _ & _ & Hu0) (n & ct & (_ & _ & Hn & Hsn & _) & Hf)] Hk Hdec.
  cbn [vault_step]. rewrite Hf. unfold open, read_header. cbn [map_err mbind result_bind ok_or].
  rewrite (proj2 (strip_prefix_Some _ _ _) eq_refl). simpl. rewrite from_to_text. simpl.
  unfold unb64. rewrite !b64url_decode_encode. simpl. simpl in Hn, Hsn. rewrite decide_True by done. simpl.
  rewrite Hsn, decide_True by done. unfold unseal in Hu0 |- *.
  destruct (length _ <=? NONCE_LEN)%nat; [done|]. rewrite Hk. simpl. rewrite Hdec. simpl. done.
Qed.
End Local.

(** ** provider.rs and shared.rs *)

Inductive ResolveError : Type :=
| MalformedCredRef (cred_ref : str)
| UnsupportedScheme (scheme : str) (supported : list str)
| EntryNotFound (p : str)
| UnsetPlaceholder (p : str)
| Backend (e : str).

(** One backend behind a scheme: [Provider::resolve]. *)
Definition Provider : Type := str → result ResolveError str.

(** [Provider::mint] unless a provider overrides it. *)
Definition default_mint (entry : str) (ttl_secs : Z) : result ResolveError str :=
  Err (Backend "backend does not support short-lived minting").

Definition CA_NAMESPACE : str := "chaperone/ca/".
Definition PLACEHOLDER_ENTRY_VALUE : str := "<chaperone:unset>".

(** The router: schemes to providers. *)
Record VaultRouter : Type := { providers : gmap str Provider }.
Definition new_router : VaultRouter := {| providers := ∅ |}.

(** [VaultRouter::register]. *)
Definition register (r : VaultRouter) (scheme : str) (p : Provider) : VaultRouter :=
  {| providers := <[scheme := p]> (providers r) |}.

(** [VaultRouter::schemes]. *)
Definition schemes (r : VaultRouter) : list str := sorted_keys (providers r).

(** [VaultRouter::resolve]. *)
Definition router_resolve (r : VaultRouter) (cred_ref : str) : result ResolveError str :=
  '(scheme, entry) ← ok_or (split_once_str "://" cred_ref) (MalformedCredRef cred_ref);
  if is_empty scheme || is_empty entry then Err (MalformedCredRef cred_ref)
  else
    provider ← ok_or (providers r !! scheme) (UnsupportedScheme scheme (schemes r));
    provider entry.

Section Providers.
Context `{Base64, Aead, Argon2, DebugFmt, SerdeText Header, SerdeText Body}.

(** [Display for ResolveError]. *)
Definition resolve_error_str (e : ResolveError) : str :=
  match e with
  | MalformedCredRef _ => "cred_ref must look like scheme://entry-path"
  | UnsupportedScheme scheme supported =>
      "no provider for scheme " ++ debug_str scheme ++ " (supported: " ++ join ", " supported ++ ")"
  | EntryNotFound p => "credential " ++ debug_str p ++ " does not exist"
  | UnsetPlaceholder p =>
      "credential " ++ debug_str p ++ " is unset (placeholder); set a real value before use"
  | Backend e => "vault backend: " ++ e
  end.

(** [Provider::resolve] of the plain local vault. *)
Definition local_resolve (v : LocalVault) : Provider := λ entry,
  o ← map_err (λ e, Backend (vault_error_str e)) (get_entry v entry);
  ok_or o (EntryNotFound entry).

(** [Provider::resolve] of the shared vault. *)
Definition shared_resolve (v : LocalVault) : Provider := λ entry,
  if starts_with CA_NAMESPACE entry then
    Err (Backend "the SSH CA key is non-exportable; minting is the only operation it serves")
  else
    o ← map_err (λ e, Backend (vault_error_str e)) (get_entry v entry);
    secret ← ok_or o (EntryNotFound entry);
    if decide (secret = PLACEHOLDER_ENTRY_VALUE) then Err (UnsetPlaceholder entry) else Ok secret.

(** The router the daemon builds. *)
Definition daemon_router (v : LocalVault) : VaultRouter :=
  register new_router "local" (shared_resolve v).

Lemma split_scheme entry : split_once_str "://" ("local://" ++ entry) = Some (("local" : str), entry).
Proof. reflexivity. Qed.

Lemma shared_resolve_ok v m entry secret : decrypt_entries v = Ok {| entries := m |} →
  shared_resolve v entry = Ok secret ↔
  starts_with CA_NAMESPACE entry = false ∧ m !! entry = Some secret ∧ secret ≠ PLACEHOLDER_ENTRY_VALUE.
Proof.
  intros Hd. unfold shared_resolve. destruct (starts_with _ entry); [naive_solver|].
  unfold get_entry. rewrite Hd. simpl. destruct (m !! entry) as [x|]; simpl; [|naive_solver].
  destruct (decide _); naive_solver.
Qed.

(** What a [cred_ref] resolves to.  The daemon's router over an open vault
    returns a secret exactly for [local://entry] with a non-empty entry outside
    the certificate authority's namespace, present in the vault and not the
    unset placeholder; the secret is the entry's value.  So the authority's key
    is not resolvable by any reference. *)
Theorem router_resolves_exactly v m cred_ref secret :
  decrypt_entries v = Ok {| entries := m |} →
  router_resolve (daemon_router v) cred_ref = Ok secret ↔
  ∃ entry, cred_ref = "local://" ++ entry ∧ entry ≠ [] ∧ starts_with CA_NAMESPACE entry = false ∧
    m !! entry = Some secret ∧ secret ≠ PLACEHOLDER_ENTRY_VALUE.
Proof.
  intros Hd. unfold router_resolve. split.
  - destruct (split_once_str "://" cred_ref) as [[scheme entry]|] eqn:Hs; [|done]. simpl.
    destruct (is_empty scheme) eqn:?, (is_empty entry) eqn:He; try done. simpl.
    destruct (decide (scheme = ("local" : str))) as [-> |Hne].
    + rewrite lookup_insert_eq. simpl. intros Hr. apply (shared_resolve_ok _ m) in Hr; [|done].
      exists entry. apply split_once_str_Some in Hs. split; [done|]. split; [by intros ->|done].
    + rewrite lookup_insert_ne by done. by rewrite lookup_empty.
  - intros (entry & -> & Hne & Hrest). rewrite split_scheme. simpl.
    destruct entry as [|b entry]; [done|]. simpl. rewrite lookup_insert_eq. simpl.
    by apply (shared_resolve_ok _ m).
Qed.

(** The authority reads its own key through the handle: what
    [GatewayCaContext::read_ca_entry] returns is the vault's entry. *)
Theorem ca_entry_readable v m : decrypt_entries v = Ok {| entries := m |} →
  read_ca_text (Some (map_err vault_error_str (list_entries v),
                      λ e, map_err vault_error_str (get_entry v e))) = Ok (m !! CA_ENTRY).
Proof.
  intros Hd. unfold read_ca_text, list_entries, get_entry. rewrite Hd. simpl.
  assert (CA_ENTRY ∈ sorted_keys m ↔ is_Some (m !! CA_ENTRY)) as Hiff.
  { unfold sorted_keys. rewrite merge_sort_Permutation, list_elem_of_fmap. split.
    - intros ([k x] & -> & Hin%elem_of_map_to_list). eauto.
    - intros [x Hx]. exists (CA_ENTRY, x). by rewrite elem_of_map_to_list. }
  destruct (m !! CA_ENTRY) as [x|].
  - rewrite bool_decide_true by (apply Hiff; eauto). done.
  - rewrite bool_decide_false; [done|]. rewrite Hiff. by intros [].
Qed.
End Providers.

(** ** hashicorp.rs *)

Record VaultKv2 : Type := { endpoint : str; mount : str; token : str }.

(** [VaultKv2::new]; [client] is the outcome of building the HTTP client. *)
Definition new_kv2 (base_url mount0 tok : str) (client : result str unit) : result str VaultKv2 :=
  let base := trim_end_matches "/" base_url in
  if negb (starts_with "http://" base) && negb (starts_with "https://" base) then
    Err "vault base_url must be http(s)://"
  else
    let m := trim_end_matches "/" (trim_start_matches "/" mount0) in
    if is_empty m || contains ".." m then Err "vault mount must be a non-empty path segment"
    else _ ← client; Ok {| endpoint := base ++ "/v1/" ++ m ++ "/data"; mount := m; token := tok |}.

(** The address a read goes to. *)
Definition kv2_url (v : VaultKv2) (entry : str) : str :=
  endpoint v ++ "/" ++ trim_start_matches "/" entry.

Section Kv2.
Context `{DebugFmt}.

(** The value a KV-v2 answer holds for an entry: the selected key, or the only one. *)
Definition kv2_value (data : Map) (entry : str) : result ResolveError str :=
  match split_once Byte.x23 entry with
  | Some (_, key) =>
      ok_or (map_get key data ≫= as_str) (Backend ("key " ++ debug_str key ++ " not present in secret"))
  | None =>
      match data with
      | [(_, x)] => ok_or (as_str x) (Backend "single-key secret value is not a string")
      | _ => Err (Backend ("secret has " ++ show (Z.of_nat (length data)) ++ " keys; select one with path#key"))
      end
  end.

(** [Provider::resolve] of the KV-v2 provider; [http] is a GET with the token:
    the status and the parsed body. *)
Definition kv2_resolve (v : VaultKv2) (http : str → str → result str (Z * result str Value)) : Provider := λ entry,
  if is_empty entry || contains ".." entry then Err (EntryNotFound entry)
  else
    '(status, body) ← map_err (λ e, Backend ("vault unreachable: " ++ e)) (http (kv2_url v entry) (token v));
    if status =? 200 then
      body ← map_err (λ e, Backend ("vault body: " ++ e)) body;
      data ← ok_or ((get body "data" ≫= λ d, get d "data") ≫= as_object)
                   (Backend "vault response missing data.data");
      kv2_value data entry
    else if (status =? 403) || (status =? 401) then Err (Backend "vault rejected the token")
    else if status =? 404 then Err (EntryNotFound entry)
    else Err (Backend ("vault returned " ++ show status)).

Lemma kv2_value_ok data entry secret :
  kv2_value data entry = Ok secret ↔
  match split_once Byte.x23 entry with
  | Some (_, key) => map_get key data = Some (String secret)
  | None => ∃ key, data = [(key, String secret)]
  end.
Proof.
  assert (∀ x, as_str x = Some secret ↔ x = String secret) as Hstr by (intros []; naive_solver).
  unfold kv2_value. destruct (split_once _ entry) as [[p key]|].
  - rewrite ok_or_ok. destruct (map_get key data) as [x|]; simpl; [|naive_solver].
    rewrite Hstr. naive_solver.
  - destruct data as [|[k x] [|]]; [naive_solver| |naive_solver]. rewrite ok_or_ok, Hstr. naive_solver.
Qed.

(** What the KV-v2 provider returns: the string at the selected key, or at the
    only key, of the [data.data] object of a 200 answer to a GET below the
    endpoint; nothing else resolves. *)
Theorem kv2_resolves_exactly v http entry secret :
  kv2_resolve v http entry = Ok secret ↔
  entry ≠ [] ∧ contains ".." entry = false ∧
  ∃ body data, http (kv2_url v entry) (token v) = Ok (200, Ok body) ∧
    (get body "data" ≫= λ d, get d "data") = Some (Object data) ∧
    match split_once Byte.x23 entry with
    | Some (_, key) => map_get key data = Some (String secret)
    | None => ∃ key, data = [(key, String secret)]
    end.
Proof.
  unfold kv2_resolve. destruct entry as [|b entry0]; [naive_solver|].
  remember (b :: entry0) as entry. assert (is_empty entry = false) as -> by by subst.
  assert (entry ≠ []) by by subst. destruct (contains _ entry); [naive_solver|]. simpl.
  destruct (http _ _) as [[status body]|e]; simpl; [|naive_solver].
  destruct (Z.eqb_spec status 200) as [-> |Hne].
  - destruct body as [body|e]; simpl; [|naive_solver].
    assert (∀ o : option Value, o ≫= as_object = None → ∀ d, o ≠ Some (Object d)) as Hno by (intros [[]|]; naive_solver).
    destruct ((get body "data" ≫= λ d, get d "data") ≫= as_object) as [data|] eqn:Hd; simpl.
    + assert ((get body "data" ≫= λ d, get d "data") = Some (Object data)) as Hd'
        by (destruct (get body "data" ≫= λ d, get d "data") as [[]|]; naive_solver).
      rewrite kv2_value_ok. split; [eauto 10|].
      intros (_ & _ & body' & data' & [= <-] & Hg & Hv). rewrite Hd' in Hg. by injection Hg as ->.
    + split; [done|]. intros (_ & _ & body' & data' & [= <-] & Hg & _). by apply (Hno _ Hd) in Hg.
  - split; [|naive_solver].
    destruct (_ || _); [done|]. by destruct (status =? 404).
Qed.
End Kv2.

(** ** Witnesses and concrete behaviours *)

#[global] Instance kdf_eq_dec : EqDecision KdfParams.
Proof. solve_decision. Defined.
#[global] Program Instance kdf_countable : Countable KdfParams :=
  inj_countable' (λ k, (salt_b64 k, m_cost_kib k, t_cost k, p_cost k))
    (λ t, {| salt_b64 := t.1.1.1; m_cost_kib := t.1.1.2; t_cost := t.1.2; p_cost := t.2 |}) _.
Next Obligation. by intros []. Qed.
#[global] Instance header_eq_dec : EqDecision Header.
Proof. solve_decision. Defined.
#[global] Program Instance header_countable : Countable Header :=
  inj_countable' (λ h, (version h, h_sealer_name h, h_kdf h, sealed_dek_b64 h, body_nonce_b64 h, body_b64 h))
    (λ t, {| version := t.1.1.1.1.1; h_sealer_name := t.1.1.1.1.2; h_kdf := t.1.1.1.2;
             sealed_dek_b64 := t.1.1.2; body_nonce_b64 := t.1.2; body_b64 := t.2 |}) _.
Next Obligation. by intros []. Qed.
#[global] Instance body_eq_dec : EqDecision Body.
Proof. solve_decision. Defined.
#[global] Program Instance body_countable : Countable Body :=
  inj_countable' entries (λ m, {| entries := m |}) _.
Next Obligation. by intros []. Qed.

Section Witnesses.
#[local] Existing Instances toy_base64 toy_aead toy_argon2 toy_serde toy_debug.

Definition a_dek : str := replicate 32 Byte.x44.
Definition a_nonce (b : byte) : str := replicate 12 b.
Definition fresh : result VaultError Store :=
  create "/v" None "passphrase" "pw" "saltsaltsaltsalt" a_dek (a_nonce Byte.x01) (a_nonce Byte.x02) None.
Definition no_store : Store :=
  {| handle := {| path := []; sealer_name := []; sealed_dek := [];
                  kdf := {| salt_b64 := []; m_cost_kib := 0; t_cost := 0; p_cost := 0 |};
                  dek := []; body_nonce := []; body_ciphertext := [] |}; file := None |}.
Definition store0 : Store := match fresh with Ok s => s | Err _ => no_store end.

Lemma fresh_ok : fresh = Ok store0.
Proof.
  assert (is_ok fresh = true) as Hok by (vm_compute; reflexivity).
  unfold store0. by destruct fresh.
Qed.

Definition some_ops : list vop :=
  [ OSet "db" "s1" (a_nonce Byte.x03) None; OGet "db"; OSet "db" "s2" (a_nonce Byte.x04) (Some "disk full");
    OGet "db"; OReopen "pw"; OGet "db"; ODelete "db" (a_nonce Byte.x05) None; OList ].

Lemma vault_refines_spec_witness :
  vault_run store0 some_ops =
  [ Ok RUnit; Ok (RSecret (Some "s1")); Err (VIo "disk full"); Ok (RSecret (Some "s2"));
    Ok RUnit; Ok (RSecret (Some "s1")); Ok (RBool true); Ok (RKeys []) ].
Proof.
  etransitivity; [|vm_compute; reflexivity].
  apply (vault_refines_spec "/v" "pw" "saltsaltsaltsalt" a_dek (a_nonce Byte.x01) (a_nonce Byte.x02)).
  1-3: reflexivity.
  - exact fresh_ok.
  - vm_compute. reflexivity.
Defined.

(** A store that holds a secret, the authority's key and an unset entry. *)
Definition store1 : Store :=
  let w s e v := (set_entry s e v (a_nonce Byte.x06) None).2 in
  w (w (w store0 "db" "s1") CA_ENTRY "key") "todo" PLACEHOLDER_ENTRY_VALUE.

Lemma router_resolves_exactly_witness :
  router_resolve (daemon_router (handle store1)) "local://db" = Ok ("s1" : str).
Proof.
  apply (router_resolves_exactly _
    (<[("todo" : str) := PLACEHOLDER_ENTRY_VALUE]> (<[CA_ENTRY := ("key" : str)]> {[ ("db" : str) := ("s1" : str) ]}))).
  - vm_compute. reflexivity.
  - exists ("db" : str). split_and!; first [done | vm_compute; reflexivity].
Defined.

(** The other references the router refuses. *)
Example refused_references :
  (λ c, router_resolve (daemon_router (handle store1)) c) <$>
    ["local://todo"; "local://chaperone/ca/ssh"; "local://gone"; "db"; "local://"; "vault://db"] =
  [ Err (UnsetPlaceholder "todo");
    Err (Backend "the SSH CA key is non-exportable; minting is the only operation it serves");
    Err (EntryNotFound "gone"); Err (MalformedCredRef "db"); Err (MalformedCredRef "local://");
    Err (UnsupportedScheme "vault" ["local"]) ].
Proof. vm_compute. reflexivity. Qed.

(** A write whose file operation failed is reported as failed and brokered
    until the daemon restarts; after the restart the entry is gone. *)
Theorem failed_write_still_brokered :
  let r := set_entry store0 "db" "s1" (a_nonce Byte.x03) (Some "disk full") in
  let s' := (vault_step r.2 (OReopen "pw")).2 in
  r.1 = Err (VIo "disk full") ∧
  router_resolve (daemon_router (handle r.2)) "local://db" = Ok ("s1" : str) ∧
  router_resolve (daemon_router (handle s')) "local://db" = Err (EntryNotFound "db").
Proof. vm_compute. split_and!; reflexivity. Qed.

(** The wrong passphrase is told apart from a damaged file. *)
Example wrong_passphrase_reported :
  (vault_step store1 (OReopen "guess")).1 = Err WrongPassphrase ∧
  open "/v" (Ok "CHAPVAULT2") "pw" = Err (VCorrupt "not a chaperone vault file").
Proof. vm_compute. split; reflexivity. Qed.

(** The check for [..] looks at the literal text: percent-encoded dots, which a
    URL parser also takes as a parent segment, go into the request path. *)
Theorem kv2_encoded_dots_pass :
  let v := {| endpoint := "https://vault:8200/v1/kv/data"; mount := "kv"; token := "t" |} in
  let entry : str := "%2e%2e/%2e%2e/sys/policy" in
  contains ".." entry = false ∧
  kv2_url v entry = ("https://vault:8200/v1/kv/data/%2e%2e/%2e%2e/sys/policy" : str) ∧
  kv2_resolve v (λ url _, Ok (200, Ok (Object [("data", Object [("data", Object [("k", jstr url)])])]))) entry =
    Ok (kv2_url v entry).
Proof. vm_compute. split_and!; reflexivity. Qed.
End Witnesses.
