(* ===== verification/Keyring.v ===== *)
(** The vault built with the [keyring] feature: [KeyringSealer] of
    [crates/vault/src/sealer.rs] and the arms of [LocalVault::create] and
    [LocalVault::open] that use it.

    The data key is a password in the platform's credential store and the
    file carries a marker in its place.  The credential store is an interface
    ([KeyStore]).  The theorems: a keyring vault opens again with any
    passphrase, whatever is written to it; and every keyring vault of a user
    has its key under one and the same entry, so creating a second one takes
    the first one's key away. *)

From S2P Require Import Prelude Strs Json Extern Toy SshCa Vault.
#[local] Open Scope Z_scope.

(** The [keyring] crate over a platform store in state [R]: naming an entry,
    setting and getting its password.  A password that was set is the one that
    is got, and setting touches no other entry. *)
Class KeyStore (R : Type) := {
  entry_new : R → str → str → result str unit;
  set_password : R → str → str → str → result str unit * R;
  get_password : R → str → str → result str str;
  get_set : ∀ r s u p r', set_password r s u p = (Ok tt, r') → get_password r' s u = Ok p;
  set_entry_new : ∀ r s u p s' u', entry_new (set_password r s u p).2 s' u' = entry_new r s' u';
}.

Record KeyringSealer : Type := { service : str; user : str }.

(** The sealer [create] and [open] construct. *)
Definition vault_sealer : KeyringSealer := {| service := "chaperone-vault"; user := "dek" |}.
Definition marker : str := "keyring-backed".
Definition no_kdf : KdfParams := {| salt_b64 := []; m_cost_kib := 0; t_cost := 0; p_cost := 0 |}.

Section Keyring.
Context {R : Type} `{!KeyStore R}.
Context `{Base64, Aead, Argon2, DebugFmt, SerdeText Header, SerdeText Body}.

(** [KeyringSealer::entry]. *)
Definition ring_entry (s : KeyringSealer) (r : R) : result SealerError unit :=
  map_err Keyring (entry_new r (service s) (user s)).

(** [KeyringSealer::seal]. *)
Definition ring_seal (s : KeyringSealer) (dek : str) (r : R) : result SealerError str * R :=
  match ring_entry s r with
  | Err e => (Err e, r)
  | Ok _ =>
      match set_password r (service s) (user s) (b64url_encode dek) with
      | (Err e, r') => (Err (Keyring e), r')
      | (Ok _, r') => (Ok marker, r')
      end
  end.

(** [KeyringSealer::unseal]. *)
Definition ring_unseal (s : KeyringSealer) (sealed : str) (r : R) : result SealerError str :=
  if decide (sealed = marker) then
    _ ← ring_entry s r;
    stored ← map_err Keyring (get_password r (service s) (user s));
    raw ← sealer_unb64 stored;
    if decide (length raw = 32%nat) then Ok raw else Err (Crypto "DEK is not 32 bytes")
  else Err (Crypto "journal/sealed blob mismatch").

(** The end of [create]: the empty body and the file. *)
Definition finish_create (p name sealed : str) (k : KdfParams) (new_dek nonce : str) (io : option str)
  : result VaultError Store :=
  body_ct ← encrypt_body new_dek nonce {| entries := ∅ |};
  let v := {| path := p; sealer_name := name; sealed_dek := sealed; kdf := k; dek := new_dek;
              body_nonce := nonce; body_ciphertext := body_ct |} in
  match persist None (header_of v) io with
  | (Ok _, f') => Ok {| handle := v; file := f' |}
  | (Err e, _) => Err e
  end.

(** [LocalVault::create] of this build. *)
Definition ring_create (p : str) (f : option str) (sealer_choice passphrase : str)
    (salt new_dek wrap_nonce nonce : str) (io : option str) (r : R) : result VaultError Store * R :=
  match f with
  | Some _ => (Err (AlreadyExists p), r)
  | None =>
      if decide (sealer_choice = ("passphrase" : str)) then
        let sealer := new_sealer passphrase salt in
        (sealed ← map_err VSeal (seal sealer new_dek wrap_nonce);
         finish_create p "passphrase" sealed (ps_params sealer) new_dek nonce io, r)
      else if decide (sealer_choice = ("keyring" : str)) then
        let '(sealed, r') := ring_seal vault_sealer new_dek r in
        (sealed ← map_err VSeal sealed; finish_create p "keyring" sealed no_kdf new_dek nonce io, r')
      else
        (Err (VCorrupt ("unknown sealer " ++ debug_str sealer_choice ++
           " (this build supports: passphrase, keyring)")), r)
  end.

(** [LocalVault::open] of this build. *)
Definition ring_open (p : str) (raw : result str str) (passphrase : str) (r : R) : result VaultError LocalVault :=
  header ← read_header raw;
  if negb (version header =? 1) then
    Err (VCorrupt ("unknown vault version " ++ show (version header)))
  else
    sealed ← unb64 (sealed_dek_b64 header);
    body_nonce_raw ← unb64 (body_nonce_b64 header);
    nonce ← (if decide (length body_nonce_raw = BODY_NONCE_LEN) then Ok body_nonce_raw
             else Err (VCorrupt "body nonce length"));
    body_ct ← unb64 (body_b64 header);
    let opened dek := (_ ← decrypt_body dek nonce body_ct;
      Ok {| path := p; sealer_name := h_sealer_name header; sealed_dek := sealed;
            kdf := h_kdf header; dek := dek; body_nonce := nonce; body_ciphertext := body_ct |}) in
    if decide (h_sealer_name header = ("passphrase" : str)) then
      dek ← map_err (λ e, match e with
                          | Crypto m => if contains "authentication failed" m then WrongPassphrase
                                        else VSeal (Crypto m)
                          | other => VSeal other
                          end)
                    (unseal (from_params (h_kdf header) passphrase) sealed);
      opened dek
    else if decide (h_sealer_name header = ("keyring" : str)) then
      dek ← map_err VSeal (ring_unseal vault_sealer sealed r);
      opened dek
    else Err (VCorrupt ("this build cannot unseal " ++ debug_str (h_sealer_name header) ++ " stores")).

(** ** The feature changes nothing for the other stores *)

Lemma ring_create_passphrase p f pass salt k wn n io r :
  ring_create p f "passphrase" pass salt k wn n io r = (create p f "passphrase" pass salt k wn n io, r).
Proof.
  unfold ring_create, create. destruct f; [done|]. rewrite !decide_True by done.
  by destruct (map_err VSeal (seal (new_sealer pass salt) k wn)).
Qed.

Lemma ring_open_other p raw pass r :
  sealer_of raw ≠ Ok ("keyring" : str) → ring_open p raw pass r = open p raw pass.
Proof.
  unfold ring_open, open, sealer_of. destruct (read_header raw) as [h|]; [|done]. simpl. intros Hne.
  destruct (negb _); [done|]. destruct (unb64 (sealed_dek_b64 h)); [|done]. simpl.
  destruct (unb64 (body_nonce_b64 h)) as [nn|]; [|done]. simpl.
  destruct (decide (length nn = _)); [|done]. simpl.
  destruct (unb64 (body_b64 h)); [|done]. simpl.
  destruct (decide (h_sealer_name h = "passphrase")); [done|].
  destruct (decide (h_sealer_name h = "keyring")) as [He|]; [|done]. by rewrite He in Hne.
Qed.

(** ** The keyring vault *)

Lemma unseal_ring_seal s k r r' :
  length k = 32%nat → ring_seal s k r = (Ok marker, r') → ring_unseal s marker r' = Ok k.
Proof.
  intros Hk. unfold ring_seal, ring_unseal, ring_entry.
  destruct (entry_new r (service s) (user s)) as [[]|] eqn:He; [|done]. cbn [map_err].
  destruct (set_password r (service s) (user s) (b64url_encode k)) as [[[]|] r1] eqn:Hs; [|done].
  intros [= <-]. rewrite decide_True by done.
  pose proof (set_entry_new r (service s) (user s) (b64url_encode k) (service s) (user s)) as Hn.
  rewrite Hs in Hn. simpl in Hn. rewrite Hn, He. simpl. rewrite (get_set _ _ _ _ _ Hs). simpl.
  unfold sealer_unb64. rewrite b64url_decode_encode. simpl. by rewrite decide_True.
Qed.

(** The handle serves [m] and the platform store in state [r] holds its key. *)
Definition ring_serves (v : LocalVault) (m : gmap str str) (r : R) : Prop :=
  decrypt_entries v = Ok {| entries := m |} ∧ length (dek v) = 32%nat ∧
  length (body_nonce v) = BODY_NONCE_LEN ∧ sealer_name v = ("keyring" : str) ∧
  sealed_dek v = marker ∧ ring_unseal vault_sealer marker r = Ok (dek v).

(** What opening a keyring file comes to: the key in the platform store
    decides, not the file. *)
Lemma ring_open_file v pass r k :
  length (body_nonce v) = BODY_NONCE_LEN → sealer_name v = ("keyring" : str) → sealed_dek v = marker →
  ring_unseal vault_sealer marker r = Ok k →
  ring_open (path v) (Ok (MAGIC ++ to_text (header_of v))) pass r =
    (_ ← decrypt_body k (body_nonce v) (body_ciphertext v);
     Ok {| path := path v; sealer_name := sealer_name v; sealed_dek := sealed_dek v; kdf := kdf v;
           dek := k; body_nonce := body_nonce v; body_ciphertext := body_ciphertext v |}).
Proof.
  intros Hn Hs Hm Hu. unfold ring_open, read_header. cbn [map_err mbind result_bind].
  rewrite (proj2 (strip_prefix_Some _ _ _) eq_refl). simpl. rewrite from_to_text. simpl.
  unfold unb64. rewrite !b64url_decode_encode. simpl. rewrite decide_True by done. simpl.
  rewrite Hs, decide_False, decide_True, Hm, Hu by done. done.
Qed.

Lemma ring_open_serves v m pass r :
  ring_serves v m r → ring_open (path v) (Ok (MAGIC ++ to_text (header_of v))) pass r = Ok v.
Proof.
  intros (Hd & _ & Hn & Hs & Hm & Hu). rewrite (ring_open_file _ _ _ (dek v)) by done.
  unfold decrypt_entries in Hd. rewrite Hd. simpl. by destruct v.
Qed.

Lemma ring_create_serves p pass salt k wn n io r s r' :
  length k = 32%nat → length n = BODY_NONCE_LEN →
  ring_create p None "keyring" pass salt k wn n io r = (Ok s, r') →
  ring_serves (handle s) ∅ r' ∧ path (handle s) = p ∧
  file s = Some (MAGIC ++ to_text (header_of (handle s))).
Proof.
  intros Hk Hn. unfold ring_create. rewrite decide_False, decide_True by done.
  destruct (ring_seal vault_sealer k r) as [[sealed|e] r1] eqn:Hs; [|done].
  cbn [map_err mbind result_bind]. unfold finish_create.
  destruct (encrypt_body k n _) as [ct|] eqn:Hc; [|done]. cbn [mbind result_bind].
  destruct io; [done|]. cbn [persist]. intros [= <- <-]. simpl.
  assert (sealed = marker) as ->.
  { revert Hs. unfold ring_seal. destruct (ring_entry _ _); [|done].
    destruct (set_password _ _ _ _) as [[]]; [|done]. by intros [= <- _]. }
  split; [|done]. split_and!; [by apply decrypt_encrypt_body|done|done|done|done|].
  by eapply unseal_ring_seal.
Qed.

(** One write to a keyring vault. *)
Definition ring_write (s : Store) (w : str * str * str) : Store :=
  let '(e, v, n) := w in (set_entry s e v n None).2.

Fixpoint writes_ok (m : gmap str str) (ws : list (str * str * str)) : Prop :=
  match ws with
  | [] => True
  | (e, v, n) :: rest =>
      length n = BODY_NONCE_LEN ∧ fits (<[e := v]> m) = true ∧ writes_ok (<[e := v]> m) rest
  end.

Definition ring_good (s : Store) (m : gmap str str) (r : R) : Prop :=
  ring_serves (handle s) m r ∧ file s = Some (MAGIC ++ to_text (header_of (handle s))).

Lemma ring_write_good s m r e v n :
  ring_good s m r → length n = BODY_NONCE_LEN → fits (<[e := v]> m) = true →
  ring_good (ring_write s (e, v, n)) (<[e := v]> m) r ∧ path (handle (ring_write s (e, v, n))) = path (handle s).
Proof.
  intros [(Hd & Hk & _ & Hs & Hm & Hu) _] Hn Hf. unfold ring_write, set_entry. rewrite Hd. simpl.
  destruct (encrypt_body_total (dek (handle s)) n (<[e := v]> m)) as [ct Hct]; [done..|].
  unfold rewrite_body. rewrite Hct. simpl. split; [|done]. split; [|done].
  split_and!; [|done..]. by apply decrypt_encrypt_body.
Qed.

Lemma ring_writes_good ws s m r :
  ring_good s m r → writes_ok m ws →
  ring_good (fold_left ring_write ws s) (fold_left (λ m w, <[w.1.1 := w.1.2]> m) ws m) r ∧
  path (handle (fold_left ring_write ws s)) = path (handle s).
Proof.
  revert s m. induction ws as [|[[e v] n] ws IH]; intros s m Hg Hw; [done|].
  destruct Hw as (Hn & Hf & Hw). destruct (ring_write_good _ _ _ e v n Hg Hn Hf) as [Hg1 Hp1].
  cbn [fold_left]. destruct (IH _ _ Hg1 Hw) as [Hg2 Hp2]. split; [exact Hg2|]. by rewrite Hp2.
Qed.

(** ** Properties *)

(** A keyring vault opens again.  After creation and any writes, the file opens to the handle
    that wrote it, with every value written, whatever passphrase is given,
    as long as the entry of the platform store is left alone. *)
Theorem keyring_reopens p pass salt k wn n r s r' ws pass' :
  length k = 32%nat → length n = BODY_NONCE_LEN →
  ring_create p None "keyring" pass salt k wn n None r = (Ok s, r') → writes_ok ∅ ws →
  let s' := fold_left ring_write ws s in
  (raw ← ok_or (file s') (VIo "missing"); ring_open p (Ok raw) pass' r') = Ok (handle s') ∧
  decrypt_entries (handle s') = Ok {| entries := fold_left (λ m w, <[w.1.1 := w.1.2]> m) ws ∅ |}.
Proof.
  intros Hk Hn Hc Hw. cbv zeta. destruct (ring_create_serves _ _ _ _ _ _ _ _ _ _ Hk Hn Hc) as (Hs & Hp & Hf).
  destruct (ring_writes_good ws s ∅ r' (conj Hs Hf) Hw) as [[Hs' Hf'] Hp'].
  split; [|apply Hs']. rewrite Hf'. cbn [ok_or mbind result_bind]. rewrite <- Hp, <- Hp'.
  by eapply ring_open_serves.
Qed.

(** Every keyring vault has its key under one entry.  Creating a second keyring vault, at any path, and
    even when its file cannot be written, replaces the key of the first: the
    first then opens only if its body authenticates under the second's key. *)
Theorem second_keyring_vault_takes_the_key p1 p2 pass salt k1 wn n1 r0 s1 r1 k2 wn2 n2 io r2 res :
  length k1 = 32%nat → length n1 = BODY_NONCE_LEN → length k2 = 32%nat →
  ring_create p1 None "keyring" pass salt k1 wn n1 None r0 = (Ok s1, r1) →
  ring_create p2 None "keyring" pass salt k2 wn2 n2 io r1 = (res, r2) →
  (ring_seal vault_sealer k2 r1).1 = Ok marker →
  aead_decrypt k2 n1 (body_ciphertext (handle s1)) = None →
  (raw ← ok_or (file s1) (VIo "missing"); ring_open p1 (Ok raw) pass r2) =
    Err (VCorrupt "body authentication failed").
Proof.
  intros Hk1 Hn1 Hk2 Hc1 Hc2 Hseal Hauth.
  destruct (ring_create_serves _ _ _ _ _ _ _ _ _ _ Hk1 Hn1 Hc1) as (Hs & Hp & Hf).
  rewrite Hf. cbn [ok_or mbind result_bind]. rewrite <- Hp.
  assert (body_nonce (handle s1) = n1) as Hbn.
  { revert Hc1. unfold ring_create, finish_create. rewrite decide_False, decide_True by done.
    destruct (ring_seal _ _ r0) as [[]]; [|done]. simpl. destruct (encrypt_body _ _ _); [|done].
    simpl. by intros [= <- _]. }
  assert (ring_unseal vault_sealer marker r2 = Ok k2) as Hu.
  { revert Hc2. unfold ring_create. rewrite decide_False, decide_True by done.
    destruct (ring_seal vault_sealer k2 r1) as [sealed r2'] eqn:Hs2. simpl in Hseal. subst sealed.
    intros [= _ <-]. by eapply unseal_ring_seal. }
  destruct Hs as (_ & _ & Hbl & Hsn & Hsd & _).
  rewrite (ring_open_file _ _ _ k2) by done. unfold decrypt_body. by rewrite Hbn, Hauth.
Qed.
End Keyring.

Section Witnesses.
#[local] Existing Instances toy_base64 toy_aead toy_argon2 toy_serde toy_debug.

(** A credential store that never fails. *)
Definition toy_ring : KeyStore (gmap (str * str) str).
Proof.
  refine {| entry_new := λ _ _ _, Ok tt;
            set_password := λ r s u p, (Ok tt, <[(s, u) := p]> r);
            get_password := λ r s u, ok_or (r !! (s, u)) "No matching entry found in secure storage" |}.
  - intros r s u p r' [= <-]. by rewrite lookup_insert_eq.
  - done.
Defined.
#[local] Existing Instance toy_ring.

Definition dek_of (b : byte) : str := replicate 32 b.
Definition first_vault : result VaultError Store * gmap (str * str) str :=
  ring_create "/v1" None "keyring" [] [] (dek_of Byte.x41) [] (a_nonce Byte.x01) None ∅.
Definition second_vault : result VaultError Store * gmap (str * str) str :=
  ring_create "/v2" None "keyring" [] [] (dek_of Byte.x42) [] (a_nonce Byte.x02) (Some "disk full") first_vault.2.
Definition first_store : Store := match first_vault.1 with Ok s => s | Err _ => no_store end.

Lemma first_vault_ok : first_vault = (Ok first_store, first_vault.2).
Proof.
  assert (is_ok first_vault.1 = true) as Hok by (vm_compute; reflexivity).
  unfold first_store. destruct first_vault as [[s|e] r]; [done|]. discriminate Hok.
Qed.

Definition one_write : list (str * str * str) := [("db" : str, "s1" : str, a_nonce Byte.x03)].

Lemma keyring_reopens_witness :
  let s' := fold_left ring_write one_write first_store in
  (raw ← ok_or (file s') (VIo "missing"); ring_open "/v1" (Ok raw) "no matter" first_vault.2) = Ok (handle s') ∧
  decrypt_entries (handle s') =
    Ok {| entries := fold_left (λ m w, <[w.1.1 := w.1.2]> m) one_write (∅ : gmap str str) |}.
Proof.
  apply (keyring_reopens "/v1" [] [] (dek_of Byte.x41) [] (a_nonce Byte.x01) ∅ first_store first_vault.2
    one_write "no matter").
  - reflexivity.
  - reflexivity.
  - exact first_vault_ok.
  - split; [reflexivity|]. split; [vm_compute; reflexivity|exact I].
Defined.

(** The second creation fails, and the first vault can no longer be opened. *)
Lemma second_keyring_vault_takes_the_key_witness :
  is_ok second_vault.1 = false ∧
  (raw ← ok_or (file first_store) (VIo "missing"); ring_open "/v1" (Ok raw) [] second_vault.2) =
    Err (VCorrupt "body authentication failed").
Proof.
  split; [vm_compute; reflexivity|].
  apply (second_keyring_vault_takes_the_key "/v1" "/v2" [] [] (dek_of Byte.x41) [] (a_nonce Byte.x01) ∅
    first_store first_vault.2 (dek_of Byte.x42) [] (a_nonce Byte.x02) (Some "disk full") second_vault.2
    second_vault.1).
  - reflexivity.
  - reflexivity.
  - reflexivity.
  - exact first_vault_ok.
  - apply surjective_pairing.
  - vm_compute. reflexivity.
  - vm_compute. reflexivity.
Defined.
End Witnesses.
