(* ===== verification/Helper.v ===== *)
(** The privileged helper and the gateway's end of it:
    [crates/privileged-helper/src/] and [crates/gateway-core/src/privilege.rs].

    The allowlist with its two readers, the ownership rule of an elevated
    helper, the frames on the helper's standard streams, [process_request], the
    loop of the helper's [main], and [LocalPrivBackend::connect] with the
    channel it returns.  A child process is a parameter: what spawning a command
    with given arguments, input and environment gives.  The streams between the
    two processes are the bytes written and the way they end. *)

From S2P Require Import Prelude Strs Json Extern Toy Protocol Transport Session Gateway.
#[local] Open Scope Z_scope.

(** ** allowlist.rs *)

Record AllowlistEntry : Type := { command : str; args : list str }.

(** [toml] on the allowlist file; unknown fields are refused there. *)
Class AllowToml := { allow_from_str : str → result str (list AllowlistEntry) }.

Section Allowlist.
Context `{AllowToml}.

(** [Allowlist::load] of what reading the file returned. *)
Definition load_allowlist (raw : result str str) : result str (list AllowlistEntry) :=
  text ← map_err (λ e, "allowlist: " ++ e) raw;
  map_err (λ e, "allowlist schema: " ++ e) (allow_from_str text).

(** [PrivilegeAllowlist::load], the gateway's reader of the same file. *)
Definition load_privilege_allowlist (raw : result str str) : result str (list (str * list str)) :=
  text ← map_err (λ e, "allowlist: " ++ e) raw;
  file ← map_err (λ e, "allowlist schema: " ++ e) (allow_from_str text);
  Ok (fmap (M:=list) (λ e, (command e, args e)) file).
End Allowlist.

(** [Allowlist::permits]. *)
Definition permits (al : list AllowlistEntry) (cmd : str) (argv : list str) : bool :=
  existsb (λ e, bool_decide (command e = cmd) && (length (args e) <=? length argv)%nat &&
                bool_decide (take (length (args e)) argv = args e)) al.

(** ** lib.rs *)

(** [{:04o}]: at least four octal digits, of a mode below [8 ^ 11]. *)
Fixpoint octal_digits (n : nat) (m : Z) : str :=
  match n with
  | O => []
  | S n => octal_digits n (m / 8) ++ [zb (48 + m mod 8)]
  end.
Definition octal (m : Z) : str :=
  octal_digits (Nat.max 4 (Z.to_nat (Z.log2 m / 3 + 1))) m.

(** [validate_allowlist_ownership]. *)
Definition validate_allowlist_ownership (uid mode : Z) : result str unit :=
  if negb (uid =? 0) then
    Err ("allowlist must be root-owned when running elevated (owner uid " ++ show uid ++ ")")
  else if negb (Z.land mode 18 =? 0) then
    Err ("allowlist must not be group/other writable (mode " ++ octal mode ++ ")")
  else Ok tt.

(** [check_allowlist_for_elevated] of the owner and mode. *)
Definition check_allowlist_for_elevated (stat : result str (Z * Z)) : result str unit :=
  '(uid, mode) ← map_err (λ e, "allowlist stat: " ++ e) stat;
  validate_allowlist_ownership uid mode.

Definition HELPER_MAX_FRAME : Z := 1024 * 1024.

(** *** frame_io *)

(** The byte loop of [read_frame]: [None] is a clean end of file.  [strict]
    tells a truncated header apart from the end of the stream, as the helper
    does and the gateway's reader does not. *)
Fixpoint helper_header (strict : bool) (header input : str) (fin : ending) : result str (option (str * str)) :=
  match input with
  | [] => match fin with
          | Some e => Err e
          | None => if is_empty header || negb strict then Ok None else Err "truncated header"
          end
  | b :: rest =>
      let header' := header ++ [b] in
      if 256 <? zlen header' then Err "header too large"
      else if ends_with HEADER_TERMINATOR header' then Ok (Some (header', rest))
      else helper_header strict header' rest fin
  end.

(** The first line that names a content length with a number. *)
Definition helper_length_line (l : str) : option Z :=
  match split_once Byte.x3a l with
  | Some (k, v) => if eq_ignore_ascii_case k "content-length" then parse_uint u64_max (trim v) else None
  | None => None
  end.

Definition helper_content_length (header : str) : result str Z :=
  if utf8_valid header then
    ok_or (find_map helper_length_line (split_str CRLF (trim_end_matches HEADER_TERMINATOR header)))
          "missing content-length"
  else Err "header not ASCII".

(** [read_frame] of the helper ([strict]) and [read_frame_async] of the
    gateway; [short] is the error of a body cut off by the end of the stream. *)
Definition helper_read_frame (strict : bool) (short : str) (input : str) (fin : ending)
  : result str (option (str * str)) :=
  h ← helper_header strict [] input fin;
  match h with
  | None => Ok None
  | Some (header, rest) =>
      n ← helper_content_length header;
      if HELPER_MAX_FRAME <? n then Err "frame too large"
      else if zlen rest <? n then Err (default short fin)
      else Ok (Some (take (Z.to_nat n) rest, drop (Z.to_nat n) rest))
  end.

Definition stdin_frame : str → ending → result str (option (str * str)) :=
  helper_read_frame true "failed to fill whole buffer".
Definition read_frame_async : str → ending → result str (option (str * str)) :=
  helper_read_frame false "early eof".

(** *** process_request *)

(** Environment variables. *)
Abbreviation environment := (gmap str str).
Definition TOKEN_VAR : str := "CHAPERONE_HELPER_TOKEN".

(** What became of a child: it could not be spawned, waiting for it failed, or
    its output and exit code ([None] when a signal, the time limit's among them,
    ended it). *)
Inductive child_result : Type :=
| SpawnFailed (e : str)
| WaitFailed (e : str)
| Finished (stdout stderr : str) (code : option Z).

(** One execution: the command line, the bytes for its input, its environment. *)
Record execution : Type := { x_command : str; x_args : list str; x_input : option str; x_env : environment }.

Section Request.
Context `{Base64, JsonText}.
Variable child : execution → child_result.

(** The answer with the request's id. *)
Definition stamp (id : str) (v : Value) : Value :=
  match v with Object m => Object (map_insert "id" (String id) m) | _ => v end.

Definition status (id st reason : str) : Value :=
  stamp id (object [("status", String st); ("reason", String reason)]).

(** [input_b64], without line breaks and padding; undecodable input is empty. *)
Definition decode_input (s : str) : str :=
  match decode_signature (trim_end_matches "=" (filter (λ b, b ≠ Byte.x0a ∧ b ≠ Byte.x0d) s)) with
  | Ok b => b
  | Err _ => []
  end.
Definition child_input (msg : Value) : option str := decode_input <$> get_str msg "input_b64".

Definition child_messages (id : str) (r : child_result) : list Value :=
  match r with
  | SpawnFailed e => [status id "error" ("spawn: " ++ e)]
  | WaitFailed e => [status id "error" e]
  | Finished out err code =>
      (if is_empty out then [] else
         [stamp id (object [("type", String "out"); ("stream", String "stdout");
                            ("data_b64", String (encode_signature out))])]) ++
      (if is_empty err then [] else
         [stamp id (object [("type", String "out"); ("stream", String "stderr");
                            ("data_b64", String (encode_signature err))])]) ++
      [stamp id (object [("type", String "exit"); ("exit_code", jnum (default (-1) code))])]
  end.

(** [process_request] in the environment [env]: the answers and the executions. *)
Definition process_request (env : environment) (msg : Value) (expected_token : str)
    (al : list AllowlistEntry) (run_child : bool) : list Value * list execution :=
  let id := default [] (get_str msg "id") in
  if negb (bool_decide (get_str msg "token" = Some expected_token)) then
    ([status id "denied" "bad token"], [])
  else if negb (bool_decide (get_str msg "op" = Some ("exec" : str))) then
    ([status id "error" "unsupported op"], [])
  else
    match get_str msg "command" with
    | None => ([status id "error" "missing command"], [])
    | Some cmd =>
        let argv := get_strs msg "args" in
        if negb (permits al cmd argv) then ([status id "denied" "command not allowlisted"], [])
        else if negb run_child then ([stamp id (object [("status", String "authorized")])], [])
        else
          let x := {| x_command := cmd; x_args := argv; x_input := child_input msg;
                      x_env := delete TOKEN_VAR env |} in
          (child_messages id (child x), [x])
    end.

(** ** main.rs *)

(** [--elevated] and the value of the first [--allowlist]. *)
Fixpoint find_allowlist (argv : list str) : option str :=
  match argv with
  | a :: ((v :: _) as rest) => if decide (a = ("--allowlist" : str)) then Some v else find_allowlist rest
  | _ => None
  end.

Definition helper_args (argv : list str) : bool * option str :=
  match position (λ a, bool_decide (a = ("--elevated" : str))) argv with
  | Some i => (true, find_allowlist (take i argv ++ drop (S i) argv))
  | None => (false, find_allowlist argv)
  end.

(** Writing frames; the pipe breaks after [n] of them when [limit] is [Some (n, e)]. *)
Fixpoint write_frames (limit : option (nat * str)) (vs : list Value) : str * result str (option (nat * str)) :=
  match vs with
  | [] => ([], Ok limit)
  | v :: vs =>
      match limit with
      | Some (O, e) => ([], Err e)
      | Some (S n, e) => let '(out, r) := write_frames (Some (n, e)) vs in (write_frame (json_to_string v) ++ out, r)
      | None => let '(out, r) := write_frames None vs in (write_frame (json_to_string v) ++ out, r)
      end
  end.

(** The loop of [main_inner]; one frame of input per unit of fuel. *)
Fixpoint helper_loop (fuel : nat) (env : environment) (token : str) (al : list AllowlistEntry)
    (input : str) (fin : ending) (limit : option (nat * str))
  : option (result str unit * str * list execution) :=
  match fuel with
  | O => None
  | S fuel =>
      match stdin_frame input fin with
      | Err e => Some (Err e, [], [])
      | Ok None => Some (Ok tt, [], [])
      | Ok (Some (body, rest)) =>
          match json_from_str body with
          | Err e => Some (Err e, [], [])
          | Ok msg =>
              let '(answers, xs) := process_request env msg token al true in
              match write_frames limit answers with
              | (out, Err e) => Some (Err e, out, xs)
              | (out, Ok limit') =>
                  '(r, out', xs') ← helper_loop fuel env token al rest fin limit';
                  Some (r, out ++ out', xs ++ xs')
              end
          end
      end
  end.

(** [main_inner]: [stat] and [raw] are the allowlist file at a path. *)
Definition helper_main `{AllowToml} (argv : list str) (env : environment)
    (stat : str → result str (Z * Z)) (raw : str → result str str)
    (input : str) (fin : ending) (limit : option (nat * str)) : option (result str unit * str * list execution) :=
  let fail e := Some (Err e, [], []) in
  match helper_args argv with
  | (_, None) => fail "usage: chaperone-helper [--elevated] --allowlist <TOML>"
  | (elevated, Some p) =>
      match env !! TOKEN_VAR with
      | None => fail "CHAPERONE_HELPER_TOKEN not set; refusing to run"
      | Some token =>
          if is_empty token then fail "empty helper token; refusing to run"
          else
            match (if elevated : bool then map_err (λ e, "elevated allowlist check failed: " ++ e)
                                      (check_allowlist_for_elevated (stat p))
                   else Ok tt) with
            | Err e => fail e
            | Ok _ =>
                match load_allowlist (raw p) with
                | Err e => fail e
                | Ok al => helper_loop (S (length input)) env token al input fin limit
                end
            end
      end
  end.
End Request.

(** ** privilege.rs *)

Record LocalPrivBackend : Type := { helper_argv : list str; allowlist_path : str }.

Definition default_batch : OutputBatch := {| chunks := []; closed := false; exit_code := None |}.

(** [i32::try_from]. *)
Definition i32_try_from (z : Z) : option Z := if (-2147483648 <=? z) && (z <=? 2147483647) then Some z else None.

Section Backend.
Context `{Base64, JsonText}.

(** [LocalPrivBackend::token] from 32 random bytes. *)
Definition helper_token (entropy : str) : str := encode_signature entropy.

(** The one request of a session. *)
Definition helper_request (token cmd : str) (argv : list str) (input_b64 : option str) : Value :=
  object [("token", String token); ("id", String "exec-1"); ("op", String "exec");
          ("command", String cmd); ("args", Array (String <$> argv));
          ("input_b64", match input_b64 with Some s => String s | None => Null end)].

(** The command line of the helper process. *)
Definition helper_command_line (b : LocalPrivBackend) : option (list str) :=
  match helper_argv b with
  | [] => None
  | program :: rest => Some (program :: rest ++ ["--allowlist"; allowlist_path b])
  end.

(** [write_frame_async]; [None] is the failed assertion on the frame's size. *)
Definition write_frame_async (payload : str) : option str :=
  if zlen payload <=? HELPER_MAX_FRAME then Some (write_frame payload) else None.

Definition push_chunk (b : OutputBatch) (stream data : str) : OutputBatch :=
  {| chunks := chunks b ++ [{| stream := stream; data := data |}]; closed := closed b; exit_code := exit_code b |}.

(** One message of the helper; [true] ends the loop. *)
Definition absorb (b : OutputBatch) (msg : Value) : OutputBatch * bool :=
  match get_str msg "status" with
  | Some _ =>
      ({| chunks := chunks (push_chunk b "stderr" (json_to_string msg)); closed := true; exit_code := Some (-1) |}, true)
  | None =>
      let b1 :=
        if bool_decide (get_str msg "type" = Some ("out" : str)) then
          match get_str msg "data_b64" with
          | Some b64s =>
              match decode_signature b64s with
              | Ok data =>
                  push_chunk b (if bool_decide (get_str msg "stream" = Some ("stderr" : str))
                                then "stderr" else "stdout") data
              | Err _ => b
              end
          | None => b
          end
        else b in
      if bool_decide (get_str msg "type" = Some ("exit" : str)) then
        ({| chunks := chunks b1; closed := true;
            exit_code := (get msg "exit_code" ≫= as_i64) ≫= i32_try_from |}, true)
      else (b1, false)
  end.

(** The collecting loop over the bytes the helper wrote before its stream
    ended, failed or the deadline passed; one frame per unit of fuel. *)
Fixpoint collect (fuel : nat) (b : OutputBatch) (input : str) (fin : ending) : OutputBatch :=
  match fuel with
  | O => b
  | S fuel =>
      match read_frame_async input fin with
      | Err _ | Ok None => b
      | Ok (Some (body, rest)) =>
          let msg := match json_from_str body with Ok v => v | Err _ => Object [] end in
          match absorb b msg with
          | (b', true) => b'
          | (b', false) => collect fuel b' rest fin
          end
      end
  end.

(** [LocalPrivBackend::connect]: [spawn] is the outcome of starting the helper,
    [write] that of writing the request, [answer] what the helper wrote in reply
    to the request's bytes.  [None] is a panic. *)
Definition connect_helper (b : LocalPrivBackend) (operation : Value) (entropy : str)
    (spawn : result str unit) (write : option str) (answer : str → str * ending)
  : option (result str OutputBatch) :=
  match get_str operation "command" with
  | None => Some (Err "operation.command missing")
  | Some cmd =>
      match helper_command_line b with
      | None => Some (Err "empty helper command")
      | Some _ =>
          match spawn with
          | Err e => Some (Err ("spawning helper failed: " ++ e))
          | Ok _ =>
              frame ← write_frame_async (json_to_string
                (helper_request (helper_token entropy) cmd (get_strs operation "args") (get_str operation "input_b64")));
              match write with
              | Some e => Some (Err ("helper write: " ++ e))
              | None =>
                  let '(out, fin) := answer frame in
                  Some (Ok (collect (S (length out)) default_batch out fin))
              end
          end
      end
  end.
End Backend.

(** [CompletedChannel]: the batch until it is read. *)
Definition completed_write (data : str) : result str unit := Ok tt.
Definition completed_read (c : option OutputBatch) : OutputBatch * option OutputBatch :=
  (default default_batch c, None).

(** ** Properties *)

(** The gateway's advisory check and the helper's authoritative one agree on
    the same allowlist file. *)
Lemma permits_agree al cmd argv :
  privilege_permits (fmap (M:=list) (λ e, (command e, args e)) al) cmd argv = permits al cmd argv.
Proof. unfold privilege_permits, permits. induction al as [|e al IH]; [done|]. cbn. f_equal. exact IH. Qed.

(** A command is permitted when some entry names it and pins a prefix of the
    arguments. *)
Lemma permits_spec al cmd argv :
  permits al cmd argv = true ↔ ∃ e, e ∈ al ∧ command e = cmd ∧ args e `prefix_of` argv.
Proof.
  unfold permits. rewrite existsb_exists. setoid_rewrite andb_true_iff. setoid_rewrite andb_true_iff.
  setoid_rewrite bool_decide_eq_true. setoid_rewrite Nat.leb_le. split.
  - intros (e & Hin & (Hc & Hl) & Ht). exists e. split; [by apply list_elem_of_In|]. split; [done|].
    exists (drop (length (args e)) argv). rewrite <- Ht at 1. by rewrite take_drop.
  - intros (e & Hin & Hc & k & ->). exists e. split; [by apply list_elem_of_In|].
    rewrite length_app, take_app_length. split; [split; [done|lia]|done].
Qed.

Section Safety.
Context `{Base64, JsonText}.

(** Whatever it is sent, the helper executes a command only on the shared
    token, for an allowlisted command line, and without the token in the
    child's environment. *)
Definition licensed (env : environment) (token : str) (al : list AllowlistEntry) (msg : Value) (x : execution) : Prop :=
  get_str msg "token" = Some token ∧ get_str msg "op" = Some ("exec" : str) ∧
  get_str msg "command" = Some (x_command x) ∧ x_args x = get_strs msg "args" ∧
  permits al (x_command x) (x_args x) = true ∧ x_env x = delete TOKEN_VAR env.

(** The messages that stand in the input, frame after frame, up to the first
    frame that cannot be read. *)
Fixpoint stdin_messages (fuel : nat) (input : str) (fin : ending) : list Value :=
  match fuel with
  | O => []
  | S fuel =>
      match stdin_frame input fin with
      | Ok (Some (body, rest)) =>
          match json_from_str body with
          | Ok msg => msg :: stdin_messages fuel rest fin
          | Err _ => []
          end
      | _ => []
      end
  end.

Lemma process_request_licensed child env msg token al b :
  (process_request child env msg token al b).2 = [] ∨
  ∃ x, (process_request child env msg token al b).2 = [x] ∧ licensed env token al msg x.
Proof.
  unfold process_request, licensed. repeat case_match; bool_to_prop; simplify_eq/=; auto.
  right. eexists. split; [done|]. split_and!; done.
Qed.

(** The executions are those of requests of the input, in their order, each of
    its own request. *)
Lemma helper_loop_licensed child fuel env token al input fin limit r out xs :
  helper_loop child fuel env token al input fin limit = Some (r, out, xs) →
  ∃ msgs, msgs `sublist_of` stdin_messages fuel input fin ∧ Forall2 (licensed env token al) msgs xs.
Proof.
  revert input limit r out xs. induction fuel as [|fuel IH]; intros input limit r out xs; [done|].
  cbn [helper_loop stdin_messages].
  destruct (stdin_frame input fin) as [[[body rest]|]|e]; [|by intros [= <- <- <-]; exists []..].
  destruct (json_from_str body) as [msg|]; [|by intros [= <- <- <-]; exists []].
  pose proof (process_request_licensed child env msg token al true) as Hl.
  destruct (process_request child env msg token al true) as [answers xs0]. cbn [snd] in Hl.
  assert (∃ m0, m0 `sublist_of` [msg] ∧ Forall2 (licensed env token al) m0 xs0) as (m0 & Hm0 & Hf0).
  { destruct Hl as [->|(x & -> & Hx)]; [exists []; split; [apply sublist_nil_l|constructor]|].
    exists [msg]. split; [done|]. constructor; [done|constructor]. }
  destruct (write_frames limit answers) as [out0 [limit'|e]].
  - destruct (helper_loop child fuel env token al rest fin limit') as [[[r' out'] xs']|] eqn:Hr; [|done].
    simpl. intros [= <- <- <-]. destruct (IH _ _ _ _ _ Hr) as (m1 & Hm1 & Hf1). exists (m0 ++ m1).
    split; [by apply (sublist_app m0 [msg])|by apply Forall2_app].
  - intros [= <- <- <-]. exists m0. split; [by apply (sublist_inserts_r _ m0 [msg])|done].
Qed.

(** The loop always ends: a frame takes at least one byte of input. *)
Lemma helper_header_shorter strict buf input fin h rest :
  helper_header strict buf input fin = Ok (Some (h, rest)) → (length rest < length input)%nat.
Proof.
  revert buf. induction input as [|b input IH]; intros buf; cbn [helper_header].
  { destruct fin; [done|]. by destruct (_ || _). }
  destruct (256 <? _); [done|]. destruct (ends_with _ _).
  - intros [= <- <-]. simpl. lia.
  - intros Hlt%IH. simpl. lia.
Qed.

Lemma helper_frame_shorter strict short input fin body rest :
  helper_read_frame strict short input fin = Ok (Some (body, rest)) → (length rest < length input)%nat.
Proof.
  unfold helper_read_frame. destruct (helper_header strict [] input fin) as [[[h r]|]|] eqn:Hh; [|done..].
  simpl. destruct (helper_content_length h) as [n|]; [|done]. simpl.
  destruct (_ <? n); [done|]. destruct (_ <? n); [done|]. intros [= <- <-].
  apply helper_header_shorter in Hh. rewrite length_drop. lia.
Qed.

Lemma helper_loop_total child fuel env token al input fin limit : (length input < fuel)%nat →
  ∃ r, helper_loop child fuel env token al input fin limit = Some r.
Proof.
  revert input limit. induction fuel as [|fuel IH]; intros input limit Hf; [lia|]. cbn [helper_loop].
  destruct (stdin_frame input fin) as [[[body rest]|]|e] eqn:Hs; [|by eexists..].
  destruct (json_from_str body) as [msg|]; [|by eexists].
  destruct (process_request child env msg token al true) as [answers xs0].
  destruct (write_frames limit answers) as [out0 [limit'|e]]; [|by eexists].
  apply helper_frame_shorter in Hs. destruct (IH rest limit') as [[[r' out'] xs'] ->]; [lia|]. by eexists.
Qed.
End Safety.

(** *** One session, from the gateway through the helper and back *)

Section EndToEnd.
Context `{Base64, JsonText}.

Lemma helper_header_read strict buf input fin fin' h rest :
  read_header_from buf input fin = Ok (h, rest) → zlen h ≤ 256 →
  helper_header strict buf input fin' = Ok (Some (h, rest)).
Proof.
  revert buf. induction input as [|b input IH]; intros buf; cbn [read_header_from helper_header].
  { destruct fin; [done|]. by destruct (is_empty buf). }
  destruct (_ <? _); [done|]. intros Hr Hl.
  assert (zlen (buf ++ [b]) ≤ zlen h) as Hle.
  { destruct (ends_with _ _); [by simplify_eq|]. apply read_header_shape in Hr as (Hb & _ & _ & Hlt).
    apply (f_equal length) in Hb. rewrite !length_app in Hb. unfold zlen. rewrite length_app. lia. }
  destruct (Z.ltb_spec 256 (zlen (buf ++ [b]))); [lia|].
  destruct (ends_with _ _); [by simplify_eq|]. by apply IH.
Qed.

Lemma helper_length_written n : 0 ≤ n ≤ u64_max → helper_content_length (frame_header n) = Ok n.
Proof.
  intros Hn. unfold helper_content_length. destruct (header_lines n) as [-> ->]; [lia|].
  cbn [find_map]. unfold helper_length_line. rewrite header_field.
  replace (eq_ignore_ascii_case "Content-Length" "content-length") with true by (vm_compute; done).
  rewrite trim_space_graphic by (apply ascii_digits; lia). by rewrite parse_uint_show by lia.
Qed.

Lemma helper_header_written strict n rest fin : 0 ≤ n ≤ u64_max →
  helper_header strict [] (header_text n ++ HEADER_TERMINATOR ++ rest) fin = Ok (Some (frame_header n, rest)).
Proof.
  intros Hn. pose proof (header_text_len _ Hn).
  replace (frame_header n) with (header_text n ++ HEADER_TERMINATOR)
    by (unfold frame_header, header_text; by rewrite app_assoc).
  apply (helper_header_read _ _ _ None); [|lia].
  apply read_header_block; [apply header_text_plain; [lia|by left]|by apply header_text_short].
Qed.

(** A frame written by one side is read by the other. *)
Lemma helper_frame_read strict short payload rest fin : zlen payload ≤ HELPER_MAX_FRAME →
  helper_read_frame strict short (write_frame payload ++ rest) fin = Ok (Some (payload, rest)).
Proof.
  intros Hl. pose proof (zlen_nonneg payload). unfold HELPER_MAX_FRAME in Hl.
  assert (0 ≤ zlen payload ≤ u64_max) as Hr by (unfold u64_max; lia).
  unfold helper_read_frame, write_frame.
  replace ((frame_header (zlen payload) ++ payload) ++ rest)
    with (header_text (zlen payload) ++ HEADER_TERMINATOR ++ (payload ++ rest))
    by (unfold frame_header, header_text; by rewrite <- !app_assoc).
  rewrite helper_header_written by done. cbn [mbind result_bind].
  rewrite helper_length_written by done. cbn [mbind result_bind]. unfold HELPER_MAX_FRAME.
  destruct (Z.ltb_spec (1024 * 1024) (zlen payload)); [lia|].
  destruct (Z.ltb_spec (zlen (payload ++ rest)) (zlen payload)) as [Hx|_].
  { rewrite zlen_app in Hx. pose proof (zlen_nonneg rest). lia. }
  unfold zlen. by rewrite Nat2Z.id, take_app_length, drop_app_length.
Qed.

(** Messages that a frame carries faithfully. *)
Definition sendable (v : Value) : Prop :=
  (∃ m, v = Object m ∧ flat_object m) ∧ zlen (json_to_string v) ≤ HELPER_MAX_FRAME.

Lemma sendable_parses v : sendable v → json_from_str (json_to_string v) = Ok v.
Proof. intros [(m & -> & Hm) _]. by apply to_string_parses. Qed.

Definition frames (vs : list Value) : str := mjoin ((λ v, write_frame (json_to_string v)) <$> vs).

Lemma write_frames_all vs : write_frames None vs = (frames vs, Ok None).
Proof. induction vs as [|v vs IH]; [done|]. cbn [write_frames]. by rewrite IH. Qed.

(** The collecting loop without the wire. *)
Fixpoint absorb_all (b : OutputBatch) (vs : list Value) : OutputBatch :=
  match vs with
  | [] => b
  | v :: vs => match absorb b v with (b', true) => b' | (b', false) => absorb_all b' vs end
  end.

Lemma collect_frames fuel b vs : Forall sendable vs → (length (frames vs) < fuel)%nat →
  collect fuel b (frames vs) None = absorb_all b vs.
Proof.
  intros Hs. revert fuel b. induction Hs as [|v vs Hv Hs IH]; intros [|fuel] b Hf; try lia; [done|].
  cbn [collect]. change (frames (v :: vs)) with (write_frame (json_to_string v) ++ frames vs) in *.
  unfold read_frame_async. rewrite helper_frame_read by apply Hv. rewrite sendable_parses by done.
  cbn [absorb_all]. destruct (absorb b v) as [b' []]; [done|]. apply IH.
  rewrite length_app in Hf. assert (length (write_frame (json_to_string v)) ≠ 0%nat); [|lia].
  unfold write_frame, frame_header. rewrite !length_app. simpl. lia.
Qed.

(** A helper that is sent one request answers it and stops. *)
Lemma helper_loop_once child fuel env token al req : sendable req →
  (length (write_frame (json_to_string req)) < fuel)%nat →
  let '(vs, xs) := process_request child env req token al true in
  helper_loop child fuel env token al (write_frame (json_to_string req)) None None = Some (Ok tt, frames vs, xs).
Proof.
  intros Hreq Hf. destruct fuel as [|[|fuel]]; [lia| |].
  { unfold write_frame, frame_header in Hf. rewrite !length_app in Hf. simpl in Hf. lia. }
  destruct (process_request child env req token al true) as [vs xs] eqn:Hp.
  remember (S fuel) as f. cbn [helper_loop]. rewrite <- (app_nil_r (write_frame (json_to_string req))).
  unfold stdin_frame at 1. rewrite helper_frame_read by apply Hreq. rewrite sendable_parses by done.
  rewrite Hp, write_frames_all. subst f. cbn. by rewrite !app_nil_r.
Qed.
(** What the session's batch holds for each end of the child. *)
Definition status_batch (st reason : str) : OutputBatch :=
  {| chunks := [{| stream := "stderr"; data := json_to_string (status "exec-1" st reason) |}];
     closed := true; exit_code := Some (-1) |}.

Definition some_chunk (name bytes : str) : list OutputChunk :=
  if is_empty bytes then [] else [{| stream := name; data := bytes |}].

Definition session_batch (r : child_result) : OutputBatch :=
  match r with
  | SpawnFailed e => status_batch "error" ("spawn: " ++ e)
  | WaitFailed e => status_batch "error" e
  | Finished out err code =>
      {| chunks := some_chunk "stdout" out ++ some_chunk "stderr" err; closed := true;
         exit_code := Some (default (-1) code) |}
  end.

Lemma absorb_status b st reason :
  absorb b (status "exec-1" st reason) =
  ({| chunks := chunks b ++ [{| stream := "stderr"; data := json_to_string (status "exec-1" st reason) |}];
      closed := true; exit_code := Some (-1) |}, true).
Proof. reflexivity. Qed.

Lemma absorb_out b name bytes : name = ("stdout" : str) ∨ name = ("stderr" : str) →
  absorb b (stamp "exec-1" (object [("type", String "out"); ("stream", String name);
                                    ("data_b64", String (encode_signature bytes))])) =
  (push_chunk b name bytes, false).
Proof.
  intros Hn. unfold absorb.
  set (msg := stamp _ _).
  assert (get_str msg "status" = None) as -> by reflexivity.
  assert (get_str msg "type" = Some ("out" : str)) as -> by reflexivity.
  assert (get_str msg "data_b64" = Some (encode_signature bytes)) as -> by reflexivity.
  assert (get_str msg "stream" = Some name) as -> by reflexivity.
  rewrite decode_encode_signature. by destruct Hn as [-> | ->].
Qed.

Lemma absorb_exit b code : -2147483648 ≤ code ≤ 2147483647 →
  absorb b (stamp "exec-1" (object [("type", String "exit"); ("exit_code", jnum code)])) =
  ({| chunks := chunks b; closed := true; exit_code := Some code |}, true).
Proof.
  intros Hc. unfold absorb. set (msg := stamp _ _).
  assert (get_str msg "status" = None) as -> by reflexivity.
  assert (get_str msg "type" = Some ("exit" : str)) as -> by reflexivity.
  assert (get msg "exit_code" = Some (jnum code)) as -> by reflexivity.
  assert (as_i64 (jnum code) = Some code) as Hi.
  { unfold jnum. destruct (Z.ltb_spec code 0); simpl; [done|]. destruct (Z.leb_spec code i64_max); [done|].
    unfold i64_max in *. lia. }
  cbn -[jnum]. rewrite Hi. cbn. unfold i32_try_from.
  destruct (Z.leb_spec (-2147483648) code), (Z.leb_spec code 2147483647); (done || lia).
Qed.

(** A result as the operating system gives it: text messages, a 32-bit code. *)
Definition child_ok (r : child_result) : Prop :=
  match r with
  | SpawnFailed e | WaitFailed e => True
  | Finished _ _ code => -2147483648 ≤ default (-1) code ≤ 2147483647
  end.

Lemma session_batch_collected r : child_ok r →
  absorb_all default_batch (child_messages "exec-1" r) = session_batch r.
Proof.
  destruct r as [e|e|out err code]; intros Hok; [done..|]. unfold child_messages, session_batch, some_chunk.
  destruct (is_empty out), (is_empty err); cbn [app absorb_all];
    rewrite ?absorb_out by (first [by left | by right]); cbn [absorb_all];
    rewrite ?absorb_out by (first [by left | by right]); cbn [absorb_all]; by rewrite absorb_exit.
Qed.

(** The request the helper reads back. *)
Lemma request_fields token cmd argv i :
  let msg := helper_request token cmd argv i in
  get_str msg "token" = Some token ∧ get_str msg "op" = Some ("exec" : str) ∧
  get_str msg "id" = Some ("exec-1" : str) ∧ get_str msg "command" = Some cmd ∧
  get_strs msg "args" = argv ∧ get_str msg "input_b64" = i.
Proof.
  split_and!; try reflexivity.
  - transitivity (omap as_str (String <$> argv)); [reflexivity|].
    induction argv as [|a argv IH]; [done|]. cbn. by f_equal.
  - by destruct i.
Qed.

Lemma request_processed child env token al cmd argv i :
  let x := {| x_command := cmd; x_args := argv; x_input := decode_input <$> i; x_env := delete TOKEN_VAR env |} in
  process_request child env (helper_request token cmd argv i) token al true =
  if permits al cmd argv then (child_messages "exec-1" (child x), [x])
  else ([status "exec-1" "denied" "command not allowlisted"], []).
Proof.
  unfold process_request, child_input. destruct (request_fields token cmd argv i) as (-> & -> & -> & -> & -> & ->).
  rewrite !bool_decide_true by done. cbn [negb default]. by destruct (permits al cmd argv).
Qed.

Lemma request_flat token cmd argv i :
  utf8_valid token = true → utf8_valid cmd = true → Forall (λ a, utf8_valid a = true) argv →
  (∀ s, i = Some s → utf8_valid s = true) →
  ∃ m, helper_request token cmd argv i = Object m ∧ flat_object m.
Proof.
  intros Ht Hc Ha Hi. apply object_flat. repeat constructor; try done.
  - clear -Ha. cbn. induction Ha as [|a l Hu _ IH]; [done|]. cbn. by rewrite Hu.
  - destruct i; [by apply Hi|done].
Qed.

(** The messages of a child whose error text is text. *)
Definition child_text (r : child_result) : Prop :=
  match r with SpawnFailed e | WaitFailed e => utf8_valid e = true | Finished _ _ _ => True end.

Lemma graphic_utf8 s : Forall (λ b, graphic b = true) s → utf8_valid s = true.
Proof.
  intros Hf. rewrite <- (app_nil_r s), utf8_valid_ascii; [done|].
  eapply Forall_impl; [done|]. intros b. destruct b; vm_compute; congruence.
Qed.

Lemma stamped_flat fields : Forall flat_entry fields →
  ∃ m, stamp "exec-1" (object fields) = Object m ∧ flat_object m.
Proof.
  intros (m & -> & Hm)%object_flat. eexists. split; [done|]. by apply flat_insert.
Qed.

Lemma status_flat st reason : utf8_valid st = true → utf8_valid reason = true →
  ∃ m, status "exec-1" st reason = Object m ∧ flat_object m.
Proof. intros Hs Hr. apply stamped_flat. by repeat constructor. Qed.

Lemma child_messages_flat r : child_ok r → child_text r →
  Forall (λ v, ∃ m, v = Object m ∧ flat_object m) (child_messages "exec-1" r).
Proof.
  assert (∀ bytes, utf8_valid (encode_signature bytes) = true) as H64.
  { intros bytes. apply graphic_utf8, b64url_graphic. }
  destruct r as [e|e|out err code]; intros Hok Ht; cbn [child_messages].
  - repeat constructor. apply status_flat; [done|]. by rewrite utf8_valid_app.
  - repeat constructor. by apply status_flat.
  - assert (flat_field (jnum (default (-1) code)) = true) as Hc.
    { unfold jnum, child_ok in *. unfold flat_field, scalar, i64_min, u64_max. destruct (Z.ltb_spec (default (-1) code) 0);
        apply andb_true_iff; split; first [apply Z.leb_le | apply Z.ltb_lt]; lia. }
    apply Forall_app. split; [|apply Forall_app; split].
    1-2: destruct (is_empty _); repeat constructor; apply stamped_flat; repeat constructor; apply H64.
    repeat constructor. apply stamped_flat. by repeat constructor.
Qed.

Lemma helper_args_plain p : p ≠ ("--elevated" : str) → helper_args ["--allowlist"; p] = (false, Some p).
Proof. intros Hp. unfold helper_args. cbn [position]. by rewrite !bool_decide_false. Qed.

(** C27: A local-privilege session, end to end, when nothing is cut short: the
    backend starts the helper directly and not elevated, the texts are UTF-8,
    the request and every answer fit in a frame of one MiB (beyond it
    [large_request_panics] and [large_output_lost] say what happens), the exit
    code is of 32 bits, and the answers arrive before the deadline of the
    collection.  Then, if the command line is allowlisted, the helper runs
    exactly it, once, with the decoded input and without the shared token in its
    environment, and the session's output is the child's: its standard output
    and error and its exit code.  Otherwise nothing runs and the session says
    that the command was denied. *)
Theorem privileged_session `{AllowToml} child env al_path text al b operation cmd entropy :
  let argv := get_strs operation "args" in
  let i := get_str operation "input_b64" in
  let token := helper_token entropy in
  let x := {| x_command := cmd; x_args := argv; x_input := decode_input <$> i; x_env := delete TOKEN_VAR env |} in
  let run frame := helper_main child ["--allowlist"; al_path] (<[TOKEN_VAR := token]> env)
                     (λ _, Err []) (λ _, Ok text) frame None None in
  let answer frame := match run frame with Some (_, out, _) => (out, None) | None => ([], None) end in
  let expected := if permits al cmd argv then session_batch (child x)
                  else status_batch "denied" "command not allowlisted" in
  helper_argv b = ["chaperone-helper"] → allowlist_path b = al_path → al_path ≠ ("--elevated" : str) →
  allow_from_str text = Ok al →
  get_str operation "command" = Some cmd → is_empty token = false →
  utf8_valid cmd = true → Forall (λ a, utf8_valid a = true) argv → (∀ s, i = Some s → utf8_valid s = true) →
  zlen (json_to_string (helper_request token cmd argv i)) ≤ HELPER_MAX_FRAME →
  zlen (json_to_string (status "exec-1" "denied" "command not allowlisted")) ≤ HELPER_MAX_FRAME →
  child_ok (child x) → child_text (child x) →
  Forall (λ v, zlen (json_to_string v) ≤ HELPER_MAX_FRAME) (child_messages "exec-1" (child x)) →
  connect_helper b operation entropy (Ok tt) None answer = Some (Ok expected) ∧
  ∃ out, run (write_frame (json_to_string (helper_request token cmd argv i))) =
         Some (Ok tt, out, if permits al cmd argv then [x] else []).
Proof.
  intros argv i token x run answer expected Hb Hp Hne Ht Hcmd Htok Hu Ha Hi Hreq Hden Hok Htxt Hsz.
  set (req := helper_request token cmd argv i).
  set (vs := if permits al cmd argv then child_messages "exec-1" (child x)
             else [status "exec-1" "denied" "command not allowlisted"]).
  assert (sendable req) as Hsend.
  { split; [|done]. apply request_flat; try done. apply graphic_utf8, b64url_graphic. }
  assert (Forall sendable vs) as Hvs.
  { unfold vs. destruct (permits al cmd argv).
    - eapply Forall_and; split; [by apply child_messages_flat|done].
    - repeat constructor; [|done]. by apply status_flat. }
  assert (run (write_frame (json_to_string req)) =
          Some (Ok tt, frames vs, if permits al cmd argv then [x] else [])) as Hrun.
  { unfold run, helper_main. rewrite helper_args_plain by done. rewrite lookup_insert_eq. fold token. rewrite Htok.
    cbn. rewrite Ht. cbn [map_err].
    pose proof (helper_loop_once child (S (length (write_frame (json_to_string req))))
      (<[TOKEN_VAR := token]> env) token al req Hsend (Nat.lt_succ_diag_r _)) as Hl.
    unfold req in Hl at 1. rewrite request_processed, delete_insert_eq in Hl. fold x in Hl.
    unfold vs. by destruct (permits al cmd argv). }
  split; [|eauto].
  unfold connect_helper, helper_command_line. rewrite Hcmd, Hb. cbn [mbind option_bind].
  unfold write_frame_async. fold argv i token req.
  rewrite (proj2 (Z.leb_le _ _)) by done. cbn [mbind option_bind].
  assert (answer (write_frame (json_to_string req)) = (frames vs, None)) as -> by (unfold answer; by rewrite Hrun).
  rewrite collect_frames by (done || lia). unfold expected, vs.
  destruct (permits al cmd argv); [by rewrite session_batch_collected|done].
Qed.

(** An answer above one MiB ends the collecting loop: the gateway's reader
    refuses the frame, and the session looks open, without output and without
    an exit code. *)
Lemma helper_frame_oversized strict short payload rest fin :
  HELPER_MAX_FRAME < zlen payload ≤ u64_max →
  helper_read_frame strict short (write_frame payload ++ rest) fin = Err "frame too large".
Proof.
  intros Hl. pose proof (zlen_nonneg payload).
  assert (0 ≤ zlen payload ≤ u64_max) as Hr by lia.
  unfold helper_read_frame, write_frame.
  replace ((frame_header (zlen payload) ++ payload) ++ rest)
    with (header_text (zlen payload) ++ HEADER_TERMINATOR ++ (payload ++ rest))
    by (unfold frame_header, header_text; by rewrite <- !app_assoc).
  rewrite helper_header_written by done. cbn [mbind result_bind].
  rewrite helper_length_written by done. cbn [mbind result_bind].
  by rewrite (proj2 (Z.ltb_lt _ _)) by apply Hl.
Qed.

Theorem large_output_lost out err code fuel :
  let msgs := child_messages "exec-1" (Finished out err code) in
  out ≠ [] → (∀ v, head msgs = Some v → HELPER_MAX_FRAME < zlen (json_to_string v) ≤ u64_max) →
  collect fuel default_batch (frames msgs) None = default_batch.
Proof.
  intros msgs Ho Hsz. destruct fuel as [|fuel]; [done|]. cbn [collect].
  destruct out as [|c out]; [done|]. subst msgs. cbn [child_messages is_empty app] in *.
  unfold frames. rewrite fmap_cons. cbn [mjoin list_join]. unfold read_frame_async.
  rewrite helper_frame_oversized; [done|]. by apply Hsz.
Qed.

(** A request above one MiB, which the agent's operation decides, fails an
    assertion: the handler panics. *)
Theorem large_request_panics b operation cmd entropy answer :
  get_str operation "command" = Some cmd → helper_argv b ≠ [] →
  HELPER_MAX_FRAME < zlen (json_to_string (helper_request (helper_token entropy) cmd
    (get_strs operation "args") (get_str operation "input_b64"))) →
  connect_helper b operation entropy (Ok tt) None answer = None.
Proof.
  intros Hc Hb Hl. unfold connect_helper, helper_command_line. rewrite Hc.
  destruct (helper_argv b); [done|]. unfold write_frame_async.
  by rewrite (proj2 (Z.leb_gt _ _)) by done.
Qed.

(** C26: The helper executes a command only with a non-empty shared token in its
    environment, from an allowlist file it could load (owned by root and not
    writable by others when it runs elevated).  The executions are those of
    messages that stand as frames in its input, in their order and each of its
    own message, and every such message carries that token and an allowlisted
    command line, which is the one executed; the child's environment does not
    hold the token.  Whatever its input, the helper's loop ends. *)
Theorem helper_executes_only_licensed `{AllowToml} child argv env stat raw input fin limit :
  ∃ r out xs, helper_main child argv env stat raw input fin limit = Some (r, out, xs) ∧
  (xs ≠ [] → ∃ p token al,
    (helper_args argv).2 = Some p ∧ env !! TOKEN_VAR = Some token ∧ token ≠ [] ∧ load_allowlist (raw p) = Ok al ∧
    ((helper_args argv).1 = true → ∃ mode, stat p = Ok (0, mode) ∧ Z.land mode 18 = 0) ∧
    Forall (λ x, x_env x !! TOKEN_VAR = None) xs ∧
    ∃ msgs, msgs `sublist_of` stdin_messages (S (length input)) input fin ∧ Forall2 (licensed env token al) msgs xs).
Proof.
  unfold helper_main. destruct (helper_args argv) as [elevated [p|]]; [|by do 3 eexists].
  destruct (env !! TOKEN_VAR) as [token|]; [|by do 3 eexists].
  destruct (is_empty token) eqn:Het; [by do 3 eexists|].
  destruct (if elevated then _ else _) as [[]|e] eqn:Hel; [|by do 3 eexists].
  destruct (load_allowlist (raw p)) as [al|e] eqn:Hal; [|by do 3 eexists].
  destruct (helper_loop_total child (S (length input)) env token al input fin limit) as [[[r out] xs] Hr]; [lia|].
  exists r, out, xs. split; [done|]. intros _. exists p, token, al. split_and!; try done.
  - by intros ->.
  - cbn. intros ->. destruct (stat p) as [[uid mode]|]; [|done]. cbn in Hel. exists mode.
    unfold validate_allowlist_ownership in Hel.
    destruct (Z.eqb_spec uid 0) as [-> |]; [|done]. by destruct (Z.eqb_spec (Z.land mode 18) 0).
  - apply helper_loop_licensed in Hr as (msgs & _ & Hf). clear -Hf. induction Hf as [|m x ? ? Hx _ IH]; constructor; [|done].
    destruct Hx as (_ & _ & _ & _ & _ & ->). apply lookup_delete_eq.
  - by eapply helper_loop_licensed.
Qed.
End EndToEnd.

(** ** Witnesses and concrete behaviours *)

Section Witnesses.
#[local] Existing Instances toy_base64 toy_json.

Definition one_entry : AllowToml :=
  {| allow_from_str text := Ok [{| command := text; args := ["restart"] |}] |}.
#[local] Existing Instance one_entry.

Definition echo_child (x : execution) : child_result := Finished (x_command x) [] (Some 3).
Definition one_backend : LocalPrivBackend := {| helper_argv := ["chaperone-helper"]; allowlist_path := "/a" |}.
Definition restart_op : Value := object [("command", String "ctl"); ("args", Array [String "restart"; String "db"])].

Lemma privileged_session_witness :
  connect_helper one_backend restart_op "e" (Ok tt) None
    (λ frame, match helper_main echo_child ["--allowlist"; "/a"] {[ TOKEN_VAR := helper_token "e" ]}
                      (λ _, Err []) (λ _, Ok "ctl") frame None None with
              | Some (_, out, _) => (out, None)
              | None => ([], None)
              end) =
  Some (Ok {| chunks := [{| stream := "stdout"; data := "ctl" |}]; closed := true; exit_code := Some 3 |}).
Proof.
  refine (proj1 (privileged_session echo_child ∅ "/a" "ctl" [{| command := "ctl"; args := ["restart"] |}]
    one_backend restart_op "ctl" "e" _ _ _ _ _ _ _ _ _ _ _ _ _ _));
    [reflexivity..|done|reflexivity|reflexivity|reflexivity|reflexivity| |done| | | | | ].
  - repeat constructor.
  - vm_compute; congruence.
  - vm_compute; congruence.
  - vm_compute; split; congruence.
  - exact I.
  - repeat constructor; vm_compute; congruence.
Defined.

Lemma helper_executes_only_licensed_witness :
  let input := write_frame (json_to_string (helper_request "u" "ctl" ["restart"] None)) ++
               write_frame (json_to_string (helper_request "t" "ctl" ["restart"] None)) in
  ∃ r out xs, helper_main echo_child ["--allowlist"; "/a"] {[ TOKEN_VAR := ("t" : str) ]} (λ _, Err []) (λ _, Ok "ctl")
                input None None = Some (r, out, xs) ∧
    length xs = 1%nat ∧ length (stdin_messages (S (length input)) input None) = 2%nat ∧
    (xs ≠ [] → Forall (λ x, x_env x !! TOKEN_VAR = None) xs).
Proof.
  intros input.
  destruct (helper_executes_only_licensed echo_child ["--allowlist"; "/a"] {[ TOKEN_VAR := ("t" : str) ]}
    (λ _, Err []) (λ _, Ok "ctl") input None None) as (r & out & xs & Hr & Hxs).
  exists r, out, xs. split; [exact Hr|].
  assert (length xs = 1%nat) as Hl.
  { assert (option_map (λ t, length t.2) (helper_main echo_child ["--allowlist"; "/a"] {[ TOKEN_VAR := ("t" : str) ]}
      (λ _, Err []) (λ _, Ok "ctl") input None None) = Some 1%nat) as Hv by (vm_compute; reflexivity).
    rewrite Hr in Hv. by injection Hv. }
  split; [exact Hl|]. split; [vm_compute; reflexivity|].
  intros Hne. by destruct (Hxs Hne) as (p & token & al & _ & _ & _ & _ & _ & Hf & _).
Defined.

(** Other commands and other tokens run nothing. *)
Example helper_refuses :
  let xs t c a := match helper_main echo_child ["--allowlist"; "/a"] {[ TOKEN_VAR := ("t" : str) ]}
                    (λ _, Err []) (λ _, Ok "ctl")
                    (write_frame (json_to_string (helper_request t c a None))) None None with
                  | Some (_, _, xs) => length xs | None => 9%nat end in
  xs "t" "ctl" ["restart"; "db"] = 1%nat ∧ xs "u" "ctl" ["restart"] = 0%nat ∧
  xs "t" "ctl" ["stop"] = 0%nat ∧ xs "t" "ctl" [] = 0%nat ∧ xs "t" "rm" ["restart"] = 0%nat.
Proof. vm_compute. split_and!; reflexivity. Qed.

(** An elevated helper refuses a user's allowlist. *)
Example elevated_ownership :
  validate_allowlist_ownership 0 420 = Ok tt ∧
  validate_allowlist_ownership 0 436 = Err "allowlist must not be group/other writable (mode 0664)" ∧
  validate_allowlist_ownership 1000 420 = Err "allowlist must be root-owned when running elevated (owner uid 1000)".
Proof. vm_compute. split_and!; reflexivity. Qed.
End Witnesses.
