(* ===== verification/Import.v ===== *)
(** Bulk import of an inventory: [crates/cli/src/import_sources.rs] and
    [import_core.rs].

    The CSV and ssh_config readers, and [run_import], which writes the vault
    entries of the rows and adds their pair rows to one rule of the policy.  The
    vault is the store of [Vault], the policy that of [Policy]; the nonces and
    the outcomes of the writes are given per row. *)

From stdpp Require Import sorting.
From S2P Require Import Prelude Strs Json Extern Toy Protocol Matcher Policy SshCa Vault.
#[local] Open Scope Z_scope.

(** ** import_sources.rs *)

Record InventoryRow : Type := {
  row_name : str;
  row_host : str;
  row_port : Z;
  row_user : option str;
  row_secret : option str;
}.

Inductive Parsed : Type :=
| Row (r : InventoryRow)
| FailedLine (line : Z) (reason : str).

Record Skipped : Type := { sk_line : Z; sk_reason : str }.
Record ParseOutcome : Type := { po_rows : list Parsed; po_warnings : list Skipped }.

Definition comma : byte := Byte.x2c.
Definition quote : byte := Byte.x22.

Definition csv_columns : list str := ["name"; "host"; "port"; "user"; "secret"].

(** The check for characters a field must not have. *)
Definition field_problem (field label : str) : option str :=
  if contains_byte comma field || contains_byte quote field then
    Some (label ++ " `" ++ field ++ "` contains a forbidden character (, or " ++ [quote] ++ ")")
  else None.

(** A trimmed column, if it is there and not blank. *)
Definition column (cols : list str) (i : nat) : option str :=
  match cols !! i with
  | Some c => if is_empty (trim c) then None else Some (trim c)
  | None => None
  end.

Definition csv_port (cols : list str) : result str Z :=
  match column cols 2 with
  | Some p => ok_or (parse_uint u16_max p) ("port `" ++ p ++ "` is not a number")
  | None => Ok 22
  end.

Definition csv_fields (line : str) : list str :=
  let cols := split comma (trim_end line) in
  match cols with
  | [a; b; c; d; e; f] => if is_empty (trim f) then [a; b; c; d; e] else cols
  | _ => cols
  end.

Definition no_problem (o : option str) : result str unit :=
  match o with Some reason => Err reason | None => Ok tt end.

(** One line of the body of [parse_csv]; the checks in the order of the code. *)
Definition csv_row (line : str) : result str InventoryRow :=
  let cols := csv_fields line in
  match cols with
  | name0 :: host0 :: _ =>
      let name := trim name0 in
      let host := trim host0 in
      if is_empty name || is_empty host then Err "name and host are required"
      else
        _ ← no_problem (field_problem name "name");
        _ ← no_problem (field_problem host "host");
        port ← csv_port cols;
        let user := column cols 3 in
        let secret := column cols 4 in
        if (5 <? length cols)%nat then
          Err ("row has " ++ show (zlen cols) ++
               " columns; commas inside fields are not supported — quote the field or drop the comma")
        else
          _ ← no_problem (user ≫= λ u, field_problem u "user");
          _ ← no_problem (secret ≫= λ s, field_problem s "secret");
          Ok {| row_name := name; row_host := host; row_port := port; row_user := user; row_secret := secret |}
  | _ => Err "need at least name,host"
  end.

Fixpoint csv_lines (i : Z) (ls : list str) : list Parsed :=
  match ls with
  | [] => []
  | line :: rest =>
      if is_empty (trim line) then csv_lines (i + 1) rest
      else match csv_row line with
           | Ok r => Row r
           | Err reason => FailedLine (i + 1) reason
           end :: csv_lines (i + 1) rest
  end.

Definition parse_csv (text : str) : ParseOutcome :=
  match lines text with
  | [] => {| po_rows := [FailedLine 1 "empty source"]; po_warnings := [] |}
  | header :: rest =>
      if bool_decide (trim <$> split comma (trim header) = csv_columns) then
        {| po_rows := csv_lines 1 rest; po_warnings := [] |}
      else
        {| po_rows := [FailedLine 1 ("header must be exactly `" ++ join "," csv_columns ++ "` (got `" ++
                                     trim header ++ "`)")]; po_warnings := [] |}
  end.

(** The block being read. *)
Record SshBlock : Type := {
  b_hosts : option (Z * list str);
  b_hostname : option str;
  b_port : option Z;
  b_user : option str;
}.

Definition is_pattern (n : str) : bool := contains_byte Byte.x2a n || contains_byte Byte.x3f n.

(** [flush]; [None] is the panic of [names[0]] on an empty list. *)
Definition flush_block (b : SshBlock) (o : ParseOutcome) : option ParseOutcome :=
  match b_hosts b, b_hostname b with
  | Some (ln, names), Some hn =>
      if existsb is_pattern names then
        Some {| po_rows := po_rows o;
                po_warnings := po_warnings o ++
                  [{| sk_line := ln; sk_reason := "pattern block `Host " ++ join " " names ++
                                                  "` with HostName is not a host; skipped" |}] |}
      else
        name ← head names;
        Some {| po_rows := po_rows o ++
                  [Row {| row_name := name; row_host := hn; row_port := default 22 (b_port b);
                          row_user := b_user b; row_secret := None |}];
                po_warnings := po_warnings o |}
  | _, _ => Some o
  end.

Fixpoint ssh_lines (i : Z) (ls : list str) (b : SshBlock) (o : ParseOutcome) : option ParseOutcome :=
  match ls with
  | [] => flush_block b o
  | raw :: rest =>
      let line := trim raw in
      if is_empty line || starts_with "#" line then ssh_lines (i + 1) rest b o
      else
        let '(k, v) := split_at_whitespace line in
        let key := to_ascii_lowercase (trim k) in
        let val := trim (default [] v) in
        if decide (key = ("host" : str)) then
          o' ← flush_block b o;
          ssh_lines (i + 1) rest
            {| b_hosts := Some (i + 1, split_whitespace val); b_hostname := None; b_port := None; b_user := None |} o'
        else if decide (key = ("hostname" : str)) then
          ssh_lines (i + 1) rest
            {| b_hosts := b_hosts b; b_hostname := Some val; b_port := b_port b; b_user := b_user b |} o
        else if decide (key = ("port" : str)) then
          match parse_uint u16_max val with
          | Some p =>
              ssh_lines (i + 1) rest
                {| b_hosts := b_hosts b; b_hostname := b_hostname b; b_port := Some p; b_user := b_user b |} o
          | None =>
              ssh_lines (i + 1) rest b
                {| po_rows := po_rows o;
                   po_warnings := po_warnings o ++
                     [{| sk_line := i + 1; sk_reason := "`Port " ++ val ++ "` is not a number; ignored" |}] |}
          end
        else if decide (key = ("user" : str)) then
          ssh_lines (i + 1) rest
            {| b_hosts := b_hosts b; b_hostname := b_hostname b; b_port := b_port b; b_user := Some val |} o
        else ssh_lines (i + 1) rest b o
  end.

(** [parse_ssh_config]. *)
Definition parse_ssh_config (text : str) : option ParseOutcome :=
  ssh_lines 0 (lines text) {| b_hosts := None; b_hostname := None; b_port := None; b_user := None |}
    {| po_rows := []; po_warnings := [] |}.

(** ** import_core.rs *)

Inductive RowOutcome : Type :=
| Imported (entry_path : str)
| SkippedExists (entry_path : str)
| FailedRow (reason : str).

(** [RowOutcome::line]. *)
Definition outcome_line (o : RowOutcome) : str :=
  match o with
  | Imported p => "imported " ++ p
  | SkippedExists p => "skipped " ++ p ++ " (exists, pre-existing secret kept) -> row added"
  | FailedRow r => "failed: " ++ r
  end.

Record ImportPlan : Type := { policy_doc : str; plan_rule : str; cred_scheme : str; dry_run : bool }.

(** [resolved_entry_path]. *)
Definition resolved_entry_path (scheme name : str) : str :=
  match split_once_str "://" scheme with Some (_, rest) => rest | None => scheme end ++ "/" ++ name.

(** [axis_compatible]. *)
Definition axis_compatible (rule_text row_value : str) : bool :=
  let row_scheme := match split_once_str "://" row_value with Some (x, _) => x | None => row_value end in
  if is_empty row_scheme then true
  else contains row_scheme rule_text || bool_decide (rule_text = ("*" : str)) || starts_with "glob:*" rule_text.

Definition row_cred_ref (scheme : str) (row : InventoryRow) : str := scheme ++ "/" ++ row_name row.
Definition row_target (row : InventoryRow) : str := "ssh://" ++ row_host row ++ ":" ++ show (row_port row).

(** *** Round trip of the CSV reader *)

(** The line and the file of rows. *)
Definition csv_line (r : InventoryRow) : str :=
  join [comma] [row_name r; row_host r; show (row_port r); default [] (row_user r); default [] (row_secret r)].
Definition csv_text (rs : list InventoryRow) : str :=
  mjoin ((λ l, l ++ [zb 10]) <$> (join [comma] csv_columns :: (csv_line <$> rs))).

(** A field as the format can carry it. *)
Definition clean_field (f : str) : Prop :=
  trim f = f ∧ (comma ∉ f) ∧ (quote ∉ f) ∧ (zb 10 ∉ f) ∧ (zb 13 ∉ f).
Definition clean_option (o : option str) : Prop :=
  match o with Some f => clean_field f ∧ f ≠ [] | None => True end.
Definition clean_row (r : InventoryRow) : Prop :=
  clean_field (row_name r) ∧ row_name r ≠ [] ∧ clean_field (row_host r) ∧ row_host r ≠ [] ∧
  0 ≤ row_port r ≤ u16_max ∧ clean_option (row_user r) ∧ clean_option (row_secret r).

Lemma clean_default o : clean_option o → clean_field (default [] o).
Proof. destruct o; [by intros []|]. intros _. split_and!; try apply not_elem_of_nil. done. Qed.

Lemma clean_no_problem f lbl : clean_field f → field_problem f lbl = None.
Proof.
  intros (_ & Hc & Hq & _). unfold field_problem.
  by rewrite (proj2 (contains_byte_false _ _) Hc), (proj2 (contains_byte_false _ _) Hq).
Qed.

Lemma clean_number n : 0 ≤ n → clean_field (show n).
Proof.
  intros Hn. assert (Forall (λ b, graphic b = true) (show n)) as Hg.
  { eapply Forall_impl; [by apply show_digits|apply digit_graphic]. }
  assert (∀ b, is_ascii_digit b = false → b ∉ show n) as Hd.
  { intros b Hb Hin. pose proof (show_digits n Hn) as Hf. rewrite Forall_forall in Hf. specialize (Hf b Hin). congruence. }
  split_and!; [by apply trim_graphic|by apply Hd..].
Qed.

Lemma clean_column cols i o : clean_option o → cols !! i = Some (default [] o) → column cols i = o.
Proof.
  intros Ho Hi. unfold column. rewrite Hi. destruct o as [f|]; [|done]. destruct Ho as [(Ht & _) Hne]. simpl.
  rewrite Ht. by destruct f.
Qed.

Lemma csv_line_fields r : clean_row r →
  csv_fields (csv_line r) =
  [row_name r; row_host r; show (row_port r); default [] (row_user r); default [] (row_secret r)].
Proof.
  intros (Hn & _ & Hh & _ & Hp & Hu & Hs). apply clean_default in Hu, Hs.
  pose proof (clean_number (row_port r) ltac:(lia)) as Hnum.
  unfold csv_fields, csv_line. cbn [join].
  set (x := row_name r ++ [comma] ++ row_host r ++ [comma] ++ show (row_port r) ++ [comma] ++ default [] (row_user r)).
  replace (trim_end _) with (x ++ comma :: default [] (row_secret r)).
  2:{ rewrite <- (trim_end_after x comma) by (try apply Hs; vm_compute; done). f_equal. unfold x. by rewrite <- !app_assoc. }
  unfold x. rewrite <- !app_assoc. cbn [app].
  rewrite !split_app_sep by (first [apply Hn | apply Hh | apply Hnum | apply Hu]).
  by rewrite split_no_sep by apply Hs.
Qed.

Lemma csv_row_line r : clean_row r → csv_row (csv_line r) = Ok r.
Proof.
  intros Hr. unfold csv_row. rewrite csv_line_fields by done.
  destruct Hr as (Hn & Hnn & Hh & Hhn & Hp & Hu & Hs).
  rewrite (proj1 Hn), (proj1 Hh). destruct (is_empty (row_name r)) eqn:He; [by apply is_empty_true in He|].
  destruct (is_empty (row_host r)) eqn:He'; [by apply is_empty_true in He'|]. cbn [orb].
  rewrite !clean_no_problem by done. cbn [no_problem mbind result_bind].
  set (cols := [row_name r; _; _; _; _]).
  assert (csv_port cols = Ok (row_port r)) as ->.
  { unfold csv_port, column. cbn [lookup list_lookup cols]. destruct (clean_number (row_port r) ltac:(lia)) as [-> _].
    destruct (is_empty (show (row_port r))) eqn:Hsh; [by apply is_empty_true, show_nonempty in Hsh|].
    by rewrite parse_uint_show. }
  cbn [mbind result_bind]. rewrite (clean_column cols 3 (row_user r)), (clean_column cols 4 (row_secret r)) by done.
  change (5 <? length cols)%nat with false. cbv iota.
  destruct (row_user r) as [u|] eqn:Eu, (row_secret r) as [sec|] eqn:Es; cbn [mbind option_bind];
    rewrite ?clean_no_problem by (apply Hu || apply Hs); cbn [no_problem mbind result_bind];
    destruct r; cbn in *; by subst.
Qed.

Lemma csv_line_plain r b : clean_row r → b = zb 10 ∨ b = zb 13 → b ∉ csv_line r.
Proof.
  intros (Hn & _ & Hh & _ & Hp & Hu & Hs) Hb. apply clean_default in Hu, Hs.
  pose proof (clean_number (row_port r) ltac:(lia)) as Hnum. unfold csv_line. cbn [join].
  rewrite !not_elem_of_app. assert (b ∉ [comma]) by (destruct Hb as [-> | ->]; vm_compute; set_solver).
  destruct Hn as (_&_&_&?&?), Hh as (_&_&_&?&?), Hnum as (_&_&_&?&?), Hu as (_&_&_&?&?), Hs as (_&_&_&?&?).
  destruct Hb as [-> | ->]; split_and!; done.
Qed.

(** Clean rows written as a CSV file are read back, in order, with no failed
    line and no warning. *)
Theorem csv_roundtrip rs : Forall clean_row rs →
  parse_csv (csv_text rs) = {| po_rows := Row <$> rs; po_warnings := [] |}.
Proof.
  intros Hrs. unfold parse_csv, csv_text. rewrite lines_terminated.
  2:{ constructor; [split; vm_compute; set_solver|]. apply Forall_fmap. eapply Forall_impl; [done|].
      intros r Hr. split; apply csv_line_plain; auto. }
  rewrite bool_decide_true by (vm_compute; done). f_equal.
  assert (∀ i, csv_lines i (csv_line <$> rs) = Row <$> rs) as H; [|apply H].
  induction Hrs as [|r rs Hr Hrs IH]; intros i; [done|]. rewrite !fmap_cons. cbn [csv_lines].
  rewrite (trim_nonempty comma); [|unfold csv_line; cbn [join]; set_solver|vm_compute; done].
  rewrite csv_row_line by done. by rewrite IH.
Qed.

(** *** What the ssh_config reader yields *)

(** A row of a plain host: no pattern for a name, a port, no secret. *)
Definition plain_host (p : Parsed) : Prop :=
  match p with
  | Row r => is_pattern (row_name r) = false ∧ 0 ≤ row_port r ≤ u16_max ∧ row_secret r = None
  | FailedLine _ _ => False
  end.

Definition block_ok (b : SshBlock) : Prop := from_option (λ p, 0 ≤ p ≤ u16_max) True (b_port b).

Lemma flush_plain b o o' : block_ok b → Forall plain_host (po_rows o) → flush_block b o = Some o' →
  Forall plain_host (po_rows o').
Proof.
  intros Hb Ho. unfold flush_block. destruct (b_hosts b) as [[ln names]|], (b_hostname b); try (by intros [= <-]).
  destruct (existsb is_pattern names) eqn:Hpat; [by intros [= <-]|]. destruct names as [|n names]; [done|].
  simpl. intros [= <-]. apply Forall_app. split; [done|]. repeat constructor; cbn.
  - by apply orb_false_iff in Hpat as [? _].
  - unfold block_ok in Hb. destruct (b_port b); simpl in *; [lia|done].
  - unfold block_ok in Hb. destruct (b_port b); simpl in *; [lia|done].
Qed.

Lemma ssh_lines_plain ls i b o o' : block_ok b → Forall plain_host (po_rows o) → ssh_lines i ls b o = Some o' →
  Forall plain_host (po_rows o').
Proof.
  revert i b o. induction ls as [|raw ls IH]; intros i b o Hb Ho; cbn [ssh_lines]; [by apply flush_plain|].
  destruct (_ || _); [by apply IH|]. destruct (split_at_whitespace (trim raw)) as [k v].
  destruct (decide (_ = "host")).
  { destruct (flush_block b o) as [o1|] eqn:Hf; [|done]. apply IH; [done|]. by eapply flush_plain. }
  destruct (decide (_ = "hostname")); [by apply IH|]. destruct (decide (_ = "port")).
  { destruct (parse_uint u16_max _) as [p|] eqn:Hp; [|by apply IH]. apply IH; [|done].
    split; [by eapply parse_uint_nonneg|by eapply parse_uint_max]. }
  destruct (decide (_ = "user")); by apply IH.
Qed.

(** Whatever the file says, the reader yields only plain hosts. *)
Theorem ssh_config_plain_hosts text o : parse_ssh_config text = Some o → Forall plain_host (po_rows o).
Proof. by apply ssh_lines_plain. Qed.

Definition a_ssh_config : str := "Host a" ++ [zb 10] ++ "HostName h" ++ [zb 10] ++ "Port 2222".

Lemma ssh_config_plain_hosts_witness :
  ∃ o, parse_ssh_config a_ssh_config = Some o ∧ Forall plain_host (po_rows o) ∧
    po_rows o = [Row {| row_name := "a"; row_host := "h"; row_port := 2222; row_user := None; row_secret := None |}].
Proof. eexists. split; [vm_compute; reflexivity|]. split; [|reflexivity]. apply (ssh_config_plain_hosts a_ssh_config). reflexivity. Defined.

(** A [Host] line with no name, given a [HostName], stops the program. *)
Example ssh_config_bare_host :
  parse_ssh_config ("Host" ++ [zb 10] ++ "HostName h" ++ [zb 10]) = None ∧
  parse_ssh_config ("Host a b" ++ [zb 10] ++ "HostName h" ++ [zb 10] ++ "Port 99999") =
    Some {| po_rows := [Row {| row_name := "a"; row_host := "h"; row_port := 22; row_user := None; row_secret := None |}];
            po_warnings := [{| sk_line := 3; sk_reason := "`Port 99999` is not a number; ignored" |}] |}.
Proof. split; vm_compute; reflexivity. Qed.

Section Importer.
Context `{Base64, Aead, Argon2, DebugFmt, SerdeText Header, SerdeText Body, Toml, Sha256}.

(** The derived [Debug] of a matcher. *)
Definition matcher_debug (m : Matcher) : str :=
  match m with
  | Any => "Any"
  | Exact v => "Exact(" ++ debug_str v ++ ")"
  | Prefix p => "Prefix(" ++ debug_str p ++ ")"
  | Glob g => "Glob(" ++ debug_str g ++ ")"
  end.

(** Whether a pair for this credential and target is taken to be there. *)
Definition pair_present (ps : list Pair) (cred target : str) : bool :=
  existsb (λ p, contains cred (matcher_debug (pair_cred_ref p)) &&
                contains target (matcher_debug (pair_target_uri p))) ps.

(** What the loop over the rows carries: the store, the known paths, the new
    pairs and the outcomes. *)
Record ImportState : Type := {
  im_store : Store;
  im_paths : list str;
  im_pairs : list Pair;
  im_outcomes : list RowOutcome;
}.

(** The vault entry of a row. *)
Definition import_entry (plan : ImportPlan) (row : InventoryRow) (nonce : str) (io : option str)
    (st : ImportState) : result str unit * ImportState :=
  let p := resolved_entry_path (cred_scheme plan) (row_name row) in
  if bool_decide (p ∈ im_paths st) then
    (Ok tt, {| im_store := im_store st; im_paths := im_paths st; im_pairs := im_pairs st;
               im_outcomes := im_outcomes st ++ [SkippedExists p] |})
  else
    let '(r, s) := if dry_run plan then (Ok tt, im_store st)
                   else set_entry (im_store st) p (default PLACEHOLDER_ENTRY_VALUE (row_secret row)) nonce io in
    match r with
    | Err e => (Err ("vault set " ++ p ++ ": " ++ vault_error_str e),
                {| im_store := s; im_paths := im_paths st; im_pairs := im_pairs st; im_outcomes := im_outcomes st |})
    | Ok _ => (Ok tt, {| im_store := s; im_paths := p :: im_paths st; im_pairs := im_pairs st;
                         im_outcomes := im_outcomes st ++ [Imported p] |})
    end.

(** The pair row of a row, unless one is present. *)
Definition import_pair (rule : Rule) (cred target : str) (st : ImportState) : result str ImportState :=
  if pair_present (pairs rule) cred target || pair_present (im_pairs st) cred target then Ok st
  else
    cm ← map_err (λ e, "cred_ref `" ++ cred ++ "`: " ++ matcher_error_str e) (parse cred);
    tm ← map_err (λ e, "target_uri `" ++ target ++ "`: " ++ matcher_error_str e) (parse target);
    Ok {| im_store := im_store st; im_paths := im_paths st;
          im_pairs := im_pairs st ++ [{| pair_cred_ref := cm; pair_target_uri := tm |}];
          im_outcomes := im_outcomes st |}.

(** One row of the loop. *)
Definition import_row (plan : ImportPlan) (rule : Rule) (row : InventoryRow) (nonce : str) (io : option str)
    (st : ImportState) : result str unit * ImportState :=
  let cred := row_cred_ref (cred_scheme plan) row in
  let target := row_target row in
  if negb (axis_compatible (matcher_debug (rule_cred_ref rule)) cred) ||
     negb (axis_compatible (matcher_debug (rule_target_uri rule)) target) then
    (Ok tt, {| im_store := im_store st; im_paths := im_paths st; im_pairs := im_pairs st;
               im_outcomes := im_outcomes st ++
                 [FailedRow (cred ++ " -> " ++ target ++ ": axis-incompatible with rule " ++
                             debug_str (plan_rule plan) ++ " (a row that can never match is not added)")] |})
  else
    match import_entry plan row nonce io st with
    | (Err e, st') => (Err e, st')
    | (Ok _, st') =>
        match import_pair rule cred target st' with
        | Err e => (Err e, st')
        | Ok st'' => (Ok tt, st'')
        end
    end.

Fixpoint import_rows (plan : ImportPlan) (rule : Rule) (rows : list InventoryRow)
    (nonces : list str) (ios : list (option str)) (st : ImportState) : result str unit * ImportState :=
  match rows with
  | [] => (Ok tt, st)
  | row :: rows =>
      match import_row plan rule row (default [] (head nonces)) (default None (head ios)) st with
      | (Err e, st') => (Err e, st')
      | (Ok _, st') => import_rows plan rule rows (tail nonces) (tail ios) st'
      end
  end.

Definition add_pairs (rule : Rule) (ps : list Pair) : Rule :=
  {| rule_name := rule_name rule; notify_on_use := notify_on_use rule; rule_effect := rule_effect rule;
     rule_agent_id := rule_agent_id rule; rule_cred_ref := rule_cred_ref rule;
     rule_target_uri := rule_target_uri rule; rule_mechanism := rule_mechanism rule;
     pairs := pairs rule ++ ps; limits := limits rule |}.

(** The rows that would land in the authority's namespace. *)
Definition ca_row (plan : ImportPlan) (rows : list InventoryRow) : option InventoryRow :=
  find_map (λ r, if starts_with CA_NAMESPACE (resolved_entry_path (cred_scheme plan) (row_name r))
                 then Some r else None) rows.

(** [run_import]: the outcomes and the new document, and the store. *)
Definition run_import (plan : ImportPlan) (rows : list InventoryRow) (s : Store)
    (nonces : list str) (ios : list (option str)) : result str (list RowOutcome * str) * Store :=
  match map_err (λ e, "policy does not parse: " ++ policy_error_str e) (from_toml (policy_doc plan)) with
  | Err e => (Err e, s)
  | Ok policy =>
      match position (λ r, bool_decide (rule_name r = Some (plan_rule plan))) (rules policy) with
      | None => (Err ("no rule named " ++ debug_str (plan_rule plan) ++ " in the policy"), s)
      | Some idx =>
          match rules policy !! idx with
          | None => (Err [], s)
          | Some rule =>
              match ca_row plan rows with
              | Some row =>
                  (Err ("row `" ++ row_name row ++ "` would write into the non-exportable CA namespace (" ++
                        resolved_entry_path (cred_scheme plan) (row_name row) ++
                        "); the entire import is refused"), s)
              | None =>
                  match map_err (λ e, "vault list: " ++ vault_error_str e) (list_entries (handle s)) with
                  | Err e => (Err e, s)
                  | Ok paths =>
                      let '(r, st) := import_rows plan rule rows nonces ios
                        {| im_store := s; im_paths := paths; im_pairs := []; im_outcomes := [] |} in
                      match r with
                      | Err e => (Err e, im_store st)
                      | Ok _ =>
                          if dry_run plan then (Ok (im_outcomes st, policy_doc plan), im_store st)
                          else
                            let rs := match im_pairs st with
                                      | [] => rules policy
                                      | ps => <[idx := add_pairs rule ps]> (rules policy)
                                      end in
                            let doc := to_toml (from_rules rs) in
                            match from_toml doc with
                            | Err e => (Err ("generated policy failed validation: " ++ policy_error_str e), im_store st)
                            | Ok _ => (Ok (im_outcomes st, doc), im_store st)
                            end
                      end
                  end
              end
          end
      end
  end.

(** ** Properties *)

(** [m'] is [m] with entries of some rows added, none of them in the
    authority's namespace. *)
Definition extends (plan : ImportPlan) (rows : list InventoryRow) (m m' : gmap str str) : Prop :=
  m ⊆ m' ∧ ∀ e v, m' !! e = Some v → m !! e = Some v ∨
    (starts_with CA_NAMESPACE e = false ∧
     ∃ row, row ∈ rows ∧ e = resolved_entry_path (cred_scheme plan) (row_name row) ∧
            v = default PLACEHOLDER_ENTRY_VALUE (row_secret row)).

(** The pair row that a row of the inventory stands for. *)
Definition pair_of (plan : ImportPlan) (row : InventoryRow) (p : Pair) : Prop :=
  parse (row_cred_ref (cred_scheme plan) row) = Ok (pair_cred_ref p) ∧
  parse (row_target row) = Ok (pair_target_uri p).

(** The loop's invariant: the pairs are those of rows and the store serves an
    extension of [m], or is untouched in a dry run. *)
Definition import_inv (plan : ImportPlan) (rows : list InventoryRow) (s0 : Store) (m : gmap str str) (st : ImportState) : Prop :=
  Forall (λ p, ∃ row, row ∈ rows ∧ pair_of plan row p) (im_pairs st) ∧
  if dry_run plan then im_store st = s0
  else ∃ m', decrypt_entries (handle (im_store st)) = Ok {| entries := m' |} ∧ extends plan rows m m'.

(** Between rows, every entry of the store is a known path. *)
Definition paths_known (plan : ImportPlan) (st : ImportState) : Prop :=
  dry_run plan = false → ∀ m' e, decrypt_entries (handle (im_store st)) = Ok {| entries := m' |} →
  is_Some (m' !! e) → e ∈ im_paths st.

Definition encryption_failed {A} (r : result str A) : Prop :=
  ∃ p, r = Err ("vault set " ++ p ++ ": " ++ vault_error_str (VCorrupt "body encryption failed")).

Lemma extends_insert plan rows m m' row : extends plan rows m m' → row ∈ rows →
  let e := resolved_entry_path (cred_scheme plan) (row_name row) in
  m' !! e = None → starts_with CA_NAMESPACE e = false →
  extends plan rows m (<[e := default PLACEHOLDER_ENTRY_VALUE (row_secret row)]> m').
Proof.
  intros [Hsub Hent] Hrow e Hnone Hca. split.
  { apply insert_subseteq_r; [|done]. by eapply lookup_weaken_None. }
  intros e' v. rewrite lookup_insert_Some. intros [[<- <-]|[_ Hv]]; [|by apply Hent].
  right. split; [done|]. by exists row.
Qed.

Lemma set_entry_serves s e v n io m : decrypt_entries (handle s) = Ok {| entries := m |} →
  let '(r, s') := set_entry s e v n io in
  decrypt_entries (handle s') = Ok {| entries := <[e := v]> m |} ∨ r = Err (VCorrupt "body encryption failed").
Proof.
  intros Hd. unfold set_entry, rewrite_body. rewrite Hd. simpl.
  destruct (encrypt_body (dek (handle s)) n _) as [ct|err] eqn:Hc.
  - destruct (persist _ _ io) as [r f]. left. exact (decrypt_encrypt_body _ _ _ _ Hc).
  - right. unfold encrypt_body in Hc. destruct (aead_encrypt _ _ _); simpl in Hc; congruence.
Qed.

Lemma no_ca_row plan rows row : ca_row plan rows = None → row ∈ rows →
  starts_with CA_NAMESPACE (resolved_entry_path (cred_scheme plan) (row_name row)) = false.
Proof.
  unfold ca_row. induction rows as [|r rows IH]; intros Hca Hrow; [by apply not_elem_of_nil in Hrow|].
  cbn [find_map] in Hca. destruct (starts_with _ (resolved_entry_path (cred_scheme plan) (row_name r))) eqn:Hs; [done|].
  apply elem_of_cons in Hrow as [-> |Hrow]; [done|]. by apply IH.
Qed.

Lemma import_entry_inv plan rows s0 m row n io st : row ∈ rows → ca_row plan rows = None →
  import_inv plan rows s0 m st → paths_known plan st →
  let '(r, st') := import_entry plan row n io st in
  (import_inv plan rows s0 m st' ∨ encryption_failed r) ∧ (r = Ok tt → paths_known plan st').
Proof.
  intros Hrow Hca Hinv Hk. unfold import_entry. set (e := resolved_entry_path _ _).
  destruct (bool_decide (e ∈ im_paths st)) eqn:Hin; [split; [by left|done]|]. bool_to_prop.
  pose proof (no_ca_row plan rows row Hca Hrow) as Hns. fold e in Hns.
  destruct Hinv as [Hp Hs]. unfold import_inv, paths_known in *. destruct (dry_run plan).
  { split; [by left|done]. }
  destruct Hs as (m' & Hd & Hext).
  assert (m' !! e = None) as Hnone.
  { destruct (m' !! e) eqn:He; [|done]. destruct Hin. by eapply Hk. }
  pose proof (set_entry_serves (im_store st) e (default PLACEHOLDER_ENTRY_VALUE (row_secret row)) n io m' Hd) as Hset.
  destruct (set_entry _ _ _ _ _) as [[[]|err] s'].
  - destruct Hset as [Hset|]; [|done]. split.
    + left. split; [done|]. eexists. split; [done|]. by apply extends_insert.
    + intros _ _ m2 e' Hd2 He'. cbn in *. rewrite Hset in Hd2. injection Hd2 as <-. apply elem_of_cons.
      destruct (decide (e' = e)) as [-> |Hne]; [by left|right].
      rewrite lookup_insert_ne in He' by done. by eapply Hk.
  - split; [|done]. destruct Hset as [Hset|[= ->]]; [|right; by exists e]. left. split; [done|].
    eexists. split; [done|]. by apply extends_insert.
Qed.

Lemma import_pair_inv plan rows s0 m row rule st st' : row ∈ rows → import_inv plan rows s0 m st →
  import_pair rule (row_cred_ref (cred_scheme plan) row) (row_target row) st = Ok st' →
  import_inv plan rows s0 m st' ∧ im_store st' = im_store st ∧ im_paths st' = im_paths st.
Proof.
  intros Hrow [Hp Hs]. unfold import_pair. destruct (_ || _); [by intros [= <-]|].
  destruct (parse (row_cred_ref _ _)) as [cm|] eqn:Hc; [|done]. simpl.
  destruct (parse (row_target row)) as [tm|] eqn:Ht; [|done]. simpl. intros [= <-].
  split; [|done]. split; [|done]. apply Forall_app. split; [done|]. repeat constructor. by exists row.
Qed.

Lemma import_row_inv plan rows s0 m rule row n io st : row ∈ rows → ca_row plan rows = None →
  import_inv plan rows s0 m st → paths_known plan st →
  let '(r, st') := import_row plan rule row n io st in
  (import_inv plan rows s0 m st' ∨ encryption_failed r) ∧ (r = Ok tt → paths_known plan st').
Proof.
  intros Hrow Hca Hinv Hk. unfold import_row. destruct (_ || _); [split; [by left|done]|].
  pose proof (import_entry_inv plan rows s0 m row n io st Hrow Hca Hinv Hk) as He.
  destruct (import_entry plan row n io st) as [[[]|e] st1]; [|by destruct He as [He _]].
  destruct He as [[He|[p Hbad]] Hk1]; [|done]. specialize (Hk1 eq_refl).
  destruct (import_pair _ _ _ st1) as [st2|e] eqn:Hp; [|split; [by left|done]].
  apply (import_pair_inv plan rows s0 m) in Hp as (Hi & Hst & Hpa); [|done..].
  split; [by left|]. intros _. unfold paths_known. by rewrite Hst, Hpa.
Qed.

Lemma import_rows_inv plan all s0 m rule rows ns ios st : rows ⊆ all → ca_row plan all = None →
  import_inv plan all s0 m st → paths_known plan st →
  let '(r, st') := import_rows plan rule rows ns ios st in
  import_inv plan all s0 m st' ∨ encryption_failed r.
Proof.
  revert ns ios st. induction rows as [|row rows IH]; intros ns ios st Hsub Hca Hinv Hk; [by left|].
  cbn [import_rows].
  pose proof (import_row_inv plan all s0 m rule row (default [] (head ns)) (default None (head ios)) st) as Hr.
  destruct (import_row _ _ _ _ _ st) as [[[]|e] st1].
  - destruct Hr as [[Hr|[p Hbad]] Hk1]; [set_solver|done..| |done].
    apply IH; [set_solver|done|done|by apply Hk1].
  - destruct Hr as [Hr _]; [set_solver|done..].
Qed.

Lemma extends_refl plan rows m : extends plan rows m m.
Proof. split; [done|]. intros e v Hv. by left. Qed.

Lemma list_entries_keys v m paths : decrypt_entries v = Ok {| entries := m |} → list_entries v = Ok paths →
  ∀ e, is_Some (m !! e) → e ∈ paths.
Proof.
  unfold list_entries. intros -> [= <-] e [x Hx]. unfold sorted_keys.
  rewrite merge_sort_Permutation, list_elem_of_fmap. exists (e, x). by rewrite elem_of_map_to_list.
Qed.

(** The whole run: the vault, and the policy document on success. *)
Lemma run_import_spec plan rows s nonces ios m : decrypt_entries (handle s) = Ok {| entries := m |} →
  let '(r, s') := run_import plan rows s nonces ios in
  encryption_failed r ∨
  ((if dry_run plan then s' = s
    else ∃ m', decrypt_entries (handle s') = Ok {| entries := m' |} ∧ extends plan rows m m') ∧
   ∀ os doc, r = Ok (os, doc) →
     if dry_run plan then doc = policy_doc plan
     else ∃ policy idx rule ps, from_toml (policy_doc plan) = Ok policy ∧ rules policy !! idx = Some rule ∧
       rule_name rule = Some (plan_rule plan) ∧
       Forall (λ p, ∃ row, row ∈ rows ∧ pair_of plan row p) ps ∧
       doc = to_toml (from_rules (<[idx := add_pairs rule ps]> (rules policy))) ∧ is_ok (from_toml doc) = true).
Proof.
  intros Hd. unfold run_import.
  assert (∀ e P, encryption_failed (Err e : result str (list RowOutcome * str)) ∨
    ((if dry_run plan then s = s
      else ∃ m', decrypt_entries (handle s) = Ok {| entries := m' |} ∧ extends plan rows m m') ∧
     ∀ os doc, (Err e : result str (list RowOutcome * str)) = Ok (os, doc) → P os doc)) as Hstop.
  { intros e P. right. split; [|done]. destruct (dry_run plan); [done|]. eexists. split; [done|]. apply extends_refl. }
  destruct (from_toml (policy_doc plan)) as [policy|] eqn:Hpol; cbn [map_err]; [|apply Hstop].
  destruct (position _ _) as [idx|] eqn:Hpos; [|apply Hstop].
  apply position_Some in Hpos as [(rule & Hidx & Hname) _]. bool_to_prop. rewrite Hidx.
  destruct (ca_row plan rows) as [row|] eqn:Hca; [apply Hstop|].
  destruct (list_entries (handle s)) as [paths|] eqn:Hl; cbn [map_err]; [|apply Hstop].
  set (st0 := {| im_store := s |}).
  pose proof (import_rows_inv plan rows s m rule rows nonces ios st0 (reflexivity _) Hca) as Hinv.
  destruct (import_rows plan rule rows nonces ios st0) as [r st].
  destruct Hinv as [[Hp Hs]|[p ->]].
  { split; [constructor|]. destruct (dry_run plan); [done|]. eexists. split; [done|]. apply extends_refl. }
  { intros _ m' e Hd' He. cbn in Hd'. rewrite Hd in Hd'. injection Hd' as <-. by eapply list_entries_keys. }
  - destruct r as [[]|e]; [|by right]. destruct (dry_run plan) eqn:Hdry.
    { right. split; [done|]. by intros os doc [= <- <-]. }
    set (rs := match im_pairs st with [] => _ | _ => _ end).
    assert (rs = <[idx := add_pairs rule (im_pairs st)]> (rules policy)) as Hrs.
    { unfold rs. destruct (im_pairs st); [|done]. symmetry. apply list_insert_id. rewrite Hidx.
      unfold add_pairs. rewrite app_nil_r. by destruct rule. }
    destruct (from_toml (to_toml (from_rules rs))) as [pol|e] eqn:Hval; [|by right].
    right. split; [done|]. intros os doc [= <- <-]. exists policy, idx, rule, (im_pairs st).
    rewrite <- Hrs, Hval. done.
  - left. by exists p.
Qed.

(** What a run does to the vault: a dry run nothing; any other, finished or
    stopped by an error, leaves every entry that was there with its value and
    adds only entries of rows, with the row's secret or the unset placeholder,
    none in the certificate authority's namespace (unless the cipher itself
    refused to encrypt). *)
Theorem import_extends_vault plan rows s nonces ios m :
  decrypt_entries (handle s) = Ok {| entries := m |} →
  let '(r, s') := run_import plan rows s nonces ios in
  encryption_failed r ∨
  if dry_run plan then s' = s
  else ∃ m', decrypt_entries (handle s') = Ok {| entries := m' |} ∧ extends plan rows m m'.
Proof.
  intros Hd. pose proof (run_import_spec plan rows s nonces ios m Hd) as Hr.
  destruct (run_import plan rows s nonces ios) as [r s']. destruct Hr as [Hr|[Hr _]]; auto.
Qed.

Lemma covers_add_pairs rule ps r : pairs rule ≠ [] → covers (add_pairs rule ps) r →
  covers rule r ∨ ∃ p, p ∈ ps ∧ denotes (pair_cred_ref p) (req_cred_ref r) ∧
                       denotes (pair_target_uri p) (req_target_uri r).
Proof.
  intros Hne (Ha & Hc & Ht & Hm & [Hnil|(p & Hin & Hp)]); cbn in *.
  - by apply app_eq_nil in Hnil as [? _].
  - apply elem_of_app in Hin as [Hin|Hin]; [left; unfold covers; naive_solver|right; by exists p].
Qed.

(** What a finished run does to the policy: the document is that of the old
    rules with pair rows of the inventory added to the named rule, and if that
    rule had rows before, a request it covers now was covered before or matches
    the row of some inventory line. *)
Theorem import_extends_policy plan rows s nonces ios m os doc s' :
  decrypt_entries (handle s) = Ok {| entries := m |} → dry_run plan = false →
  run_import plan rows s nonces ios = (Ok (os, doc), s') →
  ∃ policy idx rule ps, from_toml (policy_doc plan) = Ok policy ∧ rules policy !! idx = Some rule ∧
    rule_name rule = Some (plan_rule plan) ∧
    doc = to_toml (from_rules (<[idx := add_pairs rule ps]> (rules policy))) ∧
    (pairs rule ≠ [] → ∀ r, covers (add_pairs rule ps) r → covers rule r ∨
       ∃ row p, row ∈ rows ∧ pair_of plan row p ∧ denotes (pair_cred_ref p) (req_cred_ref r) ∧
                denotes (pair_target_uri p) (req_target_uri r)).
Proof.
  intros Hd Hdry Hrun. pose proof (run_import_spec plan rows s nonces ios m Hd) as Hr. rewrite Hrun, Hdry in Hr.
  destruct Hr as [[p Hp]|[_ Hr]]; [done|].
  destruct (Hr os doc eq_refl) as (policy & idx & rule & ps & Hpol & Hidx & Hname & Hps & Hdoc & _).
  exists policy, idx, rule, ps. split_and!; try done. intros Hne r Hc.
  destruct (covers_add_pairs _ _ _ Hne Hc) as [?|(p & Hin & Hcp & Htp)]; [by left|right].
  rewrite Forall_forall in Hps. destruct (Hps p Hin) as (row & Hrow & Hof). by exists row, p.
Qed.

(** A run that names no rule, or has a row for the authority's namespace,
    writes nothing. *)
Theorem import_fails_closed plan rows s nonces ios policy :
  from_toml (policy_doc plan) = Ok policy →
  Forall (λ r, rule_name r ≠ Some (plan_rule plan)) (rules policy) ∨
    Exists (λ row, starts_with CA_NAMESPACE (resolved_entry_path (cred_scheme plan) (row_name row)) = true) rows →
  (run_import plan rows s nonces ios).2 = s ∧ is_ok (run_import plan rows s nonces ios).1 = false.
Proof.
  intros Hp Hbad. unfold run_import. rewrite Hp. cbn [map_err].
  destruct (position _ _) as [idx|] eqn:Hpos; [|done].
  apply position_Some in Hpos as [(rule & Hidx & Hname) _]. rewrite Hidx. bool_to_prop.
  destruct Hbad as [Hno|Hex].
  { rewrite Forall_lookup in Hno. by destruct (Hno _ _ Hidx). }
  destruct (ca_row plan rows) as [row|] eqn:Hca; [done|]. exfalso.
  apply Exists_exists in Hex as (row & Hrow & Hs). by rewrite (no_ca_row _ _ _ Hca Hrow) in Hs.
Qed.
(** An axis that accepts everything accepts no row: a rule with no
    [target_uri] of its own fails every line of the inventory, and neither the
    vault nor the pairs change. *)
Theorem any_axis_imports_nothing plan rule rows nonces ios st : rule_target_uri rule = Any →
  let '(r, st') := import_rows plan rule rows nonces ios st in
  r = Ok tt ∧ im_store st' = im_store st ∧ im_pairs st' = im_pairs st ∧
  ∃ reasons, im_outcomes st' = im_outcomes st ++ (FailedRow <$> reasons) ∧ length reasons = length rows.
Proof.
  intros Hany. revert nonces ios st. induction rows as [|row rows IH]; intros nonces ios st.
  { simpl. split_and!; try done. exists []. by rewrite app_nil_r. }
  cbn [import_rows]. unfold import_row at 1. rewrite Hany.
  replace (axis_compatible (matcher_debug Any) (row_target row)) with false.
  2:{ unfold row_target. by generalize (row_host row ++ ":" ++ show (row_port row)). }
  rewrite orb_true_r. set (reason := (row_cred_ref _ _ ++ _)%list). set (st1 := Build_ImportState _ _ _ _).
  specialize (IH (tail nonces) (tail ios) st1). destruct (import_rows _ _ _ _ _ st1) as [r st'].
  destruct IH as (-> & -> & -> & reasons & -> & Hlen). split_and!; try done.
  exists (reason :: reasons). cbn. rewrite <- app_assoc, Hlen. done.
Qed.
End Importer.

(** ** Concrete runs *)

Section Witnesses.
#[local] Existing Instances toy_base64 toy_aead toy_argon2 toy_serde toy_debug toy_sha256.

Definition a_row (name host : str) (port : Z) : InventoryRow :=
  {| row_name := name; row_host := host; row_port := port; row_user := None; row_secret := None |}.

Definition some_rows : list InventoryRow :=
  [ {| row_name := "app-1"; row_host := "h1"; row_port := 22; row_user := Some "root"; row_secret := Some "s1" |};
    a_row "app-2" "h2" 2222 ].

Lemma csv_roundtrip_witness :
  parse_csv (csv_text some_rows) = {| po_rows := Row <$> some_rows; po_warnings := [] |}.
Proof.
  apply csv_roundtrip. repeat constructor; vm_compute; try discriminate; set_solver.
Defined.

(** A policy whose only rule is the one imports go to. *)
Definition fleet_toml (cred : option str) : Toml :=
  {| toml_from_str _ := Ok {| file_rule :=
       [ {| rd_effect := "allow"; rd_name := Some "fleet"; rd_agent_id := None; rd_cred_ref := cred;
            rd_target_uri := Some "ssh://*"; rd_mechanism := None;
            rd_pair := [ {| pd_cred_ref := "local://fleet/app-10"; pd_target_uri := "ssh://h1:2222" |} ];
            rd_limits := None; rd_notify := None |} ] |};
     toml_quote s := s |}.

Definition fleet_plan (dry : bool) : ImportPlan :=
  {| policy_doc := ""; plan_rule := "fleet"; cred_scheme := "local://fleet"; dry_run := dry |}.

Definition fleet_run (cred : option str) (dry : bool) (rows : list InventoryRow) :=
  let _ := fleet_toml cred in run_import (fleet_plan dry) rows store0 [a_nonce Byte.x07; a_nonce Byte.x08] [].

Definition outcomes (r : result str (list RowOutcome * str) * Store) : result str (list str) :=
  match r.1 with Ok (os, _) => Ok (outcome_line <$> os) | Err e => Err e end.

Definition written (r : result str (list RowOutcome * str) * Store) : option str :=
  match r.1 with Ok (_, doc) => Some doc | Err _ => None end.

Definition stored (r : result str (list RowOutcome * str) * Store) (e : str) : result VaultError (option str) :=
  get_entry (handle r.2) e.

Lemma store0_empty : decrypt_entries (handle store0) = Ok {| entries := ∅ |}.
Proof. vm_compute. reflexivity. Qed.

Lemma import_extends_vault_witness :
  let r := fleet_run (Some "local://*") false some_rows in
  outcomes r = Ok ["imported fleet/app-1"; "imported fleet/app-2"] ∧
  stored r "fleet/app-1" = Ok (Some ("s1" : str)) ∧
  stored r "fleet/app-2" = Ok (Some PLACEHOLDER_ENTRY_VALUE) ∧
  ∃ m', decrypt_entries (handle r.2) = Ok {| entries := m' |} ∧ extends (fleet_plan false) some_rows ∅ m'.
Proof.
  split_and!; [vm_compute; reflexivity..|].
  pose proof (@import_extends_vault _ _ _ _ _ (fleet_toml (Some "local://*")) _ (fleet_plan false) some_rows store0
    [a_nonce Byte.x07; a_nonce Byte.x08] [] ∅ store0_empty) as Hx.
  unfold fleet_run. destruct (run_import _ _ _ _ _) as [r s] eqn:Hr.
  destruct Hx as [[p Hp]|Hx]; [|exact Hx]. exfalso.
  assert (is_ok (fleet_run (Some "local://*") false some_rows).1 = true) as Hok by (vm_compute; reflexivity).
  unfold fleet_run in Hok. rewrite Hr, Hp in Hok. discriminate.
Defined.

Lemma import_extends_policy_witness :
  let r := fleet_run (Some "local://*") false some_rows in
  ∃ os doc, r.1 = Ok (os, doc) ∧ ∃ rule ps, rule_name rule = Some ("fleet" : str) ∧
    doc = @to_toml (fleet_toml (Some "local://*")) (from_rules [add_pairs rule ps]).
Proof.
  destruct (fleet_run (Some "local://*") false some_rows) as [[[os doc]|e] s'] eqn:Hr.
  - pose proof (@import_extends_policy _ _ _ _ _ (fleet_toml (Some "local://*")) _ (fleet_plan false) some_rows store0
      [a_nonce Byte.x07; a_nonce Byte.x08] [] ∅ os doc s' store0_empty eq_refl Hr)
      as (policy & idx & rule & ps & Hp & Hi & Hn & Hd & _).
    exists os, doc. split; [done|]. exists rule, ps. split; [done|].
    vm_compute in Hp. injection Hp as <-. destruct idx as [|idx]; [exact Hd|by destruct idx].
  - exfalso. assert (is_ok (fleet_run (Some "local://*") false some_rows).1 = true) as Hok by (vm_compute; reflexivity).
    rewrite Hr in Hok. discriminate.
Defined.

Lemma import_fails_closed_witness :
  let _ := fleet_toml None in
  let plan := {| policy_doc := ""; plan_rule := "nope"; cred_scheme := "local://fleet"; dry_run := false |} in
  (run_import plan some_rows store0 [] []).2 = store0 ∧ is_ok (run_import plan some_rows store0 [] []).1 = false.
Proof.
  eapply (@import_fails_closed _ _ _ _ _ (fleet_toml None)); [vm_compute; reflexivity|].
  left. repeat constructor. discriminate.
Defined.

(** A row whose credential and target are parts of those of a pair that is
    there is taken for a duplicate: its entry is imported, its pair is not. *)
Theorem partial_match_drops_pair :
  let rows := [a_row "app-1" "h1" 22] in
  let r := fleet_run (Some "local://*") false rows in
  outcomes r = Ok ["imported fleet/app-1"] ∧
  written r = written (fleet_run (Some "local://*") false []) ∧ is_Some (written r).
Proof. vm_compute. split_and!; try reflexivity. by eexists. Qed.
End Witnesses.
