(* ===== verification/Feed.v ===== *)
(** The reader of the event feed: [chaperone tail], in [crates/cli/src/main.rs]
    ([cmd_tail], [render_event]) and [crates/cli/src/toast.rs].

    The loop that splits the stream into lines, the line printed for an event,
    the desktop notification made of it, and both against the events the
    gateway broadcasts. *)

From S2P Require Import Prelude Strs Json Extern Toy Protocol Policy Enrollment Replay Identity.
From S2P Require Import AuditChain Session SshCa Gateway Guard Events.
#[local] Open Scope Z_scope.

(** ** toast.rs *)

Inductive Urgency : Type := Critical | Normal | Low.

#[global] Instance urgency_eq_dec : EqDecision Urgency.
Proof. solve_decision. Defined.

Record Toast : Type := { title : str; body : str; urgency : Urgency }.

(** [num]. *)
Definition num (v : Value) (k : str) : Z := default 0 (get_u64 v k).

(** The agent, led by the accountable human when the event names one. *)
Definition who (v : Value) (agent : str) : str :=
  match get_str v "sponsor_id" with
  | Some sp => if is_empty sp then agent else sp ++ " via " ++ agent
  | None => agent
  end.

(** [outcome.status]. *)
Definition event_status (v : Value) : option str := o ← get v "outcome"; get_str o "status".

(** [toast_for]. *)
Definition toast_for (v : Value) : option Toast :=
  let s k := default [] (get_str v k) in
  let who := who v (s "agent_id") in
  let place := if is_empty (s "target_label") then s "target_uri"
               else s "target_label" ++ " (" ++ s "target_uri" ++ ")" in
  let type := s "type" in
  if decide (type = ("decision" : str)) then
    let effect := s "effect" in
    let outcome := default [] (event_status v) in
    let denied := bool_decide (effect = ("deny" : str)) in
    let needs_confirm := bool_decide (outcome = ("needs_confirmation" : str)) in
    Some {| title := if denied then "Chaperone: DENIED"
                     else if needs_confirm then "Chaperone: awaiting your approval"
                     else "Chaperone: allowed";
            body := who ++ " · " ++ s "mechanism" ++ " · " ++ place ++
                    (if is_empty outcome then [] else " · " ++ outcome);
            urgency := if denied || needs_confirm then Critical else Normal |}
  else if decide (type = ("session.summary" : str)) then
    Some {| title := "Chaperone: session ended";
            body := who ++ " · " ++ s "mechanism" ++ " · " ++ place ++ " · " ++ show (num v "commands") ++
                    " command(s)";
            urgency := Normal |}
  else if decide (type = ("session.heartbeat" : str)) then
    Some {| title := "Chaperone: session still open";
            body := who ++ " · " ++ s "mechanism" ++ " · " ++ place ++ " · " ++ show (num v "commands") ++
                    " command(s), " ++ show (num v "elapsed_secs") ++ "s elapsed";
            urgency := Low |}
  else if decide (type = ("policy_drift" : str)) then
    Some {| title := "Chaperone: POLICY DRIFT — brokering halted";
            body := default "policy file changed under a running gateway" (get_str v "detail");
            urgency := Critical |}
  else None.

(** ** main.rs: [render_event] and [cmd_tail] *)

Section Tail.
Context `{JsonText}.

(** [render_event]. *)
Definition render_event (v : Value) : str :=
  let s k := default "?" (get_str v k) in
  let who := who v (s "agent_id") in
  let type := s "type" in
  if decide (type = ("decision" : str)) then
    "[decision] " ++ s "effect" ++ " " ++ who ++ " " ++ s "mechanism" ++ "/" ++ s "target_uri" ++ " -> " ++
    default "?" (event_status v)
  else if bool_decide (type = ("session.summary" : str)) || bool_decide (type = ("session.heartbeat" : str)) then
    "[session " ++ (if bool_decide (type = ("session.heartbeat" : str)) then "heartbeat" else "summary") ++ "] " ++
    who ++ " " ++ s "mechanism" ++ "/" ++ s "target_uri" ++ ": " ++ show (num v "commands") ++ " cmd(s), " ++
    show (num v "bytes_in") ++ "B in, " ++ show (num v "bytes_out") ++ "B out, " ++
    show (num v "elapsed_secs") ++ "s elapsed"
  else if decide (type = ("policy_drift" : str)) then
    "[POLICY DRIFT] " ++ default "content changed" (get_str v "detail") ++ " (observed " ++
    take_chars 12 (default "?" (get_str v "observed_hash")) ++ "); brokering halted"
  else "[" ++ type ++ "] " ++ json_to_string v.

(** What the loop does to the outside. *)
Inductive tail_act : Type :=
| TPrint (line : str)
| TToast (t : Toast)
| TWarn (why : str).

(** The outside's answers for one printed line: the write, the notification,
    the flush. *)
Record tail_io : Type := { io_write : option str; io_toast : option str; io_flush : option str }.
Definition io_ok : tail_io := {| io_write := None; io_toast := None; io_flush := None |}.

(** The loop's state: the bytes of the line so far and [toast_broken]. *)
Record tail_state : Type := { line_buf : str; toast_broken : bool }.

(** One non-blank line: the text printed, and the notification of an event. *)
Definition tail_line (toast broken : bool) (io : tail_io) (text : str) : list tail_act * bool * result str unit :=
  let written := TPrint (match json_from_str text with Ok v => render_event v | Err _ => text end) in
  match io_write io with
  | Some e => ([], broken, Err e)
  | None =>
      let '(acts, broken) :=
        match json_from_str text with
        | Ok v =>
            if toast && negb broken then
              match toast_for v with
              | Some t =>
                  match io_toast io with
                  | None => ([TToast t], broken)
                  | Some e => ([TToast t; TWarn e], true)
                  end
              | None => ([], broken)
              end
            else ([], broken)
        | Err _ => ([], broken)
        end in
      (written :: acts, broken, match io_flush io with Some e => Err e | None => Ok tt end)
  end.

(** The loop over the bytes read until the feed closes; one answer of [ios] is
    used up by each printed line. *)
Fixpoint tail_loop (toast : bool) (st : tail_state) (ios : list tail_io) (input : str) : list tail_act * result str unit :=
  match input with
  | [] => ([], Ok tt)
  | b :: rest =>
      if bool_decide (b = zb 10) then
        let text := trim (from_utf8_lossy (line_buf st)) in
        if is_empty text then tail_loop toast {| line_buf := []; toast_broken := toast_broken st |} ios rest
        else
          let '(acts, broken, r) := tail_line toast (toast_broken st) (default io_ok (ios !! 0%nat)) text in
          match r with
          | Err e => (acts, Err e)
          | Ok _ =>
              let '(more, r) := tail_loop toast {| line_buf := []; toast_broken := broken |} (drop 1 ios) rest in
              (acts ++ more, r)
          end
      else tail_loop toast {| line_buf := line_buf st ++ [b]; toast_broken := toast_broken st |} ios rest
  end.

(** [cmd_tail], connected. *)
Definition cmd_tail (toast : bool) (ios : list tail_io) (input : str) : list tail_act * result str unit :=
  tail_loop toast {| line_buf := []; toast_broken := false |} ios input.

(** ** The stream of lines *)

(** A line that carries the event [v]. *)
Definition carries (line : str) (v : Value) : Prop :=
  utf8_valid line = true ∧ (zb 10 ∉ line) ∧ trim line ≠ [] ∧ json_from_str (trim line) = Ok v.

(** What [tail] shows of an event when every write succeeds. *)
Definition shown (toast : bool) (v : Value) : list tail_act :=
  TPrint (render_event v) :: (if toast then option_list (TToast <$> toast_for v) else []).

Lemma tail_loop_line toast buf broken ios line rest : zb 10 ∉ line →
  tail_loop toast {| line_buf := buf; toast_broken := broken |} ios (line ++ zb 10 :: rest) =
  tail_loop toast {| line_buf := buf ++ line; toast_broken := broken |} ios (zb 10 :: rest).
Proof.
  revert buf. induction line as [|b line IH]; intros buf Hn; cbn [app]; [by rewrite app_nil_r|].
  apply not_elem_of_cons in Hn as [Hb Hn]. cbn [tail_loop]. rewrite bool_decide_false by congruence.
  cbn [line_buf toast_broken]. rewrite IH by done. rewrite <- app_assoc. done.
Qed.

Lemma tail_loop_event toast ios line v rest : carries line v → ios !! 0%nat ∈ [None; Some io_ok] →
  let '(more, r) := tail_loop toast {| line_buf := []; toast_broken := false |} (drop 1 ios) rest in
  tail_loop toast {| line_buf := []; toast_broken := false |} ios (line ++ zb 10 :: rest) =
  (shown toast v ++ more, r).
Proof.
  intros (Hu & Hn & Hne & Hj) Hio. rewrite tail_loop_line by done. cbn [tail_loop line_buf app].
  rewrite bool_decide_true, lossy_valid by done.
  destruct (is_empty (trim line)) eqn:He; [by apply is_empty_true in He|].
  replace (default io_ok (ios !! 0%nat)) with io_ok by (destruct (ios !! 0%nat); set_solver).
  unfold tail_line. rewrite Hj. cbn. destruct toast; cbn; [destruct (toast_for v); cbn|];
    destruct (tail_loop _ _ _ rest); done.
Qed.

(** The bytes of the lines of a feed. *)
Definition wire (ls : list str) : str := mjoin ls.

Lemma tail_shows toast ls vs : Forall2 carries ls vs →
  cmd_tail toast [] (wire ((λ l, l ++ [zb 10]) <$> ls)) = (mjoin (shown toast <$> vs), Ok tt).
Proof.
  unfold cmd_tail, wire. induction 1 as [|l v ls vs Hc Hf IH]; [done|]. rewrite fmap_cons. cbn [mjoin list_join].
  rewrite <- app_assoc. cbn [app].
  pose proof (tail_loop_event toast [] l v (mjoin ((λ l, l ++ [zb 10]) <$> ls)) Hc ltac:(set_solver)) as He.
  unfold mjoin in *. simpl in *. rewrite IH in He. done.
Qed.

Lemma Forall2_prefix {A B} (P : A → B → Prop) ls vs ls' : Forall2 P ls vs → ls' `prefix_of` ls →
  ∃ vs', vs' `prefix_of` vs ∧ Forall2 P ls' vs'.
Proof.
  intros Hf [k ->]. apply Forall2_app_inv_l in Hf as (v1 & v2 & H1 & _ & ->).
  exists v1. split; [by eexists|done].
Qed.

(** From the gateway to the operator's terminal.  Under every interleaving
    of broadcasts, registrations and delivery threads, if every line broadcast
    carries an event, [tail] shows a subscriber an initial part of the events
    broadcast since it joined: one line each, in the order they happened, none
    lost in between, none twice, with the event's notification after the line. *)
Theorem tail_shows_feed toast h i s vs :
  hub_reachable h → subs h !! i = Some s →
  Forall2 (λ w v, ∃ line, w = line ++ [zb 10] ∧ carries line v) (drop (joined s) (sent h)) vs →
  ∃ shown_events, shown_events `prefix_of` vs ∧
    cmd_tail toast [] (wire (received s)) = (mjoin (shown toast <$> shown_events), Ok tt) ∧
    (registered s = true → thread_alive s = true → writing s = None → queue s = [] → shown_events = vs).
Proof.
  intros [Hf _]%hub_reachable_ok Hi Hvs. rewrite Forall_lookup in Hf.
  destruct (Hf i s Hi) as [_ (lost & Hp & Hl) _].
  assert (received s `prefix_of` drop (joined s) (sent h)) as Hpre by (rewrite Hp; by eexists).
  destruct (Forall2_prefix _ _ _ _ Hvs Hpre) as (vs' & Hvp & Hc). exists vs'. split; [done|].
  assert (∃ ls, received s = (λ l, l ++ [zb 10]) <$> ls ∧ Forall2 carries ls vs') as (ls & Hrec & Hls).
  { clear -Hc. induction Hc as [|w v ws vs (line & -> & Hv) _ (ls & -> & Hls)]; [by exists []|].
    exists (line :: ls). split; [done|]. by constructor. }
  rewrite Hrec in *. split; [by apply tail_shows|]. intros Hr Ha Hw Hq. rewrite (Hl Hr Ha), Hw, Hq, app_nil_r in Hp. cbn in Hp.
  apply Forall2_length in Hvs, Hls. destruct Hvp as [k ->]. rewrite Hp, length_fmap, length_app in Hvs.
  destruct k; [by rewrite app_nil_r|]. simpl in Hvs. lia.
Qed.
End Tail.

(** ** The events of the gateway *)

Section Broadcasts.
Context `{Base64, Ed25519, SerdeText StoreFile, SerdeLine JournalLine, JsonText, Sha256, TimeApi,
          DebugFmt, SshKeys}.

Definition broadcasts (t : list action) : list Value :=
  omap (λ a, match a with ABroadcast v => Some v | _ => None end) t.

Lemma decision_broadcasts w envelope eff notify outcome g :
  let '(_, _, t) := audit_decision w envelope eff notify outcome g in
  ∀ v, v ∈ broadcasts t →
    get_str v "type" = Some ("decision" : str) ∧ get_str v "effect" = Some eff ∧
    get v "outcome" = Some (outcome_value outcome).
Proof.
  unfold audit_decision, append_event, broadcast_json, get_gw, put_gw, act, mbind, M_bind, mret, M_ret.
  destruct (append (audit g) _ _ _) as [[h|e] a]; simpl;
  (destruct (_ || notify); simpl; [destruct (event_hub g); simpl|]); intros v Hv;
    first [by apply not_elem_of_nil in Hv|apply list_elem_of_singleton in Hv as ->; by split_and!].
Qed.

(** The notification of a decision depends on the effect of the rule only: a
    denial interrupts; every other decision is announced as allowed, also one
    whose confirmation timed out, whose credential was not resolved or whose
    mechanism failed; and no decision is announced as waiting for approval. *)
Theorem decision_notification w envelope eff notify outcome g :
  let '(_, _, t) := audit_decision w envelope eff notify outcome g in
  ∀ v, v ∈ broadcasts t → ∃ n, toast_for v = Some n ∧
    title n = (if bool_decide (eff = effect_str Deny) then "Chaperone: DENIED" else "Chaperone: allowed") ∧
    urgency n = (if bool_decide (eff = effect_str Deny) then Critical else Normal).
Proof.
  pose proof (decision_broadcasts w envelope eff notify outcome g) as Hd.
  destruct (audit_decision _ _ _ _ _ _) as [[r g'] t]. intros v Hv. destruct (Hd v Hv) as (Ht & He & Ho).
  unfold toast_for. rewrite Ht, He. cbn [default]. rewrite decide_True by done. eexists. split; [done|].
  cbn [title urgency]. rewrite (bool_decide_false (default _ _ = _)).
  2:{ unfold event_status. rewrite Ho. destruct outcome; discriminate. }
  change (effect_str Deny) with ("deny" : str). by repeat case_bool_decide.
Qed.

(** A drift of the policy is announced as loudly as can be, whatever was
    found on disk. *)
Theorem drift_notification w baseline d g :
  let '(_, g', t) := fire_drift w true baseline d g in
  is_Some (halt_reason g') ∧ ∃ v n, broadcasts t = [v] ∧ toast_for v = Some n ∧ urgency n = Critical ∧ body n = detail d ∧
    render_event v = "[POLICY DRIFT] " ++ detail d ++ " (observed " ++ take_chars 12 (observed_hash d) ++
                     "); brokering halted".
Proof.
  unfold fire_drift, append_event, get_gw, put_gw, act, mbind, M_bind, mret, M_ret.
  destruct (append _ _ _ _) as [r a]; simpl. split; [|destruct r; eexists _, _; by split_and!].
  unfold halt. destruct (halt_reason g) eqn:Hr; simpl; [rewrite Hr|]; by eexists.
Qed.
End Broadcasts.

(** ** A feed read to its end *)

Section Witnesses.
#[local] Existing Instances toy_json.

Definition an_event : Value :=
  object [("type", jstr "decision"); ("effect", jstr "deny"); ("agent_id", jstr "a1"); ("sponsor_id", jstr "ops");
          ("mechanism", jstr "ssh"); ("target_uri", jstr "ssh://h"); ("outcome", object [("status", jstr "denied")])].

Definition one_line_hub : Hub := broadcast (count_subscriber (add_subscriber hub_new true)) (json_to_string an_event).
Definition read_hub : Hub :=
  let h1 := set_subs one_line_hub (thread_take <$> subs one_line_hub) in
  set_subs h1 (thread_write true <$> subs h1).

Lemma read_hub_reachable : hub_reachable read_hub.
Proof.
  eapply rtc_l; [apply (step_add _ true)|]. eapply rtc_l; [apply step_count|].
  eapply rtc_l; [apply (step_broadcast _ (json_to_string an_event))|].
  eapply rtc_l; [eapply (step_take _ 0); reflexivity|].
  eapply rtc_l; [eapply (step_write _ 0 _ true); reflexivity|]. apply rtc_refl.
Qed.

Lemma tail_shows_feed_witness :
  ∃ s, subs read_hub !! 0%nat = Some s ∧
    cmd_tail true [] (wire (received s)) =
    ([TPrint "[decision] deny ops via a1 ssh/ssh://h -> denied";
      TToast {| title := "Chaperone: DENIED"; body := "ops via a1 · ssh · ssh://h · denied"; urgency := Critical |}], Ok tt).
Proof.
  eexists. split; [reflexivity|].
  destruct (tail_shows_feed true read_hub 0 _ [an_event] read_hub_reachable eq_refl) as (vs & Hp & -> & Hall).
  - repeat constructor. exists (json_to_string an_event). split; [done|]. split_and!.
    + vm_compute. reflexivity.
    + apply contains_byte_false. vm_compute. reflexivity.
    + vm_compute. discriminate.
    + vm_compute. reflexivity.
  - rewrite Hall by reflexivity. vm_compute. reflexivity.
Defined.
End Witnesses.
