(* ===== verification/Db.v ===== *)
(** The database backend: [crates/gateway-core/src/db.rs].

    The connection settings made of a signed intent, the one-shot execution
    and the session channel.  The PostgreSQL client is a parameter: what
    connecting and each query return. *)

From S2P Require Import Prelude Strs Json Extern Toy Protocol Session.
#[local] Open Scope Z_scope.

(** What the backend sets of [tokio_postgres::Config]. *)
Record Config : Type := {
  cfg_host : str;
  cfg_port : Z;
  cfg_dbname : str;
  cfg_user : str;
  cfg_password : str;
}.

(** [tokio_postgres::SimpleQueryMessage]; a cell is [None] for NULL. *)
Inductive SimpleQueryMessage : Type :=
| SRow (cells : list (option str))
| CommandComplete (n : Z)
| OtherMessage.

(** An error of the client: its own text and those of its sources. *)
Definition pg_error : Type := str * list str.

(** The client's answers.  [query] gives for each row and column the result of
    reading the column as an optional string. *)
Record Postgres : Type := {
  pg_connect : Config → result pg_error unit;
  simple_query : str → result str (list SimpleQueryMessage);
  prepare : str → result str (list str);
  query : str → list str → result str (list (list (result str (option str))));
}.

(** The calls a run makes, in order. *)
Inductive db_call : Type :=
| CConnect (c : Config)
| CSimple (sql : str)
| CPrepare (sql : str)
| CQuery (sql : str) (params : list str).

(** [chain]. *)
Definition chain (e : pg_error) : str := fold_left (λ out s, out ++ ": " ++ s) e.2 e.1.

Section Db.
Context `{DebugFmt}.

(** The database: the URI's, with which the operation's must agree. *)
Definition config_database (uri_db : str) (op_db : option str) : result str str :=
  match is_empty uri_db, op_db with
  | false, None => Ok uri_db
  | false, Some op_db =>
      if bool_decide (uri_db = op_db) then Ok uri_db
      else Err ("operation.database " ++ debug_str op_db ++ " contradicts target URI database " ++ debug_str uri_db)
  | true, Some op_db => Ok op_db
  | true, None => Err "no database: put one in target.uri or operation"
  end.

(** The user: the operation's, else the URI's. *)
Definition config_user (operation : Value) (ep : PgEndpoint) : result str str :=
  match get_str operation "username" with
  | Some u => if is_empty u then ok_or (if is_empty (pg_user ep) then None else Some (pg_user ep))
                                   "no user: put one in target.uri userinfo or operation.username"
              else Ok u
  | None => ok_or (if is_empty (pg_user ep) then None else Some (pg_user ep))
              "no user: put one in target.uri userinfo or operation.username"
  end.

(** [build_config]. *)
Definition build_config (target_uri : str) (operation : Value) (secret : str) : result str (Config * str) :=
  ep ← parse_pg_uri target_uri;
  let engine := default [] (get_str operation "engine") in
  if negb (is_empty engine) && negb (bool_decide (engine = ("postgres" : str))) then
    Err ("engine " ++ debug_str engine ++ " unsupported; only 'postgres'")
  else
    db ← config_database (pg_database ep) (get_str operation "database");
    user ← config_user operation ep;
    Ok ({| cfg_host := pg_host ep; cfg_port := pg_port ep; cfg_dbname := db; cfg_user := user;
           cfg_password := secret |}, user).

(** [json!] of an optional string. *)
Definition cell_value (c : option str) : Value := match c with Some s => String s | None => Null end.

(** One message of a simple query, as [run_simple] and [DbChannel::write] push it. *)
Definition message_values (msg : SimpleQueryMessage) : list Value :=
  match msg with
  | SRow cells => [Array (cell_value <$> cells)]
  | CommandComplete n => if 0 <? n then [object [("rows_affected", jnum n)]] else []
  | OtherMessage => []
  end.

(** [run_simple]. *)
Definition run_simple (pg : Postgres) (statement : str) : result str Value :=
  rows ← map_err (λ e, "execution failed: " ++ e) (simple_query pg statement);
  Ok (object [("type", jstr "result"); ("rows", Array (mjoin (message_values <$> rows)))]).

(** [row.try_get::<_, Option<&str>>(i).ok().flatten()]. *)
Definition text_cell (c : result str (option str)) : option str := match c with Ok o => o | Err _ => None end.

(** [run_parameterized]; a row is read at the indices of the columns. *)
Definition row_value (columns : list str) (row : list (result str (option str))) : Value :=
  Array ((λ i, cell_value (text_cell (default (Err "no such column") (row !! i)))) <$> seq 0 (length columns)).

Definition run_parameterized (pg : Postgres) (statement : str) (params : list str) : result str Value :=
  columns ← map_err (λ e, "prepare failed: " ++ e) (prepare pg statement);
  rows ← map_err (λ e, "execution failed: " ++ e) (query pg statement params);
  Ok (object [("type", jstr "result"); ("columns", Array (jstr <$> columns));
              ("rows", Array (row_value columns <$> rows))]).

Definition connect_failed (e : pg_error) : str := "connect failed (auth or network): " ++ chain e.

(** [execute_one_shot]: the calls made and the result. *)
Definition execute_one_shot (pg : Postgres) (target_uri : str) (operation : Value) (secret : str)
  : list db_call * result str Value :=
  match build_config target_uri operation secret with
  | Err e => ([], Err e)
  | Ok (config, _) =>
      match get_str operation "statement" with
      | Some statement =>
          if is_empty (trim statement) then ([], Err "one-shot requires operation.statement")
          else
            let params := get_strs operation "params" in
            match pg_connect pg config with
            | Err e => ([CConnect config], Err (connect_failed e))
            | Ok _ =>
                match params with
                | [] => ([CConnect config; CSimple statement], run_simple pg statement)
                | _ => (CConnect config :: CPrepare statement ::
                          (if is_ok (prepare pg statement) then [CQuery statement params] else []),
                        run_parameterized pg statement params)
                end
            end
      | None => ([], Err "one-shot requires operation.statement")
      end
  end.

(** [DbBackend::connect]. *)
Definition db_connect (pg : Postgres) (target_uri : str) (operation : Value) (secret : str)
  : list db_call * result str unit :=
  match get_str operation "statement" with
  | Some _ => ([], Err "openers must omit statement; use one-shot intents for single queries")
  | None =>
      match build_config target_uri operation secret with
      | Err e => ([], Err e)
      | Ok (config, _) => ([CConnect config], map_err connect_failed (pg_connect pg config))
      end
  end.

(** ** The session channel *)

Context `{JsonText}.

(** [DbChannel]: the results not yet read. *)
Record DbChannel : Type := { pending_results : list Value }.
Definition channel_new : DbChannel := {| pending_results := [] |}.

(** [DbChannel::write], the client's answer given. *)
Definition db_write (answer : str → result str (list SimpleQueryMessage)) (data : str) (ch : DbChannel)
  : result str unit * DbChannel :=
  if utf8_valid data then
    match answer (trim data) with
    | Err e => (Err ("execution failed: " ++ e), ch)
    | Ok rows => (Ok tt, {| pending_results := pending_results ch ++ mjoin (message_values <$> rows) |})
    end
  else (Err "input is not UTF-8 SQL", ch).

(** One look of [DbChannel::read_batch] at the buffer, which it empties. *)
Definition db_poll (ch : DbChannel) : option OutputBatch * DbChannel :=
  match pending_results ch with
  | [] => (None, ch)
  | vs => (Some {| chunks := [{| stream := "stdout"; data := json_to_string (Array vs) |}];
                   closed := false; exit_code := None |}, {| pending_results := [] |})
  end.

(** [DbChannel::read_batch]: a look, then one after each pause until the
    deadline; [pauses] is what writers add to the buffer during each. *)
Fixpoint db_read_batch (pauses : list (list Value)) (ch : DbChannel) : OutputBatch * DbChannel :=
  match db_poll ch with
  | (Some b, ch') => (b, ch')
  | (None, ch') =>
      match pauses with
      | [] => ({| chunks := []; closed := false; exit_code := None |}, ch')
      | vs :: pauses => db_read_batch pauses {| pending_results := pending_results ch' ++ vs |}
      end
  end.

(** ** Properties *)

(** The endpoint of a signed intent: that of its target URI. *)
Definition pinned (target_uri : str) (operation : Value) (secret : str) (c : Config) : Prop :=
  ∃ ep, parse_pg_uri target_uri = Ok ep ∧ cfg_host c = pg_host ep ∧ cfg_port c = pg_port ep ∧
    (pg_database ep ≠ [] → cfg_dbname c = pg_database ep) ∧
    (∀ db, get_str operation "database" = Some db → cfg_dbname c = db) ∧
    (∀ u, get_str operation "username" = Some u → u ≠ [] → cfg_user c = u) ∧
    (cfg_user c = pg_user ep ∨ get_str operation "username" = Some (cfg_user c)) ∧
    cfg_user c ≠ [] ∧ cfg_password c = secret.

Lemma config_database_spec uri_db op_db db : config_database uri_db op_db = Ok db →
  (uri_db ≠ [] → db = uri_db) ∧ (∀ d, op_db = Some d → db = d).
Proof.
  unfold config_database. destruct (is_empty uri_db) eqn:He.
  - apply is_empty_true in He as ->. destruct op_db; naive_solver.
  - destruct op_db as [d|]; [case_bool_decide|]; naive_solver.
Qed.

Lemma config_user_spec operation ep user : config_user operation ep = Ok user →
  user ≠ [] ∧ (user = pg_user ep ∨ get_str operation "username" = Some user) ∧
  (∀ u, get_str operation "username" = Some u → u ≠ [] → user = u).
Proof.
  unfold config_user. destruct (get_str operation "username") as [[|b u]|], (pg_user ep); cbn; naive_solver.
Qed.

Lemma build_config_pinned target_uri operation secret c u :
  build_config target_uri operation secret = Ok (c, u) → pinned target_uri operation secret c.
Proof.
  unfold build_config. destruct (parse_pg_uri target_uri) as [ep|] eqn:Hp; [|done]. simpl.
  destruct (_ && _); [done|]. destruct (config_database _ _) as [db|] eqn:Hd; [|done]. simpl.
  destruct (config_user _ _) as [user|] eqn:Hu; [|done]. simpl. intros [= <- <-].
  apply config_database_spec in Hd as [Hd1 Hd2]. apply config_user_spec in Hu as (Hu1 & Hu2 & Hu3).
  exists ep. by split_and!.
Qed.

(** Every connection the backend opens, for a one-shot query or a session,
    is to the host and port of the signed target URI, with the secret of the
    intent as the password, in the URI's database when it names one and in the
    operation's when that does (so the two never differ), as a user the intent
    names; the connection comes before any statement, a one-shot run executes
    the intent's statement and nothing else, and opening a session executes
    nothing. *)
Theorem db_endpoint_pinned pg target_uri operation secret :
  (let '(calls, _) := execute_one_shot pg target_uri operation secret in
   calls = [] ∨ ∃ c rest statement, calls = CConnect c :: rest ∧ pinned target_uri operation secret c ∧
     get_str operation "statement" = Some statement ∧ trim statement ≠ [] ∧
     rest ∈ [[]; [CSimple statement]; [CPrepare statement];
             [CPrepare statement; CQuery statement (get_strs operation "params")]]) ∧
  (let '(calls, _) := db_connect pg target_uri operation secret in
   calls = [] ∨ ∃ c, calls = [CConnect c] ∧ pinned target_uri operation secret c).
Proof.
  unfold execute_one_shot, db_connect. split.
  - destruct (build_config _ _ _) as [[c u]|] eqn:Hc; [|by left]. apply build_config_pinned in Hc.
    destruct (get_str operation "statement") as [statement|]; [|by left].
    destruct (is_empty (trim statement)) eqn:He; [by left|].
    assert (trim statement ≠ []) by (intros Ht; by rewrite Ht in He).
    destruct (pg_connect pg c); [|right; exists c, [], statement; split_and!; set_solver].
    destruct (get_strs operation "params") as [|p ps] eqn:Hps;
      [|destruct (is_ok (prepare pg statement))]; right; eexists c, _, statement; split_and!; try done; set_solver.
  - destruct (get_str operation "statement"); [by left|].
    destruct (build_config _ _ _) as [[c u]|] eqn:Hc; [|by left]. right. exists c. split; [done|].
    by eapply build_config_pinned.
Qed.

(** An intent whose two databases differ, or whose engine is another, opens no
    connection. *)
Theorem db_contradiction_refused pg target_uri operation secret ep db :
  parse_pg_uri target_uri = Ok ep → pg_database ep ≠ [] → get_str operation "database" = Some db → db ≠ pg_database ep →
  (execute_one_shot pg target_uri operation secret).1 = [] ∧ is_ok (execute_one_shot pg target_uri operation secret).2 = false ∧
  (db_connect pg target_uri operation secret).1 = [] ∧ is_ok (db_connect pg target_uri operation secret).2 = false.
Proof.
  intros Hp Hne Hdb Hdiff.
  assert (is_ok (build_config target_uri operation secret) = false) as Hb.
  { destruct (build_config target_uri operation secret) as [[c u]|] eqn:Hc; [|done].
    apply build_config_pinned in Hc as (ep' & Hp' & _ & _ & H1 & H2 & _). rewrite Hp in Hp'. injection Hp' as <-.
    destruct Hdiff. rewrite <- (H1 Hne). symmetry. by apply H2. }
  unfold execute_one_shot, db_connect. destruct (build_config _ _ _); [done|].
  by destruct (get_str operation "statement").
Qed.

(** A cell that cannot be read as a string is NULL in the answer. *)
Theorem unreadable_cell_is_null columns row i e : (i < length columns)%nat → row !! i = Some (Err e) →
  ∃ cells, row_value columns row = Array cells ∧ cells !! i = Some Null.
Proof.
  intros Hi Hr. unfold row_value. eexists. split; [done|].
  rewrite list_lookup_fmap, lookup_seq_lt by done. simpl. by rewrite Hr.
Qed.

(** *** The session channel delivers every result once, in order *)

(** A step of the channel: a write with the client's answer, or a look of a
    reader. *)
Inductive channel_op : Type :=
| OpWrite (data : str) (answer : str → result str (list SimpleQueryMessage))
| OpPoll.

(** The batches the readers got, and the channel. *)
Fixpoint channel_run (ops : list channel_op) (ch : DbChannel) : list OutputBatch * DbChannel :=
  match ops with
  | [] => ([], ch)
  | OpWrite data answer :: ops => channel_run ops (db_write answer data ch).2
  | OpPoll :: ops =>
      let '(b, ch) := db_poll ch in
      let '(bs, ch) := channel_run ops ch in
      (option_list b ++ bs, ch)
  end.

(** What a write produced. *)
Definition produced (op : channel_op) : list Value :=
  match op with
  | OpWrite data answer =>
      if utf8_valid data then match answer (trim data) with Ok rows => mjoin (message_values <$> rows) | Err _ => [] end
      else []
  | OpPoll => []
  end.

(** A batch that carries values. *)
Definition batch_of (vs : list Value) : OutputBatch :=
  {| chunks := [{| stream := "stdout"; data := json_to_string (Array vs) |}]; closed := false; exit_code := None |}.

(** Whatever the interleaving of writes and reads, the batches carry the
    results of the successful statements, each once and in the order they ran,
    up to those still in the buffer; no batch is empty. *)
Theorem db_channel_in_order ops ch :
  let '(bs, ch') := channel_run ops ch in
  ∃ vss, bs = batch_of <$> vss ∧ Forall (λ vs, vs ≠ []) vss ∧
    mjoin vss ++ pending_results ch' = pending_results ch ++ mjoin (produced <$> ops).
Proof.
  revert ch. induction ops as [|[data answer|] ops IH]; intros ch; cbn [channel_run fmap list_fmap mjoin list_join produced].
  - exists []. simpl. by rewrite app_nil_r.
  - specialize (IH (db_write answer data ch).2). destruct (channel_run ops _) as [bs ch'].
    destruct IH as (vss & Hbs & Hne & Heq). exists vss. split_and!; [done..|]. unfold mjoin in *. rewrite Heq. unfold db_write.
    destruct (utf8_valid data); [|done]. destruct (answer (trim data)); [|done]. simpl. by rewrite app_assoc.
  - unfold db_poll. destruct (pending_results ch) as [|v vs] eqn:Hp.
    + specialize (IH ch). destruct (channel_run ops ch) as [bs ch']. rewrite Hp in IH. exact IH.
    + specialize (IH {| pending_results := [] |}). destruct (channel_run ops _) as [bs ch'].
      destruct IH as (vss & -> & Hne & Heq). exists ((v :: vs) :: vss). split_and!; [done|by constructor|].
      cbn [mjoin list_join]. unfold mjoin in *. rewrite <- app_assoc. by rewrite Heq.
Qed.

(** A read returns at once what is in the buffer, else the first results that
    arrive, else, at the deadline, an empty batch. *)
Theorem db_read_batch_spec pauses ch :
  db_read_batch pauses ch =
    match find_map (λ vs, match vs with [] => None | _ => Some vs end) (pending_results ch :: pauses) with
    | Some vs => (batch_of vs, {| pending_results := [] |})
    | None => ({| chunks := []; closed := false; exit_code := None |}, ch)
    end.
Proof.
  revert ch. induction pauses as [|vs pauses IH]; intros [[|v pending]]; try done.
  cbn [db_read_batch db_poll pending_results app]. rewrite IH. by destruct vs.
Qed.
End Db.

(** ** Concrete intents *)

Section Witnesses.
#[local] Existing Instances toy_debug toy_json.

(** A server that accepts one password. *)
Definition a_server : Postgres :=
  {| pg_connect c := if bool_decide (cfg_password c = ("pw" : str)) then Ok tt
                     else Err ("db error" : str, ["FATAL: password authentication failed"]);
     simple_query _ := Ok [OtherMessage; SRow [Some ("1" : str); None]; CommandComplete 1];
     prepare _ := Ok ["id"; "name"];
     query _ _ := Ok [[Err "wrong type"; Ok (Some ("n" : str))]] |}.

Definition an_operation (fields : list (str * Value)) : Value :=
  object (("engine", jstr "postgres") :: ("statement", jstr "select 1") :: fields).

Example one_shots :
  execute_one_shot a_server "postgres://u@h:5432/db" (an_operation []) "pw" =
    ([CConnect {| cfg_host := "h"; cfg_port := 5432; cfg_dbname := "db"; cfg_user := "u"; cfg_password := "pw" |};
      CSimple "select 1"],
     Ok (object [("type", jstr "result");
                 ("rows", Array [Array [jstr "1"; Null]; object [("rows_affected", jnum 1)]])])) ∧
  (execute_one_shot a_server "postgres://u@h:5432/db" (an_operation []) "no").2 =
    Err "connect failed (auth or network): db error: FATAL: password authentication failed" ∧
  (execute_one_shot a_server "postgres://u@h:5432/db" (an_operation [("params", Array [jstr "7"])]) "pw").2 =
    Ok (object [("type", jstr "result"); ("columns", Array [jstr "id"; jstr "name"]);
                ("rows", Array [Array [Null; jstr "n"]])]).
Proof. split_and!; vm_compute; reflexivity. Qed.

Lemma db_contradiction_refused_witness :
  (execute_one_shot a_server "postgres://u@h/db" (an_operation [("database", jstr "other")]) "pw").1 = [].
Proof.
  apply (db_contradiction_refused a_server "postgres://u@h/db" (an_operation [("database", jstr "other")]) "pw"
    {| pg_user := "u"; pg_host := "h"; pg_port := 5432; pg_database := "db" |} "other"); try done; vm_compute; reflexivity.
Defined.

Lemma unreadable_cell_is_null_witness :
  ∃ cells, row_value ["id"] [Err "wrong type"] = Array cells ∧ cells !! 0%nat = Some Null.
Proof. apply (unreadable_cell_is_null ["id"] [Err "wrong type"] 0 "wrong type"); simpl; [lia|done]. Defined.
End Witnesses.
