(* ===== verification/Console.v ===== *)
(** The operator's side of the confirmation gate.

    [crates/gateway-core/src/console.rs] (the hub that prompts are written to
    and answers read from), [OperatorGate] of [crates/gateway-core/src/lib.rs]
    with its workers and timeouts, the terminal gate and the console client of
    [crates/cli/src/main.rs], and the endpoint names and timed reads of
    [crates/transport/src/operator_pipe.rs].

    The hub and the gate are a step relation: confirmations, workers, the
    operator's keystrokes, new connections and timeouts interleave freely. *)

From S2P Require Import Prelude Strs Json Extern Toy Protocol Policy Enrollment Replay Identity.
From S2P Require Import AuditChain Session SshCa Gateway.
#[local] Open Scope Z_scope.

(** ** Reading one answer *)

Inductive read_result : Type :=
| Answer (a : option str) (rest : str)
| MoreInput (line : str).

(** The loop of [ConsoleHub::read_answer] over the bytes that are there, with
    the line so far. *)
Fixpoint read_line (line inbox : str) : read_result :=
  match inbox with
  | [] => MoreInput line
  | b :: rest =>
      if bool_decide (b = zb 10) then Answer (Some (from_utf8_lossy line)) rest
      else
        let line := if bool_decide (b = zb 13) then line else line ++ [b] in
        if (64 <? length line)%nat then Answer None rest else read_line line rest
  end.

(** How a stream stands when its bytes are read. *)
Inductive stream_end : Type := StillOpen | AtEof | Broken (e : str).

(** A connected operator: the bytes sent and not yet read, what follows them,
    what was written to it and whether writing fails. *)
Record OperatorStream : Type := {
  inbox : str;
  fin : stream_end;
  outbox : str;
  write_fails : option str;
}.

Definition connected : OperatorStream := {| inbox := []; fin := StillOpen; outbox := []; write_fails := None |}.

(** [ConsoleHub]. *)
Record ConsoleHub : Type := { current : option OperatorStream }.

(** [ConsoleHub::write_prompt]. *)
Definition write_prompt (block : str) (h : ConsoleHub) : result str unit * ConsoleHub :=
  match current h with
  | Some s =>
      match write_fails s with
      | Some e => (Err e, h)
      | None => (Ok tt, {| current := Some {| inbox := inbox s; fin := fin s; outbox := outbox s ++ block;
                                              write_fails := None |} |})
      end
  | None => (Err "no operator console connected", h)
  end.

(** [ConsoleHub::read_answer] from the line read so far: the answer, or still
    waiting with a longer line. *)
Definition read_answer (line : str) (h : ConsoleHub) : (result str (option str) + str) * ConsoleHub :=
  match current h with
  | None => (inl (Ok None), h)
  | Some s =>
      let left rest := {| current := Some {| inbox := rest; fin := fin s; outbox := outbox s;
                                             write_fails := write_fails s |} |} in
      match read_line line (inbox s) with
      | Answer a rest => (inl (Ok a), left rest)
      | MoreInput line =>
          match fin s with
          | StillOpen => (inr line, left [])
          | AtEof => (inl (Ok None), {| current := None |})
          | Broken e => (inl (Err e), {| current := None |})
          end
      end
  end.

(** [spawn_acceptor]: a new operator replaces the one before. *)
Definition accept (s : OperatorStream) (h : ConsoleHub) : ConsoleHub := {| current := Some s |}.

(** ** The gate *)

(** The worker that holds the lock on the operator channel: it has written its
    prompt, then reads with the hub locked. *)
Inductive worker_state : Type :=
| Prompted (id : nat)
| Reading (id : nat) (line : str).

(** A finished answer: the worker, the connection it read from (counted in
    the order of acceptance), the bytes it took off that connection, and what
    it made of them. *)
Record GivenAnswer : Type := { by_worker : nat; conn : nat; raw : str; reply : result str (option str) }.

(** The gate: the hub, the worker at the channel, the workers waiting for it,
    and the outcome [confirm] returned for each confirmation so far.  The rest
    is history: [sent] has every byte an operator sent, per connection; [taken]
    the bytes the worker at the channel has read so far; [given] the finished
    answers. *)
Record Gate : Type := {
  hub : ConsoleHub;
  worker : option worker_state;
  waiting : list nat;
  returned : gmap nat ConfirmOutcome;
  sent : list str;
  taken : str;
  given : list GivenAnswer;
}.

Definition gate_new : Gate :=
  {| hub := {| current := None |}; worker := None; waiting := []; returned := ∅; sent := []; taken := [];
     given := [] |}.

(** The unread bytes of the connected operator, and the bytes that left them
    between two states of the hub. *)
Definition unread (h : ConsoleHub) : str := match current h with Some s => inbox s | None => [] end.
Definition consumed (h h' : ConsoleHub) : str := take (length (unread h) - length (unread h')) (unread h).

(** A worker ends: its outcome counts unless the timeout came first. *)
Definition deliver (id : nat) (o : ConfirmOutcome) (m : gmap nat ConfirmOutcome) : gmap nat ConfirmOutcome :=
  match m !! id with Some _ => m | None => <[id := o]> m end.

Definition answer_outcome (r : result str (option str)) : ConfirmOutcome :=
  gate_confirm (match r with Ok a => Answered a | Err _ => ReadFailed end).

(** The worker takes the channel and writes its prompt. *)
Definition start_worker (block : str) (id : nat) (rest : list nat) (g : Gate) : Gate :=
  match write_prompt block (hub g) with
  | (Ok _, h) => {| hub := h; worker := Some (Prompted id); waiting := rest; returned := returned g;
                    sent := sent g; taken := []; given := given g |}
  | (Err _, h) => {| hub := h; worker := None; waiting := rest;
                     returned := deliver id (gate_confirm PromptFailed) (returned g);
                     sent := sent g; taken := []; given := given g |}
  end.

(** The worker at the channel reads what is there. *)
Definition worker_read (id : nat) (line : str) (g : Gate) : Gate :=
  match read_answer line (hub g) with
  | (inl r, h) => {| hub := h; worker := None; waiting := waiting g;
                     returned := deliver id (answer_outcome r) (returned g); sent := sent g; taken := [];
                     given := given g ++ [{| by_worker := id; conn := pred (length (sent g));
                                             raw := taken g ++ consumed (hub g) h; reply := r |}] |}
  | (inr line, h) => {| hub := h; worker := Some (Reading id line); waiting := waiting g; returned := returned g;
                        sent := sent g; taken := taken g ++ consumed (hub g) h; given := given g |}
  end.

Definition set_hub (g : Gate) (h : ConsoleHub) (sent' : list str) : Gate :=
  {| hub := h; worker := worker g; waiting := waiting g; returned := returned g; sent := sent'; taken := taken g;
     given := given g |}.

(** The history after the connected operator sent [keys]. *)
Definition also_sent (l : list str) (keys : str) : list str := alter (.++ keys) (pred (length l)) l.

Definition type_keys (keys : str) (s : OperatorStream) : OperatorStream :=
  {| inbox := inbox s ++ keys; fin := fin s; outbox := outbox s; write_fails := write_fails s |}.

Definition hang_up (e : stream_end) (s : OperatorStream) : OperatorStream :=
  {| inbox := inbox s; fin := e; outbox := outbox s; write_fails := write_fails s |}.

(** Whether the hub is locked: its lock is held while an answer is read. *)
Definition hub_locked (g : Gate) : bool := match worker g with Some (Reading _ _) => true | _ => false end.

Definition worker_id (g : Gate) : option nat :=
  match worker g with Some (Prompted id) | Some (Reading id _) => Some id | None => None end.

Inductive gate_step (prompt : nat → str) : Gate → Gate → Prop :=
| gs_confirm g id : id ∉ waiting g → worker_id g ≠ Some id → returned g !! id = None →
    gate_step prompt g {| hub := hub g; worker := worker g; waiting := waiting g ++ [id];
                          returned := returned g; sent := sent g; taken := taken g; given := given g |}
| gs_start g id pre post : worker g = None → waiting g = pre ++ id :: post →
    gate_step prompt g (start_worker (prompt id) id (pre ++ post) g)
| gs_read_first g id : worker g = Some (Prompted id) → gate_step prompt g (worker_read id [] g)
| gs_read_more g id line : worker g = Some (Reading id line) → gate_step prompt g (worker_read id line g)
| gs_type g s keys : current (hub g) = Some s → fin s = StillOpen →
    gate_step prompt g (set_hub g {| current := Some (type_keys keys s) |} (also_sent (sent g) keys))
| gs_hang_up g s e : current (hub g) = Some s → e ≠ StillOpen →
    gate_step prompt g (set_hub g {| current := Some (hang_up e s) |} (sent g))
| gs_accept g s : hub_locked g = false → gate_step prompt g (set_hub g (accept s (hub g)) (sent g ++ [inbox s]))
| gs_timeout g id : returned g !! id = None →
    gate_step prompt g {| hub := hub g; worker := worker g; waiting := waiting g;
                          returned := <[id := gate_confirm NoAnswerInTime]> (returned g);
                          sent := sent g; taken := taken g; given := given g |}.

Definition gate_reachable (prompt : nat → str) : Gate → Prop := rtc (gate_step prompt) gate_new.

(** ** The terminal gate and the console client *)

(** [StdioOperator::read_answer]: what [read_line] leaves in the buffer, or its
    error; an empty buffer is the end of the input. *)
Definition stdio_read_answer (r : result str str) : result str (option str) :=
  match r with
  | Ok [] => Ok None
  | Ok line => Ok (Some (reverse (trim_fuel (length line) [[zb 10]; [zb 13]] (reverse line))))
  | Err e => Err e
  end.

(** The reader thread of [cmd_console]: what is printed of the bytes received. *)
Fixpoint console_display (buf input : str) : list str :=
  match input with
  | [] => []
  | b :: rest =>
      if bool_decide (b = zb 10) then from_utf8_lossy (buf ++ [b]) :: console_display [] rest
      else console_display (buf ++ [b]) rest
  end.

(** The line of the operator's terminal, as [cmd_console] sends it. *)
Definition console_send (line : str) : str := line ++ [zb 10].

(** ** operator_pipe.rs *)

Definition is_alnum (b : byte) : bool := in_range 48 57 b || in_range 65 90 b || in_range 97 122 b.
Definition separator (b : byte) : bool := bool_decide (b = Byte.x5c) || bool_decide (b = Byte.x2f).

(** The characters of a name, one byte each: kept, or an underscore. *)
Definition sanitize (s : str) : str :=
  (λ b, if is_alnum b || bool_decide (b = Byte.x2d) || bool_decide (b = Byte.x5f) || bool_decide (b = Byte.x2e)
        then b else Byte.x5f) <$> filter (λ b, cont b = false) s.

(** The text after the last separator. *)
Definition last_part (s : str) : str := reverse (take (default (length s) (position separator (reverse s))) (reverse s)).

Section Pipe.
Context `{Sha256}.

(** [windows_pipe_name]. *)
Definition windows_pipe_name (printname : str) : str :=
  let plain := negb (existsb separator printname) in
  match strip_prefix "\\.\pipe\" printname with
  | Some rest =>
      if negb (is_empty rest) && negb (existsb separator rest) then rest
      else if plain then printname
      else take 40 (sanitize (if is_empty (last_part printname) then printname else last_part printname)) ++ "-" ++
           take 16 (hex_bytes (sha256 printname))
  | None =>
      if plain then printname
      else take 40 (sanitize (if is_empty (last_part printname) then printname else last_part printname)) ++ "-" ++
           take 16 (hex_bytes (sha256 printname))
  end.
End Pipe.

(** What one non-blocking read returns. *)
Inductive poll : Type := PByte (b : byte) | PZero | PNoData | PError (e : str).
Inductive timed_read : Type := TByte (b : byte) | TEof | TTimedOut | TError (e : str).

(** [OperatorStream::read_byte_timeout]: the reads made, each with whether the
    deadline has passed when it is over; [zero_is_eof] is the platform's. *)
Fixpoint read_byte_timeout (zero_is_eof : bool) (polls : list (poll * bool)) : timed_read :=
  match polls with
  | [] => TTimedOut
  | (PByte b, _) :: _ => TByte b
  | (PError e, _) :: _ => TError e
  | (PZero, late) :: rest =>
      if zero_is_eof then TEof else if late then TTimedOut else read_byte_timeout zero_is_eof rest
  | (PNoData, late) :: rest => if late then TTimedOut else read_byte_timeout zero_is_eof rest
  end.

(** ** Properties of the gate *)

(** A confirmation is at one place only, and an outcome other than the timeout
    or a refused prompt is that of the answer its worker read. *)
Record gate_ok (g : Gate) : Prop := {
  ok_nodup : NoDup (waiting g ++ option_list (worker_id g));
  ok_given : NoDup (by_worker <$> given g);
  ok_fresh : ∀ id, id ∈ by_worker <$> given g → is_Some (returned g !! id) ∧ id ∉ waiting g ++ option_list (worker_id g);
  ok_outcome : ∀ id o, returned g !! id = Some o →
    o = TimedOut ∨ (o = Refused ∧ id ∉ waiting g ++ option_list (worker_id g)) ∨
    ∃ x, x ∈ given g ∧ by_worker x = id ∧ o = answer_outcome (reply x);
}.

Lemma deliver_Some id o m k x : deliver id o m !! k = Some x → m !! k = Some x ∨ (k = id ∧ x = o ∧ m !! id = None).
Proof.
  unfold deliver. destruct (m !! id) eqn:Hm; [by left|]. rewrite lookup_insert_Some. naive_solver.
Qed.

Lemma deliver_is_Some id o m : is_Some (deliver id o m !! id).
Proof. unfold deliver. destruct (m !! id) eqn:Hm; [by rewrite Hm|by rewrite lookup_insert_eq]. Qed.

Lemma deliver_mono id o m k x : m !! k = Some x → deliver id o m !! k = Some x.
Proof.
  unfold deliver. destruct (m !! id) eqn:Hm; [done|]. intros Hk. rewrite lookup_insert_ne; [done|congruence].
Qed.

(** The worker [id] leaves the channel with the answer [r]. *)
Lemma gate_ok_finish g x h : gate_ok g → worker_id g = Some (by_worker x) →
  gate_ok {| hub := h; worker := None; waiting := waiting g;
             returned := deliver (by_worker x) (answer_outcome (reply x)) (returned g); sent := sent g; taken := [];
             given := given g ++ [x] |}.
Proof.
  intros [Hn Hg Hf Ho] Hw. rewrite Hw in *. cbn [option_list] in *. set (id := by_worker x) in *.
  assert (id ∉ waiting g) as Hnw.
  { apply NoDup_app in Hn as (_ & Hd & _). intros Hin. by apply (Hd id Hin), list_elem_of_singleton. }
  split; cbn [waiting worker worker_id given returned option_list]; rewrite ?app_nil_r.
  - by apply NoDup_app in Hn as (? & _).
  - rewrite fmap_app. apply NoDup_app. split_and!; [done| |apply NoDup_singleton].
    intros k Hk ->%list_elem_of_singleton. destruct (Hf id Hk) as [_ Hni]. set_solver.
  - intros k. rewrite fmap_app, elem_of_app. cbn. intros [Hk| ->%list_elem_of_singleton].
    + destruct (Hf k Hk) as [[y Hy] Hni]. split; [exists y; by apply deliver_mono|set_solver].
    + split; [apply deliver_is_Some|done].
  - intros k o [Hk|(-> & -> & Hnone)]%deliver_Some.
    + destruct (Ho k o Hk) as [?|[[? Hni]|(y & Hy & Hk' & ->)] ]; [by left|right; left; set_solver|].
      right; right. exists y. set_solver.
    + right; right. exists x. set_solver.
Qed.

(** The steps that change neither the places nor the answers. *)
Lemma gate_ok_same g g' : gate_ok g → waiting g' = waiting g → worker_id g' = worker_id g → returned g' = returned g →
  given g' = given g → gate_ok g'.
Proof. intros [Hn Hg Hf Ho] H1 H2 H3 H4. split; by rewrite ?H1, ?H2, ?H3, ?H4. Qed.

Lemma gate_ok_start block g id pre post : gate_ok g → worker g = None → waiting g = pre ++ id :: post →
  gate_ok (start_worker block id (pre ++ post) g).
Proof.
  intros [Hn Hg Hf Ho] Hw Hwait. unfold worker_id in *. rewrite Hw in *. cbn [option_list] in *. rewrite app_nil_r, Hwait in *.
  assert (∀ k, k ∈ (pre ++ post) ++ [id] ↔ k ∈ pre ++ id :: post) as Hsame by set_solver.
  assert (NoDup ((pre ++ post) ++ [id])) as Hn'.
  { rewrite <- app_assoc. eapply NoDup_Permutation_proper; [|exact Hn]. f_equiv.
    by rewrite (Permutation_app_comm post [id]). }
  unfold start_worker. destruct (write_prompt block (hub g)) as [[[]|e] h];
    split; cbn [waiting worker worker_id given returned option_list] in *; rewrite ?app_nil_r; try done.
  - intros k Hk. rewrite Hsame. by apply Hf.
  - intros k o Hk. rewrite Hsame. by apply Ho.
  - by apply NoDup_app in Hn' as (? & _).
  - intros k Hk. destruct (Hf k Hk) as [[x Hx] Hni]. split; [exists x; by apply deliver_mono|set_solver].
  - intros k o [Hk|(-> & -> & _)]%deliver_Some.
    + destruct (Ho k o Hk) as [?|[[? Hni]|Hr] ]; [by left|right; left; set_solver|by right; right].
    + right; left. split; [done|]. apply NoDup_app in Hn' as (_ & Hd & _).
      intros Hin. by apply (Hd id Hin), list_elem_of_singleton.
Qed.

Lemma worker_read_ok g id line : gate_ok g → worker_id g = Some id → gate_ok (worker_read id line g).
Proof.
  intros Hok Hw. unfold worker_read. destruct (read_answer line (hub g)) as [[r|line'] h].
  { by apply (gate_ok_finish g {| by_worker := id; conn := _; raw := _; reply := r |}). }
  eapply gate_ok_same; [exact Hok|done..].
Qed.

Lemma gate_ok_step prompt g g' : gate_step prompt g g' → gate_ok g → gate_ok g'.
Proof.
  intros Hs Hok. destruct Hs as [g id Hw Hk Hr|g id pre post Hw Hwait|g id Hw|g id line Hw|g s keys Hc Hf|g s e Hc He|g s Hl|g id Hr].
  - destruct Hok as [Hn Hg Hf Ho].
    assert (∀ k, k ∈ (waiting g ++ [id]) ++ option_list (worker_id g) ↔ k = id ∨ k ∈ waiting g ++ option_list (worker_id g))
      as Hsame by set_solver.
    split; cbn [waiting worker given returned] in *; change (worker_id _) with (worker_id g).
    + rewrite <- app_assoc. apply NoDup_app in Hn as (H1 & H2 & H3). apply NoDup_app. split_and!; [done| |].
      * intros k Hin. destruct (decide (k = id)) as [-> |]; [done|]. set_solver.
      * constructor; [|done]. destruct (worker_id g); set_solver.
    + done.
    + intros k Hkg. rewrite Hsame. destruct (Hf k Hkg) as [[x Hx] Hni]. split; [by exists x|].
      intros [-> |?]; [congruence|done].
    + intros k o Hko. rewrite Hsame. destruct (Ho k o Hko) as [?|[[? Hni]|?] ]; [by left| |by right; right].
      right; left. split; [done|]. intros [-> |?]; [congruence|done].
  - by apply gate_ok_start.
  - apply worker_read_ok; [done|]. unfold worker_id. by rewrite Hw.
  - apply worker_read_ok; [done|]. unfold worker_id. by rewrite Hw.
  - by eapply gate_ok_same.
  - by eapply gate_ok_same.
  - by eapply gate_ok_same.
  - destruct Hok as [Hn Hg Hf Ho]. split; cbn [waiting worker given returned]; change (worker_id _) with (worker_id g); try done.
    + intros k Hk. destruct (Hf k Hk) as [Hx Hni]. split; [|done]. destruct (decide (k = id)) as [-> |].
      * by rewrite lookup_insert_eq.
      * by rewrite lookup_insert_ne.
    + intros k o. rewrite lookup_insert_Some. intros [[<- <-]|[_ Hk]]; [by left|by apply Ho].
Qed.

Lemma gate_reachable_ok prompt g : gate_reachable prompt g → gate_ok g.
Proof.
  intros Hr. refine (rtc_ind_r gate_ok gate_new _ _ g Hr).
  - split; cbn; [constructor|constructor|set_solver|]. intros id o. by rewrite lookup_empty.
  - intros x y _ Hs Hx. by eapply gate_ok_step.
Qed.

Lemma gate_parse_approved a : gate_parse a = Approved →
  ∃ line, a = Some line ∧ (to_ascii_lowercase (trim line) = ("y" : str) ∨ to_ascii_lowercase (trim line) = ("yes" : str)).
Proof.
  unfold gate_parse. destruct a as [line|]; [|done]. simpl. intros Hx. exists line. split; [done|].
  destruct (_ || _) eqn:Hb; [|done]. apply orb_true_iff in Hb as [Hb|Hb]; bool_to_prop; auto.
Qed.

(** *** Where the bytes go *)

(** The bytes taken off connection [c], in the order of the answers. *)
Definition pieces (g : Gate) (c : nat) : str := given g ≫= λ x, if decide (conn x = c) then raw x else [].

Lemma read_line_more line x line' y : read_line line x = MoreInput line' → read_line line (x ++ y) = read_line line' y.
Proof.
  revert line. induction x as [|b x IH]; intros line; cbn [app read_line]; [by intros [= ->]|].
  case_bool_decide; [done|]. destruct (64 <? _)%nat; [done|]. apply IH.
Qed.

Lemma read_line_split line x a rest :
  read_line line x = Answer a rest → ∃ y, x = y ++ rest ∧ read_line line y = Answer a [].
Proof.
  revert line. induction x as [|b x IH]; intros line; cbn [read_line]; [done|]. intros Hx.
  destruct (bool_decide (b = zb 10)) eqn:Hb; [|destruct (64 <? _)%nat eqn:Hl].
  - simplify_eq. exists [b]. split; [done|]. cbn [read_line]. by rewrite Hb.
  - simplify_eq. exists [b]. split; [done|]. cbn [read_line]. by rewrite Hb, Hl.
  - destruct (IH _ Hx) as (y & -> & Hy). exists (b :: y). split; [done|]. cbn [app read_line]. by rewrite Hb, Hl.
Qed.

(** Reading takes its bytes off the front of the unread ones. *)
Lemma read_answer_takes line h out h' : read_answer line h = (out, h') →
  unread h = consumed h h' ++ unread h' ∧ (current h = None → current h' = None) ∧
  match out with
  | inl (Ok (Some l)) => read_line line (consumed h h') = Answer (Some l) []
  | inl _ => True
  | inr l => read_line line (consumed h h') = MoreInput l
  end.
Proof.
  assert (∀ x y : str, take (length (x ++ y) - length y) (x ++ y) = x) as Htake.
  { intros x y. rewrite length_app, Nat.add_sub. apply take_app_length. }
  unfold read_answer, consumed, unread. destruct (current h) as [s|] eqn:Hc; [|by intros [= <- <-]; rewrite Hc].
  destruct (read_line line (inbox s)) as [a rest|l] eqn:Hr.
  - destruct (read_line_split _ _ _ _ Hr) as (x & Hx & Hy). intros [= <- <-]. cbn. rewrite Hx, Htake.
    split_and!; [done|done|]. by destruct a.
  - destruct (fin s); intros [= <- <-]; cbn; rewrite Nat.sub_0_r, firstn_all, app_nil_r; done.
Qed.

(** Each connection's bytes are the stretches its answers were read from, in
    order, what the worker at the channel has read, and what is unread. *)
Record bytes_ok (g : Gate) : Prop := {
  by_none : sent g = [] → taken g = [] ∧ current (hub g) = None;
  by_idle : hub_locked g = false → taken g = [];
  by_line : ∀ id line, worker g = Some (Reading id line) → read_line [] (taken g) = MoreInput line;
  by_old : ∀ c bytes, sent g !! c = Some bytes → S c ≠ length (sent g) → pieces g c `prefix_of` bytes;
  by_now : ∀ c bytes, sent g !! c = Some bytes → S c = length (sent g) →
    ∃ rest, bytes = pieces g c ++ taken g ++ unread (hub g) ++ rest ∧ (is_Some (current (hub g)) → rest = []);
  by_conn : ∀ x, x ∈ given g → raw x = [] ∨ (conn x < length (sent g))%nat;
  by_reply : ∀ x l, x ∈ given g → reply x = Ok (Some l) → read_line [] (raw x) = Answer (Some l) [];
}.

Lemma pieces_snoc g x h w wt r t c :
  pieces {| hub := h; worker := w; waiting := wt; returned := r; sent := sent g; taken := t; given := given g ++ [x] |} c =
    pieces g c ++ if decide (conn x = c) then raw x else [].
Proof. unfold pieces. cbn [given]. by rewrite bind_app, bind_singleton. Qed.

Lemma bytes_ok_same g g' : bytes_ok g → hub_locked g' = hub_locked g →
  (∀ id line, worker g' = Some (Reading id line) → worker g = Some (Reading id line)) →
  sent g' = sent g → taken g' = taken g → given g' = given g → unread (hub g') = unread (hub g) →
  (current (hub g') = None ↔ current (hub g) = None) → bytes_ok g'.
Proof.
  intros [Hn Hi Hl Ho Hb Hc Hr] H1 Hw H2 H3 H4 H5 H6. assert (∀ c, pieces g' c = pieces g c) as Hp by (unfold pieces; by rewrite H4).
  split; rewrite ?H1, ?H2, ?H3, ?H4, ?H5; try done.
  - rewrite H6. done.
  - intros id line Hx. eauto.
  - intros c bytes. rewrite Hp. eauto.
  - intros c bytes Hx Hy. rewrite Hp. destruct (Hb c bytes Hx Hy) as (rest & -> & Hz). exists rest. split; [done|].
    rewrite <- !not_eq_None_Some, H6 in *. done.
Qed.

Lemma worker_read_bytes g id line :
  bytes_ok g → read_line [] (taken g) = MoreInput line → bytes_ok (worker_read id line g).
Proof.
  intros Hok Hline. unfold worker_read. destruct (read_answer line (hub g)) as [out h] eqn:Hra.
  destruct (read_answer_takes _ _ _ _ Hra) as (Hun & Hnone & Hout). destruct Hok as [Hn Hi Hl Ho Hb Hc Hr].
  assert (∀ z, is_Some (current h) → is_Some (current (hub g)) ∨ z) as Hsome.
  { intros z [s Hs]. left. destruct (current (hub g)) eqn:Hcur; [done|]. by rewrite Hnone in Hs. }
  destruct out as [r|line'].
  - split; cbn [sent taken hub worker given hub_locked]; try done.
    + intros Hs. destruct (Hn Hs) as [_ Hc']. auto.
    + intros c bytes Hx Hlast. pose proof (lookup_lt_Some _ _ _ Hx). rewrite pieces_snoc. cbn.
      rewrite decide_False by lia. rewrite app_nil_r. eauto.
    + intros c bytes Hx Hlast. rewrite pieces_snoc. cbn. rewrite decide_True by (rewrite <- Hlast; done).
      destruct (Hb c bytes Hx Hlast) as (rest & -> & Hz). exists rest. rewrite Hun, <- !app_assoc. split; [done|].
      intros [?|?]%(Hsome False); [auto|done].
    + intros x [Hx| ->%list_elem_of_singleton]%elem_of_app; [auto|]. cbn.
      destruct (sent g) eqn:Hs; [left|right; simpl; lia]. destruct (Hn eq_refl) as [-> Hcur].
      unfold consumed, unread. by rewrite Hcur, take_nil.
    + intros x l [Hx| ->%list_elem_of_singleton]%elem_of_app; [by auto|]. cbn. intros ->. by rewrite (read_line_more _ _ _ _ Hline).
  - split; cbn [sent taken hub worker given hub_locked]; try done.
    + intros Hs. destruct (Hn Hs) as [-> Hcur]. split; [|auto]. unfold consumed, unread. by rewrite Hcur, take_nil.
    + intros ? ? [= <- <-]. by rewrite (read_line_more _ _ _ _ Hline).
    + intros c bytes Hx Hlast. destruct (Hb c bytes Hx Hlast) as (rest & -> & Hz). exists rest.
      rewrite Hun, <- !app_assoc. split; [done|]. intros [?|?]%(Hsome False); [auto|done].
Qed.

Lemma also_sent_lookup l keys c bytes :
  also_sent l keys !! c = Some bytes → ∃ old, l !! c = Some old ∧ bytes = if decide (S c = length l) then old ++ keys else old.
Proof.
  unfold also_sent. intros Hx. assert (c < length l)%nat as Hlt.
  { apply lookup_lt_Some in Hx. by rewrite length_alter in Hx. }
  case_decide as Hd.
  - rewrite <- Hd in Hx. cbn in Hx. rewrite list_lookup_alter_eq in Hx. destruct (l !! c) as [old|]; simplify_eq/=. eauto.
  - rewrite list_lookup_alter_ne in Hx by lia. eauto.
Qed.

Lemma bytes_ok_type g s keys : bytes_ok g → current (hub g) = Some s →
  bytes_ok (set_hub g {| current := Some (type_keys keys s) |} (also_sent (sent g) keys)).
Proof.
  intros [Hn Hi Hl Ho Hb Hc Hr] Hcur. assert (length (also_sent (sent g) keys) = length (sent g)) as Hlen by apply length_alter.
  split; cbn [sent taken hub worker given set_hub current]; change (hub_locked (set_hub g _ _)) with (hub_locked g); try done.
  - intros Hs. rewrite Hs in Hlen. cbn in Hlen. destruct (sent g) eqn:Hg; [|done]. destruct (Hn eq_refl). congruence.
  - intros c bytes (old & Hold & ->)%also_sent_lookup Hlast. rewrite Hlen in Hlast. rewrite decide_False by done. by apply Ho.
  - intros c bytes (old & Hold & ->)%also_sent_lookup Hlast. rewrite Hlen in Hlast. rewrite decide_True by done.
    destruct (Hb c old Hold Hlast) as (rest & -> & Hz). rewrite Hz by by rewrite Hcur. exists []. split; [|done].
    unfold unread. rewrite Hcur. cbn. by rewrite !app_nil_r, <- !app_assoc.
  - intros x. rewrite Hlen. apply Hc.
Qed.

Lemma bytes_ok_accept g s : bytes_ok g → hub_locked g = false →
  bytes_ok (set_hub g (accept s (hub g)) (sent g ++ [inbox s])).
Proof.
  intros [Hn Hi Hl Ho Hb Hc Hr] Hlock. pose proof (Hi Hlock) as Ht.
  split; cbn [sent taken hub worker given set_hub current accept]; change (hub_locked (set_hub g _ _)) with (hub_locked g); try done.
  - by destruct (sent g).
  - intros c bytes Hx Hlast. rewrite length_app in Hlast. cbn in Hlast.
    apply lookup_snoc_Some in Hx as [[Hlt Hx]|[-> _]]; [|lia]. change (pieces _ c) with (pieces g c).
    destruct (decide (S c = length (sent g))) as [Hd|Hd]; [|by apply Ho].
    destruct (Hb c bytes Hx Hd) as (rest & -> & _). by eexists.
  - intros c bytes Hx Hlast. rewrite length_app in Hlast. cbn in Hlast.
    apply lookup_snoc_Some in Hx as [[Hlt Hx]|[-> <-]]; [lia|]. exists []. split; [|done]. change (pieces _ ?c) with (pieces g c).
    rewrite Ht. cbn. rewrite app_nil_r. enough (pieces g (length (sent g)) = []) as -> by done.
    unfold pieces. clear -Hc. induction (given g) as [|x l IH]; [done|]. rewrite bind_cons.
    rewrite IH by (intros y Hy; apply Hc; by right). rewrite app_nil_r.
    case_decide as Hd; [|done]. destruct (Hc x ltac:(by left)); [done|lia].
  - intros x Hx. rewrite length_app. destruct (Hc x Hx); [by left|right; lia].
Qed.

Lemma write_prompt_unread block h r h' : write_prompt block h = (r, h') →
  unread h' = unread h ∧ (current h' = None ↔ current h = None).
Proof.
  unfold write_prompt, unread. destruct (current h) as [s|] eqn:Hc; [|by intros [= <- <-]; rewrite Hc].
  destruct (write_fails s); intros [= <- <-]; cbn; rewrite ?Hc; done.
Qed.

Lemma bytes_ok_step prompt g g' : gate_step prompt g g' → bytes_ok g → bytes_ok g'.
Proof.
  intros Hs Hok. destruct Hs as [g id Hw Hk Hr|g id pre post Hw Hwait|g id Hw|g id line Hw|g s keys Hc Hf|g s e Hc He|g s Hl|g id Hr].
  - by eapply bytes_ok_same.
  - unfold start_worker. destruct (write_prompt (prompt id) (hub g)) as [r h] eqn:Hwp.
    destruct (write_prompt_unread _ _ _ _ Hwp) as [Hu Hn].
    assert (hub_locked g = false) as Hl by (unfold hub_locked; by rewrite Hw).
    pose proof (by_idle _ Hok Hl) as Ht. destruct r; eapply bytes_ok_same; try done; unfold hub_locked; cbn; by rewrite ?Hw.
  - apply worker_read_bytes; [done|]. rewrite (by_idle _ Hok); [done|]. unfold hub_locked. by rewrite Hw.
  - apply worker_read_bytes; [done|]. by eapply by_line.
  - by apply bytes_ok_type.
  - eapply bytes_ok_same; try done; cbn; unfold unread; by rewrite Hc.
  - by apply bytes_ok_accept.
  - by eapply bytes_ok_same.
Qed.

Lemma gate_reachable_bytes prompt g : gate_reachable prompt g → bytes_ok g.
Proof.
  intros Hr. refine (rtc_ind_r bytes_ok gate_new _ _ g Hr).
  - split; cbn; try done; intros; try (by apply elem_of_nil in H); set_solver.
  - intros x y _ Hs Hx. by eapply bytes_ok_step.
Qed.

(** A line the loop accepts: everything up to the first line feed, at most 64
    bytes, carriage returns dropped. *)
Lemma read_line_text line x l : read_line line x = Answer (Some l) [] →
  ∃ body, x = body ++ [zb 10] ∧ (zb 10 ∉ body) ∧ l = from_utf8_lossy (line ++ filter (λ b, b ≠ zb 13) body).
Proof.
  revert line. induction x as [|b x IH]; intros line; cbn [read_line]; [done|].
  case_bool_decide as Hb.
  - intros [= <- ->]. exists []. subst b. split_and!; [done|set_solver|by rewrite app_nil_r].
  - destruct (64 <? _)%nat; [done|]. intros (body & -> & Hno & ->)%IH. exists (b :: body).
    split_and!; [done|set_solver|]. rewrite filter_cons. case_bool_decide as Hr.
    + rewrite decide_False by (intros Hx; by apply Hx). done.
    + rewrite decide_True by done. by rewrite <- app_assoc.
Qed.

(** C22: No approval without a yes of its own.  Under every interleaving of
    confirmations, keystrokes, connections, disconnections and timeouts: each
    worker gives one answer at most; on every connection the bytes the answers
    were read from are consecutive stretches, from the start, of what was sent
    there, so no byte counts for two; and a confirmation was approved only if
    its own worker's stretch is one line that says [y] or [yes]. *)
Theorem approval_needs_yes prompt g : gate_reachable prompt g →
  NoDup (by_worker <$> given g) ∧
  (∀ c bytes, sent g !! c = Some bytes → pieces g c `prefix_of` bytes) ∧
  ∀ id, returned g !! id = Some Approved →
    ∃ x body, x ∈ given g ∧ by_worker x = id ∧ (conn x < length (sent g))%nat ∧
      raw x = body ++ [zb 10] ∧ (zb 10 ∉ body) ∧
      to_ascii_lowercase (trim (from_utf8_lossy (filter (λ b, b ≠ zb 13) body))) ∈ ["y" : str; "yes" : str].
Proof.
  intros Hr. pose proof (gate_reachable_bytes _ _ Hr) as Hby. apply gate_reachable_ok in Hr as [_ Hg _ Ho].
  split_and!; [done| |].
  - intros c bytes Hx. destruct (decide (S c = length (sent g))) as [Hd|Hd]; [|by eapply by_old].
    destruct (by_now _ Hby c bytes Hx Hd) as (rest & -> & _). by eexists.
  - intros id Hid. destruct (Ho id _ Hid) as [?|[[? _]|(x & Hin & <- & Ha)] ]; try done.
    symmetry in Ha. unfold answer_outcome in Ha. destruct (reply x) as [a|e] eqn:Hrep; [|done].
    apply gate_parse_approved in Ha as (line & -> & Hy).
    destruct (read_line_text _ _ _ (by_reply _ Hby _ _ Hin Hrep)) as (body & Hraw & Hno & ->).
    exists x, body. split_and!; try done; [|set_solver].
    destruct (by_conn _ Hby x Hin) as [He|]; [|done]. rewrite He in Hraw. by destruct body.
Qed.

(** Outcomes are final: a late answer never changes one. *)
Lemma outcome_final_step prompt g g' id o : gate_step prompt g g' → returned g !! id = Some o → returned g' !! id = Some o.
Proof.
  intros Hs Hid. destruct Hs as [ |g k pre post Hw Hwait|g k Hw|g k line Hw| | | |g k Hr]; try done.
  - unfold start_worker. destruct (write_prompt _ _) as [[[]|] h]; [done|]. by apply deliver_mono.
  - unfold worker_read. destruct (read_answer _ _) as [[r|] h]; [by apply deliver_mono|done].
  - unfold worker_read. destruct (read_answer _ _) as [[r|] h]; [by apply deliver_mono|done].
  - cbn. rewrite lookup_insert_ne; [done|congruence].
Qed.

Theorem outcome_final prompt g g' id o : rtc (gate_step prompt) g g' → returned g !! id = Some o →
  returned g' !! id = Some o.
Proof. induction 1 as [|x y z Hs _ IH]; [done|]. intros Hx. apply IH. by eapply outcome_final_step. Qed.

(** *** Progress *)

Lemma read_line_plain line s rest : zb 10 ∉ s → zb 13 ∉ s → (length line + length s ≤ 64)%nat →
  read_line line (s ++ zb 10 :: rest) = Answer (Some (from_utf8_lossy (line ++ s))) rest.
Proof.
  revert line. induction s as [|b s IH]; intros line Hn Hr Hl; cbn [app read_line].
  { by rewrite bool_decide_true, app_nil_r. }
  apply not_elem_of_cons in Hn as [Hb Hn], Hr as [Hb' Hr]. rewrite !bool_decide_false by congruence.
  rewrite length_app. cbn [length] in *. destruct (64 <? _)%nat eqn:Hx; [apply Nat.ltb_lt in Hx; lia|].
  rewrite IH by (try done; rewrite length_app; simpl; lia). by rewrite <- app_assoc.
Qed.


(** With no operator connected a confirmation is refused as soon as its worker
    has the channel. *)
Theorem no_operator_refuses prompt g id pre post :
  worker g = None → waiting g = pre ++ id :: post → returned g !! id = None → current (hub g) = None →
  ∃ g', gate_step prompt g g' ∧ returned g' !! id = Some Refused.
Proof.
  intros Hw Hwait Hret Hc. eexists. split; [by eapply gs_start|].
  unfold start_worker, write_prompt. rewrite Hc. cbn [returned]. unfold deliver. rewrite Hret. by rewrite lookup_insert_eq.
Qed.

(** *** What was typed before the prompt answers it *)

(** A line one byte longer than an answer may be, ending in "y". *)
Definition long_line : str := replicate 65 Byte.x78 ++ "y" ++ [zb 10].

(** An overlong line refuses the confirmation it was meant for, and its tail
    approves the next, whose prompt had not been written. *)
Theorem overlong_answer_approves_next prompt :
  ∃ g g', gate_reachable prompt g ∧ rtc (gate_step prompt) g g' ∧
    current (hub g) = Some (type_keys long_line {| inbox := []; fin := StillOpen; outbox := prompt 1%nat; write_fails := None |}) ∧
    waiting g = [2%nat] ∧
    (∃ s, current (hub g') = Some s ∧ inbox s = [] ∧ outbox s = prompt 1%nat ++ prompt 2%nat) ∧
    returned g' !! 1%nat = Some Refused ∧ returned g' !! 2%nat = Some Approved.
Proof.
  eexists _, _. split.
  { eapply rtc_l; [apply (gs_accept _ _ connected); done|].
    eapply rtc_l; [apply (gs_confirm _ _ 1); [set_solver|done|done]|].
    eapply rtc_l; [apply (gs_confirm _ _ 2); [set_solver|done|done]|].
    eapply rtc_l; [eapply (gs_start _ _ 1 []); done|].
    eapply rtc_l; [eapply (gs_type _ _ _ long_line); reflexivity|]. apply rtc_refl. }
  split.
  { eapply rtc_l; [by apply gs_read_first|]. eapply rtc_l; [by eapply (gs_start _ _ 2 [])|].
    eapply rtc_l; [by apply gs_read_first|]. apply rtc_refl. }
  split_and!; try reflexivity. eexists. split_and!; reflexivity.
Qed.

(** *** What the console client shows *)

Lemma console_display_app buf s t : zb 10 ∉ s → console_display buf (s ++ t) = console_display (buf ++ s) t.
Proof.
  revert buf. induction s as [|b s IH]; intros buf Hn; cbn [app console_display]; [by rewrite app_nil_r|].
  apply not_elem_of_cons in Hn as [Hb Hn]. rewrite bool_decide_false by congruence. rewrite IH by done.
  by rewrite <- app_assoc.
Qed.

Lemma console_display_end buf s t : zb 10 ∉ t → console_display buf (s ++ zb 10 :: t) = console_display buf (s ++ [zb 10]).
Proof.
  intros Ht. revert buf. induction s as [|b s IH]; intros buf; cbn [app console_display].
  - rewrite bool_decide_true by done. f_equal. rewrite <- (app_nil_r t), console_display_app by done. done.
  - case_bool_decide; [f_equal|]; apply IH.
Qed.

(** The question itself is not shown: the client prints whole lines only, and
    the prompt ends without one. *)
Theorem question_not_shown ctx :
  ∃ facts, gate_render ctx = facts ++ [zb 10] ++ "Approve? [y/N]: " ∧
    console_display [] (gate_render ctx) = console_display [] (facts ++ [zb 10]).
Proof.
  set (facts := [zb 10] ++ "CHAPERONE CONFIRMATION" ++ [zb 10] ++ "  agent:     " ++ cc_agent_id ctx ++
    [zb 10] ++ "  target:    " ++ cc_target_label ctx ++ " (" ++ cc_target_uri ctx ++ ")" ++
    [zb 10] ++ "  mechanism: " ++ cc_mechanism ctx ++ [zb 10] ++ "  action:    " ++ cc_summary ctx).
  assert (gate_render ctx = facts ++ zb 10 :: "Approve? [y/N]: ") as Hr.
  { unfold gate_render, facts. by rewrite <- !app_assoc. }
  exists facts. split; [done|]. rewrite Hr. apply console_display_end.
  apply contains_byte_false. vm_compute. reflexivity.
Qed.

(** Two requests with the same prompt: the label of one spells out the rest of
    the other's prompt. *)
Theorem prompt_can_be_forged :
  ∃ c1 c2, gate_render c1 = gate_render c2 ∧ cc_target_uri c1 ≠ cc_target_uri c2.
Proof.
  exists {| cc_agent_id := "a"; cc_target_label := "x"; cc_target_uri := "ssh://safe)" ++ [zb 10] ++ "  mechanism: m (ssh://prod";
            cc_mechanism := "m"; cc_summary := "s" |}.
  exists {| cc_agent_id := "a"; cc_target_label := "x (ssh://safe)" ++ [zb 10] ++ "  mechanism: m"; cc_target_uri := "ssh://prod";
            cc_mechanism := "m"; cc_summary := "s" |}.
  split; [vm_compute; reflexivity|discriminate].
Qed.

(** ** Endpoint names *)

Lemma separator_false_alnum b : is_alnum b = true → separator b = false.
Proof. by destruct b. Qed.

Lemma sanitize_plain s : Forall (λ b, separator b = false) (sanitize s).
Proof.
  unfold sanitize. apply Forall_fmap, Forall_forall. intros b _. simpl. destruct (is_alnum b) eqn:Ha; simpl.
  { by apply separator_false_alnum. }
  repeat case_bool_decide; simpl; subst; done.
Qed.

Lemma hex_plain b : Forall (λ b, separator b = false) (hex_bytes b).
Proof.
  apply Forall_forall. intros c Hc. destruct (separator c) eqn:Hs; [|done]. exfalso.
  destruct (hex_value c) eqn:Hv; [by destruct c|by eapply hex_no].
Qed.

Lemma plain_existsb s : Forall (λ b, separator b = false) s ↔ existsb separator s = false.
Proof. induction s as [|b s IH]; simpl; [done|]. by rewrite Forall_cons, orb_false_iff, IH. Qed.

(** A pipe name never has a separator; it is short when it stands for a path. *)
Theorem windows_pipe_name_flat `{Sha256} printname :
  existsb separator (windows_pipe_name printname) = false ∧
  (windows_pipe_name printname = printname ∨ strip_prefix "\\.\pipe\" printname = Some (windows_pipe_name printname) ∨
   (length (windows_pipe_name printname) ≤ 57)%nat).
Proof.
  unfold windows_pipe_name.
  set (flat := take 40 _ ++ "-" ++ take 16 _).
  assert (existsb separator flat = false ∧ (length flat ≤ 57)%nat) as [Hflat Hlen].
  { split.
    - apply plain_existsb. unfold flat. rewrite !Forall_app. split_and!; [apply Forall_take, sanitize_plain|by repeat constructor|].
      apply Forall_take, hex_plain.
    - unfold flat. rewrite !length_app, !length_take. cbn [length]. lia. }
  assert (∀ b : bool, b = negb (existsb separator printname) →
    existsb separator (if b then printname else flat) = false ∧
    ((if b then printname else flat) = printname ∨ (length (if b then printname else flat) ≤ 57)%nat)) as Hrest.
  { intros [] Hb; [|auto]. symmetry in Hb. apply negb_true_iff in Hb. auto. }
  destruct (strip_prefix "\\.\pipe\" printname) as [rest|].
  - destruct (is_empty rest), (existsb separator rest) eqn:Hs; cbn [negb andb]; try (destruct (Hrest _ eq_refl); tauto).
  - destruct (Hrest _ eq_refl). tauto.
Qed.

(** ** Concrete gates *)

Section Witnesses.

Definition a_prompt (id : nat) : str := "approve? ".

(** One confirmation waits, an operator is connected. *)
Definition a_gate : Gate :=
  {| hub := {| current := Some connected |}; worker := None; waiting := [7%nat]; returned := ∅; sent := [[]]; taken := []; given := [] |}.

Lemma a_gate_reachable : gate_reachable a_prompt a_gate.
Proof.
  eapply rtc_l; [apply (gs_accept _ _ connected); done|].
  eapply rtc_l; [apply (gs_confirm _ _ 7); [set_solver|done|done]|]. apply rtc_refl.
Qed.

(** The same after the operator typed [Yes]. *)
Definition a_yes : Gate :=
  worker_read 7 [] (set_hub (start_worker (a_prompt 7) 7 [] a_gate)
    {| current := Some (type_keys ("Yes" ++ [zb 13; zb 10]) {| inbox := []; fin := StillOpen; outbox := a_prompt 7; write_fails := None |}) |}
    (also_sent [[]] ("Yes" ++ [zb 13; zb 10]))).

Lemma a_yes_reachable : gate_reachable a_prompt a_yes.
Proof.
  eapply rtc_r; [|by apply gs_read_first]. eapply rtc_r; [|by eapply gs_type].
  eapply rtc_r; [apply a_gate_reachable|]. by eapply (gs_start _ _ 7 []).
Qed.

Lemma approval_needs_yes_witness :
  returned a_yes !! 7%nat = Some Approved ∧
  ∃ x body, x ∈ given a_yes ∧ by_worker x = 7%nat ∧ raw x = body ++ [zb 10].
Proof.
  assert (returned a_yes !! 7%nat = Some Approved) as Hy by (vm_compute; reflexivity). split; [exact Hy|].
  destruct (proj2 (proj2 (approval_needs_yes a_prompt a_yes a_yes_reachable)) 7%nat Hy) as (x & body & Hin & Hid & _ & Hraw & _).
  by exists x, body.
Defined.

End Witnesses.
