(* ===== verification/UiWeb.v ===== *)
(** The operator UI's front: [crates/ui/src/lib.rs], [token.rs], and the text
    functions of [render.rs] and [setup.rs].

    Requests and responses as the handlers see them, the guard on host and
    origin, the token gate, the token page's submit, the token file, HTML
    escaping and URL encoding.  The handlers behind the gates are in [UiOps]. *)

From S2P Require Import Prelude Strs Json Extern Toy Protocol.
#[local] Open Scope Z_scope.

(** ** render.rs *)

(** [esc], byte by byte: the characters it replaces are ASCII. *)
Definition esc_byte (b : byte) : str :=
  if decide (b = Byte.x26) then "&amp;"
  else if decide (b = Byte.x3c) then "&lt;"
  else if decide (b = Byte.x3e) then "&gt;"
  else if decide (b = Byte.x22) then "&quot;"
  else if decide (b = Byte.x27) then "&#39;"
  else [b].
Definition esc (raw : str) : str := mjoin (esc_byte <$> raw).

(** Markup is written here with a backtick for the double quote. *)
Definition html (s : str) : str := (λ b, if decide (b = Byte.x60) then Byte.x22 else b) <$> s.

(** [field]. *)
Definition field (label input : str) : str :=
  "<p><label><strong>" ++ esc label ++ "</strong><br>" ++ input ++ "</label></p>".

(** [effect_badge]. *)
Definition effect_badge (effect : str) : str :=
  let class := if decide (effect = ("allow" : str)) then "allow"
               else if decide (effect = ("deny" : str)) then "deny" else "confirm" in
  html "<span class=`badge " ++ class ++ html "`>" ++ esc effect ++ "</span>".

(** The stylesheet of [layout]. *)
Definition style : str :=
  "body{font-family:system-ui,sans-serif;margin:0;background:#f6f7f9;color:#1a1d21}" ++
  "header{background:#101418;color:#fff;padding:.8rem 1.2rem;display:flex;gap:1.2rem;align-items:center}" ++
  "header a{color:#9fd0ff;text-decoration:none;font-weight:600}" ++
  "main{max-width:56rem;margin:1.2rem auto;padding:0 1rem}h1{font-size:1.3rem}" ++
  " h2{font-size:1.05rem;margin-top:1.6rem}table{border-collapse:collapse;width:100%;background:#fff}" ++
  "th,td{border:1px solid #d8dde3;padding:.45rem .6rem;text-align:left;font-size:.92rem}" ++
  "th{background:#eef1f4}" ++
  "input,select,textarea{font:inherit;padding:.35rem;border:1px solid #b8c0c8;border-radius:4px;width:100%;box-sizing:border-box}" ++
  "form.inline{display:inline}" ++
  ".card{background:#fff;border:1px solid #d8dde3;border-radius:6px;padding:1rem 1.2rem;margin-bottom:1rem}" ++
  ".ok{background:#e5f6ec;border:1px solid #9adbb4;padding:.55rem .8rem;border-radius:6px;margin:.6rem 0}" ++
  ".err{background:#fdeceb;border:1px solid #f2a69d;padding:.55rem .8rem;border-radius:6px;margin:.6rem 0}" ++
  ".halt{background:#2b0b0b;color:#ffd9d4;border:1px solid #a33;padding:.7rem .9rem;border-radius:6px;margin:.6rem 0;font-weight:600}" ++
  ".badge{font-size:.8rem;padding:.15rem .5rem;border-radius:10px;border:1px solid #b8c0c8;background:#eef1f4}" ++
  ".allow{background:#e5f6ec}.deny{background:#fdeceb}.confirm{background:#fdf6e3}" ++
  ".muted{color:#66707a;font-size:.85rem}" ++
  "button{font:inherit;padding:.4rem .9rem;border-radius:4px;border:1px solid #2b62a8;background:#2b62a8;color:#fff;cursor:pointer}" ++
  "button.danger{background:#a83232;border-color:#a83232}" ++
  ".grid{display:grid;grid-template-columns:minmax(0,1fr) minmax(0,1fr);gap:1rem}" ++
  "code{background:#eef1f4;padding:.05rem .3rem;border-radius:3px}".

(** [layout]; markup is written with [html]. *)
Definition nav_link (l : str * str) : str := html "<a href=`" ++ l.1 ++ html "`>" ++ l.2 ++ "</a>".
Definition nav : list (str * str) :=
  [("/", "Status"); ("/rules", "Rules"); ("/secrets", "Secrets"); ("/agents", "Agents"); ("/setup", "Setup")].
Definition banner (class : str) (m : option str) : str :=
  match m with Some m => html "<div class=`" ++ class ++ html "`>" ++ esc m ++ "</div>" | None => [] end.
Definition halt_banner (halted : option str) : str :=
  match halted with
  | Some reason => html "<div class=`halt`>Gateway halted — brokering stopped. " ++ esc reason ++
                   " Restart <code>chaperone serve</code> to resume.</div>"
  | None => []
  end.

Definition layout (title : str) (setup_pending : Z) (halted flash_ok flash_err : option str) (body : str) : str :=
  html "<!doctype html><html lang=`en`><head><meta charset=`utf-8`>" ++
  html "<meta name=`viewport` content=`width=device-width,initial-scale=1`>" ++
  "<title>Chaperone — " ++ esc title ++ "</title><style>" ++ style ++ "</style></head><body>" ++
  html "<header><strong style=`letter-spacing:.06em`>CHAPERONE</strong>" ++
  mjoin (nav_link <$> nav) ++
  (if 0 <? setup_pending then
     html "<span class=`badge` style=`margin-left:auto;border-color:#e6b35a;background:#3a2f14;color:#ffdf9e`>" ++
     show setup_pending ++ " setup step" ++ (if setup_pending =? 1 then [] else "s") ++ " pending</span>"
   else []) ++
  "</header><main>" ++
  halt_banner halted ++ banner "ok" flash_ok ++ banner "err" flash_err ++ body ++ "</main></body></html>".

(** ** setup.rs: [urlenc] *)

Definition unreserved (b : byte) : bool :=
  in_range 65 90 b || in_range 97 122 b || in_range 48 57 b ||
  bool_decide (b ∈ [Byte.x2d; Byte.x5f; Byte.x2e; Byte.x7e]).
Definition upper_hex (n : Z) : byte := if n <? 10 then zb (48 + n) else zb (55 + n).
Definition urlenc_byte (b : byte) : str :=
  if unreserved b then [b] else [Byte.x25; upper_hex (bz b / 16); upper_hex (bz b mod 16)].
Definition urlenc (s : str) : str := mjoin (urlenc_byte <$> s).

(** ** lib.rs: queries and cookies *)

(** The UTF-8 bytes of the character with code [n], [n < 256]. *)
Definition latin1 (n : Z) : str :=
  if n <? 128 then [zb n] else [zb (192 + n / 64); zb (128 + n mod 64)].

(** [percent_decode]. *)
Fixpoint percent_decode (s : str) : str :=
  match s with
  | [] => []
  | b :: rest =>
      let plain := (if decide (b = Byte.x2b) then " " else latin1 (bz b)) ++ percent_decode rest in
      if decide (b = Byte.x25) then
        match rest with
        | h :: l :: rest' =>
            match hex_value h, hex_value l with
            | Some x, Some y => latin1 (16 * x + y) ++ percent_decode rest'
            | _, _ => plain
            end
        | _ => plain
        end
      else plain
  end.

(** [parse_query_value]. *)
Definition parse_query_value (qs key : str) : option str :=
  percent_decode <$> find_map (strip_prefix (key ++ "=")) (split Byte.x26 qs).

(** A request, as far as the layers and the handlers look at it. *)
Record WebRequest : Type := {
  rq_method : str;
  rq_path : str;
  rq_query : option str;
  rq_host : option str;
  rq_origin : option str;
  rq_cookie : option str;
  rq_form : list (str * str);
}.

Record WebResponse : Type := { rs_code : Z; rs_location : option str; rs_cookie : option str; rs_body : str }.

Definition redirect (to : str) : WebResponse := {| rs_code := 303; rs_location := Some to; rs_cookie := None; rs_body := [] |}.
Definition forbidden (why : str) : WebResponse := {| rs_code := 403; rs_location := None; rs_cookie := None; rs_body := why |}.

(** [HeaderValue::to_str] and the check of a new header value. *)
Definition header_str (h : str) : option str :=
  if forallb (λ b, in_range 32 126 b || bool_decide (b = Byte.x09)) h then Some h else None.
Definition header_valid (h : str) : bool :=
  forallb (λ b, (32 <=? bz b) && negb (bz b =? 127) || bool_decide (b = Byte.x09)) h.

Definition COOKIE_NAME : str := "chaperone_ui".
Definition TOKEN_PARAM : str := "token".

(** [extract_cookie]. *)
Definition extract_cookie (header : option str) : option str :=
  h ← header; line ← header_str h;
  find_map (λ pair, strip_prefix (COOKIE_NAME ++ "=") (trim pair)) (split Byte.x3b line).

(** [strip_token_from_query]. *)
Definition strip_token_from_query (r : WebRequest) : str :=
  match rq_query r with
  | None => rq_path r
  | Some qs =>
      match filter (λ p, starts_with (TOKEN_PARAM ++ "=") p = false) (split Byte.x26 qs) with
      | [] => rq_path r
      | kept => rq_path r ++ "?" ++ join "&" kept
      end
  end.

(** [cookie_redirect]. *)
Definition cookie_redirect (to token : str) : WebResponse :=
  let c := COOKIE_NAME ++ "=" ++ token ++ "; HttpOnly; SameSite=Strict; Path=/; Max-Age=86400" in
  if header_valid to && header_valid c
  then {| rs_code := 303; rs_location := Some to; rs_cookie := Some c; rs_body := [] |}
  else {| rs_code := 500; rs_location := None; rs_cookie := None; rs_body := [] |}.

(** [safe_next]. *)
Definition safe_next (raw : str) : str :=
  if starts_with "/" raw && negb (starts_with "//" raw) && negb (contains_byte (zb 10) raw) then raw else "/".

(** ** token.rs *)

(** [constant_time_eq]: the differences of all bytes, or-ed together. *)
Definition constant_time_eq (a b : str) : bool :=
  if (length a =? length b)%nat then
    fold_left (λ diff xy, Z.lor diff (Z.lxor (bz xy.1) (bz xy.2))) (zip a b) 0 =? 0
  else false.

Record UiToken : Type := { raw : str }.

(** [UiToken::verify]. *)
Definition token_verify (t : UiToken) (candidate : str) : bool := constant_time_eq (raw t) candidate.

Section Token.
Context `{Base64}.

(** [rotate]: the token and the file, unless writing fails. *)
Definition rotate (entropy : str) (f : option str) (io : option str) : result str str * option str :=
  let token := encode_signature entropy in
  match io with Some e => (Err e, f) | None => (Ok token, Some token) end.

(** [load]; [path] is the displayed path. *)
Definition load_token (path : str) (read : result str str) : result str UiToken :=
  match read with
  | Err e => Err ("cannot read UI token at " ++ path ++ ": " ++ e)
  | Ok text =>
      let r := trim text in
      decoded ← map_err (λ e, "UI token at " ++ path ++ " is not valid base64url: " ++ e) (decode_signature r);
      if decide (length decoded = 32%nat) then Ok {| raw := r |}
      else Err ("UI token at " ++ path ++ " decodes to " ++ show (zlen decoded) ++ " bytes, not 32")
  end.
End Token.

(** ** The layers *)

(** [loopback_guard]: the refusal, or the request passes. *)
Definition allowed_hosts (port : Z) : list str := ["127.0.0.1:" ++ show port; "localhost:" ++ show port].
Definition host_ok (port : Z) (r : WebRequest) : bool :=
  match rq_host r ≫= header_str with Some h => bool_decide (h ∈ allowed_hosts port) | None => false end.
Definition origin_ok (port : Z) (r : WebRequest) : bool :=
  match rq_origin r with
  | None => true
  | Some o => bool_decide (default [] (header_str o) ∈ (λ a, "http://" ++ a) <$> allowed_hosts port)
  end.
Definition loopback_guard (port : Z) (r : WebRequest) : option WebResponse :=
  if host_ok port r && origin_ok port r then None
  else Some (forbidden ("refused: this UI answers only on http://127.0.0.1" ++ [zb 10])).

(** [token_gate]. *)
Definition token_gate (t : UiToken) (r : WebRequest) : option WebResponse :=
  if decide (rq_path r = ("/token" : str)) then None
  else if match extract_cookie (rq_cookie r) with Some c => token_verify t c | None => false end then None
  else if decide (rq_method r = ("GET" : str)) then
    match rq_query r ≫= λ qs, parse_query_value qs TOKEN_PARAM with
    | Some provided =>
        if token_verify t provided then Some (cookie_redirect (strip_token_from_query r) provided)
        else Some (redirect ("/token?next=" ++ rq_path r))
    | None => Some (redirect ("/token?next=" ++ rq_path r))
    end
  else Some (forbidden "refused: a valid UI access token is required (run 'chaperone ui-token show')").

(** A field of the submitted form, as the derived deserializers read it: a
    field given twice is an error, one that is missing may be. *)
Definition opt_field (r : WebRequest) (k : str) : option (option str) :=
  match filter (λ kv, kv.1 = k) (rq_form r) with
  | [] => Some None
  | [kv] => Some (Some kv.2)
  | _ => None
  end.
Definition form_str (r : WebRequest) (k : str) : option str := o ← opt_field r k; o.
Definition form_default (r : WebRequest) (k : str) : option str := o ← opt_field r k; Some (default [] o).

(** [token_submit]. *)
Definition token_submit (t : UiToken) (token next : str) : WebResponse :=
  if token_verify t (trim token) then cookie_redirect (safe_next next) (trim token)
  else redirect ("/token?err=" ++ urlenc "that token does not match").

(** ** Properties *)

(** *** The comparison *)

Lemma lor_zero a b : 0 ≤ a → 0 ≤ b → Z.lor a b = 0 ↔ a = 0 ∧ b = 0.
Proof. intros _ _. rewrite Z.lor_eq_0_iff. done. Qed.

Lemma diff_fold l d : 0 ≤ d →
  fold_left (λ diff xy, Z.lor diff (Z.lxor (bz xy.1) (bz xy.2))) l d = 0 ↔
  d = 0 ∧ Forall (λ xy : byte * byte, xy.1 = xy.2) l.
Proof.
  revert d. induction l as [|[x y] l IH]; intros d Hd; cbn [fold_left fst snd].
  { split; [|by intros [? _]]. by intros ->. }
  assert (0 ≤ Z.lxor (bz x) (bz y)) as Hx.
  { pose proof (bz_range x). pose proof (bz_range y). apply Z.lxor_nonneg. lia. }
  rewrite IH by (apply Z.lor_nonneg; lia). rewrite lor_zero by done. rewrite Forall_cons, Z.lxor_eq_0_iff.
  cbn. split; [|naive_solver]. intros [[-> Hb] Hf]. split_and!; [done| |done]. by apply bz_inj.
Qed.

Lemma zip_eq {A} (a b : list A) : length a = length b → Forall (λ xy : A * A, xy.1 = xy.2) (zip a b) ↔ a = b.
Proof.
  revert b. induction a as [|x a IH]; intros [|y b] Hl; try done; simpl in *.
  rewrite Forall_cons, IH by lia. cbn. naive_solver.
Qed.

(** The comparison in constant time is equality. *)
Theorem constant_time_eq_spec a b : constant_time_eq a b = bool_decide (a = b).
Proof.
  unfold constant_time_eq. destruct (Nat.eqb_spec (length a) (length b)) as [Hl|Hl].
  - apply Bool.eq_iff_eq_true. rewrite Z.eqb_eq, bool_decide_eq_true, diff_fold, zip_eq by done. naive_solver.
  - symmetry. apply bool_decide_eq_false. congruence.
Qed.

Lemma token_verify_spec t c : token_verify t c = true ↔ c = raw t.
Proof. unfold token_verify. rewrite constant_time_eq_spec, bool_decide_eq_true. naive_solver. Qed.

(** A rotated token is loaded again, and then only it is accepted. *)
Theorem rotate_load `{Base64} path entropy f : length entropy = 32%nat →
  ∃ token, rotate entropy f None = (Ok token, Some token) ∧
    load_token path (Ok token) = Ok {| raw := token |} ∧ ∀ c, token_verify {| raw := token |} c = true ↔ c = token.
Proof.
  intros He. exists (encode_signature entropy). split; [done|]. split; [|intros c; by rewrite token_verify_spec].
  unfold load_token, encode_signature, decode_signature. rewrite b64url_trim. cbn. rewrite b64url_decode_encode. cbn.
  by rewrite decide_True.
Qed.

(** *** Escaping *)

(** The bytes with a meaning in markup. *)
Definition special (b : byte) : bool := bool_decide (b ∈ [Byte.x3c; Byte.x3e; Byte.x22; Byte.x27]).
Definition markup (s : str) : str := filter (λ b, special b = true) s.

Lemma markup_app s t : markup (s ++ t) = markup s ++ markup t.
Proof. apply filter_app. Qed.

Lemma esc_cons b s : esc (b :: s) = esc_byte b ++ esc s.
Proof. done. Qed.

(** Escaped text has no markup of its own. *)
Lemma markup_esc s : markup (esc s) = [].
Proof.
  induction s as [|b s IH]; [done|]. rewrite esc_cons, markup_app, IH, app_nil_r. by destruct b.
Qed.

Create Rewrite HintDb markup.
#[export] Hint Rewrite markup_app markup_esc : markup.


(** Escaping is faithful and safe: what is escaped has no byte that could
    open or close a tag or an attribute, and different texts stay different. *)
Theorem esc_safe s : markup (esc s) = [] ∧ ∀ t, esc s = esc t → s = t.
Proof.
  split; [apply markup_esc|]. induction s as [|b s IH]; intros [|c t]; rewrite ?esc_cons; try done.
  - intros H. exfalso. by destruct c.
  - intros H. exfalso. by destruct b.
  - intros H. assert (b = c ∧ esc s = esc t) as [-> Ht]; [|by rewrite (IH t Ht)].
    revert H. unfold esc_byte. repeat case_decide; subst; cbn [app]; intros Heq; simplify_eq; done.
Qed.

(** *** URL encoding *)

Lemma mjoin_cons {A} (x : list A) l : mjoin (x :: l) = x ++ mjoin l.
Proof. done. Qed.

Lemma urlenc_cons b s : urlenc (b :: s) = urlenc_byte b ++ urlenc s.
Proof. done. Qed.

Lemma hex_value_upper n : 0 ≤ n < 16 → hex_value (upper_hex n) = Some n.
Proof.
  intros Hn. assert (forallb (λ n, bool_decide (hex_value (upper_hex n) = Some n)) (seqZ 0 16) = true) as Hf by (vm_compute; reflexivity).
  rewrite forallb_forall in Hf. specialize (Hf n). rewrite <- list_elem_of_In, elem_of_seqZ in Hf.
  specialize (Hf ltac:(lia)). by bool_to_prop.
Qed.

(** The encoded text is free of everything with a meaning in a URL or a header,
    and decodes byte by byte: to itself for ASCII text, else to the text read
    as Latin-1. *)
Lemma percent_decode_urlenc s : percent_decode (urlenc s) = mjoin ((λ b, latin1 (bz b)) <$> s).
Proof.
  induction s as [|b s IH]; [done|]. rewrite urlenc_cons, fmap_cons, mjoin_cons, <- IH.
  unfold urlenc_byte. destruct (unreserved b) eqn:Hu.
  - destruct b; try discriminate Hu; reflexivity.
  - cbn [app percent_decode]. rewrite decide_True by done. pose proof (bz_range b).
    rewrite !hex_value_upper by (try apply Z.mod_pos_bound; try split; try apply Z.div_pos; try apply Z.div_lt_upper_bound; lia).
    do 2 f_equal. rewrite (Z.div_mod (bz b) 16) at 3 by lia. done.
Qed.

Lemma latin1_ascii b : in_range 0 127 b = true → latin1 (bz b) = [b].
Proof. by destruct b. Qed.

Lemma urlenc_byte_plain b : forallb (λ c, unreserved c || bool_decide (c = Byte.x25)) (urlenc_byte b) = true.
Proof. by destruct b. Qed.

(** An ASCII text survives the redirect: encoding it into a query and
    decoding it gives it back, and the encoded form has no separator, no blank
    and no control character. *)
Theorem urlenc_roundtrip s : Forall (λ b, in_range 0 127 b = true) s →
  percent_decode (urlenc s) = s ∧ Forall (λ b, unreserved b = true ∨ b = Byte.x25) (urlenc s).
Proof.
  intros Hs. split.
  - rewrite percent_decode_urlenc. induction Hs as [|b s Hb Hs IH]; [done|].
    by rewrite fmap_cons, mjoin_cons, latin1_ascii, IH.
  - clear Hs. induction s as [|b s IH]; [constructor|]. rewrite urlenc_cons. apply Forall_app. split; [|done].
    apply Forall_forall. intros c Hc. pose proof (urlenc_byte_plain b) as Hb. rewrite forallb_forall in Hb.
    apply list_elem_of_In, Hb, orb_true_iff in Hc as [?|?]; bool_to_prop; auto.
Qed.

(** *** Redirects stay on the site *)

(** A redirect after the token page goes to a path of this site. *)
Lemma safe_next_local raw : ∃ rest, safe_next raw = slash :: rest ∧ starts_with "/" rest = false ∧ zb 10 ∉ safe_next raw.
Proof.
  unfold safe_next. destruct (starts_with "/" raw && _ && _) eqn:Hs.
  - apply andb_true_iff in Hs as [[H1 H2]%andb_true_iff H3]. apply starts_with_spec in H1 as [rest ->].
    exists rest. split; [done|]. split; [by apply negb_true_iff in H2|]. apply contains_byte_false. by apply negb_true_iff.
  - exists []. split_and!; [done|done|]. apply contains_byte_false. vm_compute. reflexivity.
Qed.

(** A backslash after the slash passes, which browsers read as a second slash. *)
Example safe_next_backslash : safe_next ("/" ++ [Byte.x5c] ++ "evil.example") = "/" ++ [Byte.x5c] ++ "evil.example".
Proof. vm_compute. reflexivity. Qed.

(** *** The gates *)

Lemma token_gate_pass t r : token_gate t r = None ↔
  rq_path r = ("/token" : str) ∨ extract_cookie (rq_cookie r) = Some (raw t).
Proof.
  unfold token_gate. destruct (decide (rq_path r = ("/token" : str))) as [|Hp]; [naive_solver|].
  destruct (extract_cookie (rq_cookie r)) as [c|] eqn:Hc.
  - destruct (token_verify t c) eqn:Hv.
    + apply token_verify_spec in Hv as ->. naive_solver.
    + split; [|intros [?|[= ->]]; [done|]; rewrite (proj2 (token_verify_spec t (raw t))) in Hv; done].
      repeat case_match; done.
  - split; [|naive_solver]. repeat case_match; done.
Qed.

Lemma loopback_guard_pass port r : loopback_guard port r = None ↔ host_ok port r = true ∧ origin_ok port r = true.
Proof. unfold loopback_guard. destruct (host_ok port r), (origin_ok port r); naive_solver. Qed.

(** A response of the gate never hands out the token: the cookie it sets is
    the one the request brought. *)
Lemma token_gate_cookie t r resp c : token_gate t r = Some resp → rs_cookie resp = Some c →
  ∃ qs, rq_query r = Some qs ∧ parse_query_value qs TOKEN_PARAM = Some (raw t).
Proof.
  unfold token_gate. intros Hr Hc. destruct (decide _); [done|].
  destruct (match extract_cookie _ with Some _ => _ | None => _ end); [done|].
  destruct (decide (rq_method r = _)); [|by injection Hr as <-].
  destruct (rq_query r) as [qs|]; [|by injection Hr as <-]. cbn [mbind option_bind] in Hr.
  destruct (parse_query_value qs TOKEN_PARAM) as [p|] eqn:Hp; [|by injection Hr as <-].
  destruct (token_verify t p) eqn:Hv; [|by injection Hr as <-].
  apply token_verify_spec in Hv as ->. by exists qs.
Qed.

Lemma markup_banner class m : markup (banner class m) = markup (banner class ((λ _, []) <$> m)).
Proof. destruct m; [|done]. cbn [banner fmap option_fmap option_map]. by rewrite !markup_app, !markup_esc. Qed.

Lemma markup_halt_banner m : markup (halt_banner m) = markup (halt_banner ((λ _, []) <$> m)).
Proof. destruct m; [|done]. cbn [halt_banner fmap option_fmap option_map]. by rewrite !markup_app, !markup_esc. Qed.

(** No text can break out of the page: whatever the title, the reason of a
    halt and the two flash messages are, the page has the tags and quotes it
    has when they are empty. *)
Theorem layout_safe title pending halted ok err body :
  markup (layout title pending halted ok err body) =
  markup (layout [] pending ((λ _, []) <$> halted) ((λ _, []) <$> ok) ((λ _, []) <$> err) body).
Proof.
  unfold layout. by rewrite !markup_app, !markup_esc, (markup_halt_banner halted), (markup_banner "ok" ok), (markup_banner "err" err).
Qed.

Section Witnesses.
#[local] Existing Instances toy_base64.

Lemma rotate_load_witness :
  ∃ token, rotate (replicate 32 Byte.x07) None None = (Ok token, Some token) ∧
    load_token "/t" (Ok token) = Ok {| raw := token |}.
Proof.
  destruct (rotate_load "/t" (replicate 32 Byte.x07) None) as (token & H1 & H2 & _); [reflexivity|]. by exists token.
Defined.

Lemma urlenc_roundtrip_witness : percent_decode (urlenc "vault create failed: a/b") = "vault create failed: a/b".
Proof. apply urlenc_roundtrip. repeat constructor. Defined.
End Witnesses.
