(* ===== verification/UiOps.v ===== *)
(** The operator UI's actions: the POST handlers of [crates/ui/src/pages.rs],
    [setup.rs] and [connect.rs], the catalogue of [matrix.rs], the rule preview
    of [preview.rs], the state of [state.rs], and the router of [lib.rs].

    The files and the open vault are the state; each request comes with the
    outcomes of the file operations, the time and the random bytes it uses.
    The pages that only show the state are named here and rendered in
    [UiPages]. *)

From S2P Require Import Prelude Strs Json Extern Toy Protocol Matcher Policy Enrollment SshCa Vault UiWeb.
#[local] Open Scope Z_scope.

(** ** matrix.rs *)

Inductive Maturity : Type := Stable | Caveated | Planned.

(** [Maturity::badge]. *)
Definition maturity_badge (m : Maturity) : str :=
  match m with
  | Stable => "✅ supported"
  | Caveated => "⚠️ partial"
  | Planned => "🗺️ planned"
  end.

Record Mechanism : Type := {
  mech_id : str;
  mech_label : str;
  lifecycle : str;
  credential_form : str;
  maturity : Maturity;
  confirmation : str;
}.

Definition MECHANISMS : list Mechanism :=
  [ {| mech_id := "http-bearer"; mech_label := "HTTP bearer token"; lifecycle := "one-shot";
       credential_form := "bearer token"; maturity := Stable; confirmation := "per policy" |};
    {| mech_id := "http-basic"; mech_label := "HTTP basic auth"; lifecycle := "one-shot";
       credential_form := "password (username rides the intent)"; maturity := Stable; confirmation := "per policy" |};
    {| mech_id := "db-scram"; mech_label := "PostgreSQL SCRAM-SHA-256"; lifecycle := "one-shot or session";
       credential_form := "database password"; maturity := Stable; confirmation := "per policy" |};
    {| mech_id := "ssh"; mech_label := "SSH session"; lifecycle := "session";
       credential_form := "Ed25519 private key"; maturity := Stable; confirmation := "per policy" |};
    {| mech_id := "local-privilege"; mech_label := "Local privileged command";
       lifecycle := "session (one pinned exec)"; credential_form := "none (sudoers / pin allowlist)";
       maturity := Stable; confirmation := "ALWAYS unless command+args exactly pinned" |} ].

Record ServiceTemplate : Type := {
  t_mechanism : str;
  t_name : str;
  t_target_uri : str;
  t_note : option str;
}.

Definition TEMPLATES : list ServiceTemplate :=
  [ {| t_mechanism := "http-bearer"; t_name := "Any HTTPS API (general case)"; t_target_uri := "https://*"; t_note := None |};
    {| t_mechanism := "http-bearer"; t_name := "GitHub REST API v3"; t_target_uri := "https://api.github.com/*";
       t_note := Some ("Use a fine-grained PAT scoped to needed repos only. Tested shape." : str) |};
    {| t_mechanism := "http-bearer"; t_name := "GraphQL API (GitHub v4, Hasura, ...)"; t_target_uri := "https://*/graphql";
       t_note := Some ("POST-with-JSON rides the same injector." : str) |};
    {| t_mechanism := "http-bearer"; t_name := "Kubernetes API"; t_target_uri := "https://kubernetes.default.svc/*";
       t_note := Some ("⚠️ custom/private CA roots are not configurable yet (backlog C1): works against clusters with publicly-trusted certs." : str) |};
    {| t_mechanism := "http-bearer"; t_name := "OAuth2 client-credentials endpoint (manual)"; t_target_uri := "https://*";
       t_note := Some ("Token fetched once into the vault by the operator; automatic refresh is post-v1." : str) |};
    {| t_mechanism := "http-basic"; t_name := "Any HTTPS API (basic auth)"; t_target_uri := "https://*";
       t_note := Some ("Username travels in the intent, password stays in the vault." : str) |};
    {| t_mechanism := "db-scram"; t_name := "PostgreSQL (incl. Supabase/RDS/Cloud SQL)";
       t_target_uri := "postgres://USER@HOST:5432/DBNAME";
       t_note := Some ("⚠️ TLS-to-DB is NOT negotiated yet (D27): restrict to networks you trust." : str) |};
    {| t_mechanism := "ssh"; t_name := "SSH host (shell or remote commands)"; t_target_uri := "ssh://USER@HOST";
       t_note := Some ("Host keys are pinned (TOFU or known_hosts import); a changed key is a hard refusal." : str) |};
    {| t_mechanism := "local-privilege"; t_name := "Local privileged commands (systemctl, apt, ...)";
       t_target_uri := "local://HOST";
       t_note := Some ("Every use is confirmed unless the operator pinned the exact command+args; the helper re-checks authoritatively." : str) |} ].

(** [templates_for], [mechanism]. *)
Definition templates_for (m : str) : list ServiceTemplate := filter (λ t, t_mechanism t = m) TEMPLATES.
Definition mechanism (id : str) : option Mechanism :=
  find_map (λ m, if decide (mech_id m = id) then Some m else None) MECHANISMS.

(** ** preview.rs *)

(** The axis of a form field: anything that does not parse is taken exactly. *)
Definition form_axis (raw : str) : Matcher :=
  if is_empty raw then Any else match parse raw with Ok m => m | Err _ => Exact raw end.
Definition form_matcher (raw : str) : Matcher := match parse raw with Ok m => m | Err _ => Exact raw end.

(** The pair lines of [candidate_rule]. *)
Fixpoint candidate_pairs (ls : list str) : option (list Pair) :=
  match ls with
  | [] => Some []
  | l :: ls =>
      let line := trim l in
      if is_empty line then candidate_pairs ls
      else
        '(cred, target) ← split_once Byte.x7c line;
        rest ← candidate_pairs ls;
        Some ({| pair_cred_ref := form_matcher (trim cred); pair_target_uri := form_matcher (trim target) |} :: rest)
  end.

(** [candidate_rule]. *)
Definition candidate_rule (mech target agent cred eff pairs_raw : str) : option Rule :=
  effect ← effect_parse eff;
  ps ← candidate_pairs (lines pairs_raw);
  Some {| rule_name := None; notify_on_use := true; rule_effect := effect; rule_agent_id := form_axis agent;
          rule_cred_ref := form_axis cred; rule_target_uri := form_axis target; rule_mechanism := form_axis mech;
          pairs := ps; limits := no_limits |}.

(** [rule_sentence]. *)
Definition rule_sentence (rule : Rule) : str :=
  let verb := match rule_effect rule with
              | Allow => "allow" | NeedsConfirmation => "ask a human, then allow" | Deny => "deny" end in
  "This rule would " ++ verb ++ ": agent " ++ describe (rule_agent_id rule) ++ ", using credential " ++
  describe (rule_cred_ref rule) ++ ", against target " ++ describe (rule_target_uri rule) ++ ", over " ++
  describe (rule_mechanism rule) ++ ".".

(** [pairs_sentence]. *)
Definition pairs_sentence (rule : Rule) : str :=
  match pairs rule with
  | [] => []
  | ps => "  It also binds " ++ show (zlen ps) ++ " credential(s) to their own endpoint (D43):" ++ [zb 10] ++
          join [zb 10] ((λ p, "    " ++ describe (pair_cred_ref p) ++ " → " ++ describe (pair_target_uri p)) <$> ps)
  end.

(** [boundary_caveat]: whether it fires, and its text. *)
Definition risky_axis (m : Matcher) : bool :=
  match m with Glob g => contains_byte star g && (contains "*." g || contains "*/" g) | _ => false end.
Definition caveat_text : str :=
  "Caveat: in a glob, `*` spans every character — including `/` and `:`. A star before a dot does not enforce a hostname boundary, so `ssh://*.internal` also matches `ssh://evil.com/.internal`. Where a boundary matters, anchor with `exact:` or `prefix:` on the trusted portion and leave `*` only on an open-ended tail.".
Definition boundary_caveat (rule : Rule) : option str :=
  if risky_axis (rule_target_uri rule) || risky_axis (rule_cred_ref rule) then Some caveat_text else None.

(** [preview_block]. *)
Definition preview_block (rule : Rule) : str :=
  html "<div class=`card`><strong>Preview (not saved yet)</strong><br>" ++ esc (rule_sentence rule) ++
  (if is_empty (pairs_sentence rule) then [] else "<br>" ++ esc (pairs_sentence rule)) ++
  (match boundary_caveat rule with Some c => html "<p class=`err`>" ++ esc c ++ "</p>" | None => [] end) ++ "</div>".

(** [verdict_block]. *)
Definition verdict_block (eff label : str) : str :=
  let plain := if decide (eff = ("allow" : str)) then "allow — permitted without prompting"
               else if decide (eff = ("needs_confirmation" : str)) then "needs_confirmation — a human must approve each use"
               else "deny — refused" in
  html "<div class=`card`><strong>Verdict: " ++ plain ++ html "</strong><br><span class=`muted`>reached by</span> <code>" ++
  label ++ "</code></div>".

(** ** state.rs *)

(** What a path holds. *)
Inductive slot : Type := Missing | File (text : str) | Directory.
Definition exists_at (s : slot) : bool := match s with Missing => false | _ => true end.
Definition is_file (s : slot) : bool := match s with File _ => true | _ => false end.

(** [atomic_write]: the file is replaced whole, or is left as it was. *)
Definition atomic_write (s : slot) (contents : str) (io : option str) : result str unit * slot :=
  match io, s with
  | Some e, _ => (Err e, s)
  | None, Directory => (Err "persist: Is a directory", s)
  | None, _ => (Ok tt, File contents)
  end.

Section Ops.
Context `{Base64, Aead, Argon2, DebugFmt, SerdeText Header, SerdeText Body, Toml, Sha256, Ed25519, SerdeText StoreFile}.

(** [UiState]: the files, the vault when it is open, the enrolment store, and
    whether a gateway runs and is halted. *)
Record UiState : Type := {
  policy_path : str;
  vault_path : str;
  policy_at : slot;
  open_vault : option Store;
  sealed_file : option str;
  enrollment : EnrollmentStore;
  audit_key_at : slot;
  ui_gateway : option bool;
  ui_token : UiToken;
  ui_port : Z;
}.

(** What a request draws on: the time, random bytes and the outcomes of the
    file operations. *)
Record UiEnv : Type := {
  ui_now : str;
  new_seed : str;
  new_key : SigningKey;
  new_salt : str;
  new_dek : str;
  new_wrap_nonce : str;
  new_nonce : str;
  io_policy : option str;
  io_key : option str;
  io_vault : option str;
  io_enroll : option str;
  read_error : str;
}.

Definition set_policy (s : UiState) (p : slot) : UiState :=
  {| policy_path := policy_path s; vault_path := vault_path s; policy_at := p; open_vault := open_vault s; sealed_file := sealed_file s; enrollment := enrollment s;
     audit_key_at := audit_key_at s; ui_gateway := ui_gateway s; ui_token := ui_token s; ui_port := ui_port s |}.
Definition set_vault (s : UiState) (v : Store) : UiState :=
  {| policy_path := policy_path s; vault_path := vault_path s; policy_at := policy_at s; open_vault := Some v; sealed_file := sealed_file s; enrollment := enrollment s;
     audit_key_at := audit_key_at s; ui_gateway := ui_gateway s; ui_token := ui_token s; ui_port := ui_port s |}.
Definition set_enrollment (s : UiState) (e : EnrollmentStore) : UiState :=
  {| policy_path := policy_path s; vault_path := vault_path s; policy_at := policy_at s; open_vault := open_vault s; sealed_file := sealed_file s; enrollment := e;
     audit_key_at := audit_key_at s; ui_gateway := ui_gateway s; ui_token := ui_token s; ui_port := ui_port s |}.
Definition set_audit_key (s : UiState) (k : slot) : UiState :=
  {| policy_path := policy_path s; vault_path := vault_path s; policy_at := policy_at s; open_vault := open_vault s; sealed_file := sealed_file s; enrollment := enrollment s;
     audit_key_at := k; ui_gateway := ui_gateway s; ui_token := ui_token s; ui_port := ui_port s |}.

Definition vault_file (s : UiState) : option str :=
  match open_vault s with Some v => Vault.file v | None => sealed_file s end.

(** [Provision]. *)
Record Provision : Type := { p_policy : bool; p_vault : bool; p_audit_key : bool; p_enrollment : bool }.
Definition provisioned (s : UiState) : Provision :=
  {| p_policy := exists_at (policy_at s); p_vault := bool_decide (is_Some (vault_file s));
     p_audit_key := exists_at (audit_key_at s); p_enrollment := bool_decide (is_Some (disk (enrollment s))) |}.
Definition complete (p : Provision) : bool := p_policy p && p_vault p && p_audit_key p.
Definition missing (p : Provision) : Z :=
  Z.b2z (negb (p_policy p)) + Z.b2z (negb (p_vault p)) + Z.b2z (negb (p_audit_key p)).
Definition setup_pending (s : UiState) : Z := missing (provisioned s).

(** [UiState::current_policy]. *)
Definition current_policy (env : UiEnv) (s : UiState) : result str Policy :=
  match policy_at s with
  | File doc => map_err policy_error_str (from_toml doc)
  | _ => Err ("cannot read " ++ policy_path s ++ ": " ++ read_error env)
  end.

(** ** setup.rs: the wizard's steps *)

Definition setup_err (e : str) : WebResponse := redirect ("/setup?err=" ++ urlenc e).

(** [create_vault]. *)
Definition create_vault (env : UiEnv) (s : UiState) (passphrase confirm : str) : WebResponse * UiState :=
  if is_empty passphrase then (redirect "/setup?err=passphrase+must+not+be+empty", s)
  else if negb (bool_decide (passphrase = confirm)) then (redirect "/setup?err=passphrases+do+not+match", s)
  else match create (vault_path s) (vault_file s) "passphrase" passphrase (new_salt env) (new_dek env) (new_wrap_nonce env)
               (new_nonce env) (io_vault env) with
       | Ok v => (redirect "/setup?msg=vault+created", set_vault s v)
       | Err e => (setup_err ("vault create failed: " ++ vault_error_str e), s)
       end.

(** [create_policy]. *)
Definition create_policy (env : UiEnv) (s : UiState) : WebResponse * UiState :=
  if exists_at (policy_at s) then (redirect "/setup?err=policy+already+exists", s)
  else match atomic_write (policy_at s) (to_toml policy_empty) (io_policy env) with
       | (Ok _, p) => (redirect "/setup?msg=default-deny+policy+written", set_policy s p)
       | (Err e, p) => (setup_err e, set_policy s p)
       end.

Definition audit_key_text (env : UiEnv) : str := encode_signature (new_seed env).

(** [create_audit_key]. *)
Definition create_audit_key (env : UiEnv) (s : UiState) : WebResponse * UiState :=
  if exists_at (audit_key_at s) then (redirect "/setup?err=audit+key+already+exists%3B+refusing+to+overwrite", s)
  else match atomic_write (audit_key_at s) (audit_key_text env) (io_key env) with
       | (Ok _, k) => (redirect ("/setup?msg=" ++ urlenc ("audit key written; public key: " ++
                                  encode_signature (vk_to_bytes (verifying_key (new_key env))))), set_audit_key s k)
       | (Err e, k) => (setup_err e, set_audit_key s k)
       end.

(** ** pages.rs: secrets and agents *)

Definition trim_slashes (s : str) : str := trim_end_matches "/" (trim_start_matches "/" s).

(** [secrets_store]. *)
Definition secrets_store (env : UiEnv) (s : UiState) (path value : str) : WebResponse * UiState :=
  match open_vault s with
  | None => (redirect "/secrets?err=vault+not+open", s)
  | Some v =>
      let p := trim_slashes (trim path) in
      if is_empty p || is_empty value then (redirect "/secrets?err=path+and+value+are+required", s)
      else match set_entry v p value (new_nonce env) (io_vault env) with
           | (Ok _, v') => (redirect ("/secrets?msg=" ++ urlenc ("stored local://" ++ p)), set_vault s v')
           | (Err e, v') => (redirect ("/secrets?err=" ++ urlenc (vault_error_str e)), set_vault s v')
           end
  end.

(** [secrets_delete]. *)
Definition secrets_delete (env : UiEnv) (s : UiState) (path : str) : WebResponse * UiState :=
  match open_vault s with
  | None => (redirect "/secrets?err=vault+not+open", s)
  | Some v =>
      match delete_entry v (trim path) (new_nonce env) (io_vault env) with
      | (Ok true, v') => (redirect "/secrets?msg=deleted", set_vault s v')
      | (Ok false, v') => (redirect "/secrets?msg=was+not+present", set_vault s v')
      | (Err e, v') => (redirect ("/secrets?err=" ++ urlenc (vault_error_str e)), set_vault s v')
      end
  end.

Definition bad_key (e : EnrollmentError) : str :=
  "that is not a bare base64url Ed25519 public key: " ++ enrollment_error_str e.

(** [agents_enroll]. *)
Definition agents_enroll (env : UiEnv) (s : UiState) (agent_id public_key : str) (sponsor_id sponsor_name : option str)
  : WebResponse * UiState :=
  let id := trim agent_id in
  let sid := default [] sponsor_id in
  let sname := default [] sponsor_name in
  if is_empty id then (redirect "/agents?err=agent+id+required", s)
  else if is_empty (trim sid) || is_empty (trim sname) then (redirect "/agents?err=sponsor+id+and+name+required+(RAE)", s)
  else match decode_public_key (trim public_key) with
       | Err e => (redirect ("/agents?err=" ++ urlenc (bad_key e)), s)
       | Ok _ =>
           match enroll (enrollment s) id (trim public_key) (trim sid) (trim sname) (ui_now env) false (io_enroll env) with
           | (Ok _, e') => (redirect ("/agents?msg=" ++ urlenc ("enrolled " ++ id)), set_enrollment s e')
           | (Err e, e') => (redirect ("/agents?err=" ++ urlenc (enrollment_error_str e)), set_enrollment s e')
           end
       end.

(** [agents_revoke]. *)
Definition agents_revoke (env : UiEnv) (s : UiState) (agent_id : str) : WebResponse * UiState :=
  match revoke (enrollment s) (trim agent_id) (ui_now env) (io_enroll env) with
  | (Ok true, e') => (redirect ("/agents?msg=" ++ urlenc ("revoked " ++ trim agent_id ++ "; effective immediately")),
                      set_enrollment s e')
  | (Ok false, e') => (redirect "/agents?msg=was+not+enrolled", set_enrollment s e')
  | (Err e, e') => (redirect ("/agents?err=" ++ urlenc (enrollment_error_str e)), set_enrollment s e')
  end.

(** ** pages.rs: rules *)

Record RuleForm : Type := {
  f_name : str;
  f_mechanism : str;
  f_agent_id : str;
  f_cred_ref : str;
  f_target_uri : str;
  f_pairs : str;
  f_effect : str;
  f_notify : option str;
  f_max_response_bytes : str;
  f_session_ttl_s : str;
}.

(** The pair lines of [rules_add], numbered; the error is that of the first bad
    line. *)
Fixpoint form_pairs (li : Z) (ls : list str) : result str (list Pair) :=
  match ls with
  | [] => Ok []
  | l :: ls =>
      let line := trim l in
      if is_empty line then form_pairs (li + 1) ls
      else
        '(cred, target) ← ok_or (split_once Byte.x7c line)
                            ("pair line " ++ show (li + 1) ++ " must be `cred_ref | target_uri`");
        c ← map_err (λ e, "pair line " ++ show (li + 1) ++ " cred_ref: " ++ matcher_error_str e) (parse (trim cred));
        t ← map_err (λ e, "pair line " ++ show (li + 1) ++ " target_uri: " ++ matcher_error_str e) (parse (trim target));
        rest ← form_pairs (li + 1) ls;
        Ok ({| pair_cred_ref := c; pair_target_uri := t |} :: rest)
  end.

(** The rule [rules_add] builds. *)
Definition rule_of_form (f : RuleForm) (ps : list Pair) : Rule :=
  {| rule_name := if is_empty (trim (f_name f)) then None else Some (trim (f_name f));
     notify_on_use := match f_notify f with
                      | Some v => bool_decide (v = ("on" : str)) || bool_decide (v = ("true" : str))
                      | None => false end;
     rule_effect := default Deny (effect_parse (f_effect f));
     rule_agent_id := form_axis (trim (f_agent_id f));
     rule_cred_ref := form_axis (trim (f_cred_ref f));
     rule_target_uri := form_axis (trim (f_target_uri f));
     rule_mechanism := form_axis (f_mechanism f);
     pairs := ps;
     limits := {| max_response_bytes := parse_uint u64_max (trim (f_max_response_bytes f));
                  session_ttl_s := parse_uint u64_max (trim (f_session_ttl_s f)) |} |}.

Definition not_saved (e : PolicyError) : str := "generated policy failed validation (not saved): " ++ policy_error_str e.

(** [rules_add]. *)
Definition rules_add (env : UiEnv) (s : UiState) (f : RuleForm) : WebResponse * UiState :=
  if bool_decide (mechanism (f_mechanism f) = None) then (redirect "/rules/new?err=unknown+mechanism", s)
  else if bool_decide (effect_parse (f_effect f) = None) then (redirect "/rules/new?err=unknown+effect", s)
  else match form_pairs 0 (lines (f_pairs f)) with
  | Err e => (redirect ("/rules/new?err=" ++ urlenc e), s)
  | Ok ps =>
      match current_policy env s with
      | Err e => (redirect ("/rules?err=" ++ urlenc ("current policy does not parse; fix it first: " ++ e)), s)
      | Ok p =>
          let new_doc := to_toml (from_rules (rules p ++ [rule_of_form f ps])) in
          match from_toml new_doc with
          | Err e => (redirect ("/rules?err=" ++ urlenc (not_saved e)), s)
          | Ok _ =>
              match atomic_write (policy_at s) new_doc (io_policy env) with
              | (Ok _, sl) =>
                  (if bool_decide (ui_gateway s = Some false) then
                     redirect ("/rules?msg=" ++ urlenc "rule saved. The integrity guard will halt this daemon until you restart with the new policy.")
                   else redirect "/rules?msg=rule+saved", set_policy s sl)
              | (Err e, sl) => (redirect ("/rules?err=" ++ urlenc e), set_policy s sl)
              end
          end
      end
  end.

(** [rules_delete]. *)
Definition rules_delete (env : UiEnv) (s : UiState) (index : nat) : WebResponse * UiState :=
  match current_policy env s with
  | Err e => (redirect ("/rules?err=" ++ urlenc e), s)
  | Ok p =>
      if (length (rules p) <=? index)%nat then (redirect "/rules?err=no+such+rule", s)
      else
        let new_doc := to_toml (from_rules (delete index (rules p))) in
        match from_toml new_doc with
        | Err e => (redirect ("/rules?err=" ++ urlenc (not_saved e)), s)
        | Ok _ =>
            match atomic_write (policy_at s) new_doc (io_policy env) with
            | (Ok _, sl) => (redirect "/rules?msg=rule+deleted%3B+restart+the+gateway+to+apply", set_policy s sl)
            | (Err e, sl) => (redirect ("/rules?err=" ++ urlenc e), set_policy s sl)
            end
        end
  end.

(** [raw_save]. *)
Definition raw_save (env : UiEnv) (s : UiState) (doc : str) : WebResponse * UiState :=
  match from_toml doc with
  | Err e => (redirect ("/policy/raw?err=" ++ urlenc ("NOT saved, schema rejected it: " ++ policy_error_str e)), s)
  | Ok _ =>
      match atomic_write (policy_at s) doc (io_policy env) with
      | (Ok _, sl) => (redirect "/rules?msg=policy+saved%3B+restart+the+gateway+to+apply", set_policy s sl)
      | (Err e, sl) => (redirect ("/policy/raw?err=" ++ urlenc e), set_policy s sl)
      end
  end.

(** The verdict of [policy_test], or the error of the saved policy. *)
Definition policy_test (s : UiState) (agent cred target mech : str) : result PolicyError Decision :=
  let doc := match policy_at s with File d => d | _ => [] end in
  p ← from_toml doc;
  Ok (evaluate p {| req_agent_id := trim agent; req_cred_ref := trim cred; req_target_uri := trim target;
                    req_mechanism := trim mech; declared := None |}).

(** ** connect.rs *)

Record ConnectForm : Type := {
  c_mechanism : str;
  c_agent_id : str;
  c_cred_ref : str;
  c_target_uri : str;
  c_effect : str;
  c_public_key : str;
  c_sponsor_id : str;
  c_sponsor_name : str;
  c_secret : str;
}.

Definition connect_err (msg : str) : WebResponse := redirect ("/connect?err=" ++ urlenc msg).

(** The vault path of the credential. *)
Definition cred_path (cred_ref : str) : str := trim_slashes (default cred_ref (strip_prefix "local://" cred_ref)).

(** The checks of [submit] before anything is written: the open vault and the
    new document. *)
Definition connect_validate (env : UiEnv) (s : UiState) (f : ConnectForm) : result str (Store * str) :=
  let agent := trim (c_agent_id f) in
  let cred := trim (c_cred_ref f) in
  v ← ok_or (open_vault s)
        "no vault is open - create one in Setup first; this flow never creates one implicitly because that would add a second secret to this form";
  if is_empty agent || is_empty cred then Err "agent id and credential reference are both required"
  else if is_empty (trim (c_sponsor_id f)) || is_empty (trim (c_sponsor_name f)) then
    Err "a named sponsor is required - attribution must terminate at a human"
  else if is_empty (c_secret f) then Err "the credential itself is required"
  else
    _ ← map_err bad_key (decode_public_key (trim (c_public_key f)));
    _ ← ok_or (mechanism (trim (c_mechanism f))) "unknown mechanism";
    rule ← ok_or (candidate_rule (trim (c_mechanism f)) (trim (c_target_uri f)) agent cred (trim (c_effect f)) [])
             "the effect must be allow, needs_confirmation, or deny";
    p ← map_err (λ e, "the current policy does not parse, so nothing was written: " ++ e) (current_policy env s);
    let named := {| rule_name := Some ("connect: " ++ cred); notify_on_use := notify_on_use rule; rule_effect := rule_effect rule;
                    rule_agent_id := rule_agent_id rule; rule_cred_ref := rule_cred_ref rule;
                    rule_target_uri := rule_target_uri rule; rule_mechanism := rule_mechanism rule;
                    pairs := pairs rule; limits := limits rule |} in
    let rendered := to_toml (from_rules (rules p ++ [named])) in
    _ ← map_err (λ e, "the generated policy failed validation, so nothing was written: " ++ policy_error_str e) (from_toml rendered);
    if is_empty (cred_path cred) then Err "the credential reference needs a path after local://" else Ok (v, rendered).

(** The four writes of [submit], in order. *)
Definition connect_write (env : UiEnv) (s : UiState) (f : ConnectForm) (v : Store) (rendered : str) : WebResponse * UiState :=
  let agent := trim (c_agent_id f) in
  let cred := trim (c_cred_ref f) in
  let '(r1, v') := set_entry v (cred_path cred) (c_secret f) (new_nonce env) (io_vault env) in
  let s1 := set_vault s v' in
  match r1 with
  | Err e => (connect_err ("the secret could not be stored, so NO rule was written: " ++ vault_error_str e), s1)
  | Ok _ =>
      let '(r2, e') := enroll (enrollment s) agent (trim (c_public_key f)) (trim (c_sponsor_id f)) (trim (c_sponsor_name f))
                         (ui_now env) false (io_enroll env) in
      let s2 := set_enrollment s1 e' in
      match r2 with
      | Err e => (connect_err ("the agent could not be enrolled, so NO rule was written: " ++ enrollment_error_str e), s2)
      | Ok _ =>
          let '(r3, k) := if is_file (audit_key_at s) then (Ok tt, audit_key_at s)
                          else atomic_write (audit_key_at s) (audit_key_text env) (io_key env) in
          let s3 := set_audit_key s2 k in
          match r3 with
          | Err e => (connect_err ("the audit key could not be written, so NO rule was written: " ++ e), s3)
          | Ok _ =>
              let '(r4, p) := atomic_write (policy_at s) rendered (io_policy env) in
              let s4 := set_policy s3 p in
              match r4 with
              | Err e => (connect_err ("the policy could not be written: " ++ e), s4)
              | Ok _ => (redirect ("/connect/done?cred_ref=" ++ urlenc cred ++ "&agent_id=" ++ urlenc agent), s4)
              end
          end
      end
  end.

(** [submit]. *)
Definition connect_submit (env : UiEnv) (s : UiState) (f : ConnectForm) : WebResponse * UiState :=
  match connect_validate env s f with
  | Err e => (connect_err e, s)
  | Ok (v, rendered) => connect_write env s f v rendered
  end.

(** ** lib.rs: the router *)

(** What the server answers: a page rendered from the state, a response, or a
    rejection by the framework. *)
Inductive answer : Type :=
| Rendered (path : str)
| Answered (r : WebResponse)
| BadForm
| NotFound
| MethodNotAllowed.

Definition get_paths : list str :=
  ["/token"; "/"; "/setup"; "/secrets"; "/agents"; "/rules"; "/rules/new"; "/policy/raw"; "/connect"; "/connect/done"].
Definition post_paths : list str :=
  ["/token"; "/setup/vault"; "/setup/policy"; "/setup/audit-key"; "/secrets"; "/secrets/delete"; "/agents"; "/agents/enroll";
   "/agents/revoke"; "/rules/add"; "/rules/delete"; "/policy/raw"; "/policy/test"; "/connect"].

Definition enroll_form (env : UiEnv) (s : UiState) (r : WebRequest) : option (WebResponse * UiState) :=
  id ← form_str r "agent_id"; pk ← form_str r "public_key";
  sid ← opt_field r "sponsor_id"; sname ← opt_field r "sponsor_name";
  Some (agents_enroll env s id pk sid sname).

(** The POST routes, forms decoded; [None] when the form does not decode. *)
Definition route_post (env : UiEnv) (s : UiState) (r : WebRequest) : option (answer * UiState) :=
  let ok (x : WebResponse * UiState) := Some (Answered x.1, x.2) in
  let p := rq_path r in
  if decide (p = ("/token" : str)) then
    token ← form_str r "token"; next ← form_default r "next"; Some (Answered (token_submit (ui_token s) token next), s)
  else if decide (p = ("/setup/vault" : str)) then
    a ← form_str r "passphrase"; b ← form_str r "confirm"; ok (create_vault env s a b)
  else if decide (p = ("/setup/policy" : str)) then ok (create_policy env s)
  else if decide (p = ("/setup/audit-key" : str)) then ok (create_audit_key env s)
  else if decide (p = ("/secrets" : str)) then
    a ← form_str r "path"; b ← form_str r "value"; ok (secrets_store env s a b)
  else if decide (p = ("/secrets/delete" : str)) then a ← form_str r "path"; ok (secrets_delete env s a)
  else if decide (p = ("/agents" : str)) then x ← enroll_form env s r; ok x
  else if decide (p = ("/agents/enroll" : str)) then x ← enroll_form env s r; ok x
  else if decide (p = ("/agents/revoke" : str)) then a ← form_str r "agent_id"; ok (agents_revoke env s a)
  else if decide (p = ("/rules/add" : str)) then
    name ← form_default r "name"; mech ← form_str r "mechanism"; agent ← form_default r "agent_id";
    cred ← form_default r "cred_ref"; target ← form_default r "target_uri"; ps ← form_default r "pairs";
    eff ← form_str r "effect"; notify ← opt_field r "notify_on_use"; mrb ← form_default r "max_response_bytes";
    ttl ← form_default r "session_ttl_s";
    ok (rules_add env s {| f_name := name; f_mechanism := mech; f_agent_id := agent; f_cred_ref := cred;
                           f_target_uri := target; f_pairs := ps; f_effect := eff; f_notify := notify;
                           f_max_response_bytes := mrb; f_session_ttl_s := ttl |})
  else if decide (p = ("/rules/delete" : str)) then
    i ← form_str r "index"; n ← parse_uint u64_max i; ok (rules_delete env s (Z.to_nat n))
  else if decide (p = ("/policy/raw" : str)) then d ← form_str r "doc"; ok (raw_save env s d)
  else if decide (p = ("/policy/test" : str)) then
    _ ← form_str r "agent_id"; _ ← form_str r "cred_ref"; _ ← form_str r "target_uri"; _ ← form_str r "mechanism";
    Some (Rendered p, s)
  else if decide (p = ("/connect" : str)) then
    mech ← form_str r "mechanism"; agent ← form_str r "agent_id"; cred ← form_str r "cred_ref";
    target ← form_str r "target_uri"; eff ← form_str r "effect"; pk ← form_str r "public_key";
    sid ← form_str r "sponsor_id"; sname ← form_str r "sponsor_name"; secret ← form_str r "secret";
    ok (connect_submit env s {| c_mechanism := mech; c_agent_id := agent; c_cred_ref := cred; c_target_uri := target;
                                c_effect := eff; c_public_key := pk; c_sponsor_id := sid; c_sponsor_name := sname;
                                c_secret := secret |})
  else None.

(** The routes inside the layers. *)
Definition route (env : UiEnv) (s : UiState) (r : WebRequest) : answer * UiState :=
  let known := get_paths ++ post_paths in
  if negb (bool_decide (rq_path r ∈ known)) then (NotFound, s)
  else if bool_decide (rq_method r ∈ ["GET"; "HEAD"] ∧ rq_path r ∈ get_paths) then (Rendered (rq_path r), s)
  else if bool_decide (rq_method r = ("POST" : str) ∧ rq_path r ∈ post_paths) then default (BadForm, s) (route_post env s r)
  else (MethodNotAllowed, s).

(** [router]: the loopback guard outside, the token gate inside. *)
Definition ui_serve (env : UiEnv) (s : UiState) (r : WebRequest) : answer * UiState :=
  match loopback_guard (ui_port s) r with
  | Some resp => (Answered resp, s)
  | None =>
      match token_gate (ui_token s) r with
      | Some resp => (Answered resp, s)
      | None => route env s r
      end
  end.

(** ** Properties *)

(** *** Nothing changes without the token *)

Lemma route_get env s r : rq_method r ≠ ("POST" : str) → (route env s r).2 = s.
Proof.
  intros Hm. unfold route. repeat case_bool_decide; try done; cbn [negb]; try done. naive_solver.
Qed.

Lemma route_token env s r : rq_path r = ("/token" : str) → (route env s r).2 = s.
Proof.
  intros Hp. unfold route. repeat (case_bool_decide; cbn [negb]; try done).
  unfold route_post. rewrite decide_True by done.
  destruct (form_str r "token"); [|done]. cbn. by destruct (form_default r "next").
Qed.

(** C23: Nobody changes anything without the token.  A request that changes a
    file, the vault or the enrolments is a POST, to the loopback host and from
    no other origin, with the access token itself in its cookie; every other
    request leaves the state as it was, whatever it carries. *)
Theorem ui_changes_need_token env s r :
  (ui_serve env s r).2 ≠ s →
  rq_method r = ("POST" : str) ∧ host_ok (ui_port s) r = true ∧ origin_ok (ui_port s) r = true ∧
  extract_cookie (rq_cookie r) = Some (raw (ui_token s)).
Proof.
  unfold ui_serve. intros Hne. destruct (loopback_guard (ui_port s) r) eqn:Hl; [done|].
  destruct (token_gate (ui_token s) r) eqn:Ht; [done|].
  apply loopback_guard_pass in Hl as [Hh Ho]. apply token_gate_pass in Ht.
  split; [destruct (decide (rq_method r = ("POST" : str))) as [|Hm]; [done|]; by rewrite (route_get _ _ _ Hm) in Hne|].
  split_and!; [done..|]. destruct Ht as [Hp|?]; [|done]. by rewrite (route_token _ _ _ Hp) in Hne.
Qed.

(** *** The policy file always loads *)

Definition policy_loads (s : UiState) : Prop :=
  match policy_at s with File doc => is_ok (from_toml doc) = true | _ => True end.

Lemma atomic_write_loads sl doc io : is_ok (from_toml doc) = true →
  match sl with File d => is_ok (from_toml d) = true | _ => True end →
  match (atomic_write sl doc io).2 with File d => is_ok (from_toml d) = true | _ => True end.
Proof. intros Hd Hs. unfold atomic_write. destruct io, sl; done. Qed.

Lemma rules_add_loads env s f : policy_loads s → policy_loads (rules_add env s f).2.
Proof.
  intros Hs. unfold rules_add. do 2 (case_bool_decide; [done|]). destruct (form_pairs _ _); [|done].
  destruct (current_policy env s) as [p|]; [|done]. set (doc := to_toml _).
  destruct (from_toml doc) eqn:Hd; [|done].
  pose proof (atomic_write_loads (policy_at s) doc (io_policy env) ltac:(by rewrite Hd) Hs) as Hw.
  by destruct (atomic_write _ _ _) as [[] sl].
Qed.

Lemma rules_delete_loads env s i : policy_loads s → policy_loads (rules_delete env s i).2.
Proof.
  intros Hs. unfold rules_delete. destruct (current_policy env s) as [p|]; [|done]. destruct (_ <=? _)%nat; [done|].
  set (doc := to_toml _). destruct (from_toml doc) eqn:Hd; [|done].
  pose proof (atomic_write_loads (policy_at s) doc (io_policy env) ltac:(by rewrite Hd) Hs) as Hw.
  by destruct (atomic_write _ _ _) as [[] sl].
Qed.

Lemma raw_save_loads env s doc : policy_loads s → policy_loads (raw_save env s doc).2.
Proof.
  intros Hs. unfold raw_save. destruct (from_toml doc) eqn:Hd; [|done].
  pose proof (atomic_write_loads (policy_at s) doc (io_policy env) ltac:(by rewrite Hd) Hs) as Hw.
  by destruct (atomic_write _ _ _) as [[] sl].
Qed.

Lemma create_policy_loads env s : is_ok (toml_from_str []) = true →
  (∀ f, toml_from_str [] = Ok f → file_rule f = []) → policy_loads s → policy_loads (create_policy env s).2.
Proof.
  intros He Hf Hs. unfold create_policy. destruct (exists_at _); [done|].
  assert (is_ok (from_toml (to_toml policy_empty)) = true) as Hd.
  { unfold from_toml. cbn. destruct (toml_from_str []) as [f|] eqn:Hf'; [|done]. cbn. by rewrite (Hf f eq_refl). }
  pose proof (atomic_write_loads (policy_at s) _ (io_policy env) Hd Hs) as Hw.
  by destruct (atomic_write _ _ _) as [[] sl].
Qed.

Lemma connect_validate_loads env s f v doc : connect_validate env s f = Ok (v, doc) → is_ok (from_toml doc) = true.
Proof.
  unfold connect_validate. destruct (open_vault s); [|done]. cbn [ok_or mbind result_bind].
  do 3 (case_match; [done|]). destruct (decode_public_key _); [|done]. destruct (mechanism _); [|done].
  destruct (candidate_rule _ _ _ _ _ _); [|done]. cbn [ok_or map_err mbind result_bind].
  destruct (current_policy env s); [|done]. cbn [ok_or map_err mbind result_bind]. set (d := to_toml _).
  destruct (from_toml d) eqn:Hd; [|done]. cbn [map_err mbind result_bind]. case_match; [done|]. intros [= _ <-]. by rewrite Hd.
Qed.

Lemma connect_write_policy env s f v doc :
  policy_at (connect_write env s f v doc).2 = policy_at s ∨
  policy_at (connect_write env s f v doc).2 = (atomic_write (policy_at s) doc (io_policy env)).2.
Proof.
  unfold connect_write. destruct (set_entry _ _ _ _ _) as [[] v']; [|by left].
  destruct (enroll _ _ _ _ _ _ _ _) as [[] e']; [|by left].
  destruct (if is_file _ then _ else _) as [[] k]; [|by left].
  destruct (atomic_write (policy_at s) doc (io_policy env)) as [[] sl]; by right.
Qed.

Lemma connect_submit_loads env s f : policy_loads s → policy_loads (connect_submit env s f).2.
Proof.
  intros Hs. unfold connect_submit. destruct (connect_validate env s f) as [[v doc]|] eqn:Hv; [|done].
  apply connect_validate_loads in Hv. unfold policy_loads.
  destruct (connect_write_policy env s f v doc) as [-> | ->]; [done|]. by apply atomic_write_loads.
Qed.

Lemma other_handlers_keep_policy env s :
  (∀ a b, policy_at (create_vault env s a b).2 = policy_at s) ∧ policy_at (create_audit_key env s).2 = policy_at s ∧
  (∀ a b, policy_at (secrets_store env s a b).2 = policy_at s) ∧ (∀ a, policy_at (secrets_delete env s a).2 = policy_at s) ∧
  (∀ a b c d, policy_at (agents_enroll env s a b c d).2 = policy_at s) ∧ (∀ a, policy_at (agents_revoke env s a).2 = policy_at s).
Proof.
  unfold create_vault, create_audit_key, secrets_store, secrets_delete, agents_enroll, agents_revoke.
  split_and!; intros; repeat (case_match; try done).
Qed.

(** The states the handlers lead to. *)
Inductive handler_step (env : UiEnv) (s : UiState) : UiState → Prop :=
| hs_none : handler_step env s s
| hs_create_vault a b : handler_step env s (create_vault env s a b).2
| hs_create_policy : handler_step env s (create_policy env s).2
| hs_create_audit_key : handler_step env s (create_audit_key env s).2
| hs_secrets_store a b : handler_step env s (secrets_store env s a b).2
| hs_secrets_delete a : handler_step env s (secrets_delete env s a).2
| hs_agents_enroll a b c d : handler_step env s (agents_enroll env s a b c d).2
| hs_agents_revoke a : handler_step env s (agents_revoke env s a).2
| hs_rules_add f : handler_step env s (rules_add env s f).2
| hs_rules_delete i : handler_step env s (rules_delete env s i).2
| hs_raw_save d : handler_step env s (raw_save env s d).2
| hs_connect f : handler_step env s (connect_submit env s f).2.

Ltac next_field :=
  match goal with
  | H : context [form_str ?r ?k] |- _ => destruct (form_str r k); [|done]; cbn [mbind option_bind] in H
  | H : context [form_default ?r ?k] |- _ => destruct (form_default r k); [|done]; cbn [mbind option_bind] in H
  | H : context [opt_field ?r ?k] |- _ => destruct (opt_field r k); [|done]; cbn [mbind option_bind] in H
  | H : context [parse_uint ?m ?x] |- _ => destruct (parse_uint m x); [|done]; cbn [mbind option_bind] in H
  end.

Lemma route_post_step env s r a s' : route_post env s r = Some (a, s') → handler_step env s s'.
Proof.
  unfold route_post, enroll_form.
  repeat (case_decide; [intros Hx; repeat next_field; injection Hx as _ <-; constructor|]). done.
Qed.

Lemma ui_serve_step env s r : handler_step env s (ui_serve env s r).2.
Proof.
  unfold ui_serve. destruct (loopback_guard _ _); [constructor|]. destruct (token_gate _ _); [constructor|]. unfold route.
  repeat (case_match; try constructor). destruct (route_post env s r) as [[a s']|] eqn:Hr; [|constructor].
  by eapply route_post_step.
Qed.

Lemma handler_step_loads env s s' : is_ok (toml_from_str []) = true →
  (∀ f, toml_from_str [] = Ok f → file_rule f = []) → policy_loads s → handler_step env s s' → policy_loads s'.
Proof.
  intros He Hf Hs Hstep. destruct (other_handlers_keep_policy env s) as (K1 & K2 & K3 & K4 & K5 & K6).
  destruct Hstep;
    first [done | by apply create_policy_loads | by apply rules_add_loads | by apply rules_delete_loads
          | by apply raw_save_loads | by apply connect_submit_loads
          | unfold policy_loads; rewrite ?K1, ?K2, ?K3, ?K4, ?K5, ?K6; done].
Qed.

(** C28: Whatever is sent to the UI, one request after another, with whatever
    outcome of the file operations, a policy file that loads stays one that
    loads: every handler validates what it writes by the gateway's own loader.
    (The empty document is assumed to be a ruleset without rules.) *)
Theorem ui_keeps_policy_loadable s rs : is_ok (toml_from_str []) = true →
  (∀ f, toml_from_str [] = Ok f → file_rule f = []) → policy_loads s →
  policy_loads (fold_left (λ s er, (ui_serve er.1 s er.2).2) rs s).
Proof.
  intros He Hf. revert s. induction rs as [|[env r] rs IH]; intros s Hs; [done|]. cbn [fold_left fst snd]. apply IH.
  eapply handler_step_loads; [done..|]. apply ui_serve_step.
Qed.

(** *** The connect flow writes its rule last *)

Lemma set_entry_get v e x n io v' : set_entry v e x n io = (Ok tt, v') → get_entry (handle v') e = Ok (Some x).
Proof.
  unfold set_entry. destruct (decrypt_entries (handle v)) as [b|]; [|done]. unfold rewrite_body.
  destruct (encrypt_body _ n _) as [ct|] eqn:Hc; [|done]. destruct (persist _ _ io) as [r fl].
  intros [= _ <-]. unfold get_entry. change (decrypt_entries _) with (decrypt_body (dek (handle v)) n ct).
  rewrite (decrypt_encrypt_body _ _ _ _ Hc). simpl. by rewrite lookup_insert_eq.
Qed.

Lemma enroll_lookup s id pk sp nm now force io s' : enroll s id pk sp nm now force io = (Ok tt, s') →
  ∃ k, decode_public_key pk = Ok k ∧ lookup_key s' id = Some k.
Proof.
  unfold enroll. case_match; [done|]. case_match; [done|]. destruct (decode_public_key pk) as [k|]; [|done].
  set (ins := Enrollment.persist _ io). assert (ins = (Ok tt, s') → lookup_key s' id = Some k) as Hins.
  { unfold ins, Enrollment.persist. repeat case_match; try done; intros [= <-];
      unfold lookup_key; cbn; by rewrite lookup_insert_eq. }
  intros Hx. exists k. split; [done|]. apply Hins. repeat case_match; try done.
Qed.

(** The rule is the last thing written.  If the connect flow changed the
    policy file, then the secret is already served by the vault under the
    credential's path, the agent is enrolled with the key of the form, the
    audit key exists, and the file is the old ruleset with one rule added;
    whatever fails before leaves the policy as it was. *)
Theorem connect_rule_last env s f :
  policy_at (connect_submit env s f).2 ≠ policy_at s →
  let s' := (connect_submit env s f).2 in
  ∃ v p rule k, open_vault s' = Some v ∧
    get_entry (handle v) (cred_path (trim (c_cred_ref f))) = Ok (Some (c_secret f)) ∧
    decode_public_key (trim (c_public_key f)) = Ok k ∧ lookup_key (enrollment s') (trim (c_agent_id f)) = Some k ∧
    is_file (audit_key_at s') = true ∧ current_policy env s = Ok p ∧
    policy_at s' = File (to_toml (from_rules (rules p ++ [rule]))).
Proof.
  unfold connect_submit. destruct (connect_validate env s f) as [[v doc]|] eqn:Hv; [|done].
  assert (∃ p rule, current_policy env s = Ok p ∧ doc = to_toml (from_rules (rules p ++ [rule]))) as (p & rule & Hp & Hdoc).
  { revert Hv. unfold connect_validate. destruct (open_vault s); [|done]. cbn [ok_or mbind result_bind].
    do 3 (case_match; [done|]). destruct (decode_public_key _); [|done]. destruct (mechanism _); [|done].
    destruct (candidate_rule _ _ _ _ _ _) as [r|]; [|done]. cbn [ok_or map_err mbind result_bind].
    destruct (current_policy env s) as [p|]; [|done]. cbn [ok_or map_err mbind result_bind].
    destruct (from_toml _); [|done]. cbn [map_err mbind result_bind]. case_match; [done|]. intros [= _ <-]. by eexists p, _. }
  unfold connect_write. destruct (set_entry _ _ _ _ _) as [[[]|] v'] eqn:H1'; [|done].
  destruct (enroll _ _ _ _ _ _ _ _) as [[[]|] e'] eqn:H2'; [|done].
  destruct (if is_file (audit_key_at s) then _ else _) as [[[]|] k'] eqn:H3'; [|done].
  destruct (atomic_write (policy_at s) doc (io_policy env)) as [[[]|] sl] eqn:H4'.
  2:{ cbn. intros Hne. exfalso. apply Hne. revert H4'. unfold atomic_write. by repeat case_match; intros [= _ <-]. }
  intros _. cbn [snd set_policy set_audit_key set_enrollment set_vault policy_at open_vault enrollment audit_key_at].
  apply set_entry_get in H1'. apply enroll_lookup in H2' as (k & Hk & Hl).
  exists v', p, rule, k. split_and!; try done.
  - destruct (is_file (audit_key_at s)) eqn:Hi; [by injection H3' as <-|].
    revert H3'. unfold atomic_write. by repeat case_match; intros [= <-].
  - rewrite <- Hdoc. revert H4'. unfold atomic_write. by repeat case_match; intros [= <-].
Qed.

(** *** The preview shows the rule that is saved *)

Lemma form_matcher_parse raw : parse raw = Ok (form_matcher raw).
Proof. unfold form_matcher, parse. by repeat case_match. Qed.

Lemma preview_pairs ls li : match form_pairs li ls with Ok ps => candidate_pairs ls = Some ps | Err _ => candidate_pairs ls = None end.
Proof.
  revert li. induction ls as [|l ls IH]; intros li; [done|]. cbn [form_pairs candidate_pairs].
  destruct (is_empty (trim l)); [apply IH|]. destruct (split_once Byte.x7c (trim l)) as [[cred target]|]; [|done].
  cbn [ok_or mbind result_bind option_bind]. rewrite !form_matcher_parse. cbn [map_err mbind result_bind].
  specialize (IH (li + 1)). by destruct (form_pairs (li + 1) ls); rewrite IH.
Qed.

(** For every form of the editor, the rule the preview describes and the
    rule that is saved match the same requests with the same effect, and where
    the editor refuses the pair lines there is no preview. *)
Theorem preview_is_saved_rule f :
  let preview := candidate_rule (f_mechanism f) (trim (f_target_uri f)) (trim (f_agent_id f)) (trim (f_cred_ref f))
                   (f_effect f) (f_pairs f) in
  match form_pairs 0 (lines (f_pairs f)), effect_parse (f_effect f) with
  | Ok ps, Some eff => ∃ r, preview = Some r ∧ rule_effect r = rule_effect (rule_of_form f ps) ∧
      ∀ q, covers r q ↔ covers (rule_of_form f ps) q
  | _, _ => preview = None
  end.
Proof.
  pose proof (preview_pairs (lines (f_pairs f)) 0) as Hp. unfold candidate_rule.
  destruct (form_pairs 0 (lines (f_pairs f))) as [ps|e]; rewrite Hp; destruct (effect_parse (f_effect f)) as [eff|] eqn:He;
    try done. cbn [mbind option_bind]. eexists. split; [done|]. cbn. rewrite He. done.
Qed.

(** *** Markup *)

(** The preview of a rule has the same tags and quotes whatever its texts. *)
Theorem preview_block_safe rule :
  markup (preview_block rule) =
    markup (html "<div class=`card`><strong>Preview (not saved yet)</strong><br>") ++
    (if is_empty (pairs_sentence rule) then [] else markup "<br>") ++
    match boundary_caveat rule with Some _ => markup (html "<p class=`err`>") ++ markup "</p>" | None => [] end ++ markup "</div>".
Proof.
  unfold preview_block. rewrite !markup_app, markup_esc.
  destruct (is_empty (pairs_sentence rule)), (boundary_caveat rule); rewrite ?markup_app, ?markup_esc; reflexivity.
Qed.

(** The verdict puts the name of the rule into the page as it is. *)
Theorem verdict_block_unescaped eff name :
  ∃ before after, verdict_block eff (source_label (ByRule 0 (Some name) None)) = before ++ name ++ after.
Proof.
  unfold verdict_block. set (plain := if decide _ then _ else _).
  exists (html "<div class=`card`><strong>Verdict: " ++ plain ++
          html "</strong><br><span class=`muted`>reached by</span> <code>" ++ "rule[0] (").
  exists (")" ++ [] ++ "</code></div>"). cbn [source_label]. rewrite <- !app_assoc. done.
Qed.
End Ops.

(** ** Concrete requests *)

Section Witnesses.
#[local] Existing Instances toy_base64 toy_aead toy_argon2 toy_serde toy_debug toy_sha256 toy_ed25519.

(** A deserializer under which every document is the empty ruleset. *)
Definition no_rules_toml : Toml := {| toml_from_str _ := Ok {| file_rule := [] |}; toml_quote s := s |}.
#[local] Existing Instance no_rules_toml.

Definition an_env : UiEnv :=
  {| ui_now := "t0"; new_seed := replicate 32 Byte.x05; new_key := Byte.x05; new_salt := "saltsaltsaltsalt"; new_dek := a_dek;
     new_wrap_nonce := a_nonce Byte.x01; new_nonce := a_nonce Byte.x09; io_policy := None; io_key := None;
     io_vault := None; io_enroll := None; read_error := "No such file or directory" |}.

Definition a_ui : UiState :=
  {| policy_path := "/p"; vault_path := "/v"; policy_at := File []; open_vault := Some store0; sealed_file := None;
     enrollment := {| Enrollment.path := true; agents := ∅; disk := None |}; audit_key_at := Missing; ui_gateway := None;
     ui_token := {| raw := "tok" |}; ui_port := 8765 |}.

Definition post (path : str) (fields : list (str * str)) : WebRequest :=
  {| rq_method := "POST"; rq_path := path; rq_query := None; rq_host := Some ("127.0.0.1:8765" : str); rq_origin := None;
     rq_cookie := Some ("a=b; chaperone_ui=tok" : str); rq_form := fields |}.

Definition raw_request : WebRequest := post "/policy/raw" [("doc" : str, "# none" : str)].

Lemma ui_changes_need_token_witness :
  policy_at (ui_serve an_env a_ui raw_request).2 = File "# none" ∧ extract_cookie (rq_cookie raw_request) = Some ("tok" : str).
Proof.
  split; [vm_compute; reflexivity|]. apply (ui_changes_need_token an_env a_ui raw_request).
  intros Heq. apply (f_equal policy_at) in Heq. vm_compute in Heq. discriminate.
Defined.

Lemma ui_keeps_policy_loadable_witness :
  policy_loads (fold_left (λ s er, (ui_serve er.1 s er.2).2) [(an_env, raw_request); (an_env, post "/setup/policy" [])] a_ui).
Proof. apply ui_keeps_policy_loadable; [reflexivity|by intros f [= <-]|reflexivity]. Defined.

Definition a_connect : ConnectForm :=
  {| c_mechanism := "ssh"; c_agent_id := "agent:a"; c_cred_ref := "local://prod/key"; c_target_uri := "ssh://h"; c_effect := "allow";
     c_public_key := hex_bytes (replicate 32 Byte.x41); c_sponsor_id := "human:x"; c_sponsor_name := "X"; c_secret := "s3cret" |}.

Lemma connect_rule_last_witness :
  ∃ v, open_vault (connect_submit an_env a_ui a_connect).2 = Some v ∧
    get_entry (handle v) "prod/key" = Ok (Some ("s3cret" : str)) ∧
    is_file (audit_key_at (connect_submit an_env a_ui a_connect).2) = true.
Proof.
  destruct (connect_rule_last an_env a_ui a_connect) as (v & p & rule & k & H1 & H2 & _ & _ & H5 & _).
  - intros Heq. vm_compute in Heq. discriminate.
  - exists v. split_and!; [exact H1|exact H2|exact H5].
Defined.

(** The UI stores and deletes under the certificate authority's name, which
    the command line and the import refuse. *)
Theorem ui_reaches_ca_key :
  let s1 := (ui_serve an_env a_ui (post "/secrets" [("path" : str, CA_ENTRY); ("value" : str, "mine" : str)])).2 in
  let s2 := (ui_serve an_env s1 (post "/secrets/delete" [("path" : str, CA_ENTRY)])).2 in
  starts_with CA_NAMESPACE CA_ENTRY = true ∧
  (v ← open_vault s1; Some (get_entry (handle v) CA_ENTRY)) = Some (Ok (Some ("mine" : str))) ∧
  (v ← open_vault s2; Some (get_entry (handle v) CA_ENTRY)) = Some (Ok None).
Proof. split_and!; vm_compute; reflexivity. Qed.

(** A stored path loses its outer slashes, a deleted one does not. *)
Example delete_needs_exact_path :
  let s1 := (secrets_store an_env a_ui "/db/" "x").2 in
  (secrets_delete an_env s1 "/db/").1 = redirect "/secrets?msg=was+not+present" ∧
  (secrets_delete an_env s1 "db").1 = redirect "/secrets?msg=deleted".
Proof. split; vm_compute; reflexivity. Qed.

(** The catalogue: each mechanism has a template, each template's target is a
    matcher that accepts itself. *)
Example catalogue_consistent :
  forallb (λ m, negb (bool_decide (templates_for (mech_id m) = [])) && bool_decide (mech_id <$> mechanism (mech_id m) = Some (mech_id m)))
    MECHANISMS = true ∧
  forallb (λ t, match parse (t_target_uri t) with Ok m => matches m (t_target_uri t) | Err _ => false end) TEMPLATES = true.
Proof. split; vm_compute; reflexivity. Qed.
End Witnesses.
