(* ===== verification/UiPages.v ===== *)
(** The pages of the operator UI: the GET handlers of [crates/ui/src/pages.rs],
    [setup.rs], [connect.rs] and [lib.rs], and the decision test of
    [pages.rs].

    A page is the text the handler sends, built from the state of [UiOps] and
    from [PageView], what a page shows besides.  Markup is written with [html].
    The theorems say that a page has only the tags and attributes the program
    wrote, and that a stored secret shows in no page beyond its length. *)

From stdpp Require Import sorting.
From S2P Require Import Prelude Strs Json Extern Toy Protocol Matcher Policy Enrollment SshCa Vault UiWeb UiOps.
#[local] Open Scope Z_scope.

(** ** Text *)

(** [str::replace('+', " ")]. *)
Definition plus_to_space (s : str) : str := (λ b, if decide (b = Byte.x2b) then Byte.x20 else b) <$> s.

(** [s.get(..n)]: the end must be a boundary between characters. *)
Definition get_to (n : nat) (s : str) : option str :=
  if decide (n = length s) then Some s
  else match s !! n with
       | Some b => if cont b then None else Some (take n s)
       | None => None
       end.

Definition nl : str := [zb 10].

(** A query, decoded by the framework. *)
Abbreviation query := (gmap str str).
Definition q_get (q : query) (k : str) : str := default [] (q !! k).

(** [flash_from]. *)
Definition flash_from (flash : query) : option str * option str :=
  (plus_to_space <$> flash !! ("msg" : str), plus_to_space <$> flash !! ("err" : str)).

(** [short_hash]. *)
Definition short_hash (hash : str) : str := take_chars 12 hash.

(** [axis_text]. *)
Definition axis_text (m : Matcher) : str := default "*" (source m).

(** What the pages show and the handlers of [UiOps] do not use: the gateway's
    ruleset and why it halted, the event feed, the remaining paths. *)
Record PageView : Type := {
  ruleset_hash : str;
  halt_reason : option str;
  subscriber_count : option nat;
  events_socket_path : option str;
  enrollment_path : str;
  audit_key_path : str;
}.

Section Pages.
Context `{Base64, Aead, Argon2, DebugFmt, SerdeText Header, SerdeText Body, Toml, Sha256, Ed25519, SerdeText StoreFile}.

(** [halted], [halted_reason]. *)
Definition halted (pv : PageView) (s : UiState) : option str :=
  match ui_gateway s with Some true => Some (default [] (halt_reason pv)) | _ => None end.

(** [v.lock().list().ok()] of the open vault. *)
Definition vault_paths (s : UiState) : option (list str) :=
  v ← open_vault s; match list_entries (handle v) with Ok l => Some l | Err _ => None end.

(** ** pages.rs: status *)

Definition broker_line (pv : PageView) (s : UiState) : str :=
  match ui_gateway s with
  | Some h => "<p>Broker: <strong>" ++ (if h then "HALTED" else "brokering") ++ "</strong> · ruleset <code>" ++
              esc (short_hash (ruleset_hash pv)) ++ "</code></p>"
  | None => html "<p>Broker: <strong>not running</strong> (setup mode — finish <a href=`/setup`>setup</a>, then start <code>chaperone serve</code>).</p>"
  end.

Definition setup_line (p : Provision) : str :=
  if complete p then []
  else html "<div class=`err`>Setup incomplete: " ++ show (missing p) ++ " step" ++
       (if missing p =? 1 then [] else "s") ++ html " pending. <a href=`/setup`>Continue setup</a>.</div>".

Definition live_agents (s : UiState) : list EnrollmentRecord :=
  filter (λ r, revoked_at r = None) (list_records (enrollment s)).

Definition counters (env : UiEnv) (s : UiState) : str :=
  let rules := match current_policy env s with Ok p => policy_len p | Err _ => 0%nat end in
  let secrets := default 0%nat (length <$> vault_paths s) in
  html "<div class=`grid`><div class=`card`><h2><a href=`/rules`>Rules</a></h2><p style=`font-size:2rem;margin:.2rem 0`>" ++
  show (Z.of_nat rules) ++
  html "</p><p class=`muted`>first-match-wins, default-deny underneath</p></div><div class=`card`><h2><a href=`/secrets`>Secrets</a></h2><p style=`font-size:2rem;margin:.2rem 0`>" ++
  show (Z.of_nat secrets) ++
  html "</p><p class=`muted`>values never displayed once stored</p></div></div><div class=`card`><h2><a href=`/agents`>Agents</a></h2><p style=`font-size:2rem;margin:.2rem 0`>" ++
  show (zlen (live_agents s)) ++ html "</p><p class=`muted`>live enrollments</p></div>".

Definition feed_line (pv : PageView) : str :=
  match subscriber_count pv, events_socket_path pv with
  | Some n, Some path =>
      html "<div class=`card`><h2>Event feed</h2><p>" ++ show (Z.of_nat n) ++ " subscribers on <code>" ++ esc path ++
      html "</code>.<br><span class=`muted`>tail with: <code>chaperone tail --socket " ++ esc path ++
      "</code> or any stream reader.</span></p></div>"
  | _, _ => html "<p class=`muted`>Event feed not bound; start serve with <code>--events-socket PATH</code> to broadcast decisions live.</p>"
  end.

(** [dashboard]. *)
Definition dashboard (pv : PageView) (env : UiEnv) (s : UiState) (flash : query) : str :=
  let prov := provisioned s in
  let body := "<h1>Status</h1>" ++ broker_line pv s ++ setup_line prov ++ counters env s ++ feed_line pv in
  layout "Status" (missing prov) (halted pv s) (flash_from flash).1 (flash_from flash).2 body.

(** ** pages.rs: secrets *)

Definition held_bytes (v : LocalVault) (path : str) : Z :=
  match get_entry v path with Ok (Some x) => zlen x | _ => 0 end.

Definition secret_row (v : LocalVault) (path : str) : str :=
  "<tr><td><code>" ++ esc path ++ html "</code></td><td class=`muted`>[redacted] " ++ show (held_bytes v path) ++
  html " bytes present</td><td><form class=`inline` method=`post` action=`/secrets/delete`><input type=`hidden` name=`path` value=`" ++
  esc path ++ html "`><button class=`danger` type=`submit`>delete</button></form></td></tr>".

Definition secrets_table (v : LocalVault) : str :=
  match list_entries v with
  | Ok paths =>
      match merge_sort key_le paths with
      | [] => html "<p class=`muted`>No secrets stored yet.</p>"
      | paths => "<table><tr><th>Path</th><th>Held value</th><th></th></tr>" ++ mjoin (secret_row v <$> paths) ++ "</table>"
      end
  | Err e => html "<div class=`err`>vault list failed: " ++ esc (vault_error_str e) ++ "</div>"
  end.

Definition secret_form : str :=
  html "<h2>Add or rotate a secret</h2><p class=`muted`>Storing an existing path again rotates it in place (same path, new value — cred_refs never change). The value is never re-displayed afterwards.</p>" ++
  html "<form method=`post` action=`/secrets`>" ++
  field "Vault path (e.g. prod/github/token)" (html "<input name=`path` required placeholder=`prod/github/token`>") ++
  field "Value (paste once; never shown again)" (html "<textarea name=`value` rows=`3` required spellcheck=`false`></textarea>") ++
  html "<button type=`submit`>Store secret</button></form>".

(** [secrets_page]. *)
Definition secrets_page (pv : PageView) (s : UiState) (flash : query) : str :=
  let body := match open_vault s with
              | None => html "<div class=`err`>The vault is not open. Complete <a href=`/setup`>setup</a>, or restart the daemon and enter its passphrase.</div>"
              | Some v => secrets_table (handle v) ++ secret_form
              end in
  layout "Secrets" (setup_pending s) (halted pv s) (flash_from flash).1 (flash_from flash).2 ("<h1>Secrets</h1>" ++ body).

(** ** pages.rs: agents *)

Definition agent_row (r : EnrollmentRecord) : str :=
  let live := bool_decide (revoked_at r = None) in
  let '(status, class) := if live then ("live" : str, "allow" : str) else ("REVOKED" : str, "deny" : str) in
  let action := if live then
      html "<form class=`inline` method=`post` action=`/agents/revoke`><input type=`hidden` name=`agent_id` value=`" ++
      esc (agent_id r) ++ html "`><button class=`danger` type=`submit`>revoke</button></form>"
    else [] in
  "<tr><td><code>" ++ esc (agent_id r) ++ html "</code></td><td><span class=`badge " ++ class ++ html "`>" ++ status ++
  html "</span></td><td class=`muted`>" ++ esc (enrolled_at r) ++ html "</td><td class=`muted`>" ++
  esc (if is_empty (sponsor_id r) then "<none: pre-RAE legacy>" else sponsor_id r) ++ html "</td><td class=`muted`>" ++
  esc (default (public_key r) (get_to 12 (public_key r))) ++ "...</td><td>" ++ action ++ "</td></tr>".

Definition agents_table (rs : list EnrollmentRecord) : str :=
  match rs with
  | [] => html "<p class=`muted`>No agents enrolled yet.</p>"
  | rs => "<table><tr><th>Agent</th><th>Status</th><th>Enrolled</th><th>Sponsor</th><th>Key</th><th></th></tr>" ++
          mjoin (agent_row <$> rs) ++ "</table>"
  end.

Definition enroll_page_form : str :=
  html "<h2>Enroll an agent</h2><p class=`muted`>Paste the agent's public key: base64url of exactly 32 bytes (what its key store publishes out-of-band), not a JSON blob.</p>" ++
  html "<form method=`post` action=`/agents/enroll`>" ++
  field "Agent id" (html "<input name=`agent_id` required placeholder=`agent:my-agent`>") ++
  field "Public key (base64url, 32 bytes)" (html "<input name=`public_key` required spellcheck=`false`>") ++
  field "Sponsor id (RAE: the human vouching for this agent)" (html "<input name=`sponsor_id` required placeholder=`you@example.com or @gh-handle`>") ++
  field "Sponsor name" (html "<input name=`sponsor_name` required placeholder=`Jane Q. Operator`>") ++
  html "<button type=`submit`>Enroll</button></form>".

(** [agents_page]. *)
Definition agents_page (pv : PageView) (s : UiState) (flash : query) : str :=
  layout "Agents" (setup_pending s) (halted pv s) (flash_from flash).1 (flash_from flash).2
    ("<h1>Agents</h1>" ++ agents_table (list_records (enrollment s)) ++ enroll_page_form).

(** ** pages.rs: rules *)

Definition rule_axes (r : Rule) : str :=
  "agent=" ++ axis_text (rule_agent_id r) ++ " · cred=" ++ axis_text (rule_cred_ref r) ++ " · target=" ++
  axis_text (rule_target_uri r) ++ " · mech=" ++ axis_text (rule_mechanism r).

Definition rule_pairs_text (r : Rule) : str :=
  match pairs r with
  | [] => []
  | ps => " · " ++ show (zlen ps) ++ " pair(s): " ++
          join "; " ((λ p, axis_text (pair_cred_ref p) ++ " → " ++ axis_text (pair_target_uri p)) <$> ps)
  end.

Definition rule_limits_text (l : Limits) : str :=
  (match max_response_bytes l with Some v => "max_response=" ++ show v | None => [] end) ++
  (match session_ttl_s l with Some v => " ttl=" ++ show v ++ "s" | None => [] end).

Definition rule_row (index : nat) (r : Rule) : str :=
  "<tr><td>" ++ show (Z.of_nat index) ++ "</td><td>" ++ esc (default [] (rule_name r)) ++ "</td><td>" ++
  effect_badge (effect_str (rule_effect r)) ++ html "</td><td class=`muted`>" ++ esc (rule_axes r ++ rule_pairs_text r) ++
  "</td><td>" ++ (if notify_on_use r then "✅" else "—") ++ html "</td><td class=`muted`>" ++
  esc (trim (rule_limits_text (limits r))) ++
  html "</td><td><form class=`inline` method=`post` action=`/rules/delete`><input type=`hidden` name=`index` value=`" ++
  show (Z.of_nat index) ++ html "`><button class=`danger` type=`submit`>delete</button></form></td></tr>".

Definition rules_table (p : Policy) : str :=
  if policy_is_empty p then
    html "<p class=`muted`>No rules: EVERYTHING is denied by the structural default-deny floor. Add your first rule below.</p>"
  else "<table><tr><th>#</th><th>Name</th><th>Effect</th><th>Match axes</th><th>Notify</th><th>Limits</th><th></th></tr>" ++
       mjoin (imap rule_row (rules p)) ++ "</table>".

Definition rules_body (pol : result str Policy) : str :=
  match pol with
  | Err e => html "<div class=`err`>policy.toml does not parse: " ++ esc e ++
             html " <a href=`/policy/raw`>Fix it in the raw editor</a>.</div>"
  | Ok p => rules_table p ++
            html "<p><a href=`/rules/new`><button type=`button`>Add a rule</button></a> or <a href=`/policy/raw`>edit the TOML directly</a>.</p>"
  end.

(** [rules_page]. *)
Definition rules_page (pv : PageView) (env : UiEnv) (s : UiState) (flash : query) : str :=
  layout "Rules" (setup_pending s) (halted pv s) (flash_from flash).1 (flash_from flash).2
    ("<h1>Rules</h1>" ++ rules_body (current_policy env s)).

(** ** pages.rs: the rule editor *)

Definition selected (b : bool) : str := if b then " selected" else [].

Definition mechanism_option (mech : str) (m : Mechanism) : str :=
  html "<option value=`" ++ mech_id m ++ html "`" ++ selected (bool_decide (mech_id m = mech)) ++ ">" ++
  esc (mech_label m) ++ " [" ++ maturity_badge (maturity m) ++ "]</option>".

Definition template_option (template_id : str) (t : ServiceTemplate) : str :=
  html "<option value=`" ++ esc (t_name t) ++ html "`" ++ selected (bool_decide (t_name t = template_id)) ++ ">" ++
  esc (t_name t) ++ "</option>".

Definition template_picker (mech template_id : str) : str :=
  match templates_for mech with
  | [] => html "<button type=`submit`>Choose →</button>"
  | ts => html "<p><label><strong>Service template</strong><br><select name=`template`>" ++
          html "<option value=``>custom (free-text target)</option>" ++ mjoin (template_option template_id <$> ts) ++
          "</select></label></p>" ++ html "<button type=`submit` formnovalidate>Load template →</button>"
  end.

Definition mechanism_card (mech : str) : str :=
  match mechanism mech with
  | Some m => html "<div class=`card`><strong>" ++ esc (mech_label m) ++ html "</strong> <span class=`badge`>" ++
              maturity_badge (maturity m) ++ html "</span><br><span class=`muted`>Lifecycle: " ++ esc (lifecycle m) ++
              " · Vault holds: " ++ esc (credential_form m) ++ " · Confirmation: " ++ esc (confirmation m) ++ "</span></div>"
  | None => []
  end.

(** The chosen template. *)
Definition chosen_template (mech template_id : str) : option ServiceTemplate :=
  find_map (λ t, if decide (t_name t = template_id) then Some t else None) (templates_for mech).

Definition template_note (mech template_id : str) : str :=
  match chosen_template mech template_id ≫= t_note with
  | Some note => html "<div class=`err`>" ++ esc note ++ "</div>"
  | None => []
  end.

Definition agent_options (rs : list EnrollmentRecord) : str :=
  html "<datalist id=`agent-ids`>" ++ mjoin ((λ r, html "<option value=`" ++ esc (agent_id r) ++ html "`>") <$> rs) ++ "</datalist>".

Definition cred_options (paths : list str) : str :=
  html "<datalist id=`cred-refs`>" ++ mjoin ((λ p, html "<option value=`local://" ++ esc p ++ html "`>") <$> paths) ++ "</datalist>".

(** The stage-1 form: mechanism and template. *)
Definition rules_new_picker (mech template_id : str) : str :=
  "<h1>Add a rule</h1>" ++
  html "<p class=`muted`>Step 1: choose how the agent reaches out. Badges are the CONNECTIVITY-MATRIX maturity column — read a ⚠️ caveat BEFORE building on it.</p>" ++
  html "<form method=`get` action=`/rules/new`>" ++
  html "<p><label><strong>Mechanism</strong><br><select name=`mechanism`>" ++
  mjoin (mechanism_option mech <$> MECHANISMS) ++ "</select></label></p>" ++
  template_picker mech template_id ++ "</form>" ++ mechanism_card mech ++ template_note mech template_id.

(** The effects offered. *)
Definition effect_select (eff : str) : str :=
  html "<select name=`effect`>" ++ nl ++
  html "         <option value=`allow`" ++ selected (bool_decide (eff = ("allow" : str))) ++ ">allow — proceed without prompting</option>" ++ nl ++
  html "         <option value=`needs_confirmation`" ++ selected (bool_decide (eff = ("needs_confirmation" : str))) ++
  ">needs_confirmation — human gate each use</option>" ++ nl ++
  html "         <option value=`deny`" ++ selected (bool_decide (eff = ("deny" : str))) ++ ">deny — explicit refusal</option></select>".

Definition pairs_field (prefill : str) : str :=
  html "<textarea name=`pairs` rows=`4` spellcheck=`false` placeholder=`local://ssh/fleet/app-01 | ssh://app-01.internal:22&#10;local://ssh/fleet/app-02 | ssh://app-02.internal:22`>" ++
  esc prefill ++
  html "</textarea><p class=`muted`>Leave blank for a plain axis rule. When set, the request must match one binding <em>in addition</em> to the axes above — this is how one rule binds each fleet key to its own host (D43). Each field takes the same <code>glob:</code>/<code>prefix:</code>/<code>exact:</code> tags as the axes; a bare value is an exact match.</p>".

Definition preview_or_not (c : option Rule) : str :=
  match c with
  | Some r => preview_block r
  | None => html "<div class=`card`><strong>Preview unavailable</strong><br><span class=`muted`>the effect is not one of allow / needs_confirmation / deny, so there is nothing valid to describe              yet.</span></div>"
  end.

(** The values the stage-2 form starts with. *)
Definition target_prefill (q : query) (mech template_id : str) : str :=
  if is_empty (q_get q "target_uri") then default [] (t_target_uri <$> chosen_template mech template_id) else q_get q "target_uri".
Definition effect_prefill (q : query) : str := if is_empty (q_get q "effect") then "allow" else q_get q "effect".

(** The stage-2 form: the whole rule. *)
Definition rules_new_form (s : UiState) (q : query) (mech template_id : str) : str :=
  html "<form method=`post` action=`/rules/add`>" ++
  html "<input type=`hidden` name=`mechanism` value=`" ++ esc mech ++ html "`>" ++
  field "Rule name (optional)" (html "<input name=`name` placeholder=`ci agent may read github`>") ++
  field "Target URI glob (free text; templates prefill a tested shape)"
    (html "<input name=`target_uri` placeholder=`https://api.example.com/*` value=`" ++ esc (target_prefill q mech template_id) ++
     html "` spellcheck=`false`>") ++
  agent_options (list_records (enrollment s)) ++ cred_options (default [] (vault_paths s)) ++
  html "<div class=`grid`><p><label><strong>Agent id</strong> (empty = any)<br><input name=`agent_id` list=`agent-ids` value=`" ++
  esc (q_get q "agent_id") ++
  html "` placeholder=`agent:my-agent` spellcheck=`false`></label></p><p><label><strong>Credential reference</strong> (scheme://path)<br><input name=`cred_ref` list=`cred-refs` value=`" ++
  esc (q_get q "cred_ref") ++ html "` placeholder=`local://prod/github/token` spellcheck=`false`></label></p></div>" ++
  field "Effect" (effect_select (effect_prefill q)) ++
  html "<p><label><input type=`checkbox` name=`notify_on_use` checked> notify me when this credential is used (on_use)</label></p>" ++
  field "Credential-to-endpoint bindings (optional; one per line: cred_ref | target_uri)" (pairs_field (q_get q "pairs")) ++
  html "<div class=`grid`>" ++
  field "Max response bytes (optional)" (html "<input name=`max_response_bytes` inputmode=`numeric` placeholder=`1048576`>") ++
  field "Session TTL seconds (optional)" (html "<input name=`session_ttl_s` inputmode=`numeric` placeholder=`300`>") ++ "</div>" ++
  preview_or_not (candidate_rule mech (target_prefill q mech template_id) (q_get q "agent_id") (q_get q "cred_ref")
                    (effect_prefill q) (q_get q "pairs")) ++
  html "<p><button type=`submit`>Validate &amp; save rule</button> <a href=`/policy/test`>Test a request against the saved rules →</a></p></form>".

(** [rules_new]. *)
Definition rules_new (pv : PageView) (s : UiState) (q : query) : str :=
  let mech := q_get q "mechanism" in
  let template_id := q_get q "template" in
  layout "Add rule" (setup_pending s) (halted pv s) None None (rules_new_picker mech template_id ++ rules_new_form s q mech template_id).

(** ** pages.rs: the document and the decision test *)

(** [std::fs::read_to_string(&state.policy_path).unwrap_or_default()]. *)
Definition policy_text (s : UiState) : str := match policy_at s with File d => d | _ => [] end.

(** [raw_page]. *)
Definition raw_page (pv : PageView) (s : UiState) (flash : query) : str :=
  let err := match (flash_from flash).2 with
             | Some e => html "<div class=`err`>" ++ esc (plus_to_space e) ++ "</div>"
             | None => []
             end in
  layout "Policy TOML" (setup_pending s) (halted pv s) None None
    ("<h1>Policy TOML</h1>" ++ err ++
     html "<form method=`post` action=`/policy/raw`><textarea name=`doc` rows=`18` spellcheck=`false`>" ++ esc (policy_text s) ++
     html "</textarea><p><button type=`submit`>Validate &amp; save</button> <span class=`muted`>saved through the one validator; invalid documents are refused</span></p></form>").

Definition back_to_rules : str := html "<p><a href=`/rules`>Back to rules</a></p>".

Definition test_form (agent cred target mech : str) : str :=
  html "<form method=`post` action=`/policy/test` class=`card`><input name=`agent_id` value=`" ++ esc agent ++
  html "` placeholder=`agent:my-agent` spellcheck=`false`><br><input name=`cred_ref` value=`" ++ esc cred ++
  html "` placeholder=`local://prod/github/token` spellcheck=`false`><br><input name=`target_uri` value=`" ++ esc target ++
  html "` placeholder=`https://api.github.com/user` spellcheck=`false`><br><input name=`mechanism` value=`" ++ esc mech ++
  html "` placeholder=`http-bearer` spellcheck=`false`><p><button type=`submit`>Evaluate</button> <span class=`muted`>runs the real engine against your saved rules; nothing is enforced and nothing is contacted</span></p></form>".

(** The body of the test page, for the decision or the error of the document. *)
Definition test_body (d : result PolicyError Decision) (agent cred target mech : str) : str :=
  "<h1>Decision test</h1>" ++
  match d with
  | Err e => html "<div class=`err`>The saved policy did not load, so no verdict can be given: " ++ policy_error_str e ++ "</div>" ++
             back_to_rules
  | Ok d => verdict_block (effect_str (effect d)) (source_label (d_source d)) ++ test_form agent cred target mech ++ back_to_rules
  end.

(** [policy_test]; the decision is [UiOps.policy_test]. *)
Definition policy_test_page (pv : PageView) (s : UiState) (agent cred target mech : str) : str :=
  layout "Decision test" (setup_pending s) (halted pv s) None None
    (test_body (policy_test s agent cred target mech) agent cred target mech).

(** ** connect.rs *)

Definition connect_option (mech : str) (m : Mechanism) : str :=
  html "<option value=`" ++ esc (mech_id m) ++ html "`" ++ selected (bool_decide (mech_id m = mech)) ++ ">" ++
  esc (mech_label m) ++ " [" ++ maturity_badge (maturity m) ++ "]</option>".

Definition connect_card (mech : str) : str :=
  match mechanism mech with
  | Some m => html "<div class=`card`><strong>" ++ esc (mech_label m) ++ html "</strong> <span class=`badge`>" ++
              maturity_badge (maturity m) ++ html "</span><br><span class=`muted`>Holds: " ++ esc (credential_form m) ++
              " &middot; Confirmation: " ++ esc (confirmation m) ++ "</span></div>"
  | None => []
  end.

Definition connect_fields : str :=
  field "Which agent? (the enrolled identity)" (html "<input name=`agent_id` placeholder=`agent:my-agent` spellcheck=`false` required>") ++
  field "Whose credential is responsible? (RAE L0 — attribution must terminate at a named human)"
    (html "<input name=`sponsor_id` placeholder=`human:alice` spellcheck=`false` required>") ++
  field "Sponsor name" (html "<input name=`sponsor_name` placeholder=`Alice` spellcheck=`false` required>") ++
  field "Agent public key (base64url Ed25519, as the agent holds it)"
    (html "<input name=`public_key` placeholder=`base64url` spellcheck=`false` required>") ++
  field "Which credential? (scheme://path — the name, not the value)"
    (html "<input name=`cred_ref` placeholder=`local://prod/github/token` spellcheck=`false` required>") ++
  field "The credential itself (stored in the vault; never shown again)"
    (html "<input name=`secret` type=`password` autocomplete=`off` required>") ++
  field "Against what target?" (html "<input name=`target_uri` placeholder=`https://api.github.com/*` spellcheck=`false` required>").

(** [connect::page]. *)
Definition connect_page (pv : PageView) (s : UiState) (q : query) : str :=
  let mech := default "http-bearer" (q !! ("mechanism" : str)) in
  layout "Connect a service" (setup_pending s) (halted pv s) None None
    ("<h1>Connect a service</h1>" ++
     html "<p class=`muted`>One form, four artifacts: a rule, a vault entry, an enrolled agent, and a test command you can paste. <a href=`/setup`>The step-by-step wizard</a> remains if you prefer it.</p>" ++
     (match open_vault s with
      | Some _ => []
      | None => html "<div class=`err`>No vault is open. Create one in <a href=`/setup`>Setup</a> first &mdash; this flow stores your credential in it and will not create one implicitly.</div>"
      end) ++
     html "<form method=`post` action=`/connect`>" ++
     html "<p><label><strong>How does the agent reach it?</strong><br><select name=`mechanism`>" ++
     mjoin (connect_option mech <$> MECHANISMS) ++ "</select></label></p>" ++ connect_card mech ++ connect_fields ++
     html "<p><label><strong>Effect</strong><br><select name=`effect`><option value=`allow`>allow &mdash; proceed without prompting</option><option value=`needs_confirmation`>needs_confirmation &mdash; human gate each use</option><option value=`deny`>deny &mdash; explicit refusal</option></select></label></p>" ++
     html "<p><button type=`submit`>Connect</button> <span class=`muted`>validates everything first, then writes; the rule goes last</span></p></form>").

(** [connect::done]. *)
Definition connect_done (pv : PageView) (s : UiState) (q : query) : str :=
  layout "Connected" (setup_pending s) (halted pv s) None None
    ("<h1>Connected</h1>" ++
     html "<div class=`ok`>Rule, vault entry, and enrolled identity are in place. Restart the gateway to load the new policy.</div>" ++
     html "<div class=`card`><strong>Prove it end to end</strong><br><span class=`muted`>This enrolls a throwaway keypair and sends one signed intent. It references your credential by name; it never carries the value.</span><br><code>python3 docs/skill/test-agent.py --enroll-store " ++
     esc (enrollment_path pv) ++ " --agent-id " ++ esc (q_get q "agent_id") ++ "</code></div>" ++
     html "<p class=`muted`>Credential reference: <code>" ++ esc (q_get q "cred_ref") ++
     html "</code></p><p><a href=`/rules`>Review the rule</a> &middot; <a href=`/policy/test`>Test a request</a> &middot; <a href=`/connect`>Connect another</a></p>").

(** ** setup.rs *)

Definition tick (b : bool) : str := if b then "✅" else "⏸".

Definition setup_policy_part (s : UiState) (p : Provision) : str :=
  "<h2>2 · Policy file " ++ tick (p_policy p) ++ html "</h2><p class=`muted`><code>" ++ esc (policy_path s) ++ "</code></p>" ++
  (if p_policy p then html "<p><a href=`/rules`>Edit rules</a> or <a href=`/policy/raw`>view the TOML</a>.</p>"
   else html "<form method=`post` action=`/setup/policy`><button type=`submit`>Write empty default-deny policy</button><span class=`muted`> (an empty document is a VALID pure default-deny ruleset: every intent denied until you add rules)</span></form>").

Definition setup_vault_part (s : UiState) (p : Provision) : str :=
  "<h2>3 · Local secret vault " ++ tick (p_vault p) ++ html "</h2><p class=`muted`><code>" ++ esc (vault_path s) ++
  html "</code> — argon2id + AES-256-GCM, sealed with your passphrase (<a href=`#` title=`LOCAL-VAULT-GUIDE.md`>guide</a>)</p>" ++
  (if p_vault p then []
   else html "<div class=`err`><strong>There is no recovery path for this vault.</strong> If you lose this passphrase the secrets inside are gone — no reset, no backdoor, no support escalation; that absence is the security model working, not an oversight. <strong>Backing up</strong> means copying the sealed file itself somewhere safe (it stays encrypted, and a copy still needs this passphrase to open). Full procedure: LOCAL-VAULT-GUIDE.md §6.</div>" ++
        html "<form method=`post` action=`/setup/vault`><p><label>Passphrase<br><input type=`password` name=`passphrase` autocomplete=`new-password` required></label></p><p><label>Confirm passphrase<br><input type=`password` name=`confirm` autocomplete=`new-password` required></label></p><button type=`submit`>Create vault</button></form>").

Definition setup_key_part (pv : PageView) (p : Provision) : str :=
  "<h2>4 · Audit chain signing key " ++ tick (p_audit_key p) ++ html "</h2><p class=`muted`><code>" ++ esc (audit_key_path pv) ++
  "</code> — Ed25519 seed; every audit record is signed with it. Back this file up.</p>" ++
  (if p_audit_key p then []
   else html "<form method=`post` action=`/setup/audit-key`><button type=`submit`>Generate audit key</button></form>").

(** [setup::page]. *)
Definition setup_page (pv : PageView) (s : UiState) (flash : query) : str :=
  let prov := provisioned s in
  layout "Setup" (missing prov) (halted pv s) (flash !! ("msg" : str)) (flash !! ("err" : str))
    ("<h1>Setup</h1>" ++
     html "<p class=`muted`>Each step writes the real file the gateway reads. Nothing here is a simulation; re-run any step to replace an artifact.</p>" ++
     (if complete prov then html "<div class=`ok`>All required artifacts exist. Restart <code>chaperone serve</code> (or it is already running) and the broker will pick them up.</div>" else []) ++
     "<h2>1 · Agent enrollment store " ++ tick (p_enrollment prov) ++ html "</h2><p class=`muted`><code>" ++ esc (enrollment_path pv) ++
     html "</code> — created automatically when you <a href=`/agents`>enroll the first agent</a>.</p>" ++
     setup_policy_part s prov ++ setup_vault_part s prov ++ setup_key_part pv prov).

(** ** lib.rs: the token page *)

(** [token_page]. *)
Definition token_page (q : query) : str :=
  let next := match q !! ("next" : str) with Some n => safe_next n | None => "/" end in
  layout "Token" 0 None None None
    ("<h1>Chaperone UI access</h1>" ++
     "<p>This UI is gated by a per-instance access token (D41). The token was created with <code>chaperone ui-token rotate</code> and lives at <code>0600</code> in your config directory alongside the audit key.</p>" ++
     "<p>To retrieve it: <code>chaperone ui-token show --token &lt;PATH&gt;</code></p>" ++
     (match plus_to_space <$> q !! ("err" : str) with Some e => html "<div class=`err`>" ++ esc e ++ "</div>" | None => [] end) ++
     html "<form method=`post` action=`/token`>" ++
     html "<p><label>Access token<br><input name=`token` required spellcheck=`false` autocomplete=`off`></label></p>" ++
     html "<input type=`hidden` name=`next` value=`" ++ esc next ++ html "`>" ++ html "<button type=`submit`>Open</button></form>").

(** The page of a GET route ([router]). *)
Definition get_page (pv : PageView) (env : UiEnv) (s : UiState) (path : str) (q : query) : option str :=
  if decide (path = ("/token" : str)) then Some (token_page q)
  else if decide (path = ("/" : str)) then Some (dashboard pv env s q)
  else if decide (path = ("/setup" : str)) then Some (setup_page pv s q)
  else if decide (path = ("/secrets" : str)) then Some (secrets_page pv s q)
  else if decide (path = ("/agents" : str)) then Some (agents_page pv s q)
  else if decide (path = ("/rules" : str)) then Some (rules_page pv env s q)
  else if decide (path = ("/rules/new" : str)) then Some (rules_new pv s q)
  else if decide (path = ("/policy/raw" : str)) then Some (raw_page pv s q)
  else if decide (path = ("/connect" : str)) then Some (connect_page pv s q)
  else if decide (path = ("/connect/done" : str)) then Some (connect_done pv s q)
  else None.

End Pages.

(** ** Tags and attributes *)

(** A scanner for markup: text, the inside of a tag with what was read of it,
    and the inside of a quoted attribute value of a tag. *)
Inductive scan_state : Type := InText | InTag (t : str) | InValue (t : str).

Definition langle : byte := Byte.x3c.
Definition rangle : byte := Byte.x3e.
Definition quote : byte := Byte.x22.

(** The state at the end and the tags that were closed, each with its
    attributes; of a value only the opening quote is kept. *)
Fixpoint scan (q : scan_state) (s : str) : scan_state * list str :=
  match s with
  | [] => (q, [])
  | b :: r =>
      match q with
      | InText => scan (if decide (b = langle) then InTag [] else InText) r
      | InTag t => if decide (b = rangle) then let '(q', l) := scan InText r in (q', t :: l)
                   else scan (if decide (b = quote) then InValue t else InTag (t ++ [b])) r
      | InValue t => scan (if decide (b = quote) then InTag (t ++ [quote]) else q) r
      end
  end.

Definition tags (s : str) : list str := (scan InText s).2.

(** The tags the program writes. *)
Definition page_tags : list str := Eval vm_compute in html <$>
  ["!doctype html"; "html lang=`"; "/html"; "head"; "/head"; "meta charset=`"; "meta name=` content=`"; "title"; "/title";
   "style"; "/style"; "body"; "/body"; "header"; "/header"; "main"; "/main"; "h1"; "/h1"; "h2"; "/h2"; "p"; "/p"; "p class=`";
   "p style=`"; "strong"; "strong style=`"; "/strong"; "em"; "/em"; "code"; "/code"; "br"; "span class=`"; "span class=` style=`";
   "/span"; "div class=`"; "/div"; "a href=`"; "a href=` title=`"; "/a"; "table"; "/table"; "tr"; "/tr"; "th"; "/th"; "td"; "/td";
   "td class=`"; "label"; "/label"; "button type=`"; "button class=` type=`"; "button type=` formnovalidate"; "/button";
   "form method=` action=`"; "form class=` method=` action=`"; "form method=` action=` class=`"; "/form"; "select name=`"; "/select";
   "option value=`"; "option value=` selected"; "/option"; "datalist id=`"; "/datalist"; "textarea name=` rows=` required spellcheck=`";
   "textarea name=` rows=` spellcheck=`"; "textarea name=` rows=` spellcheck=` placeholder=`"; "/textarea";
   "input type=` name=` value=`"; "input type=` name=` checked"; "input type=` name=` autocomplete=` required";
   "input name=` required placeholder=`"; "input name=` required spellcheck=`"; "input name=` required spellcheck=` autocomplete=`";
   "input name=` placeholder=`"; "input name=` placeholder=` value=` spellcheck=`"; "input name=` list=` value=` placeholder=` spellcheck=`";
   "input name=` inputmode=` placeholder=`"; "input name=` value=` placeholder=` spellcheck=`";
   "input name=` placeholder=` spellcheck=` required"; "input name=` type=` autocomplete=` required"].

(** [s], scanned from [q], ends in [q'] and closes only tags of the program. *)
Definition only (q : scan_state) (s : str) (q' : scan_state) : Prop :=
  (scan q s).1 = q' ∧ Forall (λ t, t ∈ page_tags) (scan q s).2.

Definition scan_check (q : scan_state) (s : str) : option scan_state :=
  let '(q', l) := scan q s in if forallb (λ t, bool_decide (t ∈ page_tags)) l then Some q' else None.

Lemma only_scan_check q s q' : scan_check q s = Some q' → only q s q'.
Proof.
  unfold scan_check, only. destruct (scan q s) as [q1 l]. destruct (forallb _ l) eqn:Hl; [|done]. intros [= ->]. split; [done|].
  rewrite forallb_forall in Hl. apply Forall_forall. intros t Ht. apply list_elem_of_In, Hl in Ht. by bool_to_prop.
Qed.

Lemma scan_app q s t : scan q (s ++ t) = let '(q1, l1) := scan q s in let '(q2, l2) := scan q1 t in (q2, l1 ++ l2).
Proof.
  revert q. induction s as [|b s IH]; intros q; cbn [app scan]; [by destruct (scan q t)|].
  destruct q; [apply IH| |apply IH]. case_decide; [|apply IH]. rewrite IH.
  destruct (scan InText s) as [q1 l1]. by destruct (scan q1 t).
Qed.

Lemma only_app q s q1 t q2 : only q s q1 → only q1 t q2 → only q (s ++ t) q2.
Proof.
  unfold only. rewrite scan_app. destruct (scan q s) as [q' l1]. cbn. intros [-> H1].
  destruct (scan q1 t) as [q'' l2]. cbn. intros [-> H2]. split; [done|]. by apply Forall_app.
Qed.

(** Text without a bracket or a double quote stays where it is. *)
Definition plain_byte (b : byte) : bool := negb (bool_decide (b ∈ [langle; rangle; quote])).
Definition plain (s : str) : Prop := Forall (λ b, plain_byte b = true) s.

Lemma plain_byte_ne b : plain_byte b = true → b ≠ langle ∧ b ≠ quote.
Proof. intros Hb. split; intros ->; discriminate. Qed.

Lemma only_plain_text s : plain s → only InText s InText.
Proof.
  induction 1 as [|b s Hb Hs IH]; [done|]. apply plain_byte_ne in Hb as [Hb _].
  unfold only. cbn [scan]. by rewrite decide_False.
Qed.

Lemma only_plain_value t s : plain s → only (InValue t) s (InValue t).
Proof.
  induction 1 as [|b s Hb Hs IH]; [done|]. apply plain_byte_ne in Hb as [_ Hb].
  unfold only. cbn [scan]. by rewrite decide_False.
Qed.

Lemma plain_esc s : plain (esc s).
Proof.
  induction s as [|b s IH]; [constructor|]. rewrite esc_cons. apply Forall_app. split; [|done]. destruct b; by repeat constructor.
Qed.

Lemma plain_show n : 0 ≤ n → plain (show n).
Proof. intros Hn. eapply Forall_impl; [by apply show_digits|]. intros b. by destruct b. Qed.

Lemma only_mjoin {A} (f : A → str) l : (∀ x, x ∈ l → only InText (f x) InText) → only InText (mjoin (f <$> l)) InText.
Proof.
  induction l as [|x l IH]; intros Hl; [done|]. rewrite fmap_cons, mjoin_cons.
  eapply only_app; [apply Hl; set_solver|apply IH; set_solver].
Qed.

Lemma only_mjoin_imap {A} (f : nat → A → str) l : (∀ i x, only InText (f i x) InText) → only InText (mjoin (imap f l)) InText.
Proof.
  revert f. induction l as [|x l IH]; intros f Hl; [done|]. rewrite imap_cons, mjoin_cons.
  eapply only_app; [apply Hl|apply IH; intros; apply Hl].
Qed.

Lemma only_esc_text s : only InText (esc s) InText.
Proof. apply only_plain_text, plain_esc. Qed.

Lemma only_esc_value t s : only (InValue t) (esc s) (InValue t).
Proof. apply only_plain_value, plain_esc. Qed.

Lemma only_show_text n : 0 ≤ n → only InText (show n) InText.
Proof. intros Hn. by apply only_plain_text, plain_show. Qed.

Lemma only_show_value t n : 0 ≤ n → only (InValue t) (show n) (InValue t).
Proof. intros Hn. by apply only_plain_value, plain_show. Qed.

Lemma only_field label input : only InText input InText → only InText (field label input) InText.
Proof.
  intros Hi. unfold field. eapply only_app; [by apply only_scan_check|]. eapply only_app; [apply only_esc_text|].
  eapply only_app; [by apply only_scan_check|]. eapply only_app; [exact Hi|by apply only_scan_check].
Qed.

Create HintDb pages discriminated.
#[export] Hint Constants Opaque : pages.
#[export] Hint Extern 1 (0 ≤ Z.of_nat _) => lia : pages.
#[export] Hint Extern 1 (0 ≤ zlen _) => apply zlen_nonneg : pages.

(** Splits a fragment at its concatenations; literals are scanned, texts and
    numbers are plain, and conditions are taken apart. *)
Ltac frag1 :=
  lazymatch goal with
  | |- only _ (_ ++ _) _ => eapply only_app
  | |- only _ (esc _) _ => first [apply only_esc_text | apply only_esc_value]
  | |- only _ (field _ _) _ => apply only_field
  | |- only _ (show _) _ => first [apply only_show_text | apply only_show_value]; solve [eauto with pages]
  | |- only _ (match ?x with _ => _ end) _ => let E := fresh "E" in destruct x eqn:E
  | |- only _ (mjoin (_ <$> _)) _ => apply only_mjoin; intros ? ?
  | |- only _ (mjoin (imap _ _)) _ => apply only_mjoin_imap; intros ? ?
  | |- only _ _ _ => first [solve [eauto with pages nocore] | solve [apply only_scan_check; vm_compute; reflexivity]]
  end.
Ltac frags := repeat frag1.

Lemma only_nav : only InText (mjoin (nav_link <$> nav)) InText.
Proof. by apply only_scan_check. Qed.

Lemma only_layout title pending h ok err body :
  0 ≤ pending → only InText body InText → only InText (layout title pending h ok err body) InText.
Proof.
  intros Hp Hb. pose proof only_nav. unfold layout, halt_banner, banner.
  generalize dependent (mjoin (nav_link <$> nav)). intros links Hl. frags.
Qed.

(** Every part of the catalogue is plain. *)
Lemma catalogue_plain m : m ∈ MECHANISMS → plain (mech_id m).
Proof.
  intros Hm. assert (forallb (λ m, forallb plain_byte (mech_id m)) MECHANISMS = true) as Hf by (vm_compute; reflexivity).
  rewrite forallb_forall in Hf. specialize (Hf m ltac:(by apply list_elem_of_In)). rewrite forallb_forall in Hf.
  apply Forall_forall. intros b Hb. by apply Hf, list_elem_of_In.
Qed.

Lemma only_badge eff : only InText (effect_badge (effect_str eff)) InText.
Proof. destruct eff; apply only_scan_check; vm_compute; reflexivity. Qed.

Lemma only_maturity m : only InText (maturity_badge m) InText.
Proof. destruct m; by apply only_scan_check. Qed.

Lemma only_preview r : only InText (preview_block r) InText.
Proof. unfold preview_block. frags. Qed.

Lemma only_effect_select e : only InText (effect_select e) InText.
Proof. unfold effect_select, selected. repeat case_bool_decide; apply only_scan_check; vm_compute; reflexivity. Qed.

Lemma only_pairs_field x : only InText (pairs_field x) InText.
Proof. unfold pairs_field. frags. Qed.

#[export] Hint Resolve only_badge only_maturity only_preview only_effect_select only_pairs_field : pages.

Section Known.
Context `{Base64, Aead, Argon2, DebugFmt, SerdeText Header, SerdeText Body, Toml, Sha256, Ed25519, SerdeText StoreFile}.

Lemma missing_nonneg p : 0 ≤ missing p.
Proof. unfold missing. destruct (p_policy p), (p_vault p), (p_audit_key p); done. Qed.

Lemma held_bytes_nonneg v path : 0 ≤ held_bytes v path.
Proof. unfold held_bytes. repeat case_match; try done. apply zlen_nonneg. Qed.

#[local] Hint Resolve missing_nonneg held_bytes_nonneg : pages.

Lemma only_dashboard pv env s q : only InText (dashboard pv env s q) InText.
Proof.
  unfold dashboard. apply only_layout; [apply missing_nonneg|]. unfold broker_line, setup_line, counters, feed_line. frags.
Qed.

Lemma only_secrets_page pv s q : only InText (secrets_page pv s q) InText.
Proof.
  unfold secrets_page. apply only_layout; [apply missing_nonneg|]. unfold secrets_table, secret_form, secret_row. frags.
Qed.

Lemma only_agent_row r : only InText (agent_row r) InText.
Proof. unfold agent_row. destruct (bool_decide _); cbv beta iota zeta; frags. Qed.
#[local] Hint Resolve only_agent_row : pages.

Lemma only_agents_page pv s q : only InText (agents_page pv s q) InText.
Proof.
  unfold agents_page. apply only_layout; [apply missing_nonneg|]. unfold agents_table, enroll_page_form. frags.
Qed.

Lemma only_rules_page pv env s q : only InText (rules_page pv env s q) InText.
Proof.
  unfold rules_page. apply only_layout; [apply missing_nonneg|]. unfold rules_body, rules_table, rule_row. frags.
Qed.

Lemma only_mechanism_option mech m : m ∈ MECHANISMS → only InText (mechanism_option mech m) InText.
Proof.
  intros Hm%catalogue_plain. unfold mechanism_option, selected.
  case_bool_decide; repeat first [apply only_plain_value; exact Hm | frag1].
Qed.

Lemma only_template_option template t : only InText (template_option template t) InText.
Proof. unfold template_option, selected. case_bool_decide; frags. Qed.

#[local] Hint Resolve only_mechanism_option only_template_option : pages.

Lemma only_picker mech template : only InText (rules_new_picker mech template) InText.
Proof.
  unfold rules_new_picker, template_picker, mechanism_card, template_note.
  frags.
Qed.

Lemma only_rules_new pv s q : only InText (rules_new pv s q) InText.
Proof.
  unfold rules_new. apply only_layout; [apply missing_nonneg|]. eapply only_app; [apply only_picker|].
  unfold rules_new_form, agent_options, cred_options, preview_or_not.
  frags.
Qed.

Lemma only_raw_page pv s q : only InText (raw_page pv s q) InText.
Proof. unfold raw_page. apply only_layout; [apply missing_nonneg|]. frags. Qed.

Lemma only_connect_option mech m : only InText (connect_option mech m) InText.
Proof. unfold connect_option, selected. case_bool_decide; frags. Qed.
#[local] Hint Resolve only_connect_option : pages.

Lemma only_connect_page pv s q : only InText (connect_page pv s q) InText.
Proof.
  unfold connect_page. apply only_layout; [apply missing_nonneg|]. unfold connect_card, connect_fields. frags.
Qed.

Lemma only_connect_done pv s q : only InText (connect_done pv s q) InText.
Proof. unfold connect_done. apply only_layout; [apply missing_nonneg|]. frags. Qed.

Lemma only_setup_page pv s q : only InText (setup_page pv s q) InText.
Proof.
  unfold setup_page. apply only_layout; [apply missing_nonneg|].
  unfold setup_policy_part, setup_vault_part, setup_key_part, tick. frags.
Qed.

Lemma only_token_page q : only InText (token_page q) InText.
Proof. unfold token_page. apply only_layout; [done|]. frags. Qed.

(** C24: Whatever the files, the vault, the enrolments, the rules and the query
    hold, a page the UI serves ends outside of any tag and contains only tags,
    with only the attributes, that the program itself writes: no text can add
    markup of its own to a page. *)
Theorem pages_have_known_tags pv env s path q page : get_page pv env s path q = Some page →
  (scan InText page).1 = InText ∧ Forall (λ t, t ∈ page_tags) (tags page).
Proof.
  change (get_page pv env s path q = Some page → only InText page InText). unfold get_page.
  case_decide; [intros [= <-]; apply only_token_page|].
  case_decide; [intros [= <-]; apply only_dashboard|].
  case_decide; [intros [= <-]; apply only_setup_page|].
  case_decide; [intros [= <-]; apply only_secrets_page|].
  case_decide; [intros [= <-]; apply only_agents_page|].
  case_decide; [intros [= <-]; apply only_rules_page|].
  case_decide; [intros [= <-]; apply only_rules_new|].
  case_decide; [intros [= <-]; apply only_raw_page|].
  case_decide; [intros [= <-]; apply only_connect_page|].
  case_decide; [intros [= <-]; apply only_connect_done|].
  done.
Qed.

(** The decision test keeps its frame when the texts it does not escape, the
    error of the document and the label of the rule, are plain. *)
Lemma test_page_known_tags pv s agent cred target mech :
  match policy_test s agent cred target mech with
  | Ok d => plain (source_label (d_source d))
  | Err e => plain (policy_error_str e)
  end → only InText (policy_test_page pv s agent cred target mech) InText.
Proof.
  intros Hp. unfold policy_test_page. apply only_layout; [apply missing_nonneg|]. unfold test_body.
  destruct (policy_test s agent cred target mech) as [d|e]; apply only_plain_text in Hp.
  - unfold verdict_block, test_form, back_to_rules. destruct (effect d); cbv beta zeta; frags.
  - unfold back_to_rules. frags.
Qed.

(** *** Secrets are not shown *)

(** What of the vault may show: the paths and how long the values are. *)
Definition value_lengths (v : LocalVault) : result VaultError (gmap str Z) :=
  b ← decrypt_entries v; Ok (zlen <$> entries b).

(** Two states that differ in the values of the secrets only. *)
Record same_but_values (s1 s2 : UiState) : Prop := {
  sv_vault : (value_lengths ∘ handle) <$> open_vault s1 = (value_lengths ∘ handle) <$> open_vault s2;
  sv_provisioned : provisioned s1 = provisioned s2;
  sv_policy_path : policy_path s1 = policy_path s2;
  sv_vault_path : vault_path s1 = vault_path s2;
  sv_policy : policy_at s1 = policy_at s2;
  sv_enrollment : enrollment s1 = enrollment s2;
  sv_gateway : ui_gateway s1 = ui_gateway s2;
}.
End Known.

#[local] Instance key_le_trans : Transitive key_le.
Proof.
  intros a b c Hab Hbc. unfold key_le in *. destruct (str_ltb c a) eqn:Hca; [|done].
  destruct (decide (a = b)) as [->|Hne]; [congruence|]. apply str_ltb_total in Hab; [|congruence].
  by rewrite (str_ltb_trans c a b Hca Hab) in Hbc.
Qed.

#[local] Instance key_le_total : Total key_le.
Proof.
  intros a b. unfold key_le. destruct (str_ltb b a) eqn:Hba; [|by left]. right.
  destruct (str_ltb a b) eqn:Hab; [|done]. pose proof (str_ltb_trans _ _ _ Hab Hba) as Hx. by rewrite str_ltb_irrefl in Hx.
Qed.

#[local] Instance key_le_antisymm : AntiSymm (=) key_le.
Proof.
  intros a b Hab Hba. destruct (decide (a = b)) as [|Hne]; [done|]. unfold key_le in *.
  apply str_ltb_total in Hab; [|done]. congruence.
Qed.

(** The keys in order depend on the keys alone. *)
Lemma sorted_keys_fmap {A B} (f : A → B) (m : gmap str A) : sorted_keys (f <$> m) = sorted_keys m.
Proof.
  apply (Sorted_unique key_le); [apply Sorted_merge_sort; apply _..|]. unfold sorted_keys. rewrite !merge_sort_Permutation.
  rewrite map_to_list_fmap, <- list_fmap_compose. apply reflexive_eq, list_fmap_ext. by intros ? [].
Qed.

Section Secrets.
Context `{Base64, Aead, Argon2, DebugFmt, SerdeText Header, SerdeText Body, Toml, Sha256, Ed25519, SerdeText StoreFile}.

Lemma lengths_list v1 v2 : value_lengths v1 = value_lengths v2 → list_entries v1 = list_entries v2.
Proof.
  unfold value_lengths, list_entries. destruct (decrypt_entries v1) as [b1|e1], (decrypt_entries v2) as [b2|e2]; cbn; try done.
  - intros [= Hm]. by rewrite <- (sorted_keys_fmap zlen (entries b1)), <- (sorted_keys_fmap zlen (entries b2)), Hm.
  - by intros [= ->].
Qed.

Lemma lengths_held v1 v2 p : value_lengths v1 = value_lengths v2 → held_bytes v1 p = held_bytes v2 p.
Proof.
  unfold value_lengths, held_bytes, get_entry.
  destruct (decrypt_entries v1) as [b1|e1], (decrypt_entries v2) as [b2|e2]; cbn; try done.
  intros [= Hm]. apply (f_equal (.!! p)) in Hm. rewrite !lookup_fmap in Hm.
  destruct (entries b1 !! p), (entries b2 !! p); cbn in Hm; by simplify_eq.
Qed.

Lemma secrets_table_shape v1 v2 : value_lengths v1 = value_lengths v2 → secrets_table v1 = secrets_table v2.
Proof.
  intros Hv. unfold secrets_table. rewrite (lengths_list v1 v2 Hv). destruct (list_entries v2); [|done].
  assert (∀ l : list str, secret_row v1 <$> l = secret_row v2 <$> l) as Hr; [|by case_match; rewrite ?Hr].
  intros l. apply list_fmap_ext. intros i p _. unfold secret_row. by rewrite (lengths_held v1 v2 p Hv).
Qed.

Lemma vault_paths_shape s1 s2 : same_but_values s1 s2 → vault_paths s1 = vault_paths s2.
Proof.
  intros [Hv _ _ _ _ _ _]. unfold vault_paths. destruct (open_vault s1), (open_vault s2); cbn in *; try done.
  injection Hv as Hv. by rewrite (lengths_list _ _ Hv).
Qed.

(** C25: No page shows a stored secret.  Two states that differ in the values
    of the secrets, of the same lengths, get the same page on every route and
    the same decision test: what a browser sees depends on the vault through
    the paths and the lengths of the values only. *)
Theorem secrets_not_shown pv env s1 s2 path q agent cred target mech : same_but_values s1 s2 →
  get_page pv env s1 path q = get_page pv env s2 path q ∧
  policy_test_page pv s1 agent cred target mech = policy_test_page pv s2 agent cred target mech.
Proof.
  intros Hs. pose proof (vault_paths_shape s1 s2 Hs) as Hp. destruct Hs as [Hv Hprov Hpp Hvp Hpol Hen Hgw].
  assert (setup_pending s1 = setup_pending s2) as Hsp by (unfold setup_pending; by rewrite Hprov).
  assert (halted pv s1 = halted pv s2) as Hh by (unfold halted; by rewrite Hgw).
  assert (current_policy env s1 = current_policy env s2) as Hc by (unfold current_policy; by rewrite Hpol, Hpp).
  split.
  - assert (dashboard pv env s1 q = dashboard pv env s2 q) as E1.
    { unfold dashboard, broker_line, counters, live_agents. rewrite Hprov, Hh, Hc, Hp, Hen, Hgw. reflexivity. }
    assert (setup_page pv s1 q = setup_page pv s2 q) as E2.
    { unfold setup_page, setup_policy_part, setup_vault_part. rewrite Hprov, Hh, Hpp, Hvp. reflexivity. }
    assert (secrets_page pv s1 q = secrets_page pv s2 q) as E3.
    { unfold secrets_page. rewrite Hsp, Hh. destruct (open_vault s1), (open_vault s2); try discriminate Hv; [|reflexivity].
      cbn in Hv. injection Hv as Hv. rewrite (secrets_table_shape _ _ Hv). reflexivity. }
    assert (connect_page pv s1 q = connect_page pv s2 q) as E4.
    { unfold connect_page. rewrite Hsp, Hh. destruct (open_vault s1), (open_vault s2); try discriminate Hv; reflexivity. }
    unfold get_page. rewrite E1, E2, E3, E4. unfold agents_page, rules_page, rules_new, raw_page, connect_done, rules_new_form, policy_text.
    rewrite Hsp, Hh, Hc, Hp, Hpol, Hen. reflexivity.
  - unfold policy_test_page, policy_test. by rewrite Hsp, Hh, Hpol.
Qed.

(** The editor never shows why a rule was refused: the page does not depend on
    the [err] its redirects carry. *)
Theorem rules_new_ignores_err pv s q e : rules_new pv s (<["err" := e]> q) = rules_new pv s q.
Proof.
  assert (∀ k, k ≠ ("err" : str) → q_get (<["err" := e]> q) k = q_get q k) as Hk.
  { intros k Hk. unfold q_get. by rewrite lookup_insert_ne. }
  unfold rules_new, rules_new_form, target_prefill, effect_prefill. by rewrite !Hk by done.
Qed.

(** The decision test cannot be reached: the pages link to it, and a link is a
    GET request, which the route does not answer. *)
Theorem test_link_is_dead env s r : rq_method r = ("GET" : str) → rq_path r = ("/policy/test" : str) →
  (route env s r).1 = MethodNotAllowed.
Proof. intros Hm Hp. unfold route. rewrite Hm, Hp. vm_compute. reflexivity. Qed.

(** The routes answered with a page are those with a page here. *)
Lemma get_page_routes pv env s path q : path ∈ get_paths ↔ is_Some (get_page pv env s path q).
Proof.
  unfold get_page, get_paths. rewrite !elem_of_cons, elem_of_nil. repeat (case_decide; [split; naive_solver|]).
  split; [naive_solver|]. by intros [].
Qed.
End Secrets.

(** ** Concrete pages *)

Section Witnesses.
#[local] Existing Instances toy_base64 toy_aead toy_argon2 toy_serde toy_debug toy_sha256 toy_ed25519.

(** A deserializer that finds one rule with this effect and this name. *)
Definition one_rule_toml (effect name : str) : Toml :=
  {| toml_from_str _ := Ok {| file_rule := [ {| rd_effect := effect; rd_name := Some name; rd_agent_id := None; rd_cred_ref := None;
       rd_target_uri := None; rd_mechanism := None; rd_pair := []; rd_limits := None; rd_notify := None |} ] |};
     toml_quote s := s |}.

Definition a_view : PageView :=
  {| ruleset_hash := "0123456789abcdef"; halt_reason := None; subscriber_count := Some 2%nat;
     events_socket_path := Some ("/run/<ev>" : str); enrollment_path := "/e"; audit_key_path := "/k" |}.

Definition test_page_with (T : Toml) : str := policy_test_page a_view a_ui "a" "c" "t" "m".

Definition script : str := "<script>alert(1)</script>".

(** The decision test puts two texts of the policy file into its page as they
    are: the name of the rule that decided, and, through the error, an effect
    that is none.  Either can add a script. *)
Theorem test_page_injectable :
  ("script" : str) ∈ tags (test_page_with (one_rule_toml "allow" script)) ∧
  ("script" : str) ∈ tags (test_page_with (one_rule_toml script "r")).
Proof.
  split; apply (bool_decide_unpack _); vm_compute; exact I.
Qed.

#[local] Existing Instance no_rules_toml.

(** The same script as a path of the vault and as a flash message is text. *)
Definition scripted_ui : UiState := (secrets_store an_env a_ui script "s3cret").2.
Definition other_ui : UiState := (secrets_store an_env a_ui script "foobar").2.
Definition scripted_query : gmap str str := {[ ("msg" : str) := script ]}.

Lemma pages_have_known_tags_witness :
  Forall (λ t, t ∈ page_tags) (tags (secrets_page a_view scripted_ui scripted_query)) ∧
  contains (esc script) (secrets_page a_view scripted_ui scripted_query) = true.
Proof.
  split; [|vm_compute; reflexivity].
  apply (pages_have_known_tags a_view an_env scripted_ui "/secrets" scripted_query). reflexivity.
Defined.

(** What storing a value leaves: the value decides nothing but its length. *)
Lemma stored_shape x : is_empty x = false → fits (<[script := x]> ∅) = true →
  ∃ v, (secrets_store an_env a_ui script x).2 = set_vault a_ui v ∧
    value_lengths (handle v) = Ok (<[script := zlen x]> ∅) ∧ is_Some (Vault.file v).
Proof.
  intros Hx Hf. unfold secrets_store. change (open_vault a_ui) with (Some store0). cbv beta iota.
  replace (trim_slashes (trim script)) with script by (vm_compute; reflexivity). cbv zeta.
  change (is_empty script) with false. rewrite Hx. cbn [orb].
  assert (related "pw" store0 {| live := ∅; saved := ∅ |}) as Hr.
  { by apply (create_related "/v" "pw" "saltsaltsaltsalt" a_dek (a_nonce Byte.x01) (a_nonce Byte.x02) None); [..|apply fresh_ok]. }
  unfold set_entry. rewrite (proj1 (proj1 Hr)). cbn [entries live].
  pose proof (rewrite_body_spec "pw" store0 _ (<[script := x]> ∅) (new_nonce an_env) (io_vault an_env) RUnit Hr eq_refl Hf) as Hw.
  destruct (rewrite_body store0 _ _ _) as [r v]. destruct Hw as [_ [(Hd & _) (n & ct & _ & Hfile)]].
  exists v. split; [by destruct r|]. split; [|by rewrite Hfile].
  unfold value_lengths. rewrite Hd. cbn. by rewrite fmap_insert, fmap_empty.
Qed.

Lemma scripted_same_but_values : same_but_values scripted_ui other_ui.
Proof.
  destruct (stored_shape "s3cret") as (v & Hv & Hl & Hf); [done|vm_compute; reflexivity|].
  destruct (stored_shape "foobar") as (w & Hw & Hm & Hg); [done|vm_compute; reflexivity|].
  unfold scripted_ui, other_ui. rewrite Hv, Hw.
  split; cbn [open_vault set_vault policy_path vault_path policy_at enrollment ui_gateway]; try reflexivity.
  - cbn [fmap option_fmap option_map]. unfold compose. by rewrite Hl, Hm.
  - unfold provisioned, vault_file. cbn [open_vault set_vault policy_at audit_key_at enrollment].
    by rewrite (bool_decide_true _ Hf), (bool_decide_true _ Hg).
Qed.

Lemma secrets_not_shown_witness :
  get_page a_view an_env scripted_ui "/secrets" scripted_query = get_page a_view an_env other_ui "/secrets" scripted_query ∧
  (v ← open_vault other_ui; Some (get_entry (handle v) script)) = Some (Ok (Some ("foobar" : str))).
Proof.
  split; [|vm_compute; reflexivity].
  apply (secrets_not_shown a_view an_env scripted_ui other_ui "/secrets" scripted_query [] [] [] []).
  exact scripted_same_but_values.
Defined.
End Witnesses.
