(* ===== verification/Cli.v ===== *)
(** The operator's command line, [crates/cli/src/main.rs]: the flags, the
    commands on the enrolment store, the policy, the audit chain, the vault and
    the certificate authority, the health check, and the dispatch.  [serve] is
    in [Serve]; [console] and [tail] are in [Console] and [Feed].

    The files are a map from paths to contents, so a path names a regular file
    or nothing.  A command is a program that passes the files and what is left
    of standard input, prints, and ends in success, in an error message or in a
    panic.  What the operating system decides (which files cannot be read or
    written, the clock, random bytes, the answers to a hidden prompt) is given
    by the environment.  The vault's keyring feature is off, its default. *)

From stdpp Require Import sorting.
From S2P Require Import Prelude Strs Json Extern Toy Protocol Matcher Policy Enrollment AuditChain Transcript SshCa Vault Import UiWeb.
#[local] Open Scope Z_scope.

(** ** Flags *)

Record Flags : Type := { values : gmap str str; switches : list str }.
Definition no_flags : Flags := {| values := ∅; switches := [] |}.

Section Flags.
Context `{DebugFmt}.

(** [parse_flags] from an argument on, with the flags read so far. *)
Fixpoint parse_args (args : list str) (acc : Flags) : result str Flags :=
  match args with
  | [] => Ok acc
  | arg :: rest =>
      if starts_with "--" arg then
        let name := trim_start_matches "-" arg in
        let switch := {| values := values acc; switches := switches acc ++ [name] |} in
        match rest with
        | next :: rest' =>
            if starts_with "--" next then parse_args rest switch
            else parse_args rest' {| values := <[name := next]> (values acc); switches := switches acc |}
        | [] => Ok switch
        end
      else Err ("unexpected argument " ++ debug_str arg)
  end.
Definition parse_flags (args : list str) : result str Flags := parse_args args no_flags.
End Flags.

(** [Flags::require], [Flags::has]. *)
Definition require (f : Flags) (name : str) : result str str :=
  ok_or (values f !! name) ("missing required flag --" ++ name).
Definition has (f : Flags) (name : str) : bool := existsb (λ s, bool_decide (s = name)) (switches f).

(** ** Commands as programs *)

Record Shell : Type := { files : gmap str str; input : str }.

Inductive exit (A : Type) : Type := Done (a : A) | Failed (msg : str) | Panicked.
Arguments Done {A} a.
Arguments Failed {A} msg.
Arguments Panicked {A}.

(** What is written on standard output and on standard error. *)
Inductive out : Type := Out (s : str) | Note (s : str).

Definition Cmd (A : Type) : Type := Shell → exit A * list out * Shell.

#[global] Instance cmd_ret : MRet Cmd := λ A a s, (Done a, [], s).
#[global] Instance cmd_bind : MBind Cmd := λ A B k m s,
  match m s with
  | (Done a, o, s') => let '(r, o', s'') := k a s' in (r, o ++ o', s'')
  | (Failed e, o, s') => (Failed e, o, s')
  | (Panicked, o, s') => (Panicked, o, s')
  end.

Definition lift {A} (r : result str A) : Cmd A := λ s, (match r with Ok a => Done a | Err e => Failed e end, [], s).
Definition fail {A} (msg : str) : Cmd A := λ s, (Failed msg, [], s).
Definition panic {A} : Cmd A := λ s, (Panicked, [], s).
Definition newline : str := [zb 10].
Definition print (t : str) : Cmd unit := λ s, (Done tt, [Out t], s).
Definition println (t : str) : Cmd unit := print (t ++ newline).
Definition eprintln (t : str) : Cmd unit := λ s, (Done tt, [Note (t ++ newline)], s).
Definition put_files (m : gmap str str) : Cmd unit := λ s, (Done tt, [], {| files := m; input := input s |}).

(** What the operating system decides. *)
Record CliEnv : Type := {
  now_rfc3339 : str;
  read_fault : str → option str;
  write_fault : str → option str;
  rename_fault : option str;
  remove_fault : option str;
  stdin_fault : option str;
  prompt_first : result str str;
  prompt_second : result str str;
  new_seed : str;
  new_salt : str;
  new_dek : str;
  wrap_nonce : str;
  nonces : list str;
  set_faults : list (option str);
  socket_at : str → option (result str unit);
}.

Definition NOT_FOUND : str := "No such file or directory (os error 2)".
Definition NOT_UTF8 : str := "stream did not contain valid UTF-8".

(** [fs::read], [fs::read_to_string], [Path::exists]. *)
Definition fs_read (env : CliEnv) (m : gmap str str) (p : str) : result str str :=
  match read_fault env p with
  | Some e => Err e
  | None => ok_or (m !! p) NOT_FOUND
  end.
Definition fs_read_to_string (env : CliEnv) (m : gmap str str) (p : str) : result str str :=
  t ← fs_read env m p; if utf8_valid t then Ok t else Err NOT_UTF8.
Definition fs_exists (m : gmap str str) (p : str) : bool := bool_decide (is_Some (m !! p)).

Definition read (env : CliEnv) (p : str) : Cmd (result str str) := λ s, (Done (fs_read env (files s) p), [], s).
Definition read_to_string (env : CliEnv) (p : str) : Cmd (result str str) := λ s,
  (Done (fs_read_to_string env (files s) p), [], s).
Definition get_files : Cmd (gmap str str) := λ s, (Done (files s), [], s).

(** The file of a store that keeps its own content. *)
Definition put_content (p : str) (c : option str) : Cmd unit := λ s,
  (Done tt, [], {| files := partial_alter (λ _, c) p (files s); input := input s |}).

(** [Stdin::read_line]: through the next newline, or to the end. *)
Fixpoint take_line (s : str) : str * str :=
  match s with
  | [] => ([], [])
  | b :: r => if decide (b = zb 10) then ([b], r) else let '(l, rest) := take_line r in (b :: l, rest)
  end.
Definition read_line (env : CliEnv) : Cmd (result str str) := λ s,
  match stdin_fault env with
  | Some e => (Done (Err e), [], s)
  | None =>
      let '(l, rest) := take_line (input s) in
      (Done (if utf8_valid l then Ok l else Err NOT_UTF8), [], {| files := files s; input := rest |})
  end.
(** [Stdin::read_to_string]. *)
Definition read_rest (env : CliEnv) : Cmd (result str str) := λ s,
  match stdin_fault env with
  | Some e => (Done (Err e), [], s)
  | None => (Done (if utf8_valid (input s) then Ok (input s) else Err NOT_UTF8), [], {| files := files s; input := [] |})
  end.

(** [while line.ends_with(['\n', '\r']) { line.pop(); }]. *)
Fixpoint drop_newlines (s : str) : str :=
  match s with
  | [] => []
  | b :: r => if bool_decide (b = zb 10) || bool_decide (b = zb 13) then drop_newlines r else s
  end.
Definition pop_newlines (s : str) : str := reverse (drop_newlines (reverse s)).

(** ** Enrolment *)

Section Enrolment.
Context `{Base64, Ed25519, SerdeText StoreFile}.

Definition seen (env : CliEnv) (m : gmap str str) (p : str) : file_read :=
  match read_fault env p with
  | Some e => FileError e
  | None => match m !! p with Some t => FileBytes t | None => FileMissing end
  end.

(** [open_store]. *)
Definition open_store (env : CliEnv) (p : str) : Cmd EnrollmentStore :=
  m ← get_files; lift (map_err enrollment_error_str (Enrollment.load (seen env m p))).

(** [cmd_enroll]. *)
Definition cmd_enroll (env : CliEnv) (f : Flags) : Cmd unit :=
  store_path ← lift (require f "store");
  id ← lift (require f "agent-id");
  pk ← lift (require f "public-key");
  sponsor ← lift (require f "sponsor-id");
  name ← lift (require f "sponsor-name");
  store ← open_store env store_path;
  let '(r, store') := enroll store id pk sponsor name (now_rfc3339 env) (has f "force") (write_fault env store_path) in
  _ ← put_content store_path (Enrollment.disk store');
  _ ← lift (map_err enrollment_error_str r);
  println ("enrolled " ++ id ++ " (sponsor " ++ sponsor ++ ") in " ++ store_path).

(** [cmd_revoke]. *)
Definition cmd_revoke (env : CliEnv) (f : Flags) : Cmd unit :=
  store_path ← lift (require f "store");
  id ← lift (require f "agent-id");
  store ← open_store env store_path;
  let '(r, store') := revoke store id (now_rfc3339 env) (write_fault env store_path) in
  _ ← put_content store_path (Enrollment.disk store');
  was ← lift (map_err enrollment_error_str r);
  if (was : bool) then println ("revoked " ++ id ++ "; effective immediately")
  else println (id ++ " was not enrolled").

(** [{:<n}]: blanks up to [n] characters. *)
Definition pad_right (n : nat) (s : str) : str := s ++ replicate (n - char_count s) (zb 32).

(** [&s[..n]], which stops the program inside a character. *)
Definition str_prefix (n : nat) (s : str) : option str :=
  match s !! n with
  | Some b => if cont b then None else Some (take n s)
  | None => if decide (n = length s) then Some s else None
  end.

(** One line of [list-agents]. *)
Definition agent_line (r : EnrollmentRecord) : option str :=
  key ← str_prefix (min (length (public_key r)) 12) (public_key r);
  Some (pad_right 28 (agent_id r) ++ " " ++
        pad_right 6 (match revoked_at r with Some _ => "REVOKED" | None => "live" end) ++
        " enrolled=" ++ enrolled_at r ++
        " sponsor=" ++ (if is_empty (sponsor_id r) then "<none: pre-RAE legacy>" else sponsor_id r) ++
        " key=" ++ key).

Fixpoint print_agents (rs : list EnrollmentRecord) : Cmd unit :=
  match rs with
  | [] => mret tt
  | r :: rs => match agent_line r with
               | Some l => _ ← println l; print_agents rs
               | None => panic
               end
  end.

(** [cmd_list_agents]. *)
Definition cmd_list_agents (env : CliEnv) (f : Flags) : Cmd unit :=
  store_path ← lift (require f "store");
  store ← open_store env store_path;
  print_agents (list_records store).
End Enrolment.

(** ** Policy *)

Section PolicyCheck.
Context `{Toml, Sha256, DebugFmt}.

(** A numeric flag: absent, a number, or refused. *)
Definition number_flag (f : Flags) (name : str) : result str (option Z) :=
  match values f !! name with
  | None => Ok None
  | Some v => n ← ok_or (parse_uint u64_max v) ("--" ++ name ++ " must be a number"); Ok (Some n)
  end.

Definition json_number (o : option Z) : str := match o with Some n => show n | None => "null" end.
Definition dquote : str := [Byte.x22].
Definition json_quoted (s : str) : str := dquote ++ s ++ dquote.

(** The line [policy-check] prints. *)
Definition decision_line (d : Decision) : str :=
  "{" ++ json_quoted "effect" ++ ":" ++ json_quoted (effect_str (effect d)) ++ "," ++
  json_quoted "source" ++ ":" ++ json_quoted (source_label (d_source d)) ++ "," ++
  json_quoted "limits" ++ ":{" ++ json_quoted "max_response_bytes" ++ ":" ++ json_number (max_response_bytes (d_limits d)) ++
  "," ++ json_quoted "session_ttl_s" ++ ":" ++ json_number (session_ttl_s (d_limits d)) ++ "}}".

(** [cmd_policy_check]. *)
Definition cmd_policy_check (env : CliEnv) (f : Flags) : Cmd unit :=
  doc ← lift (require f "policy");
  agent ← lift (require f "agent-id");
  cred ← lift (require f "cred-ref");
  target ← lift (require f "target-uri");
  mech ← lift (require f "mechanism");
  max_bytes ← lift (number_flag f "max-response-bytes");
  ttl ← lift (number_flag f "session-ttl-s");
  text ← read_to_string env doc;
  text ← lift (map_err (λ e, "cannot read " ++ doc ++ ": " ++ e) text);
  policy ← lift (map_err policy_error_str (from_toml text));
  println (decision_line (evaluate policy
    {| req_agent_id := agent; req_cred_ref := cred; req_target_uri := target; req_mechanism := mech;
       declared := Some {| c_max_response_bytes := max_bytes; c_session_ttl_s := ttl |} |})).
End PolicyCheck.

(** ** The audit chain *)

Section Audit.
Context `{Base64, Ed25519, JsonText, Sha256, DebugFmt}.

(** [load_audit_seed_text]. *)
Definition load_audit_seed_text (text : str) : result str SigningKey :=
  seed ← map_err (λ e, "seed file is not base64url: " ++ e) (decode_signature (trim text));
  if decide (length seed = 32%nat) then Ok (key_from_seed seed) else Err "seed file must hold 32 bytes".

(** [cmd_audit_keygen]. *)
Definition cmd_audit_keygen (env : CliEnv) (f : Flags) : Cmd unit :=
  p ← lift (require f "out");
  m ← get_files;
  if fs_exists m p then fail (p ++ " already exists; refusing to overwrite an audit key")
  else
    match write_fault env p with
    | Some e => fail e
    | None =>
        _ ← put_content p (Some (encode_signature (new_seed env)));
        _ ← println ("audit key written to " ++ p ++ " (0600)");
        println ("public key: " ++ AuditChain.public_key_b64url (key_from_seed (new_seed env)))
    end.

(** [verify_file]. *)
Definition verify_file (env : CliEnv) (m : gmap str str) (p : str) (vk : VerifyingKey) : result str Report :=
  t ← fs_read_to_string env m p; Ok (walk_lines t vk).

Definition is_end_record (l : str) : bool :=
  match json_from_str l with
  | Ok v => bool_decide (get_str v "kind" = Some ("transcript_end" : str))
  | Err _ => false
  end.

Definition debug_opt_str (o : option str) : str := match o with Some s => "Some(" ++ debug_str s ++ ")" | None => "None" end.

(** The cross-check of a transcript against the journal it claims. *)
Definition check_companion (env : CliEnv) (journal audit_path : str) : Cmd unit :=
  text ← read_to_string env journal;
  text ← lift (map_err (λ e, "read " ++ journal ++ ": " ++ e) text);
  first ← lift (ok_or (hd_error (lines text)) "transcript is empty");
  genesis ← lift (map_err (λ e, "genesis is not JSON: " ++ e) (json_from_str first));
  if decide (get_str genesis "kind" = Some ("transcript_genesis" : str)) then
    h ← lift (ok_or (get_str genesis "audit_head_hash") "genesis missing audit_head_hash (not a B-3 transcript)");
    audit_text ← read_to_string env audit_path;
    audit_text ← lift (map_err (λ e, "read companion audit: " ++ e) audit_text);
    if contains h audit_text then
      _ ← println ("BOUND: transcript genesis audit_head_hash " ++ h ++ " found in " ++ audit_path);
      if existsb is_end_record (lines text) then mret tt
      else eprintln ("WARNING: transcript is unterminated (no transcript_end record) — " ++
                     "a crashed run; the chain itself is intact up to the last record")
    else fail ("genesis audit_head_hash " ++ h ++ " NOT found in " ++ audit_path ++
               ": the transcript does not belong to this audit journal")
  else fail (journal ++ " is not a transcript journal (first record kind: " ++ debug_opt_str (get_str genesis "kind") ++ ")").

(** [cmd_audit_verify]. *)
Definition cmd_audit_verify (env : CliEnv) (f : Flags) : Cmd unit :=
  journal ← lift (require f "journal");
  pubkey ← lift (require f "public-key");
  vk ← lift (verifying_key_from_b64url pubkey);
  m ← get_files;
  report ← lift (verify_file env m journal vk);
  match error report, tail report with
  | None, Some t =>
      _ ← println ("OK: " ++ show (Z.of_nat (records_ok report)) ++ " records verified; head seq=" ++
                   show (tail_seq t) ++ " hash=" ++ tail_hash_hex t);
      match values f !! ("companion-audit" : str) with
      | Some audit_path => if ends_with "transcript.jsonl" journal then check_companion env journal audit_path else mret tt
      | None => mret tt
      end
  | Some brk, _ =>
      println ("TAMPERED: " ++ show (Z.of_nat (records_ok report)) ++ " records ok before failure - line " ++
               show (Z.of_nat (S (brk_line brk))) ++ ": " ++ brk_reason brk)
  | None, None => println "EMPTY: journal has no records"
  end.

(** [cmd_audit_export]. *)
Definition cmd_audit_export (env : CliEnv) (f : Flags) : Cmd unit :=
  journal ← lift (require f "journal");
  content ← read_to_string env journal;
  content ← lift (map_err (λ e, "cannot read " ++ journal ++ ": " ++ e) content);
  _ ← print content;
  _ ← (if negb (is_empty content) && negb (ends_with newline content) then println [] else mret tt);
  eprintln ("# export complete; verify before trusting: chaperone audit-verify --journal " ++ journal ++
            " --public-key <B64URL>").
End Audit.

(** ** The vault *)

(** [refuse_ca_namespace]. *)
Definition refuse_ca_namespace (entry : str) : result str unit :=
  if starts_with CA_NAMESPACE entry then
    Err (entry ++ " is inside the non-exportable SSH CA namespace; " ++
         "the CA key serves minting only. Use `chaperone ca-export` for the public key line.")
  else Ok tt.

(** [read_passphrase]. *)
Definition read_passphrase (env : CliEnv) (f : Flags) (confirm : bool) : Cmd str :=
  match values f !! ("passphrase-file" : str) with
  | Some p =>
      text ← read_to_string env p;
      text ← lift (map_err (λ e, "cannot read passphrase file " ++ p ++ ": " ++ e) text);
      let line := default [] (hd_error (lines text)) in
      if is_empty line then fail ("passphrase file " ++ p ++ " is empty") else mret line
  | None =>
      if has f "passphrase-stdin" then
        line ← read_line env;
        line ← lift (map_err (λ e, "read passphrase: " ++ e) line);
        mret (pop_newlines line)
      else
        first ← lift (prompt_first env);
        if confirm then
          second ← lift (prompt_second env);
          if decide (first = second) then mret first else fail "passphrases do not match"
        else mret first
  end.

Definition passphrase_given (f : Flags) : bool :=
  bool_decide (is_Some (values f !! ("passphrase-file" : str))) || has f "passphrase-stdin".

(** Path operations: the last component of a path, what precedes it, and
    [Path::with_extension] and [Path::with_file_name] of a path that names a
    file. *)
Definition split_path (p : str) : str * str :=
  match rsplit_once Byte.x2f p with Some (d, n) => (d ++ "/", n) | None => ([], p) end.
Definition with_extension (ext p : str) : str :=
  let '(dir, name) := split_path p in
  dir ++ (match rsplit_once Byte.x2e name with
          | Some (stem, _) => if is_empty stem then name else stem
          | None => name
          end) ++ "." ++ ext.
Definition with_file_name (name p : str) : str := (split_path p).1 ++ name.

(** [atomic_write] of [import_core.rs]: a temporary file beside the target,
    then a rename. *)
Definition import_atomic_write (env : CliEnv) (p contents : str) : Cmd unit :=
  let tmp := with_extension "toml.tmp" p in
  match write_fault env tmp with
  | Some e => fail ("temp write: " ++ e)
  | None =>
      _ ← put_content tmp (Some contents);
      match rename_fault env with
      | Some e => fail ("rename: " ++ e)
      | None => _ ← put_content tmp None; put_content p (Some contents)
      end
  end.

Section Vaults.
Context `{Base64, Aead, Argon2, DebugFmt, SerdeText Header, SerdeText Body, SshKeys, Toml, Sha256}.

(** [open_vault]. *)
Definition open_vault (env : CliEnv) (f : Flags) : Cmd Store :=
  store ← lift (require f "store");
  raw ← read env store;
  let is_keyring := match sealer_of raw with Ok s => bool_decide (s = ("keyring" : str)) | Err _ => false end in
  _ ← (if is_keyring && passphrase_given f then
         eprintln ("note: " ++ store ++ " is keyring-sealed; the provided passphrase source is NOT used (the vault key lives in the platform credential store)")
       else mret tt);
  pass ← (if is_keyring then mret [] else read_passphrase env f false);
  raw ← read env store;
  v ← lift (map_err vault_error_str (Vault.open store raw pass));
  m ← get_files;
  mret {| handle := v; file := m !! store |}.

(** The file of an open vault after an operation on it. *)
Definition save_vault (s : Store) : Cmd unit := put_content (Vault.path (handle s)) (file s).

Definition next_nonce (env : CliEnv) : str := default [] (hd_error (nonces env)).

(** [cmd_vault_init]. *)
Definition cmd_vault_init (env : CliEnv) (f : Flags) : Cmd unit :=
  store ← lift (require f "store");
  let sealer := default "passphrase" (values f !! ("sealer" : str)) in
  if decide (sealer = ("passphrase" : str)) then
    pass ← read_passphrase env f true;
    m ← get_files;
    s ← lift (map_err vault_error_str (Vault.create store (m !! store) sealer pass (new_salt env) (new_dek env)
                (wrap_nonce env) (next_nonce env) (write_fault env store)));
    _ ← save_vault s;
    println ("created vault at " ++ store ++ " (sealed with: " ++ sealer ++ ")")
  else if decide (sealer = ("keyring" : str)) then
    fail "this build has no keyring support; rebuild the CLI with `cargo build --release --locked --features keyring -p chaperone-cli` (or use --sealer passphrase)"
  else fail ("unknown --sealer " ++ debug_str sealer ++ "; this build supports 'passphrase'").

Fixpoint print_lines (ls : list str) : Cmd unit :=
  match ls with [] => mret tt | l :: ls => _ ← println l; print_lines ls end.

(** What [ca-init] prints. *)
Definition CA_EXISTS : str :=
  "CA already exists at local://" ++ CA_ENTRY ++ " — not replaced. Rotation is an " ++
  "explicit operator procedure (dual-trust recipe: docs/specs/b1-ssh-ca-spec.md).".
Definition CA_CREATED : list str :=
  [ "created SSH CA at local://" ++ CA_ENTRY ++ " (sealed with the vault).";
    "THERE IS NO RECOVERY PATH: this key signs every ca:// certificate. " ++
    "Lose the vault passphrase and your fleet's CA is gone — no reset, no backdoor." ++ newline ++
    "Back up the sealed vault file now (LOCAL-VAULT-GUIDE.md §6), then run `chaperone ca-export` " ++
    "to get the public key for sshd TrustedUserCAKeys." ].

(** [cmd_ca_init]. *)
Definition cmd_ca_init (env : CliEnv) (f : Flags) : Cmd unit :=
  s ← open_vault env f;
  entries ← lift (map_err vault_error_str (list_entries (handle s)));
  if bool_decide (CA_ENTRY ∈ entries) then
    println CA_EXISTS
  else
    text ← lift (ok_or (fresh_ca_text (new_seed env)) (mint_detail BadCaKey));
    let '(r, s') := set_entry s CA_ENTRY text (next_nonce env) (write_fault env (Vault.path (handle s))) in
    _ ← save_vault s';
    _ ← lift (map_err vault_error_str r);
    print_lines CA_CREATED.

(** [cmd_ca_export]. *)
Definition cmd_ca_export (env : CliEnv) (f : Flags) : Cmd unit :=
  s ← open_vault env f;
  value ← lift (map_err vault_error_str (get_entry (handle s) CA_ENTRY));
  text ← lift (ok_or value "no SSH CA in this vault; run `chaperone ca-init` first");
  key ← lift (ok_or (ca_public_line text) "the stored CA key is not a parseable SSH private key");
  println key.

(** [cmd_vault_set]. *)
Definition cmd_vault_set (env : CliEnv) (f : Flags) : Cmd unit :=
  entry ← lift (require f "path");
  _ ← lift (refuse_ca_namespace entry);
  s ← open_vault env f;
  value ← read_rest env;
  value ← lift (map_err (λ e, "read secret from stdin: " ++ e) value);
  let '(r, s') := set_entry s entry (pop_newlines value) (next_nonce env) (write_fault env (Vault.path (handle s))) in
  _ ← save_vault s';
  _ ← lift (map_err vault_error_str r);
  println ("stored " ++ entry).

(** [cmd_vault_get]. *)
Definition cmd_vault_get (env : CliEnv) (f : Flags) : Cmd unit :=
  entry ← lift (require f "path");
  _ ← lift (refuse_ca_namespace entry);
  s ← open_vault env f;
  value ← lift (map_err vault_error_str (get_entry (handle s) entry));
  match value with
  | Some secret => if has f "show" then println secret
                   else println ("[redacted] " ++ show (zlen secret) ++ " bytes present")
  | None => fail (entry ++ " does not exist")
  end.

(** [cmd_vault_list]. *)
Definition cmd_vault_list (env : CliEnv) (f : Flags) : Cmd unit :=
  s ← open_vault env f;
  entries ← lift (map_err vault_error_str (list_entries (handle s)));
  print_lines entries.

(** [cmd_vault_del]. *)
Definition cmd_vault_del (env : CliEnv) (f : Flags) : Cmd unit :=
  entry ← lift (require f "path");
  _ ← lift (refuse_ca_namespace entry);
  s ← open_vault env f;
  let '(r, s') := delete_entry s entry (next_nonce env) (write_fault env (Vault.path (handle s))) in
  _ ← save_vault s';
  was ← lift (map_err vault_error_str r);
  if (was : bool) then println ("removed " ++ entry) else println (entry ++ " was not present").

(** *** [vault-import] *)

Fixpoint print_warnings (ws : list Skipped) : Cmd unit :=
  match ws with
  | [] => mret tt
  | w :: ws => _ ← eprintln ("warning (line " ++ show (sk_line w) ++ "): " ++ sk_reason w); print_warnings ws
  end.

(** The rows, unless one did not parse. *)
Fixpoint all_rows (ps : list Parsed) : result str (list InventoryRow) :=
  match ps with
  | [] => Ok []
  | Row row :: ps => rows ← all_rows ps; Ok (row :: rows)
  | FailedLine line reason :: _ => Err ("source line " ++ show line ++ ": " ++ reason)
  end.

Record Counts : Type := { n_imported : Z; n_skipped : Z; n_failed : Z; n_placeholder : Z }.
Definition count_row (c : Counts) (ro : InventoryRow * RowOutcome) : Counts :=
  match ro.2 with
  | Imported _ =>
      {| n_imported := n_imported c + 1; n_skipped := n_skipped c; n_failed := n_failed c;
         n_placeholder := n_placeholder c + (match row_secret ro.1 with Some _ => 0 | None => 1 end) |}
  | SkippedExists _ =>
      {| n_imported := n_imported c; n_skipped := n_skipped c + 1; n_failed := n_failed c; n_placeholder := n_placeholder c |}
  | FailedRow _ =>
      {| n_imported := n_imported c; n_skipped := n_skipped c; n_failed := n_failed c + 1; n_placeholder := n_placeholder c |}
  end.

(** Overwriting the source with zeros and removing it. *)
Definition shred_source (env : CliEnv) (p : str) : Cmd unit :=
  m ← get_files;
  _ ← (match write_fault env p, m !! p with
       | None, Some t => put_content p (Some (replicate (length t) (zb 0)))
       | _, _ => mret tt
       end);
  match remove_fault env with
  | None => _ ← put_content p None; println ("source shredded and removed: " ++ p)
  | Some e => eprintln ("warning: could not remove source: " ++ e)
  end.

(** What is done about the plain text of a CSV source. *)
Definition after_csv (env : CliEnv) (f : Flags) (p : str) (c : Counts) : Cmd unit :=
  if has f "shred-source" then
    if n_failed c =? 0 then shred_source env p
    else eprintln "warning: --shred-source ignored; the run had failed rows"
  else eprintln "warning: this CSV still contains plaintext secrets; delete or secure it after a successful import".

Definition dry_line (ro : InventoryRow * RowOutcome) : str :=
  "  " ++ row_name ro.1 ++ " " ++ outcome_line ro.2 ++ " [" ++ row_host ro.1 ++ "]".

(** The source of an import: its kind, its file and its rows. *)
Definition import_source (env : CliEnv) (spec : str) : Cmd (str * str * list InventoryRow) :=
  '(kind, source_file) ← lift (ok_or (split_once Byte.x3a spec) "source must look like `csv:<FILE>` or `ssh-config:<FILE>`");
  text ← read_to_string env source_file;
  text ← lift (map_err (λ e, "read " ++ source_file ++ ": " ++ e) text);
  outcome ← (if decide (kind = ("csv" : str)) then mret (parse_csv text)
             else if decide (kind = ("ssh-config" : str)) then
               match parse_ssh_config text with Some o => mret o | None => panic end
             else fail ("unknown source kind `" ++ kind ++ "` (csv | ssh-config)"));
  _ ← print_warnings (po_warnings outcome);
  rows ← lift (all_rows (po_rows outcome));
  if decide (rows = []) then fail "no importable rows in source" else mret (kind, source_file, rows).

(** [cmd_vault_import]. *)
Definition cmd_vault_import (env : CliEnv) (f : Flags) : Cmd unit :=
  _ ← lift (require f "store");
  policy_path ← lift (require f "policy");
  rule ← lift (require f "rule-name");
  spec ← lift (require f "source");
  let scheme := default "local://ssh/fleet" (values f !! ("cred-scheme" : str)) in
  let dry := has f "dry-run" in
  '(kind, source_file, rows) ← import_source env spec;
  s ← open_vault env f;
  doc ← read_to_string env policy_path;
  doc ← lift (map_err (λ e, "read " ++ policy_path ++ ": " ++ e) doc);
  let '(r, s') := run_import {| policy_doc := doc; plan_rule := rule; cred_scheme := scheme; dry_run := dry |}
                    rows s (nonces env) (set_faults env) in
  _ ← save_vault s';
  '(outcomes, new_doc) ← lift r;
  if dry then
    _ ← println "DRY RUN — nothing written. Per-row result:";
    print_lines (dry_line <$> zip rows outcomes)
  else
    _ ← import_atomic_write env policy_path new_doc;
    let c := fold_left count_row (zip rows outcomes) {| n_imported := 0; n_skipped := 0; n_failed := 0; n_placeholder := 0 |} in
    _ ← print_lines ((λ ro, outcome_line ro.2) <$> zip rows outcomes);
    _ ← println ("import: " ++ show (n_imported c) ++ " imported, " ++ show (n_skipped c) ++ " skipped (rows added), " ++
                 show (n_failed c) ++ " failed, " ++ show (n_placeholder c) ++ " placeholder");
    if decide (kind = ("csv" : str)) then after_csv env f source_file c else mret tt.
End Vaults.

(** ** [doctor] *)

Section Doctor.
Context `{Base64, Ed25519, SerdeText StoreFile, JsonText, Sha256, DebugFmt, Aead, Argon2,
          SerdeText Header, SerdeText Body, Toml}.

(** A flag that defaults to the empty string. *)
Definition path_flag (f : Flags) (name : str) : str := default [] (values f !! name).

Definition CARGO_PKG_VERSION : str := "0.1.0".

(** The six checks, each a verdict on the files. *)
Definition check_policy (env : CliEnv) (f : Flags) (m : gmap str str) : result str str :=
  let p := path_flag f "policy" in
  if is_empty p then Err "pass --policy <TOML> (the same file serve uses)"
  else
    doc ← map_err (λ e, "cannot read " ++ p ++ ": " ++ e ++ "; run `chaperone serve` once to create it via the setup wizard")
            (fs_read_to_string env m p);
    policy ← map_err policy_error_str (from_toml doc);
    Ok (p ++ " (" ++ show (Z.of_nat (policy_len policy)) ++ " rule(s); default-deny when 0)").

Definition check_enrollment (env : CliEnv) (f : Flags) (m : gmap str str) : result str str :=
  let p := path_flag f "enrollment" in
  if is_empty p then Err "pass --enrollment <FILE> (agents.json)"
  else if negb (fs_exists m p) then
    Err (p ++ " does not exist; enroll with `chaperone enroll --store " ++ p ++
         " --agent-id <ID> --public-key <B64URL> --sponsor-id <HUMAN-ID> --sponsor-name <NAME>`")
  else
    store ← map_err (λ e, "cannot load " ++ p ++ ": " ++ enrollment_error_str e ++ "; create it with `chaperone enroll --store " ++
                          p ++ " --agent-id <ID> --public-key <B64URL>`") (Enrollment.load (seen env m p));
    let rs := list_records store in
    Ok (p ++ " (" ++ show (zlen (filter (λ r, revoked_at r = None) rs)) ++ " live / " ++ show (zlen rs) ++ " enrolled)").

Definition check_audit (env : CliEnv) (f : Flags) (m : gmap str str) : result str str :=
  let k := path_flag f "audit-key" in
  let j := path_flag f "audit-journal" in
  if is_empty k || is_empty j then Err "pass --audit-key <SEEDFILE> and --audit-journal <FILE>"
  else if negb (fs_exists m k) then Err (k ++ " does not exist; generate with `chaperone audit-keygen --out " ++ k ++ "`")
  else
    seed_text ← map_err (λ e, "cannot read " ++ k ++ ": " ++ e) (fs_read_to_string env m k);
    key ← load_audit_seed_text seed_text;
    if negb (fs_exists m j) then Ok "no journal yet (created on first `serve`)"
    else
      report ← map_err (λ e, "journal unreadable: " ++ e) (verify_file env m j (verifying_key key));
      match error report, tail report with
      | None, Some t => Ok (show (Z.of_nat (records_ok report)) ++ " records verified; head seq=" ++
                            show (tail_seq t) ++ " hash=" ++ tail_hash_hex t)
      | Some brk, _ => Err ("TAMPERED at line " ++ show (Z.of_nat (S (brk_line brk))) ++ ": " ++ brk_reason brk ++
                            " — investigate before trusting this journal")
      | None, None => Ok "no records yet (chain will start on first decision)"
      end.

Definition check_socket (env : CliEnv) (p : str) : result str str :=
  match socket_at env p with
  | None => Err (p ++ " does not exist; is `chaperone serve --socket " ++ p ++ "` running?")
  | Some connected =>
      _ ← map_err (λ e, "connect failed: " ++ e ++ "; is serve running with --socket " ++ p ++ "?") connected;
      Ok (p ++ " accepting connections")
  end.

(** The verdict of a program on what it would do, as a value. *)
Definition attempt {A} (c : Cmd A) : Cmd (result str A) := λ s,
  match c s with
  | (Done a, o, s') => (Done (Ok a), o, s')
  | (Failed e, o, s') => (Done (Err e), o, s')
  | (Panicked, o, s') => (Panicked, o, s')
  end.

(** Only this check reads standard input: the passphrase. *)
Definition check_vault (env : CliEnv) (f : Flags) : Cmd (result str str) :=
  m ← get_files;
  let p := path_flag f "store" in
  if is_empty p then mret (Err "pass --store <VAULT> (vault.bin)")
  else if negb (fs_exists m p) then
    mret (Err (p ++ " does not exist; run `chaperone serve` once (setup wizard) or `chaperone vault-init --store " ++ p ++ "`"))
  else
    pass ← attempt (read_passphrase env f false);
    mret (pass ← map_err (λ e, "no passphrase available: " ++ e ++ "; pass --passphrase-file or pipe --passphrase-stdin") pass;
          v ← map_err (λ e, "unlock failed: " ++ vault_error_str e ++
                            " (wrong passphrase or corrupt store; the passphrase has no recovery)")
                (Vault.open p (fs_read env m p) pass);
          entries ← map_err vault_error_str (list_entries v);
          Ok (p ++ " (" ++ show (zlen entries) ++ " entr(y|ies))")).

(** The closure [check]: prints a verdict, counts a failure. *)
Definition check (name : str) (r : result str str) : Cmd Z :=
  match r with
  | Ok detail => _ ← println ("  ok    " ++ name ++ ": " ++ detail); mret 0
  | Err actionable => _ ← println ("  FAIL  " ++ name ++ ": " ++ actionable); mret 1
  end.

(** The last line, and the exit. *)
Definition doctor_summary (failures : Z) : Cmd unit :=
  if failures =? 0 then println "doctor: all checks passed"
  else fail ("doctor: " ++ show failures ++ " check(s) failed — fix the FAIL lines above and re-run").

(** [cmd_doctor]. *)
Definition cmd_doctor (env : CliEnv) (f : Flags) : Cmd unit :=
  m ← get_files;
  n1 ← check "binary version" (Ok ("chaperone " ++ CARGO_PKG_VERSION ++ " (protocol " ++ PROTOCOL_VERSION ++ ")"));
  n2 ← check "policy parses" (check_policy env f m);
  n3 ← check "enrollment store" (check_enrollment env f m);
  vault ← check_vault env f;
  n4 ← check "vault unlocks" vault;
  n5 ← check "audit chain tail" (check_audit env f m);
  n6 ← (match values f !! ("socket" : str) with
        | Some p => check "transport endpoint" (check_socket env p)
        | None => mret 0
        end);
  _ ← println [];
  doctor_summary (n1 + n2 + n3 + n4 + n5 + n6).
End Doctor.

(** ** [ui-token] *)

Section Token.
Context `{Base64, DebugFmt}.

(** A numeric flag with a default, which is also taken for what is no number. *)
Definition number_or (max d : Z) (f : Flags) (name : str) : Z :=
  match values f !! name with Some v => default d (parse_uint max v) | None => d end.

Definition open_line (f : Flags) (token : str) : str :=
  "open:      http://127.0.0.1:" ++ show (number_or u16_max 8720 f "ui-port") ++ "/?token=" ++ token.

(** [cmd_ui_token]. *)
Definition cmd_ui_token (env : CliEnv) (args : list str) : Cmd unit :=
  let usage := fail "usage: chaperone ui-token show|rotate --token <PATH>" in
  match args with
  | [] => usage
  | action :: rest =>
      if decide (action = ("show" : str)) then
        f ← lift (parse_flags rest);
        p ← lift (require f "token");
        text ← read_to_string env p;
        t ← lift (load_token p text);
        _ ← println ("UI token:  " ++ raw t);
        println (open_line f (raw t))
      else if decide (action = ("rotate" : str)) then
        f ← lift (parse_flags rest);
        p ← lift (require f "token");
        m ← get_files;
        let '(r, content) := rotate (new_seed env) (m !! p) (write_fault env p) in
        _ ← put_content p content;
        token ← lift r;
        _ ← println ("rotated UI token at " ++ p ++ " (0600)");
        _ ← println ("UI token:  " ++ token);
        println (open_line f token)
      else usage
  end.
End Token.

(** ** Running commands

    One equation per primitive, in the rewrite database [cmd]. *)

Lemma bind_lift {A B} (r : result str A) (k : A → Cmd B) s :
  (lift r ≫= k) s = match r with Ok a => k a s | Err e => (Failed e, [], s) end.
Proof. unfold mbind, cmd_bind, lift. destruct r; [|done]. by destruct (k a s) as [[]]. Qed.

Lemma bind_ret {A B} (a : A) (k : A → Cmd B) s : (mret a ≫= k) s = k a s.
Proof. unfold mbind, cmd_bind, mret, cmd_ret. by destruct (k a s) as [[]]. Qed.

Lemma bind_fail {A B} msg (k : A → Cmd B) s : (fail msg ≫= k) s = (Failed msg, [], s).
Proof. done. Qed.

Lemma bind_read_to_string {B} env p (k : _ → Cmd B) s :
  (read_to_string env p ≫= k) s = k (fs_read_to_string env (files s) p) s.
Proof. unfold mbind, cmd_bind, read_to_string. by destruct (k _ s) as [[]]. Qed.

Lemma bind_read {B} env p (k : _ → Cmd B) s : (read env p ≫= k) s = k (fs_read env (files s) p) s.
Proof. unfold mbind, cmd_bind, read. by destruct (k _ s) as [[]]. Qed.

Lemma bind_get_files {B} (k : _ → Cmd B) s : (get_files ≫= k) s = k (files s) s.
Proof. unfold mbind, cmd_bind, get_files. by destruct (k _ s) as [[]]. Qed.

Lemma bind_put_content {B} p c (k : _ → Cmd B) s :
  (put_content p c ≫= k) s = k tt {| files := partial_alter (λ _, c) p (files s); input := input s |}.
Proof. unfold mbind, cmd_bind, put_content. by destruct (k _ _) as [[]]. Qed.

Lemma bind_println {B} t (k : _ → Cmd B) s :
  (println t ≫= k) s = let '(r, o, s') := k tt s in (r, Out (t ++ newline) :: o, s').
Proof. unfold mbind, cmd_bind, println, print. by destruct (k _ _) as [[]]. Qed.

Lemma bind_quiet {A B} (c : Cmd A) (k : A → Cmd B) s a s' :
  c s = (Done a, [], s') → (c ≫= k) s = k a s'.
Proof. intros Hc. unfold mbind, cmd_bind. rewrite Hc. by destruct (k a s') as [[]]. Qed.

Lemma bind_read_rest {B} env (k : _ → Cmd B) s :
  (read_rest env ≫= k) s =
  match stdin_fault env with
  | Some e => k (Err e) s
  | None => k (if utf8_valid (input s) then Ok (input s) else Err NOT_UTF8) {| files := files s; input := [] |}
  end.
Proof. unfold mbind, cmd_bind, read_rest. destruct (stdin_fault env); by destruct (k _ _) as [[]]. Qed.

Create Rewrite HintDb cmd.
#[export] Hint Rewrite @bind_lift @bind_ret @bind_fail @bind_read_to_string @bind_read @bind_get_files @bind_put_content @bind_read_rest : cmd.

(** ** Properties of the flags *)

(** What an operator means to say: a flag with a value, or a switch. *)
Inductive item : Type := Val (name value : str) | Sw (name : str).
Definition render (i : item) : list str :=
  match i with Val n v => ["--" ++ n; v] | Sw n => ["--" ++ n] end.
Definition say (f : Flags) (i : item) : Flags :=
  match i with
  | Val n v => {| values := <[n := v]> (values f); switches := switches f |}
  | Sw n => {| values := values f; switches := switches f ++ [n] |}
  end.
Definition sayable (i : item) : Prop :=
  match i with
  | Val n v => starts_with "-" n = false ∧ starts_with "--" v = false
  | Sw n => starts_with "-" n = false
  end.

Lemma trim_dashes n : starts_with "-" n = false → trim_start_matches "-" ("--" ++ n) = n.
Proof.
  intros Hn. assert (strip_prefix "-" n = None) as Hs by (by unfold strip_prefix; rewrite Hn).
  change (trim_fuel (length n) ["-"] n = n).
  destruct (length n); cbn [trim_fuel]; [done|]. unfold strip_one. cbn [find_map]. by rewrite Hs.
Qed.

Lemma dashed n : starts_with "--" ("--" ++ n) = true.
Proof. by apply starts_with_app. Qed.

Section FlagsProps.
Context `{DebugFmt}.

Lemma parse_args_render xs acc : Forall sayable xs →
  parse_args (mjoin (render <$> xs)) acc = Ok (fold_left say xs acc).
Proof.
  intros His. revert acc. induction His as [|i xs Hi His IH]; intros acc; [done|].
  change (mjoin (render <$> i :: xs)) with (render i ++ mjoin (render <$> xs)).
  destruct i as [n v|n]; cbn [fold_left].
  - destruct Hi as [Hn Hv]. change (render (Val n v) ++ ?l) with (("--" ++ n) :: v :: l). cbn [parse_args].
    rewrite dashed, Hv, trim_dashes by done. apply IH.
  - change (render (Sw n) ++ ?l) with (("--" ++ n) :: l). cbn [parse_args]. rewrite dashed, trim_dashes by done.
    change {| values := values acc; switches := switches acc ++ [n] |} with (say acc (Sw n)). rewrite <- IH.
    by destruct xs as [|[] xs].
Qed.

(** The flags are read as they were meant: names without a leading dash, and
    values that do not start with two, come back, the last value of a name
    counting. *)
Theorem flags_roundtrip xs : Forall sayable xs →
  parse_flags (mjoin (render <$> xs)) = Ok (fold_left say xs no_flags).
Proof. apply parse_args_render. Qed.

Lemma flags_roundtrip_witness :
  parse_flags (mjoin (render <$> [Val "store" "a"; Sw "force"; Val "store" "-b"])) =
  Ok {| values := {["store" : str := "-b" : str]}; switches := ["force"] |}.
Proof. rewrite flags_roundtrip; [reflexivity|]. repeat constructor. Defined.

(** *** Values that start with two dashes *)

Context `{Base64, Ed25519, SerdeText StoreFile}.

Definition enroll_items (store id pk sponsor name : str) : list item :=
  [Val "store" store; Val "agent-id" id; Val "public-key" pk; Val "sponsor-id" sponsor; Val "sponsor-name" name].

(** An agent whose published key starts with two dashes cannot be enrolled
    from the command line: the key is taken for a switch. *)
Theorem dashed_key_not_enrolled env s store id n sponsor name :
  starts_with "-" n = false → Forall sayable [Val "store" store; Val "agent-id" id; Val "sponsor-id" sponsor; Val "sponsor-name" name] →
  ∃ f, parse_flags (mjoin (render <$> enroll_items store id ("--" ++ n) sponsor name)) = Ok f ∧
    cmd_enroll env f s = (Failed "missing required flag --public-key", [], s).
Proof.
  intros Hn Hs. eexists. split.
  - change (mjoin (render <$> enroll_items store id ("--" ++ n) sponsor name)) with
      (mjoin (render <$> [Val "store" store; Val "agent-id" id; Sw "public-key"; Sw n; Val "sponsor-id" sponsor; Val "sponsor-name" name])).
    apply flags_roundtrip. rewrite !Forall_cons in Hs. destruct Hs as (? & ? & ? & ? & _).
    repeat (apply Forall_cons_2; [done|]). apply Forall_nil_2.
  - destruct s. reflexivity.
Qed.

Lemma dashed_key_not_enrolled_witness env s :
  ∃ f, parse_flags ["--store"; "a.json"; "--agent-id"; "agent:a"; "--public-key"; "--x8Q"; "--sponsor-id"; "human:x"; "--sponsor-name"; "X"] = Ok f ∧
    cmd_enroll env f s = (Failed "missing required flag --public-key", [], s).
Proof. apply (dashed_key_not_enrolled env s "a.json" "agent:a" "x8Q" "human:x" "X"); [reflexivity|by repeat constructor]. Qed.

(** *** Switches followed by a value *)

Lemma say_switches xs f n : Sw n ∉ xs → (fold_left say xs f).(switches) = switches f ++ (xs ≫= λ i, match i with Sw k => [k] | _ => [] end).
Proof.
  clear. revert f. induction xs as [|i xs IH]; intros f Hn; cbn [fold_left mbind list_bind]; [by rewrite app_nil_r|].
  rewrite IH by set_solver. destruct i; cbn [say switches app]; [done|]. by rewrite <- app_assoc.
Qed.

(** A switch followed by a word is not set, whatever the word says: the
    command runs as if it had not been given. *)
Theorem switch_with_value_ignored xs n f : Forall sayable xs → Sw n ∉ xs →
  parse_flags (mjoin (render <$> xs)) = Ok f → has f n = false.
Proof.
  intros Hs Hn. rewrite flags_roundtrip by done. intros [= <-]. unfold has. rewrite (say_switches _ _ n) by done.
  apply not_true_iff_false. intros (k & Hk & ->%bool_decide_eq_true)%existsb_exists.
  cbn [no_flags switches app] in Hk. apply list_elem_of_In, list_elem_of_bind in Hk as ([|] & Hk & Hi); set_solver.
Qed.
End FlagsProps.

(** ** The health check *)

Definition unpanicked {A} (e : exit A) : Prop := match e with Panicked => False | _ => True end.

Ltac solve_quiet := eexists _, _; split_and!; [reflexivity|reflexivity|exact I].

(** Reading the passphrase neither prints nor touches a file. *)
Lemma read_passphrase_quiet env f confirm s :
  ∃ r s', read_passphrase env f confirm s = (r, [], s') ∧ files s' = files s ∧ unpanicked r.
Proof.
  unfold read_passphrase. destruct (values f !! _) as [p|].
  { autorewrite with cmd. destruct (fs_read_to_string env (files s) p) as [t|e]; cbn [map_err]; [|solve_quiet].
    case_match; solve_quiet. }
  destruct (has f _).
  { unfold read_line, mbind, cmd_bind. destruct (stdin_fault env) as [e|]; cbn; [solve_quiet|].
    destruct (take_line (input s)) as [l rest]. destruct (utf8_valid l); cbn; solve_quiet. }
  autorewrite with cmd. destruct (prompt_first env) as [a|e]; [|solve_quiet].
  destruct confirm; [|solve_quiet]. autorewrite with cmd. destruct (prompt_second env) as [b|e]; [|solve_quiet].
  case_match; solve_quiet.
Qed.

Section DoctorProps.
Context `{Base64, Ed25519, SerdeText StoreFile, JsonText, Sha256, DebugFmt, Aead, Argon2,
          SerdeText Header, SerdeText Body, Toml}.

(** What an install must have for [doctor] to pass. *)
Definition given (f : Flags) (name p : str) : Prop := values f !! name = Some p ∧ p ≠ [].
Definition policy_healthy (env : CliEnv) (f : Flags) (m : gmap str str) : Prop :=
  ∃ p doc rs, given f "policy" p ∧ fs_read_to_string env m p = Ok doc ∧ from_toml doc = Ok rs.
Definition enrollment_healthy (env : CliEnv) (f : Flags) (m : gmap str str) : Prop :=
  ∃ p store, given f "enrollment" p ∧ is_Some (m !! p) ∧ Enrollment.load (seen env m p) = Ok store.
Definition audit_healthy (env : CliEnv) (f : Flags) (m : gmap str str) : Prop :=
  ∃ k j text key, given f "audit-key" k ∧ given f "audit-journal" j ∧ is_Some (m !! k) ∧
    fs_read_to_string env m k = Ok text ∧ load_audit_seed_text text = Ok key ∧
    (m !! j = None ∨ ∃ journal, fs_read_to_string env m j = Ok journal ∧ error (walk_lines journal (verifying_key key)) = None).
Definition vault_healthy (env : CliEnv) (f : Flags) (s : Shell) : Prop :=
  ∃ p pass v, given f "store" p ∧ is_Some (files s !! p) ∧ (read_passphrase env f false s).1.1 = Done pass ∧
    Vault.open p (fs_read env (files s) p) pass = Ok v.
Definition socket_healthy (env : CliEnv) (f : Flags) : Prop :=
  ∀ p, values f !! ("socket" : str) = Some p → socket_at env p = Some (Ok tt).
Definition healthy (env : CliEnv) (f : Flags) (s : Shell) : Prop :=
  policy_healthy env f (files s) ∧ enrollment_healthy env f (files s) ∧ vault_healthy env f s ∧
  audit_healthy env f (files s) ∧ socket_healthy env f.

Lemma path_flag_given f name p : given f name p ↔ path_flag f name = p ∧ is_empty (path_flag f name) = false.
Proof.
  unfold given, path_flag. destruct (values f !! name) as [q|]; cbn; [|split; [by intros [? _]|by intros [_ ?]]].
  split; [intros [[= ->] Hp]; by destruct p|]. intros [-> Hp]. split; [done|]. by intros ->.
Qed.

Lemma exists_is_Some (m : gmap str str) p : fs_exists m p = true ↔ is_Some (m !! p).
Proof. unfold fs_exists. by rewrite bool_decide_eq_true. Qed.

Lemma check_policy_ok env f m : is_ok (check_policy env f m) = true ↔ policy_healthy env f m.
Proof.
  unfold check_policy, policy_healthy. setoid_rewrite path_flag_given. destruct (is_empty _) eqn:He; [naive_solver|].
  destruct (fs_read_to_string env m _) as [doc|] eqn:Hr; cbn; [|naive_solver congruence].
  destruct (from_toml doc) as [rs|] eqn:Ht; cbn; split; try done; intros; naive_solver congruence.
Qed.

Lemma check_enrollment_ok env f m : is_ok (check_enrollment env f m) = true ↔ enrollment_healthy env f m.
Proof.
  unfold check_enrollment, enrollment_healthy. setoid_rewrite path_flag_given. destruct (is_empty _) eqn:He; [naive_solver|].
  setoid_rewrite <- exists_is_Some. destruct (fs_exists m _) eqn:Hx; cbn [negb]; [|naive_solver congruence].
  destruct (Enrollment.load _) as [st|] eqn:Hl; cbn; split; try done; intros; naive_solver congruence.
Qed.

Lemma check_audit_ok env f m : is_ok (check_audit env f m) = true ↔ audit_healthy env f m.
Proof.
  unfold check_audit, audit_healthy. setoid_rewrite path_flag_given.
  set (k := path_flag f "audit-key"). set (j := path_flag f "audit-journal").
  destruct (is_empty k) eqn:Hk; cbn [orb]; [naive_solver|]. destruct (is_empty j) eqn:Hj; [naive_solver|].
  setoid_rewrite <- exists_is_Some. destruct (fs_exists m k) eqn:Hxk; cbn [negb]; [|naive_solver congruence].
  destruct (fs_read_to_string env m k) as [text|] eqn:Ht; cbn [map_err mbind result_bind]; [|naive_solver congruence].
  destruct (load_audit_seed_text text) as [key|] eqn:Hkey; cbn [mbind result_bind]; [|naive_solver congruence].
  unfold fs_exists. destruct (m !! j) as [jt|] eqn:Hjt; [rewrite bool_decide_true by done|rewrite bool_decide_false by (by intros [? ?])].
  - cbn [negb]. unfold verify_file. destruct (fs_read_to_string env m j) as [t|] eqn:Hr; cbn [map_err mbind result_bind]; [|naive_solver congruence].
    destruct (error (walk_lines t (verifying_key key))) as [brk|] eqn:Hw.
    + split; [done|]. intros (k' & j' & text' & key' & [<- _] & [<- _] & _ & ? & ? & [?|(? & ? & ?)]); congruence.
    + split; [|by destruct (tail _)]. intros _. exists k, j, text, key. split_and!; try done. right. by exists t.
  - cbn [negb]. split; [|done]. intros _. exists k, j, text, key. split_and!; try done. by left.
Qed.

Lemma check_socket_ok env f :
  match values f !! ("socket" : str) with Some p => is_ok (check_socket env p) | None => true end = true ↔ socket_healthy env f.
Proof.
  unfold socket_healthy. destruct (values f !! _) as [p|]; [|naive_solver]. unfold check_socket.
  destruct (socket_at env p) as [[[]|]|] eqn:Hs; cbn; naive_solver congruence.
Qed.

Lemma check_vault_ok env f s : ∃ r s', check_vault env f s = (Done r, [], s') ∧ files s' = files s ∧
  (is_ok r = true ↔ vault_healthy env f s).
Proof.
  unfold check_vault, vault_healthy. setoid_rewrite path_flag_given. autorewrite with cmd.
  set (p := path_flag f "store"). destruct (is_empty p) eqn:Hp; [eexists _, _; split_and!; [done..|naive_solver]|].
  setoid_rewrite <- exists_is_Some. destruct (fs_exists (files s) p) eqn:Hx; cbn [negb];
    [|eexists _, _; split_and!; [done..|naive_solver congruence]].
  destruct (read_passphrase_quiet env f false s) as (r & s' & Hr & Hf & Hnp). rewrite Hr. cbn [fst].
  assert (attempt (read_passphrase env f false) s =
    (Done (match r with Done a => Ok a | Failed e => Err e | Panicked => Err [] end), [], s')) as Ha.
  { unfold attempt. rewrite Hr. by destruct r. }
  rewrite (bind_quiet _ _ _ _ _ Ha). eexists _, _. split_and!; [done..|].
  destruct r as [pass|e|]; cbn [map_err mbind result_bind]; [|naive_solver|done].
  destruct (Vault.open p _ pass) as [v|] eqn:Hv; cbn [map_err mbind result_bind]; [|naive_solver congruence].
  pose proof (open_authenticates _ _ _ _ Hv) as (Hd & _). unfold list_entries.
  destruct (decrypt_entries v); [|done]. cbn. split; [|done]. intros _. by exists p, pass, v.
Qed.

(** A run with its output left out. *)
Definition ends {A} (c : Cmd A) (s : Shell) (r : exit A) (s' : Shell) : Prop := ∃ o, c s = (r, o, s').

Lemma ends_quiet {A B} (c : Cmd A) (k : A → Cmd B) s a s1 r s' :
  c s = (Done a, [], s1) → ends (k a) s1 r s' → ends (c ≫= k) s r s'.
Proof. intros Hc [o Ho]. exists o. by rewrite (bind_quiet _ _ _ _ _ Hc). Qed.

Lemma ends_println {B} t (k : unit → Cmd B) s r s' : ends (k tt) s r s' → ends (println t ≫= k) s r s'.
Proof. intros [o Ho]. eexists. rewrite bind_println, Ho. reflexivity. Qed.

Lemma ends_check {B} name v (k : Z → Cmd B) s r s' :
  ends (k (if is_ok v then 0 else 1)) s r s' → ends (check name v ≫= k) s r s'.
Proof.
  intros [o Ho]. unfold ends, mbind, cmd_bind.
  destruct v as [d|e]; cbn [check is_ok] in *; unfold println, print, mbind, cmd_bind, mret, cmd_ret; cbn; rewrite Ho; by eexists.
Qed.

Lemma ends_socket {B} env f b (k : Z → Cmd B) s r s' :
  b = match values f !! ("socket" : str) with Some p => is_ok (check_socket env p) | None => true end →
  ends (k (if b then 0 else 1)) s r s' →
  ends (match values f !! ("socket" : str) with Some p => check "transport endpoint" (check_socket env p) | None => mret 0 end ≫= k) s r s'.
Proof. intros -> Hk. destruct (values f !! _); [by apply ends_check|]. by eapply ends_quiet. Qed.

(** The health check changes no file, and it succeeds exactly on an install
    [serve] can use: a policy that parses, an enrolment file that loads, a
    vault that opens with the passphrase given, an audit key of 32 bytes under
    which the journal, if there is one, verifies to its end, and, when a socket
    is named, an endpoint that accepts. *)
Theorem doctor_verdict env f s :
  let '(r, _, s') := cmd_doctor env f s in
  files s' = files s ∧ (r = Done tt ↔ healthy env f s).
Proof.
  destruct (check_vault_ok env f s) as (rv & s' & Hv & Hf & Hvault).
  pose proof (check_policy_ok env f (files s)) as Hp. pose proof (check_enrollment_ok env f (files s)) as He.
  pose proof (check_audit_ok env f (files s)) as Ha. pose proof (check_socket_ok env f) as Hs.
  assert (∃ r, ends (cmd_doctor env f) s r s' ∧ (r = Done tt ↔ healthy env f s)) as (r & [o ->] & Hr); [|done].
  set (sock := match values f !! ("socket" : str) with Some p => is_ok (check_socket env p) | None => true end) in *.
  set (n (b : bool) := if b then 0 else 1).
  set (failures := 0 + n (is_ok (check_policy env f (files s))) + n (is_ok (check_enrollment env f (files s))) + n (is_ok rv) +
                   n (is_ok (check_audit env f (files s))) + n sock).
  exists (doctor_summary failures s').1.1. split.
  { unfold cmd_doctor. eapply ends_quiet; [done|]. do 3 apply ends_check. eapply ends_quiet; [exact Hv|]. do 2 apply ends_check.
    apply (ends_socket env f sock); [done|]. apply ends_println. change (ends (doctor_summary failures) s' (doctor_summary failures s').1.1 s').
    unfold doctor_summary. case_match; by eexists. }
  unfold healthy. rewrite <- Hp, <- He, <- Hvault, <- Ha, <- Hs. unfold failures, n. clear - s'.
  do 4 (destruct (is_ok _)); destruct sock; cbn; naive_solver.
Qed.
End DoctorProps.

(** ** The vault commands *)

Section VaultProps.
Context `{Base64, Aead, Argon2, DebugFmt, SerdeText Header, SerdeText Body, SshKeys}.

(** The text of a vault file that holds [m] under the passphrase. *)
Definition holds_vault (pass : str) (m : gmap str str) (text : str) : Prop :=
  ∃ v, serves pass v m ∧ text = MAGIC ++ to_text (header_of v).

Definition at_path (p : str) (v : LocalVault) : LocalVault :=
  {| path := p; sealer_name := sealer_name v; sealed_dek := sealed_dek v; kdf := kdf v; dek := dek v;
     body_nonce := body_nonce v; body_ciphertext := body_ciphertext v |}.

Lemma open_holds pass m text p : holds_vault pass m text →
  ∃ v, Vault.open p (Ok text) pass = Ok v ∧ Vault.path v = p ∧
    related pass {| handle := v; file := Some text |} {| live := m; saved := m |}.
Proof.
  intros (v & Hv & ->). exists (at_path p v). assert (serves pass (at_path p v) m) as Hp by exact Hv. split_and!; [|done|].
  - exact (open_written pass (at_path p v) m Hp).
  - split; [exact Hp|]. exists (body_nonce v), (body_ciphertext v). by destruct v.
Qed.

Lemma sealer_holds pass m text : holds_vault pass m text → sealer_of (Ok text) = Ok ("passphrase" : str).
Proof.
  intros (v & (_ & _ & _ & Hs & _) & ->). unfold sealer_of, read_header. cbn [map_err mbind result_bind].
  rewrite (proj2 (strip_prefix_Some _ _ _) eq_refl). cbn [ok_or mbind result_bind]. rewrite from_to_text. cbn. by rewrite Hs.
Qed.

(** One command meets a vault it can open: the store flag names a file that
    holds [m], and the passphrase it reads is the vault's. *)
Record meets (env : CliEnv) (f : Flags) (s : Shell) (store pass : str) (m : gmap str str) (s1 : Shell) : Prop := {
  m_store : values f !! ("store" : str) = Some store;
  m_text : ∃ text, files s !! store = Some text ∧ holds_vault pass m text;
  m_read : read_fault env store = None;
  m_pass : read_passphrase env f false s = (Done pass, [], s1);
  m_nonce : length (next_nonce env) = 12%nat;
}.

Lemma open_vault_meets env f s store pass m s1 : meets env f s store pass m s1 →
  ∃ st, open_vault env f s = (Done st, [], s1) ∧ Vault.path (handle st) = store ∧
    related pass st {| live := m; saved := m |} ∧ files s1 = files s ∧ file st = files s !! store.
Proof.
  intros [Hstore (text & Ht & Hh) Hr Hp _].
  destruct (read_passphrase_quiet env f false s) as (r & s' & Hq & Hf & _). rewrite Hp in Hq. injection Hq as <- <-.
  destruct (open_holds pass m text store Hh) as (v & Hv & Hpath & Hrel).
  exists {| handle := v; file := files s !! store |}. split_and!; try done; [|by rewrite Ht].
  unfold open_vault. rewrite bind_lift. unfold require. rewrite Hstore. cbn [ok_or]. autorewrite with cmd.
  unfold fs_read. rewrite Hr, Ht. cbn [ok_or]. rewrite (sealer_holds pass m) by done. rewrite bool_decide_false by done.
  cbn [andb]. rewrite bind_ret, (bind_quiet _ _ _ _ _ Hp). autorewrite with cmd. unfold fs_read. rewrite Hr, Hf, Ht. cbn [ok_or].
  rewrite Hv. cbn [map_err]. autorewrite with cmd. by rewrite Hf, Ht.
Qed.

Inductive vcmd : Type := VSet | VGet | VDel | VList | VCaInit | VCaExport.
Definition run_vcmd (c : vcmd) (env : CliEnv) (f : Flags) : Cmd unit :=
  match c with
  | VSet => cmd_vault_set env f
  | VGet => cmd_vault_get env f
  | VDel => cmd_vault_del env f
  | VList => cmd_vault_list env f
  | VCaInit => cmd_ca_init env f
  | VCaExport => cmd_ca_export env f
  end.

(** The map a command writes, if it writes; [rest] is what standard input
    still holds. *)
Definition vault_target (env : CliEnv) (f : Flags) (rest : str) (c : vcmd) (m : gmap str str) : gmap str str :=
  match c with
  | VSet => match require f "path" with Ok e => <[e := pop_newlines rest]> m | Err _ => m end
  | VDel => match require f "path" with Ok e => delete e m | Err _ => m end
  | VCaInit => match fresh_ca_text (new_seed env) with Some t => <[CA_ENTRY := t]> m | None => m end
  | _ => m
  end.

(** The command line's promise: each command on the map of secrets alone, with
    how it ends, what it prints and the new map. *)
Definition vault_spec (env : CliEnv) (f : Flags) (store rest : str) (c : vcmd) (m : gmap str str)
  : exit unit * list out * gmap str str :=
  let stay (r : exit unit) (ls : list str) := (r, (λ l, Out (l ++ newline)) <$> ls, m) in
  let entry (k : str → exit unit * list out * gmap str str) :=
    match require f "path" with
    | Err e => stay (Failed e) []
    | Ok e => match refuse_ca_namespace e with Err x => stay (Failed x) [] | Ok _ => k e end
    end in
  let write (ls : list str) :=
    match write_fault env store with
    | Some e => stay (Failed (vault_error_str (VIo e))) []
    | None => (Done tt, (λ l, Out (l ++ newline)) <$> ls, vault_target env f rest c m)
    end in
  match c with
  | VSet => entry (λ e,
      match stdin_fault env with
      | Some x => stay (Failed ("read secret from stdin: " ++ x)) []
      | None => if utf8_valid rest then write ["stored " ++ e]
                else stay (Failed ("read secret from stdin: " ++ NOT_UTF8)) []
      end)
  | VGet => entry (λ e,
      match m !! e with
      | Some v => stay (Done tt) [if has f "show" then v else "[redacted] " ++ show (zlen v) ++ " bytes present"]
      | None => stay (Failed (e ++ " does not exist")) []
      end)
  | VDel => entry (λ e,
      match m !! e with Some _ => write ["removed " ++ e] | None => stay (Done tt) [e ++ " was not present"] end)
  | VList => stay (Done tt) (sorted_keys m)
  | VCaInit =>
      match m !! CA_ENTRY with
      | Some _ => stay (Done tt) [CA_EXISTS]
      | None => match fresh_ca_text (new_seed env) with
                | Some _ => write CA_CREATED
                | None => stay (Failed (mint_detail BadCaKey)) []
                end
      end
  | VCaExport =>
      match m !! CA_ENTRY with
      | Some t => match ca_public_line t with
                  | Some line => stay (Done tt) [line]
                  | None => stay (Failed "the stored CA key is not a parseable SSH private key") []
                  end
      | None => stay (Failed "no SSH CA in this vault; run `chaperone ca-init` first") []
      end
  end.

(** The vault file holds [m], every other file is as it was. *)
Definition vault_kept (store pass : str) (fs fs' : gmap str str) (m : gmap str str) : Prop :=
  (∃ text, fs' !! store = Some text ∧ holds_vault pass m text) ∧ ∀ q, q ≠ store → fs' !! q = fs !! q.

Lemma related_file pass st sp : related pass st sp → ∃ text, file st = Some text ∧ holds_vault pass (saved sp) text.
Proof. intros [_ (n & ct & Hs & Hf)]. rewrite Hf. eexists. split; [done|]. by eexists. Qed.

Lemma set_entry_path st e v n io : Vault.path (handle (set_entry st e v n io).2) = Vault.path (handle st).
Proof. unfold set_entry, rewrite_body. repeat case_match; simplify_eq; done. Qed.

Lemma delete_entry_path st e n io : Vault.path (handle (delete_entry st e n io).2) = Vault.path (handle st).
Proof. unfold delete_entry, rewrite_body. repeat case_match; simplify_eq; done. Qed.

Lemma print_lines_run ls s : print_lines ls s = (Done tt, (λ l, Out (l ++ newline)) <$> ls, s).
Proof. induction ls as [|l ls IH]; [done|]. cbn [print_lines fmap list_fmap]. by rewrite bind_println, IH. Qed.

Lemma kept_same store pass m text fs : fs !! store = Some text → holds_vault pass m text → vault_kept store pass fs fs m.
Proof. intros ??. split; [by eexists|done]. Qed.

Lemma kept_saved store pass fs st sp : related pass st sp →
  vault_kept store pass fs (partial_alter (λ _, file st) store fs) (saved sp).
Proof.
  intros (text & Hf & Hh)%related_file. split; [exists text; by rewrite lookup_partial_alter_eq, Hf|].
  intros q Hq. by rewrite lookup_partial_alter_ne.
Qed.

(** The tail of a command that writes. *)
Lemma write_back {A} store pass m m' io st (r : result VaultError A) a o (k : A → Cmd unit) s1 :
  Vault.path (handle st) = store → related pass st (spec_write {| live := m; saved := m |} m' io RUnit).2 →
  r = match io with Some e => Err (VIo e) | None => Ok a end → (∀ s, k a s = (Done tt, o, s)) →
  ∃ s', (save_vault st ≫= λ _, lift (map_err vault_error_str r) ≫= k) s1 =
          match io with Some e => (Failed (vault_error_str (VIo e)), [], s') | None => (Done tt, o, s') end ∧
        vault_kept store pass (files s1) (files s') match io with Some _ => m | None => m' end.
Proof.
  intros Hp Hrel -> Hk. unfold save_vault. rewrite bind_put_content, bind_lift, Hp.
  exists {| files := partial_alter (λ _, file st) store (files s1); input := input s1 |}. cbn [files].
  pose proof (kept_saved store pass (files s1) st _ Hrel) as Hsaved. by destruct io; cbn [map_err]; [|rewrite Hk].
Qed.

Lemma entry_exact e : refuse_ca_namespace e = Ok tt → e ≠ CA_ENTRY.
Proof. by intros He ->. Qed.

(** Setting an entry, and then printing. *)
Lemma set_back store pass m e v env st o k s1 :
  Vault.path (handle st) = store → related pass st {| live := m; saved := m |} →
  length (next_nonce env) = 12%nat → fits (<[e := v]> m) = true → (∀ s, k tt s = (Done tt, o, s)) →
  let '(r, st') := set_entry st e v (next_nonce env) (write_fault env store) in
  ∃ s', (save_vault st' ≫= λ _, lift (map_err vault_error_str r) ≫= k) s1 =
          match write_fault env store with
          | Some x => (Failed (vault_error_str (VIo x)), [], s') | None => (Done tt, o, s') end ∧
        vault_kept store pass (files s1) (files s') match write_fault env store with Some _ => m | None => <[e := v]> m end.
Proof.
  intros Hp Hrel Hn Hfit Hk.
  pose proof (vault_step_spec pass st _ (OSet e v (next_nonce env) (write_fault env store)) Hrel) as Hstep.
  cbn [op_ok live] in Hstep. rewrite bool_decide_true, Hfit in Hstep by done. specialize (Hstep eq_refl). cbn [vault_step spec_step live] in Hstep.
  pose proof (set_entry_path st e v (next_nonce env) (write_fault env store)) as Hp'.
  destruct (set_entry st e v _ _) as [r st']. cbn [snd] in Hp'. destruct Hstep as [Hr Hrel'].
  eapply write_back; [congruence|done| |done]. by destruct (write_fault env store), r as [[]|]; cbn in Hr; simplify_eq.
Qed.

Lemma del_back store pass m e x env st o k s1 :
  Vault.path (handle st) = store → related pass st {| live := m; saved := m |} → m !! e = Some x →
  length (next_nonce env) = 12%nat → fits (delete e m) = true → (∀ s, k true s = (Done tt, o, s)) →
  let '(r, st') := delete_entry st e (next_nonce env) (write_fault env store) in
  ∃ s', (save_vault st' ≫= λ _, lift (map_err vault_error_str r) ≫= k) s1 =
          match write_fault env store with
          | Some x => (Failed (vault_error_str (VIo x)), [], s') | None => (Done tt, o, s') end ∧
        vault_kept store pass (files s1) (files s') match write_fault env store with Some _ => m | None => delete e m end.
Proof.
  intros Hp Hrel Hx Hn Hfit Hk.
  pose proof (vault_step_spec pass st _ (ODelete e (next_nonce env) (write_fault env store)) Hrel) as Hstep.
  cbn [op_ok live] in Hstep. rewrite bool_decide_true, Hfit in Hstep by done. specialize (Hstep eq_refl).
  cbn [vault_step spec_step live] in Hstep. rewrite Hx in Hstep.
  pose proof (delete_entry_path st e (next_nonce env) (write_fault env store)) as Hp'.
  destruct (delete_entry st e _ _) as [r st']. cbn [snd] in Hp'. destruct Hstep as [Hr Hrel'].
  eapply (write_back _ _ _ _ _ _ _ true); [congruence|by destruct (write_fault env store)| |done].
  by destruct (write_fault env store), r as [[]|]; cbn in Hr; simplify_eq.
Qed.

Lemma elem_of_sorted_keys (k : str) (m : gmap str str) :
  bool_decide (k ∈ sorted_keys m) = match m !! k with Some _ => true | None => false end.
Proof.
  unfold sorted_keys. destruct (m !! k) as [v|] eqn:Hk.
  - apply bool_decide_true. rewrite merge_sort_Permutation, list_elem_of_fmap. exists (k, v). by rewrite elem_of_map_to_list.
  - apply bool_decide_false. rewrite merge_sort_Permutation, list_elem_of_fmap. intros ([k' v] & -> & Hm%elem_of_map_to_list).
    cbn in Hk. congruence.
Qed.

Ltac vault_stays := eexists; split; [reflexivity|]; by eapply kept_same.

Lemma vault_commands_run env f s store pass m s1 c :
  meets env f s store pass m s1 → fits (vault_target env f (input s1) c m) = true →
  let '(r, o, m') := vault_spec env f store (input s1) c m in
  ∃ s', run_vcmd c env f s = (r, o, s') ∧ vault_kept store pass (files s) (files s') m'.
Proof.
  intros Hm Hfit. pose proof Hm as [Hstore (text & Ht & Hh) _ _ Hn].
  destruct (open_vault_meets _ _ _ _ _ _ _ Hm) as (st & Hopen & Hp & Hrel & Hfs & Hfile).
  pose proof Hrel as [(Hd & _) _]. cbn [live] in Hd. pose proof Ht as Ht1. rewrite <- Hfs in Ht1.
  destruct c; cbn [run_vcmd vault_spec vault_target] in *.
  - unfold cmd_vault_set. autorewrite with cmd. destruct (require f "path") as [e|]; [|vault_stays].
    autorewrite with cmd. destruct (refuse_ca_namespace e) as [[]|]; [|vault_stays].
    rewrite (bind_quiet _ _ _ _ _ Hopen), <- Hfs. autorewrite with cmd.
    destruct (stdin_fault env); [autorewrite with cmd; vault_stays|]. autorewrite with cmd.
    destruct (utf8_valid (input s1)); cbn [map_err]; [|vault_stays]. rewrite Hp.
    pose proof (set_back store pass m e (pop_newlines (input s1)) env st _ (λ _, println ("stored " ++ e))
                  {| files := files s1; input := [] |} Hp Hrel Hn Hfit (λ s, eq_refl)) as Hset.
    destruct (set_entry st e _ _ _) as [r st']. destruct (write_fault env store); exact Hset.
  - unfold cmd_vault_get. autorewrite with cmd. destruct (require f "path") as [e|]; [|vault_stays].
    autorewrite with cmd. destruct (refuse_ca_namespace e) as [[]|]; [|vault_stays].
    rewrite (bind_quiet _ _ _ _ _ Hopen), <- Hfs, bind_lift. unfold get_entry. rewrite Hd. cbn [mbind result_bind map_err entries].
    destruct (m !! e) as [v|]; [|vault_stays]. destruct (has f "show"); vault_stays.
  - unfold cmd_vault_del. autorewrite with cmd. destruct (require f "path") as [e|]; [|vault_stays].
    autorewrite with cmd. destruct (refuse_ca_namespace e) as [[]|]; [|vault_stays].
    rewrite (bind_quiet _ _ _ _ _ Hopen), <- Hfs, Hp. destruct (m !! e) as [x|] eqn:Hx.
    + pose proof (del_back store pass m e x env st _ (λ was : bool, if was then println ("removed " ++ e) else println (e ++ " was not present"))
                    s1 Hp Hrel Hx Hn Hfit (λ s, eq_refl)) as Hdel.
      destruct (delete_entry st e _ _) as [r st']. destruct (write_fault env store); exact Hdel.
    + unfold delete_entry. rewrite Hd. cbn [entries]. rewrite Hx. unfold save_vault. autorewrite with cmd. cbn [map_err].
      eexists. split; [reflexivity|]. rewrite Hp. by apply (kept_saved _ _ _ st _ Hrel).
  - unfold cmd_vault_list. rewrite (bind_quiet _ _ _ _ _ Hopen), bind_lift, <- Hfs. unfold list_entries. rewrite Hd.
    cbn [mbind result_bind map_err]. rewrite print_lines_run. vault_stays.
  - unfold cmd_ca_init. rewrite (bind_quiet _ _ _ _ _ Hopen), bind_lift, <- Hfs. unfold list_entries. rewrite Hd.
    cbn [mbind result_bind map_err entries]. rewrite elem_of_sorted_keys. destruct (m !! CA_ENTRY) as [k|] eqn:Hk.
    { vault_stays. }
    autorewrite with cmd. destruct (fresh_ca_text _) as [t|]; cbn [ok_or]; [|vault_stays].
    rewrite Hp. pose proof (set_back store pass m CA_ENTRY t env st _ (λ _, print_lines CA_CREATED) s1 Hp Hrel Hn Hfit
                  (λ s, print_lines_run CA_CREATED s)) as Hset.
    destruct (set_entry st CA_ENTRY _ _ _) as [r st']. destruct (write_fault env store); exact Hset.
  - unfold cmd_ca_export. rewrite (bind_quiet _ _ _ _ _ Hopen), bind_lift, <- Hfs. unfold get_entry. rewrite Hd.
    cbn [mbind result_bind map_err entries]. destruct (m !! CA_ENTRY) as [t|]; autorewrite with cmd; cbn [ok_or]; [|vault_stays].
    autorewrite with cmd. destruct (ca_public_line t); cbn [ok_or]; vault_stays.
Qed.

(** C29: The vault commands implement a map of secrets kept in one file.  Whatever
    the flags, the input and the faults, a command that can open the vault ends
    as the specification says, prints what it says, and leaves a file that
    holds the map it says under the same passphrase; no other file changes. *)
Theorem vault_commands_refine env f s store pass m s1 c :
  meets env f s store pass m s1 → fits (vault_target env f (input s1) c m) = true →
  let '(r, o, m') := vault_spec env f store (input s1) c m in
  ∃ s', run_vcmd c env f s = (r, o, s') ∧ vault_kept store pass (files s) (files s') m'.
Proof. apply vault_commands_run. Qed.

(** A file holds one map under a passphrase. *)
Lemma holds_unique pass m m' text : holds_vault pass m text → holds_vault pass m' text → m = m'.
Proof.
  intros (v & (Hd & _ & _ & _ & Hu) & ->) (v' & (Hd' & _ & _ & _ & Hu') & Heq%app_inv_head).
  assert (header_of v = header_of v') as Hh.
  { apply (f_equal (from_text (A := Header))) in Heq. rewrite !from_to_text in Heq. congruence. }
  unfold header_of in Hh. injection Hh as Hs Hk Hsd Hbn Hb.
  assert (∀ a b, b64url_encode a = b64url_encode b → a = b) as Hinj.
  { intros a b Hab%(f_equal b64url_decode). rewrite !b64url_decode_encode in Hab. by injection Hab. }
  apply Hinj in Hsd, Hbn, Hb. rewrite Hk, Hsd, Hu' in Hu. injection Hu as Hu.
  unfold decrypt_entries in Hd, Hd'. rewrite Hb, Hbn, <- Hu, Hd' in Hd. by injection Hd.
Qed.

Lemma spec_keeps_ca env f store rest c m k : m !! CA_ENTRY = Some k → (vault_spec env f store rest c m).2 !! CA_ENTRY = Some k.
Proof.
  intros Hk. destruct c; cbn [vault_spec vault_target]; rewrite ?Hk; try done; try (by repeat case_match).
  all: destruct (require f "path") as [e|]; [|done]; destruct (refuse_ca_namespace e) as [[]|] eqn:He; [|done];
    apply entry_exact in He; repeat case_match; try done; cbn [snd].
  - by rewrite lookup_insert_ne.
  - by rewrite lookup_delete_ne.
Qed.

(** One vault command on the files, from any environment, flags and input
    that open the vault. *)
Definition vault_cmd_step (store pass : str) (fs fs' : gmap str str) : Prop :=
  ∃ env f inp c m s1, meets env f {| files := fs; input := inp |} store pass m s1 ∧
    fits (vault_target env f (input s1) c m) = true ∧ fs' = files (run_vcmd c env f {| files := fs; input := inp |}).2.

(** The certificate authority's key outlives every sequence of vault commands:
    whatever is set, deleted, listed, read or initialised again, the file goes
    on holding the same key. *)
Theorem ca_key_stays store pass k fs fs' m text :
  fs !! store = Some text → holds_vault pass m text → m !! CA_ENTRY = Some k → rtc (vault_cmd_step store pass) fs fs' →
  ∃ m' text', fs' !! store = Some text' ∧ holds_vault pass m' text' ∧ m' !! CA_ENTRY = Some k.
Proof.
  intros Ht Hh Hk Hsteps. revert m text Ht Hh Hk. induction Hsteps as [fs|fs fs1 fs' Hstep _ IH]; intros m text Ht Hh Hk; [by exists m, text|].
  destruct Hstep as (env & f & inp & c & m0 & s1 & Hm & Hfit & ->).
  pose proof Hm as [_ (text0 & Ht0 & Hh0) _ _ _]. cbn [files] in Ht0. rewrite Ht in Ht0. injection Ht0 as <-.
  pose proof (holds_unique _ _ _ _ Hh Hh0) as <-.
  pose proof (vault_commands_run _ _ _ _ _ _ _ _ Hm Hfit) as Href. pose proof (spec_keeps_ca env f store (input s1) c m k Hk) as Hk'.
  destruct (vault_spec env f store (input s1) c m) as [[r o] m']. destruct Href as (s' & Hrun & [(text' & Ht' & Hh') _]).
  rewrite Hrun in IH. by eapply IH.
Qed.
End VaultProps.

Section EnrolProps.
Context `{Base64, Ed25519, SerdeText StoreFile}.

(** ** A running daemon and the commands beside it *)

(** C32: The command that revokes an agent says that it is effective immediately,
    and the file says so; but a daemon that runs on the store it loaded before
    goes on accepting the key, and the next enrolment made through it writes
    the revoked agent back as live. *)
Theorem revocation_undone_by_daemon env f s p id k st other pk sponsor name now st2 :
  good st → files s !! p = Enrollment.disk st → lookup_key st id = Some k → other ≠ id →
  values f !! ("store" : str) = Some p → values f !! ("agent-id" : str) = Some id →
  read_fault env p = None → write_fault env p = None →
  enroll st other pk sponsor name now false None = (Ok tt, st2) →
  ∃ s' gone back,
    cmd_revoke env f s = (Done tt, [Out (("revoked " ++ id ++ "; effective immediately") ++ newline)], s') ∧
    Enrollment.load (seen env (files s') p) = Ok gone ∧ lookup_key gone id = None ∧
    Enrollment.load (file_of st2) = Ok back ∧ lookup_key back id = Some k.
Proof.
  intros Hg Hfile Hk Hne Hp Hid Hr Hw Hen. pose proof Hg as (_ & Hpath & Hsync). destruct (Hsync Hpath) as (fr & Hload & ->).
  pose proof (revoke_good st id (now_rfc3339 env) Hg) as Hg'. pose proof (abs_revoke st id (now_rfc3339 env) None) as Habs.
  assert (is_Some (agents st !! id)) as [a Ha].
  { unfold lookup_key in Hk. destruct (agents st !! id); [by eexists|done]. }
  assert ((revoke st id (now_rfc3339 env) None).1 = Ok true) as Hok.
  { unfold revoke. rewrite Ha. unfold Enrollment.persist. cbn. by rewrite Hpath. }
  destruct (revoke st id (now_rfc3339 env) None) as [r st'] eqn:Hrev. cbn in Hok, Hg', Habs. subst r.
  destruct Hg' as (_ & Hpath' & Hsync'). destruct (Hsync' Hpath') as (fr' & Hload' & ->).
  pose proof (enroll_good st other pk sponsor name now false Hg) as (_ & Hpath2 & Hsync2). rewrite Hen in Hpath2, Hsync2. cbn in Hpath2, Hsync2.
  destruct (Hsync2 Hpath2) as (fr2 & Hload2 & ->).
  eexists _, st', st2. split_and!.
  - unfold cmd_revoke, require. rewrite Hp, Hid. cbn [ok_or]. autorewrite with cmd. unfold open_store.
    assert (seen env (files s) p = match Enrollment.disk st with Some b => FileBytes b | None => FileMissing end) as Hseen
      by (unfold seen; by rewrite Hr, Hfile).
    erewrite bind_quiet by (rewrite bind_get_files, Hseen, Hload; reflexivity). rewrite Hw, Hrev. autorewrite with cmd. reflexivity.
  - cbn [files]. unfold seen. rewrite Hr, lookup_partial_alter_eq. exact Hload'.
  - assert (abs st' !! id = Some (key a, false)) as Hd.
    { rewrite Habs. cbn. rewrite lookup_alter_eq. unfold abs. by rewrite lookup_fmap, Ha. }
    unfold abs in Hd. rewrite lookup_fmap in Hd. unfold lookup_key. destruct (agents st' !! id) as [a'|]; [|done].
    cbn in *. injection Hd as _ ->. done.
  - exact Hload2.
  - pose proof (abs_enroll st other pk sponsor name now false None) as He. rewrite Hen in He. cbn [snd] in He.
    assert (abs st2 !! id = abs st !! id) as Hsame.
    { rewrite He. cbn [spec_op]. repeat case_match; try done; by rewrite lookup_insert_ne. }
    unfold abs in Hsame. rewrite !lookup_fmap in Hsame. unfold lookup_key in *. destruct (agents st2 !! id), (agents st !! id); try done.
    cbn in *. by injection Hsame as -> ->.
Qed.
End EnrolProps.

(** ** Where the commands differ from what they say *)

Section AuditProps.
Context `{Base64, Ed25519, JsonText, Sha256, DebugFmt}.

(** [audit-verify] reports a broken chain on standard output and succeeds:
    its exit code does not tell a tampered journal from an intact one. *)
Theorem tampered_journal_exits_zero env f s journal pk vk text brk :
  values f !! ("journal" : str) = Some journal → values f !! ("public-key" : str) = Some pk →
  verifying_key_from_b64url pk = Ok vk → fs_read_to_string env (files s) journal = Ok text →
  error (walk_lines text vk) = Some brk →
  ∃ report, cmd_audit_verify env f s = (Done tt, [Out (("TAMPERED: " ++ report) ++ newline)], s).
Proof.
  intros Hj Hp Hvk Ht Hb. unfold cmd_audit_verify, require. rewrite Hj, Hp. cbn [ok_or]. autorewrite with cmd.
  rewrite Hvk. autorewrite with cmd. unfold verify_file. rewrite Ht. cbn [mbind result_bind]. rewrite Hb.
  eexists. reflexivity.
Qed.
End AuditProps.

Section Witnesses.
#[local] Existing Instances toy_base64 toy_aead toy_argon2 toy_serde toy_debug toy_sha256 toy_ed25519 toy_ssh toy_json.

Definition a_shell_env : CliEnv :=
  {| now_rfc3339 := "2026-01-01T00:00:00Z"; read_fault _ := None; write_fault _ := None; rename_fault := None;
     remove_fault := None; stdin_fault := None; prompt_first := Ok "pw"; prompt_second := Ok "pw";
     new_seed := replicate 32 Byte.x41; new_salt := replicate 16 Byte.x42; new_dek := a_dek;
     wrap_nonce := a_nonce Byte.x07; nonces := [a_nonce Byte.x08]; set_faults := []; socket_at _ := None |}.

Definition entries1 : gmap str str :=
  <[("todo" : str) := PLACEHOLDER_ENTRY_VALUE]> (<[CA_ENTRY := ("key" : str)]> {[ ("db" : str) := ("s1" : str) ]}).

Lemma set_related pass st m e v n : related pass st {| live := m; saved := m |} → length n = 12%nat → fits (<[e := v]> m) = true →
  related pass (set_entry st e v n None).2 {| live := <[e := v]> m; saved := <[e := v]> m |}.
Proof.
  intros Hr Hn Hf. pose proof (vault_step_spec pass st _ (OSet e v n None) Hr) as Hs. cbn [op_ok live] in Hs.
  rewrite bool_decide_true, Hf in Hs by done. specialize (Hs eq_refl). cbn [vault_step] in Hs.
  destruct (set_entry st e v n None) as [r st']. apply Hs.
Qed.

Lemma text1_holds : ∃ text, file store1 = Some text ∧ holds_vault "pw" entries1 text.
Proof.
  apply (related_file "pw" store1 {| live := entries1; saved := entries1 |}).
  assert (related "pw" store0 {| live := ∅; saved := ∅ |}) as H0.
  { by apply (create_related "/v" "pw" "saltsaltsaltsalt" a_dek (a_nonce Byte.x01) (a_nonce Byte.x02) None _ eq_refl eq_refl eq_refl fresh_ok). }
  pose proof (set_related "pw" store0 ∅ "db" "s1" (a_nonce Byte.x06) H0 eq_refl ltac:(vm_compute; reflexivity)) as H1.
  pose proof (set_related "pw" _ _ CA_ENTRY "key" (a_nonce Byte.x06) H1 eq_refl ltac:(vm_compute; reflexivity)) as H2.
  exact (set_related "pw" _ _ "todo" PLACEHOLDER_ENTRY_VALUE (a_nonce Byte.x06) H2 eq_refl ltac:(vm_compute; reflexivity)).
Qed.

Definition a_shell : Shell := {| files := partial_alter (λ _, file store1) ("/v" : str) ∅; input := "top" ++ newline |}.
Definition set_flags : Flags := {| values := <[("path" : str) := ("db" : str)]> {[ ("store" : str) := ("/v" : str) ]}; switches := [] |}.

Lemma a_shell_meets : meets a_shell_env set_flags a_shell "/v" "pw" entries1 a_shell.
Proof.
  split; [reflexivity| |reflexivity|reflexivity|reflexivity]. destruct text1_holds as (text & Ht & Hh).
  exists text. split; [|done]. unfold a_shell. cbn [files]. by rewrite lookup_partial_alter_eq.
Qed.

Lemma vault_commands_refine_witness :
  ∃ s', run_vcmd VSet a_shell_env set_flags a_shell = (Done tt, [Out ("stored db" ++ newline)], s') ∧
    vault_kept "/v" "pw" (files a_shell) (files s') (<[("db" : str) := ("top" : str)]> entries1).
Proof.
  apply (vault_commands_refine a_shell_env set_flags a_shell "/v" "pw" entries1 a_shell VSet); [apply a_shell_meets|].
  vm_compute. reflexivity.
Defined.

Lemma ca_key_stays_witness :
  ∃ m' text', files (run_vcmd VSet a_shell_env set_flags a_shell).2 !! ("/v" : str) = Some text' ∧
    holds_vault "pw" m' text' ∧ m' !! CA_ENTRY = Some ("key" : str).
Proof.
  destruct (m_text _ _ _ _ _ _ _ a_shell_meets) as (text & Ht & Hh).
  apply (ca_key_stays "/v" "pw" "key" (files a_shell) _ entries1 text); [exact Ht|exact Hh|reflexivity|].
  apply rtc_once. exists a_shell_env, set_flags, ("top" ++ newline), VSet, entries1, a_shell.
  split; [apply a_shell_meets|]. split; [vm_compute; reflexivity|reflexivity].
Defined.

(** A file that is no journal. *)
Definition verify_flags : Flags :=
  {| values := <[("public-key" : str) := toy_pk Byte.x41]> {[ ("journal" : str) := ("/j" : str) ]}; switches := [] |}.
Definition garbage_shell : Shell := {| files := {[ ("/j" : str) := ("garbage" : str) ]}; input := [] |}.

Lemma tampered_journal_exits_zero_witness :
  ∃ report, cmd_audit_verify a_shell_env verify_flags garbage_shell = (Done tt, [Out (("TAMPERED: " ++ report) ++ newline)], garbage_shell).
Proof.
  assert (∃ brk, error (walk_lines "garbage" (Byte.x41 : VerifyingKey)) = Some brk) as [brk Hb] by (vm_compute; by eexists).
  apply (tampered_journal_exits_zero a_shell_env verify_flags garbage_shell "/j" (toy_pk Byte.x41) (Byte.x41 : @VerifyingKey toy_ed25519) "garbage" brk);
    [reflexivity..|exact Hb].
Defined.

Definition one_agent : EnrollmentStore :=
  (enroll fresh_store "agent:a" (toy_pk Byte.x41) "human:x" "X" "2026-01-01T00:00:00Z" false None).2.
Definition two_agents : EnrollmentStore :=
  (enroll one_agent "agent:b" (toy_pk Byte.x42) "human:x" "X" "2026-01-02T00:00:00Z" false None).2.
Definition revoke_flags : Flags :=
  {| values := <[("store" : str) := ("/e" : str)]> {[ ("agent-id" : str) := ("agent:a" : str) ]}; switches := [] |}.
Definition revoke_shell : Shell := {| files := partial_alter (λ _, Enrollment.disk one_agent) ("/e" : str) ∅; input := [] |}.

Lemma revocation_undone_by_daemon_witness :
  ∃ s' gone back,
    cmd_revoke a_shell_env revoke_flags revoke_shell =
      (Done tt, [Out (("revoked " ++ "agent:a" ++ "; effective immediately") ++ newline)], s') ∧
    Enrollment.load (seen a_shell_env (files s') "/e") = Ok gone ∧ lookup_key gone "agent:a" = None ∧
    Enrollment.load (file_of two_agents) = Ok back ∧ lookup_key back "agent:a" = Some (Byte.x41 : VerifyingKey).
Proof.
  apply (revocation_undone_by_daemon a_shell_env revoke_flags revoke_shell "/e" "agent:a" (Byte.x41 : @VerifyingKey toy_ed25519) one_agent
           "agent:b" (toy_pk Byte.x42) "human:x" "X" "2026-01-02T00:00:00Z"); try reflexivity; [|done].
  apply enroll_good, fresh_good.
Defined.
End Witnesses.
