(* ===== verification/Serve.v ===== *)
(** Starting the daemon, and the dispatch of the command line:
    [cmd_serve], [cmd_serve_setup] and [run] of [crates/cli/src/main.rs], with
    the default endpoint of [crates/transport/src/server.rs].

    [start_serve] is [serve] up to the point where it accepts connections: it
    reads the files, opens the stores and wires the gateway that [Gateway]
    models, or goes to the setup wizard.  [after_serve] is what is done when
    the server stops.  The theorems say what has been checked when a daemon
    runs, and what a running daemon does not see. *)

From S2P Require Import Prelude Strs Json Extern Toy Protocol Matcher Policy Enrollment Replay Identity AuditChain Transcript.
From S2P Require Import Session SshCa Gateway Guard KnownHosts Vault Import UiWeb Cli Endpoint.
#[local] Open Scope Z_scope.

(** Which confirmation gate the flags choose. *)
Inductive GateKind : Type :=
| AlwaysTimeoutGate
| StdioGate (timeout_secs : Z)
| SocketGate (p : str) (timeout_secs : Z).

(** What the operating system decides while the daemon starts. *)
Record ServeEnv : Type := {
  shell_env : CliEnv;
  policy_stat : result str (Z * Z);
  euid : Z;
  now_unix : Z;
  replay_io : Io;
  clock : result str str;
  genesis_short : option nat;
  load_short : option nat;
  transcript_short : option nat;
  http_client : result str unit;
  console_bind : str → result str unit;
  events_bind : str → result str unit;
  runtime_dir : option str;
  user_name : option str;
  temp_dir : str;
}.

(** [default_socket_path], [default_listen_spec] on unix. *)
Definition default_socket_path (env : ServeEnv) : str :=
  match runtime_dir env with
  | Some d => if is_empty d then temp_dir env ++ "/chaperone-" ++ default "default" (user_name env) ++ "/gw.sock"
              else d ++ "/chaperone/gw.sock"
  | None => temp_dir env ++ "/chaperone-" ++ default "default" (user_name env) ++ "/gw.sock"
  end.
Definition default_listen_spec (env : ServeEnv) : ListenSpec := UnixSocket (default_socket_path env).

(** [Display] of the errors that stop the start. *)
Definition replay_error_str (e : ReplayCacheError) : str :=
  match e with RIo e => "replay journal i/o: " ++ e | RCorrupt e => "replay journal corrupt: " ++ e end.
Definition break_str (b : Break) : str := "line " ++ show (Z.of_nat (S (brk_line b))) ++ ": " ++ brk_reason b.
Definition audit_error_str (e : AuditError) : str :=
  match e with
  | AIo e => "audit journal i/o: " ++ e
  | BrokenChain b => "audit journal failed verification; not extending: " ++ break_str b
  | ASerialize e => "audit record serialization: " ++ e
  end.
Definition ca_error_str (e : CaError) : str :=
  match e with
  | NotInitialized => "the SSH CA has not been initialized; run chaperone ca-init first"
  | CaUnreadable => "the CA key could not be read from the vault"
  | CaKeyInvalid => "the stored CA key is not a parseable SSH private key"
  | BadCredRef => "ca:// references take exactly one host"
  | AgentNotEnrolled => "the agent is not enrolled; no key to certify"
  | Mint m => mint_detail m
  end.

(** The numeric settings: what is no number falls back to the default. *)
Definition gateway_config (f : Flags) : GatewayConfig :=
  {| default_max_response_bytes := number_or u64_max 1048576 f "max-response-bytes";
     default_session_ttl_secs := number_or u64_max 300 f "session-ttl-secs";
     default_timeout_secs := number_or u64_max 30 f "timeout-secs";
     session_heartbeat_secs := number_or u64_max 300 f "session-heartbeat-secs" |}.

Definition choose_gate (env : ServeEnv) (f : Flags) : Cmd GateKind :=
  let timeout := number_or u64_max 120 f "confirm-timeout-secs" in
  if decide (values f !! ("confirm-timeout-secs" : str) = Some ("never-approve" : str)) then mret AlwaysTimeoutGate
  else match values f !! ("console-socket" : str) with
       | Some p =>
           _ ← lift (console_bind env p);
           _ ← println ("operator console listening on " ++ p ++ " (attach with: chaperone console --socket " ++ p ++ ")");
           mret (SocketGate p timeout)
       | None => mret (StdioGate timeout)
       end.

Definition listen_spec (env : ServeEnv) (f : Flags) : result str ListenSpec :=
  match values f !! ("socket" : str) with
  | Some p => Ok (UnixSocket p)
  | None => match values f !! ("tcp-port" : str) with
            | Some port => n ← ok_or (parse_uint u16_max port) "--tcp-port must be a number"; Ok (TcpV4 n)
            | None => Ok (default_listen_spec env)
            end
  end.

Definition endpoint_desc (l : ListenSpec) : str :=
  match l with
  | UnixSocket p => p
  | NamedPipe n => n
  | TcpV4 port => "127.0.0.1:" ++ show port
  | TcpV6 port => "[::1]:" ++ show port
  end.

(** How often the session scan runs, in seconds. *)
Definition scan_period (heartbeat_secs : Z) : Z := Z.max 15 (Z.min 3600 (heartbeat_secs / 2)).

Definition token_hint (why path : str) : str :=
  newline ++ newline ++ why ++ newline ++ "  chaperone ui-token rotate --token " ++ path ++ newline ++
  "Then restart `chaperone serve`.".

Section Serve.
Context `{Base64, Ed25519, SerdeText StoreFile, SerdeLine JournalLine, JsonText, Sha256, TimeApi, DebugFmt, SshKeys,
          Aead, Argon2, SerdeText Header, SerdeText Body, Toml, SerdeText PinFile}.

Record Daemon : Type := {
  d_gateway : Gateway;
  d_gate : GateKind;
  d_vault : Store;
  d_host_keys : HostKeyPolicy * PinStore;
  d_events : option str;
  d_watch_baseline : str;
  d_ui : option UiToken;
  d_ui_port : Z;
  d_listen : ListenSpec;
  d_transcript : option AuditWriter;
  d_scan_period : Z;
}.

(** What [serve] turns into: the setup wizard, or the broker. *)
Inductive Startup : Type :=
| SetupWizard (token : UiToken) (port : Z) (enrolled : EnrollmentStore)
| Broker (d : Daemon).

(** [ReplayCache::open] on a file; the cache keeps the file's content. *)
Definition open_replay (env : ServeEnv) (p : str) : Cmd ReplayCache :=
  m ← get_files;
  match read_fault (shell_env env) p with
  | Some e => fail (replay_error_str (RIo e))
  | None =>
      c ← lift (map_err replay_error_str (Replay.open (m !! p) (now_unix env) (replay_io env)));
      _ ← put_content p (Replay.disk c);
      mret c
  end.

(** [AuditWriter::open] on a file: a genesis record that was cut short stays
    in it. *)
Definition starts_fresh (existing : option str) : bool :=
  match existing with None => true | Some t => utf8_valid t && is_empty (trim t) end.
Definition open_journal (env : ServeEnv) (p : str) (key : SigningKey) : Cmd AuditWriter :=
  m ← get_files;
  let existing := m !! p in
  match read_fault (shell_env env) p, existing with
  | Some e, Some _ => fail (audit_error_str (AIo e))
  | _, _ =>
      match AuditChain.open existing key (clock env) (genesis_short env), write_fault (shell_env env) p with
      | Ok w, None => _ ← put_content p (Some (journal w)); mret w
      | Ok _, Some e => fail (audit_error_str (AIo e))
      | Err e, None =>
          let fresh := {| w_seq := 0; w_prev_hash := zeros; w_key := key; journal := default [] existing |} in
          _ ← (if starts_fresh existing
               then put_content p (Some (journal (append_genesis fresh (clock env) (genesis_short env)).2)) else mret tt);
          fail (audit_error_str e)
      | Err e, Some we => fail (audit_error_str (if starts_fresh existing then AIo we else e))
      end
  end.

(** The authority over the open vault and the enrolled agents. *)
Definition ca_context (env : ServeEnv) (v : Store) (enrolled : EnrollmentStore) : CaContext :=
  {| read_ca_entry := read_ca_text (Some (map_err vault_error_str (list_entries (handle v)),
                                          λ e, map_err vault_error_str (get_entry (handle v) e)));
     ctx_agent_identity := gateway_agent_identity enrolled;
     write_ca_entry := λ text,
       map_err (λ _, CaUnreadable) (set_entry v CA_ENTRY text (next_nonce (shell_env env)) (write_fault (shell_env env) (Vault.path (handle v)))).1 |}.

(** The host-key policy of the SSH backend. *)
Definition host_key_policy (env : ServeEnv) (f : Flags) : Cmd (HostKeyPolicy * PinStore) :=
  let none := {| KnownHosts.inner := ∅; KnownHosts.disk := None |} in
  match values f !! ("ssh-known-hosts" : str) with
  | Some p =>
      m ← get_files;
      store ← lift (map_err pin_error_str (KnownHosts.load
                (match read_fault (shell_env env) p, m !! p with
                 | Some e, _ => KnownHosts.FileError e
                 | None, None => KnownHosts.FileMissing
                 | None, Some t => if utf8_valid t then FileText t else KnownHosts.FileError NOT_UTF8
                 end)));
      mret (UsePinStore (has f "ssh-tofu"), store)
  | None => mret (if has f "trust-host-keys" then TrustOnFirstUseAll else RefuseUnknown, none)
  end.

Definition bind_events (env : ServeEnv) (f : Flags) : Cmd (option str) :=
  match values f !! ("events-socket" : str) with
  | Some p =>
      _ ← lift (events_bind env p);
      _ ← println ("event feed listening on " ++ p ++ " (watch with: chaperone tail --events-socket " ++ p ++ ")");
      mret (Some p)
  | None => mret None
  end.

(** The token of the UI, without which it does not serve. *)
Definition ui_gate (env : ServeEnv) (why p : str) : Cmd UiToken :=
  text ← read_to_string (shell_env env) p;
  lift (map_err (λ e, e ++ token_hint why p) (load_token p text)).

(** [--transcript]: [TranscriptWriter::create] at its path. *)
Definition open_transcript (env : ServeEnv) (f : Flags) (key : SigningKey) (w : AuditWriter) : Cmd (option AuditWriter) :=
  match values f !! ("transcript" : str) with
  | None => mret None
  | Some p =>
      let refuse e := fail ("cannot open transcript at " ++ p ++ ": " ++ audit_error_str e ++
                            " (the artifact is per-run; move the old file first)") in
      let head := head_hash_hex (AuditChain.head w) in
      let pubkey := AuditChain.public_key_b64url key in
      m ← get_files;
      match Transcript.create (fs_exists m p) key head pubkey PROTOCOL_VERSION (clock env) (transcript_short env),
            fs_exists m p, write_fault (shell_env env) p with
      | Err e, true, _ => refuse e
      | _, _, Some we => refuse (AIo we)
      | Ok t, _, None => _ ← put_content p (Some (journal t)); mret (Some t)
      | Err e, false, None =>
          let fresh := {| w_seq := 0; w_prev_hash := zeros; w_key := key; journal := [] |} in
          _ ← put_content p (Some (match clock env with
                                   | Ok now => journal (seal_and_write fresh (transcript_genesis now head pubkey PROTOCOL_VERSION)
                                                          (transcript_short env)).2
                                   | Err _ => []
                                   end));
          refuse e
      end
  end.

(** [cmd_serve_setup]. *)
Definition serve_setup (env : ServeEnv) (f : Flags) (port : Z) (token_path : str) : Cmd Startup :=
  if has f "no-ui" then
    fail ("required artifacts are missing and --no-ui was given; cannot start. " ++
          "Create policy.toml, the vault store, and an audit key first.")
  else
    enrollment_path ← lift (require f "enrollment");
    _ ← lift (require f "policy");
    _ ← lift (require f "store");
    _ ← lift (require f "audit-journal");
    _ ← lift (require f "audit-key");
    token ← ui_gate env "The setup wizard is also token-gated (D41). Create one with:" token_path;
    enrolled ← open_store (shell_env env) enrollment_path;
    _ ← print_lines ["CHAPERONE SETUP";
                     "  required artifacts are missing; starting the setup wizard only.";
                     "  open: http://127.0.0.1:" ++ show port ++ "/?token=<TOKEN>";
                     "  token: chaperone ui-token show --token " ++ token_path;
                     "  after setup, restart this command to broker intents."];
    mret (SetupWizard token port enrolled).

(** The stores and the keys: everything the gateway is made of. *)
Record Parts : Type := {
  p_attestor : Attestor;
  p_policy : Policy;
  p_vault : Store;
  p_key : SigningKey;
  p_writer : AuditWriter;
}.

Definition open_parts (env : ServeEnv) (f : Flags) (enrollment_path policy_path store_path journal_path key_path : str) : Cmd Parts :=
  let senv := shell_env env in
  _ ← lift (verify_permissions policy_path (policy_stat env) (euid env));
  enrolled ← open_store senv enrollment_path;
  cache ← open_replay env (with_file_name "replay.jsonl" journal_path);
  doc ← read_to_string senv policy_path;
  doc ← lift (map_err (λ e, "cannot read " ++ policy_path ++ ": " ++ e) doc);
  policy ← lift (map_err policy_error_str (from_toml doc));
  pass ← read_passphrase senv f false;
  raw ← read senv store_path;
  v ← lift (map_err vault_error_str (Vault.open store_path raw pass));
  m ← get_files;
  seed ← read_to_string senv key_path;
  seed ← lift (map_err (λ e, "cannot read " ++ key_path ++ ": " ++ e) seed);
  key ← lift (load_audit_seed_text seed);
  w ← open_journal env journal_path key;
  mret {| p_attestor := {| enrollment := enrolled; replay := cache; Identity.config := {| max_skew_secs := 30 |} |};
          p_policy := policy; p_vault := {| handle := v; file := m !! store_path |}; p_key := key; p_writer := w |}.

(** [Gateway::new] and the wiring, with the journal the load record went to. *)
Definition wire_gateway (env : ServeEnv) (f : Flags) (journal_path : str) (p : Parts) : Cmd Gateway :=
  let '(r, w) := gateway_new (p_attestor p) (p_policy p) (p_writer p) (gateway_config f) (is_ok (http_client env))
                   (clock env) (load_short env) in
  _ ← put_content journal_path (Some (journal w));
  gw ← lift (map_err (λ e, match e, http_client env with
                           | HttpClientFailed, Err why => "outbound call failed: " ++ why
                           | _, _ => "outbound call failed: audit record could not be appended"
                           end) r);
  let ca := ca_context env (p_vault p) (enrollment (p_attestor p)) in
  has_ca ← lift (map_err ca_error_str (initialized ca));
  mret (if (has_ca : bool) then with_ssh_ca gw ca else gw).

(** The broker: [cmd_serve] once its artifacts are there. *)
Definition start_broker (env : ServeEnv) (f : Flags) (enrollment_path policy_path store_path journal_path key_path token_path : str)
    (port : Z) : Cmd Daemon :=
  p ← open_parts env f enrollment_path policy_path store_path journal_path key_path;
  gate ← choose_gate env f;
  gw ← wire_gateway env f journal_path p;
  host_keys ← host_key_policy env f;
  let gw := with_session_backend (with_session_backend gw "ssh") "db-scram" in
  events ← bind_events env f;
  let gw := with_event_hub gw in
  ui ← (if has f "no-ui" then mret None
        else t ← ui_gate env "The config UI requires an access token (D41). Create one with:" token_path; mret (Some t));
  spec ← lift (listen_spec env f);
  transcript ← open_transcript env f (p_key p) (audit gw);
  _ ← println ("chaperone gateway listening on " ++ endpoint_desc spec ++ " (protocol " ++ PROTOCOL_VERSION ++ ")");
  mret {| d_gateway := gw; d_gate := gate; d_vault := p_vault p; d_host_keys := host_keys; d_events := events;
          d_watch_baseline := ruleset_hash gw; d_ui := ui; d_ui_port := port; d_listen := spec; d_transcript := transcript;
          d_scan_period := scan_period (session_heartbeat_secs (gateway_config f)) |}.

(** [cmd_serve], until connections are accepted. *)
Definition start_serve (env : ServeEnv) (f : Flags) : Cmd Startup :=
  enrollment_path ← lift (require f "enrollment");
  policy_path ← lift (require f "policy");
  store_path ← lift (require f "store");
  journal_path ← lift (require f "audit-journal");
  key_path ← lift (require f "audit-key");
  let port := number_or u16_max 8720 f "ui-port" in
  let token_path := default (with_file_name "ui.token" key_path) (values f !! ("ui-token" : str)) in
  m ← get_files;
  if fs_exists m policy_path && fs_exists m store_path && fs_exists m key_path then
    d ← start_broker env f enrollment_path policy_path store_path journal_path key_path token_path port;
    mret (Broker d)
  else serve_setup env f port token_path.

(** [gateway_core.emit_session_heartbeats] and the policy watch run beside the
    server; when it stops, the transcript is finished with the number of frames
    it saw. *)
Definition after_serve (env : ServeEnv) (p : str) (t : option AuditWriter) (frames : Z) : Cmd unit :=
  match t with
  | Some w => put_content p (Some (journal (end_transcript w frames (clock env) (transcript_short env)).2))
  | None => mret tt
  end.

(** The frame observer: the transcript and the number of frames seen, which
    counts a frame whose record could not be written too. *)
Definition observe_frame (st : AuditWriter * Z) (direction frame : str) (ts : result str str) (short : option nat) : AuditWriter * Z :=
  ((append_frame st.1 direction (b64std_encode frame) (zlen frame) ts short).2, u64_wrapping_add st.2 1).

(** ** Dispatch *)

(** The usage text. *)
Definition USAGE : str :=
  mjoin ((λ l : str, l ++ newline) <$>
  ["chaperone - Chaperone operator CLI";
   [];
   "USAGE:";
   "    chaperone enroll --store <PATH> --agent-id <ID> --public-key <B64URL> --sponsor-id <HUMAN-ID> --sponsor-name <NAME> [--force]";
   "    chaperone revoke --store <PATH> --agent-id <ID>";
   "    chaperone list-agents --store <PATH>";
   [];
   "GATEWAY DAEMON:";
   "    chaperone serve --socket <PATH> --enrollment <FILE> --policy <TOML>";
   "                    --store <VAULT> --audit-journal <FILE> --audit-key <SEED>";
   "                    [--tcp-port N] [--max-response-bytes N] [--timeout-secs N]";
   "                    [--passphrase-file PATH]";
   "                    [--confirm-timeout-secs N|--confirm never-approve]";
   "                    [--console-socket PATH] [--events-socket PATH] [--trust-host-keys]";
   "                    [--ssh-known-hosts PATH] [--ssh-tofu]";
   "                    [--ui-port N] [--no-ui] [--ui-token PATH]";
   [];
   "LOCAL VAULT (operator CRUD):";
   "    chaperone vault-init  --store <FILE> [--sealer passphrase|keyring] [--passphrase-stdin]";
   "    chaperone vault-set   --store <FILE> --path <P> [--passphrase-stdin]   (secret on stdin)";
   "    chaperone vault-import --store <FILE> --policy <TOML> --rule-name <NAME>";
   "                           --source csv|ssh-config <FILE> [--cred-scheme <SCHEME>]";
   "                           [--dry-run] [--shred-source]";
   "    chaperone vault-get   --store <FILE> --path <P> [--passphrase-stdin] [--show]";
   "    chaperone vault-list  --store <FILE> [--passphrase-stdin]";
   "    chaperone vault-del   --store <FILE> --path <P> [--passphrase-stdin]";
   [];
   "SSH CERTIFICATE AUTHORITY (B-1; certs for ca:// cred_refs):";
   "    chaperone ca-init      --store <FILE> [--passphrase-stdin]";
   "    chaperone ca-export    --store <FILE> [--passphrase-stdin]";
   "                           (prints the CA PUBLIC key for sshd TrustedUserCAKeys)";
   [];
   "UI ACCESS TOKEN (required before the config UI serves; D41):";
   "    chaperone ui-token show   --token <PATH>";
   "    chaperone ui-token rotate --token <PATH>";
   [];
   "AUDIT CHAIN:";
   "    chaperone audit-keygen --out <SEEDFILE>";
   "    chaperone audit-verify --journal <FILE> --public-key <B64URL>";
   "                           [--companion-audit <AUDIT-JOURNAL>]  (transcript mode: cross-checks the genesis binding)";
   "    chaperone audit-export --journal <FILE>";
   "    chaperone policy-check --policy <TOML> --agent-id <ID> --cred-ref <REF>";
   "                           --target-uri <URI> --mechanism <M>";
   "                           [--max-response-bytes N] [--session-ttl-s S]";
   [];
   "LIVE OBSERVABILITY (unix + Windows; D35/D44/P1-1):";
   "    chaperone console --socket <PATH>          (answer needs_confirmation prompts)";
   "    chaperone tail --events-socket <PATH> [--toast]  (watch decisions + session events; --toast adds OS notifications)";
   [];
   "HEALTH CHECK (diagnostic only; exit 1 if anything fails):";
   "    chaperone doctor --policy <TOML> --enrollment <FILE> --store <VAULT>";
   "                     --audit-key <SEEDFILE> --audit-journal <FILE>";
   "                     [--socket <PATH>] [--passphrase-file P|--passphrase-stdin]";
   [];
   "Enrollment binds an agent_id to an Ed25519 public key (base64url of 32";
   "bytes) that the agent's key store publishes out-of-band. Revocation is";
   "effective immediately. Rotation requires revoking first (or --force)."]).

(** A command is done, or hands over to a long-running loop. *)
Inductive handover : Type :=
| Finished
| Serving (s : Startup)
| Attached (socket : str)
| Tailing (socket : str) (toast : bool).

Definition show_usage : Cmd handover := _ ← print USAGE; mret Finished.

Definition finish (c : Cmd unit) : Cmd handover := _ ← c; mret Finished.

(** The commands that take flags only. *)
Definition command (env : ServeEnv) (name : str) : option (Flags → Cmd handover) :=
  let senv := shell_env env in
  let table : list (str * (Flags → Cmd handover)) :=
    [("enroll", λ f, finish (cmd_enroll senv f)); ("revoke", λ f, finish (cmd_revoke senv f));
     ("list-agents", λ f, finish (cmd_list_agents senv f)); ("policy-check", λ f, finish (cmd_policy_check senv f));
     ("audit-keygen", λ f, finish (cmd_audit_keygen senv f));
     ("console", λ f, p ← lift (require f "socket"); mret (Attached p));
     ("tail", λ f, p ← lift (require f "events-socket"); mret (Tailing p (has f "toast")));
     ("audit-verify", λ f, finish (cmd_audit_verify senv f)); ("audit-export", λ f, finish (cmd_audit_export senv f));
     ("doctor", λ f, finish (cmd_doctor senv f)); ("vault-init", λ f, finish (cmd_vault_init senv f));
     ("ca-init", λ f, finish (cmd_ca_init senv f)); ("ca-export", λ f, finish (cmd_ca_export senv f));
     ("vault-set", λ f, finish (cmd_vault_set senv f)); ("vault-import", λ f, finish (cmd_vault_import senv f));
     ("vault-get", λ f, finish (cmd_vault_get senv f)); ("vault-list", λ f, finish (cmd_vault_list senv f));
     ("vault-del", λ f, finish (cmd_vault_del senv f)); ("serve", λ f, s ← start_serve env f; mret (Serving s))] in
  find_map (λ nc, if decide (nc.1 = name) then Some nc.2 else None) table.

(** [run]. *)
Definition run (env : ServeEnv) (args : list str) : Cmd handover :=
  match args with
  | [] => show_usage
  | name :: rest =>
      if bool_decide (name ∈ (["version"; "--version"; "-V"] : list str)) then
        finish (println ("chaperone " ++ CARGO_PKG_VERSION ++ " (protocol " ++ PROTOCOL_VERSION ++ ", gateway spec v0.1)"))
      else if decide (name = ("ui-token" : str)) then finish (cmd_ui_token (shell_env env) rest)
      else
        f ← lift (parse_flags rest);
        match command env name with
        | Some c => c f
        | None => if bool_decide (name ∈ (["--help"; "-h"; "help"] : list str)) then show_usage
                  else fail ("unknown command " ++ debug_str name ++ "; see `chaperone help`")
        end
  end.

(** [main]: the exit code. *)
Definition exit_code {A} (r : exit A) : Z := match r with Done _ => 0 | Failed _ => 2 | Panicked => 101 end.

(** ** What has been checked when a daemon runs *)

Lemma bind_done {A B} (c : Cmd A) (k : A → Cmd B) s b o s' : (c ≫= k) s = (Done b, o, s') →
  ∃ a s1 o1 o2, c s = (Done a, o1, s1) ∧ k a s1 = (Done b, o2, s').
Proof.
  unfold mbind, cmd_bind. destruct (c s) as [[[a|e|] o1] s1]; [|done..].
  destruct (k a s1) as [[r o2] s2] eqn:Hk. intros [= -> <- ->]. by exists a, s1, o1, o2.
Qed.

Lemma lift_done {A} (r : result str A) s a o s' : lift r s = (Done a, o, s') → r = Ok a ∧ s' = s.
Proof. unfold lift. destruct r; [|done]. by intros [= -> <- <-]. Qed.

Lemma map_err_ok {E F A} (g : E → F) (r : result E A) a : map_err g r = Ok a ↔ r = Ok a.
Proof. destruct r; cbn; naive_solver. Qed.

Lemma fs_read_same (env : CliEnv) (m m' : gmap str str) p : m' !! p = m !! p → fs_read env m' p = fs_read env m p.
Proof. unfold fs_read. by intros ->. Qed.

Lemma open_replay_files env p s c o s' : open_replay env p s = (Done c, o, s') → ∀ q, q ≠ p → files s' !! q = files s !! q.
Proof.
  unfold open_replay. rewrite bind_get_files. destruct (read_fault _ p); [done|]. rewrite bind_lift.
  destruct (map_err _ _); [|done]. rewrite bind_put_content. intros [= _ _ <-] q Hq. cbn. by rewrite lookup_partial_alter_ne.
Qed.

(** A journal is opened for extension only if it is new, blank, or verifies. *)
Definition extendable (existing : option str) (vk : VerifyingKey) : Prop :=
  match existing with
  | None => True
  | Some t => utf8_valid t = true ∧ (trim t = [] ∨ error (walk_lines t vk) = None)
  end.

Lemma commit_key w b prev n short r w' : commit w b prev n short = (r, w') → w_key w' = w_key w.
Proof.
  unfold commit, write_line. destruct (seal_record b prev (w_key w)) as [[h l]|]; [|by intros [= _ <-]].
  destruct short; by intros [= _ <-].
Qed.

Lemma genesis_key w ts short : w_key (append_genesis w ts short).2 = w_key w.
Proof.
  unfold append_genesis. destruct ts as [now|]; [|done]. destruct (commit w _ _ _ _) as [[] w'] eqn:Hc; by apply commit_key in Hc.
Qed.

Lemma audit_open_extendable existing key ts short w : AuditChain.open existing key ts short = Ok w →
  extendable existing (verifying_key key) ∧ w_key w = key.
Proof.
  assert (∀ w0, w_key w0 = key → match append_genesis w0 ts short with (Ok _, w) => Ok w | (Err e, _) => Err e end = Ok w → w_key w = key) as Hgen.
  { intros w0 Hk. pose proof (genesis_key w0 ts short) as Hg. destruct (append_genesis w0 ts short) as [[] w']; [|done].
    intros [= <-]. cbn in Hg. congruence. }
  unfold AuditChain.open, extendable. destruct existing as [t|]; [|intros Ho; split; [done|by eapply Hgen in Ho]].
  destruct (utf8_valid t); [|done]. destruct (is_empty (trim t)) eqn:Ht.
  { intros Ho. split; [|by eapply Hgen in Ho]. split; [done|]. left. by apply is_empty_true. }
  unfold resume. destruct (error (walk_lines t (verifying_key key))) eqn:He; [done|].
  intros ([q h] & _ & [= <-])%result_bind_ok. split; [|done]. split; [done|by right].
Qed.

Lemma open_journal_checked env p key s w o s' : open_journal env p key s = (Done w, o, s') →
  extendable (files s !! p) (verifying_key key) ∧ w_key w = key.
Proof.
  unfold open_journal. rewrite bind_get_files. destruct (read_fault _ p) as [e|], (files s !! p) as [t|]; try done;
  destruct (AuditChain.open _ key _ _) as [w0|] eqn:Ho; destruct (write_fault _ p); try done.
  all: try (rewrite bind_put_content; intros [= <- _ _]; by eapply audit_open_extendable).
  all: case_match; [rewrite bind_put_content|rewrite bind_ret]; done.
Qed.

(** What [open_parts] has checked, the replay journal being none of the files
    it reads. *)
Record parts_checked (env : ServeEnv) (m : gmap str str) (ep pp sp jp kp : str) (p : Parts) : Prop := {
  pc_perm : verify_permissions pp (policy_stat env) (euid env) = Ok tt;
  pc_enrolled : Enrollment.load (seen (shell_env env) m ep) = Ok (enrollment (p_attestor p));
  pc_policy : ∃ doc, fs_read_to_string (shell_env env) m pp = Ok doc ∧ from_toml doc = Ok (p_policy p);
  pc_vault : ∃ pass, Vault.open sp (fs_read (shell_env env) m sp) pass = Ok (handle (p_vault p));
  pc_key : ∃ text, fs_read_to_string (shell_env env) m kp = Ok text ∧ load_audit_seed_text text = Ok (p_key p);
  pc_journal : extendable (m !! jp) (verifying_key (p_key p)) ∧ w_key (p_writer p) = p_key p;
  pc_skew : Identity.config (p_attestor p) = {| max_skew_secs := 30 |};
}.

Lemma open_parts_checked env f ep pp sp jp kp s p o s' :
  with_file_name "replay.jsonl" jp ∉ [pp; sp; jp; kp] → open_parts env f ep pp sp jp kp s = (Done p, o, s') →
  parts_checked env (files s) ep pp sp jp kp p.
Proof.
  intros Hdiff Hrun. unfold open_parts in Hrun.
  apply bind_done in Hrun as ([] & ? & ? & ? & [Hperm ->]%lift_done & Hrun).
  apply bind_done in Hrun as (en & ? & ? & ? & Hen & Hrun). unfold open_store in Hen. rewrite bind_get_files in Hen.
  apply lift_done in Hen as [Hen%map_err_ok ->].
  apply bind_done in Hrun as (cache & s3 & ? & ? & Hopen & Hrun). pose proof (open_replay_files _ _ _ _ _ _ Hopen) as Hfiles. clear Hopen.
  assert (∀ q, q ∈ [pp; sp; jp; kp] → files s3 !! q = files s !! q) as Hm by (intros q Hq; apply Hfiles; congruence).
  clear Hfiles Hdiff. rewrite bind_read_to_string in Hrun.
  apply bind_done in Hrun as (doc & ? & ? & ? & [Hdoc%map_err_ok ->]%lift_done & Hrun).
  apply bind_done in Hrun as (pol & ? & ? & ? & [Hpol%map_err_ok ->]%lift_done & Hrun).
  apply bind_done in Hrun as (pass & s4 & ? & ? & Hpass & Hrun).
  destruct (read_passphrase_quiet (shell_env env) f false s3) as (r & s5 & Hq & Hfs & _).
  rewrite Hq in Hpass. injection Hpass as -> <- ->. rewrite bind_read in Hrun.
  apply bind_done in Hrun as (v & ? & ? & ? & [Hv%map_err_ok ->]%lift_done & Hrun). rewrite bind_get_files, bind_read_to_string in Hrun.
  apply bind_done in Hrun as (seed & ? & ? & ? & [Hseed%map_err_ok ->]%lift_done & Hrun).
  apply bind_done in Hrun as (key & ? & ? & ? & [Hkey ->]%lift_done & Hrun).
  apply bind_done in Hrun as (w & ? & ? & ? & [Hext Hwk]%open_journal_checked & Hrun). injection Hrun as <- _ _.
  rewrite Hfs in *. unfold fs_read_to_string in *.
  erewrite (fs_read_same _ _ _ pp) in Hdoc by (apply Hm; set_solver). erewrite (fs_read_same _ _ _ sp) in Hv by (apply Hm; set_solver).
  erewrite (fs_read_same _ _ _ kp) in Hseed by (apply Hm; set_solver).
  rewrite Hm in Hext by set_solver. split; cbn; [done|done|by exists doc|by exists pass|by exists seed|done|done].
Qed.

(** What [wire_gateway] makes of the parts. *)
Lemma wire_gateway_shape env f jp p s g o s' : wire_gateway env f jp p s = (Done g, o, s') →
  attestor g = p_attestor p ∧ policy g = p_policy p ∧ ruleset_hash g = source_hash_hex (p_policy p) ∧
  sessions g = table_new ∧ backends g = ∅ ∧ privilege_allowlist g = None ∧ halted g = false ∧ halt_reason g = None ∧
  config g = gateway_config f ∧
  ∃ h, append (p_writer p) (policy_load_event (source_hash_hex (p_policy p))) (clock env) (load_short env) = (Ok h, audit g).
Proof.
  unfold wire_gateway, gateway_new. destruct (is_ok (http_client env)); cbn [negb]; [|by rewrite bind_put_content].
  destruct (append _ _ _ _) as [[h|e] w'] eqn:Ha; rewrite bind_put_content, bind_lift; [|done]. cbn [map_err].
  intros Hrun. apply bind_done in Hrun as (has_ca & s1 & ? & ? & _ & Hrun). injection Hrun as <- _ _.
  destruct has_ca; cbn; split_and!; try done; by exists h.
Qed.

(** The gateway of a running daemon, with everything that was checked. *)
Record broker_checked (env : ServeEnv) (f : Flags) (m : gmap str str) (d : Daemon) (p : Parts) : Prop := {
  bc_parts : ∃ ep pp sp jp kp, require f "enrollment" = Ok ep ∧ require f "policy" = Ok pp ∧ require f "store" = Ok sp ∧
    require f "audit-journal" = Ok jp ∧ require f "audit-key" = Ok kp ∧
    (with_file_name "replay.jsonl" jp ∉ [pp; sp; jp; kp] → parts_checked env m ep pp sp jp kp p);
  bc_gateway : attestor (d_gateway d) = p_attestor p ∧ policy (d_gateway d) = p_policy p ∧ d_vault d = p_vault p;
  bc_baseline : d_watch_baseline d = source_hash_hex (p_policy p) ∧ ruleset_hash (d_gateway d) = d_watch_baseline d;
  bc_recorded : ∃ h, append (p_writer p) (policy_load_event (d_watch_baseline d)) (clock env) (load_short env) = (Ok h, audit (d_gateway d));
  bc_clean : sessions (d_gateway d) = table_new ∧ halted (d_gateway d) = false;
  bc_backends : backends (d_gateway d) = {["db-scram" : str]} ∪ ({["ssh" : str]} ∪ ∅) ∧ privilege_allowlist (d_gateway d) = None;
  bc_ui : match d_ui d with
          | None => has f "no-ui" = true
          | Some t => ∃ raw32, decode_signature (raw t) = Ok raw32 ∧ length raw32 = 32%nat
          end;
}.

Lemma load_token_ok p r t : load_token p r = Ok t → ∃ raw32, decode_signature (raw t) = Ok raw32 ∧ length raw32 = 32%nat.
Proof.
  unfold load_token. destruct r as [text|]; [|done]. intros (raw32 & Hd%map_err_ok & Hl)%result_bind_ok.
  destruct (decide _); [|done]. injection Hl as <-. by exists raw32.
Qed.

Lemma start_broker_checked env f ep pp sp jp kp tp port s d o s' :
  start_broker env f ep pp sp jp kp tp port s = (Done d, o, s') →
  require f "enrollment" = Ok ep → require f "policy" = Ok pp → require f "store" = Ok sp →
  require f "audit-journal" = Ok jp → require f "audit-key" = Ok kp → ∃ p, broker_checked env f (files s) d p.
Proof.
  intros Hrun Hep Hpp Hsp Hjp Hkp. unfold start_broker in Hrun.
  apply bind_done in Hrun as (p & s1 & ? & ? & Hparts & Hrun).
  apply bind_done in Hrun as (gate & s2 & ? & ? & _ & Hrun).
  apply bind_done in Hrun as (g & s3 & ? & ? & Hwire & Hrun).
  apply wire_gateway_shape in Hwire as (Hat & Hpol & Hhash & Hsess & Hback & Hpriv & Hhalt & _ & _ & h & Happ).
  apply bind_done in Hrun as (hk & s4 & ? & ? & _ & Hrun).
  apply bind_done in Hrun as (ev & s5 & ? & ? & _ & Hrun).
  apply bind_done in Hrun as (ui & s6 & ? & ? & Hui & Hrun).
  apply bind_done in Hrun as (spec & s7 & ? & ? & _ & Hrun).
  apply bind_done in Hrun as (tr & s8 & ? & ? & _ & Hrun).
  apply bind_done in Hrun as (u & s9 & ? & ? & _ & Hrun). injection Hrun as <- _ _.
  exists p. split; cbn; rewrite ?Hhash, ?Hback; try done.
  - exists ep, pp, sp, jp, kp. split_and!; try done. intros Hd. by eapply open_parts_checked.
  - by exists h.
  - destruct (has f "no-ui"); [by injection Hui as <- _ _|]. apply bind_done in Hui as (t & ? & ? & ? & Ht & Hui).
    injection Hui as <- _ _. unfold ui_gate in Ht. rewrite bind_read_to_string in Ht. apply lift_done in Ht as [Ht%map_err_ok _].
    by eapply load_token_ok.
Qed.

Lemma start_serve_broker env f s d o s' : start_serve env f s = (Done (Broker d), o, s') → ∃ p, broker_checked env f (files s) d p.
Proof.
  unfold start_serve. intros Hrun.
  apply bind_done in Hrun as (ep & ? & ? & ? & [Hep ->]%lift_done & Hrun).
  apply bind_done in Hrun as (pp & ? & ? & ? & [Hpp ->]%lift_done & Hrun).
  apply bind_done in Hrun as (sp & ? & ? & ? & [Hsp ->]%lift_done & Hrun).
  apply bind_done in Hrun as (jp & ? & ? & ? & [Hjp ->]%lift_done & Hrun).
  apply bind_done in Hrun as (kp & ? & ? & ? & [Hkp ->]%lift_done & Hrun).
  rewrite bind_get_files in Hrun. destruct (_ && _ && _).
  - apply bind_done in Hrun as (d' & ? & ? & ? & Hb & Hrun). injection Hrun as <- _ _. by eapply start_broker_checked.
  - unfold serve_setup in Hrun. destruct (has f "no-ui"); [done|].
    repeat (apply bind_done in Hrun as (? & ? & ? & ? & _ & Hrun)). done.
Qed.

(** C21: A daemon brokers only after its artifacts were checked.  When [serve] gets
    as far as listening, the policy file belonged to the daemon's user and
    nobody else could write it; the gateway runs exactly the policy of that
    document, whose hash is the baseline of the drift watch and the last record
    of the audit chain; the vault was opened with the passphrase; the audit key
    is the one of the key file, and the journal was new, blank or verified to
    its end under it; no session is open and nothing is halted. *)
Theorem broker_starts_checked env f s d o s' pp sp jp kp :
  start_serve env f s = (Done (Broker d), o, s') →
  require f "policy" = Ok pp → require f "store" = Ok sp → require f "audit-journal" = Ok jp → require f "audit-key" = Ok kp →
  with_file_name "replay.jsonl" jp ∉ [pp; sp; jp; kp] →
  ∃ mode doc pass text key h w,
    policy_stat env = Ok (mode, euid env) ∧ Z.testbit mode 1 = false ∧ Z.testbit mode 4 = false ∧
    fs_read_to_string (shell_env env) (files s) pp = Ok doc ∧ from_toml doc = Ok (policy (d_gateway d)) ∧
    d_watch_baseline d = hash_doc_bytes doc ∧ ruleset_hash (d_gateway d) = hash_doc_bytes doc ∧
    Vault.open sp (fs_read (shell_env env) (files s) sp) pass = Ok (handle (d_vault d)) ∧
    fs_read_to_string (shell_env env) (files s) kp = Ok text ∧ load_audit_seed_text text = Ok key ∧
    extendable (files s !! jp) (verifying_key key) ∧ w_key w = key ∧
    append w (policy_load_event (hash_doc_bytes doc)) (clock env) (load_short env) = (Ok h, audit (d_gateway d)) ∧
    sessions (d_gateway d) = table_new ∧ halted (d_gateway d) = false.
Proof.
  intros Hrun Hpp Hsp Hjp Hkp Hdiff. destruct (start_serve_broker _ _ _ _ _ _ Hrun) as [p [Hparts Hgw Hbase [h Happ] Hclean _ _]].
  destruct Hparts as (ep & pp' & sp' & jp' & kp' & _ & Hpp' & Hsp' & Hjp' & Hkp' & Hparts).
  rewrite Hpp in Hpp'; rewrite Hsp in Hsp'; rewrite Hjp in Hjp'; rewrite Hkp in Hkp'. simplify_eq.
  destruct (Hparts Hdiff) as [Hperm _ (doc & Hdoc & Hpol) (pass & Hv) (text & Htext & Hkey) [Hext Hwk] _].
  destruct (policy_stat env) as [[mode uid]|] eqn:Hst; [|done]. apply verify_permissions_ok in Hperm as (-> & Hb1 & Hb4).
  destruct Hgw as (_ & Hp & Hvault), Hbase as [Hb Hr], Hclean as [Hs Hh].
  assert (source_hash_hex (p_policy p) = hash_doc_bytes doc) as Hhash.
  { revert Hpol. unfold from_toml. intros (file & _ & Hl)%result_bind_ok. by apply result_bind_ok in Hl as (rs & _ & [= <-]). }
  exists mode, doc, pass, text, (p_key p), h, (p_writer p). rewrite Hr, Hb, Hhash, Hp, Hvault.
  rewrite Hb, Hhash in Happ. split_and!; done.
Qed.

(** No daemon brokers local privilege: the backend is not registered by
    [serve], so the intent is refused, whatever policy and human say. *)
Theorem local_privilege_unavailable env f s d o s' w message id envelope dec :
  start_serve env f s = (Done (Broker d), o, s') → e_mechanism envelope = ("local-privilege" : str) →
  broker w message id envelope dec (d_gateway d) =
  fail_with w message envelope dec MechanismError "E_MECHANISM" (no_backend "local-privilege") (d_gateway d).
Proof.
  intros Hrun He. destruct (start_serve_broker _ _ _ _ _ _ Hrun) as [p [_ _ _ _ _ [Hb _] _]].
  unfold broker. rewrite He. replace (bool_decide (("local-privilege" : str) ∈ ONE_SHOT)) with false by reflexivity.
  unfold route_session, get_gw, mbind, M_bind. rewrite He, Hb.
  replace (bool_decide (("local-privilege" : str) ∈ (["ssh"; "local-privilege"] : list str))) with true by reflexivity.
  replace (bool_decide (("local-privilege" : str) ∈ ({["db-scram" : str]} ∪ ({["ssh" : str]} ∪ ∅) : gset str))) with false by reflexivity.
  by destruct (fail_with _ _ _ _ _ _ _ _) as [[]].
Qed.

(** The setup wizard needs no secret: it starts only where an artifact is
    missing, behind a token of 32 bytes, and neither changes a file nor reads
    the passphrase. *)
Theorem setup_touches_nothing env f s token port enrolled o s' :
  start_serve env f s = (Done (SetupWizard token port enrolled), o, s') →
  s' = s ∧ has f "no-ui" = false ∧ (∃ raw32, decode_signature (raw token) = Ok raw32 ∧ length raw32 = 32%nat) ∧
  ∃ p, (require f "policy" = Ok p ∨ require f "store" = Ok p ∨ require f "audit-key" = Ok p) ∧ files s !! p = None.
Proof.
  unfold start_serve. intros Hrun.
  apply bind_done in Hrun as (ep & ? & ? & ? & [Hep ->]%lift_done & Hrun).
  apply bind_done in Hrun as (pp & ? & ? & ? & [Hpp ->]%lift_done & Hrun).
  apply bind_done in Hrun as (sp & ? & ? & ? & [Hsp ->]%lift_done & Hrun).
  apply bind_done in Hrun as (jp & ? & ? & ? & [Hjp ->]%lift_done & Hrun).
  apply bind_done in Hrun as (kp & ? & ? & ? & [Hkp ->]%lift_done & Hrun).
  rewrite bind_get_files in Hrun. destruct (_ && _ && _) eqn:Hex.
  { apply bind_done in Hrun as (d' & ? & ? & ? & _ & Hrun). done. }
  unfold serve_setup in Hrun. destruct (has f "no-ui"); [done|].
  do 5 apply bind_done in Hrun as (? & ? & ? & ? & [_ ->]%lift_done & Hrun).
  apply bind_done in Hrun as (t & ? & ? & ? & Ht & Hrun). unfold ui_gate in Ht. rewrite bind_read_to_string in Ht.
  apply lift_done in Ht as [Ht%map_err_ok ->].
  apply bind_done in Hrun as (en & ? & ? & ? & Hen & Hrun). unfold open_store in Hen. rewrite bind_get_files in Hen. apply lift_done in Hen as [_ ->].
  apply bind_done in Hrun as (u & ? & ? & ? & Hp & Hrun). rewrite print_lines_run in Hp. injection Hp as _ <-. injection Hrun as <- <- <- _ <-.
  split_and!; [done|done|by eapply load_token_ok|].
  assert (∀ p, fs_exists (files s) p = false → files s !! p = None) as Hnone.
  { unfold fs_exists. intros p. rewrite bool_decide_eq_false. apply eq_None_not_Some. }
  apply andb_false_iff in Hex as [[Hex|Hex]%andb_false_iff|Hex]; apply Hnone in Hex; naive_solver.
Qed.

(** A frame as it was seen: its direction, its bytes and the time. *)
Definition frame_entry (x : str * str * str) : entry * str :=
  (Frame x.1.1 (b64std_encode x.1.2) (zlen x.1.2), x.2).

Lemma observe_records fs w n w' : record_all w (frame_entry <$> fs) = Ok w' → 0 ≤ n → n + zlen fs < 2 ^ 53 →
  fold_left (λ st x, observe_frame st x.1.1 x.1.2 (Ok x.2) None) fs (w, n) = (w', n + zlen fs).
Proof.
  revert w n. induction fs as [|[[d b] t] fs IH]; intros w n.
  { intros [= <-] _ _. cbn. f_equal. unfold zlen. cbn. lia. }
  cbn [fmap list_fmap frame_entry fst snd record_all record_entry fold_left]. intros Hr Hn Hmax. unfold zlen in *. cbn [length] in *.
  destruct (append_frame w d _ _ _ _) as [[h|] w1] eqn:Ha; [|done].
  assert (observe_frame (w, n) d b (Ok t) None = (w1, n + 1)) as ->.
  { unfold observe_frame, zlen. cbn [fst snd]. rewrite Ha. f_equal. unfold u64_wrapping_add, u64_max. rewrite Z.mod_small; lia. }
  rewrite (IH w1 (n + 1)) by (done || lia). f_equal. lia.
Qed.

(** The transcript of a run verifies from its genesis to its end marker,
    whatever frames were seen: one record per frame, and the marker carries
    their number. *)
Theorem run_transcript_verifies key hd pub ver ts fs ts' :
  Forall (λ x, zlen x.1.2 < 2 ^ 53) fs → zlen fs + 1 < 2 ^ 53 →
  ∃ w0 w n h we, Transcript.create false key hd pub ver (Ok ts) None = Ok w0 ∧
    fold_left (λ st x, observe_frame st x.1.1 x.1.2 (Ok x.2) None) fs (w0, 0) = (w, n) ∧ n = zlen fs ∧
    end_transcript w n (Ok ts') None = (Ok h, we) ∧
    error (walk_lines (journal we) (verifying_key key)) = None ∧
    records_ok (walk_lines (journal we) (verifying_key key)) = (length fs + 2)%nat.
Proof.
  intros Hf Hmax. destruct (create_good key hd pub ver ts) as (w0 & Hc & Hi0 & Hq0 & Hk0).
  destruct (record_all_good (frame_entry <$> fs) w0 Hi0) as (w & Hr & Hi & Hq & Hk).
  { apply Forall_fmap. eapply Forall_impl; [exact Hf|]. intros x Hx. cbn. split; [apply zlen_nonneg|done]. }
  { unfold zlen in *. rewrite length_fmap. lia. }
  assert (zlen (frame_entry <$> fs) = zlen fs) as Hlen by (unfold zlen; by rewrite length_fmap).
  destruct (record_entry_extends w (TheEnd (zlen fs)) ts' Hi) as (we & Hend & Hie & Hqe & Hke); [split; [apply zlen_nonneg|lia]|lia|].
  destruct Hie as (ls & Hls & _ & Hj & Hwe & _ & Hw). rewrite Hke, Hk, Hk0 in Hw.
  exists w0, w, (zlen fs), (head we), we. rewrite (observe_records fs w0 0 w Hr) by lia.
  unfold walk_lines. rewrite Hj, lines_jtext by done. rewrite Hw. split_and!; try done.
  cbn. rewrite Hqe, Hq, Hq0, Hlen. unfold zlen. lia.
Qed.

End Serve.

(** ** Flags that do not do what they say *)

(** The usage names [--confirm never-approve]; it is not read, and the daemon
    asks on its terminal. *)
Example confirm_flag_ignored env s :
  (choose_gate env {| values := {["confirm" : str := "never-approve" : str]}; switches := [] |} s).1.1 = Done (StdioGate 120) ∧
  (choose_gate env {| values := {["confirm-timeout-secs" : str := "never-approve" : str]}; switches := [] |} s).1.1 = Done AlwaysTimeoutGate.
Proof. split; reflexivity. Qed.

(** A ceiling that is no number is not refused: the default, which is larger,
    is used. *)
Example bad_ceiling_is_default :
  default_max_response_bytes (gateway_config {| values := {["max-response-bytes" : str := "64k" : str]}; switches := [] |}) = 1048576.
Proof. reflexivity. Qed.

Section Witnesses.
#[local] Existing Instances toy_base64 toy_aead toy_argon2 toy_serde toy_serde_line toy_debug toy_sha256 toy_ed25519 toy_ssh toy_json toy_time toy_toml.

Definition a_serve_env : ServeEnv :=
  {| shell_env := a_shell_env; policy_stat := Ok (384, 1000); euid := 1000; now_unix := 0; replay_io := io_good;
     clock := Ok "2026-01-01T00:00:00Z"; genesis_short := None; load_short := None; transcript_short := None;
     http_client := Ok tt; console_bind _ := Ok tt; events_bind _ := Ok tt; runtime_dir := None; user_name := None; temp_dir := "/tmp" |}.

Definition serve_flags : Flags :=
  {| values := <[("enrollment" : str) := ("/e" : str)]> (<[("policy" : str) := ("/p" : str)]> (<[("store" : str) := ("/v" : str)]>
               (<[("audit-journal" : str) := ("/j" : str)]> {[ ("audit-key" : str) := ("/k" : str) ]})));
     switches := ["no-ui"] |}.

Definition serve_shell : Shell :=
  {| files := <[("/p" : str) := ("rules" : str)]> (<[("/k" : str) := encode_signature (replicate 32 Byte.x41)]> (files a_shell)); input := [] |}.

Definition started : option Daemon :=
  match (start_serve a_serve_env serve_flags serve_shell).1.1 with Done (Broker d) => Some d | _ => None end.

Lemma starts : ∃ d o s', start_serve a_serve_env serve_flags serve_shell = (Done (Broker d), o, s').
Proof.
  assert (bool_decide (is_Some started) = true) as Hs by (vm_compute; reflexivity). apply bool_decide_eq_true in Hs as [d Hd].
  unfold started in Hd. destruct (start_serve a_serve_env serve_flags serve_shell) as [[[[|d'] | |] o] s']; try done. by exists d', o, s'.
Qed.

Lemma broker_starts_checked_witness :
  ∃ d o s', start_serve a_serve_env serve_flags serve_shell = (Done (Broker d), o, s') ∧
    ∃ doc pass, from_toml doc = Ok (policy (d_gateway d)) ∧
      Vault.open "/v" (fs_read a_shell_env (files serve_shell) "/v") pass = Ok (handle (d_vault d)).
Proof.
  destruct starts as (d & o & s' & Hrun). exists d, o, s'. split; [exact Hrun|].
  destruct (broker_starts_checked a_serve_env serve_flags serve_shell d o s' "/p" "/v" "/j" "/k" Hrun) as
    (mode & doc & pass & text & key & h & w & _ & _ & _ & _ & Hpol & _ & _ & Hv & _); [reflexivity..| |].
  - apply (bool_decide_unpack _). reflexivity.
  - exists doc, pass. split; [exact Hpol|exact Hv].
Defined.

End Witnesses.
